(* ===== verification/_CoqProject ===== *)
-Q . S2P
Prelude.v
RlpTypes.v
RlpEncode.v
RlpRaw.v
RlpStream.v
RlpDecode.v
RlpTyped.v
RlpCache.v
RlpMethods.v
RlpErrors.v
Keccak.v
Sponge.v
Types.v
ReceiptLog.v
Hexutil.v
HexutilSpec.v
Crypto.v
SignatureCgo.v
SignatureNocgo.v
Text.v
LogFormat.v
LogFormatSpec.v
Common.v
LogHandler.v
GlogSpec.v
LogSpec.v
LogSinks.v
Graph.v
Jigsaw.v
JigsawSpec.v
Round.v
Search.v
RoundLoops.v
RoundRest.v
Wire.v
Peer.v
PeerSpec.v
ServerSpec.v
ServerLife.v
Node.v
System.v
Agreement.v
Ledger.v
Origin.v
Network.v
Hgrid.v
