(* ===== verification/Prelude.v ===== *)
(** * go-hashgrid: a verification development

    go-hashgrid is a node of a peer-to-peer network that keeps a graph of events.
    Every node composes events, each with two parents: the last event of its own
    and, where there is one, an event of another node.  Events are hashed, sent to
    the other nodes, added to the graph of everybody who receives them, and divided
    into rounds, from which the order of events is to be found.

    ** The program and how its parts interact

    - [src/rlp] is the encoding of values as bytes.  Events are encoded to be hashed
      ([src/core/types.go]) and to be sent ([src/p2p]).
    - [src/crypto/sha3] is the hash function.
    - [src/core] holds events ([types.go]), the graph ([jigsaw.go]) and the rounds with
      the loops that watch over them ([round.go]).
    - [src/p2p] frames messages ([message.go], the connection in [server.go]), handles the
      messages of a peer ([peer.go]) and keeps the table of peers ([server.go]).
      A message with an event puts the event into a channel of the graph.
    - [src/node] receives events from that channel, has own events composed, added and
      broadcast.
    - [src/core/hexutil], [src/core/common] print and read bytes and numbers.
    - [src/log] writes the log.
    - [src/crypto] holds keys, key files, addresses and signatures; [src/core/types/log.go] the
      record of a log entry with two encodings.  Nothing else calls them yet.
    - [src/hgrid] is the program: it sets the log up, reads the configuration and starts a node.

    ** Files

    - [Prelude]: results, bytes, big-endian numbers, lists; the databases of hints and
      the tactics used throughout ([solve_bytes] and others).
    - [RlpTypes], [RlpEncode], [RlpRaw], [RlpStream], [RlpDecode], [RlpTyped], [RlpCache], [RlpMethods], [RlpErrors]: [src/rlp].
      Go types and values are data ([gtype], [gval]), and [makeWriter] and [makeDecoder]
      interpret a type as the code does by reflection.  [rlp_enc] is the encoding as the
      rules give it.  [RlpMethods] has the interfaces [Encoder] and [Decoder] as classes, what their
      methods have to satisfy ([RlpLaws]), and slices of such values by these laws alone.
      [RlpErrors] has the text of an error and the place in the type that it names.
    - [ReceiptLog]: [src/core/types/log.go], whose methods are instances of those classes.
    - [Crypto], [SignatureCgo], [SignatureNocgo]: [src/crypto/crypto.go] and both variants of signatures.
      Code of other packages is a class ([Eth], [Secp256k1], [Btcec], [Libsecp]), its documented
      behaviour another ([EthLaws], [CurveLaws], [BtcecLaws], [LibsecpLaws]), each with an
      instance that shows it can be satisfied.
    - [Keccak], [Sponge]: [src/crypto/sha3].  [keccak_f] is the permutation of FIPS 202
      by its five steps and [sponge] the sponge construction; the code's unrolled
      permutation and buffered sponge are proved equal to them.
    - [Types]: [src/core/types.go]: hashes, addresses, events.
    - [Hexutil], [HexutilSpec]: [src/core/hexutil], [src/core/common/bytes.go] and the
      hexadecimal forms in [src/core/types.go].  [Common]: the other files of [src/core/common].
    - [Graph]: the state of [JPGraph], with stores for the objects that are shared by
      pointers, and the monad [JM] of operations on it, which may panic, block or
      diverge; [wp] is its weakest precondition.
    - [Jigsaw], [JigsawSpec]: [src/core/jigsaw.go].  [inv] is the invariant of the graph.
    - [Round], [Search], [RoundLoops], [RoundRest]: [src/core/round.go].  A loop that
      never ends is modelled by one turn of it.
    - [Wire]: messages and connections; [Peer], [PeerSpec], [ServerSpec]: the peers and
      the server of [src/p2p].  [ServerLife]: the server from [Start] to [Stop], with its loops, the
      goroutines of connections and peers and the callers of its methods as steps on one state.
    - [Node]: [src/node/node.go].
    - [System]: all of it: [node_step] is one step of any of the goroutines of a node.
      [Agreement]: what two nodes have in common.  [Ledger]: the abstract specification of a graph, a
      ledger of events per address to which events are only added, and the refinement of it by [node_step].
      [Origin]: where the events of a node come from and where they go.  [Network]: hosts, each a node with its connections, and the
      bytes between them, as steps of one state ([network_step]).
      [Hgrid]: [src/hgrid/main.go] and [NewNode], which make the state that this starts from.
    - [Text]: UTF-8, decimal numbers and the string functions of the standard library that
      the log uses.  [LogFormat], [LogFormatSpec]: the formats of [src/log/format.go].
      [LogHandler]: the handlers and loggers of the other files of [src/log], with [Log]
      interpreting the closures that handlers are.  [GlogSpec], [LogSpec]: their properties.
      [LogSinks]: the handlers that write to files, sockets and the system's log; opening these is the class [Openers].

    ** What the theorems show

    - The encoder computes the RLP rules and the decoder is its inverse on encodings of
      values; decoding ends on every input, for types without arrays of one byte, and never produces a value outside of the type;
      the context of a decoding error is a path that leads from the type of the target to a part of it;
      [Split] and [CountValues] accept exactly canonical input; the type cache makes no difference.
    - The permutation is Keccak-f[1600], hashing is the sponge whatever pieces the data
      comes in, and reading in pieces gives one stream.
    - The hash of an event determines the hashed content, short of a collision; the
      texts of hashes, addresses, bytes and numbers are read back, and exactly the
      canonical texts of numbers are accepted.
    - Adding events keeps the graph well-formed: parents exist, columns are chains, hashes
      find their vertices, rounds have consecutive numbers.  The searches end and
      count exactly the reachable columns.  What each loop of the round manager does in
      one turn.
    - Messages of any content are handled without a panic; events arrive as they were
      sent; the table of peers holds those that run; how handshakes and loops end.
    - Two nodes hold the same event under a hash, and the same events behind it along other parents; but the links
      along self parents depend on the order in which events arrive.
    - Every run of a node is a run of the ledger: what is in it stays at its place, an addition is a step of
      it by one event, and two nodes that are given the same events hold the same ones under each address.
    - In a network of such nodes every node is in a state that [node_step] reaches, what arrives are the messages that were sent,
      and an event in anybody's graph was composed by the node whose address it carries.  Round numbers are
      assumed to stay below 2^64, which keeps messages below the size that the header holds.
    - The server: the wait group counts the loops, a running server has its loop, the table is that of the peers that run;
      [Stop] and [Start] return; who waits for ever and when.  What [main] starts, and when it panics.
    - Keys are the numbers below the order in 32 bytes, and files and texts give them back; the key that signed is
      recovered from a signature; no signature has a second form that is accepted; slices of
      log records are read back.
    - [System.node_invariant] composes these for one node: whatever messages arrive and whatever the order
      in which the goroutines take their turns, the graph stays well-formed.
    - A line of the log is one line and parses back into what was logged, whatever characters the
      values contain.  Derived loggers write through the current handler of their
      parent; filtering by verbosity does not depend on its cache; handlers fail over in
      order; logging ends unless handlers form a cycle.  The lines of a log file give the records back.
    - Where the code does not do what it means to, a theorem says what it does: for
      instance [addComer] that keeps a lock, [RandParent] that never chooses another node's
      event, [putInt32] that does not survive the header, [WitnessFame] that panics, a
      message that stops the node.

    ** Bounds and fuel

    Recursion that is not structural has fuel, and a theorem says that the fuel given is
    enough: [loop_fuel] is above the number of bytes left, of which every element of
    a list consumes one; decoding into an interface has the depth of nesting that the input can
    have ([Decode_terminates]); [walk_fuel] is above the number of vertices, and
    walks along self parents never repeat a vertex, nor does the depth-first search visit a
    vertex twice ([JudgeSee_spec], [clearColorDFS_spec]); [read_fuel] is above the number of
    bytes of a connection, and every message has a header ([run_spec]); the loops of the sponge are
    bounded by the length of the data; [Log] has the height of the
    handler ([Log_terminates]).  Where fuel would run out the result says so
    ([Diverges], [OutOfFuel], an error of its own), and is never taken for success.
    Integers are [Z] with the wrap-around of their width written out ([u8], [u32], [u64], and
    the conversions of [Wire]); [int] has 64 bits.
    [big.Int] is [Z].

    ** Not modelled

    - [src/crypto/sha3/keccakf_amd64.s]: assembly.  The packages that [src/crypto] calls, which are not in the
      repository.
    - The network: whether listening, dialling and accepting succeed is left open, and a connection is the bytes that
      arrive and those that are sent.  The JSON text of the configuration.
    - The lock of [src/rlp/typecache.go], which is held while the cache is filled.
      Types with their own [EncodeRLP] or [DecodeRLP] inside of other types than slices.
    - Locks that every function releases.  Operations run one after the other, in any order,
      which is how the locks of the graph have them run; the lock that
      one function keeps is in the model.
    - Time, except as an event's number; the timers of a node may run off at any turn.
    - The rounding of floating-point numbers that [src/core/common/size.go] prints with, and the parsing of
      JSON in [test_utils.go]: arguments of [Common].
    - What the system does when a file, a socket or the system's log is opened or written, the text of JSON and of
      values of unknown types: [Env] and [Openers] name what is relied on.  [src/log/term]: calls of the
      system alone.  [src/log/handler_go13.go], which is built by releases before Go 1.4 only.
*)

From Stdlib Require Export ZArith Lia Btauto.
From stdpp Require Export base tactics numbers list gmap strings.

#[export] Set Default Goal Selector "!".
Local Open Scope Z_scope.

(** ** Results of fallible code *)

Inductive result (E A : Type) : Type :=
| Ok (a : A)
| Err (e : E).
Arguments Ok {E A} a.
Arguments Err {E A} e.

Instance result_ret {E} : MRet (result E) := fun A a => Ok a.
Instance result_bind {E} : MBind (result E) :=
  fun A B f r => match r with Ok a => f a | Err e => Err e end.

Definition is_ok {E A} (r : result E A) : bool :=
  match r with Ok _ => true | Err _ => false end.

(** Two results that succeed together with related values or fail together
    with related errors. *)
Definition result_rel {E A B} (RE : relation E) (R : A -> B -> Prop)
    (r1 : result E A) (r2 : result E B) : Prop :=
  match r1, r2 with
  | Ok a, Ok b => R a b
  | Err e1, Err e2 => RE e1 e2
  | _, _ => False
  end.

Lemma result_rel_bind {E A B A' B'} (RE : relation E) (R : A -> B -> Prop)
    (R' : A' -> B' -> Prop) r1 r2 f1 f2 :
  result_rel RE R r1 r2 ->
  (forall a b, R a b -> result_rel RE R' (f1 a) (f2 b)) ->
  result_rel RE R' (r1 ≫= f1) (r2 ≫= f2).
Proof. destruct r1, r2; cbn; naive_solver. Qed.

Lemma bind_Ok {E A B} (r : result E A) (f : A -> result E B) b :
  r ≫= f = Ok b -> exists a, r = Ok a /\ f a = Ok b.
Proof. destruct r; cbn; naive_solver. Qed.

(** ** Fixed-width integers and bytes *)

Abbreviation bytes := (list Z).
Abbreviation zlen l := (Z.of_nat (length l)).

Definition u8 (x : Z) : Z := x mod 2 ^ 8.
Definition u32 (x : Z) : Z := x mod 2 ^ 32.
Definition u64 (x : Z) : Z := x mod 2 ^ 64.

Definition byte_ok (b : Z) : Prop := 0 <= b < 256.
Definition bytes_ok (l : bytes) : Prop := Forall byte_ok l.

(** Big-endian value of a byte string, and the [n]-byte big-endian string. *)
Fixpoint be_val (l : bytes) : Z :=
  match l with
  | [] => 0
  | b :: l' => b * 256 ^ zlen l' + be_val l'
  end.

Fixpoint be_bytes (n : nat) (z : Z) : bytes :=
  match n with
  | O => []
  | S m => (z / 256 ^ Z.of_nat m) mod 256 :: be_bytes m z
  end.

(** Number of bytes of the shortest big-endian string, 0 for 0:
    the method [Bytes] of [big.Int] is [be_min] of the absolute value. *)
Definition nbytes (z : Z) : nat :=
  if decide (z <= 0) then O else Z.to_nat (Z.log2 z / 8 + 1).

Definition be_min (z : Z) : bytes := be_bytes (nbytes z) z.

Fixpoint le_val (l : bytes) : Z :=
  match l with
  | [] => 0
  | b :: l' => b + 256 * le_val l'
  end.

Fixpoint le_bytes (n : nat) (z : Z) : bytes :=
  match n with
  | O => []
  | S m => z mod 256 :: le_bytes m (z / 256)
  end.

#[global] Instance byte_ok_dec b : Decision (byte_ok b).
Proof. unfold byte_ok. apply _. Defined.
#[global] Instance bytes_ok_dec l : Decision (bytes_ok l).
Proof. unfold bytes_ok. apply _. Defined.

(** ** Automation *)

Create HintDb go discriminated.
#[export] Hint Constants Opaque : go.

(** Splits conjunctions, destructs the matches of hypotheses that decide a
    result, and closes contradictory branches. *)
Ltac inv_bind :=
  repeat match goal with
  | H : (_ ≫= _) = Ok _ |- _ =>
      let a := fresh "a" in let E := fresh "E" in
      apply bind_Ok in H as (a & E & H)
  | H : Ok _ = Ok _ |- _ => inversion H; subst; clear H
  | H : Err _ = Ok _ |- _ => discriminate H
  end.
(** [bytes_ok] of a concrete list. *)
Ltac solve_bytes :=
  unfold bytes_ok, byte_ok; repeat (apply List.Forall_cons; [lia|]); apply List.Forall_nil.
Ltac case_all :=
  repeat (case_match; simplify_eq/=; try done; try lia).
Ltac zbool :=
  repeat match goal with
  | H : (_ <? _) = true |- _ => apply Z.ltb_lt in H
  | H : (_ <? _) = false |- _ => apply Z.ltb_ge in H
  | H : (_ <=? _) = true |- _ => apply Z.leb_le in H
  | H : (_ <=? _) = false |- _ => apply Z.leb_gt in H
  | H : (_ =? _) = true |- _ => apply Z.eqb_eq in H
  | H : (_ =? _) = false |- _ => apply Z.eqb_neq in H
  | H : (_ && _)%bool = true |- _ => apply andb_true_iff in H; destruct H
  | H : (_ || _)%bool = false |- _ => apply orb_false_iff in H; destruct H
  | H : negb _ = true |- _ => apply negb_true_iff in H
  | H : negb _ = false |- _ => apply negb_false_iff in H
  end.

(** ** Powers of 256 *)

Lemma pow256_pos n : 0 < 256 ^ Z.of_nat n.
Proof. apply Z.pow_pos_nonneg; lia. Qed.

Lemma pow256_S n : 256 ^ Z.of_nat (S n) = 256 * 256 ^ Z.of_nat n.
Proof. rewrite Nat2Z.inj_succ, Z.pow_succ_r by lia. done. Qed.

Lemma pow256_pow2 n : 256 ^ Z.of_nat n = 2 ^ (8 * Z.of_nat n).
Proof. change 256 with (2 ^ 8). rewrite <- Z.pow_mul_r by lia. done. Qed.

Lemma u8_shiftr_div i k :
  u8 (Z.shiftr i (8 * Z.of_nat k)) = (i / 256 ^ Z.of_nat k) mod 256.
Proof. unfold u8. rewrite Z.shiftr_div_pow2, pow256_pow2 by lia. done. Qed.

(** ** Byte strings *)

Lemma bytes_ok_app l1 l2 : bytes_ok (l1 ++ l2) <-> bytes_ok l1 /\ bytes_ok l2.
Proof. apply Forall_app. Qed.

Lemma bytes_ok_cons b l : bytes_ok (b :: l) <-> byte_ok b /\ bytes_ok l.
Proof. apply Forall_cons. Qed.

Lemma bytes_ok_take n l : bytes_ok l -> bytes_ok (take n l).
Proof. apply Forall_take. Qed.

Lemma bytes_ok_drop n l : bytes_ok l -> bytes_ok (drop n l).
Proof. apply Forall_drop. Qed.

Lemma u8_ok x : byte_ok (u8 x).
Proof. unfold u8, byte_ok. pose proof (Z.mod_pos_bound x (2 ^ 8)). lia. Qed.

Lemma u8_id x : byte_ok x -> u8 x = x.
Proof. unfold u8, byte_ok. intros. apply Z.mod_small. lia. Qed.

(** ** Big-endian strings *)

Lemma be_val_bound l : bytes_ok l -> 0 <= be_val l < 256 ^ zlen l.
Proof.
  induction 1 as [|b l Hb Hl IH]; cbn [be_val length]; [lia|].
  rewrite pow256_S. unfold byte_ok in Hb. nia.
Qed.

Lemma be_val_app l1 l2 :
  be_val (l1 ++ l2) = be_val l1 * 256 ^ zlen l2 + be_val l2.
Proof.
  induction l1 as [|b l1 IH]; cbn [be_val app]; [lia|].
  rewrite IH, length_app, Nat2Z.inj_add, Z.pow_add_r by lia. lia.
Qed.

Lemma length_be_bytes n z : length (be_bytes n z) = n.
Proof. induction n; cbn; congruence. Qed.

Lemma be_bytes_ok n z : bytes_ok (be_bytes n z).
Proof.
  induction n as [|n IH]; cbn; [constructor|]. constructor; [|done].
  unfold byte_ok. pose proof (Z.mod_pos_bound (z / 256 ^ Z.of_nat n) 256). lia.
Qed.

Lemma be_val_be_bytes n z : be_val (be_bytes n z) = z mod 256 ^ Z.of_nat n.
Proof.
  induction n as [|n IH]; cbn [be_val be_bytes].
  - rewrite Z.mod_1_r. done.
  - rewrite IH, length_be_bytes, pow256_S, (Z.mul_comm 256).
    rewrite Z.rem_mul_r by (pose proof (pow256_pos n); lia). lia.
Qed.

Lemma be_bytes_mod n z : be_bytes n z = be_bytes n (z mod 256 ^ Z.of_nat n).
Proof.
  assert (H : forall m, (m <= n)%nat ->
    be_bytes m z = be_bytes m (z mod 256 ^ Z.of_nat n)).
  { induction m as [|m IH]; intros Hm; cbn; [done|].
    rewrite IH by lia. f_equal.
    replace (Z.of_nat n) with (Z.of_nat m + (1 + Z.of_nat (n - S m))) by lia.
    rewrite Z.pow_add_r, Z.pow_add_r by lia.
    pose proof (pow256_pos m). pose proof (pow256_pos (n - S m)).
    rewrite Z.rem_mul_r, Z.mul_comm, Z.div_add, (Z.div_small (z mod _)) by
      (first [lia | apply Z.mod_pos_bound; lia]).
    rewrite Z.add_0_l, Z.pow_1_r, Z.rem_mul_r by lia.
    rewrite Z.mul_comm, Z.mod_add, Z.mod_mod by lia. done. }
  apply H. lia.
Qed.

Lemma be_bytes_be_val l : bytes_ok l -> be_bytes (length l) (be_val l) = l.
Proof.
  induction 1 as [|b l Hb Hl IH]; cbn [be_bytes length]; [done|].
  pose proof (be_val_bound l Hl) as Hv. pose proof (pow256_pos (length l)).
  cbn [be_val]. f_equal.
  - rewrite Z.add_comm, Z.div_add, Z.div_small by lia.
    rewrite Z.mod_small; unfold byte_ok in Hb; lia.
  - rewrite be_bytes_mod, Z.add_comm, Z.mod_add, <- be_bytes_mod by lia. done.
Qed.

Lemma be_val_inj l1 l2 :
  bytes_ok l1 -> bytes_ok l2 -> length l1 = length l2 ->
  be_val l1 = be_val l2 -> l1 = l2.
Proof.
  intros H1 H2 Hl Hv.
  rewrite <- (be_bytes_be_val l1), <- (be_bytes_be_val l2), Hl, Hv by done. done.
Qed.

(** ** Shortest big-endian strings *)

Lemma nbytes_bounds z :
  0 < z -> 256 ^ (Z.of_nat (nbytes z) - 1) <= z < 256 ^ Z.of_nat (nbytes z).
Proof.
  intros Hz. unfold nbytes. case_decide; [lia|].
  pose proof (Z.log2_spec z Hz) as [Hlo Hhi]. pose proof (Z.log2_nonneg z).
  pose proof (Z.div_pos (Z.log2 z) 8 ltac:(lia) ltac:(lia)).
  rewrite Z2Nat.id by lia. change 256 with (2 ^ 8).
  rewrite <- !Z.pow_mul_r by lia. split.
  - etransitivity; [|exact Hlo]. apply Z.pow_le_mono_r; [lia|].
    pose proof (Z.mul_div_le (Z.log2 z) 8). lia.
  - eapply Z.lt_le_trans; [exact Hhi|]. apply Z.pow_le_mono_r; [lia|].
    pose proof (Z.mul_succ_div_gt (Z.log2 z) 8). lia.
Qed.

Lemma nbytes_unique z n :
  0 < z -> 256 ^ (Z.of_nat n - 1) <= z < 256 ^ Z.of_nat n -> nbytes z = n.
Proof.
  intros Hz [Hlo Hhi]. pose proof (nbytes_bounds z Hz) as [Hlo' Hhi'].
  destruct (Nat.lt_trichotomy (nbytes z) n) as [Hlt | [-> | Hlt]]; [|done|].
  - assert (256 ^ Z.of_nat (nbytes z) <= 256 ^ (Z.of_nat n - 1)) by
      (apply Z.pow_le_mono_r; lia). lia.
  - assert (256 ^ Z.of_nat n <= 256 ^ (Z.of_nat (nbytes z) - 1)) by
      (apply Z.pow_le_mono_r; lia). lia.
Qed.

Lemma nbytes_pos z : 0 < z -> (0 < nbytes z)%nat.
Proof.
  intros Hz. pose proof (nbytes_bounds z Hz) as [_ H].
  destruct (nbytes z); [cbn in H; lia | lia].
Qed.

Lemma nbytes_0 : nbytes 0 = 0%nat.
Proof. done. Qed.

Lemma nbytes_div z : 256 <= z -> nbytes z = S (nbytes (z / 256)).
Proof.
  intros Hz. assert (Hd : 0 < z / 256) by (apply Z.div_str_pos; lia).
  pose proof (nbytes_bounds _ Hd) as [Hlo Hhi]. pose proof (nbytes_pos _ Hd).
  apply nbytes_unique; [lia|].
  replace (Z.of_nat (S (nbytes (z / 256))) - 1)
    with (Z.succ (Z.of_nat (nbytes (z / 256)) - 1)) by lia.
  rewrite pow256_S, Z.pow_succ_r by lia.
  pose proof (Z.div_mod z 256 ltac:(lia)).
  pose proof (Z.mod_pos_bound z 256 ltac:(lia)). lia.
Qed.

Lemma nbytes_small z : 0 < z < 256 -> nbytes z = 1%nat.
Proof. intros. apply nbytes_unique; cbn; lia. Qed.

Lemma nbytes_le z n : 0 <= z < 256 ^ Z.of_nat n -> (nbytes z <= n)%nat.
Proof.
  intros [H0 Hlt]. destruct (decide (z = 0)) as [->|]; [rewrite nbytes_0; lia|].
  pose proof (nbytes_bounds z ltac:(lia)) as [Hlo _].
  destruct (decide (nbytes z <= n)%nat); [done|].
  assert (256 ^ Z.of_nat n <= 256 ^ (Z.of_nat (nbytes z) - 1)) by
    (apply Z.pow_le_mono_r; lia). lia.
Qed.

Lemma be_min_0 : be_min 0 = [].
Proof. done. Qed.

Lemma length_be_min z : length (be_min z) = nbytes z.
Proof. apply length_be_bytes. Qed.

Lemma be_min_ok z : bytes_ok (be_min z).
Proof. apply be_bytes_ok. Qed.

Lemma be_val_be_min z : 0 <= z -> be_val (be_min z) = z.
Proof.
  intros Hz. unfold be_min. rewrite be_val_be_bytes.
  destruct (decide (z = 0)) as [->|]; [done|].
  apply Z.mod_small. pose proof (nbytes_bounds z). lia.
Qed.

(** A shortest string has no leading zero, and a string without leading zero
    is the shortest one of its value. *)
Lemma be_min_hd z b l : 0 <= z -> be_min z = b :: l -> b <> 0.
Proof.
  intros Hz Heq ->.
  assert (Hv : be_val (be_min z) = z) by (apply be_val_be_min; lia).
  pose proof (be_min_ok z) as Hok. pose proof (length_be_min z) as Hlen.
  rewrite Heq in Hv, Hok, Hlen. apply bytes_ok_cons in Hok as [_ Hok].
  pose proof (be_val_bound l Hok) as Hb. cbn [be_val length] in Hv, Hlen.
  destruct (decide (z = 0)) as [->|]; [rewrite nbytes_0 in Hlen; lia|].
  pose proof (nbytes_bounds z ltac:(lia)) as [Hlo _].
  rewrite <- Hlen, Nat2Z.inj_succ in Hlo.
  replace (Z.succ (zlen l) - 1) with (zlen l) in Hlo by lia. lia.
Qed.

Lemma be_min_be_val b l :
  bytes_ok (b :: l) -> b <> 0 -> be_min (be_val (b :: l)) = b :: l.
Proof.
  intros Hok Hb. unfold be_min.
  pose proof (be_val_bound _ Hok) as Hv.
  apply bytes_ok_cons in Hok as [Hb' Hl].
  pose proof (be_val_bound l Hl). pose proof (pow256_pos (length l)).
  assert (Hge : 256 ^ zlen l <= be_val (b :: l)).
  { cbn [be_val]. unfold byte_ok in Hb'. nia. }
  rewrite (nbytes_unique _ (length (b :: l))).
  - apply be_bytes_be_val. constructor; done.
  - lia.
  - split; [|lia]. cbn [length]. rewrite Nat2Z.inj_succ.
    replace (Z.succ (zlen l) - 1) with (zlen l) by lia. done.
Qed.

(** ** Little-endian strings *)

Lemma length_le_bytes n z : length (le_bytes n z) = n.
Proof. revert z. induction n; intros; cbn; congruence. Qed.

Lemma le_bytes_ok n z : bytes_ok (le_bytes n z).
Proof.
  revert z. induction n as [|n IH]; intros z; cbn; [constructor|].
  constructor; [|apply IH]. unfold byte_ok.
  pose proof (Z.mod_pos_bound z 256). lia.
Qed.

Lemma le_val_bound l : bytes_ok l -> 0 <= le_val l < 256 ^ zlen l.
Proof.
  induction 1 as [|b l Hb Hl IH]; cbn [le_val length]; [lia|].
  rewrite pow256_S. unfold byte_ok in Hb. lia.
Qed.

Lemma le_bytes_le_val l : bytes_ok l -> le_bytes (length l) (le_val l) = l.
Proof.
  induction 1 as [|b l Hb Hl IH]; cbn [le_bytes length le_val]; [done|].
  unfold byte_ok in Hb. rewrite (Z.mul_comm 256).
  rewrite Z.mod_add, Z.mod_small, Z.div_add, Z.div_small by lia.
  rewrite Z.add_0_l, IH. done.
Qed.

Lemma le_val_le_bytes n z : le_val (le_bytes n z) = z mod 256 ^ Z.of_nat n.
Proof.
  revert z. induction n as [|n IH]; intros z; cbn [le_val le_bytes].
  - rewrite Z.mod_1_r. done.
  - rewrite IH, pow256_S, Z.rem_mul_r by (pose proof (pow256_pos n); lia). lia.
Qed.

(** ** Lists *)

Lemma take_drop_3 {A} (l : list A) (a b : nat) :
  take a l ++ take b (drop a l) ++ drop (a + b) l = l.
Proof. rewrite <- drop_drop, take_drop, take_drop. done. Qed.

Lemma drop_S_inv {A} (l : list A) i x l' : drop i l = x :: l' -> drop (S i) l = l'.
Proof. intros H. rewrite <- Nat.add_1_r, <- drop_drop, H. done. Qed.

Lemma drop_lookup_hd {A} (l : list A) i x l' : drop i l = x :: l' -> l !! i = Some x.
Proof.
  intros H. rewrite <- (Nat.add_0_r i), <- lookup_drop, H. done.
Qed.

Lemma zlen_app {A} (l1 l2 : list A) : zlen (l1 ++ l2) = zlen l1 + zlen l2.
Proof. rewrite length_app. lia. Qed.

Lemma zlen_nonneg {A} (l : list A) : 0 <= zlen l.
Proof. lia. Qed.

(** A [k]-bit shift next to a number below [2^k] is an addition. *)
Lemma lor_shiftl_add a b k :
  0 <= k -> 0 <= b < 2 ^ k -> Z.lor (Z.shiftl a k) b = a * 2 ^ k + b.
Proof.
  intros Hk Hb. rewrite Z.shiftl_mul_pow2 by done.
  rewrite <- Z.lxor_lor, <- Z.add_nocarry_lxor; [done|..].
  all: apply Z.bits_inj'; intros n Hn; rewrite Z.land_spec, Z.bits_0.
  all: destruct (decide (n < k));
    [rewrite Z.mul_pow2_bits_low by lia; done|].
  all: rewrite <- (Z.mod_small b (2 ^ k)), Z.mod_pow2_bits_high by lia.
  all: apply andb_false_r.
Qed.

#[export] Hint Resolve be_bytes_ok le_bytes_ok be_min_ok u8_ok bytes_ok_take
  bytes_ok_drop : go.
