(* ===== verification/RlpTypes.v ===== *)
(** * Types and values of package [rlp], and its type cache

    [src/rlp/typecache.go] and the parts of [reflect] that [src/rlp] consults.
    A Go type is described by [gtype]: one constructor for each case the type
    switches of [makeWriter] and [makeDecoder] distinguish.  Types that
    implement [Encoder] or [Decoder] themselves are not part of [gtype], and a
    [gtype] is a finite tree, so recursive Go types are not described either.
    A Go value of such a type is a [gval].  Nil and empty slices are one
    value. *)

From S2P Require Import Prelude.
Local Open Scope Z_scope.
#[local] Set Warnings "-register-all".

(** ** Struct tags *)

Record tags := Tags { nilOK : bool; tail : bool; ignored : bool }.
Definition no_tags : tags := Tags false false false.

(** What [reflect.StructField] tells about a field besides its type. *)
Record fmeta := FMeta { f_name : string; f_exported : bool; f_tag : string }.

(** ** Types *)

Inductive gtype :=
| TRaw                                   (* RawValue *)
| TBigPtr                                (* *big.Int *)
| TBig                                   (* big.Int *)
| TUint (bits : Z)                       (* uint, uint8, ..., uintptr *)
| TBool
| TString
| TBytes                                 (* []byte *)
| TByteArray (n : nat)                   (* [n]byte *)
| TSlice (t : gtype)
| TArray (n : nat) (t : gtype)
| TStruct (fs : list (fmeta * gtype))
| TPtr (t : gtype)
| TIface (nmethods : nat)
| TOther (kind : string).                (* signed ints, floats, maps, ... *)

(** ** Values *)

Inductive gval :=
| VRaw (b : bytes)
| VBigPtr (o : option Z)
| VBig (z : Z)
| VUint (z : Z)
| VBool (b : bool)
| VString (b : bytes)
| VBytes (b : bytes)
| VByteArray (b : bytes)
| VList (l : list gval)                  (* slices and arrays *)
| VStruct (l : list gval)
| VPtr (o : option gval)
| VIface (o : option (gtype * gval)).

(** [reflect.Zero]. *)
Fixpoint zero_of (t : gtype) : gval :=
  match t with
  | TRaw => VRaw []
  | TBigPtr => VBigPtr None
  | TBig => VBig 0
  | TUint _ => VUint 0
  | TBool => VBool false
  | TString => VString []
  | TBytes => VBytes []
  | TByteArray n => VByteArray (replicate n 0)
  | TSlice _ => VList []
  | TArray n t' => VList (replicate n (zero_of t'))
  | TStruct fs => VStruct (map (fun f => zero_of f.2) fs)
  | TPtr _ => VPtr None
  | TIface _ => VIface None
  | TOther _ => VIface None
  end.

(** ** Errors *)

Inductive rlp_error :=
| EOL
| ErrExpectedString
| ErrExpectedList
| ErrCanonInt
| ErrCanonSize
| ErrElemTooLarge
| ErrValueTooLarge
| ErrMoreThanOneValue
| errNotInList
| errNotAtEOL
| errUintOverflow
| errNoPointer
| errDecodeIntoNil
| ErrEOF                                        (* io.EOF *)
| ErrUnexpectedEOF                              (* io.ErrUnexpectedEOF *)
| ErrNegativeBig
| ErrNotSerializable (t : gtype)
| ErrTailNotLast (field : string)
| ErrTailNotSlice (field : string)
| ErrUnknownTag (tag field : string)
| ErrInvalidBool (n : Z)
| ErrUnadressable (t : gtype)                    (* a method with pointer receiver *)
| DecodeError (msg : string) (typ : gtype) (ctx : list string)
| ErrPanic                                       (* a method panics *)
| OutOfFuel         (* bound of the model on a loop reached; no Go error *)
| ErrReflect.       (* a value that does not have the type: excluded by Go's
                       type system, [reflect] would panic *)

(** ** Struct tags in detail *)

(** [strings.TrimSpace] on ASCII text. *)
Definition is_space (c : Ascii.ascii) : bool :=
  let n := Ascii.nat_of_ascii c in
  (Nat.eqb n 32 || (Nat.leb 9 n && Nat.leb n 13))%bool.

Fixpoint trim_left (l : list Ascii.ascii) : list Ascii.ascii :=
  match l with
  | c :: l' => if is_space c then trim_left l' else l
  | [] => []
  end.

Definition trim_space (s : string) : string :=
  String.string_of_list_ascii
    (reverse (trim_left (reverse (trim_left (String.list_ascii_of_string s))))).

(** [strings.Split(s, ",")]: never empty. *)
Fixpoint split_on (sep : Ascii.ascii) (l : list Ascii.ascii)
    : list (list Ascii.ascii) :=
  match l with
  | [] => [[]]
  | c :: l' =>
      if Ascii.eqb c sep then [] :: split_on sep l'
      else match split_on sep l' with
           | w :: ws => (c :: w) :: ws
           | [] => [[c]]
           end
  end.

Definition split_comma (s : string) : list string :=
  map String.string_of_list_ascii
    (split_on (Ascii.ascii_of_nat 44) (String.list_ascii_of_string s)).

Definition is_slice (t : gtype) : bool :=
  match t with
  | TRaw | TBytes | TSlice _ => true
  | _ => false
  end.

(** One round of the loop of [parseStructTag] for the (trimmed) word [w]. *)
Definition parseTagWord (m : fmeta) (t : gtype) (last : bool) (ts : tags)
    (w : string) : result rlp_error tags :=
  if String.eqb w "" then Ok ts
  else if String.eqb w "-" then Ok (Tags (nilOK ts) (tail ts) true)
  else if String.eqb w "nil" then Ok (Tags true (tail ts) (ignored ts))
  else if String.eqb w "tail" then
    if negb last then Err (ErrTailNotLast (f_name m))
    else if negb (is_slice t) then Err (ErrTailNotSlice (f_name m))
    else Ok (Tags (nilOK ts) true (ignored ts))
  else Err (ErrUnknownTag w (f_name m)).

Fixpoint parseTagWords (m : fmeta) (t : gtype) (last : bool) (ts : tags)
    (ws : list string) : result rlp_error tags :=
  match ws with
  | [] => Ok ts
  | w :: ws' =>
      ts' ← parseTagWord m t last ts (trim_space w);
      parseTagWords m t last ts' ws'
  end.

Definition parseStructTag (m : fmeta) (t : gtype) (last : bool)
    : result rlp_error tags :=
  parseTagWords m t last no_tags (split_comma (f_tag m)).

(** [structFields]: the fields that take part, with their index and what
    [cachedTypeInfo1] generates for their type and tags. *)
Section StructFields.
Context {I : Type} (gen : gtype -> tags -> result rlp_error I).

Fixpoint structFields_from (i : nat) (fs : list (fmeta * gtype))
    : result rlp_error (list (nat * I)) :=
  match fs with
  | [] => Ok []
  | (m, t) :: fs' =>
      if f_exported m then
        ts ← parseStructTag m t (match fs' with [] => true | _ => false end);
        if ignored ts then structFields_from (S i) fs'
        else
          info ← gen t ts;
          rest ← structFields_from (S i) fs';
          Ok ((i, info) :: rest)
      else structFields_from (S i) fs'
  end.

Definition structFields (fs : list (fmeta * gtype))
    : result rlp_error (list (nat * I)) := structFields_from 0 fs.

End StructFields.

(** Whether [cachedTypeInfo] succeeds on a type: every type it reaches is of a
    supported kind and every struct tag it meets is well-formed. *)
Fixpoint serializable (t : gtype) : bool :=
  match t with
  | TOther _ => false
  | TSlice t' | TArray _ t' | TPtr t' => serializable t'
  | TStruct fs =>
      is_ok (structFields (fun t' _ =>
        if serializable t' then Ok tt else Err (ErrNotSerializable t')) fs)
  | _ => true
  end.

(** ** Induction principles that reach the nested occurrences *)

Section GtypeInd.
Context (P : gtype -> Prop)
  (Hraw : P TRaw) (Hbigp : P TBigPtr) (Hbig : P TBig)
  (Huint : forall b, P (TUint b)) (Hbool : P TBool) (Hstr : P TString)
  (Hbytes : P TBytes) (Harr : forall n, P (TByteArray n))
  (Hslice : forall t, P t -> P (TSlice t))
  (Harray : forall n t, P t -> P (TArray n t))
  (Hstruct : forall fs, Forall (fun f => P f.2) fs -> P (TStruct fs))
  (Hptr : forall t, P t -> P (TPtr t))
  (Hiface : forall n, P (TIface n)) (Hother : forall k, P (TOther k)).

Fixpoint gtype_ind' (t : gtype) : P t :=
  match t with
  | TRaw => Hraw | TBigPtr => Hbigp | TBig => Hbig
  | TUint b => Huint b | TBool => Hbool | TString => Hstr
  | TBytes => Hbytes | TByteArray n => Harr n
  | TSlice t' => Hslice t' (gtype_ind' t')
  | TArray n t' => Harray n t' (gtype_ind' t')
  | TStruct fs =>
      Hstruct fs ((fix go (l : list (fmeta * gtype)) : Forall (fun f => P f.2) l :=
        match l with
        | [] => List.Forall_nil _
        | f :: l' => List.Forall_cons _ _ _ (gtype_ind' f.2) (go l')
        end) fs)
  | TPtr t' => Hptr t' (gtype_ind' t')
  | TIface n => Hiface n | TOther k => Hother k
  end.
End GtypeInd.

(** ** Facts *)

(** A struct whose fields are all exported and carry no [rlp] tag is read and
    written field by field. *)
Definition plain_field (f : fmeta * gtype) : Prop :=
  f_exported f.1 = true /\ f_tag f.1 = ""%string.

Lemma parseStructTag_plain m t last :
  f_tag m = ""%string -> parseStructTag m t last = Ok no_tags.
Proof. intros H. unfold parseStructTag. rewrite H. done. Qed.

(** Generators that agree field by field give struct fields that agree. *)
Lemma structFields_from_rel {I J} (RE : relation rlp_error)
    (R : I -> J -> Prop) g h i fs :
  (forall e, RE e e) ->
  Forall (fun f => forall ts, result_rel RE R (g f.2 ts) (h f.2 ts)) fs ->
  result_rel RE (Forall2 (fun a b => a.1 = b.1 /\ R a.2 b.2))
    (structFields_from g i fs) (structFields_from h i fs).
Proof.
  intros Hrefl Hall. revert i.
  induction Hall as [|[m t] fs Hf Hall IH]; intros i; cbn; [constructor|].
  destruct (f_exported m); [|apply IH].
  destruct (parseStructTag _ _ _) as [ts|e]; cbn; [|apply Hrefl].
  destruct (ignored ts); [apply IH|].
  eapply result_rel_bind; [apply Hf|]. intros a b Hab.
  eapply result_rel_bind; [apply IH|]. intros l1 l2 Hl.
  constructor; [done | exact Hl].
Qed.

(** What is generated for the fields is right for the fields' types. *)
Lemma structFields_from_each {I} (gen : gtype -> tags -> result rlp_error I) (Q : gtype -> I -> Prop) fs0 pre fs fields :
  fs0 = pre ++ fs -> Forall (fun f => forall ts d, gen f.2 ts = Ok d -> Q f.2 d) fs ->
  structFields_from gen (length pre) fs = Ok fields ->
  Forall (fun p => exists f, fs0 !! p.1 = Some f /\ Q f.2 p.2) fields.
Proof.
  intros -> Hg. revert pre fields. induction Hg as [|[m t] fs Hf Hg IH]; intros pre fields;
    cbn [structFields_from]; [intros [= <-]; constructor|].
  assert (IH' : forall fields, structFields_from gen (S (length pre)) fs = Ok fields ->
    Forall (fun p => exists f, (pre ++ (m, t) :: fs) !! p.1 = Some f /\ Q f.2 p.2) fields).
  { intros fl Hfl. replace (pre ++ (m, t) :: fs) with ((pre ++ [(m, t)]) ++ fs) by (by rewrite <- app_assoc).
    apply IH. rewrite length_app. cbn. by rewrite Nat.add_1_r. }
  case_match; [|apply IH']. intros H2. inv_bind. case_match; [by apply IH'|].
  inv_bind. constructor; [|by apply IH'].
  exists (m, t). cbn. split; [by apply list_lookup_middle|]. by eapply Hf.
Qed.
