(* ===== verification/RlpEncode.v ===== *)
(** * The RLP encoder: [src/rlp/encode.go]

    The encoder collects string data and list headers separately in an
    [encbuf] and interleaves them at the end, so that list sizes are known
    before the headers are written.  The first half of the file is the encoder
    as the code has it; the second half defines the encoding rules directly
    ([rlp_enc]) and proves that the encoder implements them. *)

From S2P Require Import Prelude RlpTypes.
Local Open Scope Z_scope.
#[local] Set Warnings "-register-all".

(** ** Integers and headers *)

(** [putint] returns the bytes it stores at the beginning of its buffer. *)
Definition putint (i : Z) : bytes :=
  if i <? 2 ^ 8 then [u8 i]
  else if i <? 2 ^ 16 then [u8 (Z.shiftr i 8); u8 i]
  else if i <? 2 ^ 24 then [u8 (Z.shiftr i 16); u8 (Z.shiftr i 8); u8 i]
  else if i <? 2 ^ 32 then
    [u8 (Z.shiftr i 24); u8 (Z.shiftr i 16); u8 (Z.shiftr i 8); u8 i]
  else if i <? 2 ^ 40 then
    [u8 (Z.shiftr i 32); u8 (Z.shiftr i 24); u8 (Z.shiftr i 16);
     u8 (Z.shiftr i 8); u8 i]
  else if i <? 2 ^ 48 then
    [u8 (Z.shiftr i 40); u8 (Z.shiftr i 32); u8 (Z.shiftr i 24);
     u8 (Z.shiftr i 16); u8 (Z.shiftr i 8); u8 i]
  else if i <? 2 ^ 56 then
    [u8 (Z.shiftr i 48); u8 (Z.shiftr i 40); u8 (Z.shiftr i 32);
     u8 (Z.shiftr i 24); u8 (Z.shiftr i 16); u8 (Z.shiftr i 8); u8 i]
  else
    [u8 (Z.shiftr i 56); u8 (Z.shiftr i 48); u8 (Z.shiftr i 40);
     u8 (Z.shiftr i 32); u8 (Z.shiftr i 24); u8 (Z.shiftr i 16);
     u8 (Z.shiftr i 8); u8 i].

(** The loop of [intsize]; eight rounds are enough for a 64-bit number
    ([intsize_nbytes]). *)
Fixpoint intsize_loop (fuel : nat) (i size : Z) : Z :=
  match fuel with
  | O => size
  | S f =>
      let i := Z.shiftr i 8 in
      if i =? 0 then size else intsize_loop f i (size + 1)
  end.

Definition intsize (i : Z) : Z := intsize_loop 8 i 1.

Definition headsize (size : Z) : Z := if size <? 56 then 1 else 1 + intsize size.

(** [puthead] returns the bytes it stores at the beginning of its buffer. *)
Definition puthead (smalltag largetag size : Z) : bytes :=
  if size <? 56 then [u8 (smalltag + u8 size)]
  else let sizeb := putint size in u8 (largetag + u8 (zlen sizeb)) :: sizeb.

(** ** The buffer *)

Record listhead := Listhead { offset : Z; size : Z }.

(** [sizebuf] is scratch space that is overwritten before each use. *)
Record encbuf := Encbuf { str : bytes; lheads : list listhead; lhsize : Z }.

Definition listhead_encode (h : listhead) : bytes :=
  puthead 0xC0 0xF7 (u64 (size h)).

(** [reset], also the state of a buffer fresh from the pool. *)
Definition encbuf_reset (w : encbuf) : encbuf := Encbuf [] [] 0.

Definition append_str (w : encbuf) (b : bytes) : encbuf :=
  Encbuf (str w ++ b) (lheads w) (lhsize w).

Definition encbuf_Write (w : encbuf) (b : bytes) : encbuf * Z :=
  (append_str w b, zlen b).

Definition encodeStringHeader (w : encbuf) (size : Z) : encbuf :=
  if size <? 56 then append_str w [u8 (0x80 + u8 size)]
  else let sizeb := putint (u64 size) in
       append_str w (u8 (0xB7 + u8 (zlen sizeb)) :: sizeb).

Definition encodeString (w : encbuf) (b : bytes) : encbuf :=
  match b with
  | [x] => if x <=? 0x7F then append_str w [x]
           else append_str (encodeStringHeader w (zlen b)) b
  | _ => append_str (encodeStringHeader w (zlen b)) b
  end.

Definition encbuf_size (w : encbuf) : Z := zlen (str w) + lhsize w.

(** [list] returns a pointer into [lheads]: its index. *)
Definition encbuf_list (w : encbuf) : nat * encbuf :=
  (length (lheads w),
   Encbuf (str w) (lheads w ++ [Listhead (zlen (str w)) (lhsize w)]) (lhsize w)).

Definition listEnd (lh : nat) (w : encbuf) : encbuf :=
  match lheads w !! lh with
  | None => w
  | Some h =>
      let sz := encbuf_size w - offset h - size h in
      Encbuf (str w) (<[lh := Listhead (offset h) sz]> (lheads w))
        (if sz <? 56 then lhsize w + 1 else lhsize w + (1 + intsize (u64 sz)))
  end.

(** ** Output *)

(** [copy(out[pos:], src)] for a slice [out]: the new contents. *)
Definition copy_at (out : bytes) (pos : nat) (src : bytes) : bytes :=
  take pos out ++ take (length out - pos) src ++ drop (pos + length src) out.

(** [w.str[from:upto]]. *)
Definition substr (s : bytes) (from upto : Z) : bytes :=
  take (Z.to_nat (upto - from)) (drop (Z.to_nat from) s).

Fixpoint toBytes_loop (s : bytes) (heads : list listhead) (out : bytes)
    (pos : nat) (strpos : Z) : bytes :=
  match heads with
  | [] => copy_at out pos (drop (Z.to_nat strpos) s)
  | h :: heads' =>
      let piece := substr s strpos (offset h) in
      let n := Nat.min (length piece) (length out - pos) in
      let out1 := copy_at out pos piece in
      let enc := listhead_encode h in
      toBytes_loop s heads' (copy_at out1 (pos + n) enc)
        (pos + n + length enc) (strpos + Z.of_nat n)
  end.

Definition toBytes (w : encbuf) : bytes :=
  toBytes_loop (str w) (lheads w) (replicate (Z.to_nat (encbuf_size w)) 0) 0 0.

(** [toWriter] on a writer with state [S] whose [Write] takes all bytes. *)
Section ToWriter.
Context {S : Type} (Write : S -> bytes -> S).

Fixpoint toWriter_loop (s : bytes) (heads : list listhead) (out : S)
    (strpos : Z) : S :=
  match heads with
  | [] => if strpos <? zlen s then Write out (drop (Z.to_nat strpos) s) else out
  | h :: heads' =>
      if 0 <? offset h - strpos then
        let piece := substr s strpos (offset h) in
        toWriter_loop s heads' (Write (Write out piece) (listhead_encode h))
          (strpos + zlen piece)
      else toWriter_loop s heads' (Write out (listhead_encode h)) strpos
  end.

Definition toWriter (w : encbuf) (out : S) : S :=
  toWriter_loop (str w) (lheads w) out 0.

End ToWriter.

(** ** The reader returned by [EncodeToReader] *)

Record encReader := EncReader {
  er_buf : option encbuf; er_lhpos : nat; er_strpos : Z;
  er_piece : option bytes }.

(** [next] returns the next piece; it leaves [piece] to its caller. *)
Definition encReader_next (r : encReader) : option bytes * encReader :=
  match er_buf r with
  | None => (None, r)
  | Some w =>
      match er_piece r with
      | Some p => (Some p, r)
      | None =>
          match lheads w !! er_lhpos r with
          | Some head =>
              let sizebefore := offset head - er_strpos r in
              if 0 <? sizebefore then
                (Some (substr (str w) (er_strpos r) (offset head)),
                 EncReader (er_buf r) (er_lhpos r) (er_strpos r + sizebefore) None)
              else
                (Some (listhead_encode head),
                 EncReader (er_buf r) (S (er_lhpos r)) (er_strpos r) None)
          | None =>
              if er_strpos r <? zlen (str w) then
                (Some (drop (Z.to_nat (er_strpos r)) (str w)),
                 EncReader (er_buf r) (er_lhpos r) (zlen (str w)) None)
              else (None, r)
          end
      end
  end.

(** [Read] into a buffer of [room] bytes: the bytes stored, whether [io.EOF]
    is returned, and the reader after the call.  Each round of the loop but
    the last two takes a header or a run of string data, which bounds the
    fuel. *)
Fixpoint encReader_Read_loop (fuel : nat) (r : encReader) (room : nat)
    (acc : bytes) : option (bytes * bool * encReader) :=
  match fuel with
  | O => None
  | S f =>
      let (p, r1) := encReader_next r in
      match p with
      | None => Some (acc, true, EncReader None (er_lhpos r1) (er_strpos r1) None)
      | Some p =>
          let nn := Nat.min room (length p) in
          if (nn <? length p)%nat then
            Some (acc ++ take nn p, false,
                  EncReader (er_buf r1) (er_lhpos r1) (er_strpos r1)
                    (Some (drop nn p)))
          else
            encReader_Read_loop f
              (EncReader (er_buf r1) (er_lhpos r1) (er_strpos r1) None)
              (room - nn) (acc ++ p)
      end
  end.

Definition encReader_fuel (r : encReader) : nat :=
  match er_buf r with
  | None => 1
  | Some w => 2 * length (lheads w) + 4
  end.

Definition encReader_Read (r : encReader) (room : nat)
    : option (bytes * bool * encReader) :=
  encReader_Read_loop (encReader_fuel r) r room [].

(** ** Writers *)

Abbreviation writer := (gval -> encbuf -> result rlp_error encbuf).

Definition writeRawValue : writer := fun v w =>
  match v with VRaw b => Ok (append_str w b) | _ => Err ErrReflect end.

Definition writeUint : writer := fun v w =>
  match v with
  | VUint i =>
      if i =? 0 then Ok (append_str w [0x80])
      else if i <? 128 then Ok (append_str w [u8 i])
      else let s := putint i in Ok (append_str w (u8 (0x80 + u8 (zlen s)) :: s))
  | _ => Err ErrReflect
  end.

Definition writeBool : writer := fun v w =>
  match v with
  | VBool true => Ok (append_str w [0x01])
  | VBool false => Ok (append_str w [0x80])
  | _ => Err ErrReflect
  end.

Definition writeBigInt (i : Z) (w : encbuf) : result rlp_error encbuf :=
  if i <? 0 then Err ErrNegativeBig
  else if i =? 0 then Ok (append_str w [0x80])
  else Ok (encodeString w (be_min (Z.abs i))).

Definition writeBigIntPtr : writer := fun v w =>
  match v with
  | VBigPtr None => Ok (append_str w [0x80])
  | VBigPtr (Some i) => writeBigInt i w
  | _ => Err ErrReflect
  end.

Definition writeBigIntNoPtr : writer := fun v w =>
  match v with VBig i => writeBigInt i w | _ => Err ErrReflect end.

Definition writeBytes : writer := fun v w =>
  match v with VBytes b => Ok (encodeString w b) | _ => Err ErrReflect end.

Definition writeByteArray : writer := fun v w =>
  match v with VByteArray b => Ok (encodeString w b) | _ => Err ErrReflect end.

Definition writeString : writer := fun v w =>
  match v with
  | VString s =>
      match s with
      | [x] => if x <=? 0x7f then Ok (append_str w [x])
               else Ok (append_str (encodeStringHeader w (zlen s)) s)
      | _ => Ok (append_str (encodeStringHeader w (zlen s)) s)
      end
  | _ => Err ErrReflect
  end.

(** The loop of the writer of a slice or array. *)
Fixpoint writeElems (ew : writer) (l : list gval) (w : encbuf)
    : result rlp_error encbuf :=
  match l with
  | [] => Ok w
  | v :: l' => w' ← ew v w; writeElems ew l' w'
  end.

Definition sliceWriter (ew : writer) (ts : tags) : writer := fun v w =>
  match v with
  | VList l =>
      if tail ts then writeElems ew l w
      else let (lh, w1) := encbuf_list w in
           w2 ← writeElems ew l w1; Ok (listEnd lh w2)
  | _ => Err ErrReflect
  end.

Fixpoint writeFields (fields : list (nat * writer)) (vs : list gval) (w : encbuf)
    : result rlp_error encbuf :=
  match fields with
  | [] => Ok w
  | (i, fw) :: fields' =>
      match vs !! i with
      | None => Err ErrReflect
      | Some v => w' ← fw v w; writeFields fields' vs w'
      end
  end.

Definition structWriter (fields : list (nat * writer)) : writer := fun v w =>
  match v with
  | VStruct vs =>
      let (lh, w1) := encbuf_list w in
      w2 ← writeFields fields vs w1; Ok (listEnd lh w2)
  | _ => Err ErrReflect
  end.

(** What [makePtrWriter] writes for a nil pointer to an element of type [t]. *)
Definition nilfunc (t : gtype) (ew : writer) (w : encbuf)
    : result rlp_error encbuf :=
  match t with
  | TByteArray _ => Ok (append_str w [0x80])
  | TStruct _ | TArray _ _ => let (lh, w1) := encbuf_list w in Ok (listEnd lh w1)
  | _ => ew (zero_of t) w
  end.

Definition ptrWriter (t : gtype) (ew : writer) : writer := fun v w =>
  match v with
  | VPtr None => nilfunc t ew w
  | VPtr (Some v') => ew v' w
  | _ => Err ErrReflect
  end.

(** [makeWriter], with [wi] for [writeInterface]. *)
Fixpoint makeWriter (wi : writer) (t : gtype) (ts : tags)
    : result rlp_error writer :=
  match t with
  | TRaw => Ok writeRawValue
  | TIface _ => Ok wi
  | TBigPtr => Ok writeBigIntPtr
  | TBig => Ok writeBigIntNoPtr
  | TUint _ => Ok writeUint
  | TBool => Ok writeBool
  | TString => Ok writeString
  | TBytes => Ok writeBytes
  | TByteArray _ => Ok writeByteArray
  | TSlice t' | TArray _ t' =>
      ew ← makeWriter wi t' no_tags; Ok (sliceWriter ew ts)
  | TStruct fs =>
      fields ← structFields (makeWriter wi) fs; Ok (structWriter fields)
  | TPtr t' => ew ← makeWriter wi t' no_tags; Ok (ptrWriter t' ew)
  | TOther _ => Err (ErrNotSerializable t)
  end.

(** [writeInterface] looks the writer of the dynamic type up when it runs;
    [n] bounds the number of interfaces nested in the value. *)
Fixpoint writeInterface (n : nat) : writer := fun v w =>
  match n with
  | O => Err ErrReflect
  | S n' =>
      match v with
      | VIface None => Ok (append_str w [0xC0])
      | VIface (Some (t, eval)) =>
          wr ← makeWriter (writeInterface n') t no_tags; wr eval w
      | _ => Err ErrReflect
      end
  end.

(** The number of interfaces nested in a value. *)
Fixpoint iface_depth (v : gval) : nat :=
  match v with
  | VList l | VStruct l => list_max (map iface_depth l)
  | VPtr (Some v') => iface_depth v'
  | VIface (Some (_, v')) => S (iface_depth v')
  | _ => 0
  end.

(** [(w *encbuf) encode]: nil interfaces inside zero values need one more
    round than the value itself has interfaces. *)
Definition encbuf_encode (t : gtype) (v : gval) (w : encbuf)
    : result rlp_error encbuf :=
  wr ← makeWriter (writeInterface (S (iface_depth v))) t no_tags; wr v w.

Definition Encode {S} (Write : S -> bytes -> S) (out : S) (t : gtype) (v : gval)
    : result rlp_error S :=
  eb ← encbuf_encode t v (Encbuf [] [] 0); Ok (toWriter Write eb out).

Definition EncodeToBytes (t : gtype) (v : gval) : result rlp_error bytes :=
  eb ← encbuf_encode t v (Encbuf [] [] 0); Ok (toBytes eb).

Definition EncodeToReader (t : gtype) (v : gval)
    : result rlp_error (Z * encReader) :=
  eb ← encbuf_encode t v (Encbuf [] [] 0);
  Ok (encbuf_size eb, EncReader (Some eb) 0 0 None).

(** ** The encoding rules

    The header of a string or list of [n] bytes, the encoding of a byte string
    and of a list whose elements encode to [p], and the encoding of a value of
    a Go type. *)

Definition rlp_header (small large : Z) (n : Z) : bytes :=
  if n <? 56 then [small + n] else large + Z.of_nat (nbytes n) :: be_min n.

Definition rlp_string (b : bytes) : bytes :=
  match b with
  | [x] => if x <? 0x80 then [x] else rlp_header 0x80 0xB7 1 ++ b
  | _ => rlp_header 0x80 0xB7 (zlen b) ++ b
  end.

Definition rlp_list (p : bytes) : bytes := rlp_header 0xC0 0xF7 (zlen p) ++ p.

(** Pointer targets whose nil pointer is not encoded as the zero value. *)
Definition special_nil (t : gtype) : option bytes :=
  match t with
  | TByteArray _ => Some (rlp_string [])
  | TStruct _ | TArray _ _ => Some (rlp_list [])
  | _ => None
  end.

Inductive rlp_enc : gtype -> tags -> gval -> bytes -> Prop :=
| E_raw ts b : rlp_enc TRaw ts (VRaw b) b
| E_bigptr_nil ts : rlp_enc TBigPtr ts (VBigPtr None) (rlp_string [])
| E_bigptr ts z : 0 <= z ->
    rlp_enc TBigPtr ts (VBigPtr (Some z)) (rlp_string (be_min z))
| E_big ts z : 0 <= z -> rlp_enc TBig ts (VBig z) (rlp_string (be_min z))
| E_uint bits ts z : 0 <= z < 2 ^ 64 ->
    rlp_enc (TUint bits) ts (VUint z) (rlp_string (be_min z))
| E_bool ts b : rlp_enc TBool ts (VBool b) (rlp_string (if b then [1] else []))
| E_string ts b : rlp_enc TString ts (VString b) (rlp_string b)
| E_bytes ts b : rlp_enc TBytes ts (VBytes b) (rlp_string b)
| E_bytearray n ts b : rlp_enc (TByteArray n) ts (VByteArray b) (rlp_string b)
| E_slice t ts vs p : rlp_encs t vs p ->
    rlp_enc (TSlice t) ts (VList vs) (if tail ts then p else rlp_list p)
| E_array n t ts vs p : rlp_encs t vs p ->
    rlp_enc (TArray n t) ts (VList vs) (if tail ts then p else rlp_list p)
| E_struct fs ts vs p : rlp_fields fs vs p ->
    rlp_enc (TStruct fs) ts (VStruct vs) (rlp_list p)
| E_ptr t ts v e : rlp_enc t no_tags v e -> rlp_enc (TPtr t) ts (VPtr (Some v)) e
| E_ptr_nil t ts e : special_nil t = Some e -> rlp_enc (TPtr t) ts (VPtr None) e
| E_ptr_zero t ts e : special_nil t = None -> rlp_enc t no_tags (zero_of t) e ->
    rlp_enc (TPtr t) ts (VPtr None) e
| E_iface_nil n ts : rlp_enc (TIface n) ts (VIface None) (rlp_list [])
| E_iface n ts t v e : serializable t = true -> rlp_enc t no_tags v e ->
    rlp_enc (TIface n) ts (VIface (Some (t, v))) e
with rlp_encs : gtype -> list gval -> bytes -> Prop :=
| Es_nil t : rlp_encs t [] []
| Es_cons t v vs e p : rlp_enc t no_tags v e -> rlp_encs t vs p ->
    rlp_encs t (v :: vs) (e ++ p)
with rlp_fields : list (fmeta * gtype) -> list gval -> bytes -> Prop :=
| Ef_nil : rlp_fields [] [] []
| Ef_hidden m t fs v vs p : f_exported m = false -> rlp_fields fs vs p ->
    rlp_fields ((m, t) :: fs) (v :: vs) p
| Ef_ignored m t fs v vs p ts : f_exported m = true ->
    parseStructTag m t (match fs with [] => true | _ => false end) = Ok ts ->
    ignored ts = true -> rlp_fields fs vs p ->
    rlp_fields ((m, t) :: fs) (v :: vs) p
| Ef_field m t fs v vs e p ts : f_exported m = true ->
    parseStructTag m t (match fs with [] => true | _ => false end) = Ok ts ->
    ignored ts = false -> rlp_enc t ts v e -> rlp_fields fs vs p ->
    rlp_fields ((m, t) :: fs) (v :: vs) (e ++ p).

Scheme rlp_enc_mind := Induction for rlp_enc Sort Prop
  with rlp_encs_mind := Induction for rlp_encs Sort Prop
  with rlp_fields_mind := Induction for rlp_fields Sort Prop.
Combined Scheme rlp_enc_mutind from rlp_enc_mind, rlp_encs_mind, rlp_fields_mind.

(** ** Integers and headers *)

Lemma putint_be_bytes n i :
  (1 <= n <= 8)%nat ->
  (n = 1%nat \/ 256 ^ (Z.of_nat n - 1) <= i) -> i < 256 ^ Z.of_nat n ->
  putint i = be_bytes n i.
Proof.
  intros Hn Hlo Hhi.
  assert (Hc : n = 1%nat \/ n = 2%nat \/ n = 3%nat \/ n = 4%nat \/
    n = 5%nat \/ n = 6%nat \/ n = 7%nat \/ n = 8%nat) by lia.
  destruct_or! Hc; subst n; clear Hn.
  all: cbn in Hlo, Hhi; unfold putint.
  all: repeat (case_match; zbool; try lia); clear.
  all: cbn [be_bytes]; change (Z.of_nat 0) with 0.
  all: rewrite Z.pow_0_r, Z.div_1_r; unfold u8.
  all: rewrite ?Z.shiftr_div_pow2 by lia; reflexivity.
Qed.

Lemma u64_cases i : 0 <= i < 2 ^ 64 ->
  i = 0 \/ (0 < i /\ (1 <= nbytes i <= 8)%nat).
Proof.
  intros Hi. destruct (decide (i = 0)); [by left|right].
  pose proof (nbytes_pos i ltac:(lia)). split; [lia|].
  pose proof (nbytes_le i 8 Hi). lia.
Qed.

Lemma putint_be_min i : 0 < i < 2 ^ 64 -> putint i = be_min i.
Proof.
  intros Hi. destruct (u64_cases i ltac:(lia)) as [|[_ Hn]]; [lia|].
  pose proof (nbytes_bounds i ltac:(lia)) as [Hlo Hhi].
  apply putint_be_bytes; [done | by right | done].
Qed.

Lemma intsize_loop_S f i s :
  intsize_loop (S f) i s =
    if i / 256 =? 0 then s else intsize_loop f (i / 256) (s + 1).
Proof. cbn [intsize_loop]. rewrite Z.shiftr_div_pow2 by lia. done. Qed.

Lemma intsize_loop_nbytes f i s :
  0 <= i < 256 ^ Z.of_nat (S f) ->
  intsize_loop (S f) i s = s + Z.of_nat (Nat.max 1 (nbytes i)) - 1.
Proof.
  revert i s. induction f as [|f IH]; intros i s Hi; rewrite intsize_loop_S.
  all: destruct (Z.eqb_spec (i / 256) 0) as [H0|H0].
  - assert (i < 256) by (pose proof (Z.mod_pos_bound i 256); Z.div_mod_to_equations; lia).
    destruct (decide (i = 0)) as [->|]; [rewrite nbytes_0; lia|].
    rewrite nbytes_small by lia. lia.
  - exfalso. apply H0. apply Z.div_small. cbn in Hi. lia.
  - assert (i < 256) by (pose proof (Z.mod_pos_bound i 256); Z.div_mod_to_equations; lia).
    destruct (decide (i = 0)) as [->|]; [rewrite nbytes_0; lia|].
    rewrite nbytes_small by lia. lia.
  - assert (256 <= i).
    { destruct (decide (256 <= i)); [done|]. exfalso. apply H0, Z.div_small. lia. }
    rewrite IH.
    + rewrite (nbytes_div i) by done.
      pose proof (nbytes_pos (i / 256) ltac:(apply Z.div_str_pos; lia)). lia.
    + rewrite pow256_S in Hi. split; [apply Z.div_pos; lia|].
      apply Z.div_lt_upper_bound; lia.
Qed.

Lemma intsize_nbytes i :
  0 <= i < 2 ^ 64 -> intsize i = Z.of_nat (Nat.max 1 (nbytes i)).
Proof.
  intros Hi. unfold intsize. rewrite intsize_loop_nbytes; [lia|].
  change (256 ^ Z.of_nat 8) with (2 ^ 64). done.
Qed.

Lemma puthead_rlp_header small large n :
  0 <= small <= 0xC0 -> 0 <= large <= 0xF7 -> 0 <= n < 2 ^ 64 ->
  puthead small large n = rlp_header small large n.
Proof.
  intros Hs Hl Hn. unfold puthead, rlp_header.
  destruct (Z.ltb_spec n 56).
  - rewrite !u8_id by (rewrite ?u8_id; unfold byte_ok; lia). done.
  - destruct (u64_cases n Hn) as [|[_ Hb]]; [lia|].
    rewrite putint_be_min, length_be_min by lia.
    rewrite !u8_id by (rewrite ?u8_id; unfold byte_ok; lia). done.
Qed.

Lemma length_rlp_header small large n :
  0 <= n < 2 ^ 64 -> zlen (rlp_header small large n) = headsize n.
Proof.
  intros Hn. unfold rlp_header, headsize. destruct (Z.ltb_spec n 56); [done|].
  cbn [length]. rewrite length_be_min, intsize_nbytes by done.
  pose proof (nbytes_pos n ltac:(lia)). lia.
Qed.

Lemma u64_id n : 0 <= n < 2 ^ 64 -> u64 n = n.
Proof. apply Z.mod_small. Qed.

Lemma listhead_encode_header h :
  0 <= size h < 2 ^ 64 -> listhead_encode h = rlp_header 0xC0 0xF7 (size h).
Proof.
  intros H. unfold listhead_encode. rewrite u64_id by done.
  apply puthead_rlp_header; lia.
Qed.

(** ** Interleaving string data and headers *)

Section Flatten.

(** The bytes that string data [s] starting at position [base] and the headers
    [hs] stand for. *)
Fixpoint flatten (base : Z) (s : bytes) (hs : list listhead) : bytes :=
  match hs with
  | [] => s
  | h :: hs' =>
      let k := Z.to_nat (offset h - base) in
      take k s ++ listhead_encode h ++ flatten (offset h) (drop k s) hs'
  end.

(** Headers in order, with offsets between [lo] and [hi]. *)
Fixpoint heads_in (lo hi : Z) (hs : list listhead) : Prop :=
  match hs with
  | [] => lo <= hi
  | h :: hs' => lo <= offset h <= hi /\ heads_in (offset h) hi hs'
  end.

Fixpoint heads_size (hs : list listhead) : Z :=
  match hs with
  | [] => 0
  | h :: hs' => zlen (listhead_encode h) + heads_size hs'
  end.

Lemma heads_in_le lo hi hs : heads_in lo hi hs -> lo <= hi.
Proof. revert lo. induction hs as [|h hs IHhs]; cbn; [lia|]. intros lo [H1 H2]. apply IHhs in H2. lia. Qed.

Lemma heads_in_weaken lo lo' hi hi' hs :
  lo' <= lo -> hi <= hi' -> heads_in lo hi hs -> heads_in lo' hi' hs.
Proof.
  revert lo lo'. induction hs as [|h hs IH]; cbn; intros lo lo' Hl Hh H; [lia|].
  destruct H as [H1 H2]. split; [lia|]. by eapply IH; [..|exact H2].
Qed.

Lemma heads_in_app lo mid hi hs1 hs2 :
  heads_in lo mid hs1 -> heads_in mid hi hs2 -> heads_in lo hi (hs1 ++ hs2).
Proof.
  revert lo. induction hs1 as [|h hs1 IH]; cbn; intros lo H1 H2.
  - eapply heads_in_weaken; [..|exact H2]; [lia|lia].
  - destruct H1 as [H1 H1']. pose proof (heads_in_le _ _ _ H2).
    split; [lia|]. by apply IH.
Qed.

Lemma heads_size_app hs1 hs2 :
  heads_size (hs1 ++ hs2) = heads_size hs1 + heads_size hs2.
Proof. induction hs1; cbn; lia. Qed.

Lemma heads_size_nonneg hs : 0 <= heads_size hs.
Proof. induction hs; cbn; lia. Qed.

Lemma length_flatten base s hs :
  heads_in base (base + zlen s) hs ->
  zlen (flatten base s hs) = zlen s + heads_size hs.
Proof.
  revert base s. induction hs as [|h hs IH]; cbn; intros base s H; [lia|].
  destruct H as [H1 H2]. rewrite !zlen_app, IH.
  - rewrite length_take, length_drop. lia.
  - rewrite length_drop. eapply heads_in_weaken; [..|exact H2]; lia.
Qed.

Lemma flatten_app_l base s1 s2 hs :
  heads_in (base + zlen s1) (base + zlen s1 + zlen s2) hs ->
  flatten base (s1 ++ s2) hs = s1 ++ flatten (base + zlen s1) s2 hs.
Proof.
  destruct hs as [|h hs]; cbn; intros H; [done|]. destruct H as [H _].
  rewrite take_app_ge, drop_app_ge, <- app_assoc by lia.
  by replace (Z.to_nat (offset h - base) - length s1)%nat
    with (Z.to_nat (offset h - (base + zlen s1))) by lia.
Qed.

Lemma flatten_app base s1 s2 hs1 hs2 :
  heads_in base (base + zlen s1) hs1 ->
  heads_in (base + zlen s1) (base + zlen s1 + zlen s2) hs2 ->
  flatten base (s1 ++ s2) (hs1 ++ hs2) =
    flatten base s1 hs1 ++ flatten (base + zlen s1) s2 hs2.
Proof.
  revert base s1. induction hs1 as [|h hs1 IH]; cbn [flatten heads_in app];
    intros base s1 H1 H2; [by apply flatten_app_l|].
  destruct H1 as [H1 H1'].
  rewrite take_app_le, drop_app_le by lia. rewrite <- !app_assoc. do 2 f_equal.
  assert (Hd : zlen (drop (Z.to_nat (offset h - base)) s1) =
    base + zlen s1 - offset h) by (rewrite length_drop; lia).
  rewrite IH.
  - f_equal. f_equal. lia.
  - eapply heads_in_weaken; [..|exact H1']; lia.
  - eapply heads_in_weaken; [..|exact H2]; lia.
Qed.

(** ** [toBytes] and [toWriter] *)

Lemma copy_at_app done_ rest src :
  (length src <= length rest)%nat ->
  copy_at (done_ ++ rest) (length done_) src =
    done_ ++ src ++ drop (length src) rest.
Proof.
  intros H. unfold copy_at. rewrite take_app_length, drop_app_add.
  f_equal. f_equal. apply take_ge. rewrite length_app. lia.
Qed.

Lemma toBytes_loop_flatten s hs done_ rest strpos :
  0 <= strpos -> heads_in strpos (zlen s) hs ->
  zlen rest = zlen (flatten strpos (drop (Z.to_nat strpos) s) hs) ->
  toBytes_loop s hs (done_ ++ rest) (length done_) strpos =
    done_ ++ flatten strpos (drop (Z.to_nat strpos) s) hs.
Proof.
  revert done_ rest strpos.
  induction hs as [|h hs IH]; intros done_ rest strpos H0 Hin Hlen;
    cbn [toBytes_loop flatten heads_in] in *.
  - rewrite copy_at_app by lia. rewrite (drop_ge rest) by lia.
    by rewrite app_nil_r.
  - destruct Hin as [Hb Hin]. unfold substr.
    set (k := Z.to_nat (offset h - strpos)) in *.
    set (d := drop (Z.to_nat strpos) s) in *.
    set (f := flatten (offset h) (drop k d) hs) in *.
    assert (Hk : length (take k d) = k).
    { rewrite length_take. unfold d. rewrite length_drop. lia. }
    rewrite !zlen_app, Hk in Hlen.
    rewrite copy_at_app by lia. rewrite Hk, length_app, Nat.min_l by lia.
    replace (length done_ + k)%nat with (length (done_ ++ take k d)) by
      (rewrite length_app; lia).
    rewrite app_assoc, copy_at_app by (rewrite length_drop; lia).
    rewrite app_assoc.
    replace (length (done_ ++ take k d) + length (listhead_encode h))%nat
      with (length ((done_ ++ take k d) ++ listhead_encode h)) by
      (rewrite (length_app (_ ++ _)); done).
    assert (Hoff : strpos + Z.of_nat k = offset h) by lia.
    assert (Hdd : drop (Z.to_nat (offset h)) s = drop k d).
    { unfold d. rewrite drop_drop. f_equal. lia. }
    rewrite Hoff, IH; rewrite ?Hdd; [|lia|done|].
    + by rewrite <- !app_assoc.
    + rewrite !length_drop. fold f. lia.
Qed.

Lemma toWriter_loop_flatten {S} (Write : S -> bytes -> S) s hs out strpos :
  (forall o a b, Write (Write o a) b = Write o (a ++ b)) ->
  (forall o, Write o [] = o) ->
  0 <= strpos -> heads_in strpos (zlen s) hs ->
  toWriter_loop Write s hs out strpos =
    Write out (flatten strpos (drop (Z.to_nat strpos) s) hs).
Proof.
  intros Hw Hn. revert out strpos.
  induction hs as [|h hs IH]; intros out strpos H0 Hin;
    cbn [toWriter_loop flatten heads_in] in *.
  - destruct (Z.ltb_spec strpos (zlen s)); [done|].
    by rewrite drop_ge, Hn by lia.
  - destruct Hin as [Hb Hin]. unfold substr.
    set (k := Z.to_nat (offset h - strpos)). set (d := drop (Z.to_nat strpos) s).
    assert (Hk : length (take k d) = k).
    { rewrite length_take. unfold d. rewrite length_drop. lia. }
    assert (Hdd : drop (Z.to_nat (offset h)) s = drop k d).
    { unfold d. rewrite drop_drop. f_equal. lia. }
    destruct (Z.ltb_spec 0 (offset h - strpos)).
    + rewrite Hk. replace (strpos + Z.of_nat k) with (offset h) by lia.
      rewrite IH, Hdd, !Hw by (done || lia). by rewrite <- ?app_assoc.
    + replace strpos with (offset h) at 1 by lia.
      rewrite IH, Hdd, !Hw by (done || lia).
      replace k with 0%nat by lia. done.
Qed.

End Flatten.

(** ** [encReader] *)

Section Reader.

(** What is left to read. *)
Definition er_rest (r : encReader) : bytes :=
  match er_buf r with
  | None => []
  | Some w =>
      default [] (er_piece r) ++
      flatten (er_strpos r) (drop (Z.to_nat (er_strpos r)) (str w))
        (drop (er_lhpos r) (lheads w))
  end.

Definition er_ok (r : encReader) : Prop :=
  match er_buf r with
  | None => True
  | Some w => 0 <= er_strpos r /\
      heads_in (er_strpos r) (zlen (str w)) (drop (er_lhpos r) (lheads w))
  end.

(** Rounds of the loop of [Read] before it reaches the end. *)
Definition er_gap (w : encbuf) (lhpos : nat) (strpos : Z) : nat :=
  let next := match lheads w !! lhpos with
              | Some h => offset h | None => zlen (str w) end in
  if strpos <? next then 1 else 0.

Definition er_rounds (r : encReader) : nat :=
  match er_buf r with
  | None => 0
  | Some w => (if er_piece r is Some _ then 1 else 0) +
      2 * (length (lheads w) - er_lhpos r) + er_gap w (er_lhpos r) (er_strpos r)
  end.

Lemma er_rounds_fuel r : (er_rounds r < encReader_fuel r)%nat.
Proof.
  unfold er_rounds, encReader_fuel, er_gap. destruct (er_buf r); [|lia].
  repeat case_match; lia.
Qed.

(** [next] splits the next piece off what is left. *)
Lemma encReader_next_spec r :
  er_ok r ->
  match encReader_next r with
  | (None, r') => er_rest r = []
  | (Some p, r') =>
      let r'' := EncReader (er_buf r') (er_lhpos r') (er_strpos r') None in
      er_buf r' <> None /\ er_rest r = p ++ er_rest r'' /\ er_ok r'' /\
      (er_rounds r'' < er_rounds r)%nat
  end.
Proof.
  unfold er_ok, encReader_next, er_rest, er_rounds, er_gap.
  destruct r as [[w|] lhp sp piece]; cbn; [|done].
  intros [H0 Hin]. destruct piece as [p|]; cbn.
  { split; [done|]. split; [done|]. split; [done|lia]. }
  destruct (lheads w !! lhp) as [h|] eqn:Hh; cbn.
  - pose proof (lookup_lt_Some _ _ _ Hh) as Hlt.
    rewrite (drop_S _ _ _ Hh) in Hin |- *. cbn [heads_in flatten] in Hin |- *.
    destruct Hin as [Hb Hin].
    destruct (Z.ltb_spec 0 (offset h - sp)); cbn.
    + rewrite Hh, (drop_S _ _ _ Hh). cbn [flatten heads_in].
      replace (sp + (offset h - sp)) with (offset h) by lia.
      rewrite Z.sub_diag. cbn [Z.to_nat take drop app].
      unfold substr. rewrite drop_drop.
      replace (Z.to_nat sp + Z.to_nat (offset h - sp))%nat
        with (Z.to_nat (offset h)) by lia.
      split; [done|]. split; [done|]. split; [repeat split; (lia || done)|].
      destruct (Z.ltb_spec (offset h) (offset h)); [lia|].
      destruct (Z.ltb_spec sp (offset h)); lia.
    + assert (sp = offset h) as -> by lia. rewrite Z.sub_diag. cbn.
      split; [done|]. split; [done|]. split; [done|]. repeat case_match; lia.
  - apply lookup_ge_None in Hh. rewrite (drop_ge (lheads w)) in Hin |- * by done. cbn in *.
    destruct (Z.ltb_spec sp (zlen (str w))); cbn; [|rewrite drop_ge by lia; done].
    rewrite (drop_ge (lheads w)) by done. cbn. rewrite Nat2Z.id, drop_all, app_nil_r.
    split; [done|]. split; [done|]. split; [lia|].
    rewrite lookup_ge_None_2 by done.
    destruct (Z.ltb_spec (zlen (str w)) (zlen (str w))); lia.
Qed.

Lemma encReader_Read_loop_spec fuel r room acc :
  er_ok r -> (er_rounds r < fuel)%nat ->
  exists r',
    encReader_Read_loop fuel r room acc =
      Some (acc ++ take room (er_rest r),
            bool_decide (length (er_rest r) <= room)%nat, r') /\
    er_rest r' = drop room (er_rest r) /\ er_ok r'.
Proof.
  revert r room acc. induction fuel as [|f IH]; intros r room acc Hok Hf; [lia|].
  cbn [encReader_Read_loop]. pose proof (encReader_next_spec r Hok) as Hn.
  destruct (encReader_next r) as [[p|] r1].
  - destruct Hn as (Hbuf & Hrest & Hok1 & Hr). rewrite Hrest.
    destruct (Nat.ltb_spec (Nat.min room (length p)) (length p)) as [Hlt|Hge].
    + rewrite Nat.min_l by lia. eexists. split; [|split].
      * rewrite take_app_le by lia. do 3 f_equal.
        apply eq_sym, bool_decide_eq_false. rewrite length_app. lia.
      * rewrite drop_app_le by lia. unfold er_rest. cbn.
        by destruct (er_buf r1).
      * unfold er_ok in *. cbn in *. done.
    + destruct (IH _ (room - Nat.min room (length p))%nat (acc ++ p) Hok1 ltac:(lia))
        as (r' & Hread & Hrest' & Hok').
      exists r'. rewrite Hread, Nat.min_r by lia. split; [|split; [|done]].
      * rewrite take_app_ge, <- app_assoc by lia. do 3 f_equal.
        apply bool_decide_ext. rewrite length_app. lia.
      * rewrite drop_app_ge, Hrest', Nat.min_r by lia. done.
  - rewrite Hn. eexists. split; [|split].
    + cbn. rewrite take_nil, app_nil_r, bool_decide_eq_true_2 by lia. done.
    + by rewrite drop_nil.
    + done.
Qed.

Lemma encReader_Read_spec r room :
  er_ok r ->
  exists r',
    encReader_Read r room =
      Some (take room (er_rest r),
            bool_decide (length (er_rest r) <= room)%nat, r') /\
    er_rest r' = drop room (er_rest r) /\ er_ok r'.
Proof.
  intros Hok. apply encReader_Read_loop_spec; [done|]. apply er_rounds_fuel.
Qed.

End Reader.

(** ** What a writer adds to the buffer *)

Section Emits.

(** [w'] is [w] after the bytes [e] were written. *)
Definition emits (w w' : encbuf) (e : bytes) : Prop :=
  exists s hs,
    w' = Encbuf (str w ++ s) (lheads w ++ hs) (lhsize w + heads_size hs) /\
    heads_in (zlen (str w)) (zlen (str w) + zlen s) hs /\
    flatten (zlen (str w)) s hs = e.

Lemma emits_nil w : emits w w [].
Proof.
  exists [], []. destruct w. cbn. rewrite !app_nil_r, Z.add_0_r.
  split; [done|]. split; [lia|done].
Qed.

Lemma emits_append w b : emits w (append_str w b) b.
Proof.
  exists b, []. unfold append_str. cbn. rewrite app_nil_r, Z.add_0_r.
  split; [done|]. split; [lia|done].
Qed.

Lemma emits_trans w w1 w2 e1 e2 :
  emits w w1 e1 -> emits w1 w2 e2 -> emits w w2 (e1 ++ e2).
Proof.
  intros (s1 & hs1 & -> & Hin1 & Hf1) (s2 & hs2 & -> & Hin2 & Hf2).
  cbn [str lheads lhsize] in *. rewrite zlen_app in Hin2, Hf2.
  exists (s1 ++ s2), (hs1 ++ hs2).
  rewrite <- !app_assoc, heads_size_app, Z.add_assoc. split; [done|]. split.
  - rewrite zlen_app, Z.add_assoc. by eapply heads_in_app.
  - rewrite flatten_app by done. congruence.
Qed.

(** Writing a list: header, elements, and the header's size filled in. *)
Lemma emits_list w w2 e :
  zlen e < 2 ^ 64 -> emits (encbuf_list w).2 w2 e ->
  emits w (listEnd (encbuf_list w).1 w2) (rlp_list e).
Proof.
  intros He (s & hs & -> & Hin & Hf). cbn [encbuf_list snd fst str lheads lhsize] in *.
  assert (Hsz : zlen e = zlen s + heads_size hs) by
    (rewrite <- Hf; by apply length_flatten).
  pose proof (heads_size_nonneg hs).
  unfold listEnd. cbn [str lheads lhsize]. rewrite <- app_assoc. cbn [app].
  rewrite lookup_app_r, Nat.sub_diag by lia. cbn [lookup list_lookup].
  unfold encbuf_size. cbn [str lheads lhsize offset size].
  rewrite zlen_app.
  replace (zlen (str w) + zlen s + (lhsize w + heads_size hs) -
    zlen (str w) - lhsize w) with (zlen e) by lia.
  rewrite insert_app_r_alt, Nat.sub_diag by lia. cbn [insert list_insert].
  exists s, (Listhead (zlen (str w)) (zlen e) :: hs).
  assert (Henc : listhead_encode (Listhead (zlen (str w)) (zlen e)) =
    rlp_header 0xC0 0xF7 (zlen e)) by (apply listhead_encode_header; cbn; lia).
  cbn [heads_size heads_in flatten offset size]. rewrite Henc. split; [|split].
  - f_equal. rewrite length_rlp_header by lia. unfold headsize.
    rewrite u64_id by lia. destruct (zlen e <? 56); lia.
  - split; [lia|done].
  - rewrite Z.sub_diag. change (Z.to_nat 0) with 0%nat.
    by rewrite drop_0, Hf.
Qed.

Lemma emits_encodeString w b :
  bytes_ok b -> zlen b < 2 ^ 64 -> emits w (encodeString w b) (rlp_string b).
Proof.
  intros Hok Hb.
  assert (Hhead : forall w', encodeStringHeader w' (zlen b) =
    append_str w' (rlp_header 0x80 0xB7 (zlen b))).
  { intros w'. rewrite <- puthead_rlp_header by lia.
    unfold encodeStringHeader, puthead. rewrite u64_id by lia.
    by destruct (zlen b <? 56). }
  assert (Hgen : emits w (append_str (encodeStringHeader w (zlen b)) b)
    (rlp_header 0x80 0xB7 (zlen b) ++ b)).
  { rewrite Hhead. eapply emits_trans; apply emits_append. }
  destruct b as [|x [|y b]]; cbn [encodeString rlp_string]; [done| |done].
  destruct (Z.leb_spec x 0x7F), (Z.ltb_spec x 0x80); try lia; [|done].
  apply emits_append.
Qed.

Lemma toBytes_emits w e : emits (Encbuf [] [] 0) w e -> toBytes w = e.
Proof.
  intros (s & hs & -> & Hin & Hf). cbn [str lheads lhsize app length] in *.
  change (Z.of_nat 0) with 0 in *. rewrite Z.add_0_l in Hin. unfold toBytes.
  cbn [str lheads].
  pose proof (toBytes_loop_flatten s hs []
    (replicate (Z.to_nat (encbuf_size (Encbuf s hs (heads_size hs)))) 0) 0) as H.
  cbn [app length] in H. change (Z.to_nat 0) with 0%nat in H.
  rewrite drop_0 in H. rewrite Z.add_0_l.
  rewrite H; [done | lia | done |].
  rewrite length_replicate. unfold encbuf_size. cbn [str lhsize].
  rewrite length_flatten by (by rewrite Z.add_0_l).
  pose proof (heads_size_nonneg hs). lia.
Qed.

Lemma encbuf_size_emits w e : emits (Encbuf [] [] 0) w e -> encbuf_size w = zlen e.
Proof.
  intros (s & hs & -> & Hin & <-). unfold encbuf_size. cbn in *.
  rewrite length_flatten by done. done.
Qed.

Lemma toWriter_emits {S} (Write : S -> bytes -> S) out w e :
  (forall o a b, Write (Write o a) b = Write o (a ++ b)) ->
  (forall o, Write o [] = o) ->
  emits (Encbuf [] [] 0) w e -> toWriter Write w out = Write out e.
Proof.
  intros H1 H2 (s & hs & -> & Hin & <-). unfold toWriter. cbn in *.
  rewrite toWriter_loop_flatten by (done || lia). done.
Qed.

Lemma er_rest_emits w e :
  emits (Encbuf [] [] 0) w e ->
  er_ok (EncReader (Some w) 0 0 None) /\ er_rest (EncReader (Some w) 0 0 None) = e.
Proof.
  intros (s & hs & -> & Hin & <-). unfold er_ok, er_rest. cbn in *.
  rewrite drop_0. split; [split; [lia|done] | done].
Qed.

End Emits.

(** ** Writers implement the encoding rules *)

Section Refinement.

(** Every byte of the value is a byte. *)
Inductive val_ok : gval -> Prop :=
| ok_raw b : bytes_ok b -> val_ok (VRaw b)
| ok_bigptr o : val_ok (VBigPtr o)
| ok_big z : val_ok (VBig z)
| ok_uint z : val_ok (VUint z)
| ok_bool b : val_ok (VBool b)
| ok_string b : bytes_ok b -> val_ok (VString b)
| ok_bytes b : bytes_ok b -> val_ok (VBytes b)
| ok_bytearray b : bytes_ok b -> val_ok (VByteArray b)
| ok_list l : Forall val_ok l -> val_ok (VList l)
| ok_struct l : Forall val_ok l -> val_ok (VStruct l)
| ok_ptr_nil : val_ok (VPtr None)
| ok_ptr v : val_ok v -> val_ok (VPtr (Some v))
| ok_iface_nil : val_ok (VIface None)
| ok_iface t v : val_ok v -> val_ok (VIface (Some (t, v))).

Lemma zero_of_ok t : val_ok (zero_of t).
Proof.
  induction t using gtype_ind'; cbn; constructor; try by constructor.
  - apply Forall_replicate. unfold byte_ok. lia.
  - by apply Forall_replicate.
  - rewrite Forall_map. done.
Qed.

Lemma iface_depth_zero t : iface_depth (zero_of t) = 0%nat.
Proof.
  induction t as [| | | | | | | | |n t IH|fs IH| | |] using gtype_ind'; try done; cbn.
  all: apply Nat.le_0_r, list_max_le, Forall_map.
  - apply Forall_replicate. cbn. lia.
  - apply Forall_map. eapply Forall_impl; [exact IH|]. cbn. lia.
Qed.

(** Generation of a writer succeeds exactly on the serializable types. *)
Lemma makeWriter_serializable wi t ts :
  is_ok (makeWriter wi t ts) = serializable t.
Proof.
  revert ts. induction t as [| | | | | | | |t IH|n t IH|fs IH|t IH| |]
    using gtype_ind'; intros ts; cbn; try done.
  1,2,4: specialize (IH no_tags); destruct (makeWriter wi t no_tags); by cbn in *.
  pose proof (structFields_from_rel (fun _ _ => True) (fun _ _ => True)
    (makeWriter wi) (fun t' _ => if serializable t' then Ok tt
                                 else Err (ErrNotSerializable t')) 0 fs) as H.
  unfold structFields.
  destruct (structFields_from (makeWriter wi) 0 fs) eqn:E1,
    (structFields_from _ 0 fs) eqn:E2 in |- *; cbn; try done.
  all: rewrite E2 in H; exfalso; apply H; try done.
  all: eapply Forall_impl; [exact IH|]; intros f Hf ts'; specialize (Hf ts').
  all: destruct (makeWriter wi f.2 ts'), (serializable f.2); by cbn in *.
Qed.

Lemma emits_writeUint w z :
  0 <= z < 2 ^ 64 ->
  exists w', writeUint (VUint z) w = Ok w' /\ emits w w' (rlp_string (be_min z)).
Proof.
  intros Hz. cbn [writeUint].
  destruct (Z.eqb_spec z 0) as [->|Hnz]; [eexists; split; [done|apply emits_append]|].
  destruct (Z.ltb_spec z 128).
  - eexists. split; [done|].
    assert (be_min z = [z]) as ->.
    { unfold be_min. rewrite nbytes_small by lia. cbn. rewrite Z.div_1_r.
      rewrite Z.mod_small by lia. done. }
    cbn. destruct (Z.ltb_spec z 128); [|lia].
    rewrite u8_id by (unfold byte_ok; lia). apply emits_append.
  - eexists. split; [done|]. rewrite putint_be_min by lia.
    destruct (u64_cases z ltac:(lia)) as [|[_ Hn]]; [lia|].
    pose proof (length_be_min z) as Hlen. pose proof (be_val_be_min z ltac:(lia)) as Hv.
    pose proof (be_min_ok z) as Hbok.
    assert (Hs : rlp_string (be_min z) =
      0x80 + Z.of_nat (nbytes z) :: be_min z).
    { rewrite <- Hlen in *. destruct (be_min z) as [|x [|y l]]; [cbn in Hn; lia|..].
      - apply bytes_ok_cons in Hbok as [Hx _]. cbn in Hv.
        cbn [rlp_string]. destruct (Z.ltb_spec x 128); [lia|]. done.
      - cbn [rlp_string]. unfold rlp_header.
        destruct (Z.ltb_spec (zlen (x :: y :: l)) 56); [done|lia]. }
    rewrite Hs, Hlen.
    rewrite !u8_id by (rewrite ?u8_id; unfold byte_ok; lia). apply emits_append.
Qed.

Lemma emits_writeBigInt w z :
  0 <= z -> zlen (be_min z) < 2 ^ 64 ->
  exists w', writeBigInt z w = Ok w' /\ emits w w' (rlp_string (be_min z)).
Proof.
  intros Hz Hl. unfold writeBigInt. destruct (Z.ltb_spec z 0); [lia|].
  destruct (Z.eqb_spec z 0) as [->|]; [eexists; split; [done|apply emits_append]|].
  rewrite Z.abs_eq by lia. eexists. split; [done|].
  apply emits_encodeString; [apply be_min_ok|done].
Qed.

Lemma rlp_string_length b : zlen b <= zlen (rlp_string b).
Proof.
  destruct b as [|x [|y b]]; cbn [rlp_string].
  - done.
  - destruct (x <? 128); [done|]. rewrite zlen_app. lia.
  - rewrite zlen_app. lia.
Qed.

Lemma rlp_list_length p : zlen p <= zlen (rlp_list p).
Proof. unfold rlp_list. rewrite zlen_app. lia. Qed.

Lemma emits_rlp_list_nil w :
  exists w', (let (lh, w1) := encbuf_list w in Ok (listEnd lh w1)) =
    (Ok w' : result rlp_error encbuf) /\ emits w w' (rlp_list []).
Proof.
  eexists. split; [done|]. apply (emits_list w _ []); [done|]. apply emits_nil.
Qed.

(** [wr] writes [e] for [v], whatever is in the buffer already. *)
Definition writes (wr : writer) (v : gval) (e : bytes) : Prop :=
  forall w, exists w', wr v w = Ok w' /\ emits w w' e.

Lemma writeString_encodeString s w :
  writeString (VString s) w = Ok (encodeString w s).
Proof. destruct s as [|x [|y s]]; cbn; try done. by destruct (x <=? 127). Qed.

Lemma writes_list w (body : encbuf -> result rlp_error encbuf) p :
  zlen p < 2 ^ 64 ->
  (forall w1, exists w2, body w1 = Ok w2 /\ emits w1 w2 p) ->
  exists w', (let (lh, w1) := encbuf_list w in w2 ← body w1; Ok (listEnd lh w2)) =
    Ok w' /\ emits w w' (rlp_list p).
Proof.
  intros Hp Hbody. destruct (Hbody (encbuf_list w).2) as (w2 & Hb & He).
  exists (listEnd (encbuf_list w).1 w2). cbn in *. rewrite Hb.
  split; [done|]. by apply emits_list.
Qed.

Lemma structFields_from_inv {I} (gen : gtype -> tags -> result rlp_error I)
    i m t fs fields :
  structFields_from gen i ((m, t) :: fs) = Ok fields ->
  (f_exported m = false /\ structFields_from gen (S i) fs = Ok fields) \/
  exists ts, f_exported m = true /\
    parseStructTag m t (match fs with [] => true | _ => false end) = Ok ts /\
    ((ignored ts = true /\ structFields_from gen (S i) fs = Ok fields) \/
     exists info rest, ignored ts = false /\ gen t ts = Ok info /\
       structFields_from gen (S i) fs = Ok rest /\ fields = (i, info) :: rest).
Proof.
  cbn. destruct (f_exported m); [|by left]. intros H. right.
  apply bind_Ok in H as (ts & Hts & H). exists ts. split; [done|]. split; [done|].
  destruct (ignored ts); [by left|right]. inv_bind. eauto 10.
Qed.

Lemma Forall_val_ok_inv l : val_ok (VList l) \/ val_ok (VStruct l) -> Forall val_ok l.
Proof. intros [H|H]; by inversion H. Qed.

(** The statements of the three parts of the mutual induction. *)
Definition P_enc t ts v e : Prop := forall n wr,
  (iface_depth v <= n)%nat -> val_ok v -> zlen e < 2 ^ 64 ->
  makeWriter (writeInterface (S n)) t ts = Ok wr -> writes wr v e.
Definition P_encs t vs p : Prop := forall n ew,
  (list_max (map iface_depth vs) <= n)%nat -> Forall val_ok vs -> zlen p < 2 ^ 64 ->
  makeWriter (writeInterface (S n)) t no_tags = Ok ew ->
  forall w, exists w', writeElems ew vs w = Ok w' /\ emits w w' p.
Definition P_fields fs vs p : Prop := forall n i fields full,
  (list_max (map iface_depth vs) <= n)%nat -> Forall val_ok vs -> zlen p < 2 ^ 64 ->
  structFields_from (makeWriter (writeInterface (S n))) i fs = Ok fields ->
  drop i full = vs ->
  forall w, exists w', writeFields fields full w = Ok w' /\ emits w w' p.

Ltac writes_append :=
  intros ?; eexists; split; [reflexivity | apply emits_append].

Lemma P_slice t ts vs p n v wr :
  P_encs t vs p -> v = VList vs ->
  (iface_depth v <= n)%nat -> val_ok v ->
  zlen (if tail ts then p else rlp_list p) < 2 ^ 64 ->
  (ew ← makeWriter (writeInterface (S n)) t no_tags; Ok (sliceWriter ew ts)) = Ok wr ->
  writes wr v (if tail ts then p else rlp_list p).
Proof.
  intros IH -> Hd Hok Hl Hw. inv_bind. intros w. cbn [sliceWriter].
  assert (Forall val_ok vs) by (apply Forall_val_ok_inv; auto).
  destruct (tail ts); [by eapply IH|].
  pose proof (rlp_list_length p).
  apply writes_list; [lia|]. eapply IH; try done. lia.
Qed.

Lemma P_ptr_special t ts e n wr :
  special_nil t = Some e ->
  makeWriter (writeInterface (S n)) (TPtr t) ts = Ok wr -> writes wr (VPtr None) e.
Proof.
  intros Hs Hw w. cbn in Hw. inv_bind. cbn [ptrWriter].
  destruct t; cbn in Hs; simplify_eq/=; try apply emits_rlp_list_nil.
  eexists. split; [done|]. apply emits_append.
Qed.

Lemma writes_encodeString wr v b :
  (forall w, wr v w = Ok (encodeString w b)) ->
  bytes_ok b -> zlen (rlp_string b) < 2 ^ 64 -> writes wr v (rlp_string b).
Proof.
  intros H Hok Hl w. rewrite H. eexists. split; [done|].
  apply emits_encodeString; [done|]. pose proof (rlp_string_length b). lia.
Qed.

Lemma writes_big wr v z :
  (forall w, wr v w = writeBigInt z w) -> 0 <= z ->
  zlen (rlp_string (be_min z)) < 2 ^ 64 -> writes wr v (rlp_string (be_min z)).
Proof.
  intros H Hz Hl w. rewrite H. apply emits_writeBigInt; [done|].
  pose proof (rlp_string_length (be_min z)). lia.
Qed.

Lemma P_ptr_zero t ts e :
  special_nil t = None -> P_enc t no_tags (zero_of t) e ->
  P_enc (TPtr t) ts (VPtr None) e.
Proof.
  intros Hs IH n wr _ _ Hl Hw w. cbn in Hw. inv_bind.
  assert (Hnil : forall ew, nilfunc t ew w = ew (zero_of t) w) by (by destruct t).
  cbn [ptrWriter]. rewrite Hnil. eapply (IH n); try done.
  - rewrite iface_depth_zero. lia.
  - apply zero_of_ok.
Qed.

Lemma writeInterface_some n t v w :
  writeInterface (S n) (VIface (Some (t, v))) w =
    (wr ← makeWriter (writeInterface n) t no_tags; wr v w).
Proof. done. Qed.

Lemma P_iface k ts t v e :
  serializable t = true -> P_enc t no_tags v e ->
  P_enc (TIface k) ts (VIface (Some (t, v))) e.
Proof.
  intros Hser IH n wr Hd Hok Hl Hw w.
  assert (wr = writeInterface (S n)) as -> by (by inversion Hw).
  cbn in Hd. destruct n as [|n]; [lia|].
  pose proof (makeWriter_serializable (writeInterface (S n)) t no_tags) as Hm.
  rewrite writeInterface_some.
  destruct (makeWriter (writeInterface (S n)) t no_tags) as [wr|] eqn:E;
    [|cbn in Hm; congruence].
  inversion Hok; subst. cbn. eapply IH; [|done|done|exact E]. lia.
Qed.

Lemma P_struct fs ts vs p :
  P_fields fs vs p -> P_enc (TStruct fs) ts (VStruct vs) (rlp_list p).
Proof.
  intros IH n wr Hd Hok Hl Hw w. cbn in Hw. inv_bind.
  pose proof (rlp_list_length p).
  apply writes_list; [lia|]. intros w1. eapply IH; try done; [|lia].
  apply Forall_val_ok_inv. by right.
Qed.

Lemma P_cons t v vs e p :
  P_enc t no_tags v e -> P_encs t vs p -> P_encs t (v :: vs) (e ++ p).
Proof.
  intros IHv IHvs n ew Hd Hok Hl Hw w. change (Nat.max (iface_depth v) (list_max (map iface_depth vs)) <= n)%nat in Hd.
  apply Forall_cons in Hok as [Hv Hvs]. rewrite zlen_app in Hl.
  destruct (IHv n ew ltac:(lia) Hv ltac:(lia) Hw w) as (w1 & Hw1 & He1).
  destruct (IHvs n ew ltac:(lia) Hvs ltac:(lia) Hw w1) as (w2 & Hw2 & He2).
  exists w2. cbn. rewrite Hw1. cbn. split; [done|]. by eapply emits_trans.
Qed.

Lemma P_skip m t fs v vs p :
  (f_exported m = false \/ exists ts,
    parseStructTag m t (match fs with [] => true | _ => false end) = Ok ts /\
    ignored ts = true) ->
  P_fields fs vs p -> P_fields ((m, t) :: fs) (v :: vs) p.
Proof.
  intros Hskip IH n i fields full Hd Hok Hl Hs Hdrop w.
  apply Forall_cons in Hok as [_ Hok]. change (Nat.max (iface_depth v) (list_max (map iface_depth vs)) <= n)%nat in Hd.
  assert (structFields_from (makeWriter (writeInterface (S n))) (S i) fs = Ok fields).
  { apply structFields_from_inv in Hs
      as [[_ Hs]|(ts & ? & ? & [[_ Hs]|(? & ? & ? & _)])]; [done|done|].
    destruct Hskip as [|(? & ? & ?)]; congruence. }
  eapply (IH n); try done; [lia|]. by eapply drop_S_inv.
Qed.

Lemma P_field m t fs v vs e p ts :
  f_exported m = true ->
  parseStructTag m t (match fs with [] => true | _ => false end) = Ok ts ->
  ignored ts = false -> P_enc t ts v e -> P_fields fs vs p ->
  P_fields ((m, t) :: fs) (v :: vs) (e ++ p).
Proof.
  intros Hexp Hts Hig IHv IH n i fields full Hd Hok Hl Hs Hdrop w.
  apply Forall_cons in Hok as [Hv Hok]. change (Nat.max (iface_depth v) (list_max (map iface_depth vs)) <= n)%nat in Hd. rewrite zlen_app in Hl.
  apply structFields_from_inv in Hs
    as [[He _]|(ts' & _ & Hts' & [[Hig' _]|(info & rest & _ & Hg & Hs & ->)])];
    [congruence|congruence|].
  assert (ts' = ts) as -> by congruence.
  destruct (IHv n info ltac:(lia) Hv ltac:(lia) Hg w) as (w1 & Hw1 & He1).
  destruct (IH n (S i) rest full ltac:(lia) Hok ltac:(lia) Hs
    (drop_S_inv _ _ _ _ Hdrop) w1) as (w2 & Hw2 & He2).
  exists w2. cbn. rewrite (drop_lookup_hd _ _ _ _ Hdrop), Hw1. cbn.
  split; [done|]. by eapply emits_trans.
Qed.

Lemma rlp_enc_writes_all :
  (forall t ts v e, rlp_enc t ts v e -> P_enc t ts v e) /\
  (forall t vs p, rlp_encs t vs p -> P_encs t vs p) /\
  (forall fs vs p, rlp_fields fs vs p -> P_fields fs vs p).
Proof.
  apply rlp_enc_mutind;
    eauto using P_ptr_zero, P_iface, P_struct, P_cons, P_skip, P_field.
  - intros ts b n wr _ _ _ [= <-]. writes_append.
  - intros ts n wr _ _ _ [= <-]. writes_append.
  - intros ts z Hz n wr _ _ Hl [= <-]. by apply writes_big.
  - intros ts z Hz n wr _ _ Hl [= <-]. by apply writes_big.
  - intros bits ts z Hz n wr _ _ _ [= <-] w. by apply emits_writeUint.
  - intros ts b n wr _ _ _ [= <-]. destruct b; writes_append.
  - intros ts b n wr _ Hok Hl [= <-]. inversion Hok; subst.
    apply writes_encodeString; [apply writeString_encodeString|done|done].
  - intros ts b n wr _ Hok Hl [= <-]. inversion Hok; subst.
    by apply writes_encodeString.
  - intros k ts b n wr _ Hok Hl [= <-]. inversion Hok; subst.
    by apply writes_encodeString.
  - intros t ts vs p _ IH n wr Hd Hok Hl Hw. by eapply P_slice.
  - intros k t ts vs p _ IH n wr Hd Hok Hl Hw. by eapply P_slice.
  - intros t ts v e _ IH n wr Hd Hok Hl Hw. cbn in Hw. inv_bind.
    inversion Hok; subst. intros w. by eapply IH.
  - intros t ts e Hs n wr _ _ _ Hw. by eapply P_ptr_special.
  - intros k ts n wr _ _ _ [= <-]. writes_append.
  - intros t n ew _ _ _ _ w. exists w. split; [done|]. apply emits_nil.
  - intros n i fields full _ _ _ [= <-] _ w. exists w. split; [done|].
    apply emits_nil.
Qed.

(** The buffer after a serializable value was encoded into a fresh one. *)
Lemma encbuf_encode_emits t v e :
  serializable t = true -> val_ok v -> rlp_enc t no_tags v e -> zlen e < 2 ^ 64 ->
  exists eb, encbuf_encode t v (Encbuf [] [] 0) = Ok eb /\
    emits (Encbuf [] [] 0) eb e.
Proof.
  intros Hs Hok Henc Hl. unfold encbuf_encode.
  pose proof (makeWriter_serializable (writeInterface (S (iface_depth v))) t no_tags)
    as Hm.
  destruct (makeWriter _ t no_tags) as [wr|] eqn:E; [|cbn in Hm; congruence].
  cbn. eapply rlp_enc_writes_all; try done.
Qed.

End Refinement.

(** ** Values of a type, and the converse *)

(** [wt t v]: [v] is a value of the Go type [t].  Dynamic types of interfaces
    are unrestricted. *)
Inductive wt : gtype -> gval -> Prop :=
| wt_raw b : wt TRaw (VRaw b)
| wt_bigptr o : wt TBigPtr (VBigPtr o)
| wt_big z : wt TBig (VBig z)
| wt_uint bits z : bits <= 64 -> 0 <= z < 2 ^ bits -> wt (TUint bits) (VUint z)
| wt_bool b : wt TBool (VBool b)
| wt_string b : wt TString (VString b)
| wt_bytes b : wt TBytes (VBytes b)
| wt_bytearray b n : length b = n -> wt (TByteArray n) (VByteArray b)
| wt_slice t vs : wts t vs -> wt (TSlice t) (VList vs)
| wt_array n t vs : length vs = n -> wts t vs -> wt (TArray n t) (VList vs)
| wt_struct fs vs : wt_fields fs vs -> wt (TStruct fs) (VStruct vs)
| wt_ptr_nil t : wt (TPtr t) (VPtr None)
| wt_ptr t v : wt t v -> wt (TPtr t) (VPtr (Some v))
| wt_iface_nil n : wt (TIface n) (VIface None)
| wt_iface n t v : wt t v -> wt (TIface n) (VIface (Some (t, v)))
with wts : gtype -> list gval -> Prop :=
| wts_nil t : wts t []
| wts_cons t v vs : wt t v -> wts t vs -> wts t (v :: vs)
with wt_fields : list (fmeta * gtype) -> list gval -> Prop :=
| wtf_nil : wt_fields [] []
| wtf_cons m t fs v vs : wt t v -> wt_fields fs vs ->
    wt_fields ((m, t) :: fs) (v :: vs).

Scheme wt_mind := Induction for wt Sort Prop
  with wts_mind := Induction for wts Sort Prop
  with wt_fields_mind := Induction for wt_fields Sort Prop.
Combined Scheme wt_mutind from wt_mind, wts_mind, wt_fields_mind.

Section Converse.

Lemma rlp_enc_zero t ts :
  serializable t = true -> special_nil t = None ->
  exists e, rlp_enc t ts (zero_of t) e.
Proof.
  revert ts. induction t using gtype_ind'; intros ts Hs Hn; cbn in *; try done.
  - eexists. constructor.
  - eexists. constructor.
  - eexists. constructor. lia.
  - eexists. constructor. lia.
  - eexists. constructor.
  - eexists. constructor.
  - eexists. constructor.
  - eexists. constructor. constructor.
  - destruct (special_nil t) as [e|] eqn:E.
    + exists e. by apply E_ptr_nil.
    + destruct (IHt no_tags Hs eq_refl) as [e He]. exists e. by apply E_ptr_zero.
  - eexists. constructor.
Qed.

Definition Q_enc t v : Prop := forall n ts wr w w',
  makeWriter (writeInterface n) t ts = Ok wr -> wr v w = Ok w' ->
  exists e, rlp_enc t ts v e.
Definition Q_encs t vs : Prop := forall n ew w w',
  makeWriter (writeInterface n) t no_tags = Ok ew ->
  writeElems ew vs w = Ok w' -> exists p, rlp_encs t vs p.
Definition Q_fields fs vs : Prop := forall n i fields full w w',
  structFields_from (makeWriter (writeInterface n)) i fs = Ok fields ->
  drop i full = vs -> writeFields fields full w = Ok w' ->
  exists p, rlp_fields fs vs p.

Lemma writeBigInt_nonneg z w w' : writeBigInt z w = Ok w' -> 0 <= z.
Proof. unfold writeBigInt. destruct (Z.ltb_spec z 0); [done|lia]. Qed.

Lemma Q_slice t vs n ts wr w w' :
  Q_encs t vs ->
  (ew ← makeWriter (writeInterface n) t no_tags; Ok (sliceWriter ew ts)) = Ok wr ->
  wr (VList vs) w = Ok w' -> exists p, rlp_encs t vs p.
Proof.
  intros IH Hw Hr. inv_bind. cbn [sliceWriter] in Hr.
  destruct (tail ts); [by eapply IH|]. cbn in Hr. inv_bind. by eapply IH.
Qed.

Lemma Q_ptr_nil t : Q_enc (TPtr t) (VPtr None).
Proof.
  intros n ts wr w w' Hw Hr.
  pose proof (makeWriter_serializable (writeInterface n) (TPtr t) ts) as Hs.
  rewrite Hw in Hs. cbn in Hs.
  destruct (special_nil t) as [e|] eqn:E.
  - exists e. by apply E_ptr_nil.
  - destruct (rlp_enc_zero t no_tags (eq_sym Hs) E) as [e He].
    exists e. by apply E_ptr_zero.
Qed.

Lemma Q_iface k t v : Q_enc t v -> Q_enc (TIface k) (VIface (Some (t, v))).
Proof.
  intros IH n ts wr w w' Hw Hr.
  assert (wr = writeInterface n) as -> by (by inversion Hw).
  destruct n as [|n]; [done|]. rewrite writeInterface_some in Hr.
  apply bind_Ok in Hr as (wr & Hwr & Hr).
  pose proof (makeWriter_serializable (writeInterface n) t no_tags) as Hs.
  rewrite Hwr in Hs. cbn in Hs.
  destruct (IH n no_tags wr w w' Hwr Hr) as [e He]. exists e. by apply E_iface.
Qed.

Lemma Q_fields_cons m t fs v vs :
  Q_enc t v -> Q_fields fs vs -> Q_fields ((m, t) :: fs) (v :: vs).
Proof.
  intros IHv IH n i fields full w w' Hs Hdrop Hw.
  pose proof (drop_S_inv _ _ _ _ Hdrop) as Hdrop'.
  apply structFields_from_inv in Hs
    as [[He Hs]|(ts & He & Hts & [[Hig Hs]|(info & rest & Hig & Hg & Hs & ->)])].
  - destruct (IH n _ _ _ w w' Hs Hdrop' Hw) as [p Hp]. exists p. by apply Ef_hidden.
  - destruct (IH n _ _ _ w w' Hs Hdrop' Hw) as [p Hp].
    exists p. by eapply Ef_ignored.
  - cbn in Hw. rewrite (drop_lookup_hd _ _ _ _ Hdrop) in Hw. inv_bind.
    destruct (IHv n ts info w a Hg E) as [e Hev].
    destruct (IH n _ _ _ a w' Hs Hdrop' Hw) as [p Hp].
    exists (e ++ p). by eapply Ef_field.
Qed.

(** A writer that succeeds on a value of its type has an encoding to write. *)
Lemma writer_sound_all :
  (forall t v, wt t v -> Q_enc t v) /\ (forall t vs, wts t vs -> Q_encs t vs) /\
  (forall fs vs, wt_fields fs vs -> Q_fields fs vs).
Proof.
  apply wt_mutind; eauto using Q_ptr_nil, Q_iface, Q_fields_cons.
  - intros b n ts wr w w' _ _. eexists. constructor.
  - intros o n ts wr w w' [= <-] Hr. destruct o as [z|]; [|eexists; constructor].
    eexists. constructor. by eapply writeBigInt_nonneg.
  - intros z n ts wr w w' [= <-] Hr. eexists. constructor.
    by eapply writeBigInt_nonneg.
  - intros bits z Hb Hz n ts wr w w' _ _. eexists. constructor.
    assert (2 ^ bits <= 2 ^ 64) by (apply Z.pow_le_mono_r; lia). lia.
  - intros b n ts wr w w' _ _. eexists. constructor.
  - intros b n ts wr w w' _ _. eexists. constructor.
  - intros b n ts wr w w' _ _. eexists. constructor.
  - intros b k _ n ts wr w w' _ _. eexists. constructor.
  - intros t vs _ IH n ts wr w w' Hw Hr.
    destruct (Q_slice _ _ _ _ _ _ _ IH Hw Hr) as [p Hp]. eexists. by constructor.
  - intros k t vs _ _ IH n ts wr w w' Hw Hr.
    destruct (Q_slice _ _ _ _ _ _ _ IH Hw Hr) as [p Hp]. eexists. by constructor.
  - intros fs vs _ IH n ts wr w w' Hw Hr. cbn in Hw. inv_bind. cbn in Hr. inv_bind.
    destruct (IH n 0%nat a vs _ _ E (drop_0 _) E0) as [p Hp]. eexists. by constructor.
  - intros t v _ IH n ts wr w w' Hw Hr. cbn in Hw. inv_bind. cbn in Hr.
    destruct (IH n no_tags a w w' E Hr) as [e He]. exists e. by constructor.
  - intros k n ts wr w w' _ _. eexists. constructor.
  - intros t n ew w w' _ _. eexists. constructor.
  - intros t v vs _ IHv _ IHvs n ew w w' Hw Hr. cbn in Hr. inv_bind.
    destruct (IHv n no_tags ew w a Hw E) as [e He].
    destruct (IHvs n ew a w' Hw Hr) as [p Hp]. eexists. by constructor.
  - intros n i fields full w w' _ _ _. eexists. constructor.
Qed.

Lemma encbuf_encode_sound t v eb :
  wt t v -> encbuf_encode t v (Encbuf [] [] 0) = Ok eb ->
  serializable t = true /\ exists e, rlp_enc t no_tags v e.
Proof.
  intros Hwt He. unfold encbuf_encode in He. inv_bind. split.
  - rewrite <- (makeWriter_serializable (writeInterface (S (iface_depth v))) t no_tags).
    by rewrite E.
  - by eapply (proj1 writer_sound_all).
Qed.

End Converse.

(** ** Properties *)

Section Properties.

Definition ex_type : gtype :=
  TStruct [(FMeta "A" true "", TUint 64); (FMeta "hidden" false "", TBool);
           (FMeta "B" true "tail", TSlice TBytes)].
Definition ex_value : gval :=
  VStruct [VUint 1024; VBool false; VList [VBytes [7]; VBytes []; VBytes [200; 1]]].
Definition ex_bytes : bytes := [0xC8; 0x82; 4; 0; 7; 0x80; 0x82; 200; 1].

Lemma ex_wt : wt ex_type ex_value.
Proof. repeat (constructor; try done). Qed.

Lemma ex_val_ok : val_ok ex_value.
Proof. repeat (constructor; try done). Qed.

Lemma ex_enc : rlp_enc ex_type no_tags ex_value ex_bytes.
Proof.
  apply (E_struct _ _ _ [0x82; 4; 0; 7; 0x80; 0x82; 200; 1]).
  apply (Ef_field _ _ _ _ _ [0x82; 4; 0] [7; 0x80; 0x82; 200; 1] no_tags); [done..| |].
  { apply (E_uint 64 no_tags 1024). lia. }
  apply Ef_hidden; [done|].
  apply (Ef_field _ _ _ _ _ [7; 0x80; 0x82; 200; 1] [] (Tags false true false)); [done..| |].
  2: constructor.
  apply (E_slice TBytes (Tags false true false)).
  apply (Es_cons _ _ _ [7] [0x80; 0x82; 200; 1]); [apply (E_bytes _ [7])|].
  apply (Es_cons _ _ _ [0x80] [0x82; 200; 1]); [apply (E_bytes _ [])|].
  apply (Es_cons _ _ _ [0x82; 200; 1] []); [apply (E_bytes _ [200; 1])|constructor].
Qed.



(** [Encode] hands the writer the same bytes, in order and without
    repetition, whatever the writer does with them. *)
Theorem Encode_writer_spec {S} (Write : S -> bytes -> S) out t v e
    (Happ : forall o a b, Write (Write o a) b = Write o (a ++ b))
    (Hnil : forall o, Write o [] = o)
    (Hs : serializable t = true) (Hok : val_ok v)
    (He : rlp_enc t no_tags v e) (Hl : zlen e < 2 ^ 64) :
  Encode Write out t v = Ok (Write out e).
Proof.
  unfold Encode. destruct (encbuf_encode_emits t v e Hs Hok He Hl) as (eb & -> & Hem).
  cbn. by rewrite (toWriter_emits _ _ _ _ Happ Hnil Hem).
Qed.

Lemma Encode_writer_spec_witness :
  Encode (fun o b => o ++ b) [9] ex_type ex_value = Ok (9 :: ex_bytes).
Proof.
  apply (Encode_writer_spec (fun o b => o ++ b) [9] ex_type ex_value ex_bytes).
  - intros. by rewrite <- app_assoc.
  - intros. by rewrite app_nil_r.
  - vm_compute; reflexivity.
  - apply ex_val_ok.
  - apply ex_enc.
  - vm_compute; reflexivity.
Defined.

(** Reading with one buffer after the other; the flag of the last [Read]. *)
Fixpoint encReader_reads (rd : encReader) (rooms : list nat) (eof : bool)
    : option (bytes * bool * encReader) :=
  match rooms with
  | [] => Some ([], eof, rd)
  | n :: rooms' =>
      '(b, eof', rd') ← encReader_Read rd n;
      '(b', eof'', rd'') ← encReader_reads rd' rooms' eof';
      Some (b ++ b', eof'', rd'')
  end.

Lemma encReader_reads_rest rd rooms eof :
  er_ok rd -> exists rd',
    encReader_reads rd rooms eof =
      Some (take (sum_list rooms) (er_rest rd),
            match rooms with
            | [] => eof
            | _ => bool_decide (length (er_rest rd) <= sum_list rooms)%nat
            end, rd').
Proof.
  revert rd eof. induction rooms as [|n rooms IH]; intros rd eof Hok; [by eexists|].
  destruct (encReader_Read_spec rd n Hok) as (rd1 & E & Hr & Hok1).
  cbn [encReader_reads sum_list]. rewrite E. cbn.
  destruct (IH rd1 (bool_decide (length (er_rest rd) <= n)%nat) Hok1) as (rd2 & E2).
  rewrite E2. cbn. exists rd2. rewrite Hr. do 2 f_equal.
  rewrite length_drop. f_equal; [by rewrite take_take_drop|].
  destruct rooms; cbn; apply bool_decide_ext; lia.
Qed.

(** The reader of [EncodeToReader] delivers the encoding and its exact
    length for every sequence of buffer sizes, empty buffers included, and
    reports [io.EOF] exactly when the buffers were large enough for all of it. *)
Theorem EncodeToReader_chunks t v e rooms
    (Hs : serializable t = true) (Hok : val_ok v)
    (He : rlp_enc t no_tags v e) (Hl : zlen e < 2 ^ 64) (Hne : rooms <> []) :
  exists rd rd', EncodeToReader t v = Ok (zlen e, rd) /\
    encReader_reads rd rooms false =
      Some (take (sum_list rooms) e, bool_decide (length e <= sum_list rooms)%nat, rd').
Proof.
  unfold EncodeToReader.
  destruct (encbuf_encode_emits t v e Hs Hok He Hl) as (eb & -> & Hem). cbn.
  destruct (er_rest_emits _ _ Hem) as [Hrok Hrest]. rewrite (encbuf_size_emits _ _ Hem).
  destruct (encReader_reads_rest _ rooms false Hrok) as (rd' & E).
  exists (EncReader (Some eb) 0 0 None), rd'. split; [done|].
  rewrite E, Hrest. by destruct rooms.
Qed.

Lemma EncodeToReader_chunks_witness :
  exists rd rd', EncodeToReader ex_type ex_value = Ok (9, rd) /\
    encReader_reads rd [2; 0; 3; 1]%nat false = Some ([0xC8; 0x82; 4; 0; 7; 0x80], false, rd').
Proof.
  apply (EncodeToReader_chunks ex_type ex_value ex_bytes [2; 0; 3; 1]%nat).
  - vm_compute; reflexivity.
  - apply ex_val_ok.
  - apply ex_enc.
  - vm_compute; reflexivity.
  - done.
Defined.

End Properties.
