(* ===== verification/RlpRaw.v ===== *)
(** * Raw access to encoded values: [src/rlp/raw.go]

    [Split] and its relatives look at an encoding without decoding it.  The
    theorems say that [Split] accepts exactly the canonical encodings, which
    makes it the inverse of the encoding rules of [RlpEncode]. *)

From S2P Require Import Prelude RlpTypes RlpEncode.
Local Open Scope Z_scope.

(** ** Operations *)

Inductive Kind := KByte | KString | KList.

#[global] Instance Kind_eq_dec : EqDecision Kind.
Proof. solve_decision. Defined.

Definition ListSize (contentSize : Z) : Z := u64 (headsize contentSize + contentSize).

Definition readSize (b : bytes) (slen : Z) : result rlp_error Z :=
  if zlen b <? slen then Err ErrUnexpectedEOF
  else
    let b_ i := nth i b 0 in
    let s :=
      match slen with
      | 1 => b_ 0%nat
      | 2 => Z.lor (Z.shiftl (b_ 0%nat) 8) (b_ 1%nat)
      | 3 => Z.lor (Z.lor (Z.shiftl (b_ 0%nat) 16) (Z.shiftl (b_ 1%nat) 8)) (b_ 2%nat)
      | 4 => Z.lor (Z.lor (Z.lor (Z.shiftl (b_ 0%nat) 24) (Z.shiftl (b_ 1%nat) 16))
               (Z.shiftl (b_ 2%nat) 8)) (b_ 3%nat)
      | 5 => Z.lor (Z.lor (Z.lor (Z.lor (Z.shiftl (b_ 0%nat) 32)
               (Z.shiftl (b_ 1%nat) 24)) (Z.shiftl (b_ 2%nat) 16))
               (Z.shiftl (b_ 3%nat) 8)) (b_ 4%nat)
      | 6 => Z.lor (Z.lor (Z.lor (Z.lor (Z.lor (Z.shiftl (b_ 0%nat) 40)
               (Z.shiftl (b_ 1%nat) 32)) (Z.shiftl (b_ 2%nat) 24))
               (Z.shiftl (b_ 3%nat) 16)) (Z.shiftl (b_ 4%nat) 8)) (b_ 5%nat)
      | 7 => Z.lor (Z.lor (Z.lor (Z.lor (Z.lor (Z.lor (Z.shiftl (b_ 0%nat) 48)
               (Z.shiftl (b_ 1%nat) 40)) (Z.shiftl (b_ 2%nat) 32))
               (Z.shiftl (b_ 3%nat) 24)) (Z.shiftl (b_ 4%nat) 16))
               (Z.shiftl (b_ 5%nat) 8)) (b_ 6%nat)
      | 8 => Z.lor (Z.lor (Z.lor (Z.lor (Z.lor (Z.lor (Z.lor (Z.shiftl (b_ 0%nat) 56)
               (Z.shiftl (b_ 1%nat) 48)) (Z.shiftl (b_ 2%nat) 40))
               (Z.shiftl (b_ 3%nat) 32)) (Z.shiftl (b_ 4%nat) 24))
               (Z.shiftl (b_ 5%nat) 16)) (Z.shiftl (b_ 6%nat) 8)) (b_ 7%nat)
      | _ => 0
      end in
    if ((s <? 56) || (b_ 0%nat =? 0))%bool then Err ErrCanonSize else Ok s.

(** Kind, tag size and content size of the first value of [buf]. *)
Definition readKind (buf : bytes) : result rlp_error (Kind * Z * Z) :=
  match buf with
  | [] => Err ErrUnexpectedEOF
  | b :: buf1 =>
      r ← (if b <? 0x80 then Ok (KByte, 0, 1)
           else if b <? 0xB8 then
             let contentsize := b - 0x80 in
             if ((contentsize =? 1) && match buf1 with
                                       | c :: _ => c <? 128
                                       | [] => false end)%bool
             then Err ErrCanonSize else Ok (KString, 1, contentsize)
           else if b <? 0xC0 then
             contentsize ← readSize buf1 (b - 0xB7);
             Ok (KString, b - 0xB7 + 1, contentsize)
           else if b <? 0xF8 then Ok (KList, 1, b - 0xC0)
           else
             contentsize ← readSize buf1 (b - 0xF7);
             Ok (KList, b - 0xF7 + 1, contentsize));
      let '(k, tagsize, contentsize) := r in
      if u64 (zlen buf - tagsize) <? contentsize then Err ErrValueTooLarge
      else Ok (k, tagsize, contentsize)
  end.

Definition Split (b : bytes) : result rlp_error (Kind * bytes * bytes) :=
  '(k, ts, cs) ← readKind b;
  Ok (k, take (Z.to_nat cs) (drop (Z.to_nat ts) b), drop (Z.to_nat (ts + cs)) b).

Definition SplitString (b : bytes) : result rlp_error (bytes * bytes) :=
  '(k, content, rest) ← Split b;
  if decide (k = KList) then Err ErrExpectedString else Ok (content, rest).

Definition SplitList (b : bytes) : result rlp_error (bytes * bytes) :=
  '(k, content, rest) ← Split b;
  if decide (k = KList) then Ok (content, rest) else Err ErrExpectedList.

(** Each round of the loop of [CountValues] consumes at least one byte. *)
Fixpoint CountValues_loop (fuel : nat) (b : bytes) (i : Z) : result rlp_error Z :=
  match b, fuel with
  | [], _ => Ok i
  | _, O => Err OutOfFuel
  | _, S f =>
      '(_, tagsize, sz) ← readKind b;
      CountValues_loop f (drop (Z.to_nat (tagsize + sz)) b) (i + 1)
  end.

Definition CountValues (b : bytes) : result rlp_error Z :=
  CountValues_loop (length b) b 0.

(** ** Big-endian sizes *)

Lemma lor_shiftl_byte a b j k :
  byte_ok b -> 0 <= k -> j = k + 8 ->
  Z.lor (Z.shiftl a j) (Z.shiftl b k) = Z.shiftl (a * 256 + b) k.
Proof.
  intros Hb Hk ->. rewrite Z.add_comm, <- Z.shiftl_shiftl by lia.
  rewrite <- Z.shiftl_lor. f_equal. apply lor_shiftl_add; unfold byte_ok in Hb; lia.
Qed.

Ltac lor_bytes :=
  repeat match goal with
  | |- context [Z.lor (Z.shiftl ?a ?j) (Z.shiftl ?b ?k)] =>
      rewrite (lor_shiftl_byte a b j k) by (lia || assumption)
  | |- context [Z.lor (Z.shiftl ?a 8) ?b] =>
      rewrite (lor_shiftl_add a b 8) by
        (unfold byte_ok in *; change (2 ^ 8) with 256; lia)
  end.

Tactic Notation "size_case" integer(n) ident(b) :=
  lazymatch goal with
  | Hok : bytes_ok b, Hlen : _ <= zlen b |- _ =>
      unfold bytes_ok in Hok;
      do n (destruct b as [|? b]; [cbn [length] in Hlen; lia|]);
      rewrite ?Forall_cons in Hok; destruct_and? Hok;
      cbn [nth]; lor_bytes;
      match goal with |- context [Z.to_nat ?k] =>
        let m := eval vm_compute in (Z.to_nat k) in
        change (Z.to_nat k) with m end;
      cbn [take firstn be_val length]; rewrite take_0; cbn [be_val length];
      repeat match goal with |- context [256 ^ ?e] =>
        let v := eval vm_compute in (256 ^ e) in change (256 ^ e) with v end;
      lia
  end.

Lemma readSize_spec b slen :
  bytes_ok b -> 1 <= slen <= 8 ->
  readSize b slen =
    if zlen b <? slen then Err ErrUnexpectedEOF
    else let s := be_val (take (Z.to_nat slen) b) in
         if ((s <? 56) || (nth 0 b 0 =? 0))%bool then Err ErrCanonSize else Ok s.
Proof.
  intros Hok Hs. unfold readSize.
  destruct (Z.ltb_spec (zlen b) slen) as [|Hlen]; [done|].
  assert (Hc : slen = 1 \/ slen = 2 \/ slen = 3 \/ slen = 4 \/ slen = 5 \/
    slen = 6 \/ slen = 7 \/ slen = 8) by lia.
  assert (Hgoal : forall x y, x = y ->
    (if ((x <? 56) || (nth 0 b 0 =? 0))%bool then Err ErrCanonSize else Ok x) =
    (if ((y <? 56) || (nth 0 b 0 =? 0))%bool then Err ErrCanonSize else
       (Ok y : result rlp_error Z))) by (intros; by subst).
  destruct_or! Hc; subst slen; apply Hgoal; clear Hgoal.
  1: size_case 1 b. 1: size_case 2 b. 1: size_case 3 b.
  1: size_case 4 b. 1: size_case 5 b. 1: size_case 6 b.
  1: size_case 7 b. size_case 8 b.
Qed.

(** ** Canonical encodings *)

(** The encoding of a value with kind [k] and content [c]. *)
Definition kind_enc (k : Kind) (c : bytes) : bytes :=
  match k with KByte => c | KString => rlp_string c | KList => rlp_list c end.

(** A string of one byte below 128 has kind [KByte], every other string has
    kind [KString]. *)
Definition single_byte (c : bytes) : bool :=
  match c with [x] => x <? 128 | _ => false end.

Definition kind_ok (k : Kind) (c : bytes) : Prop :=
  match k with
  | KByte => single_byte c = true
  | KString => single_byte c = false
  | KList => True
  end.

Section Split.

Lemma rlp_string_not_single c :
  single_byte c = false -> rlp_string c = rlp_header 0x80 0xB7 (zlen c) ++ c.
Proof. destruct c as [|x [|y c]]; cbn; try done. intros ->. done. Qed.

Lemma rlp_string_single c : single_byte c = true -> rlp_string c = c.
Proof. destruct c as [|x [|y c]]; cbn; try done. intros ->. done. Qed.

(** Long sizes: what [readSize] accepts and what it reads. *)
Lemma readSize_Ok b slen s :
  bytes_ok b -> 1 <= slen <= 8 -> readSize b slen = Ok s ->
  56 <= s < 2 ^ 64 /\ slen = Z.of_nat (nbytes s) /\
  b = be_min s ++ drop (Z.to_nat slen) b.
Proof.
  intros Hok Hs H. rewrite readSize_spec in H by done.
  destruct (Z.ltb_spec (zlen b) slen) as [|Hlen]; [done|]. cbv zeta in H.
  destruct (Z.ltb_spec (be_val (take (Z.to_nat slen) b)) 56) as [|H56]; [done|].
  destruct (Z.eqb_spec (nth 0 b 0) 0) as [|Hnz]; [done|]. cbn in H. simplify_eq.
  set (l := take (Z.to_nat slen) b) in *.
  assert (Hll : zlen l = slen) by (unfold l; rewrite length_take; lia).
  assert (Hl : bytes_ok l) by (by apply bytes_ok_take).
  assert (Hmin : be_min (be_val l) = l).
  { destruct b as [|x b]; [cbn in Hlen; lia|].
    unfold l in *. destruct (Z.to_nat slen) as [|k] eqn:Ek; [lia|]. cbn in *.
    by apply be_min_be_val. }
  split; [|split].
  - split; [done|]. eapply Z.lt_le_trans; [apply be_val_bound, Hl|].
    change (2 ^ 64) with (256 ^ 8). apply Z.pow_le_mono_r; lia.
  - rewrite <- length_be_min, Hmin. done.
  - rewrite Hmin. unfold l. by rewrite take_drop.
Qed.

Lemma readSize_be_min s rest :
  bytes_ok rest -> 56 <= s < 2 ^ 64 ->
  readSize (be_min s ++ rest) (Z.of_nat (nbytes s)) = Ok s.
Proof.
  intros Hr Hs. destruct (u64_cases s ltac:(lia)) as [|[_ Hn]]; [lia|].
  rewrite readSize_spec; [|apply bytes_ok_app; auto using be_min_ok|lia].
  rewrite Nat2Z.id, take_app_length' by (by rewrite length_be_min).
  rewrite be_val_be_min by lia. rewrite zlen_app, length_be_min.
  destruct (Z.ltb_spec (Z.of_nat (nbytes s) + zlen rest) (Z.of_nat (nbytes s))); [lia|].
  destruct (be_min s) as [|x l] eqn:E.
  { pose proof (length_be_min s) as Hl. rewrite E in Hl. cbn in Hl. lia. }
  cbn. pose proof (be_min_hd s x l ltac:(lia) E).
  destruct (Z.eqb_spec x 0), (Z.ltb_spec s 56); done || lia.
Qed.

Lemma u64_sub_len (b : bytes) n :
  zlen b < 2 ^ 64 -> 0 <= n <= zlen b -> u64 (zlen b - n) = zlen b - n.
Proof. intros. apply u64_id. lia. Qed.

(** Tag size and content size that a header with tags from [small] on
    announces: strings for [small = 0x80], lists for [small = 0xC0]. *)
Definition readHead (small x : Z) (buf : bytes) : result rlp_error (Z * Z) :=
  if x <? small + 56 then Ok (1, x - small)
  else s ← readSize buf (x - (small + 55)); Ok (x - (small + 55) + 1, s).

Lemma readHead_sound small x buf ts cs :
  bytes_ok buf -> small <= x < small + 64 ->
  readHead small x buf = Ok (ts, cs) ->
  let c := take (Z.to_nat cs) (drop (Z.to_nat ts) (x :: buf)) in
  1 <= ts <= 1 + zlen buf /\ 0 <= cs < 2 ^ 64 /\
  (cs <= zlen (x :: buf) - ts -> zlen c = cs /\
   x :: buf = rlp_header small (small + 55) cs ++ c ++
     drop (Z.to_nat (ts + cs)) (x :: buf)).
Proof.
  intros Hok Hx H. unfold readHead in H.
  destruct (Z.ltb_spec x (small + 56)) as [Hs|Hs].
  - simplify_eq. split; [lia|]. split; [lia|]. intros Hle.
    cbn [length] in Hle. split; [rewrite length_take, length_drop; cbn; lia|].
    unfold rlp_header. destruct (Z.ltb_spec (x - small) 56); [|lia].
    cbn [app]. f_equal; [lia|]. change (Z.to_nat 1) with 1%nat. cbn [drop].
    replace (Z.to_nat (1 + (x - small))) with (S (Z.to_nat (x - small))) by lia.
    cbn [drop]. by rewrite take_drop.
  - inv_bind. simplify_eq.
    destruct (readSize_Ok buf (x - (small + 55)) cs Hok ltac:(lia) E) as (Hcs & Hn & Hbb).
    assert (x - (small + 55) <= zlen buf) by (rewrite Hbb, zlen_app, length_be_min; lia).
    split; [lia|]. split; [lia|]. intros Hle. cbn [length] in Hle.
    split; [rewrite length_take, length_drop; cbn; lia|].
    unfold rlp_header. destruct (Z.ltb_spec cs 56); [lia|]. cbn [app].
    f_equal; [lia|].
    replace (Z.to_nat (x - (small + 55) + 1)) with (S (Z.to_nat (x - (small + 55)))) by lia.
    replace (Z.to_nat (x - (small + 55) + 1 + cs))
      with (S (Z.to_nat (x - (small + 55)) + Z.to_nat cs)) by lia.
    cbn [drop]. rewrite <- drop_drop, take_drop. done.
Qed.

Lemma readHead_complete small n rest :
  bytes_ok rest -> 0 <= n < 2 ^ 64 ->
  exists x buf, rlp_header small (small + 55) n ++ rest = x :: buf /\
    small <= x < small + 64 /\
    readHead small x buf = Ok (zlen (rlp_header small (small + 55) n), n).
Proof.
  intros Hok Hn. unfold rlp_header, readHead.
  destruct (Z.ltb_spec n 56).
  - eexists _, _. split; [done|]. split; [lia|].
    destruct (Z.ltb_spec (small + n) (small + 56)); [|lia].
    do 2 f_equal. lia.
  - destruct (u64_cases n ltac:(lia)) as [|[_ Hb]]; [lia|].
    eexists _, _. split; [done|]. split; [lia|].
    destruct (Z.ltb_spec (small + 55 + Z.of_nat (nbytes n)) (small + 56)); [lia|].
    replace (small + 55 + Z.of_nat (nbytes n) - (small + 55))
      with (Z.of_nat (nbytes n)) by lia.
    rewrite readSize_be_min by (done || lia). cbn [mbind result_bind].
    cbn [length]. rewrite length_be_min. do 2 f_equal. lia.
Qed.

(** [readKind] in terms of [readHead]. *)
Lemma readKind_cons x buf :
  0 <= x < 256 ->
  readKind (x :: buf) =
    (r ← (if x <? 0x80 then Ok (KByte, 0, 1)
          else if x <? 0xC0 then
            if ((x =? 0x81) && match buf with c :: _ => c <? 128 | [] => false end)%bool
            then Err ErrCanonSize
            else '(ts, cs) ← readHead 0x80 x buf; Ok (KString, ts, cs)
          else '(ts, cs) ← readHead 0xC0 x buf; Ok (KList, ts, cs));
     let '(k, ts, cs) := r in
     if u64 (zlen (x :: buf) - ts) <? cs then Err ErrValueTooLarge
     else Ok (k, ts, cs)).
Proof.
  intros Hx. unfold readKind, readHead. f_equal.
  replace (x - 128 =? 1) with (x =? 129) by (destruct (Z.eqb_spec x 129), (Z.eqb_spec (x - 128) 1); lia).
  change (128 + 55) with 183. change (192 + 55) with 247.
  change (128 + 56) with 184. change (192 + 56) with 248.
  destruct (Z.ltb_spec x 128); [done|].
  destruct (Z.ltb_spec x 184), (Z.ltb_spec x 192), (Z.ltb_spec x 248); try lia.
  - by destruct (_ && _)%bool.
  - destruct (Z.eqb_spec x 129); [lia|]. cbn. by destruct (readSize _ _).
  - done.
  - by destruct (readSize _ _).
Qed.

(** Soundness of [readKind]: the value it delimits is a canonical encoding. *)
Lemma readKind_sound b k ts cs :
  bytes_ok b -> zlen b < 2 ^ 64 -> readKind b = Ok (k, ts, cs) ->
  let c := take (Z.to_nat cs) (drop (Z.to_nat ts) b) in
  0 <= ts /\ 0 <= cs /\ 0 < ts + cs <= zlen b /\ kind_ok k c /\
  b = kind_enc k c ++ drop (Z.to_nat (ts + cs)) b.
Proof.
  intros Hok Hlen H. destruct b as [|x b]; [done|].
  apply bytes_ok_cons in Hok as [Hx Hok]. unfold byte_ok in Hx.
  rewrite readKind_cons in H by done.
  apply bind_Ok in H as ([[k' ts'] cs'] & Hr & H).
  destruct (Z.ltb_spec (u64 (zlen (x :: b) - ts')) cs') as [|Hcs]; [done|].
  inversion H; subst; clear H.
  destruct (Z.ltb_spec x 0x80) as [H80|H80].
  { simplify_eq. change (Z.to_nat (0 + 1)) with 1%nat.
    change (Z.to_nat 0) with 0%nat. change (Z.to_nat 1) with 1%nat.
    cbn [drop take kind_ok kind_enc single_byte app length]. rewrite drop_0, take_0.
    destruct (Z.ltb_spec x 128); [|lia]. repeat split; try done; lia. }
  destruct (Z.ltb_spec x 0xC0) as [HC0|HC0].
  - destruct (_ && _)%bool eqn:Ec; [done|]. inv_bind. destruct a as [ts' cs'].
    simplify_eq. destruct (readHead_sound 0x80 x b ts cs Hok ltac:(lia) E)
      as (Hts & Hcs' & Hsound).
    rewrite u64_sub_len in Hcs by (done || (cbn [length]; lia)).
    destruct (Hsound Hcs) as [Hc Heq]. remember (take _ _) as c eqn:E'.
    assert (Hns : single_byte c = false).
    { destruct c as [|y [|]]; try done. cbn in Hc. subst cs.
      unfold readHead in E. destruct (Z.ltb_spec x (128 + 56)); simplify_eq.
      - assert (x = 129) as -> by lia. destruct b as [|z b]; [done|].
        change (Z.to_nat (Z.of_nat 1)) with 1%nat in E'.
        change (Z.to_nat 1) with 1%nat in E'. cbn [drop take] in E'.
        rewrite ?drop_0, take_0 in E'. by simplify_eq.
      - apply bind_Ok in E as (s & Hs & E). simplify_eq.
        apply readSize_Ok in Hs as [? _]; [lia|done|lia]. }
    cbn [length] in *. cbn [kind_enc kind_ok]. rewrite rlp_string_not_single, Hc by done.
    rewrite <- app_assoc. repeat split; try done; lia.
  - inv_bind. destruct a as [ts' cs']. simplify_eq.
    destruct (readHead_sound 0xC0 x b ts cs Hok ltac:(lia) E) as (Hts & Hcs' & Hsound).
    rewrite u64_sub_len in Hcs by (done || (cbn [length]; lia)).
    destruct (Hsound Hcs) as [Hc Heq]. set (c := take _ _) in *.
    cbn [length] in *. cbn [kind_enc kind_ok]. unfold rlp_list. rewrite Hc.
    rewrite <- app_assoc. repeat split; try done; lia.
Qed.

Lemma u64_room (b : bytes) ts cs :
  zlen b < 2 ^ 64 -> 0 <= ts -> 0 <= cs -> ts + cs <= zlen b ->
  (u64 (zlen b - ts) <? cs) = false.
Proof. intros. rewrite u64_sub_len by lia. apply Z.ltb_ge. lia. Qed.

(** Completeness: a canonical encoding is read back. *)
Lemma readKind_complete k c rest :
  bytes_ok (kind_enc k c ++ rest) -> zlen (kind_enc k c ++ rest) < 2 ^ 64 ->
  kind_ok k c ->
  exists ts, readKind (kind_enc k c ++ rest) = Ok (k, ts, zlen c) /\
    0 <= ts /\ drop (Z.to_nat ts) (kind_enc k c ++ rest) = c ++ rest.
Proof.
  intros Hok Hlen Hk.
  assert (Hhead : forall small, bytes_ok (c ++ rest) ->
    zlen (rlp_header small (small + 55) (zlen c) ++ c ++ rest) < 2 ^ 64 ->
    exists x buf ts, rlp_header small (small + 55) (zlen c) ++ c ++ rest = x :: buf /\
      small <= x < small + 64 /\ 0 <= ts /\ ts + zlen c <= zlen (x :: buf) /\
      readHead small x buf = Ok (ts, zlen c) /\
      drop (Z.to_nat ts) (x :: buf) = c ++ rest).
  { intros small Hc Hl. rewrite !zlen_app in Hl.
    destruct (readHead_complete small (zlen c) (c ++ rest) Hc ltac:(lia))
      as (x & buf & Heq & Hx & Hr).
    exists x, buf, (zlen (rlp_header small (small + 55) (zlen c))).
    rewrite <- Heq, !zlen_app. repeat split; try done; try lia.
    rewrite Nat2Z.id. apply drop_app_length. }
  destruct k; cbn [kind_enc kind_ok] in *.
  - destruct c as [|x [|]]; try done. cbn [single_byte app] in *.
    apply bytes_ok_cons in Hok as [Hx _].
    exists 0. rewrite readKind_cons, Hk by done. cbn [mbind result_bind].
    rewrite u64_room by (done || (cbn [length] in *; lia)). done.
  - rewrite rlp_string_not_single in Hok, Hlen |- * by done.
    rewrite <- app_assoc in *. pose proof Hok as [_ Hok']%bytes_ok_app.
    destruct (Hhead 0x80 Hok' Hlen) as (x & buf & ts & Heq & Hx & Hts & Hle & Hr & Hd).
    change (128 + 55) with 183 in *. rewrite Heq in *.
    exists ts. split; [|done]. apply bytes_ok_cons in Hok as [Hxb _].
    rewrite readKind_cons by done.
    destruct (Z.ltb_spec x 128), (Z.ltb_spec x 192); try lia.
    destruct (_ && _)%bool eqn:Ec.
    { exfalso. zbool. subst x. unfold readHead in Hr. cbn in Hr.
      injection Hr as <- Hc1. destruct c as [|y [|]]; cbn in Hc1; [lia| |lia].
      change (Z.to_nat 1) with 1%nat in Hd. cbn in Hd. rewrite ?drop_0 in Hd. subst buf.
      cbn in Hk. congruence. }
    rewrite Hr. cbn [mbind result_bind]. rewrite u64_room by (done || lia). done.
  - unfold rlp_list in *. rewrite <- app_assoc in *.
    pose proof Hok as [_ Hok']%bytes_ok_app.
    destruct (Hhead 0xC0 Hok' Hlen) as (x & buf & ts & Heq & Hx & Hts & Hle & Hr & Hd).
    change (192 + 55) with 247 in *. rewrite Heq in *.
    exists ts. split; [|done]. apply bytes_ok_cons in Hok as [Hxb _].
    rewrite readKind_cons by done.
    destruct (Z.ltb_spec x 128), (Z.ltb_spec x 192); try lia.
    rewrite Hr. cbn [mbind result_bind]. rewrite u64_room by (done || lia). done.
Qed.

Lemma Split_sound b k c rest :
  bytes_ok b -> zlen b < 2 ^ 64 -> Split b = Ok (k, c, rest) ->
  kind_ok k c /\ b = kind_enc k c ++ rest.
Proof.
  intros Hok Hl H. unfold Split in H. inv_bind. destruct a as [[k' ts] cs].
  simplify_eq. destruct (readKind_sound _ _ _ _ Hok Hl E) as (_ & _ & _ & Hk & Hb). done.
Qed.

Lemma Split_complete k c rest :
  bytes_ok (kind_enc k c ++ rest) -> zlen (kind_enc k c ++ rest) < 2 ^ 64 ->
  kind_ok k c -> Split (kind_enc k c ++ rest) = Ok (k, c, rest).
Proof.
  intros Hok Hl Hk. destruct (readKind_complete k c rest Hok Hl Hk) as (ts & Hr & Hts & Hd).
  unfold Split. rewrite Hr. cbn [mbind result_bind].
  rewrite Z2Nat.inj_add, Nat2Z.id, <- drop_drop, Hd by lia.
  by rewrite take_app_length, drop_app_length.
Qed.

(** An encoding is no proper prefix of another one. *)
Lemma kind_enc_inj k1 c1 r1 k2 c2 r2 :
  kind_ok k1 c1 -> kind_ok k2 c2 -> bytes_ok (kind_enc k1 c1 ++ r1) ->
  zlen (kind_enc k1 c1 ++ r1) < 2 ^ 64 ->
  kind_enc k1 c1 ++ r1 = kind_enc k2 c2 ++ r2 -> k1 = k2 /\ c1 = c2 /\ r1 = r2.
Proof.
  intros H1 H2 Hok Hl Heq. pose proof (Split_complete k1 c1 r1 Hok Hl H1) as E1.
  rewrite Heq in Hok, Hl, E1. rewrite (Split_complete k2 c2 r2 Hok Hl H2) in E1.
  by simplify_eq.
Qed.

Definition string_kind (b : bytes) : Kind := if single_byte b then KByte else KString.

Lemma rlp_string_kind b :
  kind_ok (string_kind b) b /\ rlp_string b = kind_enc (string_kind b) b.
Proof.
  unfold string_kind. destruct (single_byte b) eqn:E; cbn; [|done].
  split; [done|]. by apply rlp_string_single.
Qed.

Lemma rlp_string_inj b1 r1 b2 r2 :
  bytes_ok (rlp_string b1 ++ r1) -> zlen (rlp_string b1 ++ r1) < 2 ^ 64 ->
  rlp_string b1 ++ r1 = rlp_string b2 ++ r2 -> b1 = b2 /\ r1 = r2.
Proof.
  destruct (rlp_string_kind b1) as [K1 E1], (rlp_string_kind b2) as [K2 E2].
  rewrite E1, E2. intros Hok Hl Heq.
  by destruct (kind_enc_inj _ _ _ _ _ _ K1 K2 Hok Hl Heq) as (_ & ? & ?).
Qed.

Lemma rlp_list_inj p1 r1 p2 r2 :
  bytes_ok (rlp_list p1 ++ r1) -> zlen (rlp_list p1 ++ r1) < 2 ^ 64 ->
  rlp_list p1 ++ r1 = rlp_list p2 ++ r2 -> p1 = p2 /\ r1 = r2.
Proof.
  intros Hok Hl Heq.
  by destruct (kind_enc_inj KList p1 r1 KList p2 r2 I I Hok Hl Heq) as (_ & ? & ?).
Qed.

Lemma rlp_header_ok small n :
  0 <= small <= 0xC0 -> 0 <= n < 2 ^ 64 -> bytes_ok (rlp_header small (small + 55) n).
Proof.
  intros Hs Hn. unfold rlp_header. destruct (Z.ltb_spec n 56).
  - apply bytes_ok_cons. split; [unfold byte_ok; lia|constructor].
  - destruct (u64_cases n Hn) as [|[_ Hb]]; [lia|].
    apply bytes_ok_cons. split; [unfold byte_ok; lia|apply be_min_ok].
Qed.

Lemma rlp_string_ok b : bytes_ok b -> zlen b < 2 ^ 64 -> bytes_ok (rlp_string b).
Proof.
  intros Hb Hl. destruct (single_byte b) eqn:E; [by rewrite rlp_string_single|].
  rewrite rlp_string_not_single by done. apply bytes_ok_app. split; [|done].
  apply (rlp_header_ok 0x80); lia.
Qed.

Lemma rlp_list_ok p : bytes_ok p -> zlen p < 2 ^ 64 -> bytes_ok (rlp_list p).
Proof.
  intros Hp Hl. apply bytes_ok_app. split; [|done]. apply (rlp_header_ok 0xC0); lia.
Qed.

(** [n] canonical encodings one after the other. *)
Inductive encodings : nat -> bytes -> Prop :=
| encodings_nil : encodings 0 []
| encodings_cons n k c rest : kind_ok k c -> encodings n rest ->
    encodings (S n) (kind_enc k c ++ rest).

Lemma kind_enc_nonempty k c : kind_ok k c -> kind_enc k c <> [].
Proof.
  intros Hk H. apply (f_equal length) in H. destruct k; cbn in *.
  - by destruct c.
  - rewrite rlp_string_not_single in H by done. unfold rlp_header in H.
    rewrite length_app in H. destruct (_ <? _); cbn in H; lia.
  - unfold rlp_list, rlp_header in H. rewrite length_app in H.
    destruct (_ <? _); cbn in H; lia.
Qed.

Lemma CountValues_loop_complete n b f i :
  encodings n b -> bytes_ok b -> zlen b < 2 ^ 64 -> (length b <= f)%nat ->
  CountValues_loop f b i = Ok (i + Z.of_nat n).
Proof.
  intros H. revert f i. induction H as [|n k c rest Hk Hr IH]; intros f i Hok Hl Hf.
  - destruct f; cbn; f_equal; lia.
  - destruct (readKind_complete k c rest Hok Hl Hk) as (ts & Hrk & Hts & Hd).
    pose proof (kind_enc_nonempty k c Hk).
    destruct (kind_enc k c ++ rest) as [|x b] eqn:E.
    { apply app_eq_nil in E as [? _]. done. }
    destruct f as [|f]; [cbn in Hf; lia|]. cbn [CountValues_loop].
    rewrite Hrk. cbn [mbind result_bind].
    rewrite Z2Nat.inj_add, Nat2Z.id, <- drop_drop, Hd, drop_app_length by lia.
    rewrite <- E in Hok, Hl, Hf. apply bytes_ok_app in Hok as [_ Hok].
    rewrite zlen_app in Hl. rewrite length_app in Hf.
    rewrite IH; [f_equal; lia|done|lia|]. destruct (kind_enc k c); [done|cbn in *; lia].
Qed.

Lemma CountValues_loop_sound f b i r :
  bytes_ok b -> zlen b < 2 ^ 64 -> CountValues_loop f b i = Ok r ->
  exists n, encodings n b /\ r = i + Z.of_nat n.
Proof.
  revert b i. induction f as [|f IH]; intros b i Hok Hl H.
  - destruct b; cbn in H; simplify_eq. exists 0%nat. split; [constructor|lia].
  - destruct b as [|x b]; cbn [CountValues_loop] in H.
    { simplify_eq. exists 0%nat. split; [constructor|lia]. }
    inv_bind. destruct a as [[k ts] cs].
    destruct (readKind_sound _ _ _ _ Hok Hl E) as (Hts & Hcs & Hsum & Hk & Heq).
    apply IH in H as (n & Hn & ->).
    + exists (S n). split; [|lia]. rewrite Heq. by constructor.
    + by apply bytes_ok_drop.
    + rewrite length_drop. lia.
Qed.

End Split.

(** ** Properties *)

(** [Split] accepts exactly the inputs that start with a canonical
    encoding and returns its kind, its content and the bytes behind it: long
    sizes with leading zeros or below 56, single bytes with a header, and
    contents that the input does not hold in full are all rejected. *)
Theorem Split_canonical b k c rest (Hok : bytes_ok b) (Hl : zlen b < 2 ^ 64) :
  Split b = Ok (k, c, rest) <-> kind_ok k c /\ b = kind_enc k c ++ rest.
Proof.
  split; [by apply Split_sound|]. intros [Hk ->]. by apply Split_complete.
Qed.

Lemma Split_canonical_witness :
  Split [0x82; 4; 0; 7] = Ok (KString, [4; 0], [7]) /\
  Split [0x81; 4] <> Ok (KString, [4], []).
Proof.
  split.
  - apply (Split_canonical [0x82; 4; 0; 7] KString [4; 0] [7]);
      [solve_bytes|vm_compute; reflexivity|done].
  - intros H. apply (Split_canonical [0x81; 4] KString [4] []) in H as [H _];
      [done|solve_bytes|vm_compute; reflexivity].
Defined.

(** [CountValues] returns the number of values exactly when its input is a
    sequence of canonical encodings, and its loop ends on every input. *)
Theorem CountValues_spec b n (Hok : bytes_ok b) (Hl : zlen b < 2 ^ 64) :
  CountValues b = Ok (Z.of_nat n) <-> encodings n b.
Proof.
  unfold CountValues. split.
  - intros H. apply CountValues_loop_sound in H as (m & Hm & Heq); [|done..].
    by replace n with m by lia.
  - intros H. by rewrite (CountValues_loop_complete n).
Qed.

Lemma CountValues_spec_witness :
  CountValues [7; 0x80; 0xC1; 5] = Ok 3 /\ ~ encodings 1 [0x81; 5].
Proof.
  split.
  - apply (CountValues_spec [7; 0x80; 0xC1; 5] 3);
      [solve_bytes|vm_compute; reflexivity|].
    apply (encodings_cons 2 KByte [7]); [done|].
    apply (encodings_cons 1 KString []); [done|].
    apply (encodings_cons 0 KList [5]); [done|constructor].
  - intros H. apply (CountValues_spec [0x81; 5] 1) in H;
      [done|solve_bytes|vm_compute; reflexivity].
Defined.
