(* ===== verification/RlpStream.v ===== *)
(** * Streaming decoder: the [Stream] of [src/rlp/decode.go]

    A [Stream] reads one value after the other from a reader and keeps a stack
    of the lists it is inside of.  The reader is a [bytes.Reader], the one the
    program uses: it is the list of the bytes not read yet.  Every operation
    takes the stream and returns its result with the stream after the call,
    since a failing call changes the stream as well. *)

From S2P Require Import Prelude RlpTypes RlpEncode RlpRaw.
Local Open Scope Z_scope.

(** ** State *)

Record listpos := Listpos { pos : Z; lsize : Z }.

(** [kind = None] is the code's [kind == -1].  The innermost list is the head
    of [stack].  [uintbuf] is scratch space. *)
Record Stream := MkStream {
  r : bytes; remaining : Z; limited : bool;
  kind : option Kind; ssize : Z; byteval : Z; kinderr : option rlp_error;
  stack : list listpos }.

Definition SM (A : Type) : Type := Stream -> result rlp_error A * Stream.

Instance SM_ret : MRet SM := fun A a s => (Ok a, s).
Instance SM_bind : MBind SM := fun A B f m s =>
  let (x, s') := m s in
  match x with Ok a => f a s' | Err e => (Err e, s') end.

Definition sfail {A} (e : rlp_error) : SM A := fun s => (Err e, s).

Definition set_kind (k : option Kind) (s : Stream) : Stream :=
  MkStream (r s) (remaining s) (limited s) k (ssize s) (byteval s) (kinderr s)
    (stack s).

(** [s.kind = -1]. *)
Definition rearm (s : Stream) : Stream := set_kind None s.

(** [Reset], on a [bytes.Reader]. *)
Definition Reset (rd : bytes) (inputLimit : Z) : Stream :=
  MkStream rd (if 0 <? inputLimit then inputLimit else zlen rd) true
    None 0 0 None [].

Definition NewStream (rd : bytes) (inputLimit : Z) : Stream := Reset rd inputLimit.

Definition NewListStream (rd : bytes) (len : Z) : Stream :=
  let s := Reset rd len in
  MkStream (r s) (remaining s) (limited s) (Some KList) len (byteval s)
    (kinderr s) (stack s).

(** ** Reading bytes *)

Definition set_stack (l : list listpos) (s : Stream) : Stream :=
  MkStream (r s) (remaining s) (limited s) (kind s) (ssize s) (byteval s)
    (kinderr s) l.

Definition set_remaining (n : Z) (s : Stream) : Stream :=
  MkStream (r s) n (limited s) (kind s) (ssize s) (byteval s) (kinderr s) (stack s).

Definition set_r (l : bytes) (s : Stream) : Stream :=
  MkStream l (remaining s) (limited s) (kind s) (ssize s) (byteval s) (kinderr s)
    (stack s).

Definition willRead_limit (n : Z) : SM unit := fun s =>
  if limited s then
    if remaining s <? n then (Err ErrValueTooLarge, s)
    else (Ok tt, set_remaining (remaining s - n) s)
  else (Ok tt, s).

Definition willRead (n : Z) : SM unit := fun s =>
  let s := rearm s in
  match stack s with
  | tos :: st =>
      if u64 (lsize tos - pos tos) <? n then (Err ErrElemTooLarge, s)
      else willRead_limit n
             (set_stack (Listpos (u64 (pos tos + n)) (lsize tos) :: st) s)
  | [] => willRead_limit n s
  end.

(** [readFull] on a buffer: the buffer after the call as well.  When the
    reader has too few bytes, those it has are stored and the next read
    reports the end of the input. *)
Definition readFull (buf : bytes) : Stream -> option rlp_error * bytes * Stream :=
  fun s =>
    match willRead (zlen buf) s with
    | (Err e, s') => (Some e, buf, s')
    | (Ok _, s') =>
        let n := length buf in
        let m := length (r s') in
        if (n <=? m)%nat then (None, take n (r s'), set_r (drop n (r s')) s')
        else (Some ErrUnexpectedEOF, r s' ++ drop m buf, set_r [] s')
    end.

(** [readFull] into a fresh buffer of [n] bytes. *)
Definition readFresh (n : Z) : SM bytes := fun s =>
  match readFull (replicate (Z.to_nat n) 0) s with
  | (None, b, s') => (Ok b, s')
  | (Some e, _, s') => (Err e, s')
  end.

Definition readByte : SM Z := fun s =>
  match willRead 1 s with
  | (Err e, s') => (Err e, s')
  | (Ok _, s') =>
      match r s' with
      | [] => (Err ErrUnexpectedEOF, s')
      | b :: rest => (Ok b, set_r rest s')
      end
  end.

(** [size] is at most 8: it is a length of a length. *)
Definition readUint (size : Z) : SM Z :=
  if size =? 0 then fun s => (Ok 0, rearm s)
  else if size =? 1 then readByte
  else
    b ← readFresh size;
    match b with
    | 0 :: _ => sfail ErrCanonSize
    | _ => mret (be_val b)
    end.

(** ** Kinds *)

(** The results of [readKind] together with its error. *)
Definition stream_readKind (s : Stream) : Kind * Z * option rlp_error * Stream :=
  match readByte s with
  | (Err e, s') =>
      let e' := match stack s' with
                | [] => match e with
                        | ErrUnexpectedEOF | ErrValueTooLarge => ErrEOF
                        | _ => e
                        end
                | _ => e
                end in
      (KByte, 0, Some e', s')
  | (Ok b, s') =>
      let setbv v (s : Stream) :=
        MkStream (r s) (remaining s) (limited s) (kind s) (ssize s) v (kinderr s)
          (stack s) in
      let s' := setbv 0 s' in
      let long k n :=
        match readUint n s' with
        | (Ok size, s'') =>
            (k, size, if size <? 56 then Some ErrCanonSize else None, s'')
        | (Err e, s'') => (k, 0, Some e, s'')
        end in
      if b <? 0x80 then (KByte, 0, None, setbv b s')
      else if b <? 0xB8 then (KString, b - 0x80, None, s')
      else if b <? 0xC0 then long KString (b - 0xB7)
      else if b <? 0xF8 then (KList, b - 0xC0, None, s')
      else long KList (b - 0xF7)
  end.

(** [Kind]; a pending error is returned again by later calls. *)
Definition stream_Kind : SM (Kind * Z) := fun s =>
  let answer s :=
    match kinderr s with
    | Some e => (Err e, s)
    | None => (Ok (default KByte (kind s), ssize s), s)
    end in
  match kind s with
  | Some _ => answer s
  | None =>
      let s := MkStream (r s) (remaining s) (limited s) None (ssize s) (byteval s)
                 None (stack s) in
      let at_end := match stack s with
                    | tos :: _ => pos tos =? lsize tos
                    | [] => false end in
      if at_end then (Err EOL, s)
      else
        let '(k, sz, err, s') := stream_readKind s in
        let err' :=
          match err with
          | Some e => Some e
          | None =>
              match stack s' with
              | [] => if (limited s' && (remaining s' <? sz))%bool
                      then Some ErrValueTooLarge else None
              | tos :: _ => if u64 (lsize tos - pos tos) <? sz
                            then Some ErrElemTooLarge else None
              end
          end in
        answer (MkStream (r s') (remaining s') (limited s') (Some k) sz (byteval s')
                  err' (stack s'))
  end.

(** ** Values *)

(** The single byte that [Kind] has read already. *)
Definition takeByte : SM bytes := fun s => (Ok [byteval s], rearm s).

Definition stream_Bytes : SM bytes :=
  '(k, size) ← stream_Kind;
  match k with
  | KByte => takeByte
  | KString =>
      b ← readFresh size;
      if ((size =? 1) && match b with x :: _ => x <? 128 | [] => false end)%bool
      then sfail ErrCanonSize else mret b
  | KList => sfail ErrExpectedString
  end.

Definition stream_Raw : SM bytes :=
  '(k, size) ← stream_Kind;
  match k with
  | KByte => takeByte
  | KString => b ← readFresh size; mret (puthead 0x80 0xB7 size ++ b)
  | KList => b ← readFresh size; mret (puthead 0xC0 0xF7 size ++ b)
  end.

Definition stream_uint (maxbits : Z) : SM Z := fun s =>
  match stream_Kind s with
  | (Err e, s) => (Err e, s)
  | (Ok (KByte, _), s) =>
      if byteval s =? 0 then (Err ErrCanonInt, s) else (Ok (byteval s), rearm s)
  | (Ok (KString, size), s) =>
      if maxbits / 8 <? size then (Err errUintOverflow, s)
      else
        match readUint (u8 size) s with
        | (Err ErrCanonSize, s') => (Err ErrCanonInt, s')
        | (Err e, s') => (Err e, s')
        | (Ok v, s') =>
            if ((0 <? size) && (v <? 128))%bool then (Err ErrCanonSize, s')
            else (Ok v, s')
        end
  | (Ok (KList, _), s) => (Err ErrExpectedString, s)
  end.

Definition stream_Uint : SM Z := stream_uint 64.

Definition stream_Bool : SM bool :=
  num ← stream_uint 8;
  if num =? 0 then mret false
  else if num =? 1 then mret true
  else sfail (ErrInvalidBool num).

Definition stream_List : SM Z := fun s =>
  match stream_Kind s with
  | (Err e, s) => (Err e, s)
  | (Ok (KList, size), s) =>
      (Ok size, MkStream (r s) (remaining s) (limited s) None 0 (byteval s)
                  (kinderr s) (Listpos 0 size :: stack s))
  | (Ok _, s) => (Err ErrExpectedList, s)
  end.

Definition stream_ListEnd : SM unit := fun s =>
  match stack s with
  | [] => (Err errNotInList, s)
  | tos :: st =>
      if pos tos =? lsize tos then
        let st' := match st with
                   | up :: st'' => Listpos (u64 (pos up + lsize tos)) (lsize up) :: st''
                   | [] => []
                   end in
        (Ok tt, MkStream (r s) (remaining s) (limited s) None 0 (byteval s)
                  (kinderr s) st')
      else (Err errNotAtEOL, s)
  end.

(** ** Reading a value that is there

    [adv n s s'] says that [s'] is [s] after [n] more bytes were consumed;
    [room n s] that [n] bytes can be consumed: the reader has them and neither
    the input limit nor the innermost list ends before. *)

Section Positions.

Definition bump (n : Z) (st : list listpos) : list listpos :=
  match st with
  | tos :: st' => Listpos (pos tos + n) (lsize tos) :: st'
  | [] => []
  end.

Record adv (n : Z) (s s' : Stream) : Prop := Adv {
  adv_r : r s' = drop (Z.to_nat n) (r s);
  adv_rem : remaining s' = if limited s then remaining s - n else remaining s;
  adv_lim : limited s' = limited s;
  adv_stack : stack s' = bump n (stack s) }.

Record room (n : Z) (s : Stream) : Prop := Room {
  room_n : 0 <= n < 2 ^ 64;
  room_r : n <= zlen (r s);
  room_lim : limited s = true -> n <= remaining s;
  room_top : match stack s with
             | tos :: _ => 0 <= pos tos /\ pos tos + n <= lsize tos < 2 ^ 64
             | [] => True
             end }.

Lemma adv_trans n m s s1 s2 :
  0 <= n -> 0 <= m -> adv n s s1 -> adv m s1 s2 -> adv (n + m) s s2.
Proof.
  intros Hn Hm [R1 M1 L1 S1] [R2 M2 L2 S2]. split.
  - rewrite R2, R1, drop_drop. f_equal. lia.
  - rewrite M2, L1, M1. destruct (limited s); lia.
  - congruence.
  - rewrite S2, S1. destruct (stack s) as [|tos st]; [done|].
    cbn. do 2 f_equal. lia.
Qed.

Lemma room_adv n m s s1 :
  0 <= n -> 0 <= m -> room (n + m) s -> adv n s s1 -> room m s1.
Proof.
  intros Hn Hm [Hb Hr Hl Ht] [R1 M1 L1 S1]. split; [lia| | |].
  - rewrite R1, length_drop. lia.
  - rewrite L1, M1. intros H. rewrite H. apply Hl in H. lia.
  - rewrite S1. destruct (stack s) as [|tos st]; [done|]. cbn. lia.
Qed.

Lemma room_le n m s : 0 <= n <= m -> room m s -> room n s.
Proof.
  intros Hn [Hb Hr Hl Ht]. split; [lia|lia| |].
  - intros H. apply Hl in H. lia.
  - destruct (stack s); [done|lia].
Qed.

Lemma willRead_room n s :
  room n s -> exists s', willRead n s = (Ok tt, s') /\ r s' = r s /\
    kind s' = None /\ remaining s' = (if limited s then remaining s - n else remaining s) /\
    limited s' = limited s /\ stack s' = bump n (stack s).
Proof.
  intros [Hb Hr Hl Ht]. unfold willRead. cbn [stack rearm set_kind].
  assert (Hlim : forall s0, limited s0 = limited s -> remaining s0 = remaining s ->
    exists s', willRead_limit n s0 = (Ok tt, s') /\ r s' = r s0 /\ kind s' = kind s0 /\
      remaining s' = (if limited s then remaining s - n else remaining s) /\
      limited s' = limited s /\ stack s' = stack s0).
  { intros s0 E1 E2. unfold willRead_limit. rewrite E1, E2.
    destruct (limited s) eqn:El; [|by eexists].
    destruct (Z.ltb_spec (remaining s) n); [specialize (Hl eq_refl); lia|].
    by eexists. }
  destruct (stack s) as [|tos st] eqn:Es.
  - destruct (Hlim (rearm s) eq_refl eq_refl) as (s' & -> & R & K & M & L & S).
    exists s'. by rewrite R, K, M, L, S.
  - rewrite u64_id by lia. destruct (Z.ltb_spec (lsize tos - pos tos) n); [lia|].
    rewrite u64_id by lia.
    destruct (Hlim (set_stack (Listpos (pos tos + n) (lsize tos) :: st) (rearm s))
      eq_refl eq_refl) as (s' & E & R & K & M & L & S).
    rewrite E. exists s'. by rewrite R, K, M, L, S.
Qed.

Lemma readFull_room buf s :
  room (zlen buf) s -> exists s',
    readFull buf s = (None, take (length buf) (r s), s') /\
    adv (zlen buf) s s' /\ kind s' = None.
Proof.
  intros H. destruct (willRead_room _ _ H) as (s' & E & R & K & M & L & S).
  unfold readFull. rewrite E, R. pose proof (room_r _ _ H).
  destruct (Nat.leb_spec (length buf) (length (r s))); [|lia].
  eexists. split; [done|]. split; [|done].
  split; cbn; try done. by rewrite Nat2Z.id.
Qed.

Lemma readFresh_room c rest s :
  r s = c ++ rest -> room (zlen c) s -> exists s',
    readFresh (zlen c) s = (Ok c, s') /\ adv (zlen c) s s' /\ kind s' = None.
Proof.
  intros Hr H. unfold readFresh.
  destruct (readFull_room (replicate (Z.to_nat (zlen c)) 0) s) as (s' & E & A & K).
  { by rewrite length_replicate, Nat2Z.id. }
  rewrite length_replicate, Nat2Z.id in *. rewrite E, Hr, take_app_length. by eexists.
Qed.

Lemma readByte_room b rest s :
  r s = b :: rest -> room 1 s -> exists s',
    readByte s = (Ok b, s') /\ adv 1 s s' /\ kind s' = None.
Proof.
  intros Hr H. destruct (willRead_room _ _ H) as (s' & E & R & K & M & L & S).
  unfold readByte. rewrite E, R, Hr. eexists. split; [done|]. split; [|done].
  split; cbn; try done. by rewrite Hr.
Qed.

Lemma readUint_room z rest s :
  0 < z -> r s = be_min z ++ rest -> room (Z.of_nat (nbytes z)) s -> exists s',
    readUint (Z.of_nat (nbytes z)) s = (Ok z, s') /\
    adv (Z.of_nat (nbytes z)) s s' /\ kind s' = None.
Proof.
  intros Hz Hr H. pose proof (nbytes_pos z Hz). unfold readUint.
  destruct (Z.eqb_spec (Z.of_nat (nbytes z)) 0); [lia|].
  pose proof (length_be_min z) as Hl. pose proof (be_val_be_min z ltac:(lia)) as Hv.
  destruct (Z.eqb_spec (Z.of_nat (nbytes z)) 1) as [E1|E1].
  - rewrite E1 in *. destruct (be_min z) as [|b [|? ?]] eqn:Eb; cbn in Hl; try lia.
    cbn in Hr, Hv. replace z with b by lia. by eapply readByte_room.
  - rewrite <- Hl in H. destruct (readFresh_room _ _ s Hr H) as (s' & E & A & K).
    rewrite Hl in *. exists s'. split; [|done]. unfold mbind, SM_bind. rewrite E.
    destruct (be_min z) as [|b l] eqn:Eb; [cbn in Hl; lia|].
    pose proof (be_min_hd z b l ltac:(lia) Eb) as Hb.
    destruct b; [done|by rewrite <- Hv..].
Qed.

(** [adv] and [room] do not depend on what is known of the value ahead. *)
Lemma adv_ahead n s s' s'' :
  adv n s s' -> r s'' = r s' -> remaining s'' = remaining s' ->
  limited s'' = limited s' -> stack s'' = stack s' -> adv n s s''.
Proof. intros [R M L S] ????. split; congruence. Qed.

Lemma room_not_at_end n s :
  0 < n -> room n s ->
  match stack s with tos :: _ => pos tos =? lsize tos | [] => false end = false.
Proof.
  intros Hn [Hb Hr Hl Ht]. destruct (stack s) as [|tos st]; [done|].
  apply Z.eqb_neq. lia.
Qed.

(** A header that announces no more than there is room for is no error. *)
Lemma room_fits n s :
  room n s ->
  match stack s with
  | [] => if (limited s && (remaining s <? n))%bool then Some ErrValueTooLarge else None
  | tos :: _ => if u64 (lsize tos - pos tos) <? n then Some ErrElemTooLarge else None
  end = None.
Proof.
  intros [Hb Hr Hl Ht]. destruct (stack s) as [|tos st].
  - destruct (limited s); cbn; [|done]. destruct (Z.ltb_spec (remaining s) n); [|done].
    specialize (Hl eq_refl). lia.
  - rewrite u64_id by lia. destruct (Z.ltb_spec (lsize tos - pos tos) n); [lia|done].
Qed.

Lemma stream_readKind_byte b rest s :
  b < 128 -> r s = b :: rest -> room 1 s -> exists s',
    stream_readKind s = (KByte, 0, None, s') /\ adv 1 s s' /\ byteval s' = b.
Proof.
  intros Hb Hr H. destruct (readByte_room b rest s Hr H) as (s' & E & A & K).
  unfold stream_readKind. rewrite E. destruct (Z.ltb_spec b 128); [|lia].
  eexists. split; [done|]. split; [|done]. by eapply adv_ahead.
Qed.

Lemma headsize_pos n : 0 <= n < 2 ^ 64 -> 1 <= headsize n <= 9.
Proof.
  intros Hn. unfold headsize. destruct (Z.ltb_spec n 56); [lia|].
  rewrite intsize_nbytes by done. destruct (u64_cases n Hn) as [|[_ ?]]; lia.
Qed.

(** Tags of string and list headers. *)
Definition tag_of (k : Kind) : Z := match k with KList => 0xC0 | _ => 0x80 end.

Lemma stream_readKind_header k n rest s :
  k <> KByte -> r s = rlp_header (tag_of k) (tag_of k + 55) n ++ rest ->
  0 <= n < 2 ^ 64 -> room (headsize n) s -> exists s',
    stream_readKind s = (k, n, None, s') /\ adv (headsize n) s s'.
Proof.
  intros Hk Hr Hn H. unfold rlp_header in Hr. unfold headsize in H |- *.
  destruct (Z.ltb_spec n 56) as [Hs|Hs].
  - destruct (readByte_room _ rest s Hr H) as (s' & E & A & K).
    unfold stream_readKind. rewrite E. destruct k; [done| |]; cbn [tag_of];
      repeat (case_match; zbool; try lia).
    all: eexists; split; [do 3 f_equal; lia|]; by eapply adv_ahead.
  - destruct (u64_cases n Hn) as [|[_ Hb]]; [lia|].
    rewrite intsize_nbytes, Nat.max_r in * by lia.
    destruct (readByte_room _ _ s Hr) as (s1 & E & A & K).
    { eapply room_le; [|done]. lia. }
    set (s1' := MkStream (r s1) (remaining s1) (limited s1) (kind s1) (ssize s1) 0
                  (kinderr s1) (stack s1)).
    assert (A' : adv 1 s s1') by (by eapply adv_ahead).
    destruct (readUint_room n rest s1') as (s2 & E2 & A2 & _); [lia| | |].
    + rewrite (adv_r _ _ _ A'), Hr. done.
    + eapply room_adv; [..|exact A']; [lia|lia|done].
    + exists s2. split; [|apply (adv_trans 1 _ s s1'); auto with lia].
      unfold stream_readKind. rewrite E. fold s1'.
      replace (tag_of k + 55 + Z.of_nat (nbytes n) - 0xF7)
        with (tag_of k - 0xC0 + Z.of_nat (nbytes n)) by lia.
      replace (tag_of k + 55 + Z.of_nat (nbytes n) - 0xB7)
        with (tag_of k - 0x80 + Z.of_nat (nbytes n)) by lia.
      destruct k; [done| |]; cbn [tag_of]; rewrite Z.add_0_l, E2;
        repeat (case_match; zbool; try lia); done.
Qed.

Lemma stream_Kind_byte b rest s :
  kind s = None -> b < 128 -> r s = b :: rest -> room 1 s -> exists s',
    stream_Kind s = (Ok (KByte, 0), s') /\ adv 1 s s' /\ byteval s' = b /\
    kind s' = Some KByte /\ kinderr s' = None /\ ssize s' = 0.
Proof.
  intros Hk Hb Hr H. unfold stream_Kind. rewrite Hk. cbn [stack].
  rewrite (room_not_at_end 1 s) by (done || lia).
  destruct (stream_readKind_byte b rest
    (MkStream (r s) (remaining s) (limited s) None (ssize s) (byteval s) None (stack s)))
    as (s' & E & A & V); [done|done| |].
  { destruct H; by split. }
  rewrite E. rewrite (room_fits 0 s').
  - eexists. split; [done|]. split; [|done]. destruct A; by split.
  - eapply (room_adv 1 0); [lia|lia|exact H|]. destruct A; by split.
Qed.

Lemma stream_Kind_header k (c : bytes) rest s :
  kind s = None -> k <> KByte ->
  r s = rlp_header (tag_of k) (tag_of k + 55) (zlen c) ++ rest ->
  room (headsize (zlen c) + zlen c) s -> zlen c < 2 ^ 64 -> exists s',
    stream_Kind s = (Ok (k, zlen c), s') /\ adv (headsize (zlen c)) s s' /\
    kind s' = Some k /\ kinderr s' = None /\ ssize s' = zlen c.
Proof.
  intros Hk Hkb Hr H Hc. pose proof (headsize_pos (zlen c) ltac:(lia)).
  unfold stream_Kind. rewrite Hk. cbn [stack].
  assert (H' : room (headsize (zlen c)) s) by (eapply room_le; [|exact H]; lia).
  rewrite (room_not_at_end (headsize (zlen c)) s ltac:(lia) H').
  destruct (stream_readKind_header k (zlen c) rest
    (MkStream (r s) (remaining s) (limited s) None (ssize s) (byteval s) None (stack s)))
    as (s' & E & A); [done|done|lia| |].
  { destruct H'; by split. }
  rewrite E. rewrite (room_fits (zlen c) s').
  - eexists. split; [done|]. split; [|done]. destruct A; by split.
  - eapply (room_adv (headsize (zlen c))); [lia|lia|exact H|]. destruct A; by split.
Qed.

(** *** Values *)

(** [reads m e a]: on a stream positioned at [e], [m] returns [a] and leaves
    the stream behind [e]. *)
Definition reads {A} (m : SM A) (e : bytes) (a : A) : Prop :=
  forall rest s, kind s = None -> r s = e ++ rest -> room (zlen e) s ->
  exists s', m s = (Ok a, s') /\ adv (zlen e) s s' /\ kind s' = None.

Lemma adv_rearm n s s' : adv n s s' -> adv n s (rearm s').
Proof. intros []; by split. Qed.

(** A header followed by its content. *)
Lemma room_header k c s :
  room (zlen (rlp_header (tag_of k) (tag_of k + 55) (zlen c) ++ c)) s ->
  zlen c < 2 ^ 64 /\ room (headsize (zlen c) + zlen c) s /\
  zlen (rlp_header (tag_of k) (tag_of k + 55) (zlen c) ++ c) = headsize (zlen c) + zlen c.
Proof.
  intros H. pose proof (room_n _ _ H) as Hn. rewrite zlen_app in *.
  assert (Hc : zlen c < 2 ^ 64) by lia.
  rewrite length_rlp_header in * by lia. done.
Qed.

Lemma stream_Kind_content k (c : bytes) rest s :
  kind s = None -> k <> KByte ->
  r s = (rlp_header (tag_of k) (tag_of k + 55) (zlen c) ++ c) ++ rest ->
  room (zlen (rlp_header (tag_of k) (tag_of k + 55) (zlen c) ++ c)) s ->
  zlen c < 2 ^ 64 /\ exists s',
    stream_Kind s = (Ok (k, zlen c), s') /\ adv (headsize (zlen c)) s s' /\
    kind s' = Some k /\ kinderr s' = None /\ ssize s' = zlen c /\
    r s' = c ++ rest /\ room (zlen c) s' /\
    forall s'', adv (zlen c) s' s'' ->
      adv (zlen (rlp_header (tag_of k) (tag_of k + 55) (zlen c) ++ c)) s s''.
Proof.
  intros Hk Hkb Hr H. destruct (room_header _ _ _ H) as (Hc & H' & Hl).
  split; [done|]. rewrite <- (app_assoc _ c) in Hr.
  destruct (stream_Kind_header k c _ s Hk Hkb Hr H' Hc) as (s' & E & A & K1 & K2 & K3).
  pose proof (headsize_pos (zlen c) ltac:(lia)).
  exists s'. split_and!; try done.
  - rewrite (adv_r _ _ _ A), Hr, <- (length_rlp_header (tag_of k) (tag_of k + 55)) by lia.
    by rewrite Nat2Z.id, drop_app_length.
  - eapply room_adv; [..|exact H'|exact A]; lia.
  - intros s'' A'. rewrite Hl. eapply adv_trans; [lia|lia|done|done].
Qed.

Lemma stream_Bytes_reads c : reads stream_Bytes (rlp_string c) c.
Proof.
  intros rest s Hk Hr H. unfold stream_Bytes, mbind, SM_bind.
  destruct (single_byte c) eqn:Es.
  - rewrite rlp_string_single in * by done.
    destruct c as [|x [|]]; [done| |done]. cbn in Es, Hr. zbool.
    destruct (stream_Kind_byte x rest s Hk Es Hr H) as (s' & E & A & V & _).
    rewrite E. cbn. unfold takeByte. rewrite V.
    eexists; split; [done|]. split; [by apply adv_rearm|done].
  - rewrite rlp_string_not_single in * by done.
    destruct (stream_Kind_content KString c rest s Hk ltac:(done) Hr H)
      as (Hc & s' & E & A & K1 & K2 & K3 & R & Hroom & Hadv).
    rewrite E. destruct (readFresh_room c rest s' R Hroom) as (s'' & E' & A' & K').
    rewrite E'. exists s''. split; [|by auto].
    destruct (Z.eqb_spec (zlen c) 1); [|done].
    destruct c as [|x [|]]; cbn in *; try lia. by rewrite Es.
Qed.

Lemma stream_Raw_reads k c : kind_ok k c -> reads stream_Raw (kind_enc k c) (kind_enc k c).
Proof.
  intros Hok rest s Hk Hr H. unfold stream_Raw, mbind, SM_bind.
  destruct k; cbn [kind_ok kind_enc] in *.
  - destruct c as [|x [|]]; [done| |done]. cbn in Hok, Hr. zbool.
    destruct (stream_Kind_byte x rest s Hk Hok Hr H) as (s' & E & A & V & _).
    rewrite E. cbn. unfold takeByte. rewrite V.
    eexists; split; [done|]. split; [by apply adv_rearm|done].
  - rewrite rlp_string_not_single in * by done.
    destruct (stream_Kind_content KString c rest s Hk ltac:(done) Hr H)
      as (Hc & s' & E & A & K1 & K2 & K3 & R & Hroom & Hadv).
    rewrite E. destruct (readFresh_room c rest s' R Hroom) as (s'' & E' & A' & K').
    rewrite E', puthead_rlp_header by lia. exists s''. by auto.
  - unfold rlp_list in *.
    destruct (stream_Kind_content KList c rest s Hk ltac:(done) Hr H)
      as (Hc & s' & E & A & K1 & K2 & K3 & R & Hroom & Hadv).
    rewrite E. destruct (readFresh_room c rest s' R Hroom) as (s'' & E' & A' & K').
    rewrite E', puthead_rlp_header by lia. exists s''. by auto.
Qed.

Lemma stream_uint_reads bits z :
  0 <= z < 256 ^ (bits / 8) -> 0 <= bits <= 64 ->
  reads (stream_uint bits) (rlp_string (be_min z)) z.
Proof.
  intros Hz Hbits rest s Hk Hr H. unfold stream_uint.
  pose proof (nbytes_le z (Z.to_nat (bits / 8))) as Hnb.
  assert (0 <= bits / 8 <= 8) by (Z.div_mod_to_equations; lia).
  rewrite Z2Nat.id in Hnb by lia. specialize (Hnb Hz).
  pose proof (be_val_be_min z ltac:(lia)) as Hv. pose proof (length_be_min z) as Hlen.
  destruct (single_byte (be_min z)) eqn:Es.
  - rewrite rlp_string_single in * by done.
    destruct (be_min z) as [|x [|]] eqn:Eb; [done| |done]. cbn in Es, Hr, Hv. zbool.
    destruct (stream_Kind_byte x rest s Hk Es Hr H) as (s' & E & A & V & _).
    rewrite E, V. pose proof (be_min_hd z x [] ltac:(lia) Eb).
    destruct (Z.eqb_spec x 0); [done|].
    eexists; split; [do 2 f_equal; lia|]. split; [by apply adv_rearm|done].
  - rewrite rlp_string_not_single in * by done.
    destruct (stream_Kind_content KString _ rest s Hk ltac:(done) Hr H)
      as (Hc & s' & E & A & K1 & K2 & K3 & R & Hroom & Hadv).
    rewrite E. destruct (Z.ltb_spec (bits / 8) (zlen (be_min z))); [lia|].
    rewrite Hlen, u8_id in * by (unfold byte_ok; lia).
    destruct (decide (z = 0)) as [->|Hnz].
    { cbn. eexists; split; [done|]. split; [|done].
      apply Hadv. apply adv_rearm. split; cbn; try done.
      - by destruct (limited s'); rewrite ?Z.sub_0_r.
      - destruct (stack s') as [|[] ]; cbn; by rewrite ?Z.add_0_r. }
    destruct (readUint_room z rest s' ltac:(lia) R Hroom) as (s'' & E' & A' & K').
    rewrite E'. exists s''. split; [|by auto].
    destruct (Z.ltb_spec z 128); [|by destruct (0 <? _)].
    exfalso. rewrite nbytes_small in Hlen by lia.
    destruct (be_min z) as [|x [|]]; cbn in *; zbool; lia.
Qed.

Lemma stream_Bool_reads (b : bool) : reads stream_Bool (rlp_string (if b then [1] else [])) b.
Proof.
  intros rest s Hk Hr H. unfold stream_Bool, mbind, SM_bind.
  destruct (stream_uint_reads 8 (if b then 1 else 0)) with (rest := rest) (s := s)
    as (s' & E & A & K); [by destruct b|lia|done|by destruct b..|].
  rewrite E. exists s'. destruct b; by auto.
Qed.

(** [List] enters the list, and once its payload is consumed [ListEnd] leaves
    the stream behind it. *)
Lemma stream_List_reads (p : bytes) rest s :
  kind s = None -> r s = rlp_list p ++ rest -> room (zlen (rlp_list p)) s ->
  exists s1, stream_List s = (Ok (zlen p), s1) /\ kind s1 = None /\
    r s1 = p ++ rest /\ room (zlen p) s1 /\
    (exists st, stack s1 = Listpos 0 (zlen p) :: st) /\
    forall s2, adv (zlen p) s1 s2 -> exists s3,
      stream_ListEnd s2 = (Ok tt, s3) /\ adv (zlen (rlp_list p)) s s3 /\ kind s3 = None.
Proof.
  intros Hk Hr H. unfold rlp_list in *. unfold stream_List.
  destruct (stream_Kind_content KList p rest s Hk ltac:(done) Hr H)
    as (Hc & s' & E & A & K1 & K2 & K3 & R & Hroom & Hadv).
  rewrite E. eexists. split; [done|]. split; [done|]. split; [done|].
  split; [destruct Hroom; split; cbn; try done; lia|]. split; [by eexists|].
  intros s2 [R2 M2 L2 S2]. cbn in R2, M2, L2, S2. unfold stream_ListEnd. rewrite S2.
  cbn [pos lsize]. destruct (Z.eqb_spec (0 + zlen p) (zlen p)); [|lia].
  eexists. split; [done|]. split; [|done]. apply Hadv. split; cbn; [done..|].
  pose proof (room_top _ _ Hroom) as Ht.
  destruct (stack s') as [|up st]; [done|]. rewrite u64_id by lia. done.
Qed.

End Positions.
