(* ===== verification/RlpDecode.v ===== *)
(** * Decoder of package [rlp]: the value decoders of [src/rlp/decode.go]

    A decoder takes the value it decodes into and returns the error, that value
    after the call and the stream after the call: a failing decoder may have
    stored part of its input already.  Slices have no spare capacity with stale
    elements, the case of every slice the program decodes into. *)

From stdpp Require Import pretty.
From S2P Require Import Prelude RlpTypes RlpEncode RlpRaw RlpStream.
Local Open Scope Z_scope.

Definition decoder : Type := gval -> Stream -> option rlp_error * gval * Stream.

(** ** Errors *)

Definition wrapStreamError (err : rlp_error) (typ : gtype) : rlp_error :=
  match err with
  | ErrCanonInt => DecodeError "non-canonical integer (leading zero bytes)" typ []
  | ErrCanonSize => DecodeError "non-canonical size information" typ []
  | ErrExpectedList => DecodeError "expected input list" typ []
  | ErrExpectedString => DecodeError "expected input string or byte" typ []
  | errUintOverflow => DecodeError "input string too long" typ []
  | errNotAtEOL => DecodeError "input list has too many elements" typ []
  | _ => err
  end.

Definition addErrorContext (err : rlp_error) (c : string) : rlp_error :=
  match err with
  | DecodeError msg typ ctx => DecodeError msg typ (ctx ++ [c])
  | _ => err
  end.

(** [fmt.Sprint("[", i, "]")]. *)
Definition index_ctx (i : nat) : string := ("[" +:+ pretty i +:+ "]")%string.

(** ** Basic types *)

Definition decodeRawValue : decoder := fun old s =>
  match stream_Raw s with
  | (Err e, s') => (Some e, old, s')
  | (Ok b, s') => (None, VRaw b, s')
  end.

Definition decodeUint (bits : Z) : decoder := fun old s =>
  match stream_uint bits s with
  | (Err e, s') => (Some (wrapStreamError e (TUint bits)), old, s')
  | (Ok num, s') => (None, VUint num, s')
  end.

Definition decodeBool : decoder := fun old s =>
  match stream_Bool s with
  | (Err e, s') => (Some (wrapStreamError e TBool), old, s')
  | (Ok b, s') => (None, VBool b, s')
  end.

Definition decodeString : decoder := fun old s =>
  match stream_Bytes s with
  | (Err e, s') => (Some (wrapStreamError e TString), old, s')
  | (Ok b, s') => (None, VString b, s')
  end.

(** A nil pointer is replaced by a pointer to a new integer before the bytes
    are looked at. *)
Definition decodeBigInt : decoder := fun old s =>
  match stream_Bytes s with
  | (Err e, s') => (Some (wrapStreamError e TBigPtr), old, s')
  | (Ok b, s') =>
      let i := match old with VBigPtr (Some z) => z | _ => 0 end in
      match b with
      | 0 :: _ => (Some (wrapStreamError ErrCanonInt TBigPtr), VBigPtr (Some i), s')
      | _ => (None, VBigPtr (Some (be_val b)), s')
      end
  end.

(** [decodeBigIntNoPtr] passes the address of the value. *)
Definition decodeBigIntNoPtr : decoder := fun old s =>
  let z := match old with VBig z => z | _ => 0 end in
  let '(err, v, s') := decodeBigInt (VBigPtr (Some z)) s in
  (err, match v with VBigPtr (Some z') => VBig z' | _ => old end, s').

Definition decodeByteSlice : decoder := fun old s =>
  match stream_Bytes s with
  | (Err e, s') => (Some (wrapStreamError e TBytes), old, s')
  | (Ok b, s') => (None, VBytes b, s')
  end.

Definition decodeByteArray (n : nat) : decoder := fun old s =>
  let b0 := match old with VByteArray b => b | _ => replicate n 0 end in
  let vlen := Z.of_nat n in
  match stream_Kind s with
  | (Err e, s') => (Some e, old, s')
  | (Ok (KByte, _), s') =>
      if vlen =? 0 then
        (Some (DecodeError "input string too long" (TByteArray n) []), old, s')
      else if 1 <? vlen then
        (Some (DecodeError "input string too short" (TByteArray n) []), old, s')
      else
        (* the error of [s.Uint()] is dropped: its result is 0 then *)
        let (bv, s'') := stream_Uint s' in
        let v := match bv with Ok v => v | Err _ => 0 end in
        (None, VByteArray (<[0%nat := u8 v]> b0), s'')
  | (Ok (KString, size), s') =>
      if vlen <? size then
        (Some (DecodeError "input string too long" (TByteArray n) []), old, s')
      else if size <? vlen then
        (Some (DecodeError "input string too short" (TByteArray n) []), old, s')
      else
        let '(err, b, s'') := readFull b0 s' in
        match err with
        | Some e => (Some e, VByteArray b, s'')
        | None =>
            if ((size =? 1) && match b with x :: _ => x <? 128 | [] => false end)%bool
            then (Some (wrapStreamError ErrCanonSize (TByteArray n)), VByteArray b, s'')
            else (None, VByteArray b, s'')
        end
  | (Ok (KList, _), s') =>
      (Some (wrapStreamError ErrExpectedString (TByteArray n)), old, s')
  end.

(** ** Slices and arrays *)

Definition list_of (v : gval) : list gval :=
  match v with VList l | VStruct l => l | _ => [] end.

(** The loop of [decodeSliceElems] from index [i] on: the slice grows by a zero
    element when there is no element [i] yet. *)
Fixpoint decodeSliceElems_loop (fuel : nat) (t : gtype) (ed : decoder) (i : nat)
    (l : list gval) (s : Stream) : option rlp_error * list gval * Stream :=
  match fuel with
  | O => (Some OutOfFuel, l, s)
  | S fuel =>
      let l := if (length l <=? i)%nat then l ++ [zero_of t] else l in
      match ed (nth i l (zero_of t)) s with
      | (Some EOL, _, s') => (None, take i l, s')
      | (Some e, v, s') => (Some (addErrorContext e (index_ctx i)), <[i := v]> l, s')
      | (None, v, s') => decodeSliceElems_loop fuel t ed (S i) (<[i := v]> l) s'
      end
  end.

Definition loop_fuel (s : Stream) : nat := S (S (length (r s))).

Definition decodeSliceElems (t : gtype) (ed : decoder) : decoder := fun old s =>
  let '(err, l, s') := decodeSliceElems_loop (loop_fuel s) t ed 0 (list_of old) s in
  (err, VList l, s').

Definition list_end (wrap : rlp_error -> rlp_error) (v : gval) (s : Stream)
    : option rlp_error * gval * Stream :=
  match stream_ListEnd s with
  | (Err e, s') => (Some (wrap e), v, s')
  | (Ok _, s') => (None, v, s')
  end.

Definition decodeListSlice (t : gtype) (ed : decoder) : decoder := fun old s =>
  match stream_List s with
  | (Err e, s') => (Some (wrapStreamError e (TSlice t)), old, s')
  | (Ok size, s') =>
      if size =? 0 then list_end id (VList []) s'
      else
        match decodeSliceElems t ed old s' with
        | (Some e, v, s'') => (Some e, v, s'')
        | (None, v, s'') => list_end id v s''
        end
  end.

(** The loop of [decodeListArray]: [l] is the part of the array from index [i]
    on.  The result tells whether the loop ended early. *)
Fixpoint decodeListArray_loop (ed : decoder) (i : nat) (l : list gval) (s : Stream)
    : option rlp_error * bool * list gval * Stream :=
  match l with
  | [] => (None, false, [], s)
  | v :: l' =>
      match ed v s with
      | (Some EOL, v', s') => (None, true, v' :: l', s')
      | (Some e, v', s') =>
          (Some (addErrorContext e (index_ctx i)), false, v' :: l', s')
      | (None, v', s') =>
          let '(err, short, l'', s'') := decodeListArray_loop ed (S i) l' s' in
          (err, short, v' :: l'', s'')
      end
  end.

Definition decodeListArray (n : nat) (t : gtype) (ed : decoder) : decoder := fun old s =>
  match stream_List s with
  | (Err e, s') => (Some (wrapStreamError e (TArray n t)), old, s')
  | (Ok _, s') =>
      match decodeListArray_loop ed 0 (list_of old) s' with
      | (Some e, _, l, s'') => (Some e, VList l, s'')
      | (None, true, l, s'') =>
          (Some (DecodeError "input list has too few elements" (TArray n t) []),
           VList l, s'')
      | (None, false, l, s'') =>
          list_end (fun e => wrapStreamError e (TArray n t)) (VList l) s''
      end
  end.

(** ** Structs *)

Definition field_name (fs : list (fmeta * gtype)) (i : nat) : string :=
  match fs !! i with Some (m, _) => f_name m | None => ""%string end.

Fixpoint decodeFields (fs : list (fmeta * gtype)) (fields : list (nat * decoder))
    (vs : list gval) (s : Stream) : option rlp_error * list gval * Stream :=
  match fields with
  | [] => (None, vs, s)
  | (i, dec) :: fields' =>
      match vs !! i with
      | None => (Some ErrReflect, vs, s)
      | Some v =>
          match dec v s with
          | (Some EOL, v', s') =>
              (Some (DecodeError "too few elements" (TStruct fs) []), <[i := v']> vs, s')
          | (Some e, v', s') =>
              (Some (addErrorContext e ("." +:+ field_name fs i)), <[i := v']> vs, s')
          | (None, v', s') => decodeFields fs fields' (<[i := v']> vs) s'
          end
      end
  end.

Definition structDecoder (fs : list (fmeta * gtype)) (fields : list (nat * decoder))
    : decoder := fun old s =>
  match stream_List s with
  | (Err e, s') => (Some (wrapStreamError e (TStruct fs)), old, s')
  | (Ok _, s') =>
      match decodeFields fs fields (list_of old) s' with
      | (Some e, vs, s'') => (Some e, VStruct vs, s'')
      | (None, vs, s'') =>
          list_end (fun e => wrapStreamError e (TStruct fs)) (VStruct vs) s''
      end
  end.

(** ** Pointers *)

(** A nil pointer is only replaced when decoding succeeds; the target of a
    non-nil pointer is decoded into in any case. *)
Definition ptrDecoder (t : gtype) (ed : decoder) : decoder := fun old s =>
  match old with
  | VPtr (Some v) => let '(err, v', s') := ed v s in (err, VPtr (Some v'), s')
  | _ =>
      match ed (zero_of t) s with
      | (None, v', s') => (None, VPtr (Some v'), s')
      | (Some e, _, s') => (Some e, VPtr None, s')
      end
  end.

Definition optionalPtrDecoder (t : gtype) (ed : decoder) : decoder := fun old s =>
  match stream_Kind s with
  | (Err e, s') => (Some e, VPtr None, rearm s')
  | (Ok (k, size), s') =>
      if ((size =? 0) && match k with KByte => false | _ => true end)%bool
      then (None, VPtr None, rearm s')
      else ptrDecoder t ed old s'
  end.

(** ** Interfaces *)

(** [fuel] bounds the number of lists nested in the input. *)
Fixpoint decodeInterface (fuel : nat) (nmethods : nat) : decoder := fun old s =>
  match nmethods with
  | S _ => (Some (ErrNotSerializable (TIface nmethods)), old, s)
  | O =>
      match stream_Kind s with
      | (Err e, s') => (Some e, old, s')
      | (Ok (KList, _), s') =>
          match fuel with
          | O => (Some OutOfFuel, old, s')
          | S fuel =>
              match decodeListSlice (TIface 0) (decodeInterface fuel 0)
                      (VList []) s' with
              | (Some e, _, s'') => (Some e, old, s'')
              | (None, l, s'') => (None, VIface (Some (TSlice (TIface 0), l)), s'')
              end
          end
      | (Ok _, s') =>
          match stream_Bytes s' with
          | (Err e, s'') => (Some e, old, s'')
          | (Ok b, s'') => (None, VIface (Some (TBytes, VBytes b)), s'')
          end
      end
  end.

(** ** Generation *)

(** [makeDecoder], with the bound [fi] for [decodeInterface]. *)
Fixpoint makeDecoder (fi : nat) (t : gtype) (ts : tags) : result rlp_error decoder :=
  match t with
  | TRaw => Ok decodeRawValue
  | TBigPtr => Ok decodeBigInt
  | TBig => Ok decodeBigIntNoPtr
  | TUint bits => Ok (decodeUint bits)
  | TBool => Ok decodeBool
  | TString => Ok decodeString
  | TByteArray n => Ok (decodeByteArray n)
  | TBytes => Ok decodeByteSlice
  | TArray n t' => ed ← makeDecoder fi t' no_tags; Ok (decodeListArray n t' ed)
  | TSlice t' =>
      ed ← makeDecoder fi t' no_tags;
      Ok (if tail ts then decodeSliceElems t' ed else decodeListSlice t' ed)
  | TStruct fs => fields ← structFields (makeDecoder fi) fs; Ok (structDecoder fs fields)
  | TPtr t' =>
      ed ← makeDecoder fi t' no_tags;
      Ok (if nilOK ts then optionalPtrDecoder t' ed else ptrDecoder t' ed)
  | TIface n => Ok (decodeInterface fi n)
  | TOther _ => Err (ErrNotSerializable t)
  end.

(** ** Entry points *)

(** What is passed for [val interface{}]. *)
Inductive target :=
| NilTarget                            (* nil *)
| NoPointer (t : gtype)                (* a value that is not a pointer *)
| NilPointer (t : gtype)
| PointerTo (t : gtype) (v : gval).

Section Entry.

(** The text [fmt] prints for a type. *)
Context (type_name : gtype -> string).

(** [Stream.Decode]: the error, the value pointed to and the stream. *)
Definition stream_Decode (tg : target) (s : Stream)
    : option rlp_error * target * Stream :=
  match tg with
  | NilTarget | NilPointer _ => (Some errDecodeIntoNil, tg, s)
  | NoPointer _ => (Some errNoPointer, tg, s)
  | PointerTo t v =>
      match makeDecoder (loop_fuel s) t no_tags with
      | Err e => (Some e, tg, s)
      | Ok dec =>
          let '(err, v', s') := dec v s in
          let err' := match err with
                      | Some (DecodeError msg typ (_ :: _) as e) =>
                          Some (addErrorContext e ("(" +:+ type_name t +:+ ")"))
                      | _ => err
                      end in
          (err', PointerTo t v', s')
      end
  end.

Definition Decode (rd : bytes) (tg : target) : option rlp_error * target * Stream :=
  stream_Decode tg (NewStream rd 0).

Definition DecodeBytes (b : bytes) (tg : target) : option rlp_error * target :=
  match stream_Decode tg (NewStream b (zlen b)) with
  | (Some e, tg', _) => (Some e, tg')
  | (None, tg', s') =>
      (match r s' with [] => None | _ => Some ErrMoreThanOneValue end, tg')
  end.

End Entry.

(** ** Round trip

    [rt_ok t ts v]: values that decode to themselves.  What is left out is
    encoded to something that reads back differently: nil pointers and nil
    interfaces (they are encoded as an empty value), a [RawValue] that is not
    one encoded value, fields that are not encoded and not zero, and the array
    [[1]byte{0}] (see below). *)

Definition empty_value (e : bytes) : Prop := e = [0x80] \/ e = [0xC0].

(** Interfaces with methods cannot be decoded into. *)
Fixpoint decodable (t : gtype) : bool :=
  match t with
  | TIface (S _) => false
  | TPtr t' => decodable t'
  | _ => true
  end.

Inductive rt_ok : gtype -> tags -> gval -> Prop :=
| R_raw ts k c : kind_ok k c -> rt_ok TRaw ts (VRaw (kind_enc k c))
| R_bigptr ts z : rt_ok TBigPtr ts (VBigPtr (Some z))
| R_big ts z : rt_ok TBig ts (VBig z)
| R_uint bits ts z : 0 <= bits <= 64 -> z < 256 ^ (bits / 8) ->
    rt_ok (TUint bits) ts (VUint z)
| R_bool ts b : rt_ok TBool ts (VBool b)
| R_string ts b : rt_ok TString ts (VString b)
| R_bytes ts b : rt_ok TBytes ts (VBytes b)
| R_bytearray n ts b : length b = n -> bytes_ok b -> b <> [0] ->
    rt_ok (TByteArray n) ts (VByteArray b)
| R_slice t ts vs : rt_oks t vs -> rt_ok (TSlice t) ts (VList vs)
| R_array n t ts vs : tail ts = false -> length vs = n -> rt_oks t vs ->
    rt_ok (TArray n t) ts (VList vs)
| R_struct fs ts vs : rt_fields fs vs -> rt_ok (TStruct fs) ts (VStruct vs)
| R_ptr t ts v : rt_ok t no_tags v ->
    (nilOK ts = true -> forall e, rlp_enc t no_tags v e -> ~ empty_value e) ->
    rt_ok (TPtr t) ts (VPtr (Some v))
| R_ptr_nil t ts : nilOK ts = true ->
    (forall e, rlp_enc (TPtr t) ts (VPtr None) e -> empty_value e) ->
    rt_ok (TPtr t) ts (VPtr None)
| R_iface_bytes ts b : rt_ok (TIface 0) ts (VIface (Some (TBytes, VBytes b)))
| R_iface_list ts vs : rt_oks (TIface 0) vs ->
    rt_ok (TIface 0) ts (VIface (Some (TSlice (TIface 0), VList vs)))
with rt_oks : gtype -> list gval -> Prop :=
| Rs_nil t : decodable t = true -> rt_oks t []
| Rs_cons t v vs : rt_ok t no_tags v -> rt_oks t vs -> rt_oks t (v :: vs)
with rt_fields : list (fmeta * gtype) -> list gval -> Prop :=
| Rf_nil : rt_fields [] []
| Rf_hidden m t fs v vs : f_exported m = false -> v = zero_of t ->
    rt_fields fs vs -> rt_fields ((m, t) :: fs) (v :: vs)
| Rf_ignored m t fs v vs ts : f_exported m = true ->
    parseStructTag m t (match fs with [] => true | _ => false end) = Ok ts ->
    ignored ts = true -> v = zero_of t ->
    rt_fields fs vs -> rt_fields ((m, t) :: fs) (v :: vs)
| Rf_field m t fs v vs ts : f_exported m = true ->
    parseStructTag m t (match fs with [] => true | _ => false end) = Ok ts ->
    ignored ts = false -> rt_ok t ts v ->
    rt_fields fs vs -> rt_fields ((m, t) :: fs) (v :: vs).

Section RoundTrip.

(** [decodes d old e v]: like [reads], for decoders. *)
Definition decodes (d : decoder) (old : gval) (e : bytes) (v : gval) : Prop :=
  forall rest s, kind s = None -> r s = e ++ rest -> room (zlen e) s ->
  exists s', d old s = (None, v, s') /\ adv (zlen e) s s' /\ kind s' = None.

(** The same at the end of a list, for [tail] fields. *)
Definition decodes_tail (d : decoder) (old : gval) (e : bytes) (v : gval) : Prop :=
  forall rest s tos st, kind s = None -> r s = e ++ rest -> room (zlen e) s ->
  stack s = tos :: st -> pos tos + zlen e = lsize tos ->
  exists s', d old s = (None, v, s') /\ adv (zlen e) s s' /\ kind s' = None.

Definition is_tail (t : gtype) (ts : tags) : bool :=
  match t with TSlice _ => tail ts | _ => false end.

(** The header of a list needs no fuel. *)
Definition slack (t : gtype) (ts : tags) : nat :=
  match t with TSlice _ => if tail ts then 0 else 1 | _ => 0 end.

(** One encoded value. *)
Definition one_value (e : bytes) : Prop := exists k c, kind_ok k c /\ e = kind_enc k c.

Definition D_enc t ts v e : Prop := rt_ok t ts v ->
  (is_tail t ts = false -> one_value e) /\
  forall fi dec, (length e <= fi + slack t ts)%nat -> makeDecoder fi t ts = Ok dec ->
  (if is_tail t ts then decodes_tail else decodes) dec (zero_of t) e v.

(** Elements up to the end of the list, behind the elements [done]. *)
Definition D_encs t vs p : Prop := rt_oks t vs ->
  (length vs <= length p)%nat /\
  forall fi ed done rest s fuel st n,
    (length p <= fi)%nat -> makeDecoder fi t no_tags = Ok ed -> kind s = None ->
    r s = p ++ rest -> room (zlen p) s -> stack s = Listpos (n - zlen p) n :: st ->
    ((length vs < fuel)%nat -> exists s',
      decodeSliceElems_loop fuel t ed (length done) done s = (None, done ++ vs, s') /\
      adv (zlen p) s s' /\ kind s' = None) /\
    exists s',
      decodeListArray_loop ed (length done) (replicate (length vs) (zero_of t)) s
        = (None, false, vs, s') /\
      adv (zlen p) s s' /\ kind s' = None.

Definition D_fields fs vs p : Prop := rt_fields fs vs ->
  forall fi full fields pre rest s st n,
    (length p <= fi)%nat ->
    structFields_from (makeDecoder fi) (length pre) fs = Ok fields -> kind s = None ->
    r s = p ++ rest -> room (zlen p) s -> stack s = Listpos (n - zlen p) n :: st ->
    exists s',
      decodeFields full fields (pre ++ map (fun f => zero_of f.2) fs) s
        = (None, pre ++ vs, s') /\ adv (zlen p) s s' /\ kind s' = None.

(** *** At the end of a list *)

Definition at_eol (s : Stream) : Prop :=
  kind s = None /\ exists n st, stack s = Listpos n n :: st.

Definition eol_state (s : Stream) : Stream :=
  MkStream (r s) (remaining s) (limited s) None (ssize s) (byteval s) None (stack s).

Lemma stream_Kind_eol s : at_eol s -> stream_Kind s = (Err EOL, eol_state s).
Proof.
  intros [K (n & st & S)]. unfold stream_Kind. rewrite K. cbn [stack]. rewrite S.
  cbn. rewrite Z.eqb_refl. unfold eol_state. by rewrite S.
Qed.

Lemma makeDecoder_eol t fi ed old s :
  makeDecoder fi t no_tags = Ok ed -> decodable t = true -> at_eol s ->
  exists v, ed old s = (Some EOL, v, eol_state s).
Proof.
  revert ed old. induction t using gtype_ind'; intros ed old Hd Hdec Heol;
    pose proof (stream_Kind_eol s Heol) as E; cbn in Hd, Hdec; try inv_bind;
    simplify_eq.
  1-11: unfold decodeRawValue, decodeBigInt, decodeBigIntNoPtr, decodeBigInt, decodeUint,
    decodeBool, decodeString, decodeByteSlice, decodeByteArray, decodeListSlice,
    decodeListArray, structDecoder, stream_Raw, stream_Bool, stream_Bytes, stream_uint,
    stream_List, mbind, SM_bind; rewrite E; by eexists.
  - unfold ptrDecoder. assert (Hold : forall o, exists v, a o s = (Some EOL, v, eol_state s)).
    { intros o. by apply IHt. }
    destruct (Hold (zero_of t)) as [v0 ->].
    destruct old as [| | | | | | | | | |[w|]|]; try by eexists.
    destruct (Hold w) as [v1 ->]. by eexists.
  - destruct n; [|done]. destruct fi; cbn; rewrite E; by eexists.
Qed.

(** *** Values of basic types *)

Lemma one_value_nonempty e : one_value e -> e <> [].
Proof. intros (k & c & Hok & ->). by apply kind_enc_nonempty. Qed.

Lemma one_value_string b : one_value (rlp_string b).
Proof.
  destruct (single_byte b) eqn:E; [exists KByte, b|exists KString, b]; [|done].
  by rewrite rlp_string_single.
Qed.

Lemma one_value_list p : one_value (rlp_list p).
Proof. by exists KList, p. Qed.

(** A decoder that stores what a stream operation returns. *)
Lemma decodes_reads {A} (m : SM A) (f : A -> gval) (wrap : rlp_error -> rlp_error)
    (d : decoder) e a :
  (forall old s, d old s = match m s with
                           | (Err err, s') => (Some (wrap err), old, s')
                           | (Ok x, s') => (None, f x, s') end) ->
  reads m e a -> forall old, decodes d old e (f a).
Proof.
  intros Hd Hm old rest s Hk Hr H.
  destruct (Hm rest s Hk Hr H) as (s' & E & A' & K). exists s'. by rewrite Hd, E.
Qed.

Lemma decodes_big old z :
  0 <= z -> decodes decodeBigInt old (rlp_string (be_min z)) (VBigPtr (Some z)).
Proof.
  intros Hz rest s Hk Hr H.
  destruct (stream_Bytes_reads _ rest s Hk Hr H) as (s' & E & A & K).
  exists s'. split; [|done]. unfold decodeBigInt. rewrite E.
  pose proof (be_val_be_min z Hz) as Hv.
  destruct (be_min z) as [|x l] eqn:Eb; [by rewrite <- Hv|].
  pose proof (be_min_hd z x l Hz Eb). rewrite <- Hv. by destruct x.
Qed.

Lemma decodes_bytearray n b :
  length b = n -> bytes_ok b -> b <> [0] ->
  decodes (decodeByteArray n) (zero_of (TByteArray n)) (rlp_string b) (VByteArray b).
Proof.
  intros Hn Hok Hnz rest s Hk Hr H. unfold decodeByteArray. cbn [zero_of].
  destruct (single_byte b) eqn:Es.
  - rewrite rlp_string_single in * by done.
    destruct b as [|x [|]]; [done| |done]. cbn in Es, Hr, Hn. zbool. subst n.
    destruct (stream_Kind_byte x rest s Hk Es Hr H) as (s' & E & A & V & K1 & K2 & K3).
    rewrite E. cbn [Z.of_nat Z.eqb Z.ltb]. unfold stream_Uint, stream_uint.
    unfold stream_Kind. rewrite K1, K2. cbn [default id]. rewrite V.
    apply bytes_ok_cons in Hok as [Hx _].
    destruct (Z.eqb_spec x 0) as [->|]; [done|].
    eexists. split; [by rewrite u8_id|]. split; [by apply adv_rearm|done].
  - rewrite rlp_string_not_single in * by done.
    destruct (stream_Kind_content KString b rest s Hk ltac:(done) Hr H)
      as (Hc & s' & E & A & K1 & K2 & K3 & R & Hroom & Hadv).
    rewrite E, Hn, !Z.ltb_irrefl.
    destruct (readFull_room (replicate n 0) s') as (s'' & E' & A' & K').
    { by rewrite length_replicate, <- Hn. }
    rewrite length_replicate in *. rewrite <- Hn in *.
    rewrite E', R, take_app_length. exists s''. split; [|by auto].
    destruct (Z.eqb_spec (zlen b) 1); [|done].
    destruct b as [|x [|]]; cbn in *; try lia. by rewrite Es.
Qed.

(** *** Lists *)

Lemma tail_position (e : bytes) s tos st n :
  stack s = tos :: st -> n = lsize tos -> pos tos + zlen e = n ->
  stack s = Listpos (n - zlen e) n :: st.
Proof. intros -> -> H. destruct tos as [p0 z0]. cbn in *. do 2 f_equal. lia. Qed.

Lemma DE_nil t : D_encs t [] [].
Proof.
  intros Hrt. inversion Hrt as [? Hdec|]; subst. split; [done|].
  intros fi ed done rest s fuel st n Hfi Hd Hk Hr Hroom Hst. cbn in Hst, Hfi.
  assert (Adv0 : forall s', r s' = r s -> remaining s' = remaining s ->
    limited s' = limited s -> stack s' = stack s -> adv 0 s s').
  { intros s' E1 E2 E3 E4. split; rewrite ?E1, ?E2, ?E3, ?E4; [done| |done|].
    - destruct (limited s); lia.
    - rewrite Hst. cbn. do 2 f_equal. lia. }
  split; [|exists s; auto].
  intros Hfuel. destruct fuel as [|fuel]; [cbn in Hfuel; lia|]. cbn.
  rewrite Nat.leb_refl.
  destruct (makeDecoder_eol t fi ed (nth (length done) (done ++ [zero_of t]) (zero_of t)) s
    Hd Hdec) as [v ->].
  { split; [done|]. eexists _, _. rewrite Hst. do 2 f_equal. lia. }
  rewrite app_nil_r, take_app_length. eexists. split; [done|].
  split; [by apply Adv0|done].
Qed.

(** Stack, room and input behind the first element. *)
Lemma behind_elem (e p rest : bytes) s s1 st n :
  r s = (e ++ p) ++ rest -> room (zlen (e ++ p)) s ->
  stack s = Listpos (n - zlen (e ++ p)) n :: st -> adv (zlen e) s s1 ->
  r s1 = p ++ rest /\ room (zlen p) s1 /\ stack s1 = Listpos (n - zlen p) n :: st /\
  forall s2, adv (zlen p) s1 s2 -> adv (zlen (e ++ p)) s s2.
Proof.
  intros Hr Hroom Hst A. rewrite zlen_app in *. split; [|split; [|split]].
  - by rewrite (adv_r _ _ _ A), Hr, <- app_assoc, Nat2Z.id, drop_app_length.
  - eapply room_adv; [..|exact Hroom|exact A]; lia.
  - rewrite (adv_stack _ _ _ A), Hst. cbn. do 2 f_equal. lia.
  - intros s2 A2. eapply adv_trans; [..|exact A|exact A2]; lia.
Qed.

Lemma DE_cons t v vs e p :
  D_enc t no_tags v e -> D_encs t vs p -> D_encs t (v :: vs) (e ++ p).
Proof.
  intros He Hp Hrt. inversion Hrt as [|? ? ? Hv Hvs]; subst.
  destruct (He Hv) as [Hne Hdec]. destruct (Hp Hvs) as [Hlen Hps].
  assert (Ht : is_tail t no_tags = false) by (by destruct t).
  specialize (Hne Ht). apply one_value_nonempty in Hne. rewrite Ht in Hdec.
  assert (0 < length e)%nat by (destruct e; [done|cbn; lia]).
  split; [rewrite length_app; cbn; lia|].
  intros fi ed done rest s fuel st n Hfi Hd Hk Hr Hroom Hst.
  rewrite length_app in Hfi.
  destruct (Hdec fi ed ltac:(lia) Hd (p ++ rest) s Hk) as (s1 & E1 & A1 & K1).
  { by rewrite app_assoc. }
  { eapply room_le; [|exact Hroom]. rewrite zlen_app. lia. }
  destruct (behind_elem e p rest s s1 st n Hr Hroom Hst A1) as (R1 & Rm1 & S1 & Hadv).
  destruct (Hps fi ed (done ++ [v]) rest s1 (pred fuel) st n ltac:(lia) Hd K1 R1 Rm1 S1)
    as [IHslice IHarr]. split.
  - intros Hfuel. destruct fuel as [|fuel]; [lia|]. cbn in Hfuel |- *. rewrite Nat.leb_refl.
    rewrite app_nth2, Nat.sub_diag by lia. cbn [nth]. rewrite E1.
    destruct IHslice as (s2 & E2 & A2 & K2); [lia|].
    exists s2. split; [|by auto]. rewrite length_app, Nat.add_comm in E2.
    cbn in E2. rewrite <- app_assoc in E2. rewrite insert_app_r_alt, Nat.sub_diag by lia.
    exact E2.
  - destruct IHarr as (s2 & E2 & A2 & K2). exists s2. split; [|by auto].
    cbn. rewrite E1. rewrite length_app, Nat.add_comm in E2. cbn in E2. by rewrite E2.
Qed.

Lemma length_rlp_list (p : bytes) : (S (length p) <= length (rlp_list p))%nat.
Proof. unfold rlp_list, rlp_header. rewrite length_app. case_match; cbn; lia. Qed.

Lemma DE_slice t ts vs p :
  D_encs t vs p ->
  D_enc (TSlice t) ts (VList vs) (if tail ts then p else rlp_list p).
Proof.
  intros Hp Hrt. inversion Hrt as [| | | | | | | |? ? ? Hvs| | | | | |]; subst.
  destruct (Hp Hvs) as [Hlen Hps]. unfold is_tail.
  split; [intros ->; apply one_value_list|].
  intros fi dec Hfi Hd. cbn [makeDecoder slack] in *. inv_bind. destruct (tail ts).
  - rewrite Nat.add_0_r in Hfi. intros rest s tos st Hk Hr Hroom Hst Hpos. unfold decodeSliceElems. cbn [list_of zero_of].
    destruct (Hps fi a [] rest s (loop_fuel s) st (lsize tos) Hfi E Hk Hr Hroom)
      as [Hs _]; [by eapply tail_position|].
    destruct Hs as (s' & E' & A & K).
    { unfold loop_fuel. rewrite Hr, length_app. lia. }
    cbn [length app] in E'. rewrite E'. by exists s'.
  - intros rest s Hk Hr Hroom. unfold decodeListSlice.
    destruct (stream_List_reads p rest s Hk Hr Hroom)
      as (s1 & E1 & K1 & R1 & Rm1 & (st & S1) & Hend).
    rewrite E1. destruct (Z.eqb_spec (zlen p) 0) as [H0|H0].
    + assert (vs = []) as -> by (destruct vs; [done|cbn in Hlen; lia]).
      destruct p; [|cbn in H0; lia].
      destruct (Hend s1) as (s3 & E3 & A3 & K3).
      { split; [done| |done|]; cbn.
        - destruct (limited s1); lia.
        - by rewrite S1. }
      unfold list_end. rewrite E3. by exists s3.
    + pose proof (length_rlp_list p).
      destruct (Hps fi a [] rest s1 (loop_fuel s1) st (zlen p) ltac:(lia) E K1 R1 Rm1)
        as [Hs _]; [by rewrite Z.sub_diag|].
      destruct Hs as (s2 & E2 & A2 & K2).
      { unfold loop_fuel. rewrite R1, length_app. lia. }
      unfold decodeSliceElems. cbn [list_of zero_of]. cbn [length app] in E2. rewrite E2.
      destruct (Hend s2 A2) as (s3 & E3 & A3 & K3).
      unfold list_end. rewrite E3. by exists s3.
Qed.

Lemma DE_array n t ts vs p :
  D_encs t vs p ->
  D_enc (TArray n t) ts (VList vs) (if tail ts then p else rlp_list p).
Proof.
  intros Hp Hrt. inversion Hrt as [| | | | | | | | |? ? ? ? Ht Hn Hvs| | | | |]; subst.
  destruct (Hp Hvs) as [Hlen Hps]. cbn [is_tail]. rewrite Ht in *.
  split; [intros _; apply one_value_list|].
  intros fi dec Hfi Hd. cbn in Hd. inv_bind.
  intros rest s Hk Hr Hroom. unfold decodeListArray.
  destruct (stream_List_reads p rest s Hk Hr Hroom)
    as (s1 & E1 & K1 & R1 & Rm1 & (st & S1) & Hend).
  rewrite E1. pose proof (length_rlp_list p). cbn in Hfi.
  destruct (Hps fi a [] rest s1 (loop_fuel s1) st (zlen p) ltac:(lia) E K1 R1 Rm1)
    as [_ Hs]; [by rewrite Z.sub_diag|].
  destruct Hs as (s2 & E2 & A2 & K2). cbn [list_of zero_of].
  cbn [length] in E2. rewrite E2. destruct (Hend s2 A2) as (s3 & E3 & A3 & K3).
  unfold list_end. rewrite E3. by exists s3.
Qed.

(** *** Structs *)

Lemma DF_nil : D_fields [] [] [].
Proof.
  intros _ fi full fields pre rest s st n _ Hsf Hk Hr Hroom Hst.
  cbn in Hsf. inv_bind. exists s. cbn. rewrite !app_nil_r. split; [done|].
  split; [|done]. split; [done| |done|].
  - destruct (limited s); cbn; lia.
  - rewrite Hst. cbn. do 2 f_equal. lia.
Qed.

Lemma DF_skip m t fs v vs p :
  D_fields fs vs p -> rt_fields fs vs -> v = zero_of t ->
  (f_exported m = false \/ exists ts, f_exported m = true /\
    parseStructTag m t (match fs with [] => true | _ => false end) = Ok ts /\
    ignored ts = true) ->
  D_fields ((m, t) :: fs) (v :: vs) p.
Proof.
  intros IH Hrt -> Hskip _ fi full fields pre rest s st n Hfi Hsf Hk Hr Hroom Hst.
  assert (Hsf' : structFields_from (makeDecoder fi) (S (length pre)) fs = Ok fields).
  { cbn in Hsf. destruct Hskip as [Hx|(ts & Hx & Ht & Hi)]; rewrite Hx in Hsf; [done|].
    rewrite Ht in Hsf. cbn in Hsf. by rewrite Hi in Hsf. }
  destruct (IH Hrt fi full fields (pre ++ [zero_of t]) rest s st n Hfi) as (s' & E & A & K);
    [|done..|].
  { by rewrite length_app, Nat.add_comm. }
  exists s'. split; [|done]. cbn. by rewrite <- !app_assoc in E.
Qed.

Lemma DF_field m t fs v vs e p ts :
  f_exported m = true ->
  parseStructTag m t (match fs with [] => true | _ => false end) = Ok ts ->
  ignored ts = false -> rt_ok t ts v -> rt_fields fs vs ->
  (tail ts = true -> fs = []) -> (fs = [] -> p = []) ->
  D_enc t ts v e -> D_fields fs vs p -> D_fields ((m, t) :: fs) (v :: vs) (e ++ p).
Proof.
  intros Hx Ht Hi Hv Hvs Htail Hlast He Hp _ fi full fields pre rest s st n
    Hfi Hsf Hk Hr Hroom Hst.
  cbn in Hsf. rewrite Hx, Ht in Hsf. cbn in Hsf. rewrite Hi in Hsf. inv_bind.
  rewrite length_app in Hfi. destruct (He Hv) as [_ Hdec].
  specialize (Hdec fi a ltac:(lia) E).
  assert (exists s1, a (zero_of t) s = (None, v, s1) /\ adv (zlen e) s s1 /\ kind s1 = None)
    as (s1 & E1 & A1 & K1).
  { destruct (is_tail t ts) eqn:Eis.
    - assert (Htl : tail ts = true) by (by destruct t).
      rewrite (Hlast (Htail Htl)), app_nil_r in *.
      eapply Hdec; [done|done|done|exact Hst|cbn; lia].
    - eapply Hdec; [done|by rewrite app_assoc|].
      eapply room_le; [|exact Hroom]. rewrite zlen_app. lia. }
  destruct (behind_elem e p rest s s1 st n Hr Hroom Hst A1) as (R1 & Rm1 & S1 & Hadv).
  destruct (Hp Hvs fi full a0 (pre ++ [v]) rest s1 st n ltac:(lia)) as (s2 & E2 & A2 & K2);
    [|done..|].
  { by rewrite length_app, Nat.add_comm. }
  exists s2. split; [|by auto]. cbn.
  rewrite list_lookup_middle by done. rewrite E1.
  rewrite insert_app_r_alt, Nat.sub_diag by lia. cbn.
  by rewrite <- !app_assoc in E2.
Qed.

Lemma DE_struct fs ts vs p :
  D_fields fs vs p -> D_enc (TStruct fs) ts (VStruct vs) (rlp_list p).
Proof.
  intros Hf Hrt. inversion Hrt as [| | | | | | | | | |? ? ? Hvs| | | |]; subst.
  split; [intros _; apply one_value_list|].
  intros fi dec Hfi Hd. cbn in Hd, Hfi. inv_bind. intros rest s Hk Hr Hroom.
  unfold structDecoder.
  destruct (stream_List_reads p rest s Hk Hr Hroom)
    as (s1 & E1 & K1 & R1 & Rm1 & (st & S1) & Hend).
  rewrite E1. pose proof (length_rlp_list p). cbn in Hfi.
  destruct (Hf Hvs fi fs a [] rest s1 st (zlen p) ltac:(lia) E K1 R1 Rm1)
    as (s2 & E2 & A2 & K2); [by rewrite Z.sub_diag|].
  cbn [zero_of list_of]. cbn [app] in E2. rewrite E2.
  destruct (Hend s2 A2) as (s3 & E3 & A3 & K3).
  unfold list_end. rewrite E3. by exists s3.
Qed.

(** Only the last field of a struct can have the [tail] tag. *)
Lemma parseTagWords_tail m t last ts ws ts' :
  parseTagWords m t last ts ws = Ok ts' -> tail ts' = true ->
  tail ts = true \/ last = true.
Proof.
  revert ts. induction ws as [|w ws IH]; intros ts H Ht; cbn in H; inv_bind; [by left|].
  destruct (IH _ H Ht) as [Ha|]; [|by right].
  unfold parseTagWord in E. repeat case_match; simplify_eq; cbn in Ha; auto.
  right. by destruct last.
Qed.

Lemma parseStructTag_tail m t (fs : list (fmeta * gtype)) ts :
  parseStructTag m t (match fs with [] => true | _ => false end) = Ok ts ->
  tail ts = true -> fs = [].
Proof.
  intros H Ht. destruct (parseTagWords_tail _ _ _ _ _ _ H Ht) as [|Hl]; [done|].
  by destruct fs.
Qed.

(** *** Looking at the kind first *)

Lemma stream_Kind_idem s x s' : stream_Kind s = (Ok x, s') -> stream_Kind s' = (Ok x, s').
Proof.
  intros H. assert (Hk : exists k, kind s' = Some k /\ kinderr s' = None /\ x = (k, ssize s')).
  { unfold stream_Kind in H. destruct (kind s) eqn:Ek; cbn in H.
    - destruct (kinderr s) eqn:Ee; simplify_eq. rewrite Ek. by eexists.
    - repeat (case_match; simplify_eq; cbn in *); by eexists. }
  destruct Hk as (k & Hk & He & ->). unfold stream_Kind. by rewrite Hk, He.
Qed.

(** A decoder that finds the kind read already does the same. *)
Lemma makeDecoder_peek t fi ed old s x s' :
  makeDecoder fi t no_tags = Ok ed -> decodable t = true ->
  stream_Kind s = (Ok x, s') -> ed old s' = ed old s.
Proof.
  revert ed old. induction t using gtype_ind'; intros ed old Hd Hdec E;
    pose proof (stream_Kind_idem _ _ _ E) as E'; cbn in Hd, Hdec; try inv_bind;
    simplify_eq.
  1-11: unfold decodeRawValue, decodeBigInt, decodeBigIntNoPtr, decodeBigInt, decodeUint,
    decodeBool, decodeString, decodeByteSlice, decodeByteArray, decodeListSlice,
    decodeListArray, structDecoder, stream_Raw, stream_Bool, stream_Bytes, stream_uint,
    stream_List, mbind, SM_bind; by rewrite E, E'.
  - unfold ptrDecoder. destruct old as [| | | | | | | | | |[w|]|]; by rewrite IHt.
  - destruct n; [|done]. destruct fi; cbn; by rewrite E, E'.
Qed.

Lemma stream_Kind_one k c rest s :
  kind s = None -> kind_ok k c -> r s = kind_enc k c ++ rest -> room (zlen (kind_enc k c)) s ->
  exists s', stream_Kind s = (Ok (k, match k with KByte => 0 | _ => zlen c end), s') /\
    (c = [] -> adv (zlen (kind_enc k c)) s (rearm s')).
Proof.
  intros Hk Hok Hr Hroom. destruct k; cbn [kind_ok kind_enc] in *.
  - destruct c as [|x [|]]; [done| |done]. cbn in Hok, Hr. zbool.
    destruct (stream_Kind_byte x rest s Hk Hok Hr Hroom) as (s' & E & _).
    by exists s'.
  - rewrite rlp_string_not_single in * by done.
    destruct (stream_Kind_content KString c rest s Hk ltac:(done) Hr Hroom)
      as (Hc & s' & E & A & K1 & K2 & K3 & R & _).
    exists s'. split; [done|]. intros ->. by apply adv_rearm.
  - unfold rlp_list in *.
    destruct (stream_Kind_content KList c rest s Hk ltac:(done) Hr Hroom)
      as (Hc & s' & E & A & K1 & K2 & K3 & R & _).
    exists s'. split; [done|]. intros ->. by apply adv_rearm.
Qed.

(** *** Pointers *)

Lemma rt_ok_decodable t v : rt_ok t no_tags v -> decodable t = true.
Proof.
  revert v. induction t; intros v H; inversion H; subst; cbn; eauto. done.
Qed.

Lemma decodes_ptr t ed e v :
  decodes ed (zero_of t) e v -> decodes (ptrDecoder t ed) (VPtr None) e (VPtr (Some v)).
Proof.
  intros Hd rest s Hk Hr Hroom. destruct (Hd rest s Hk Hr Hroom) as (s' & E & A & K).
  exists s'. unfold ptrDecoder. by rewrite E.
Qed.

Lemma DE_ptr t ts v e :
  rlp_enc t no_tags v e -> D_enc t no_tags v e -> D_enc (TPtr t) ts (VPtr (Some v)) e.
Proof.
  intros Henc He Hrt. inversion Hrt as [| | | | | | | | | | |? ? ? Hv Hnil| | |]; subst.
  destruct (He Hv) as [Hone Hdec].
  assert (Ht : is_tail t no_tags = false) by (by destruct t).
  specialize (Hone Ht). rewrite Ht in Hdec. split; [done|].
  intros fi dec Hfi Hd. cbn in Hd. inv_bind. cbn [is_tail zero_of].
  cbn in Hfi. specialize (Hdec fi a ltac:(lia) E). apply decodes_ptr in Hdec.
  destruct (nilOK ts); [|done]. intros rest s Hk Hr Hroom.
  destruct Hone as (k & c & Hok & ->).
  destruct (stream_Kind_one k c rest s Hk Hok Hr Hroom) as (s1 & E1 & _).
  unfold optionalPtrDecoder. rewrite E1.
  assert (Hne : ((match k with KByte => 0 | _ => zlen c end =? 0) &&
                 match k with KByte => false | _ => true end)%bool = false).
  { destruct k; [done|..]; rewrite andb_true_r; apply Z.eqb_neq; intros H0;
      destruct c; cbn in H0; try lia; destruct (Hnil eq_refl _ Henc);
      [left|right]; done. }
  rewrite Hne. specialize (Hdec rest s Hk Hr Hroom).
  assert (Hp : ptrDecoder t a (VPtr None) s1 = ptrDecoder t a (VPtr None) s); [|by rewrite Hp].
  unfold ptrDecoder. by rewrite (makeDecoder_peek t fi a _ s _ s1 E (rt_ok_decodable _ _ Hv) E1).
Qed.

Lemma DE_ptr_nil t ts e : rlp_enc (TPtr t) ts (VPtr None) e -> D_enc (TPtr t) ts (VPtr None) e.
Proof.
  intros Henc Hrt. inversion Hrt as [| | | | | | | | | | | |? ? Hnil Hempty| |]; subst.
  assert (He : exists k, kind_ok k [] /\ e = kind_enc k [] /\ k <> KByte).
  { destruct (Hempty e Henc) as [->| ->]; [by exists KString|by exists KList]. }
  destruct He as (k & Hok & -> & Hkb). split; [intros _; by exists k, []|].
  intros fi dec Hfi Hd. cbn in Hd. inv_bind. rewrite Hnil. cbn [is_tail zero_of].
  intros rest s Hk Hr Hroom.
  destruct (stream_Kind_one k [] rest s Hk Hok Hr Hroom) as (s1 & E1 & A1).
  unfold optionalPtrDecoder. rewrite E1. exists (rearm s1).
  destruct k; [done|..]; cbn; auto.
Qed.

(** *** Interfaces *)

Lemma stream_Bytes_peek s x s1 :
  stream_Kind s = (Ok x, s1) -> stream_Bytes s1 = stream_Bytes s.
Proof.
  intros E. unfold stream_Bytes, mbind, SM_bind. by rewrite (stream_Kind_idem _ _ _ E), E.
Qed.

Lemma decodes_iface_bytes fi old b :
  decodes (decodeInterface fi 0) old (rlp_string b) (VIface (Some (TBytes, VBytes b))).
Proof.
  intros rest s Hk Hr Hroom.
  destruct (stream_Bytes_reads b rest s Hk Hr Hroom) as (s3 & E3 & A3 & K3).
  exists s3. split; [|done].
  assert (Hkind : exists k, kind_ok k b /\ rlp_string b = kind_enc k b /\ k <> KList).
  { destruct (single_byte b) eqn:Eb; [exists KByte|by exists KString].
    by rewrite rlp_string_single. }
  destruct Hkind as (k & Hok & Hke & Hkl). rewrite Hke in Hr, Hroom.
  destruct (stream_Kind_one k b rest s Hk Hok Hr Hroom) as (s1 & E1 & _).
  destruct fi, k; try done; cbn; rewrite E1, (stream_Bytes_peek _ _ _ E1), E3; done.
Qed.

Lemma decodes_iface_list fi old e v :
  one_value e -> decodes (decodeListSlice (TIface 0) (decodeInterface fi 0)) (VList []) e v ->
  decodes (decodeInterface (S fi) 0) old e (VIface (Some (TSlice (TIface 0), v))).
Proof.
  intros (k & c & Hok & ->) Hd rest s Hk Hr Hroom.
  destruct (Hd rest s Hk Hr Hroom) as (s2 & E2 & A2 & K2).
  destruct (stream_Kind_one k c rest s Hk Hok Hr Hroom) as (s1 & E1 & _).
  exists s2. split; [|done].
  assert (Hp : decodeListSlice (TIface 0) (decodeInterface fi 0) (VList []) s1 =
    decodeListSlice (TIface 0) (decodeInterface fi 0) (VList []) s).
  { unfold decodeListSlice, stream_List. by rewrite (stream_Kind_idem _ _ _ E1), E1. }
  assert (k = KList) as ->.
  { unfold decodeListSlice, stream_List in E2. rewrite E1 in E2. by destruct k. }
  cbn. by rewrite E1, Hp, E2.
Qed.

Lemma DE_iface n ts t v e :
  rlp_enc t no_tags v e -> D_enc t no_tags v e ->
  D_enc (TIface n) ts (VIface (Some (t, v))) e.
Proof.
  intros Henc He Hrt. inversion Hrt as [| | | | | | | | | | | | |? b|? vs Hvs]; subst.
  - destruct (He (R_bytes _ _)) as [Hone _].
    split; [auto|]. intros fi dec Hfi Hd. cbn in Hd. inv_bind.
    inversion Henc; subst. apply decodes_iface_bytes.
  - destruct (He (R_slice _ _ _ Hvs)) as [Hone Hdec]. specialize (Hone eq_refl).
    split; [done|]. intros fi dec Hfi Hd. cbn in Hd. inv_bind.
    pose proof (one_value_nonempty _ Hone).
    destruct fi as [|fi]; [destruct e; [done|cbn in Hfi; lia]|].
    apply decodes_iface_list; [done|]. apply (Hdec fi); [cbn in *; lia|done].
Qed.

(** *** All encodings *)

Lemma rlp_enc_decodes_all :
  (forall t ts v e, rlp_enc t ts v e -> D_enc t ts v e) /\
  (forall t vs p, rlp_encs t vs p -> D_encs t vs p) /\
  (forall fs vs p, rlp_fields fs vs p -> D_fields fs vs p).
Proof.
  apply rlp_enc_mutind.
  - intros ts b Hrt. inversion Hrt as [? k c Hok| | | | | | | | | | | | | |]; subst.
    split; [intros _; by exists k, c|]. intros fi dec _ Hd. cbn in Hd. inv_bind.
    eapply (decodes_reads stream_Raw VRaw id); [done|]. by apply stream_Raw_reads.
  - intros ts Hrt. inversion Hrt.
  - intros ts z Hz _. split; [intros _; apply one_value_string|].
    intros fi dec _ Hd. cbn in Hd. inv_bind. by apply decodes_big.
  - intros ts z Hz _. split; [intros _; apply one_value_string|].
    intros fi dec _ Hd. cbn in Hd. inv_bind. intros rest s Hk Hr Hroom.
    destruct (decodes_big (VBigPtr (Some 0)) z Hz rest s Hk Hr Hroom) as (s' & E & A & K).
    exists s'. unfold decodeBigIntNoPtr. cbn [zero_of]. by rewrite E.
  - intros bits ts z Hz Hrt. inversion Hrt as [| | |? ? ? Hb Hzb| | | | | | | | | | |]; subst.
    split; [intros _; apply one_value_string|]. intros fi dec _ Hd. cbn in Hd. inv_bind.
    eapply (decodes_reads (stream_uint bits) VUint); [done|].
    apply stream_uint_reads; lia.
  - intros ts b _. split; [intros _; apply one_value_string|].
    intros fi dec _ Hd. cbn in Hd. inv_bind.
    eapply (decodes_reads stream_Bool VBool); [done|]. apply stream_Bool_reads.
  - intros ts b _. split; [intros _; apply one_value_string|].
    intros fi dec _ Hd. cbn in Hd. inv_bind.
    eapply (decodes_reads stream_Bytes VString); [done|]. apply stream_Bytes_reads.
  - intros ts b _. split; [intros _; apply one_value_string|].
    intros fi dec _ Hd. cbn in Hd. inv_bind.
    eapply (decodes_reads stream_Bytes VBytes); [done|]. apply stream_Bytes_reads.
  - intros n ts b Hrt. inversion Hrt; subst. split; [intros _; apply one_value_string|].
    intros fi dec _ Hd. cbn in Hd. inv_bind. by apply decodes_bytearray.
  - intros. by apply DE_slice.
  - intros. by apply DE_array.
  - intros fs ts vs p _ Hf. by apply DE_struct.
  - intros. by apply DE_ptr.
  - intros. by apply DE_ptr_nil, E_ptr_nil.
  - intros. by apply DE_ptr_nil, E_ptr_zero.
  - intros n ts Hrt. inversion Hrt.
  - intros. by apply DE_iface.
  - intros. apply DE_nil.
  - intros. by apply DE_cons.
  - apply DF_nil.
  - intros m t fs v vs p Hx _ IH Hrt.
    inversion Hrt; subst; simplify_eq; [|congruence..]. eapply DF_skip; eauto.
  - intros m t fs v vs p ts Hx Ht Hi _ IH Hrt.
    inversion Hrt; subst; simplify_eq; try congruence. eapply DF_skip; eauto 7.
  - intros m t fs v vs e p ts Hx Ht Hi _ IHe Hfs IH Hrt.
    inversion Hrt as [|? ? ? ? ? Hx'|? ? ? ? ? ts' ? Ht' Hi'|? ? ? ? ? ts' ? Ht' ? Hv Hvs];
      subst; [congruence..|]. rewrite Ht in Ht'. injection Ht' as <-.
    eapply (DF_field m t fs v vs e p ts); eauto.
    + by eapply parseStructTag_tail.
    + intros ->. by inversion Hfs.
Qed.

End RoundTrip.

(** ** Termination

    [mu s] bounds the number of values that can still be read: a value either
    consumes input or uses up the kind that was read ahead. *)

Section Termination.

Definition mu (s : Stream) : nat :=
  (length (r s) + match kind s with Some _ => 1 | None => 0 end)%nat.

(** Types in which [[1]byte] does not occur. *)
Fixpoint no_byte1 (t : gtype) : bool :=
  match t with
  | TByteArray n => negb (n =? 1)%nat
  | TSlice t' | TArray _ t' | TPtr t' => no_byte1 t'
  | TStruct fs => forallb (fun f => no_byte1 f.2) fs
  | _ => true
  end.

(** No bound of the model was reached, and not the end of a list. *)
Definition hard (e : rlp_error) : Prop :=
  match e with OutOfFuel | EOL => False | _ => True end.
Definition no_fuel {A} (x : result rlp_error A) : Prop :=
  match x with Err e => hard e | _ => True end.
Definition hard_opt (o : option rlp_error) : Prop :=
  match o with Some e => hard e | None => True end.

Ltac nofuel :=
  first [done | congruence | intros [= ->]; done | intros ->; done
        | match goal with |- no_fuel (Err ?e) => by destruct e end].

(** No error of the model is pending. *)
Definition sane (s : Stream) : Prop := kinderr s <> Some OutOfFuel.

(** The call is over: no kind is left ahead and no input came back. *)
Definition spent (s s' : Stream) : Prop :=
  kind s' = None /\ (length (r s') <= length (r s))%nat /\ kinderr s' = kinderr s.

Lemma spent_trans s1 s2 s3 : spent s1 s2 -> spent s2 s3 -> spent s1 s3.
Proof. intros (_ & H1 & E1) (K & H2 & E2). split_and!; [done|lia|congruence]. Qed.

Lemma spent_mu s s' : spent s s' -> (mu s' <= mu s)%nat.
Proof. intros (K & H & _). unfold mu. rewrite K. lia. Qed.

Lemma spent_sane s s' : spent s s' -> sane s -> sane s'.
Proof. intros (_ & _ & E). unfold sane. by rewrite E. Qed.

Lemma willRead_spent n s x s' :
  willRead n s = (x, s') ->
  kind s' = None /\ r s' = r s /\ kinderr s' = kinderr s /\ no_fuel x.
Proof.
  unfold willRead, willRead_limit. intros H.
  repeat (case_match; simplify_eq; cbn in * ); done.
Qed.

Lemma readFull_spent b s err b' s' :
  readFull b s = (err, b', s') -> spent s s' /\ hard_opt err.
Proof.
  unfold readFull. intros H. destruct (willRead (zlen b) s) as [x s1] eqn:E.
  apply willRead_spent in E as (K & R & Ke & Hx). unfold spent.
  repeat (case_match; simplify_eq); split_and!; try done; cbn; rewrite ?R, ?length_drop;
    try lia.
Qed.

Lemma readFresh_spent n s x s' :
  readFresh n s = (x, s') -> spent s s' /\ no_fuel x.
Proof.
  unfold readFresh. intros H. destruct (readFull _ s) as [[o b] s1] eqn:E.
  apply readFull_spent in E as [E Ho]. case_match; simplify_eq; split; nofuel.
Qed.

Lemma readByte_spent s x s' :
  readByte s = (x, s') -> spent s s' /\ no_fuel x /\
  (is_ok x = true -> length (r s') < length (r s))%nat.
Proof.
  unfold readByte. intros H. destruct (willRead 1 s) as [y s1] eqn:E.
  apply willRead_spent in E as (K & R & Ke & Hx). rewrite <- R. unfold spent.
  destruct y as [u|e]; [|simplify_eq; rewrite R; split_and!; nofuel].
  destruct (r s1) as [|b l] eqn:Er; simplify_eq; cbn; split_and!; try done; try lia.
  all: rewrite <- R, ?Er; cbn; lia.
Qed.

Lemma readUint_spent n s x s' :
  readUint n s = (x, s') -> spent s s' /\ no_fuel x.
Proof.
  unfold readUint, mbind, SM_bind. intros H. case_match; [by simplify_eq|].
  case_match; [by apply readByte_spent in H as (? & ? & _)|].
  destruct (readFresh n s) as [y s1] eqn:E. apply readFresh_spent in E as [E Hy].
  destruct y as [b|e]; [|simplify_eq; split; nofuel].
  by destruct b as [|[] b]; inversion H; subst.
Qed.

Lemma stream_readKind_spent s k n err s' :
  stream_readKind s = (k, n, err, s') -> hard_opt err /\
  (err = None -> length (r s') < length (r s))%nat.
Proof.
  unfold stream_readKind. intros H. destruct (readByte s) as [[b|e] s1] eqn:E.
  2:{ apply readByte_spent in E as (_ & Hx & _). simplify_eq. split; [|done].
      destruct (stack s'); [destruct e|]; nofuel. }
  apply readByte_spent in E as (_ & _ & Hlt). specialize (Hlt eq_refl).
  destruct (b <? 128); [by simplify_eq|]. destruct (b <? 184); [by simplify_eq|].
  destruct (b <? 192); [|destruct (b <? 248); [by simplify_eq|]].
  all: destruct (readUint _ _) as [y s2] eqn:E2;
    apply readUint_spent in E2 as [(_ & Hle & _) Hy]; cbn in Hle; destruct y;
    simplify_eq; split; [by case_match|lia|nofuel|done].
Qed.

(** Outcome of an operation that started in [s]: after success, [mu] is smaller
    (if [strict]); at the end of a list it is not larger. *)
Definition outcome (strict : bool) (s s' : Stream) (o : option rlp_error) : Prop :=
  match o with
  | None => (if strict then mu s' < mu s else mu s' <= mu s)%nat /\ sane s'
  | Some EOL => (mu s' <= mu s)%nat /\ sane s'
  | Some OutOfFuel => False
  | Some _ => True
  end.

Definition err_of {A} (x : result rlp_error A) : option rlp_error :=
  match x with Ok _ => None | Err e => Some e end.

Lemma outcome_hard b s s' e : hard e -> outcome b s s' (Some e).
Proof. by destruct e. Qed.

Lemma stream_Kind_mu s x s' :
  sane s -> stream_Kind s = (x, s') -> outcome false s s' (err_of x) /\
  (is_ok x = true -> exists k, kind s' = Some k).
Proof.
  unfold sane. intros Hs H. unfold stream_Kind in H. destruct (kind s) as [k|] eqn:K.
  - destruct (kinderr s) as [e|] eqn:Ke; simplify_eq; cbn; unfold sane; rewrite Ke.
    + by destruct e.
    + eauto.
  - destruct (match stack _ with [] => _ | _ => _ end).
    { simplify_eq. cbn. unfold mu, sane. rewrite K. cbn. split; [split; [lia|done]|done]. }
    destruct (stream_readKind _) as [[[k n] err] s1] eqn:E.
    apply stream_readKind_spent in E as [He Hlt]. cbn in Hlt, H.
    destruct err as [e|].
    { simplify_eq. split; [by apply outcome_hard|done]. }
    specialize (Hlt eq_refl).
    repeat case_match; simplify_eq; cbn; (split; [|by eauto]); try done;
      unfold mu; cbn; rewrite K; (split; [lia|done]).
Qed.

(** A value read after its kind makes [mu] smaller. *)
Lemma kind_spent_mu s x s1 s2 :
  sane s -> stream_Kind s = (Ok x, s1) -> spent s1 s2 -> outcome true s s2 None.
Proof.
  intros Hs E Hsp. pose proof Hsp as (K & H & Ke).
  apply stream_Kind_mu in E as [[Hm Hs1] Hk]; [|done].
  destruct (Hk eq_refl) as [k Hk'].
  split; [|by eapply spent_sane]. unfold mu in *. rewrite K. rewrite Hk' in Hm. lia.
Qed.

(** [shrinks m]: [m] reports no exhausted bound and makes [mu] smaller. *)
Definition shrinks {A} (m : SM A) : Prop := forall s x s',
  sane s -> m s = (x, s') -> outcome true s s' (err_of x).

Lemma takeByte_spent s : spent s (rearm s).
Proof. by split_and!. Qed.

(** Operations that look at the kind and then read. *)
Lemma kind_shrinks {A} (m : SM A) (f : Kind * Z -> SM A) :
  (forall s, m s = match stream_Kind s with (Ok x, s1) => f x s1 | (Err e, s1) => (Err e, s1) end) ->
  (forall k s x s', f k s = (x, s') -> match x with Ok _ => spent s s' | Err e => hard e end) ->
  shrinks m.
Proof.
  intros Hm Hf s x s' Hs H. rewrite Hm in H.
  destruct (stream_Kind s) as [[k|e] s1] eqn:E.
  - apply Hf in H. destruct x as [a|e]; [by eapply kind_spent_mu|by apply outcome_hard].
  - simplify_eq. apply stream_Kind_mu in E as [E _]; [|done]. cbn in *.
    by destruct e.
Qed.

Lemma stream_Bytes_shrinks : shrinks stream_Bytes.
Proof.
  eapply kind_shrinks.
  { intros s. unfold stream_Bytes at 1, mbind, SM_bind.
    instantiate (1 := fun x => let (k, size) := x in _). cbn beta.
    destruct (stream_Kind s) as [[[k n]|e] s1]; [reflexivity|done]. }
  intros [k n] s x s' H. cbn in H. destruct k.
  - inversion H; subst. apply takeByte_spent.
  - unfold mbind, SM_bind in H.
    destruct (readFresh n s) as [y s2] eqn:E2. apply readFresh_spent in E2 as [E2 Hy].
    destruct y as [b|e]; [|by simplify_eq]. by case_match; inversion H; subst.
  - by inversion H; subst.
Qed.

Lemma stream_Raw_shrinks : shrinks stream_Raw.
Proof.
  eapply kind_shrinks.
  { intros s. unfold stream_Raw at 1, mbind, SM_bind.
    instantiate (1 := fun x => let (k, size) := x in _). cbn beta.
    destruct (stream_Kind s) as [[[k n]|e] s1]; [reflexivity|done]. }
  intros [k n] s x s' H. cbn in H. destruct k.
  1: { inversion H; subst. apply takeByte_spent. }
  all: unfold mbind, SM_bind in H;
    destruct (readFresh n s) as [y s2] eqn:E2; apply readFresh_spent in E2 as [E2 Hy];
    destruct y as [b|e]; [|by simplify_eq]; by inversion H; subst.
Qed.

Lemma stream_uint_shrinks bits : shrinks (stream_uint bits).
Proof.
  intros s x s' Hs H. unfold stream_uint in H.
  destruct (stream_Kind s) as [[[k n]|e] s1] eqn:E.
  2: { simplify_eq. apply stream_Kind_mu in E as [E _]; [|done]. by destruct e. }
  destruct k.
  - case_match; simplify_eq; [done|].
    eapply kind_spent_mu; [done|done|]. apply takeByte_spent.
  - case_match; [by simplify_eq|].
    destruct (readUint _ s1) as [y s2] eqn:E2. apply readUint_spent in E2 as [E2 Hy].
    destruct y as [v|e]; [|by destruct e; simplify_eq].
    case_match; simplify_eq; [done|]. by eapply kind_spent_mu.
  - by simplify_eq.
Qed.

Lemma stream_List_shrinks : shrinks stream_List.
Proof.
  intros s x s' Hs H. unfold stream_List in H.
  destruct (stream_Kind s) as [[[k n]|e] s1] eqn:E.
  2: { simplify_eq. apply stream_Kind_mu in E as [E _]; [|done]. by destruct e. }
  destruct k; simplify_eq; try done.
  eapply kind_spent_mu; [done|done|]. by split_and!.
Qed.

Lemma stream_ListEnd_spent s x s' :
  stream_ListEnd s = (x, s') -> match x with Ok _ => spent s s' | Err e => hard e end.
Proof.
  unfold stream_ListEnd. intros H. by repeat case_match; simplify_eq.
Qed.

(** *** Decoders *)

Definition terminates (fi : nat) (strict : bool) (d : decoder) : Prop :=
  forall old s err v s', sane s -> (mu s < fi)%nat -> d old s = (err, v, s') ->
  outcome strict s s' err.

Lemma outcome_wrap b s s' e t :
  outcome b s s' (Some e) -> outcome b s s' (Some (wrapStreamError e t)).
Proof. by destruct e. Qed.

Lemma outcome_ctx b s s' e c :
  outcome b s s' (Some e) -> outcome b s s' (Some (addErrorContext e c)).
Proof. by destruct e. Qed.

Lemma outcome_strict b b' s s' e : outcome b s s' (Some e) -> outcome b' s s' (Some e).
Proof. done. Qed.

Lemma outcome_weaken s s' o : outcome true s s' o -> outcome false s s' o.
Proof. destruct o; cbn; [done|]. intros [? ?]. split; [lia|done]. Qed.

Lemma outcome_seq b1 b2 s s1 s2 o :
  outcome b1 s s1 None -> outcome b2 s1 s2 o -> outcome (b1 || b2) s s2 o.
Proof.
  intros [H1 _] H2. destruct o as [[]|]; cbn in *; try done.
  all: destruct b1, b2; cbn in *; destruct H2; split; done || lia.
Qed.

Lemma outcome_spent s s' : sane s -> spent s s' -> outcome false s s' None.
Proof. intros Hs H. split; [by apply spent_mu|by eapply spent_sane]. Qed.

Lemma outcome_None_sane b s s' : outcome b s s' None -> sane s' /\ (mu s' <= mu s)%nat.
Proof. destruct b; intros [? ?]; split; done || lia. Qed.

Lemma terminates_op {A} fi (m : SM A) (f : A -> gval) wrap (d : decoder) :
  (forall old s, d old s = match m s with
                           | (Err err, s') => (Some (wrap err), old, s')
                           | (Ok x, s') => (None, f x, s') end) ->
  (forall b s s' e, outcome b s s' (Some e) -> outcome b s s' (Some (wrap e))) ->
  shrinks m -> terminates fi true d.
Proof.
  intros Hd Hw Hm old s err v s' Hs _ H. rewrite Hd in H.
  destruct (m s) as [[a|e] s1] eqn:E; apply Hm in E; try done; [by simplify_eq|].
  simplify_eq. by apply Hw.
Qed.

Lemma stream_Bool_shrinks : shrinks stream_Bool.
Proof.
  intros s x s' Hs H. unfold stream_Bool, mbind, SM_bind in H.
  destruct (stream_uint 8 s) as [[n|e] s1] eqn:E; apply stream_uint_shrinks in E; try done.
  - repeat case_match; inversion H; subst; done.
  - by simplify_eq.
Qed.

Lemma terminates_big fi : terminates fi true decodeBigInt.
Proof.
  intros old s err v s' Hs _ H. unfold decodeBigInt in H.
  destruct (stream_Bytes s) as [[b|e] s1] eqn:E; apply stream_Bytes_shrinks in E; try done.
  - by destruct b as [|[] b]; simplify_eq.
  - simplify_eq. by apply outcome_wrap.
Qed.

Lemma terminates_bytearray fi n : n <> 1%nat -> terminates fi true (decodeByteArray n).
Proof.
  intros Hn old s err v s' Hs _ H. unfold decodeByteArray in H.
  destruct (stream_Kind s) as [[[k z]|e] s1] eqn:E.
  2: { simplify_eq. apply stream_Kind_mu in E as [E _]; [|done]. by destruct e. }
  destruct k.
  - destruct (Z.eqb_spec (Z.of_nat n) 0); [by simplify_eq|].
    destruct (Z.ltb_spec 1 (Z.of_nat n)); [by simplify_eq|lia].
  - case_match; [by simplify_eq|]. case_match; [by simplify_eq|].
    destruct (readFull _ s1) as [[o b] s2] eqn:E2. apply readFull_spent in E2 as [E2 Ho].
    destruct o as [e|]; simplify_eq; [by apply outcome_hard|].
    case_match; simplify_eq; [done|]. by eapply kind_spent_mu.
  - by simplify_eq.
Qed.

Lemma slice_loop_outcome fi t ed fuel i l s err l' s' :
  terminates fi true ed -> sane s -> (mu s < fi)%nat -> (mu s < fuel)%nat ->
  decodeSliceElems_loop fuel t ed i l s = (err, l', s') ->
  outcome false s s' err /\ err <> Some EOL.
Proof.
  intros Hed. revert i l s. induction fuel as [|fuel IH]; intros i l s Hs Hfi Hfuel H; [lia|].
  cbn in H. set (l1 := if (_ <=? _)%nat then _ else _) in H. clearbody l1.
  destruct (ed (nth i l1 (zero_of t)) s) as [[o v] s1] eqn:E. apply Hed in E; [|done..].
  destruct o as [e|].
  - assert (Hc : e = EOL \/ outcome false s s' err /\ err <> Some EOL).
    { destruct e; (by left) || (right; simplify_eq; cbn; split; by cbn). }
    destruct Hc as [->|]; [|done]. by simplify_eq.
  - pose proof (outcome_None_sane _ _ _ E) as [Hs1 Hm1].
    assert (mu s1 < mu s)%nat by apply E.
    destruct (IH _ _ _ Hs1 ltac:(lia) ltac:(lia) H) as [Ho He]. split; [|done].
    apply (outcome_seq false false _ s1); [by apply outcome_weaken|done].
Qed.

Lemma mu_loop_fuel s : (mu s < loop_fuel s)%nat.
Proof. unfold mu, loop_fuel. destruct (kind s); lia. Qed.

Lemma terminates_elems fi t ed :
  terminates fi true ed -> terminates fi false (decodeSliceElems t ed).
Proof.
  intros Hed old s err v s' Hs Hfi H. unfold decodeSliceElems in H.
  destruct (decodeSliceElems_loop _ _ _ _ _ _) as [[o l] s1] eqn:E. simplify_eq.
  eapply slice_loop_outcome in E as [E _]; eauto using mu_loop_fuel.
Qed.

Lemma list_end_outcome wrap v0 s0 s err v s' :
  (forall e, hard e -> hard (wrap e)) -> outcome true s0 s None ->
  list_end wrap v0 s = (err, v, s') -> outcome true s0 s' err.
Proof.
  intros Hw H0 H. unfold list_end in H. destruct (stream_ListEnd s) as [x s1] eqn:E.
  apply stream_ListEnd_spent in E. destruct x as [u|e]; simplify_eq.
  - apply (outcome_seq true false _ s); [done|]. apply outcome_spent; [apply H0|done].
  - by apply outcome_hard, Hw.
Qed.

Lemma hard_wrap t e : hard e -> hard (wrapStreamError e t).
Proof. by destruct e. Qed.

(** Entering a list; [body] is what is done inside. *)
Lemma list_body_outcome fi t (body : Z -> Stream -> option rlp_error * gval * Stream) old :
  (forall size s0 s err v s', outcome true s0 s None -> (mu s < fi)%nat ->
     body size s = (err, v, s') -> outcome true s0 s' err) ->
  forall s err v s', sane s -> (mu s < S fi)%nat ->
  match stream_List s with
  | (Err e, s1) => (Some (wrapStreamError e t), old, s1)
  | (Ok size, s1) => body size s1
  end = (err, v, s') -> outcome true s s' err.
Proof.
  intros Hb s err v s' Hs Hfi H.
  destruct (stream_List s) as [[n|e] s1] eqn:E; apply stream_List_shrinks in E; try done.
  - eapply Hb; [exact E|destruct E; lia|done].
  - simplify_eq. by apply outcome_wrap.
Qed.

Lemma terminates_list fi t ed :
  terminates fi true ed -> terminates (S fi) true (decodeListSlice t ed).
Proof.
  intros Hed old. unfold decodeListSlice. apply list_body_outcome.
  intros size s0 s err v s' H0 Hfi H.
  case_match; [by eapply list_end_outcome in H|].
  destruct (decodeSliceElems t ed old s) as [[o l] s1] eqn:E.
  apply (terminates_elems fi) in E; [|done|apply H0|done].
  pose proof (outcome_seq true false _ _ _ _ H0 E) as E'.
  destruct o as [e|]; [by simplify_eq|]. by eapply list_end_outcome in H.
Qed.

Lemma array_loop_outcome fi ed i l s o b l' s' :
  terminates fi true ed -> sane s -> (mu s < fi)%nat ->
  decodeListArray_loop ed i l s = (o, b, l', s') ->
  outcome false s s' o /\ o <> Some EOL.
Proof.
  intros Hed. revert i s o b l'. induction l as [|v l IH]; intros i s o b l' Hs Hfi H; cbn in H.
  { by simplify_eq. }
  destruct (ed v s) as [[x w] s1] eqn:E. apply Hed in E; [|done..].
  destruct x as [e|].
  - assert (Hc : e = EOL \/ outcome false s s' o /\ o <> Some EOL).
    { destruct e; (by left) || (right; simplify_eq; cbn; split; by cbn). }
    destruct Hc as [->|]; [|done]. by simplify_eq.
  - pose proof (outcome_None_sane _ _ _ E) as [Hs1 Hm1].
    destruct (decodeListArray_loop ed (S i) l s1) as [[[o2 b2] l2] s2] eqn:E2.
    simplify_eq. destruct (IH _ _ _ _ _ Hs1 ltac:(lia) E2) as [Ho He]. split; [|done].
    apply (outcome_seq false false _ s1); [by apply outcome_weaken|done].
Qed.

Lemma terminates_array fi n t ed :
  terminates fi true ed -> terminates (S fi) true (decodeListArray n t ed).
Proof.
  intros Hed old. unfold decodeListArray. apply list_body_outcome.
  intros size s0 s err v s' H0 Hfi H.
  destruct (decodeListArray_loop _ _ _ _) as [[[o b] l] s1] eqn:E.
  eapply array_loop_outcome in E as [E _]; [|done|apply H0|done].
  pose proof (outcome_seq true false _ _ _ _ H0 E) as E'.
  destruct o as [e|]; [by simplify_eq|]. destruct b; [by simplify_eq|].
  eapply list_end_outcome in H; eauto using hard_wrap.
Qed.

Lemma fields_outcome fi fs fields vs s o vs' s' :
  Forall (fun f : nat * decoder => terminates fi false f.2) fields ->
  sane s -> (mu s < fi)%nat -> decodeFields fs fields vs s = (o, vs', s') ->
  outcome false s s' o.
Proof.
  intros Hall. revert vs s. induction Hall as [|[i d] fields Hd Hall IH];
    intros vs s Hs Hfi H; cbn in H; [by simplify_eq|].
  destruct (vs !! i) as [v|]; [|by simplify_eq].
  destruct (d v s) as [[x w] s1] eqn:E. apply Hd in E; [|done..].
  destruct x as [e|].
  - assert (Hc : hard e \/ e = EOL) by (destruct e; auto; by left).
    destruct Hc as [Hc| ->]; [|by simplify_eq].
    destruct e; simplify_eq; done.
  - pose proof (outcome_None_sane _ _ _ E) as [Hs1 Hm1].
    apply (outcome_seq false false _ s1); [done|]. eapply IH; [done|lia|done].
Qed.

Lemma terminates_struct fi fs fields :
  Forall (fun f : nat * decoder => terminates fi false f.2) fields ->
  terminates (S fi) true (structDecoder fs fields).
Proof.
  intros Hf old. unfold structDecoder. apply list_body_outcome.
  intros size s0 s err v s' H0 Hfi H.
  destruct (decodeFields _ _ _ _) as [[o l] s1] eqn:E.
  eapply fields_outcome in E; [|done|apply H0|done].
  pose proof (outcome_seq true false _ _ _ _ H0 E) as E'.
  destruct o as [e|]; [by simplify_eq|].
  eapply list_end_outcome in H; eauto using hard_wrap.
Qed.

Lemma terminates_S fi b d : terminates (S fi) b d -> terminates fi b d.
Proof. intros H old s err v s' Hs Hfi. apply H; [done|lia]. Qed.

Lemma terminates_ptr fi t ed : terminates fi true ed -> terminates fi true (ptrDecoder t ed).
Proof.
  intros Hed old s err v s' Hs Hfi H. unfold ptrDecoder in H.
  assert (Hc : exists o err' v' s1, ed o s = (err', v', s1) /\ s' = s1 /\ err = err').
  { destruct old as [| | | | | | | | | |[w|]|];
      try (destruct (ed w s) as [[q x] s1] eqn:E; simplify_eq; by eexists _, _, _, _).
    all: destruct (ed (zero_of t) s) as [[[q|] x] s1] eqn:E; simplify_eq;
      by eexists _, _, _, _. }
  destruct Hc as (o & err' & v' & s1 & E & -> & ->). by eapply Hed.
Qed.

Lemma terminates_optional fi t ed :
  terminates fi true ed -> terminates fi true (optionalPtrDecoder t ed).
Proof.
  intros Hed old s err v s' Hs Hfi H. unfold optionalPtrDecoder in H.
  destruct (stream_Kind s) as [[[k z]|e] s1] eqn:E.
  - case_match.
    + simplify_eq. eapply kind_spent_mu; [done|done|]. apply takeByte_spent.
    + apply stream_Kind_mu in E as [E _]; [|done].
      pose proof (outcome_None_sane _ _ _ E) as [Hs1 Hm1].
      apply (outcome_seq false true _ s1); [done|].
      eapply (terminates_ptr fi); [done|done|lia|done].
  - simplify_eq. apply stream_Kind_mu in E as [E _]; [|done]. cbn in E.
    destruct e; try done. destruct E as [E1 E2]. split; [|done].
    unfold mu in *. cbn. destruct (kind s1); lia.
Qed.

Lemma terminates_iface fi n : terminates fi true (decodeInterface fi n).
Proof.
  revert n. induction fi as [|fi IH]; intros n old s err v s' Hs Hfi H; [lia|].
  cbn in H. destruct n; [|by simplify_eq].
  destruct (stream_Kind s) as [[[k z]|e] s1] eqn:E.
  2: { simplify_eq. apply stream_Kind_mu in E as [E _]; [|done]. by destruct e. }
  pose proof (stream_Kind_idem _ _ _ E) as E'.
  apply stream_Kind_mu in E as [E _]; [|done].
  pose proof (outcome_None_sane _ _ _ E) as [Hs1 Hm1].
  apply (outcome_seq false true _ s1); [done|]. destruct k.
  1,2: destruct (stream_Bytes s1) as [[b|e] s2] eqn:E2;
    (apply stream_Bytes_shrinks in E2; [|done]); by simplify_eq.
  destruct (decodeListSlice _ _ _ s1) as [[o l] s2] eqn:E2.
  apply (terminates_list fi) in E2; [|apply IH|done|lia].
  by destruct o; simplify_eq.
Qed.

Lemma structFields_from_Forall {I} (Q : I -> Prop) g i fs l :
  Forall (fun f => forall ts x, g f.2 ts = Ok x -> Q x) fs ->
  structFields_from g i fs = Ok l -> Forall (fun f : nat * I => Q f.2) l.
Proof.
  intros Hall. revert i l. induction Hall as [|[m t] fs Hf Hall IH]; intros i l H.
  - cbn in H. simplify_eq. constructor.
  - apply structFields_from_inv in H
      as [[He Hs]|(ts & He & Hts & [[Hig Hs]|(info & rest & Hig & Hg & Hs & ->)])]; eauto.
Qed.

Lemma makeDecoder_terminates fi t ts d :
  no_byte1 t = true -> makeDecoder fi t ts = Ok d ->
  terminates fi (negb (is_tail t ts)) d.
Proof.
  revert ts d. induction t using gtype_ind'; intros ts d Hb Hd; cbn in Hb, Hd;
    try inv_bind; cbn [is_tail negb].
  - eapply (terminates_op _ stream_Raw VRaw id); eauto using stream_Raw_shrinks.
  - apply terminates_big.
  - intros old s err v s' Hs Hfi H. unfold decodeBigIntNoPtr in H.
    destruct (decodeBigInt _ s) as [[o x] s1] eqn:E. simplify_eq.
    by eapply terminates_big.
  - eapply (terminates_op _ (stream_uint b) VUint);
      [done|intros; by apply outcome_wrap|apply stream_uint_shrinks].
  - eapply (terminates_op _ stream_Bool VBool);
      [done|intros; by apply outcome_wrap|apply stream_Bool_shrinks].
  - eapply (terminates_op _ stream_Bytes VString);
      [done|intros; by apply outcome_wrap|apply stream_Bytes_shrinks].
  - eapply (terminates_op _ stream_Bytes VBytes);
      [done|intros; by apply outcome_wrap|apply stream_Bytes_shrinks].
  - apply terminates_bytearray. intros ->. done.
  - specialize (IHt no_tags a Hb E).
    assert (Ht : is_tail t no_tags = false) by (by destruct t). rewrite Ht in IHt.
    destruct (tail ts); [by apply terminates_elems|by apply terminates_S, terminates_list].
  - specialize (IHt no_tags a Hb E).
    assert (Ht : is_tail t no_tags = false) by (by destruct t). rewrite Ht in IHt.
    by apply terminates_S, terminates_array.
  - apply terminates_S, terminates_struct.
    eapply structFields_from_Forall; [|exact E].
    rewrite List.forallb_forall in Hb. apply List.Forall_forall. intros f Hin ts' x Hx.
    rewrite List.Forall_forall in H. specialize (H f Hin ts' x (Hb f Hin) Hx).
    intros old s err v s' Hs Hfi Hr. specialize (H old s err v s' Hs Hfi Hr).
    destruct (negb _); [by apply outcome_weaken|done].
  - specialize (IHt no_tags a Hb E).
    assert (Ht : is_tail t no_tags = false) by (by destruct t). rewrite Ht in IHt.
    destruct (nilOK ts); [by apply terminates_optional|by apply terminates_ptr].
  - apply terminates_iface.
Qed.

End Termination.

(** ** Properties *)

Lemma NewStream_room e rest limit :
  zlen e < 2 ^ 64 -> limit = zlen (e ++ rest) -> room (zlen e) (NewStream (e ++ rest) limit).
Proof.
  intros Hl ->. unfold NewStream, Reset. split; cbn; [lia|rewrite zlen_app; lia| |done].
  intros _. rewrite zlen_app. case_match; lia.
Qed.

(** [cachedTypeInfo] generates the decoder and the writer of a type together:
    both succeed or both fail, with the same error. *)
Lemma makeDecoder_makeWriter fi wi t ts :
  result_rel eq (fun _ _ => True) (makeDecoder fi t ts) (makeWriter wi t ts).
Proof.
  revert ts. induction t using gtype_ind'; intros ts; cbn; try done.
  1,2,4: eapply result_rel_bind; [apply IHt|done].
  eapply result_rel_bind; [|done].
  by apply structFields_from_rel.
Qed.

Lemma makeDecoder_ok fi t ts :
  serializable t = true -> exists d, makeDecoder fi t ts = Ok d.
Proof.
  intros Hs. pose proof (makeDecoder_makeWriter fi (writeInterface 0) t ts) as H.
  rewrite <- (makeWriter_serializable (writeInterface 0) t ts) in Hs.
  destruct (makeWriter _ t ts), (makeDecoder fi t ts); try done. by eexists.
Qed.

Lemma parseTagWords_no_fuel m t last ts ws : parseTagWords m t last ts ws <> Err OutOfFuel.
Proof.
  revert ts. induction ws as [|w ws IH]; intros ts H; cbn in H; [done|].
  destruct (parseTagWord _ _ _ _ _) eqn:E; cbn in H; [by eapply IH|].
  simplify_eq. unfold parseTagWord in E. repeat case_match; simplify_eq.
Qed.

(** Generation fails for other reasons. *)
Lemma makeDecoder_no_fuel fi t ts : makeDecoder fi t ts <> Err OutOfFuel.
Proof.
  revert ts. induction t using gtype_ind'; intros ts Hd; cbn in Hd; try done.
  all: try (match type of Hd with context [makeDecoder ?f ?t ?ts] =>
    destruct (makeDecoder f t ts) eqn:E; cbn in Hd; simplify_eq; by eapply IHt end).
  destruct (structFields (makeDecoder fi) fs) eqn:E; cbn in Hd; simplify_eq.
  unfold structFields in E. revert E. generalize 0%nat.
  induction H as [|[m t] fs Hf Hall IH]; intros i E; cbn in E; [done|].
  case_match; [|by eapply IH].
  destruct (parseStructTag _ _ _) as [ts'|e] eqn:Ep; cbn in E.
  - case_match; [by eapply IH|]. destruct (makeDecoder fi t ts') eqn:Em; cbn in E.
    + destruct (structFields_from _ (S i) fs) eqn:Es; cbn in E; simplify_eq. by eapply IH.
    + simplify_eq. by eapply Hf.
  - simplify_eq. by eapply parseTagWords_no_fuel.
Qed.

(** Decoding an encoded value at the beginning of a stream restores it. *)
Lemma stream_Decode_enc (type_name : gtype -> string) t v e :
  serializable t = true -> rt_ok t no_tags v -> rlp_enc t no_tags v e -> zlen e < 2 ^ 64 ->
  exists s', stream_Decode type_name (PointerTo t (zero_of t)) (NewStream e (zlen e)) =
    (None, PointerTo t v, s') /\ r s' = [].
Proof.
  intros Hs Hrt He Hl.
  destruct (makeDecoder_ok (loop_fuel (NewStream e (zlen e))) t no_tags Hs) as [d Hd].
  destruct (proj1 rlp_enc_decodes_all t no_tags v e He Hrt) as [_ Hdec].
  assert (Ht : is_tail t no_tags = false) by (by destruct t). rewrite Ht in Hdec.
  destruct (Hdec (loop_fuel (NewStream e (zlen e))) d) with (rest := @nil Z)
    (s := NewStream e (zlen e)) as (s' & Es & A & K).
  - unfold loop_fuel. cbn. lia.
  - done.
  - done.
  - by rewrite app_nil_r.
  - pose proof (NewStream_room e [] (zlen e) Hl) as Hr. rewrite app_nil_r in Hr. auto.
  - exists s'. unfold stream_Decode. rewrite Hd, Es. split; [done|].
    rewrite (adv_r _ _ _ A). cbn. by rewrite Nat2Z.id, drop_all.
Qed.



(** C17: decoding ends on every input, well-formed or not: for a type in which
    [[1]byte] does not occur, [Decode] and [DecodeBytes] come to a result
    within the bound that the number of input bytes gives, from every state of
    the stream that no bound was reached in. *)
Theorem Decode_terminates (type_name : gtype -> string) t v s
    (Ht : no_byte1 t = true) (Hs : kinderr s <> Some OutOfFuel) :
  (stream_Decode type_name (PointerTo t v) s).1.1 <> Some OutOfFuel.
Proof.
  unfold stream_Decode. destruct (makeDecoder (loop_fuel s) t no_tags) as [d|e] eqn:Ed.
  - destruct (d v s) as [[err v'] s'] eqn:E.
    apply (makeDecoder_terminates _ _ _ _ Ht Ed) in E; [|done|apply mu_loop_fuel].
    destruct err as [[]|]; try done. by destruct ctx.
  - intros H. cbn in H. simplify_eq. by eapply makeDecoder_no_fuel.
Qed.

Lemma Decode_terminates_witness :
  (stream_Decode (fun _ => ""%string) (PointerTo (TIface 0) (VIface None))
    (NewStream [0xC3; 0xC2; 0xC1] 0)).1.1 <> Some OutOfFuel.
Proof.
  apply (Decode_terminates (fun _ => ""%string) (TIface 0) (VIface None)
    (NewStream [0xC3; 0xC2; 0xC1] 0)); [reflexivity|discriminate].
Defined.

(** *** Arrays of one byte

    For the byte 0, [decodeByteArray] drops the error of [s.Uint()], which has
    left the kind ahead in place: the next decoder finds the same byte again. *)

Lemma byte1_again s old :
  kind s = Some KByte -> kinderr s = None -> byteval s = 0 ->
  decodeByteArray 1 old s =
    (None, VByteArray (<[0%nat := 0]> match old with VByteArray b => b | _ => [0] end), s).
Proof.
  intros K Ke V.
  assert (E : stream_Kind s = (Ok (KByte, ssize s), s)) by (unfold stream_Kind; by rewrite K, Ke).
  unfold decodeByteArray, stream_Uint, stream_uint. rewrite E, E, V. done.
Qed.

Lemma byte1_loop fuel i l s :
  kind s = Some KByte -> kinderr s = None -> byteval s = 0 ->
  (decodeSliceElems_loop fuel (TByteArray 1) (decodeByteArray 1) i l s).1.1 = Some OutOfFuel.
Proof.
  intros K Ke V. revert i l. induction fuel as [|fuel IH]; intros i l; [done|].
  cbn [decodeSliceElems_loop]. rewrite byte1_again by done. apply IH.
Qed.

(** A list of [[1]byte] that holds the byte 0 is never decoded: whatever
    number of rounds is allowed, the loop of [decodeSliceElems] wants one more
    (and grows the slice by an element each time).  In a struct, the field
    behind a zero [[1]byte] reads that byte again, so that a struct does not
    decode to itself. *)
Theorem byte1_zero_decoding :
  (forall fuel, (decodeSliceElems_loop fuel (TByteArray 1) (decodeByteArray 1) 0 []
     (stream_List (NewStream [0xC1; 0x00] 0)).2).1.1 = Some OutOfFuel) /\
  (let t := TStruct [(FMeta "A" true "", TByteArray 1); (FMeta "B" true "", TUint 64)] in
   let v := VStruct [VByteArray [0]; VUint 5] in
   EncodeToBytes t v = Ok [0xC2; 0x00; 0x05] /\
   forall type_name,
     (DecodeBytes type_name [0xC2; 0x00; 0x05] (PointerTo t (zero_of t))).1 =
       Some (DecodeError "non-canonical integer (leading zero bytes)" (TUint 64)
         [".B"; ("(" +:+ type_name t +:+ ")")]%string)).
Proof.
  split; [|split; [reflexivity|intros type_name; vm_compute; reflexivity]].
  intros [|fuel]; [done|]. cbn [decodeSliceElems_loop].
  set (s := (stream_List _).2).
  destruct (decodeByteArray 1 _ s) as [[o v] s'] eqn:E. vm_compute in E.
  injection E as <- <- <-. by apply byte1_loop.
Qed.
