(* ===== verification/RlpTyped.v ===== *)
(** * Decoding gives values of the type

    Whatever bytes arrive, and whether or not decoding fails half-way, the value
    decoded into keeps its Go type: arrays keep their length, numbers their range,
    structs their fields. *)

From S2P Require Import Prelude RlpTypes RlpEncode RlpRaw RlpStream RlpDecode.
Local Open Scope Z_scope.
#[local] Set Warnings "-register-all".

(** The widths of Go's unsigned integers. *)
Definition width_ok (bits : Z) : bool := existsb (Z.eqb bits) [8; 16; 32; 64].

Lemma width_ok_bound bits : width_ok bits = true ->
  2 ^ bits = 256 ^ (bits / 8) /\ 1 <= bits / 8 <= 8 /\ 256 <= 2 ^ bits.
Proof.
  unfold width_ok. rewrite existsb_exists. intros (b & Hin & ->%Z.eqb_eq).
  cbn in Hin. by destruct Hin as [<- | [<- | [<- | [<- | []]]]].
Qed.

(** Decoding from at most [N] bytes. *)
Section Bounded.
Context (N : nat) (HN : (1 <= N)%nat).

(** Values of a type that decoding can give; big integers need at most [N] bytes. *)
Inductive typed : gtype -> gval -> Prop :=
| Ty_raw b : bytes_ok b -> typed TRaw (VRaw b)
| Ty_bigptr o : 0 <= default 0 o < 256 ^ Z.of_nat N -> typed TBigPtr (VBigPtr o)
| Ty_big z : 0 <= z < 256 ^ Z.of_nat N -> typed TBig (VBig z)
| Ty_uint bits z : (width_ok bits = true -> 0 <= z < 2 ^ bits) -> typed (TUint bits) (VUint z)
| Ty_bool b : typed TBool (VBool b)
| Ty_string b : bytes_ok b -> typed TString (VString b)
| Ty_bytes b : bytes_ok b -> typed TBytes (VBytes b)
| Ty_bytearray n b : length b = n -> bytes_ok b -> typed (TByteArray n) (VByteArray b)
| Ty_slice t l : Forall (typed t) l -> typed (TSlice t) (VList l)
| Ty_array n t l : length l = n -> Forall (typed t) l -> typed (TArray n t) (VList l)
| Ty_struct fs l : Forall2 (fun f v => typed f.2 v) fs l -> typed (TStruct fs) (VStruct l)
| Ty_ptr_nil t : typed (TPtr t) (VPtr None)
| Ty_ptr t v : typed t v -> typed (TPtr t) (VPtr (Some v))
| Ty_iface_nil n : typed (TIface n) (VIface None)
| Ty_iface_bytes n b : bytes_ok b -> typed (TIface n) (VIface (Some (TBytes, VBytes b)))
| Ty_iface_list n l : Forall (typed (TIface 0)) l ->
    typed (TIface n) (VIface (Some (TSlice (TIface 0), VList l)))
| Ty_other k : typed (TOther k) (VIface None).

Lemma zero_of_typed t : typed t (zero_of t).
Proof.
  assert (HB : 0 < 256 ^ Z.of_nat N) by (apply Z.pow_pos_nonneg; lia).
  induction t using gtype_ind'; cbn; constructor; try done; try constructor;
    try apply length_replicate; try (by apply Forall_replicate).
  1-2: apply width_ok_bound in H; lia.
  induction H; cbn; constructor; [done|exact IHForall].
Qed.

(** ** Streams of bytes *)

Section Streams.

Record sok (s : Stream) : Prop := Sok {
  sok_r : bytes_ok (r s) /\ (length (r s) <= N)%nat; sok_b : byte_ok (byteval s);
  sok_size : 0 <= ssize s }.

(** An operation keeps this and what it returns has the property [P]. *)
Definition gives {A} (P : A -> Prop) (m : SM A) : Prop := forall s x s',
  sok s -> m s = (x, s') -> sok s' /\ forall a, x = Ok a -> P a.

Lemma gives_ret {A} (P : A -> Prop) a : P a -> gives P (mret a : SM A).
Proof. intros H s x s' Hs [= <- <-]. split; [done|]. by intros b [= <-]. Qed.

Lemma gives_fail {A} (P : A -> Prop) e : gives P (sfail e : SM A).
Proof. intros s x s' Hs [= <- <-]. split; [done|]. by intros b. Qed.

Lemma gives_bind {A B} (P : A -> Prop) (Q : B -> Prop) (m : SM A) (f : A -> SM B) :
  gives P m -> (forall a, P a -> gives Q (f a)) -> gives Q (m ≫= f).
Proof.
  intros Hm Hf s x s' Hs. unfold mbind, SM_bind. destruct (m s) as [[a|e] s1] eqn:E.
  - destruct (Hm _ _ _ Hs E) as [H1 Ha]. apply Hf; [by apply Ha|done].
  - intros [= <- <-]. destruct (Hm _ _ _ Hs E) as [H1 _]. split; [done|]. by intros b.
Qed.

Lemma sok_rearm s : sok s -> sok (rearm s).
Proof. by intros [H1 H2 H3]. Qed.

Lemma willRead_gives n : gives (fun _ => True) (willRead n).
Proof.
  intros s x s' [H1 H2 H3]. unfold willRead, willRead_limit. intros E.
  assert (Hs : sok s'); [|by split].
  repeat case_match; injection E as <- <-; by split.
Qed.

Lemma readFull_gives buf s err b s' :
  sok s -> bytes_ok buf -> readFull buf s = (err, b, s') ->
  sok s' /\ bytes_ok b /\ length b = length buf /\ (err = None -> (length b <= N)%nat).
Proof.
  intros Hs Hb. unfold readFull. destruct (willRead (zlen buf) s) as [[[]|e] s1] eqn:E.
  - destruct (willRead_gives _ _ _ _ Hs E) as [[[H1 Hl] H2 H3] _]. case_match eqn:El; intros [= <- <- <-].
    + apply Nat.leb_le in El.
      split; [split; [split; [by apply Forall_drop|cbn; rewrite length_drop; lia]|done|done]|].
      split; [by apply Forall_take|]. rewrite length_take. lia.
    + apply Nat.leb_gt in El. split; [split; [split; [constructor|cbn; lia]|exact H2|exact H3]|].
      split; [apply bytes_ok_app; split; [done|by apply Forall_drop]|].
      rewrite length_app, length_drop. split; [lia|done].
  - intros [= <- <- <-]. by destruct (willRead_gives _ _ _ _ Hs E) as [? _].
Qed.

Lemma readFresh_gives n :
  gives (fun b => bytes_ok b /\ length b = Z.to_nat n /\ (length b <= N)%nat) (readFresh n).
Proof.
  intros s x s' Hs. unfold readFresh. destruct (readFull _ s) as [[err b] s1] eqn:E.
  assert (H0 : bytes_ok (replicate (Z.to_nat n) 0)) by (by apply Forall_replicate).
  destruct (readFull_gives _ _ _ _ _ Hs H0 E) as (H1 & H2 & H3 & H4).
  rewrite length_replicate in H3. destruct err; intros [= <- <-]; split; try done.
  intros a [= <-]. by auto.
Qed.

Lemma readByte_gives : gives byte_ok readByte.
Proof.
  intros s x s' Hs. unfold readByte. destruct (willRead 1 s) as [[[]|e] s1] eqn:E;
    destruct (willRead_gives _ _ _ _ Hs E) as [[H1 H2 H3] _].
  - destruct (r s1) as [|b rest] eqn:Er; intros [= <- <-].
    + split; [|by intros b]. split; [by rewrite Er|done|done].
    + destruct H1 as [H1 Hl]. apply bytes_ok_cons in H1 as [Hb H1].
      cbn in Hl. split; [by split; [split; [|cbn; lia]| |]|]. by intros a [= <-].
  - intros [= <- <-]. by split.
Qed.

Lemma readUint_gives n :
  0 <= n -> gives (fun v => 0 <= v < 256 ^ n) (readUint n).
Proof.
  intros Hn. unfold readUint. destruct (Z.eqb_spec n 0) as [->|H0].
  { intros s x s' Hs [= <- <-]. split; [by apply sok_rearm|]. intros a [= <-]. lia. }
  destruct (Z.eqb_spec n 1) as [->|H1].
  { intros s x s' Hs E. destruct (readByte_gives _ _ _ Hs E) as [? Hb]. split; [done|].
    intros a Ha. specialize (Hb a Ha). unfold byte_ok in Hb. lia. }
  eapply gives_bind; [apply readFresh_gives|]. intros b (Hb & Hl & _).
  assert (Hv : 0 <= be_val b < 256 ^ n).
  { pose proof (be_val_bound b Hb) as Hv. rewrite Hl, Z2Nat.id in Hv by lia. done. }
  destruct b as [|[] b']; [by apply gives_ret|apply gives_fail|by apply gives_ret..].
Qed.

Lemma stream_readKind_gives s k sz err s1 :
  sok s -> stream_readKind s = (k, sz, err, s1) -> 0 <= sz /\ sok s1.
Proof.
  intros H0 E. unfold stream_readKind in E. destruct (readByte s) as [[b|e] s2] eqn:Eb;
    destruct (readByte_gives _ _ _ H0 Eb) as [G Gb]; [|injection E as <- <- <- <-; by split].
  specialize (Gb b eq_refl). unfold byte_ok in Gb. cbn zeta beta in E.
  set (s3 := MkStream _ _ _ _ _ 0 _ _) in E.
  assert (Hs3 : sok s3) by (by destruct G as [G1 G2 G3]; split).
  assert (Hlong : forall k' n, 0 <= n ->
    (match readUint n s3 with
     | (Ok size, s'') => (k', size, if size <? 56 then Some ErrCanonSize else None, s'')
     | (Err e, s'') => (k', 0, Some e, s'') end) = (k, sz, err, s1) -> 0 <= sz /\ sok s1).
  { intros k' n Hn E1. destruct (readUint n s3) as [[v|e] s4] eqn:Er;
      destruct (readUint_gives n Hn _ _ _ Hs3 Er) as [Hs4 Hv]; injection E1 as <- <- <- <-;
      (split; [|done]); [by destruct (Hv v eq_refl)|done]. }
  clearbody s3.
  destruct (Z.ltb_spec b 128). { injection E as <- <- <- <-. by destruct Hs3; split. }
  destruct (Z.ltb_spec b 184). { injection E as <- <- <- <-. split; [lia|done]. }
  destruct (Z.ltb_spec b 192). { eapply Hlong, E. lia. }
  destruct (Z.ltb_spec b 248). { injection E as <- <- <- <-. split; [lia|done]. }
  eapply Hlong, E. lia.
Qed.

Lemma stream_Kind_gives : gives (fun p => 0 <= p.2) stream_Kind.
Proof.
  intros s x s' Hs. unfold stream_Kind. destruct (kind s) as [k|].
  { destruct Hs as [H1 H2 H3]. destruct (kinderr s); intros [= <- <-]; split; try done.
    by intros a [= <-]. }
  set (s0 := MkStream _ _ _ None _ _ None _). assert (H0 : sok s0) by (by destruct Hs; split).
  destruct (match stack s0 with | tos :: _ => _ | [] => _ end).
  { intros [= <- <-]. by split. }
  destruct (stream_readKind s0) as [[[k sz] err] s1] eqn:E.
  destruct (stream_readKind_gives _ _ _ _ _ H0 E) as [Hsz [G1 G2 G3]].
  cbn. case_match; intros [= <- <-]; (split; [by split|]); by intros a [= <-].
Qed.

Lemma takeByte_gives : gives (fun b => bytes_ok b /\ (length b <= N)%nat) takeByte.
Proof.
  intros s x s' [H1 H2 H3] [= <- <-]. split; [done|]. intros a [= <-].
  split; [by apply bytes_ok_cons; split; [|constructor]|cbn; lia].
Qed.

Lemma stream_Bytes_gives : gives (fun b => bytes_ok b /\ (length b <= N)%nat) stream_Bytes.
Proof.
  eapply gives_bind; [apply stream_Kind_gives|]. intros [k n] Hn. destruct k.
  - apply takeByte_gives.
  - eapply gives_bind; [apply readFresh_gives|]. intros b (Hb & _ & Hl).
    case_match; [apply gives_fail|by apply gives_ret].
  - apply gives_fail.
Qed.

Lemma putint_ok n : bytes_ok (putint n).
Proof.
  unfold putint. repeat case_match;
    repeat (apply List.Forall_cons; [apply u8_ok|]); apply List.Forall_nil.
Qed.

Lemma puthead_ok s l n : bytes_ok (puthead s l n).
Proof.
  unfold puthead. case_match; apply bytes_ok_cons; (split; [apply u8_ok|]);
    [constructor|apply putint_ok].
Qed.

Lemma stream_Raw_gives : gives bytes_ok stream_Raw.
Proof.
  eapply gives_bind; [apply stream_Kind_gives|]. intros [k n] Hn.
  destruct k; [intros s x s' Hs E; destruct (takeByte_gives s x s' Hs E) as [? H];
    split; [done|]; intros a Ha; apply (H a Ha)|..];
    (eapply gives_bind; [apply readFresh_gives|]; intros b [Hb _]; apply gives_ret;
     apply bytes_ok_app; split; [apply puthead_ok|done]).
Qed.

Lemma stream_uint_gives bits :
  gives (fun v => width_ok bits = true -> 0 <= v < 2 ^ bits) (stream_uint bits).
Proof.
  intros s x s' Hs. unfold stream_uint. destruct (stream_Kind s) as [[[k n]|e] s1] eqn:E;
    destruct (stream_Kind_gives _ _ _ Hs E) as [Hs1 Hn].
  2: { intros [= <- <-]. by split. }
  specialize (Hn _ eq_refl). cbn in Hn. destruct k.
  - case_match; intros [= <- <-]; (split; [by try apply sok_rearm|]); [done|].
    intros a [= <-] Hw%width_ok_bound. pose proof (sok_b _ Hs1) as Hb. unfold byte_ok in Hb. lia.
  - destruct (Z.ltb_spec (bits / 8) n) as [Hlt|Hle]; [intros [= <- <-]; by split|].
    assert (H8 : 0 <= u8 n) by (pose proof (u8_ok n) as H8; unfold byte_ok in H8; lia).
    destruct (readUint (u8 n) s1) as [[v|e] s2] eqn:Er;
      destruct (readUint_gives _ H8 _ _ _ Hs1 Er) as [Hs2 Hv].
    + specialize (Hv v eq_refl).
      case_match; intros [= <- <-]; (split; [done|]); [done|]. intros a [= <-] Hw%width_ok_bound.
      rewrite u8_id in Hv by (unfold byte_ok; lia).
      assert (256 ^ n <= 256 ^ (bits / 8)) by (apply Z.pow_le_mono_r; lia). lia.
    + intros Ex. assert (s' = s2) as -> by (destruct e; congruence). split; [done|].
      intros a ->. destruct e; congruence.
  - intros [= <- <-]. by split.
Qed.

Lemma stream_Bool_gives : gives (fun _ => True) stream_Bool.
Proof.
  eapply gives_bind; [apply (stream_uint_gives 8)|]. intros n _.
  repeat case_match; by first [apply gives_ret | apply gives_fail].
Qed.

Lemma stream_List_gives : gives (fun _ => True) stream_List.
Proof.
  intros s x s' Hs. unfold stream_List. destruct (stream_Kind s) as [[[k n]|e] s1] eqn:E;
    destruct (stream_Kind_gives _ _ _ Hs E) as [[H1 H2 H3] _]; [destruct k|];
    intros [= <- <-]; split; try done; by split.
Qed.

Lemma stream_ListEnd_gives : gives (fun _ => True) stream_ListEnd.
Proof.
  intros s x s' [H1 H2 H3]. unfold stream_ListEnd.
  repeat case_match; intros [= <- <-]; split; try done; by split.
Qed.

End Streams.

(** ** Decoders *)

Section Decoders.

Definition keeps_type (t : gtype) (d : decoder) : Prop := forall old s err v s',
  sok s -> typed t old -> d old s = (err, v, s') -> typed t v /\ sok s'.

(** A decoder that stores what a stream operation returns. *)
Lemma keeps_op {A} (P : A -> Prop) (m : SM A) (f : A -> gval) (wrap : rlp_error -> rlp_error) t d :
  (forall old s, d old s = match m s with
                           | (Err err, s') => (Some (wrap err), old, s')
                           | (Ok x, s') => (None, f x, s') end) ->
  gives P m -> (forall a, P a -> typed t (f a)) -> keeps_type t d.
Proof.
  intros Hd Hm Hf old s err v s' Hs Ho. rewrite Hd. destruct (m s) as [[a|e] s1] eqn:E;
    destruct (Hm _ _ _ Hs E) as [H1 Ha]; intros [= <- <- <-]; split; try done.
  by apply Hf, Ha.
Qed.

Lemma keeps_big : keeps_type TBigPtr decodeBigInt.
Proof.
  intros old s err v s' Hs Ho. unfold decodeBigInt.
  destruct (stream_Bytes s) as [[b|e] s1] eqn:E;
    destruct (stream_Bytes_gives _ _ _ Hs E) as [H1 Hb].
  2: { intros [= <- <- <-]. done. }
  destruct (Hb b eq_refl) as [Hb' Hl]. pose proof (be_val_bound b Hb') as Hv.
  assert (HB : 256 ^ zlen b <= 256 ^ Z.of_nat N) by (apply Z.pow_le_mono_r; lia).
  assert (Hv' : 0 <= be_val b < 256 ^ Z.of_nat N) by lia. clear Hv HB. rename Hv' into Hv.
  inversion Ho as [|o Hz| | | | | | | | | | | | | | |]; subst.
  destruct b as [|[] b']; intros [= <- <- <-]; (split; [apply Ty_bigptr|done]);
    first [exact Hv | by destruct o].
Qed.

Lemma keeps_big_noptr : keeps_type TBig decodeBigIntNoPtr.
Proof.
  intros old s err v s' Hs Ho. unfold decodeBigIntNoPtr.
  inversion Ho as [| |z Hz| | | | | | | | | | | | | |]; subst.
  destruct (decodeBigInt (VBigPtr (Some z)) s) as [[e w] s1] eqn:E.
  destruct (keeps_big _ _ _ _ _ Hs (Ty_bigptr (Some z) Hz) E) as [Hw H1].
  intros [= <- <- <-]. split; [|done].
  inversion Hw as [|o Ho'| | | | | | | | | | | | | | |]; subst. destruct o; by constructor.
Qed.

Lemma keeps_bytearray n : keeps_type (TByteArray n) (decodeByteArray n).
Proof.
  intros old s err v s' Hs Ho. unfold decodeByteArray.
  inversion Ho as [| | | | | | |n' b Hl Hb| | | | | | | | |]; subst.
  destruct (stream_Kind s) as [[[k sz]|e] s1] eqn:E;
    destruct (stream_Kind_gives _ _ _ Hs E) as [Hs1 _].
  2: { by intros [= <- <- <-]. }
  destruct k.
  - destruct (zlen b =? 0); [by intros [= <- <- <-]|].
    destruct (1 <? zlen b); [by intros [= <- <- <-]|].
    destruct (stream_Uint s1) as [bv s2] eqn:Eu.
    destruct (stream_uint_gives 64 _ _ _ Hs1 Eu) as [Hs2 _].
    intros [= <- <- <-]. split; [|done]. constructor; [apply length_insert|].
    apply Forall_insert; [done|apply u8_ok].
  - repeat case_match; try (intros [= <- <- <-]; done);
      match goal with H : readFull _ _ = _ |- _ =>
        destruct (readFull_gives _ _ _ _ _ Hs1 Hb H) as (Hs2 & Hb2 & Hl2 & _) end;
      intros [= <- <- <-]; (split; [by constructor|done]).
  - by intros [= <- <- <-].
Qed.

Lemma slice_loop_typed fuel t ed i l s err l' s' :
  keeps_type t ed -> sok s -> Forall (typed t) l ->
  decodeSliceElems_loop fuel t ed i l s = (err, l', s') -> Forall (typed t) l' /\ sok s'.
Proof.
  intros Hed. revert i l s. induction fuel as [|fuel IH]; intros i l s Hs Hl;
    cbn [decodeSliceElems_loop].
  { by intros [= <- <- <-]. }
  set (l1 := if (length l <=? i)%nat then _ else _).
  assert (Hl1 : Forall (typed t) l1).
  { unfold l1. case_match; [|done]. apply Forall_app. split; [done|].
    constructor; [apply zero_of_typed|constructor]. }
  assert (Hold : typed t (nth i l1 (zero_of t))).
  { destruct (nth_in_or_default i l1 (zero_of t)) as [Hin| ->]; [|apply zero_of_typed].
    rewrite List.Forall_forall in Hl1. by apply Hl1. }
  destruct (ed _ s) as [[e v] s1] eqn:E. destruct (Hed _ _ _ _ _ Hs Hold E) as [Hv Hs1].
  destruct e as [e|]; [|apply IH; [done|by apply Forall_insert]].
  assert (Hcases : (match e with EOL => (None, take i l1, s1)
    | _ => (Some (addErrorContext e (index_ctx i)), <[i := v]> l1, s1) end) = (err, l', s') ->
    Forall (typed t) l' /\ sok s').
  { destruct e; intros [= <- <- <-]; (split; [|done]); first [by apply Forall_take|by apply Forall_insert]. }
  by destruct e.
Qed.

Lemma list_of_typed t v : typed (TSlice t) v -> Forall (typed t) (list_of v).
Proof. intros H. inversion H; by subst. Qed.

Lemma keeps_elems t ed : keeps_type t ed -> keeps_type (TSlice t) (decodeSliceElems t ed).
Proof.
  intros Hed old s err v s' Hs Ho. unfold decodeSliceElems.
  destruct (decodeSliceElems_loop _ _ _ _ _ _) as [[e l] s1] eqn:E. intros [= <- <- <-].
  eapply slice_loop_typed in E as [Hl Hs1]; [|done..|by apply list_of_typed].
  split; [by constructor|done].
Qed.

Lemma keeps_list_end wrap t v s err v' s' :
  sok s -> typed t v -> list_end wrap v s = (err, v', s') -> typed t v' /\ sok s'.
Proof.
  intros Hs Hv. unfold list_end. destruct (stream_ListEnd s) as [[[]|e] s1] eqn:E;
    destruct (stream_ListEnd_gives _ _ _ Hs E) as [Hs1 _]; by intros [= <- <- <-].
Qed.

Lemma keeps_list_slice t ed : keeps_type t ed -> keeps_type (TSlice t) (decodeListSlice t ed).
Proof.
  intros Hed old s err v s' Hs Ho. unfold decodeListSlice.
  destruct (stream_List s) as [[n|e] s1] eqn:E;
    destruct (stream_List_gives _ _ _ Hs E) as [Hs1 _].
  2: { by intros [= <- <- <-]. }
  destruct (n =? 0); [apply keeps_list_end; [done|by constructor]|].
  destruct (decodeSliceElems t ed old s1) as [[e2 w] s2] eqn:E2.
  destruct (keeps_elems t ed Hed _ _ _ _ _ Hs1 Ho E2) as [Hw Hs2].
  destruct e2; [by intros [= <- <- <-]|by apply keeps_list_end].
Qed.

Lemma array_loop_typed t ed i l s err short l' s' :
  keeps_type t ed -> sok s -> Forall (typed t) l ->
  decodeListArray_loop ed i l s = (err, short, l', s') ->
  Forall (typed t) l' /\ length l' = length l /\ sok s'.
Proof.
  intros Hed. revert i s err short l' s'.
  induction l as [|v l IH]; intros i s err short l' s' Hs Hl; cbn [decodeListArray_loop].
  { by intros [= <- <- <- <-]. }
  inversion Hl as [|? ? Hv Hl']; subst. destruct (ed v s) as [[e w] s1] eqn:E.
  destruct (Hed _ _ _ _ _ Hs Hv E) as [Hw Hs1]. destruct e as [e|].
  - intros Ex. assert (Hr : l' = w :: l /\ s' = s1) by (destruct e; by simplify_eq).
    destruct Hr as [-> ->]. split; [by constructor|done].
  - destruct (decodeListArray_loop ed (S i) l s1) as [[[e2 sh] l2] s2] eqn:E2.
    destruct (IH _ _ _ _ _ _ Hs1 Hl' E2) as (H2 & Hlen & Hs2). intros [= <- <- <- <-].
    split; [by constructor|]. cbn. by rewrite Hlen.
Qed.

Lemma keeps_list_array n t ed : keeps_type t ed -> keeps_type (TArray n t) (decodeListArray n t ed).
Proof.
  intros Hed old s err v s' Hs Ho. unfold decodeListArray.
  inversion Ho as [| | | | | | | | |n' t' l Hl Hf| | | | | | |]; subst.
  destruct (stream_List s) as [[m|e] s1] eqn:E;
    destruct (stream_List_gives _ _ _ Hs E) as [Hs1 _].
  2: { by intros [= <- <- <-]. }
  cbn [list_of]. destruct (decodeListArray_loop ed 0 l s1) as [[[e2 sh] l2] s2] eqn:E2.
  destruct (array_loop_typed t ed _ _ _ _ _ _ _ Hed Hs1 Hf E2) as (Hf2 & Hl2 & Hs2).
  assert (Ht2 : typed (TArray (length l) t) (VList l2)) by (by constructor).
  destruct e2; [by intros [= <- <- <-]|]. destruct sh; [by intros [= <- <- <-]|].
  by apply keeps_list_end.
Qed.

Lemma decodeFields_typed fs0 fs fields vs s err vs' s' :
  Forall (fun p => exists f, fs !! p.1 = Some f /\ keeps_type f.2 p.2) fields ->
  sok s -> Forall2 (fun f v => typed f.2 v) fs vs ->
  decodeFields fs0 fields vs s = (err, vs', s') ->
  Forall2 (fun (f : fmeta * gtype) v => typed f.2 v) fs vs' /\ sok s'.
Proof.
  intros Hf. revert vs s. induction Hf as [|[i d] fields (f & Hi & Hd) Hf IH]; intros vs s Hs Hv;
    cbn [decodeFields]; [by intros [= <- <- <-]|]. cbn [fst snd] in *.
  destruct (Forall2_lookup_l _ _ _ _ _ Hv Hi) as (v & Hvi & Ht). rewrite Hvi.
  destruct (d v s) as [[e w] s1] eqn:E. destruct (Hd _ _ _ _ _ Hs Ht E) as [Hw Hs1].
  assert (Hv' : Forall2 (fun (f : fmeta * gtype) v => typed f.2 v) fs (<[i := w]> vs)).
  { rewrite <- (list_insert_id fs i f Hi). by apply Forall2_insert. }
  destruct e as [e|]; [|by apply IH].
  intros Ex. assert (Hr : vs' = <[i := w]> vs /\ s' = s1) by (destruct e; by simplify_eq).
  by destruct Hr as [-> ->].
Qed.

Lemma keeps_ptr t ed : keeps_type t ed -> keeps_type (TPtr t) (ptrDecoder t ed).
Proof.
  intros Hed old s err v s' Hs Ho. unfold ptrDecoder.
  inversion Ho as [| | | | | | | | | | |t'|t' w Hw| | | |]; subst.
  - destruct (ed (zero_of t) s) as [[e w] s1] eqn:E.
    destruct (Hed _ _ _ _ _ Hs (zero_of_typed t) E) as [Hw Hs1].
    destruct e; intros [= <- <- <-]; (split; [by constructor|done]).
  - destruct (ed w s) as [[e w'] s1] eqn:E. destruct (Hed _ _ _ _ _ Hs Hw E) as [Hw' Hs1].
    intros [= <- <- <-]. split; [by constructor|done].
Qed.

Lemma keeps_optional t ed : keeps_type t ed -> keeps_type (TPtr t) (optionalPtrDecoder t ed).
Proof.
  intros Hed old s err v s' Hs Ho. unfold optionalPtrDecoder.
  destruct (stream_Kind s) as [[[k n]|e] s1] eqn:E;
    destruct (stream_Kind_gives _ _ _ Hs E) as [Hs1 _].
  2: { intros [= <- <- <-]. split; [constructor|by apply sok_rearm]. }
  case_match; [|by apply keeps_ptr].
  intros [= <- <- <-]. split; [constructor|by apply sok_rearm].
Qed.

Lemma keeps_iface fuel n : keeps_type (TIface n) (decodeInterface fuel n).
Proof.
  revert n. induction fuel as [|fuel IH]; intros n old s err v s' Hs Ho;
    destruct n as [|n]; cbn [decodeInterface]; try (by intros [= <- <- <-]).
  all: destruct (stream_Kind s) as [[[k n]|e] s1] eqn:E;
    destruct (stream_Kind_gives _ _ _ Hs E) as [Hs1 _]; [|by intros [= <- <- <-]].
  all: destruct k; try (by intros [= <- <- <-]).
  all: try (destruct (stream_Bytes s1) as [[b|e] s2] eqn:Eb;
    destruct (stream_Bytes_gives _ _ _ Hs1 Eb) as [Hs2 Hb]; intros [= <- <- <-];
    (split; [|done]); [constructor; by apply (Hb b eq_refl)|done]).
  destruct (decodeListSlice _ _ _ s1) as [[e l] s2] eqn:E2.
  destruct (keeps_list_slice _ _ (IH 0%nat) _ _ _ _ _ Hs1 (Ty_slice _ [] (Forall_nil_2 _)) E2)
    as [Hl Hs2].
  destruct e; intros [= <- <- <-]; [done|]. split; [|done].
  inversion Hl; subst. by constructor.
Qed.

Lemma keeps_struct fs fields :
  Forall (fun p => exists f, fs !! p.1 = Some f /\ keeps_type f.2 p.2) fields ->
  keeps_type (TStruct fs) (structDecoder fs fields).
Proof.
  intros Hf old s err v s' Hs Ho. unfold structDecoder.
  destruct (stream_List s) as [[m|e] s1] eqn:E;
    destruct (stream_List_gives _ _ _ Hs E) as [Hs1 _].
  2: { by intros [= <- <- <-]. }
  inversion Ho as [| | | | | | | | | |fs' l Hl| | | | | |]; subst. cbn [list_of].
  destruct (decodeFields fs fields l s1) as [[e2 vs] s2] eqn:E2.
  destruct (decodeFields_typed _ _ _ _ _ _ _ _ Hf Hs1 Hl E2) as [Hvs Hs2].
  destruct e2; [intros [= <- <- <-]|apply keeps_list_end]; try done; try by constructor.
  split; [by constructor|done].
Qed.

Lemma makeDecoder_typed fi t ts d : makeDecoder fi t ts = Ok d -> keeps_type t d.
Proof.
  revert ts d. induction t using gtype_ind'; intros ts d Hd; cbn in Hd;
    try discriminate Hd; try inv_bind.
  - apply (keeps_op bytes_ok stream_Raw VRaw id); [done|apply stream_Raw_gives|by constructor].
  - apply keeps_big.
  - apply keeps_big_noptr.
  - eapply (keeps_op _ (stream_uint b) VUint (fun e => wrapStreamError e _));
      [done|apply stream_uint_gives|by constructor].
  - eapply (keeps_op _ stream_Bool VBool (fun e => wrapStreamError e _));
      [done|apply stream_Bool_gives|by constructor].
  - eapply (keeps_op _ stream_Bytes VString (fun e => wrapStreamError e _));
      [done|apply stream_Bytes_gives|intros a []; by constructor].
  - eapply (keeps_op _ stream_Bytes VBytes (fun e => wrapStreamError e _));
      [done|apply stream_Bytes_gives|intros a []; by constructor].
  - apply keeps_bytearray.
  - destruct (tail ts); [apply keeps_elems|apply keeps_list_slice]; by eapply IHt.
  - apply keeps_list_array. by eapply IHt.
  - apply keeps_struct. by eapply (structFields_from_each (makeDecoder fi) keeps_type fs [] fs).
  - destruct (nilOK ts); [apply keeps_optional|apply keeps_ptr]; by eapply IHt.
  - apply keeps_iface.
Qed.

End Decoders.

End Bounded.

(** ** Property *)

Section Properties.
Context (type_name : gtype -> string).

Lemma stream_Decode_typed N t v s err tg s' :
  (1 <= N)%nat -> sok N s -> typed N t v -> stream_Decode type_name (PointerTo t v) s = (err, tg, s') ->
  exists v', tg = PointerTo t v' /\ typed N t v' /\ sok N s'.
Proof.
  intros HN Hs Hv. unfold stream_Decode.
  destruct (makeDecoder _ t no_tags) as [d|e] eqn:Ed; [|intros [= <- <- <-]; eauto].
  destruct (d v s) as [[o w] s1] eqn:E. intros [= <- <- <-].
  destruct (makeDecoder_typed N HN _ _ _ _ Ed _ _ _ _ _ Hs Hv E). eauto.
Qed.

Lemma NewStream_sok N b limit : bytes_ok b -> (length b <= N)%nat -> sok N (NewStream b limit).
Proof. by intros Hb Hl; split. Qed.

(** C25: decoding keeps the type of what it decodes into.  Whatever the input
    bytes are, with an error or without, the value pointed to is a value of its
    type afterwards: byte arrays and arrays of their length, integers within
    their width, structs with all their fields, and no big integer needs more
    bytes than a bound [N] on the length of the input.  This holds for [Decode], which
    leaves a stream that can be decoded from again, and for [DecodeBytes]. *)
Theorem Decode_typed N t v b (HN : (1 <= N)%nat) (Hb : bytes_ok b) (Hl : (length b <= N)%nat)
    (Hv : typed N t v) :
  (exists err v' s', Decode type_name b (PointerTo t v) = (err, PointerTo t v', s') /\
     typed N t v' /\ sok N s') /\
  (exists err v', DecodeBytes type_name b (PointerTo t v) = (err, PointerTo t v') /\ typed N t v').
Proof.
  unfold Decode, DecodeBytes. split.
  - destruct (stream_Decode _ _ _) as [[err tg] s'] eqn:E.
    destruct (stream_Decode_typed N _ _ _ _ _ _ HN (NewStream_sok N b 0 Hb Hl) Hv E) as (v' & -> & Ht & Hs).
    by exists err, v', s'.
  - destruct (stream_Decode _ _ _) as [[err tg] s'] eqn:E.
    destruct (stream_Decode_typed N _ _ _ _ _ _ HN (NewStream_sok N b (zlen b) Hb Hl) Hv E)
      as (v' & -> & Ht & Hs).
    destruct err as [e|]; [by exists (Some e), v'|]. case_match; by eexists _, v'.
Qed.

End Properties.

(** An array of two numbers of which the input has only the first: that one is
    stored, the second keeps its value. *)
Lemma Decode_typed_witness :
  let t := TArray 2 (TUint 8) in
  let old := VList [VUint 1; VUint 2] in
  let res := Decode (fun _ => "T"%string) [193; 7] (PointerTo t old) in
  (exists err v' s', res = (err, PointerTo t v', s') /\ typed 2 t v' /\ sok 2 s') /\
  match res with
  | (Some _, PointerTo _ (VList l), _) => l = [VUint 7; VUint 2]
  | _ => False
  end.
Proof.
  intros t old res. split; [|by vm_compute].
  apply (proj1 (Decode_typed (fun _ => "T"%string) 2 t old [193; 7] ltac:(lia)
    ltac:(by repeat constructor) ltac:(cbn; lia) ltac:(constructor; [done|by repeat constructor]))).
Defined.
