(* ===== verification/RlpCache.v ===== *)
(** * The type cache: [src/rlp/typecache.go]

    What is generated for a type is kept in a table with the type and its tags as
    the key.  The table is filled while generation goes on, with a dummy for
    the type that is being generated.  It makes no difference: looking a type up gives what
    [makeDecoder] and [makeWriter] generate for it.  The lock that is held during generation
    is left out. *)

From S2P Require Import Prelude RlpTypes RlpEncode RlpStream RlpDecode.
Local Open Scope Z_scope.

(** ** Keys *)

#[global] Instance fmeta_eq_dec : EqDecision fmeta.
Proof. solve_decision. Defined.
#[global] Instance tags_eq_dec : EqDecision tags.
Proof. solve_decision. Defined.

#[global] Instance gtype_eq_dec : EqDecision gtype.
Proof.
  unfold EqDecision. fix go 1. intros x y. unfold Decision.
  decide equality; try apply Z.eq_dec; try apply Nat.eq_dec; try apply String.string_dec.
  apply List.list_eq_dec. intros [m1 t1] [m2 t2].
  destruct (decide (m1 = m2)) as [->|Hm]; [|right; congruence].
  destruct (go t1 t2) as [->|Ht]; [by left|right; congruence].
Defined.

Definition typekey : Type := gtype * tags.

(** The dummy has neither function. *)
Record typeinfo := MkInfo { ti_decoder : option decoder; ti_writer : option writer }.
Definition dummy : typeinfo := MkInfo None None.

Definition typeCache : Type := typekey -> option typeinfo.
Definition set_key (k : typekey) (v : option typeinfo) (c : typeCache) : typeCache :=
  fun k' => if decide (k' = k) then v else c k'.

(** ** Generation *)

(** Operations on the table. *)
Definition CM (A : Type) : Type := typeCache -> result rlp_error A * typeCache.
#[global] Instance CM_ret : MRet CM := fun A a c => (Ok a, c).
#[global] Instance CM_bind : MBind CM := fun A B f m c =>
  match m c with (Ok a, c') => f a c' | (Err e, c') => (Err e, c') end.
Definition fails {A} (e : rlp_error) : CM A := fun c => (Err e, c).
Definition lift {A} (r : result rlp_error A) : CM A := fun c => (r, c).

Section Cache.
Context (fi : nat) (wi : writer).

(** Calling a function that is not there panics; it never happens. *)
Definition call_decoder (i : typeinfo) : decoder :=
  default (fun old s => (Some ErrReflect, old, s)) (ti_decoder i).
Definition call_writer (i : typeinfo) : writer :=
  default (fun _ _ => Err ErrReflect) (ti_writer i).

Section Generate.
Context (cached1 : gtype -> tags -> CM typeinfo).

Fixpoint structFields1_from (i : nat) (fs : list (fmeta * gtype)) : CM (list (nat * typeinfo)) :=
  match fs with
  | [] => mret []
  | (m, t) :: fs' =>
      if f_exported m then
        ts ← lift (parseStructTag m t (match fs' with [] => true | _ => false end));
        if ignored ts then structFields1_from (S i) fs'
        else
          info ← cached1 t ts;
          rest ← structFields1_from (S i) fs';
          mret ((i, info) :: rest)
      else structFields1_from (S i) fs'
  end.

(** [t] is a slice or an array. *)
Definition makeListDecoder1 (t : gtype) (ts : tags) : CM decoder :=
  match t with
  | TByteArray n => mret (decodeByteArray n)
  | TBytes => mret decodeByteSlice
  | TArray n t' => i ← cached1 t' no_tags; mret (decodeListArray n t' (call_decoder i))
  | TSlice t' =>
      i ← cached1 t' no_tags;
      mret (if tail ts then decodeSliceElems t' (call_decoder i)
            else decodeListSlice t' (call_decoder i))
  | _ => fails (ErrNotSerializable t)
  end.

Definition makeDecoder1 (t : gtype) (ts : tags) : CM decoder :=
  match t with
  | TRaw => mret decodeRawValue
  | TBigPtr => mret decodeBigInt
  | TBig => mret decodeBigIntNoPtr
  | TUint bits => mret (decodeUint bits)
  | TBool => mret decodeBool
  | TString => mret decodeString
  | TByteArray _ | TBytes | TArray _ _ | TSlice _ => makeListDecoder1 t ts
  | TStruct fs =>
      fields ← structFields1_from 0 fs;
      mret (structDecoder fs (prod_map id call_decoder <$> fields))
  | TPtr t' =>
      i ← cached1 t' no_tags;
      mret (if nilOK ts then optionalPtrDecoder t' (call_decoder i)
            else ptrDecoder t' (call_decoder i))
  | TIface n => mret (decodeInterface fi n)
  | TOther _ => fails (ErrNotSerializable t)
  end.

Definition makeWriter1 (t : gtype) (ts : tags) : CM writer :=
  match t with
  | TRaw => mret writeRawValue
  | TIface _ => mret wi
  | TBigPtr => mret writeBigIntPtr
  | TBig => mret writeBigIntNoPtr
  | TUint _ => mret writeUint
  | TBool => mret writeBool
  | TString => mret writeString
  | TBytes => mret writeBytes
  | TByteArray _ => mret writeByteArray
  | TSlice t' | TArray _ t' => i ← cached1 t' no_tags; mret (sliceWriter (call_writer i) ts)
  | TStruct fs =>
      fields ← structFields1_from 0 fs; mret (structWriter (prod_map id call_writer <$> fields))
  | TPtr t' => i ← cached1 t' no_tags; mret (ptrWriter t' (call_writer i))
  | TOther _ => fails (ErrNotSerializable t)
  end.

Definition genTypeInfo (t : gtype) (ts : tags) : CM typeinfo :=
  dec ← makeDecoder1 t ts;
  wr ← makeWriter1 t ts;
  mret (MkInfo (Some dec) (Some wr)).

End Generate.

Fixpoint cachedTypeInfo1 (t : gtype) (ts : tags) : CM typeinfo := fun c =>
  match c (t, ts) with
  | Some info => (Ok info, c)
  | None =>
      match genTypeInfo cachedTypeInfo1 t ts (set_key (t, ts) (Some dummy) c) with
      | (Err e, c') => (Err e, set_key (t, ts) None c')
      | (Ok info, c') => (Ok info, set_key (t, ts) (Some info) c')
      end
  end.

(** The first look at the table is under the read lock. *)
Definition cachedTypeInfo (t : gtype) (ts : tags) : CM typeinfo := fun c =>
  match c (t, ts) with
  | Some info => (Ok info, c)
  | None => cachedTypeInfo1 t ts c
  end.

(** ** What is generated without a table *)

Definition gen (t : gtype) (ts : tags) : result rlp_error typeinfo :=
  dec ← makeDecoder fi t ts;
  wr ← makeWriter wi t ts;
  Ok (MkInfo (Some dec) (Some wr)).

(** A type has a writer exactly when it has a decoder, and fails for the same reason. *)
Lemma same_errors t ts : result_rel eq (fun _ _ => True) (makeDecoder fi t ts) (makeWriter wi t ts).
Proof.
  revert ts. induction t using gtype_ind'; intros ts; cbn [makeDecoder makeWriter]; try done.
  - eapply result_rel_bind; [apply IHt|done].
  - eapply result_rel_bind; [apply IHt|done].
  - eapply result_rel_bind; [|done]. apply structFields_from_rel; done.
  - eapply result_rel_bind; [apply IHt|done].
Qed.

Lemma gen_decoder {A} t ts (k : decoder -> result rlp_error A) :
  (i ← gen t ts; k (call_decoder i)) = (d ← makeDecoder fi t ts; k d).
Proof.
  unfold gen. pose proof (same_errors t ts) as Hr.
  destruct (makeDecoder fi t ts), (makeWriter wi t ts); done.
Qed.
Lemma gen_writer {A} t ts (k : writer -> result rlp_error A) :
  (i ← gen t ts; k (call_writer i)) = (d ← makeWriter wi t ts; k d).
Proof.
  unfold gen. pose proof (same_errors t ts) as Hr.
  destruct (makeDecoder fi t ts), (makeWriter wi t ts); [done..|]. cbn in *. by rewrite Hr.
Qed.

(** The fields of a struct, with one of the two functions. *)
Lemma fields_map {I J} (g : gtype -> tags -> result rlp_error I) (h : gtype -> tags -> result rlp_error J)
    (f : I -> J) i fs :
  (forall A t ts (k : J -> result rlp_error A),
     mbind (M := result rlp_error) (fun i => k (f i)) (g t ts) = mbind (M := result rlp_error) k (h t ts)) ->
  mbind (M := result rlp_error) (fun l => Ok (prod_map id f <$> (l : list (nat * I)))) (structFields_from g i fs) =
    structFields_from h i fs.
Proof.
  intros Hg. revert i. induction fs as [|[m t] fs IH]; intros i; cbn [structFields_from]; [done|].
  destruct (f_exported m); [|apply IH]. destruct (parseStructTag _ _ _) as [ts|e]; cbn [mbind result_bind]; [|done].
  destruct (ignored ts); [apply IH|]. rewrite <- IH, <- (Hg _ t ts).
  destruct (g t ts) as [info|e]; cbn [mbind result_bind]; [|done].
  by destruct (structFields_from g (S i) fs).
Qed.

(** ** The table makes no difference *)

Fixpoint tsize (t : gtype) : nat :=
  S match t with
    | TSlice t' | TArray _ t' | TPtr t' => tsize t'
    | TStruct fs => foldr (fun f n => Nat.max (tsize f.2) n) 0%nat fs
    | _ => 0%nat
    end.

(** Entries for types of less than [n] are right; dummies are for larger types. *)
Definition right (n : nat) (c : typeCache) : Prop :=
  forall t ts i, (tsize t < n)%nat -> c (t, ts) = Some i -> gen t ts = Ok i.
(** Entries for types of at least [n] are as they were. *)
Definition frame (n : nat) (c c' : typeCache) : Prop :=
  forall k, (n <= tsize k.1)%nat -> c' k = c k.

Definition good {A} (n : nat) (m : CM A) (r : result rlp_error A) : Prop :=
  forall c, right n c -> exists c', m c = (r, c') /\ right n c' /\ frame n c c'.

Lemma good_lift {A} n (r : result rlp_error A) : good n (lift r) r.
Proof. intros c Hc. by exists c. Qed.
Lemma good_bind {A B} n (m : CM A) r (f : A -> CM B) g :
  good n m r -> (forall a, r = Ok a -> good n (f a) (g a)) -> good n (m ≫= f) (r ≫= g).
Proof.
  intros Hm Hf c Hc. destruct (Hm c Hc) as (c1 & E1 & R1 & F1). unfold mbind at 1, CM_bind. rewrite E1.
  destruct r as [a|e]; cbn [mbind result_bind]; [|by exists c1].
  destruct (Hf a eq_refl c1 R1) as (c2 & E2 & R2 & F2). exists c2. split; [done|]. split; [done|].
  intros k Hk. rewrite F2, F1 by done. done.
Qed.
Lemma good_eq {A} n (m : CM A) r r' : good n m r -> r = r' -> good n m r'.
Proof. by intros ? <-. Qed.

Section Children.
Context (n : nat) (cached1 : gtype -> tags -> CM typeinfo).
Definition known (t : gtype) : Prop := forall ts, good n (cached1 t ts) (gen t ts).

Lemma good_fields i fs :
  Forall (fun f => known f.2) fs ->
  good n (structFields1_from cached1 i fs) (structFields_from gen i fs).
Proof.
  intros Hfs. revert i. induction Hfs as [|[m t] fs Ht Hfs IH]; intros i;
    cbn [structFields1_from structFields_from]; [apply good_lift|].
  destruct (f_exported m); [|apply IH]. apply good_bind; [apply good_lift|]. intros ts _.
  destruct (ignored ts); [apply IH|]. apply good_bind; [apply Ht|]. intros info _.
  apply good_bind; [apply IH|]. intros l _. apply good_lift.
Qed.

(** The types that generation asks for. *)
Definition parts_known (t : gtype) : Prop :=
  match t with
  | TSlice t' | TArray _ t' | TPtr t' => known t'
  | TStruct fs => Forall (fun f => known f.2) fs
  | _ => True
  end.

Lemma good_decoder t ts : parts_known t -> good n (makeDecoder1 cached1 t ts) (makeDecoder fi t ts).
Proof.
  intros Hp. destruct t; cbn [makeDecoder1 makeListDecoder1 makeDecoder parts_known] in *; try apply good_lift.
  - eapply good_eq; [apply good_bind; [apply Hp|intros i _; apply good_lift]|].
    exact (gen_decoder t no_tags (fun ed => Ok (if tail ts then decodeSliceElems t ed else decodeListSlice t ed))).
  - eapply good_eq; [apply good_bind; [apply Hp|intros i _; apply good_lift]|].
    exact (gen_decoder t no_tags (fun ed => Ok (decodeListArray n0 t ed))).
  - eapply good_eq; [apply good_bind; [by apply good_fields|intros i _; apply good_lift]|].
    unfold structFields. rewrite <- (fields_map gen (makeDecoder fi) call_decoder) by (intros; apply gen_decoder).
    by destruct (structFields_from gen 0 fs).
  - eapply good_eq; [apply good_bind; [apply Hp|intros i _; apply good_lift]|].
    exact (gen_decoder t no_tags (fun ed => Ok (if nilOK ts then optionalPtrDecoder t ed else ptrDecoder t ed))).
Qed.

Lemma good_writer t ts : parts_known t -> good n (makeWriter1 cached1 t ts) (makeWriter wi t ts).
Proof.
  intros Hp. destruct t; cbn [makeWriter1 makeWriter parts_known] in *; try apply good_lift.
  - eapply good_eq; [apply good_bind; [apply Hp|intros i _; apply good_lift]|].
    exact (gen_writer t no_tags (fun ew => Ok (sliceWriter ew ts))).
  - eapply good_eq; [apply good_bind; [apply Hp|intros i _; apply good_lift]|].
    exact (gen_writer t no_tags (fun ew => Ok (sliceWriter ew ts))).
  - eapply good_eq; [apply good_bind; [by apply good_fields|intros i _; apply good_lift]|].
    unfold structFields. rewrite <- (fields_map gen (makeWriter wi) call_writer) by (intros; apply gen_writer).
    by destruct (structFields_from gen 0 fs).
  - eapply good_eq; [apply good_bind; [apply Hp|intros i _; apply good_lift]|].
    exact (gen_writer t no_tags (fun ew => Ok (ptrWriter t ew))).
Qed.

Lemma good_gen t ts : parts_known t -> good n (genTypeInfo cached1 t ts) (gen t ts).
Proof.
  intros Hp. unfold genTypeInfo, gen. apply good_bind; [by apply good_decoder|]. intros d _.
  apply good_bind; [by apply good_writer|]. intros w _. apply good_lift.
Qed.

End Children.

(** Storing the result in place of the dummy. *)
Lemma store_right t ts n c c2 (v : option typeinfo) :
  (tsize t < n)%nat -> right n c ->
  frame (tsize t) (set_key (t, ts) (Some dummy) c) c2 -> right (tsize t) c2 ->
  (forall i, v = Some i -> gen t ts = Ok i) ->
  right n (set_key (t, ts) v c2) /\ frame n c (set_key (t, ts) v c2).
Proof.
  intros Hn Hc F2 R2 Hv. split.
  - intros t' ts' i Hs. unfold set_key. case_decide as E.
    + injection E as -> ->. apply Hv.
    + destruct (decide (tsize t' < tsize t)%nat) as [Hlt|Hge]; [by apply R2|].
      rewrite F2 by (cbn; lia). unfold set_key. rewrite decide_False by done. by apply Hc.
  - intros k Hk. assert (k <> (t, ts)) by (intros ->; cbn in Hk; lia). unfold set_key.
    rewrite decide_False by done. rewrite F2 by lia. unfold set_key. by rewrite decide_False.
Qed.

Lemma cached1_step t n : (tsize t < n)%nat ->
  parts_known (tsize t) cachedTypeInfo1 t -> known n cachedTypeInfo1 t.
Proof.
  intros Hn Hp ts c Hc.
  assert (Hun : cachedTypeInfo1 t ts c = match c (t, ts) with
    | Some info => (Ok info, c)
    | None => match genTypeInfo cachedTypeInfo1 t ts (set_key (t, ts) (Some dummy) c) with
        | (Err e, c') => (Err e, set_key (t, ts) None c')
        | (Ok info, c') => (Ok info, set_key (t, ts) (Some info) c')
        end
    end) by (by destruct t).
  rewrite Hun. clear Hun. destruct (c (t, ts)) as [i|] eqn:E.
  - exists c. split; [|done]. by rewrite (Hc t ts i Hn E).
  - destruct (good_gen (tsize t) cachedTypeInfo1 t ts Hp (set_key (t, ts) (Some dummy) c)) as (c2 & E2 & R2 & F2).
    { intros t' ts' i Hs. unfold set_key. rewrite decide_False; [|intros [= -> _]; lia].
      apply Hc. lia. }
    rewrite E2. destruct (gen t ts) as [i|e] eqn:Eg; (eexists; split; [reflexivity|]);
      apply (store_right t ts n c c2); try done. by intros i' [= <-].
Qed.

Lemma tsize_field (f : fmeta * gtype) fs : f ∈ fs -> (tsize f.2 <= foldr (fun f n => Nat.max (tsize f.2) n) 0 fs)%nat.
Proof. induction 1 as [f fs|f f' fs Hin IH]; cbn [foldr]; lia. Qed.

Lemma cached1_good t n : (tsize t < n)%nat -> known n cachedTypeInfo1 t.
Proof.
  revert n. induction t using gtype_ind'; intros n1 Hk; (apply cached1_step; [done|]); cbn [parts_known tsize]; try done.
  - apply IHt. lia.
  - apply IHt. lia.
  - apply Forall_forall. intros f Hf. pose proof (tsize_field f fs Hf).
    rewrite Forall_forall in H. apply H; [done|]. lia.
  - apply IHt. lia.
Qed.

End Cache.

(** Looking types up, one after the other. *)
Fixpoint lookups (fi : nat) (wi : writer) (ks : list typekey) (c : typeCache)
    : list (result rlp_error typeinfo) * typeCache :=
  match ks with
  | [] => ([], c)
  | k :: ks =>
      let (r, c) := cachedTypeInfo fi wi k.1 k.2 c in
      let (rs, c) := lookups fi wi ks c in
      (r :: rs, c)
  end.

