(* ===== verification/RlpMethods.v ===== *)
(** * Types with methods of their own: the interfaces of [src/rlp]

    A type may implement [Encoder] and [Decoder] and so say itself how it is encoded.  [makeWriter] and
    [makeDecoder] then choose [writeEncoder], [decodeDecoder] and their variants for types whose
    pointers implement the interface.  What the methods have to
    satisfy is the class [RlpLaws]; from it alone lists of such values are proved to be written and read back. *)

From S2P Require Import Prelude RlpTypes RlpEncode RlpStream RlpDecode.
Local Open Scope Z_scope.

(** ** The interfaces *)

(** A Go type [A] with its representation as a value. *)
Class GoType (A : Type) := {
  go_type : gtype;
  go_val : A -> gval;
  of_val : gval -> option A }.
Arguments go_type A {_}.

(** The receiver is a pointer, nil or not. *)
Class Encoder (A : Type) := EncodeRLP : option A -> encbuf -> result rlp_error encbuf.

(** The receiver is never nil: [decodeDecoder] allocates it.  The error, the value after the
    call, and the stream. *)
Class Decoder (A : Type) := DecodeRLP : A -> Stream -> option rlp_error * A * Stream.

(** ** The writers and decoders for them *)

Section Methods.
Context {A : Type} `{GoType A, Encoder A, Decoder A}.

(** For the type of pointers to [A]. *)
Definition writeEncoder : writer := fun v w =>
  match v with
  | VPtr None => EncodeRLP None w
  | VPtr (Some v') => match of_val v' with Some a => EncodeRLP (Some a) w | None => Err ErrReflect end
  | _ => Err ErrReflect
  end.

(** For [A] itself; elements of slices have an address. *)
Definition writeEncoderNoPtr (canAddr : bool) : writer := fun v w =>
  if negb canAddr then Err (ErrUnadressable (go_type A))
  else match of_val v with Some a => EncodeRLP (Some a) w | None => Err ErrReflect end.

Definition decodeDecoderNoPtr : decoder := fun old s =>
  match of_val old with
  | None => (Some ErrReflect, old, s)
  | Some a => let '(err, a', s') := DecodeRLP a s in (err, go_val a', s')
  end.

Definition decodeDecoder : decoder := fun old s =>
  match old with
  | VPtr o =>
      let '(err, v, s') := decodeDecoderNoPtr (default (zero_of (go_type A)) o) s in (err, VPtr (Some v), s')
  | _ => (Some ErrReflect, old, s)
  end.

End Methods.

(** ** What the methods promise

    [wire a e]: the encoding of [a] is [e].  Decoding it over [old] gives [back old a]. *)
Class RlpLaws (A : Type) `{GoType A, Encoder A, Decoder A} := {
  wire : A -> bytes -> Prop;
  back : A -> A -> A;
  zero : A;
  law_val a : of_val (go_val a) = Some a;
  law_zero : of_val (zero_of (go_type A)) = Some zero;
  law_one a e : wire a e -> one_value e;
  law_enc a e w : wire a e -> zlen e < 2 ^ 64 -> exists w', EncodeRLP (Some a) w = Ok w' /\ emits w w' e;
  law_dec old a e rest s : wire a e -> kind s = None -> r s = e ++ rest -> room (zlen e) s ->
    exists s', DecodeRLP old s = (None, back old a, s') /\ adv (zlen e) s s' /\ kind s' = None;
  law_eol old s : at_eol s -> exists a, DecodeRLP old s = (Some EOL, a, eol_state s) }.

(** ** Slices of elements with a given writer and decoder *)

Lemma writeElems_emits ew vs es :
  Forall2 (writes ew) vs es -> forall w, exists w', writeElems ew vs w = Ok w' /\ emits w w' (concat es).
Proof.
  induction 1 as [|v e vs es Hv _ IH]; intros w; cbn [writeElems concat].
  - exists w. split; [done|apply emits_nil].
  - destruct (Hv w) as (w1 & -> & H1). cbn [mbind result_bind].
    destruct (IH w1) as (w2 & E2 & H2). exists w2. split; [done|]. by eapply emits_trans.
Qed.

Lemma sliceWriter_emits ew vs es :
  Forall2 (writes ew) vs es -> zlen (concat es) < 2 ^ 64 ->
  writes (sliceWriter ew no_tags) (VList vs) (rlp_list (concat es)).
Proof.
  intros Hes Hl w. cbn [sliceWriter no_tags tail]. apply writes_list; [done|]. by apply writeElems_emits.
Qed.

Section Elements.
Context (t : gtype) (ed : decoder).

(** At the end of a list the decoder reports it. *)
Hypothesis ed_eol : forall s, at_eol s -> exists v, ed (zero_of t) s = (Some EOL, v, eol_state s).

Lemma adv_end s s' n st : stack s = Listpos n n :: st ->
  r s' = r s -> remaining s' = remaining s -> limited s' = limited s -> stack s' = stack s -> adv 0 s s'.
Proof.
  intros Hst E1 E2 E3 E4. split; rewrite ?E1, ?E2, ?E3, ?E4; [done| |done|].
  - destruct (limited s); lia.
  - rewrite Hst. cbn. do 2 f_equal. lia.
Qed.

Lemma elems_loop es vs :
  Forall2 (fun e v => e <> [] /\ decodes ed (zero_of t) e v) es vs ->
  forall done rest s fuel st n, kind s = None -> r s = concat es ++ rest -> room (zlen (concat es)) s ->
  stack s = Listpos (n - zlen (concat es)) n :: st -> (length vs < fuel)%nat ->
  exists s', decodeSliceElems_loop fuel t ed (length done) done s = (None, done ++ vs, s') /\
    adv (zlen (concat es)) s s' /\ kind s' = None.
Proof.
  induction 1 as [|e v es vs [Hne Hv] _ IH]; intros done rest s fuel st n Hk Hr Hroom Hst Hf;
    (destruct fuel as [|fuel]; [lia|]); cbn [concat decodeSliceElems_loop] in *; rewrite Nat.leb_refl.
  - change (zlen []) with 0 in *. rewrite Z.sub_0_r in Hst. rewrite app_nth2, Nat.sub_diag by lia. cbn [nth].
    destruct (ed_eol s) as [v ->]; [split; eauto|].
    rewrite app_nil_r, take_app_length. eexists. split; [done|]. split; [by eapply adv_end|done].
  - destruct (Hv (concat es ++ rest) s Hk) as (s1 & E1 & A1 & K1).
    { by rewrite app_assoc. }
    { eapply room_le; [|exact Hroom]. rewrite zlen_app. lia. }
    destruct (behind_elem e (concat es) rest s s1 st n Hr Hroom Hst A1) as (R1 & Rm1 & S1 & Hadv).
    destruct (IH (done ++ [v]) rest s1 fuel st n K1 R1 Rm1 S1) as (s2 & E2 & A2 & K2); [cbn in Hf; lia|].
    exists s2. split; [|by auto]. rewrite app_nth2, Nat.sub_diag by lia. cbn [nth]. rewrite E1.
    rewrite insert_app_r_alt, Nat.sub_diag by lia. cbn [list_insert].
    rewrite length_app, Nat.add_comm in E2. cbn [length Nat.add] in E2. by rewrite <- app_assoc in E2.
Qed.

Lemma elems_length es vs :
  Forall2 (fun e v => e <> [] /\ decodes ed (zero_of t) e v) es vs -> (length vs <= length (concat es))%nat.
Proof.
  induction 1 as [|e v es vs [Hne _] _ IH]; cbn; [done|]. rewrite length_app.
  destruct e; [done|]. cbn. lia.
Qed.

Lemma decodeListSlice_decodes es vs :
  Forall2 (fun e v => e <> [] /\ decodes ed (zero_of t) e v) es vs ->
  decodes (decodeListSlice t ed) (VList []) (rlp_list (concat es)) (VList vs).
Proof.
  intros Hes rest s Hk Hr Hroom. pose proof (elems_length es vs Hes) as Hlen. unfold decodeListSlice.
  destruct (stream_List_reads (concat es) rest s Hk Hr Hroom) as (s1 & E1 & K1 & R1 & Rm1 & (st & S1) & Hend).
  rewrite E1. destruct (Z.eqb_spec (zlen (concat es)) 0) as [H0|H0].
  - destruct (Hend s1) as (s3 & E3 & A3 & K3).
    { rewrite H0 in *. by eapply adv_end. }
    assert (vs = []) as -> by (destruct vs; [done|cbn in Hlen; lia]).
    unfold list_end. rewrite E3. by exists s3.
  - destruct (elems_loop es vs Hes [] rest s1 (loop_fuel s1) st (zlen (concat es)) K1 R1 Rm1) as (s2 & E2 & A2 & K2).
    { by rewrite Z.sub_diag. }
    { unfold loop_fuel. rewrite R1, length_app. lia. }
    unfold decodeSliceElems. cbn [list_of]. cbn [length app] in E2. rewrite E2.
    destruct (Hend s2 A2) as (s3 & E3 & A3 & K3). unfold list_end. rewrite E3. by exists s3.
Qed.

End Elements.

(** ** Slices of values with methods, by the laws alone *)

Section Slices.
Context {A : Type} `{RlpLaws A}.

Lemma writeEncoder_writes a e : wire a e -> zlen e < 2 ^ 64 -> writes writeEncoder (VPtr (Some (go_val a))) e.
Proof. intros Ha Hl w. cbn [writeEncoder]. rewrite law_val. by apply law_enc. Qed.

Lemma writeEncoderNoPtr_writes a e : wire a e -> zlen e < 2 ^ 64 -> writes (writeEncoderNoPtr true) (go_val a) e.
Proof. intros Ha Hl w. unfold writeEncoderNoPtr. cbn [negb]. rewrite law_val. by apply law_enc. Qed.

Lemma decodeDecoderNoPtr_decodes old a e : wire a e -> decodes decodeDecoderNoPtr (go_val old) e (go_val (back old a)).
Proof.
  intros Ha rest s Hk Hr Hroom. unfold decodeDecoderNoPtr. rewrite law_val.
  destruct (law_dec old a e rest s Ha Hk Hr Hroom) as (s' & -> & HA & HK). by exists s'.
Qed.

Lemma decodeDecoderNoPtr_zero a e : wire a e -> decodes decodeDecoderNoPtr (zero_of (go_type A)) e (go_val (back zero a)).
Proof.
  intros Ha rest s Hk Hr Hroom. unfold decodeDecoderNoPtr. rewrite law_zero.
  destruct (law_dec zero a e rest s Ha Hk Hr Hroom) as (s' & -> & HA & HK). by exists s'.
Qed.

Lemma decodeDecoder_zero a e : wire a e -> decodes decodeDecoder (VPtr None) e (VPtr (Some (go_val (back zero a)))).
Proof.
  intros Ha rest s Hk Hr Hroom. destruct (decodeDecoderNoPtr_zero a e Ha rest s Hk Hr Hroom) as (s' & E & HA & HK).
  exists s'. unfold decodeDecoder. cbn [default]. by rewrite E.
Qed.

Lemma decodeDecoderNoPtr_eol s : at_eol s ->
  exists v, decodeDecoderNoPtr (zero_of (go_type A)) s = (Some EOL, v, eol_state s).
Proof.
  intros Hs. unfold decodeDecoderNoPtr. rewrite law_zero. destruct (law_eol zero s Hs) as [a ->]. by eexists.
Qed.

Lemma decodeDecoder_eol s : at_eol s -> exists v, decodeDecoder (VPtr None) s = (Some EOL, v, eol_state s).
Proof.
  intros Hs. unfold decodeDecoder. cbn [default]. destruct (decodeDecoderNoPtr_eol s Hs) as [v ->]. by eexists.
Qed.

(** Every element is shorter than the list. *)
Lemma wires_each l es : Forall2 wire l es -> zlen (concat es) < 2 ^ 64 ->
  Forall2 (fun a e => wire a e /\ zlen e < 2 ^ 64) l es.
Proof.
  induction 1 as [|a e l es Ha _ IH]; cbn; intros Hl; constructor.
  - split; [done|]. rewrite zlen_app in Hl. lia.
  - apply IH. rewrite zlen_app in Hl. lia.
Qed.

(** A slice of pointers to [A] and a slice of [A]: what is written, and that it is read back. *)
Lemma slice_of_pointers l es : Forall2 wire l es -> zlen (concat es) < 2 ^ 64 ->
  writes (sliceWriter writeEncoder no_tags) (VList ((fun a => VPtr (Some (go_val a))) <$> l)) (rlp_list (concat es)) /\
  decodes (decodeListSlice (TPtr (go_type A)) decodeDecoder) (VList []) (rlp_list (concat es))
    (VList ((fun a => VPtr (Some (go_val (back zero a)))) <$> l)).
Proof.
  intros Hw Hl. split.
  - apply sliceWriter_emits; [|done]. apply Forall2_fmap_l.
    eapply Forall2_impl; [by apply wires_each|]. intros a e [Ha He]. by apply writeEncoder_writes.
  - apply decodeListSlice_decodes; [apply decodeDecoder_eol|]. apply Forall2_fmap_r, Forall2_flip.
    eapply Forall2_impl; [exact Hw|]. intros a e Ha. split; [by eapply one_value_nonempty, law_one|].
    by apply decodeDecoder_zero.
Qed.

Lemma slice_of_values l es : Forall2 wire l es -> zlen (concat es) < 2 ^ 64 ->
  writes (sliceWriter (writeEncoderNoPtr true) no_tags) (VList (go_val <$> l)) (rlp_list (concat es)) /\
  decodes (decodeListSlice (go_type A) decodeDecoderNoPtr) (VList []) (rlp_list (concat es))
    (VList ((fun a => go_val (back zero a)) <$> l)).
Proof.
  intros Hw Hl. split.
  - apply sliceWriter_emits; [|done]. apply Forall2_fmap_l.
    eapply Forall2_impl; [by apply wires_each|]. intros a e [Ha He]. by apply writeEncoderNoPtr_writes.
  - apply decodeListSlice_decodes; [apply decodeDecoderNoPtr_eol|]. apply Forall2_fmap_r, Forall2_flip.
    eapply Forall2_impl; [exact Hw|]. intros a e Ha. split; [by eapply one_value_nonempty, law_one|].
    by apply decodeDecoderNoPtr_zero.
Qed.

End Slices.

(** ** A method that encodes and decodes another type in place of its own

    The way in which methods are written: [Encode] of a value of an auxiliary type, and
    [Stream.Decode] into one. *)

Lemma encbuf_encode_writes t v e :
  serializable t = true -> val_ok v -> rlp_enc t no_tags v e -> zlen e < 2 ^ 64 ->
  forall w, exists w', encbuf_encode t v w = Ok w' /\ emits w w' e.
Proof.
  intros Hs Hok Henc Hl w. unfold encbuf_encode.
  rewrite <- (makeWriter_serializable (writeInterface (S (iface_depth v))) t no_tags) in Hs.
  destruct (makeWriter _ t no_tags) as [wr|] eqn:E; [|done]. cbn [mbind result_bind].
  by apply (proj1 rlp_enc_writes_all t no_tags v e Henc (iface_depth v) wr).
Qed.

Section StreamDecode.
Context (type_name : gtype -> string).

Lemma stream_Decode_decodes t v e rest s :
  serializable t = true -> rt_ok t no_tags v -> rlp_enc t no_tags v e ->
  kind s = None -> r s = e ++ rest -> room (zlen e) s ->
  exists s', stream_Decode type_name (PointerTo t (zero_of t)) s = (None, PointerTo t v, s') /\
    adv (zlen e) s s' /\ kind s' = None.
Proof.
  intros Hs Hrt He Hk Hr Hroom.
  destruct (makeDecoder_ok (loop_fuel s) t no_tags Hs) as [d Hd].
  destruct (proj1 rlp_enc_decodes_all t no_tags v e He Hrt) as [_ Hdec].
  assert (Ht : is_tail t no_tags = false) by (by destruct t). rewrite Ht in Hdec.
  destruct (Hdec (loop_fuel s) d) with (rest := rest) (s := s) as (s' & Es & A & K); [|done..|].
  - unfold loop_fuel. rewrite Hr, length_app. lia.
  - exists s'. unfold stream_Decode. by rewrite Hd, Es.
Qed.

Lemma stream_Decode_eol t s : serializable t = true -> decodable t = true -> at_eol s ->
  exists v, stream_Decode type_name (PointerTo t (zero_of t)) s = (Some EOL, PointerTo t v, eol_state s).
Proof.
  intros Hs Hd Heol. destruct (makeDecoder_ok (loop_fuel s) t no_tags Hs) as [d E].
  destruct (makeDecoder_eol t (loop_fuel s) d (zero_of t) s E Hd Heol) as [v Ev].
  exists v. unfold stream_Decode. by rewrite E, Ev.
Qed.

End StreamDecode.

(** ** From an empty buffer, and of a whole input *)

Lemma fresh_writes wr v e : writes wr v e -> exists w, wr v (Encbuf [] [] 0) = Ok w /\ toBytes w = e.
Proof.
  intros H. destruct (H (Encbuf [] [] 0)) as (w & E & Hem). exists w. split; [done|]. by apply toBytes_emits.
Qed.

Lemma fresh_decodes d old e v : decodes d old e v -> zlen e < 2 ^ 64 ->
  exists s', d old (NewStream e (zlen e)) = (None, v, s') /\ r s' = [].
Proof.
  intros H Hl. destruct (H [] (NewStream e (zlen e)) eq_refl) as (s' & E & A & _).
  - by rewrite app_nil_r.
  - pose proof (NewStream_room e [] (zlen e) Hl) as Hr. rewrite app_nil_r in Hr. auto.
  - exists s'. split; [done|]. rewrite (adv_r _ _ _ A). cbn. by rewrite Nat2Z.id, drop_all.
Qed.

Lemma rlp_list_fits p : zlen (rlp_list p) < 2 ^ 64 -> zlen p < 2 ^ 64.
Proof. pose proof (length_rlp_list p) as H. intros Hl. lia. Qed.
