(* ===== verification/RlpErrors.v ===== *)
(** * The errors of the decoder: [src/rlp/decode.go]

    Their texts, and that the text of an error names the place in the type that is decoded into. *)

From stdpp Require Import pretty.
From S2P Require Import Prelude RlpTypes RlpEncode RlpRaw RlpStream RlpDecode.
Local Open Scope Z_scope.
Local Open Scope string_scope.

(** The loop of [Error]: the context from the last element to the first. *)
Fixpoint join_context (ctx : list string) : string :=
  match ctx with [] => "" | c :: ctx => join_context ctx +:+ c end.

(** [Error] of a [decodeError]; [type_name] prints a type. *)
Definition decodeError_Error (type_name : gtype -> string) (msg : string) (typ : gtype) (ctx : list string) : string :=
  "rlp: " +:+ msg +:+ " for " +:+ type_name typ +:+
  match ctx with [] => "" | _ => ", decoding into " +:+ join_context ctx end.

(** The texts of the errors that are values of the package. *)
Definition rlp_errors_New (err : rlp_error) : option string :=
  match err with
  | EOL => Some "rlp: end of list"
  | ErrExpectedString => Some "rlp: expected String or Byte"
  | ErrExpectedList => Some "rlp: expected List"
  | ErrCanonInt => Some "rlp: non-canonical integer format"
  | ErrCanonSize => Some "rlp: non-canonical size information"
  | ErrElemTooLarge => Some "rlp: element is larger than containing list"
  | ErrValueTooLarge => Some "rlp: value size exceeds available input length"
  | ErrMoreThanOneValue => Some "rlp: input contains more than one value"
  | errNotInList => Some "rlp: call of ListEnd outside of any list"
  | errNotAtEOL => Some "rlp: call of ListEnd not positioned at EOL"
  | errUintOverflow => Some "rlp: uint overflow"
  | errNoPointer => Some "rlp: interface given to Decode must be a pointer"
  | errDecodeIntoNil => Some "rlp: pointer given to Decode must not be nil"
  | _ => None
  end.

Definition Kind_String (k : Kind) : string :=
  match k with KByte => "Byte" | KString => "String" | KList => "List" end.

(** ** Places in a type *)

(** The path [p] of fields and elements leads from a type to a part of it.  Pointers do not show in a path; a number is decoded
    through its address, and an interface as a slice of interfaces. *)
Inductive leads : gtype -> list string -> gtype -> Prop :=
| Leads_here t : leads t [] t
| Leads_field fs i f p u : fs !! i = Some f -> leads f.2 p u -> leads (TStruct fs) (("." +:+ f_name f.1) :: p) u
| Leads_slice t i p u : leads t p u -> leads (TSlice t) (index_ctx i :: p) u
| Leads_array n t i p u : leads t p u -> leads (TArray n t) (index_ctx i :: p) u
| Leads_ptr t p u : leads t p u -> leads (TPtr t) p u
| Leads_big : leads TBig [] TBigPtr
| Leads_iface p u : leads (TSlice (TIface 0)) p u -> leads (TIface 0) p u.

Local Close Scope string_scope.

(** ** Streams have no errors of this kind *)

Definition plain (e : rlp_error) : Prop := match e with DecodeError _ _ _ => False | _ => True end.
Definition sane (s : Stream) : Prop := forall e, kinderr s = Some e -> plain e.

Definition emits {A} (m : SM A) : Prop := forall s x s', sane s -> m s = (x, s') -> sane s' /\ forall e, x = Err e -> plain e.

Lemma emits_ret {A} (a : A) : emits (mret a : SM A).
Proof. by intros s x s' Hs [= <- <-]. Qed.
Lemma emits_fail {A} e : plain e -> emits (sfail e : SM A).
Proof. intros He s x s' Hs [= <- <-]. split; [done|]. by intros e' [= <-]. Qed.
Lemma emits_bind {A B} (m : SM A) (f : A -> SM B) : emits m -> (forall a, emits (f a)) -> emits (m ≫= f).
Proof.
  intros Hm Hf s x s' Hs. unfold mbind, SM_bind. destruct (m s) as [[a|e] s1] eqn:E.
  - by apply Hf, (Hm _ _ _ Hs E).
  - intros [= <- <-]. destruct (Hm _ _ _ Hs E) as [H1 H2]. split; [done|]. intros e' [= <-]. by apply H2.
Qed.

Lemma willRead_emits n : emits (willRead n).
Proof.
  intros s x s' Hs E. unfold willRead, willRead_limit in E.
  repeat case_match; injection E as <- <-; (split; [exact Hs|]); intros e [= <-]; done.
Qed.

Lemma readFull_emits buf s err b s' : sane s -> readFull buf s = (err, b, s') -> sane s' /\ forall e, err = Some e -> plain e.
Proof.
  intros Hs. unfold readFull. destruct (willRead (zlen buf) s) as [[[]|e] s1] eqn:E; destruct (willRead_emits _ _ _ _ Hs E) as [H1 H2].
  - case_match; intros [= <- <- <-]; (split; [exact H1|]); [done|]. by intros e [= <-].
  - intros [= <- <- <-]. split; [done|]. intros e' [= <-]. by apply H2.
Qed.

Lemma readFresh_emits n : emits (readFresh n).
Proof.
  intros s x s' Hs. unfold readFresh. destruct (readFull _ s) as [[err b] s1] eqn:E. destruct (readFull_emits _ _ _ _ _ Hs E) as [H1 H2].
  destruct err; intros [= <- <-]; (split; [done|]); [|done]. intros e [= <-]. by apply H2.
Qed.

Lemma readByte_emits : emits readByte.
Proof.
  intros s x s' Hs. unfold readByte. destruct (willRead 1 s) as [[[]|e] s1] eqn:E; destruct (willRead_emits _ _ _ _ Hs E) as [H1 H2].
  - destruct (r s1); intros [= <- <-]; (split; [exact H1|]); by intros e [= <-].
  - intros [= <- <-]. split; [done|]. intros e' [= <-]. by apply H2.
Qed.

Lemma readUint_emits n : emits (readUint n).
Proof.
  unfold readUint. case_match; [by intros s x s' Hs [= <- <-]|]. case_match; [apply readByte_emits|].
  apply emits_bind; [apply readFresh_emits|]. intros b. repeat case_match; first [apply emits_ret|by apply emits_fail].
Qed.

Lemma readKind_emits s k sz err s' : sane s -> stream_readKind s = (k, sz, err, s') -> sane s' /\ forall e, err = Some e -> plain e.
Proof.
  intros Hs. unfold stream_readKind. destruct (readByte s) as [[b|e] s1] eqn:E; destruct (readByte_emits _ _ _ Hs E) as [H1 H2].
  - assert (Hl : forall s0 k0 n, sane s0 -> (match readUint n s0 with
      | (Ok size, s'') => (k0, size, if size <? 56 then Some ErrCanonSize else None, s'')
      | (Err e, s'') => (k0, 0, Some e, s'') end) = (k, sz, err, s') -> sane s' /\ forall e, err = Some e -> plain e).
    { intros s0 k0 n H0. destruct (readUint n s0) as [[z|e] s2] eqn:E2; destruct (readUint_emits n _ _ _ H0 E2) as [H3 H4].
      - intros [= <- <- <- <-]. split; [done|]. case_match; by intros e [= <-].
      - intros [= <- <- <- <-]. split; [done|]. intros e' [= <-]. by apply H4. }
    cbv zeta. repeat (destruct (b <? _)); try (by apply Hl); intros [= <- <- <- <-]; (split; [exact H1|done]).
  - intros [= <- <- <- <-]. split; [done|]. pose proof (H2 e eq_refl) as He. intros e' [= <-]. destruct (stack s1); [|done]. by destruct e.
Qed.

Lemma Kind_emits : emits stream_Kind.
Proof.
  intros s x s' Hs. unfold stream_Kind.
  assert (Ha : forall s0, sane s0 -> (match kinderr s0 with
    | Some e => (Err e, s0) | None => (Ok (default KByte (kind s0), ssize s0), s0) end) = (x, s') ->
    sane s' /\ forall e, x = Err e -> plain e).
  { intros s0 H0. destruct (kinderr s0) as [e|] eqn:E; intros [= <- <-]; (split; [done|]); [|done]. intros e' [= <-]. by apply H0. }
  destruct (kind s) eqn:Ek; [rewrite <- Ek; by apply Ha|]. cbv zeta. set (s0 := MkStream _ _ _ _ _ _ _ _). assert (H0 : sane s0) by done.
  case_match; [by intros [= <- <-]; split; [|intros e [= <-]]|].
  destruct (stream_readKind s0) as [[[k sz] err] s1] eqn:E. destruct (readKind_emits _ _ _ _ _ H0 E) as [H1 H2].
  apply Ha. intros e. cbn [kinderr]. destruct err as [e1|]; [intros [= <-]; by apply H2|].
  repeat case_match; by intros [= <-].
Qed.

Lemma takeByte_emits : emits takeByte.
Proof. by intros s x s' Hs [= <- <-]. Qed.

Lemma Bytes_emits : emits stream_Bytes.
Proof.
  unfold stream_Bytes. apply emits_bind; [apply Kind_emits|]. intros [[] size]; [apply takeByte_emits| |by apply emits_fail].
  apply emits_bind; [apply readFresh_emits|]. intros b. case_match; [by apply emits_fail|apply emits_ret].
Qed.

Lemma Raw_emits : emits stream_Raw.
Proof.
  unfold stream_Raw. apply emits_bind; [apply Kind_emits|].
  intros [[] size]; [apply takeByte_emits|..]; (apply emits_bind; [apply readFresh_emits|]); intros b; apply emits_ret.
Qed.

Lemma uint_emits bits : emits (stream_uint bits).
Proof.
  intros s x s' Hs. unfold stream_uint. destruct (stream_Kind s) as [[[k size]|e] s1] eqn:E; destruct (Kind_emits _ _ _ Hs E) as [H1 H2].
  2: { intros [= <- <-]. split; [done|]. intros e' [= <-]. by apply H2. }
  destruct k; repeat case_match; intros [= <- <-]; subst; try (split; [exact H1|by intros ? [= <-]]).
  all: match goal with Hu : readUint _ _ = _ |- _ => destruct (readUint_emits _ _ _ _ H1 Hu) as [P3 P4] end;
    (split; [exact P3|]); intros e' [= <-]; first [done|by apply P4].
Qed.

Lemma Bool_emits : emits stream_Bool.
Proof.
  unfold stream_Bool. apply emits_bind; [apply uint_emits|]. intros n. repeat case_match; first [apply emits_ret|by apply emits_fail].
Qed.

Lemma List_emits : emits stream_List.
Proof.
  intros s x s' Hs. unfold stream_List. destruct (stream_Kind s) as [[[k size]|e] s1] eqn:E; destruct (Kind_emits _ _ _ Hs E) as [H1 H2].
  - destruct k; intros [= <- <-]; (split; [exact H1|]); by intros e [= <-].
  - intros [= <- <-]. split; [done|]. intros e' [= <-]. by apply H2.
Qed.

Lemma ListEnd_emits : emits stream_ListEnd.
Proof.
  intros s x s' Hs. unfold stream_ListEnd. repeat case_match; intros [= <- <-]; (split; [exact Hs|]); by intros e [= <-].
Qed.

(** ** Decoders *)

(** The context of an error is the path to the place, backwards. *)
Definition names_place (t : gtype) (err : option rlp_error) : Prop :=
  forall msg typ ctx, err = Some (DecodeError msg typ ctx) -> leads t (rev ctx) typ.

Definition reports (t : gtype) (d : decoder) : Prop := forall old s err v s',
  sane s -> d old s = (err, v, s') -> sane s' /\ names_place t err.

Lemma place_none t : names_place t None.
Proof. done. Qed.
Lemma place_plain t e : plain e -> names_place t (Some e).
Proof. intros He msg typ ctx [= ->]. done. Qed.
Lemma place_here t msg : names_place t (Some (DecodeError msg t [])).
Proof. intros msg' typ ctx [= _ <- <-]. constructor. Qed.
Lemma place_wrap t e : plain e -> names_place t (Some (wrapStreamError e t)).
Proof. intros He. destruct e; try done; first [apply place_here|by apply place_plain]. Qed.
Lemma place_context t u e c : names_place u (Some e) -> (forall p w, leads u p w -> leads t (c :: p) w) -> names_place t (Some (addErrorContext e c)).
Proof.
  intros He Hl msg typ ctx. destruct e; try done. cbn. intros [= <- <- <-]. rewrite rev_app_distr. cbn. by apply Hl, (He msg0).
Qed.
Lemma place_lift t u e : names_place u e -> (forall p w, leads u p w -> leads t p w) -> names_place t e.
Proof. intros He Hl msg typ ctx E. by apply Hl, (He msg). Qed.

(** A decoder that stores what a stream operation returns. *)
Lemma reports_op {A} (m : SM A) (f : A -> gval) (wrap : rlp_error -> rlp_error) t d :
  (forall old s, d old s = match m s with (Err err, s') => (Some (wrap err), old, s') | (Ok x, s') => (None, f x, s') end) ->
  emits m -> (forall e, plain e -> names_place t (Some (wrap e))) -> reports t d.
Proof.
  intros Hd Hm Hw old s err v s' Hs. rewrite Hd. destruct (m s) as [[a|e] s1] eqn:E; destruct (Hm _ _ _ Hs E) as [H1 H2];
    intros [= <- <- <-]; (split; [done|]); [apply place_none|]. by apply Hw, H2.
Qed.

Lemma reports_big : reports TBigPtr decodeBigInt.
Proof.
  intros old s err v s' Hs. unfold decodeBigInt. destruct (stream_Bytes s) as [[b|e] s1] eqn:E; destruct (Bytes_emits _ _ _ Hs E) as [H1 H2].
  - repeat case_match; intros [= <- <- <-]; (split; [done|]); first [apply place_none|apply (place_wrap TBigPtr ErrCanonInt); exact I].
  - intros [= <- <- <-]. split; [done|]. by apply place_wrap, H2.
Qed.

Lemma reports_big_noptr : reports TBig decodeBigIntNoPtr.
Proof.
  intros old s err v s' Hs. unfold decodeBigIntNoPtr. destruct (decodeBigInt _ s) as [[e w] s1] eqn:E.
  destruct (reports_big _ _ _ _ _ Hs E) as [H1 H2]. intros [= <- <- <-]. split; [done|]. apply (place_lift _ TBigPtr); [done|].
  intros p u Hp. inversion Hp; subst. constructor.
Qed.

Lemma reports_bytearray n : reports (TByteArray n) (decodeByteArray n).
Proof.
  intros old s err v s' Hs. unfold decodeByteArray. cbv zeta.
  destruct (stream_Kind s) as [[[k size]|e] s1] eqn:E; destruct (Kind_emits _ _ _ Hs E) as [H1 H2].
  2: { intros [= <- <- <-]. split; [done|]. by apply place_plain, H2. }
  destruct k.
  - destruct (_ =? 0); [intros [= <- <- <-]; split; [done|apply place_here]|].
    destruct (1 <? _); [intros [= <- <- <-]; split; [done|apply place_here]|].
    destruct (stream_Uint s1) as [x s2] eqn:Eu. intros [= <- <- <-]. split; [apply (uint_emits _ _ _ _ H1 Eu)|apply place_none].
  - destruct (_ <? size); [intros [= <- <- <-]; split; [done|apply place_here]|].
    destruct (size <? _); [intros [= <- <- <-]; split; [done|apply place_here]|].
    destruct (readFull _ s1) as [[e b] s2] eqn:Eu. destruct (readFull_emits _ _ _ _ _ H1 Eu) as [H3 H4].
    destruct e as [e|]; [intros [= <- <- <-]; split; [done|by apply place_plain, H4]|].
    destruct (_ && _); intros [= <- <- <-]; (split; [done|]); [by apply (place_wrap (TByteArray n) ErrCanonSize)|apply place_none].
  - intros [= <- <- <-]. split; [done|]. by apply (place_wrap (TByteArray n) ErrExpectedString).
Qed.

Lemma reports_list_end wrap t v s err v' s' : (forall e, plain e -> names_place t (Some (wrap e))) -> sane s ->
  list_end wrap v s = (err, v', s') -> sane s' /\ names_place t err.
Proof.
  intros Hw Hs. unfold list_end. destruct (stream_ListEnd s) as [[[]|e] s1] eqn:E; destruct (ListEnd_emits _ _ _ Hs E) as [H1 H2];
    intros [= <- <- <-]; (split; [done|]); [apply place_none|]. by apply Hw, H2.
Qed.

Lemma reports_slice_loop fuel t ed i l s err l' s' : reports t ed -> sane s ->
  decodeSliceElems_loop fuel t ed i l s = (err, l', s') -> sane s' /\ names_place (TSlice t) err.
Proof.
  intros Hed. revert i l s. induction fuel as [|fuel IH]; intros i l s Hs; cbn [decodeSliceElems_loop].
  { intros [= <- <- <-]. split; [done|]. by apply place_plain. }
  set (l1 := if (length l <=? i)%nat then _ else _). destruct (ed _ s) as [[e v] s1] eqn:E.
  destruct (Hed _ _ _ _ _ Hs E) as [H1 H2]. destruct e as [e|]; [|by apply IH].
  assert (He : names_place (TSlice t) (Some (addErrorContext e (index_ctx i)))) by (apply (place_context _ t); [done|by constructor]).
  by destruct e; intros [= <- <- <-].
Qed.

Lemma reports_elems t ed : reports t ed -> reports (TSlice t) (decodeSliceElems t ed).
Proof.
  intros Hed old s err v s' Hs. unfold decodeSliceElems. destruct (decodeSliceElems_loop _ _ _ _ _ _) as [[e l] s1] eqn:E.
  intros [= <- <- <-]. by eapply reports_slice_loop.
Qed.

Lemma reports_list_slice t ed : reports t ed -> reports (TSlice t) (decodeListSlice t ed).
Proof.
  intros Hed old s err v s' Hs. unfold decodeListSlice. destruct (stream_List s) as [[n|e] s1] eqn:E; destruct (List_emits _ _ _ Hs E) as [H1 H2].
  2: { intros [= <- <- <-]. split; [done|]. by apply place_wrap, H2. }
  destruct (n =? 0); [apply reports_list_end; [by apply place_plain|done]|].
  destruct (decodeSliceElems t ed old s1) as [[e2 w] s2] eqn:E2. destruct (reports_elems t ed Hed _ _ _ _ _ H1 E2) as [H3 H4].
  destruct e2; [by intros [= <- <- <-]|]. apply reports_list_end; [by apply place_plain|done].
Qed.

Lemma reports_array_loop n t ed i l s err b l' s' : reports t ed -> sane s ->
  decodeListArray_loop ed i l s = (err, b, l', s') -> sane s' /\ names_place (TArray n t) err.
Proof.
  intros Hed. revert i s err b l' s'. induction l as [|x l IH]; intros i s err b l' s' Hs; cbn [decodeListArray_loop]; [by intros [= <- <- <- <-]|].
  destruct (ed x s) as [[e v] s1] eqn:E. destruct (Hed _ _ _ _ _ Hs E) as [H1 H2].
  destruct e as [e|].
  - assert (He : names_place (TArray n t) (Some (addErrorContext e (index_ctx i)))) by (apply (place_context _ t); [done|by constructor]).
    by destruct e; intros [= <- <- <- <-].
  - destruct (decodeListArray_loop ed (S i) l s1) as [[[e2 b2] l2] s2] eqn:E2. intros [= <- <- <- <-]. by eapply IH.
Qed.

Lemma reports_list_array n t ed : reports t ed -> reports (TArray n t) (decodeListArray n t ed).
Proof.
  intros Hed old s err v s' Hs. unfold decodeListArray. destruct (stream_List s) as [[m|e] s1] eqn:E; destruct (List_emits _ _ _ Hs E) as [H1 H2].
  2: { intros [= <- <- <-]. split; [done|]. by apply place_wrap, H2. }
  destruct (decodeListArray_loop _ _ _ _) as [[[e2 b] l] s2] eqn:E2. destruct (reports_array_loop n t _ _ _ _ _ _ _ _ Hed H1 E2) as [H3 H4].
  destruct e2; [by intros [= <- <- <-]|]. destruct b; [intros [= <- <- <-]; split; [done|apply place_here]|].
  apply reports_list_end; [apply place_wrap|done].
Qed.

Lemma reports_fields fs fields vs s err vs' s' : Forall (fun p => exists f, fs !! p.1 = Some f /\ reports f.2 p.2) fields -> sane s ->
  decodeFields fs fields vs s = (err, vs', s') -> sane s' /\ names_place (TStruct fs) err.
Proof.
  intros Hf. revert vs s. induction Hf as [|[i d] fields (f & Hi & Hd) _ IH]; intros vs s Hs; cbn [decodeFields]; [by intros [= <- <- <-]|].
  destruct (vs !! i) as [v|]; [|intros [= <- <- <-]; split; [done|by apply place_plain]].
  destruct (d v s) as [[e w] s1] eqn:E. destruct (Hd _ _ _ _ _ Hs E) as [H1 H2]. destruct e as [e|]; [|by apply IH].
  assert (He : names_place (TStruct fs) (Some (addErrorContext e ("." +:+ field_name fs i)))).
  { apply (place_context _ f.2); [done|]. intros p u Hp. unfold field_name. cbn in Hi. rewrite Hi. destruct f as [m ft]. by apply (Leads_field fs i (m, ft)). }
  destruct e; intros [= <- <- <-]; (split; [done|]); try done. apply place_here.
Qed.

Lemma reports_struct fs fields : Forall (fun p => exists f, fs !! p.1 = Some f /\ reports f.2 p.2) fields ->
  reports (TStruct fs) (structDecoder fs fields).
Proof.
  intros Hf old s err v s' Hs. unfold structDecoder. destruct (stream_List s) as [[m|e] s1] eqn:E; destruct (List_emits _ _ _ Hs E) as [H1 H2].
  2: { intros [= <- <- <-]. split; [done|]. by apply place_wrap, H2. }
  destruct (decodeFields fs fields _ s1) as [[e2 vs] s2] eqn:E2. destruct (reports_fields _ _ _ _ _ _ _ Hf H1 E2) as [H3 H4].
  destruct e2; [by intros [= <- <- <-]|]. apply reports_list_end; [apply place_wrap|done].
Qed.

Lemma reports_ptr t ed : reports t ed -> reports (TPtr t) (ptrDecoder t ed).
Proof.
  intros Hed old s err v s' Hs. unfold ptrDecoder.
  assert (Hp : forall x e w s1, ed x s = (e, w, s1) -> sane s1 /\ names_place (TPtr t) e).
  { intros x e w s1 E. destruct (Hed _ _ _ _ _ Hs E) as [H1 H2]. split; [done|]. apply (place_lift _ t); [done|by constructor]. }
  destruct old as [| | | | | | | | | |[x|]|]; destruct (ed _ s) as [[[e|] w] s1] eqn:E; intros [= <- <- <-]; exact (Hp _ _ _ _ E).
Qed.

Lemma reports_optional t ed : reports t ed -> reports (TPtr t) (optionalPtrDecoder t ed).
Proof.
  intros Hed old s err v s' Hs. unfold optionalPtrDecoder.
  destruct (stream_Kind s) as [[[k n]|e] s1] eqn:E; destruct (Kind_emits _ _ _ Hs E) as [H1 H2].
  - case_match; [by intros [= <- <- <-]|by apply reports_ptr].
  - intros [= <- <- <-]. split; [done|]. by apply place_plain, H2.
Qed.

Lemma reports_iface fuel n : reports (TIface n) (decodeInterface fuel n).
Proof.
  revert n. induction fuel as [|fuel IH]; intros n old s err v s' Hs; destruct n as [|n]; cbn [decodeInterface];
    try (intros [= <- <- <-]; split; [done|by apply place_plain]).
  all: destruct (stream_Kind s) as [[[k n]|e] s1] eqn:E; destruct (Kind_emits _ _ _ Hs E) as [H1 H2];
    [|intros [= <- <- <-]; split; [done|by apply place_plain, H2]].
  all: destruct k; try (intros [= <- <- <-]; split; [done|by apply place_plain]).
  all: try (destruct (stream_Bytes s1) as [[b|e] s2] eqn:Eb; destruct (Bytes_emits _ _ _ H1 Eb) as [H3 H4]; intros [= <- <- <-];
    (split; [done|]); [apply place_none|by apply place_plain, H4]).
  destruct (decodeListSlice _ _ _ s1) as [[e l] s2] eqn:E2. destruct (reports_list_slice _ _ (IH 0%nat) _ _ _ _ _ H1 E2) as [H3 H4].
  destruct e; intros [= <- <- <-]; (split; [done|]); [|apply place_none]. eapply place_lift; [exact H4|by constructor].
Qed.

Lemma makeDecoder_reports fi t ts d : makeDecoder fi t ts = Ok d -> reports t d.
Proof.
  revert ts d. induction t using gtype_ind'; intros ts d Hd; cbn in Hd; try discriminate Hd; try inv_bind.
  - apply (reports_op stream_Raw VRaw id); [done|apply Raw_emits|by apply place_plain].
  - apply reports_big.
  - apply reports_big_noptr.
  - apply (reports_op (stream_uint b) VUint (fun e => wrapStreamError e (TUint b))); [done|apply uint_emits|apply place_wrap].
  - apply (reports_op stream_Bool VBool (fun e => wrapStreamError e TBool)); [done|apply Bool_emits|apply place_wrap].
  - apply (reports_op stream_Bytes VString (fun e => wrapStreamError e TString)); [done|apply Bytes_emits|apply place_wrap].
  - apply (reports_op stream_Bytes VBytes (fun e => wrapStreamError e TBytes)); [done|apply Bytes_emits|apply place_wrap].
  - apply reports_bytearray.
  - destruct (tail ts); [apply reports_elems|apply reports_list_slice]; by eapply IHt.
  - apply reports_list_array. by eapply IHt.
  - apply reports_struct. by eapply (structFields_from_each (makeDecoder fi) reports fs [] fs).
  - destruct (nilOK ts); [apply reports_optional|apply reports_ptr]; by eapply IHt.
  - apply reports_iface.
Qed.

Lemma parseTagWords_plain m t last ts ws e : parseTagWords m t last ts ws = Err e -> plain e.
Proof.
  revert ts. induction ws as [|w ws IH]; intros ts; cbn [parseTagWords]; [done|].
  destruct (parseTagWord m t last ts (trim_space w)) as [ts'|e1] eqn:E; cbn; [apply IH|]. intros [= <-]. unfold parseTagWord in E.
  repeat case_match; first [discriminate E | by injection E as <-].
Qed.

Lemma structFields_plain {I} (gen : gtype -> tags -> result rlp_error I) i fs e :
  Forall (fun f => forall ts e, gen f.2 ts = Err e -> plain e) fs -> structFields_from gen i fs = Err e -> plain e.
Proof.
  intros Hg. revert i e. induction Hg as [|[m t] fs Hf _ IH]; intros i e; cbn [structFields_from]; [done|].
  case_match; [|by apply IH]. destruct (parseStructTag _ _ _) as [ts|e1] eqn:Ep; cbn; [|intros [= <-]; by apply parseTagWords_plain in Ep].
  destruct (ignored ts); [by apply IH|]. destruct (gen t ts) as [x|e1] eqn:Eg; cbn; [|intros [= <-]; by eapply Hf].
  destruct (structFields_from gen (S i) fs) as [l|e1] eqn:Es; cbn; [done|]. intros [= <-]. by eapply IH.
Qed.

Lemma makeDecoder_plain fi t ts e : makeDecoder fi t ts = Err e -> plain e.
Proof.
  revert ts e. induction t using gtype_ind'; intros ts e Hd; cbn in Hd; try discriminate Hd.
  1,2,4: destruct (makeDecoder fi t no_tags) as [d|e1] eqn:E; cbn in Hd; [discriminate Hd|injection Hd as <-; by eapply IHt].
  - destruct (structFields _ fs) as [d|e1] eqn:E; cbn in Hd; [discriminate Hd|injection Hd as <-]. by eapply structFields_plain.
  - by injection Hd as <-.
Qed.

(** ** The text of an error *)

Local Open Scope string_scope.

Definition path_text (p : list string) : string := foldr String.append "" p.

Lemma string_app_nil_r (s : string) : s +:+ "" = s.
Proof. induction s as [|c s IH]; [done|]. exact (f_equal (String c) IH). Qed.
Lemma string_app_assoc (s1 s2 s3 : string) : (s1 +:+ s2) +:+ s3 = s1 +:+ s2 +:+ s3.
Proof. induction s1 as [|c s1 IH]; [done|]. exact (f_equal (String c) IH). Qed.

Lemma join_context_snoc l c : join_context (l ++ [c])%list = c +:+ join_context l.
Proof.
  induction l as [|x l IH]; cbn [app join_context]; [by rewrite string_app_nil_r|]. rewrite IH. by rewrite string_app_assoc.
Qed.

Lemma join_context_path ctx : join_context ctx = path_text (rev ctx).
Proof.
  rewrite <- (rev_involutive ctx) at 1. generalize (rev ctx). intros p. induction p as [|x p IH]; [done|].
  cbn [rev]. by rewrite join_context_snoc, IH.
Qed.

Lemma stream_Decode_place type_name t v s msg typ ctx tg s' : sane s ->
  stream_Decode type_name (PointerTo t v) s = (Some (DecodeError msg typ ctx), tg, s') ->
  exists p, leads t p typ /\ decodeError_Error type_name msg typ ctx = "rlp: " +:+ msg +:+ " for " +:+ type_name typ +:+
    match p with [] => "" | _ => ", decoding into (" +:+ type_name t +:+ ")" +:+ path_text p end.
Proof.
  intros Hs. unfold stream_Decode. destruct (makeDecoder _ t no_tags) as [d|e] eqn:Ed.
  2: { intros [= -> <- <-]. by apply makeDecoder_plain in Ed. }
  destruct (d v s) as [[err w] s1] eqn:E. destruct (makeDecoder_reports _ _ _ _ Ed _ _ _ _ _ Hs E) as [_ H].
  intros [= Eerr _ _]. unfold decodeError_Error.
  destruct err as [[| | | | | | | | | | | | | | | | | | | | | |m u [|c0 c]| | |]|]; try discriminate Eerr; injection Eerr as <- <- <-.
  - exists []. split; [exact (H m u [] eq_refl)|done].
  - exists (rev (c0 :: c)). split; [exact (H m u (c0 :: c) eq_refl)|]. rewrite app_comm_cons, join_context_snoc, join_context_path.
    destruct (rev (c0 :: c)) as [|x p] eqn:Er; [|by rewrite !string_app_assoc].
    apply (f_equal length) in Er. rewrite length_rev in Er. done.
Qed.

(** C26: decoding errors name the place.  Whatever the input and the type that is decoded into, an error about a value of the wrong
    form has a text that says what is wrong, for which type, and, unless this is the type itself, where: a path of fields and
    elements that leads from the type that is decoded into to that type. *)
Theorem Decode_error_place type_name t v b msg typ ctx
    (H : (exists tg s, Decode type_name b (PointerTo t v) = (Some (DecodeError msg typ ctx), tg, s)) \/
         (exists tg, DecodeBytes type_name b (PointerTo t v) = (Some (DecodeError msg typ ctx), tg))) :
  exists p, leads t p typ /\ decodeError_Error type_name msg typ ctx = "rlp: " +:+ msg +:+ " for " +:+ type_name typ +:+
    match p with [] => "" | _ => ", decoding into (" +:+ type_name t +:+ ")" +:+ path_text p end.
Proof.
  destruct H as [(tg & s & E)|(tg & E)].
  - eapply stream_Decode_place; [|exact E]. done.
  - unfold DecodeBytes in E. destruct (stream_Decode _ _ _) as [[[e|] tg1] s1] eqn:Es; [|by case_match].
    injection E as -> <-. eapply stream_Decode_place; [|exact Es]. done.
Qed.

(** A list of two records, the second of which has a list in place of a number. *)
Definition ex_inner : gtype := TStruct [(FMeta "N" true "", TUint 64); (FMeta "L" true "", TSlice (TUint 8))].
Definition ex_place : gtype := TStruct [(FMeta "Rs" true "", TSlice (TPtr ex_inner))].

Lemma Decode_error_place_witness : exists typ ctx tg,
  DecodeBytes (fun t => match t with TUint _ => "uint8" | _ => "main.T" end)
    [0xC8; 0xC7; 0xC2; 0x01; 0xC0; 0xC3; 0x02; 0xC1; 0xC0] (PointerTo ex_place (zero_of ex_place)) =
    (Some (DecodeError "expected input string or byte" typ ctx), tg) /\
  decodeError_Error (fun t => match t with TUint _ => "uint8" | _ => "main.T" end) "expected input string or byte" typ ctx =
    "rlp: expected input string or byte for uint8, decoding into (main.T).Rs[1].L[0]" /\
  exists p, leads ex_place p typ.
Proof.
  eexists _, _, _. split; [vm_compute; reflexivity|]. split; [vm_compute; reflexivity|].
  destruct (Decode_error_place (fun t => match t with TUint _ => "uint8" | _ => "main.T" end) ex_place (zero_of ex_place)
    [0xC8; 0xC7; 0xC2; 0x01; 0xC0; 0xC3; 0x02; 0xC1; 0xC0] "expected input string or byte" (TUint 8)
    ["[0]"; ".L"; "[1]"; ".Rs"; "(main.T)"]) as (p & Hp & _); [right; eexists; vm_compute; reflexivity|].
  exists p. exact Hp.
Defined.
