(* ===== verification/Keccak.v ===== *)
(** * The permutation of [src/crypto/sha3/keccakf.go]

    [keccakF1600] in the portable version: six times four unrolled rounds that
    work in place, and its equivalence with the five step mappings of FIPS 202.
    A lane is a [Z] below [2^64]; [a[i]] is the [i]-th element of a list of 25. *)

From S2P Require Import Prelude.
Local Open Scope Z_scope.

Declare Scope lane_scope.
Delimit Scope lane_scope with lane.

Notation "a .[ i ]" := (nth i%nat a 0) (at level 1, left associativity, format "a .[ i ]")
  : lane_scope.
Notation "x ^^ y" := (Z.lxor x y) (at level 50, left associativity) : lane_scope.
Notation "x ||| y" := (Z.lor x y) (at level 50, left associativity) : lane_scope.
Notation "x &^ y" := (Z.ldiff x y) (at level 40, left associativity) : lane_scope.
Notation "x <<< n" := (u64 (Z.shiftl x n)) (at level 40, left associativity) : lane_scope.
Notation "x >>> n" := (Z.shiftr x n) (at level 40, left associativity) : lane_scope.
Local Open Scope lane_scope.

Definition rc : list Z :=
  [0x0000000000000001; 0x0000000000008082; 0x800000000000808A;
   0x8000000080008000; 0x000000000000808B; 0x0000000080000001;
   0x8000000080008081; 0x8000000000008009; 0x000000000000008A;
   0x0000000000000088; 0x0000000080008009; 0x000000008000000A;
   0x000000008000808B; 0x800000000000008B; 0x8000000000008089;
   0x8000000000008003; 0x8000000000008002; 0x8000000000000080;
   0x000000000000800A; 0x800000008000000A; 0x8000000080008081;
   0x8000000000008080; 0x0000000080000001; 0x8000000080008008].

(** Round 1 of the loop body; [RC] is the round constant. *)
Definition keccak_round1 (RC : Z) (a : list Z) : list Z :=
  let bc0 := a.[0] ^^ a.[5] ^^ a.[10] ^^ a.[15] ^^ a.[20] in
  let bc1 := a.[1] ^^ a.[6] ^^ a.[11] ^^ a.[16] ^^ a.[21] in
  let bc2 := a.[2] ^^ a.[7] ^^ a.[12] ^^ a.[17] ^^ a.[22] in
  let bc3 := a.[3] ^^ a.[8] ^^ a.[13] ^^ a.[18] ^^ a.[23] in
  let bc4 := a.[4] ^^ a.[9] ^^ a.[14] ^^ a.[19] ^^ a.[24] in
  let d0 := bc4 ^^ (bc1 <<< 1 ||| bc1 >>> 63) in
  let d1 := bc0 ^^ (bc2 <<< 1 ||| bc2 >>> 63) in
  let d2 := bc1 ^^ (bc3 <<< 1 ||| bc3 >>> 63) in
  let d3 := bc2 ^^ (bc4 <<< 1 ||| bc4 >>> 63) in
  let d4 := bc3 ^^ (bc0 <<< 1 ||| bc0 >>> 63) in
  let bc0 := a.[0] ^^ d0 in
  let t := a.[6] ^^ d1 in
  let bc1 := t <<< 44 ||| t >>> (64 - 44) in
  let t := a.[12] ^^ d2 in
  let bc2 := t <<< 43 ||| t >>> (64 - 43) in
  let t := a.[18] ^^ d3 in
  let bc3 := t <<< 21 ||| t >>> (64 - 21) in
  let t := a.[24] ^^ d4 in
  let bc4 := t <<< 14 ||| t >>> (64 - 14) in
  let a := <[0%nat := bc0 ^^ (bc2 &^ bc1) ^^ RC]> a in
  let a := <[6%nat := bc1 ^^ (bc3 &^ bc2)]> a in
  let a := <[12%nat := bc2 ^^ (bc4 &^ bc3)]> a in
  let a := <[18%nat := bc3 ^^ (bc0 &^ bc4)]> a in
  let a := <[24%nat := bc4 ^^ (bc1 &^ bc0)]> a in
  let t := a.[10] ^^ d0 in
  let bc2 := t <<< 3 ||| t >>> (64 - 3) in
  let t := a.[16] ^^ d1 in
  let bc3 := t <<< 45 ||| t >>> (64 - 45) in
  let t := a.[22] ^^ d2 in
  let bc4 := t <<< 61 ||| t >>> (64 - 61) in
  let t := a.[3] ^^ d3 in
  let bc0 := t <<< 28 ||| t >>> (64 - 28) in
  let t := a.[9] ^^ d4 in
  let bc1 := t <<< 20 ||| t >>> (64 - 20) in
  let a := <[10%nat := bc0 ^^ (bc2 &^ bc1)]> a in
  let a := <[16%nat := bc1 ^^ (bc3 &^ bc2)]> a in
  let a := <[22%nat := bc2 ^^ (bc4 &^ bc3)]> a in
  let a := <[3%nat := bc3 ^^ (bc0 &^ bc4)]> a in
  let a := <[9%nat := bc4 ^^ (bc1 &^ bc0)]> a in
  let t := a.[20] ^^ d0 in
  let bc4 := t <<< 18 ||| t >>> (64 - 18) in
  let t := a.[1] ^^ d1 in
  let bc0 := t <<< 1 ||| t >>> (64 - 1) in
  let t := a.[7] ^^ d2 in
  let bc1 := t <<< 6 ||| t >>> (64 - 6) in
  let t := a.[13] ^^ d3 in
  let bc2 := t <<< 25 ||| t >>> (64 - 25) in
  let t := a.[19] ^^ d4 in
  let bc3 := t <<< 8 ||| t >>> (64 - 8) in
  let a := <[20%nat := bc0 ^^ (bc2 &^ bc1)]> a in
  let a := <[1%nat := bc1 ^^ (bc3 &^ bc2)]> a in
  let a := <[7%nat := bc2 ^^ (bc4 &^ bc3)]> a in
  let a := <[13%nat := bc3 ^^ (bc0 &^ bc4)]> a in
  let a := <[19%nat := bc4 ^^ (bc1 &^ bc0)]> a in
  let t := a.[5] ^^ d0 in
  let bc1 := t <<< 36 ||| t >>> (64 - 36) in
  let t := a.[11] ^^ d1 in
  let bc2 := t <<< 10 ||| t >>> (64 - 10) in
  let t := a.[17] ^^ d2 in
  let bc3 := t <<< 15 ||| t >>> (64 - 15) in
  let t := a.[23] ^^ d3 in
  let bc4 := t <<< 56 ||| t >>> (64 - 56) in
  let t := a.[4] ^^ d4 in
  let bc0 := t <<< 27 ||| t >>> (64 - 27) in
  let a := <[5%nat := bc0 ^^ (bc2 &^ bc1)]> a in
  let a := <[11%nat := bc1 ^^ (bc3 &^ bc2)]> a in
  let a := <[17%nat := bc2 ^^ (bc4 &^ bc3)]> a in
  let a := <[23%nat := bc3 ^^ (bc0 &^ bc4)]> a in
  let a := <[4%nat := bc4 ^^ (bc1 &^ bc0)]> a in
  let t := a.[15] ^^ d0 in
  let bc3 := t <<< 41 ||| t >>> (64 - 41) in
  let t := a.[21] ^^ d1 in
  let bc4 := t <<< 2 ||| t >>> (64 - 2) in
  let t := a.[2] ^^ d2 in
  let bc0 := t <<< 62 ||| t >>> (64 - 62) in
  let t := a.[8] ^^ d3 in
  let bc1 := t <<< 55 ||| t >>> (64 - 55) in
  let t := a.[14] ^^ d4 in
  let bc2 := t <<< 39 ||| t >>> (64 - 39) in
  let a := <[15%nat := bc0 ^^ (bc2 &^ bc1)]> a in
  let a := <[21%nat := bc1 ^^ (bc3 &^ bc2)]> a in
  let a := <[2%nat := bc2 ^^ (bc4 &^ bc3)]> a in
  let a := <[8%nat := bc3 ^^ (bc0 &^ bc4)]> a in
  let a := <[14%nat := bc4 ^^ (bc1 &^ bc0)]> a in
  a.

(** Round 2 of the loop body; [RC] is the round constant. *)
Definition keccak_round2 (RC : Z) (a : list Z) : list Z :=
  let bc0 := a.[0] ^^ a.[5] ^^ a.[10] ^^ a.[15] ^^ a.[20] in
  let bc1 := a.[1] ^^ a.[6] ^^ a.[11] ^^ a.[16] ^^ a.[21] in
  let bc2 := a.[2] ^^ a.[7] ^^ a.[12] ^^ a.[17] ^^ a.[22] in
  let bc3 := a.[3] ^^ a.[8] ^^ a.[13] ^^ a.[18] ^^ a.[23] in
  let bc4 := a.[4] ^^ a.[9] ^^ a.[14] ^^ a.[19] ^^ a.[24] in
  let d0 := bc4 ^^ (bc1 <<< 1 ||| bc1 >>> 63) in
  let d1 := bc0 ^^ (bc2 <<< 1 ||| bc2 >>> 63) in
  let d2 := bc1 ^^ (bc3 <<< 1 ||| bc3 >>> 63) in
  let d3 := bc2 ^^ (bc4 <<< 1 ||| bc4 >>> 63) in
  let d4 := bc3 ^^ (bc0 <<< 1 ||| bc0 >>> 63) in
  let bc0 := a.[0] ^^ d0 in
  let t := a.[16] ^^ d1 in
  let bc1 := t <<< 44 ||| t >>> (64 - 44) in
  let t := a.[7] ^^ d2 in
  let bc2 := t <<< 43 ||| t >>> (64 - 43) in
  let t := a.[23] ^^ d3 in
  let bc3 := t <<< 21 ||| t >>> (64 - 21) in
  let t := a.[14] ^^ d4 in
  let bc4 := t <<< 14 ||| t >>> (64 - 14) in
  let a := <[0%nat := bc0 ^^ (bc2 &^ bc1) ^^ RC]> a in
  let a := <[16%nat := bc1 ^^ (bc3 &^ bc2)]> a in
  let a := <[7%nat := bc2 ^^ (bc4 &^ bc3)]> a in
  let a := <[23%nat := bc3 ^^ (bc0 &^ bc4)]> a in
  let a := <[14%nat := bc4 ^^ (bc1 &^ bc0)]> a in
  let t := a.[20] ^^ d0 in
  let bc2 := t <<< 3 ||| t >>> (64 - 3) in
  let t := a.[11] ^^ d1 in
  let bc3 := t <<< 45 ||| t >>> (64 - 45) in
  let t := a.[2] ^^ d2 in
  let bc4 := t <<< 61 ||| t >>> (64 - 61) in
  let t := a.[18] ^^ d3 in
  let bc0 := t <<< 28 ||| t >>> (64 - 28) in
  let t := a.[9] ^^ d4 in
  let bc1 := t <<< 20 ||| t >>> (64 - 20) in
  let a := <[20%nat := bc0 ^^ (bc2 &^ bc1)]> a in
  let a := <[11%nat := bc1 ^^ (bc3 &^ bc2)]> a in
  let a := <[2%nat := bc2 ^^ (bc4 &^ bc3)]> a in
  let a := <[18%nat := bc3 ^^ (bc0 &^ bc4)]> a in
  let a := <[9%nat := bc4 ^^ (bc1 &^ bc0)]> a in
  let t := a.[15] ^^ d0 in
  let bc4 := t <<< 18 ||| t >>> (64 - 18) in
  let t := a.[6] ^^ d1 in
  let bc0 := t <<< 1 ||| t >>> (64 - 1) in
  let t := a.[22] ^^ d2 in
  let bc1 := t <<< 6 ||| t >>> (64 - 6) in
  let t := a.[13] ^^ d3 in
  let bc2 := t <<< 25 ||| t >>> (64 - 25) in
  let t := a.[4] ^^ d4 in
  let bc3 := t <<< 8 ||| t >>> (64 - 8) in
  let a := <[15%nat := bc0 ^^ (bc2 &^ bc1)]> a in
  let a := <[6%nat := bc1 ^^ (bc3 &^ bc2)]> a in
  let a := <[22%nat := bc2 ^^ (bc4 &^ bc3)]> a in
  let a := <[13%nat := bc3 ^^ (bc0 &^ bc4)]> a in
  let a := <[4%nat := bc4 ^^ (bc1 &^ bc0)]> a in
  let t := a.[10] ^^ d0 in
  let bc1 := t <<< 36 ||| t >>> (64 - 36) in
  let t := a.[1] ^^ d1 in
  let bc2 := t <<< 10 ||| t >>> (64 - 10) in
  let t := a.[17] ^^ d2 in
  let bc3 := t <<< 15 ||| t >>> (64 - 15) in
  let t := a.[8] ^^ d3 in
  let bc4 := t <<< 56 ||| t >>> (64 - 56) in
  let t := a.[24] ^^ d4 in
  let bc0 := t <<< 27 ||| t >>> (64 - 27) in
  let a := <[10%nat := bc0 ^^ (bc2 &^ bc1)]> a in
  let a := <[1%nat := bc1 ^^ (bc3 &^ bc2)]> a in
  let a := <[17%nat := bc2 ^^ (bc4 &^ bc3)]> a in
  let a := <[8%nat := bc3 ^^ (bc0 &^ bc4)]> a in
  let a := <[24%nat := bc4 ^^ (bc1 &^ bc0)]> a in
  let t := a.[5] ^^ d0 in
  let bc3 := t <<< 41 ||| t >>> (64 - 41) in
  let t := a.[21] ^^ d1 in
  let bc4 := t <<< 2 ||| t >>> (64 - 2) in
  let t := a.[12] ^^ d2 in
  let bc0 := t <<< 62 ||| t >>> (64 - 62) in
  let t := a.[3] ^^ d3 in
  let bc1 := t <<< 55 ||| t >>> (64 - 55) in
  let t := a.[19] ^^ d4 in
  let bc2 := t <<< 39 ||| t >>> (64 - 39) in
  let a := <[5%nat := bc0 ^^ (bc2 &^ bc1)]> a in
  let a := <[21%nat := bc1 ^^ (bc3 &^ bc2)]> a in
  let a := <[12%nat := bc2 ^^ (bc4 &^ bc3)]> a in
  let a := <[3%nat := bc3 ^^ (bc0 &^ bc4)]> a in
  let a := <[19%nat := bc4 ^^ (bc1 &^ bc0)]> a in
  a.

(** Round 3 of the loop body; [RC] is the round constant. *)
Definition keccak_round3 (RC : Z) (a : list Z) : list Z :=
  let bc0 := a.[0] ^^ a.[5] ^^ a.[10] ^^ a.[15] ^^ a.[20] in
  let bc1 := a.[1] ^^ a.[6] ^^ a.[11] ^^ a.[16] ^^ a.[21] in
  let bc2 := a.[2] ^^ a.[7] ^^ a.[12] ^^ a.[17] ^^ a.[22] in
  let bc3 := a.[3] ^^ a.[8] ^^ a.[13] ^^ a.[18] ^^ a.[23] in
  let bc4 := a.[4] ^^ a.[9] ^^ a.[14] ^^ a.[19] ^^ a.[24] in
  let d0 := bc4 ^^ (bc1 <<< 1 ||| bc1 >>> 63) in
  let d1 := bc0 ^^ (bc2 <<< 1 ||| bc2 >>> 63) in
  let d2 := bc1 ^^ (bc3 <<< 1 ||| bc3 >>> 63) in
  let d3 := bc2 ^^ (bc4 <<< 1 ||| bc4 >>> 63) in
  let d4 := bc3 ^^ (bc0 <<< 1 ||| bc0 >>> 63) in
  let bc0 := a.[0] ^^ d0 in
  let t := a.[11] ^^ d1 in
  let bc1 := t <<< 44 ||| t >>> (64 - 44) in
  let t := a.[22] ^^ d2 in
  let bc2 := t <<< 43 ||| t >>> (64 - 43) in
  let t := a.[8] ^^ d3 in
  let bc3 := t <<< 21 ||| t >>> (64 - 21) in
  let t := a.[19] ^^ d4 in
  let bc4 := t <<< 14 ||| t >>> (64 - 14) in
  let a := <[0%nat := bc0 ^^ (bc2 &^ bc1) ^^ RC]> a in
  let a := <[11%nat := bc1 ^^ (bc3 &^ bc2)]> a in
  let a := <[22%nat := bc2 ^^ (bc4 &^ bc3)]> a in
  let a := <[8%nat := bc3 ^^ (bc0 &^ bc4)]> a in
  let a := <[19%nat := bc4 ^^ (bc1 &^ bc0)]> a in
  let t := a.[15] ^^ d0 in
  let bc2 := t <<< 3 ||| t >>> (64 - 3) in
  let t := a.[1] ^^ d1 in
  let bc3 := t <<< 45 ||| t >>> (64 - 45) in
  let t := a.[12] ^^ d2 in
  let bc4 := t <<< 61 ||| t >>> (64 - 61) in
  let t := a.[23] ^^ d3 in
  let bc0 := t <<< 28 ||| t >>> (64 - 28) in
  let t := a.[9] ^^ d4 in
  let bc1 := t <<< 20 ||| t >>> (64 - 20) in
  let a := <[15%nat := bc0 ^^ (bc2 &^ bc1)]> a in
  let a := <[1%nat := bc1 ^^ (bc3 &^ bc2)]> a in
  let a := <[12%nat := bc2 ^^ (bc4 &^ bc3)]> a in
  let a := <[23%nat := bc3 ^^ (bc0 &^ bc4)]> a in
  let a := <[9%nat := bc4 ^^ (bc1 &^ bc0)]> a in
  let t := a.[5] ^^ d0 in
  let bc4 := t <<< 18 ||| t >>> (64 - 18) in
  let t := a.[16] ^^ d1 in
  let bc0 := t <<< 1 ||| t >>> (64 - 1) in
  let t := a.[2] ^^ d2 in
  let bc1 := t <<< 6 ||| t >>> (64 - 6) in
  let t := a.[13] ^^ d3 in
  let bc2 := t <<< 25 ||| t >>> (64 - 25) in
  let t := a.[24] ^^ d4 in
  let bc3 := t <<< 8 ||| t >>> (64 - 8) in
  let a := <[5%nat := bc0 ^^ (bc2 &^ bc1)]> a in
  let a := <[16%nat := bc1 ^^ (bc3 &^ bc2)]> a in
  let a := <[2%nat := bc2 ^^ (bc4 &^ bc3)]> a in
  let a := <[13%nat := bc3 ^^ (bc0 &^ bc4)]> a in
  let a := <[24%nat := bc4 ^^ (bc1 &^ bc0)]> a in
  let t := a.[20] ^^ d0 in
  let bc1 := t <<< 36 ||| t >>> (64 - 36) in
  let t := a.[6] ^^ d1 in
  let bc2 := t <<< 10 ||| t >>> (64 - 10) in
  let t := a.[17] ^^ d2 in
  let bc3 := t <<< 15 ||| t >>> (64 - 15) in
  let t := a.[3] ^^ d3 in
  let bc4 := t <<< 56 ||| t >>> (64 - 56) in
  let t := a.[14] ^^ d4 in
  let bc0 := t <<< 27 ||| t >>> (64 - 27) in
  let a := <[20%nat := bc0 ^^ (bc2 &^ bc1)]> a in
  let a := <[6%nat := bc1 ^^ (bc3 &^ bc2)]> a in
  let a := <[17%nat := bc2 ^^ (bc4 &^ bc3)]> a in
  let a := <[3%nat := bc3 ^^ (bc0 &^ bc4)]> a in
  let a := <[14%nat := bc4 ^^ (bc1 &^ bc0)]> a in
  let t := a.[10] ^^ d0 in
  let bc3 := t <<< 41 ||| t >>> (64 - 41) in
  let t := a.[21] ^^ d1 in
  let bc4 := t <<< 2 ||| t >>> (64 - 2) in
  let t := a.[7] ^^ d2 in
  let bc0 := t <<< 62 ||| t >>> (64 - 62) in
  let t := a.[18] ^^ d3 in
  let bc1 := t <<< 55 ||| t >>> (64 - 55) in
  let t := a.[4] ^^ d4 in
  let bc2 := t <<< 39 ||| t >>> (64 - 39) in
  let a := <[10%nat := bc0 ^^ (bc2 &^ bc1)]> a in
  let a := <[21%nat := bc1 ^^ (bc3 &^ bc2)]> a in
  let a := <[7%nat := bc2 ^^ (bc4 &^ bc3)]> a in
  let a := <[18%nat := bc3 ^^ (bc0 &^ bc4)]> a in
  let a := <[4%nat := bc4 ^^ (bc1 &^ bc0)]> a in
  a.

(** Round 4 of the loop body; [RC] is the round constant. *)
Definition keccak_round4 (RC : Z) (a : list Z) : list Z :=
  let bc0 := a.[0] ^^ a.[5] ^^ a.[10] ^^ a.[15] ^^ a.[20] in
  let bc1 := a.[1] ^^ a.[6] ^^ a.[11] ^^ a.[16] ^^ a.[21] in
  let bc2 := a.[2] ^^ a.[7] ^^ a.[12] ^^ a.[17] ^^ a.[22] in
  let bc3 := a.[3] ^^ a.[8] ^^ a.[13] ^^ a.[18] ^^ a.[23] in
  let bc4 := a.[4] ^^ a.[9] ^^ a.[14] ^^ a.[19] ^^ a.[24] in
  let d0 := bc4 ^^ (bc1 <<< 1 ||| bc1 >>> 63) in
  let d1 := bc0 ^^ (bc2 <<< 1 ||| bc2 >>> 63) in
  let d2 := bc1 ^^ (bc3 <<< 1 ||| bc3 >>> 63) in
  let d3 := bc2 ^^ (bc4 <<< 1 ||| bc4 >>> 63) in
  let d4 := bc3 ^^ (bc0 <<< 1 ||| bc0 >>> 63) in
  let bc0 := a.[0] ^^ d0 in
  let t := a.[1] ^^ d1 in
  let bc1 := t <<< 44 ||| t >>> (64 - 44) in
  let t := a.[2] ^^ d2 in
  let bc2 := t <<< 43 ||| t >>> (64 - 43) in
  let t := a.[3] ^^ d3 in
  let bc3 := t <<< 21 ||| t >>> (64 - 21) in
  let t := a.[4] ^^ d4 in
  let bc4 := t <<< 14 ||| t >>> (64 - 14) in
  let a := <[0%nat := bc0 ^^ (bc2 &^ bc1) ^^ RC]> a in
  let a := <[1%nat := bc1 ^^ (bc3 &^ bc2)]> a in
  let a := <[2%nat := bc2 ^^ (bc4 &^ bc3)]> a in
  let a := <[3%nat := bc3 ^^ (bc0 &^ bc4)]> a in
  let a := <[4%nat := bc4 ^^ (bc1 &^ bc0)]> a in
  let t := a.[5] ^^ d0 in
  let bc2 := t <<< 3 ||| t >>> (64 - 3) in
  let t := a.[6] ^^ d1 in
  let bc3 := t <<< 45 ||| t >>> (64 - 45) in
  let t := a.[7] ^^ d2 in
  let bc4 := t <<< 61 ||| t >>> (64 - 61) in
  let t := a.[8] ^^ d3 in
  let bc0 := t <<< 28 ||| t >>> (64 - 28) in
  let t := a.[9] ^^ d4 in
  let bc1 := t <<< 20 ||| t >>> (64 - 20) in
  let a := <[5%nat := bc0 ^^ (bc2 &^ bc1)]> a in
  let a := <[6%nat := bc1 ^^ (bc3 &^ bc2)]> a in
  let a := <[7%nat := bc2 ^^ (bc4 &^ bc3)]> a in
  let a := <[8%nat := bc3 ^^ (bc0 &^ bc4)]> a in
  let a := <[9%nat := bc4 ^^ (bc1 &^ bc0)]> a in
  let t := a.[10] ^^ d0 in
  let bc4 := t <<< 18 ||| t >>> (64 - 18) in
  let t := a.[11] ^^ d1 in
  let bc0 := t <<< 1 ||| t >>> (64 - 1) in
  let t := a.[12] ^^ d2 in
  let bc1 := t <<< 6 ||| t >>> (64 - 6) in
  let t := a.[13] ^^ d3 in
  let bc2 := t <<< 25 ||| t >>> (64 - 25) in
  let t := a.[14] ^^ d4 in
  let bc3 := t <<< 8 ||| t >>> (64 - 8) in
  let a := <[10%nat := bc0 ^^ (bc2 &^ bc1)]> a in
  let a := <[11%nat := bc1 ^^ (bc3 &^ bc2)]> a in
  let a := <[12%nat := bc2 ^^ (bc4 &^ bc3)]> a in
  let a := <[13%nat := bc3 ^^ (bc0 &^ bc4)]> a in
  let a := <[14%nat := bc4 ^^ (bc1 &^ bc0)]> a in
  let t := a.[15] ^^ d0 in
  let bc1 := t <<< 36 ||| t >>> (64 - 36) in
  let t := a.[16] ^^ d1 in
  let bc2 := t <<< 10 ||| t >>> (64 - 10) in
  let t := a.[17] ^^ d2 in
  let bc3 := t <<< 15 ||| t >>> (64 - 15) in
  let t := a.[18] ^^ d3 in
  let bc4 := t <<< 56 ||| t >>> (64 - 56) in
  let t := a.[19] ^^ d4 in
  let bc0 := t <<< 27 ||| t >>> (64 - 27) in
  let a := <[15%nat := bc0 ^^ (bc2 &^ bc1)]> a in
  let a := <[16%nat := bc1 ^^ (bc3 &^ bc2)]> a in
  let a := <[17%nat := bc2 ^^ (bc4 &^ bc3)]> a in
  let a := <[18%nat := bc3 ^^ (bc0 &^ bc4)]> a in
  let a := <[19%nat := bc4 ^^ (bc1 &^ bc0)]> a in
  let t := a.[20] ^^ d0 in
  let bc3 := t <<< 41 ||| t >>> (64 - 41) in
  let t := a.[21] ^^ d1 in
  let bc4 := t <<< 2 ||| t >>> (64 - 2) in
  let t := a.[22] ^^ d2 in
  let bc0 := t <<< 62 ||| t >>> (64 - 62) in
  let t := a.[23] ^^ d3 in
  let bc1 := t <<< 55 ||| t >>> (64 - 55) in
  let t := a.[24] ^^ d4 in
  let bc2 := t <<< 39 ||| t >>> (64 - 39) in
  let a := <[20%nat := bc0 ^^ (bc2 &^ bc1)]> a in
  let a := <[21%nat := bc1 ^^ (bc3 &^ bc2)]> a in
  let a := <[22%nat := bc2 ^^ (bc4 &^ bc3)]> a in
  let a := <[23%nat := bc3 ^^ (bc0 &^ bc4)]> a in
  let a := <[24%nat := bc4 ^^ (bc1 &^ bc0)]> a in
  a.

(** [keccakF1600]: the loop runs for [i = 0, 4, ..., 20]. *)
Definition keccak_rounds4 (i : nat) (a : list Z) : list Z :=
  let a := keccak_round1 rc.[i] a in
  let a := keccak_round2 rc.[i + 1] a in
  let a := keccak_round3 rc.[i + 2] a in
  keccak_round4 rc.[i + 3] a.

Fixpoint keccak_loop (fuel i : nat) (a : list Z) : list Z :=
  match fuel with
  | O => a
  | S f => if (i <? 24)%nat then keccak_loop f (i + 4) (keccak_rounds4 i a) else a
  end.

Definition keccakF1600 (a : list Z) : list Z := keccak_loop 7 0 a.

(** ** FIPS 202

    The lane of column [x] and row [y] is element [x + 5 y]. *)

Section Spec.

Definition lane (x y : nat) : nat := (x mod 5 + 5 * (y mod 5))%nat.

Definition rotl (v n : Z) : Z :=
  if n =? 0 then v else v <<< n ||| v >>> (64 - n).

Definition tabulate (f : nat -> nat -> Z) : list Z :=
  flat_map (fun y => map (fun x => f x y) (seq 0 5)) (seq 0 5).

Definition column (A : list Z) (x : nat) : Z :=
  A.[lane x 0] ^^ A.[lane x 1] ^^ A.[lane x 2] ^^ A.[lane x 3] ^^ A.[lane x 4].

(** Theta, with [C] for the parities of the columns. *)
Definition theta_with (C : nat -> Z) (A : list Z) : list Z :=
  tabulate (fun x y =>
    A.[lane x y] ^^ (C ((x + 4) mod 5)%nat ^^ rotl (C ((x + 1) mod 5)%nat) 1)).

Definition theta (A : list Z) : list Z := theta_with (column A) A.

(** Offsets: start at (1, 0), step to (y, 2x + 3y); the t-th is (t+1)(t+2)/2. *)
Fixpoint rho_walk (fuel t x y : nat) : list (nat * Z) :=
  match fuel with
  | O => []
  | S f => (lane x y, Z.of_nat ((t + 1) * (t + 2) / 2 mod 64))
           :: rho_walk f (S t) y ((2 * x + 3 * y) mod 5)
  end.

Definition rho_offset (i : nat) : Z :=
  match find (fun p => Nat.eqb p.1 i) (rho_walk 24 0 1 0) with
  | Some p => p.2
  | None => 0
  end.

Definition rho (A : list Z) : list Z :=
  tabulate (fun x y => rotl A.[lane x y] (rho_offset (lane x y))).

Definition pi (A : list Z) : list Z :=
  tabulate (fun x y => A.[lane (x + 3 * y) x]).

Definition chi (A : list Z) : list Z :=
  tabulate (fun x y =>
    A.[lane x y] ^^ Z.land (Z.lnot A.[lane (x + 1) y]) A.[lane (x + 2) y]).

Definition iota (RC : Z) (A : list Z) : list Z := <[0%nat := A.[0] ^^ RC]> A.

Definition Rnd (RC : Z) (A : list Z) : list Z := iota RC (chi (pi (rho (theta A)))).

(** Round constants by the linear feedback shift register of algorithm 5. *)
Definition lfsr (r : Z) : Z :=
  let r := Z.shiftl r 1 in if Z.testbit r 8 then Z.lxor r 0x171 else r.

Fixpoint lfsr_bits (fuel : nat) (r : Z) : list bool :=
  match fuel with O => [] | S f => Z.testbit r 0 :: lfsr_bits f (lfsr r) end.

Definition round_constant (ir : nat) : Z :=
  let bits := lfsr_bits 255 1 in
  fold_left (fun c j =>
    if nth (j + 7 * ir) bits false then Z.lor c (Z.shiftl 1 (2 ^ Z.of_nat j - 1)) else c)
    (seq 0 7) 0.

Definition keccak_f (A : list Z) : list Z :=
  fold_left (fun A ir => Rnd (round_constant ir) A) (seq 0 24) A.

End Spec.

(** ** Equivalence

    The unrolled rounds leave every lane where its next round finds it: before
    round [k], the lane [i] of the standard is at position [L_k !! i]. *)

Section Equivalence.

Definition L0 : list nat := seq 0 25.
Definition L1 : list nat :=
  [0; 6; 12; 18; 24; 10; 16; 22; 3; 9; 20; 1; 7; 13; 19;
   5; 11; 17; 23; 4; 15; 21; 2; 8; 14]%nat.
Definition L2 : list nat :=
  [0; 16; 7; 23; 14; 20; 11; 2; 18; 9; 15; 6; 22; 13; 4;
   10; 1; 17; 8; 24; 5; 21; 12; 3; 19]%nat.
Definition L3 : list nat :=
  [0; 11; 22; 8; 19; 15; 1; 12; 23; 9; 5; 16; 2; 13; 24;
   20; 6; 17; 3; 14; 10; 21; 7; 18; 4]%nat.

Definition gather (L : list nat) (a : list Z) : list Z := map (fun i => a.[i]) L.

Lemma list25 (a : list Z) : length a = 25%nat -> a = gather L0 a.
Proof. intros H. do 25 (destruct a as [|? a]; [done|]). by destruct a. Qed.

(** Column parities do not depend on the order of the rows. *)
Ltac xors :=
  cbv -[Z.lxor]; apply Z.bits_inj'; intros; rewrite !Z.lxor_spec; btauto.

Lemma andnot_ldiff x y : Z.land (Z.lnot x) y = y &^ x.
Proof. by rewrite Z.ldiff_land, Z.land_comm. Qed.

Ltac lanes a := do 25 (destruct a as [|? a]; [done|]); destruct a; [|done].
Ltac steps :=
  cbv -[Z.lxor Z.lor Z.ldiff Z.land Z.lnot Z.shiftl Z.shiftr u64]; rewrite !andnot_ldiff.

Lemma theta_with_ext C C' A :
  (forall x, (x < 5)%nat -> C x = C' x) -> theta_with C A = theta_with C' A.
Proof.
  intros H. unfold theta_with, tabulate. cbn [seq flat_map map app].
  repeat f_equal; apply H; cbn; lia.
Qed.

(** The parities as the code computes them. *)
Definition code_column (a : list Z) (x : nat) : Z :=
  a.[x] ^^ a.[x + 5] ^^ a.[x + 10] ^^ a.[x + 15] ^^ a.[x + 20].

Lemma Rnd_code_column L RC a :
  (forall x, (x < 5)%nat -> column (gather L a) x = code_column a x) ->
  Rnd RC (gather L a) =
    iota RC (chi (pi (rho (theta_with (code_column a) (gather L a))))).
Proof. intros H. unfold Rnd, theta. by rewrite (theta_with_ext _ (code_column a)). Qed.

Ltac columns :=
  let x := fresh "x" in let Hx := fresh in
  intros x Hx; do 5 (destruct x as [|x]; [by xors|]); lia.

Lemma round1_Rnd RC a :
  length a = 25%nat -> gather L1 (keccak_round1 RC a) = Rnd RC (gather L0 a).
Proof. intros H. lanes a. steps. reflexivity. Qed.

Lemma round2_Rnd RC a :
  length a = 25%nat -> gather L2 (keccak_round2 RC a) = Rnd RC (gather L1 a).
Proof. intros H. lanes a. rewrite Rnd_code_column by columns. steps. reflexivity. Qed.

Lemma round3_Rnd RC a :
  length a = 25%nat -> gather L3 (keccak_round3 RC a) = Rnd RC (gather L2 a).
Proof. intros H. lanes a. rewrite Rnd_code_column by columns. steps. reflexivity. Qed.

Lemma round4_Rnd RC a :
  length a = 25%nat -> gather L0 (keccak_round4 RC a) = Rnd RC (gather L3 a).
Proof. intros H. lanes a. rewrite Rnd_code_column by columns. steps. reflexivity. Qed.

Lemma length_rounds RC a :
  length a = 25%nat ->
  length (keccak_round1 RC a) = 25%nat /\ length (keccak_round2 RC a) = 25%nat /\
  length (keccak_round3 RC a) = 25%nat /\ length (keccak_round4 RC a) = 25%nat.
Proof. intros H. lanes a. split_and!; reflexivity. Qed.

Lemma length_Rnd RC a : length (Rnd RC a) = 25%nat.
Proof. unfold Rnd, iota. rewrite length_insert. reflexivity. Qed.

#[local] Opaque keccak_round1 keccak_round2 keccak_round3 keccak_round4 Rnd.

Lemma rounds4_unfold i a :
  keccak_rounds4 i a =
    keccak_round4 rc.[i + 3] (keccak_round3 rc.[i + 2]
      (keccak_round2 rc.[i + 1] (keccak_round1 rc.[i] a))).
Proof. reflexivity. Qed.

Lemma round1_Rnd_id RC a :
  length a = 25%nat -> gather L1 (keccak_round1 RC a) = Rnd RC a.
Proof.
  intros H. pose proof (round1_Rnd RC a H) as E. rewrite <- (list25 a H) in E. exact E.
Qed.

Lemma round4_Rnd_id RC a :
  length a = 25%nat -> keccak_round4 RC a = Rnd RC (gather L3 a).
Proof.
  intros H. destruct (length_rounds RC a H) as (_ & _ & _ & H4).
  pose proof (round4_Rnd RC a H) as E. rewrite <- (list25 _ H4) in E. exact E.
Qed.

(** Four rounds that pass the layouts on, whatever they are. *)
Lemma rounds_compose (f1 f2 f3 f4 R1 R2 R3 R4 : list Z -> list Z) :
  (forall a, length a = 25%nat -> gather L1 (f1 a) = R1 a /\ length (f1 a) = 25%nat) ->
  (forall a, length a = 25%nat ->
     gather L2 (f2 a) = R2 (gather L1 a) /\ length (f2 a) = 25%nat) ->
  (forall a, length a = 25%nat ->
     gather L3 (f3 a) = R3 (gather L2 a) /\ length (f3 a) = 25%nat) ->
  (forall a, length a = 25%nat -> f4 a = R4 (gather L3 a) /\ length (f4 a) = 25%nat) ->
  forall a, length a = 25%nat ->
  f4 (f3 (f2 (f1 a))) = R4 (R3 (R2 (R1 a))) /\ length (f4 (f3 (f2 (f1 a)))) = 25%nat.
Proof.
  intros H1 H2 H3 H4 a Ha.
  destruct (H1 a Ha) as [E1 N1]. destruct (H2 _ N1) as [E2 N2].
  destruct (H3 _ N2) as [E3 N3]. destruct (H4 _ N3) as [E4 N4].
  split; [|exact N4]. by rewrite E4, E3, E2, E1.
Qed.

Lemma round1_step RC a : length a = 25%nat ->
  gather L1 (keccak_round1 RC a) = Rnd RC a /\ length (keccak_round1 RC a) = 25%nat.
Proof.
  intros H. destruct (length_rounds RC a H) as (N & _).
  split; [exact (round1_Rnd_id _ _ H)|exact N].
Qed.

Lemma round2_step RC a : length a = 25%nat ->
  gather L2 (keccak_round2 RC a) = Rnd RC (gather L1 a) /\ length (keccak_round2 RC a) = 25%nat.
Proof.
  intros H. destruct (length_rounds RC a H) as (_ & N & _).
  split; [exact (round2_Rnd _ _ H)|exact N].
Qed.

Lemma round3_step RC a : length a = 25%nat ->
  gather L3 (keccak_round3 RC a) = Rnd RC (gather L2 a) /\ length (keccak_round3 RC a) = 25%nat.
Proof.
  intros H. destruct (length_rounds RC a H) as (_ & _ & N & _).
  split; [exact (round3_Rnd _ _ H)|exact N].
Qed.

Lemma round4_step RC a : length a = 25%nat ->
  keccak_round4 RC a = Rnd RC (gather L3 a) /\ length (keccak_round4 RC a) = 25%nat.
Proof.
  intros H. destruct (length_rounds RC a H) as (_ & _ & _ & N).
  split; [exact (round4_Rnd_id _ _ H)|exact N].
Qed.

Lemma rounds_Rnd RC1 RC2 RC3 RC4 : forall a, length a = 25%nat ->
  keccak_round4 RC4 (keccak_round3 RC3 (keccak_round2 RC2 (keccak_round1 RC1 a))) =
    Rnd RC4 (Rnd RC3 (Rnd RC2 (Rnd RC1 a))) /\
  length (keccak_round4 RC4 (keccak_round3 RC3 (keccak_round2 RC2 (keccak_round1 RC1 a))))
    = 25%nat.
Proof.
  apply (rounds_compose (keccak_round1 RC1) (keccak_round2 RC2) (keccak_round3 RC3)
    (keccak_round4 RC4) (Rnd RC1) (Rnd RC2) (Rnd RC3) (Rnd RC4)).
  - exact (round1_step RC1).
  - exact (round2_step RC2).
  - exact (round3_step RC3).
  - exact (round4_step RC4).
Qed.

Lemma rounds4_Rnd i a :
  length a = 25%nat ->
  keccak_rounds4 i a = Rnd rc.[i + 3] (Rnd rc.[i + 2] (Rnd rc.[i + 1] (Rnd rc.[i] a))) /\
  length (keccak_rounds4 i a) = 25%nat.
Proof. intros H. rewrite rounds4_unfold. exact (rounds_Rnd _ _ _ _ a H). Qed.

Lemma fold_steps {A} (f : nat -> A -> A) (R : Z -> A -> A) (ok : A -> Prop)
    (c : nat -> list Z) l a :
  (forall i a, ok a -> f i a = fold_left (fun a z => R z a) (c i) a /\ ok (f i a)) ->
  ok a ->
  fold_left (fun a i => f i a) l a = fold_left (fun a z => R z a) (flat_map c l) a.
Proof.
  intros Hf. revert a. induction l as [|i l IH]; intros a Ha; [done|].
  destruct (Hf i a Ha) as [E H']. cbn [fold_left flat_map].
  rewrite fold_left_app, <- E. by apply IH.
Qed.

Lemma fold_left_map {A B C} (f : A -> B -> A) (g : C -> B) l a :
  fold_left f (map g l) a = fold_left (fun a c => f a (g c)) l a.
Proof. revert a. induction l as [|c l IH]; intros a; [done|apply IH]. Qed.

(** The constants of four rounds. *)
Definition rc4 (i : nat) : list Z := [rc.[i]; rc.[i + 1]; rc.[i + 2]; rc.[i + 3]].

Lemma rc_by_four : flat_map rc4 [0; 4; 8; 12; 16; 20]%nat = rc.
Proof. reflexivity. Qed.

Lemma rounds4_Rnd4 i a : length a = 25%nat ->
  keccak_rounds4 i a = fold_left (fun A RC => Rnd RC A) (rc4 i) a /\
  length (keccak_rounds4 i a) = 25%nat.
Proof. intros H. unfold rc4. cbn [fold_left]. exact (rounds4_Rnd i a H). Qed.

#[local] Opaque keccak_rounds4.

Lemma keccakF1600_fold a :
  keccakF1600 a = fold_left (fun a i => keccak_rounds4 i a) [0; 4; 8; 12; 16; 20]%nat a.
Proof. reflexivity. Qed.

Lemma round_constant_rc : map round_constant (seq 0 24) = rc.
Proof. vm_compute. reflexivity. Qed.

Lemma keccakF1600_keccak_f a : length a = 25%nat -> keccakF1600 a = keccak_f a.
Proof.
  intros Hlen. transitivity (fold_left (fun A RC => Rnd RC A) rc a).
  - rewrite <- rc_by_four, keccakF1600_fold.
    exact (fold_steps keccak_rounds4 Rnd (fun a => length a = 25%nat) rc4
      [0; 4; 8; 12; 16; 20]%nat a rounds4_Rnd4 Hlen).
  - rewrite <- round_constant_rc. apply fold_left_map.
Qed.

Lemma length_keccak_f a : length (keccak_f a) = 25%nat.
Proof.
  unfold keccak_f. change (seq 0 24) with (seq 0 23 ++ [23%nat]).
  rewrite fold_left_app. exact (length_Rnd _ _).
Qed.

End Equivalence.

(** ** Properties *)

(** C3: the unrolled, in-place [keccakF1600] computes the permutation
    Keccak-f[1600] of FIPS 202 on every state, and its table of round constants
    is the one the standard generates. *)
Theorem keccakF1600_spec a (Hlen : length a = 25%nat) :
  keccakF1600 a = keccak_f a /\ map round_constant (seq 0 24) = rc.
Proof. split; [exact (keccakF1600_keccak_f a Hlen)|exact round_constant_rc]. Qed.

Lemma keccakF1600_spec_witness :
  keccakF1600 (replicate 25 0) = keccak_f (replicate 25 0) /\
  (keccakF1600 (replicate 25 0)).[0] = 0xF1258F7940E1DDE7.
Proof.
  split; [exact (proj1 (keccakF1600_spec (replicate 25 0) eq_refl))|vm_compute; reflexivity].
Defined.
