(* ===== verification/Sponge.v ===== *)
(** * The sponge of [src/crypto/sha3]: [sha3.go], [xor_generic.go],
    [xor_unaligned.go], [hashes.go], [shake.go]

    [buf] is a slice of [storage]: where it starts and how long it is.  Its
    capacity reaches to the end of [storage], so that appending writes into
    [storage].  A panic is [None]. *)

From S2P Require Import Prelude Keccak.
Local Open Scope Z_scope.
Local Open Scope lane_scope.

Definition maxRate : nat := 168.

Inductive spongeDirection := spongeAbsorbing | spongeSqueezing.

Record state := State {
  a : list Z; buf : option (nat * nat); rate : nat; dsbyte : Z;
  storage : bytes; outputLen : nat; dir : spongeDirection }.

Definition set_a (x : list Z) (d : state) : state :=
  State x (buf d) (rate d) (dsbyte d) (storage d) (outputLen d) (dir d).
Definition set_buf (b : option (nat * nat)) (d : state) : state :=
  State (a d) b (rate d) (dsbyte d) (storage d) (outputLen d) (dir d).
Definition set_storage (s : bytes) (d : state) : state :=
  State (a d) (buf d) (rate d) (dsbyte d) s (outputLen d) (dir d).
Definition set_dir (x : spongeDirection) (d : state) : state :=
  State (a d) (buf d) (rate d) (dsbyte d) (storage d) (outputLen d) x.

(** ** Slices of [storage] *)

Definition write_at (s : bytes) (o : nat) (b : bytes) : bytes :=
  take o s ++ b ++ drop (o + length b) s.

Definition buf_start (d : state) : nat := match buf d with Some (o, _) => o | None => 0 end.
Definition buf_len (d : state) : nat := match buf d with Some (_, n) => n | None => 0 end.
Definition buf_cap (d : state) : nat :=
  match buf d with Some (o, _) => maxRate - o | None => 0 end.
Definition buf_bytes (d : state) : bytes := take (buf_len d) (drop (buf_start d) (storage d)).

(** [d.buf = append(d.buf, b...)] within the capacity. *)
Definition append_buf (b : bytes) (d : state) : state :=
  set_buf (Some (buf_start d, buf_len d + length b)%nat)
    (set_storage (write_at (storage d) (buf_start d + buf_len d) b) d).

Definition whole (n : nat) : option (nat * nat) := Some (0%nat, n).

(** ** Words *)

Definition le64 (b : bytes) : Z := le_val (take 8 b).

Fixpoint xorIn_loop (n i : nat) (b : bytes) (x : list Z) : list Z :=
  match n with
  | O => x
  | S n' => xorIn_loop n' (S i) (drop 8 b) (<[i := x.[i] ^^ le64 b]> x)
  end.

Definition xorInGeneric (x : list Z) (b : bytes) : list Z :=
  xorIn_loop (length b / 8) 0 b x.

(** The words [lo], ..., [hi - 1] of the buffer read as an array of words. *)
Definition xor_words (lo hi : nat) (b : bytes) (x : list Z) : list Z :=
  fold_left (fun x i => <[i := x.[i] ^^ le64 (drop (8 * i) b)]> x) (seq lo (hi - lo)) x.

Definition xorInUnaligned (x : list Z) (b : bytes) : list Z :=
  let n := length b in
  let x := if (72 <=? n)%nat then xor_words 0 9 b x else x in
  let x := if (104 <=? n)%nat then xor_words 9 13 b x else x in
  let x := if (136 <=? n)%nat then xor_words 13 17 b x else x in
  let x := if (144 <=? n)%nat then xor_words 17 18 b x else x in
  if (168 <=? n)%nat then xor_words 18 21 b x else x.

(** The bytes that are stored into a buffer of [n] bytes: [PutUint64] as long
    as 8 bytes are left. *)
Fixpoint copyOut_loop (fuel n i : nat) (x : list Z) : bytes :=
  match fuel with
  | O => []
  | S f => if (8 <=? n)%nat then le_bytes 8 x.[i] ++ copyOut_loop f (n - 8) (S i) x else []
  end.

Definition copyOutGeneric (x : list Z) (n : nat) : bytes := copyOut_loop (S n) n 0 x.

Definition state_bytes (x : list Z) : bytes := flat_map (le_bytes 8) x.

Definition copyOutUnaligned (x : list Z) (n : nat) : bytes :=
  take n (take maxRate (state_bytes x)).

(** ** Operations *)

Definition xorIn (d : state) (b : bytes) : state := set_a (xorInGeneric (a d) b) d.

(** [copyOut(d, d.buf)]. *)
Definition copyOut (d : state) : state :=
  set_storage (write_at (storage d) (buf_start d) (copyOutGeneric (a d) (buf_len d))) d.

Definition keccak_a (d : state) : state := set_a (keccakF1600 (a d)) d.

Definition sha_Reset (d : state) : state :=
  set_buf (whole 0) (set_dir spongeAbsorbing (set_a (map (fun _ => 0) (a d)) d)).

(** [clone]: slicing panics when the bounds are out of order or outside of the
    array; the lower bound is computed from the capacity. *)
Definition clone (d : state) : option state :=
  match dir d with
  | spongeAbsorbing => Some (set_buf (whole (buf_len d)) d)
  | spongeSqueezing =>
      let lo := Z.of_nat (rate d) - Z.of_nat (buf_cap d) in
      if lo <? 0 then None
      else Some (set_buf (Some (Z.to_nat lo, rate d - Z.to_nat lo)%nat) d)
  end.
Definition Clone (d : state) : option state := clone d.
Definition BlockSize (d : state) : nat := rate d.
Definition Size (d : state) : nat := outputLen d.

Definition permute (d : state) : state :=
  match dir d with
  | spongeAbsorbing => keccak_a (set_buf (whole 0) (xorIn d (buf_bytes d)))
  | spongeSqueezing => copyOut (set_buf (whole (rate d)) (keccak_a d))
  end.

(** [if d.buf == nil { d.buf = d.storage[:0] }]. *)
Definition init_buf (d : state) : state :=
  match buf d with None => set_buf (whole 0) d | Some _ => d end.

Definition padAndPermute (ds : Z) (d : state) : state :=
  let d := init_buf d in
  let d := append_buf [ds] d in
  let zerosStart := buf_len d in
  let d := set_buf (whole (rate d)) d in
  let d := set_storage
    (write_at (storage d) zerosStart (replicate (rate d - zerosStart) 0)) d in
  let d := set_storage
    (<[(rate d - 1)%nat := Z.lxor (nth (rate d - 1) (storage d) 0) 0x80]> (storage d)) d in
  let d := permute d in
  let d := set_dir spongeSqueezing d in
  copyOut (set_buf (whole (rate d)) d).

(** The loop of [Write]: every round consumes at least one byte. *)
Fixpoint Write_loop (fuel : nat) (p : bytes) (d : state) : state :=
  match fuel with
  | O => d
  | S f =>
      if (0 <? length p)%nat then
        if ((buf_len d =? 0) && (rate d <=? length p))%nat then
          Write_loop f (drop (rate d) p) (keccak_a (xorIn d (take (rate d) p)))
        else
          let todo := Nat.min (rate d - buf_len d) (length p) in
          let d := append_buf (take todo p) d in
          let d := if (buf_len d =? rate d)%nat then permute d else d in
          Write_loop f (drop todo p) d
      else d
  end.

Definition Write (d : state) (p : bytes) : option (state * nat) :=
  match dir d with
  | spongeSqueezing => None
  | spongeAbsorbing => Some (Write_loop (length p) p (init_buf d), length p)
  end.

(** The loop of [Read]: [n] bytes are still wanted. *)
Fixpoint Read_loop (fuel n : nat) (d : state) (out : bytes) : state * bytes :=
  match fuel with
  | O => (d, out)
  | S f =>
      if (0 <? n)%nat then
        let m := Nat.min n (buf_len d) in
        let out := out ++ take m (buf_bytes d) in
        let d := set_buf (Some (buf_start d + m, buf_len d - m)%nat) d in
        let d := if (buf_len d =? 0)%nat then permute d else d in
        Read_loop f (n - m) d out
      else (d, out)
  end.

Definition Read (d : state) (n : nat) : state * bytes :=
  let d := match dir d with
           | spongeAbsorbing => padAndPermute (dsbyte d) d
           | spongeSqueezing => d
           end in
  Read_loop n n d [].

(** [Sum] works on a clone. *)
Definition Sum (d : state) (input : bytes) : option bytes :=
  dup ← clone d; Some (input ++ (Read dup (outputLen dup)).2).

(** ** Instances *)

Definition new_state (rate : nat) (outputLen : nat) (dsbyte : Z) : state :=
  State (replicate 25 0) None rate dsbyte (replicate maxRate 0) outputLen spongeAbsorbing.

Definition NewKeccak256 : state := new_state 136 32 0x01.
Definition NewKeccak512 : state := new_state 72 64 0x01.
Definition New224 : state := new_state 144 28 0x06.
Definition New256 : state := new_state 136 32 0x06.
Definition New384 : state := new_state 104 48 0x06.
Definition New512 : state := new_state 72 64 0x06.
Definition NewShake128 : state := new_state 168 0 0x1f.
Definition NewShake256 : state := new_state 136 0 0x1f.

(** [h.Write(data); h.Sum(digest[:0])]. *)
Definition write_sum (h : state) (data : bytes) : option bytes :=
  '(h, _) ← Write h data; Sum h [].

Definition Sum224 : bytes -> option bytes := write_sum New224.
Definition Sum256 : bytes -> option bytes := write_sum New256.
Definition Sum384 : bytes -> option bytes := write_sum New384.
Definition Sum512 : bytes -> option bytes := write_sum New512.

(** [h.Write(data); h.Read(hash)]. *)
Definition write_read (h : state) (n : nat) (data : bytes) : option bytes :=
  '(h, _) ← Write h data; Some (Read h n).2.

Definition ShakeSum128 : nat -> bytes -> option bytes := write_read NewShake128.
Definition ShakeSum256 : nat -> bytes -> option bytes := write_read NewShake256.

(** ** The sponge construction of FIPS 202

    [absorb k r x m] absorbs the first [k] blocks of [m]; [squeeze k r x] is the
    output of [k] rounds. *)

Section Spec.

Definition xor_lanes (x : list Z) (b : bytes) : list Z :=
  imap (fun i v => if (8 * i + 8 <=? length b)%nat then v ^^ le64 (drop (8 * i) b) else v) x.

Fixpoint absorb (k r : nat) (x : list Z) (m : bytes) : list Z :=
  match k with
  | O => x
  | S k' => absorb k' r (keccak_f (xor_lanes x (take r m))) (drop r m)
  end.

Fixpoint squeeze (k r : nat) (x : list Z) : bytes :=
  match k with
  | O => []
  | S k' => take r (state_bytes x) ++ squeeze k' r (keccak_f x)
  end.

(** Domain bits, zeros, and the last bit of a block. *)
Definition padding (r : nat) (ds : Z) (len : nat) : bytes :=
  let q := (r - len mod r)%nat in
  if (q =? 1)%nat then [Z.lxor ds 0x80] else ds :: replicate (q - 2) 0 ++ [0x80].

Definition absorbed (r : nat) (ds : Z) (m : bytes) : list Z :=
  absorb (S (length m / r)) r (replicate 25 0) (m ++ padding r ds (length m)).

Definition sponge (r : nat) (ds : Z) (n : nat) (m : bytes) : bytes :=
  take n (squeeze (S (n / r)) r (absorbed r ds m)).

End Spec.

(** ** Words in and out *)

Section Words.

Lemma nth_lookup_default {A} (l : list A) i d x : l !! i = Some x -> nth i l d = x.
Proof. intros H. by rewrite nth_lookup, H. Qed.

Lemma xorIn_loop_lookup n i b x j :
  (i + n <= length x)%nat ->
  xorIn_loop n i b x !! j =
    if ((i <=? j) && (j <? i + n))%nat
    then (fun v => v ^^ le64 (drop (8 * (j - i)) b)) <$> x !! j else x !! j.
Proof.
  revert i b x. induction n as [|n IH]; intros i b x Hn; cbn [xorIn_loop].
  { destruct (Nat.leb_spec i j), (Nat.ltb_spec j (i + 0)); cbn; done || lia. }
  rewrite IH by (rewrite length_insert; lia). rewrite drop_drop.
  destruct (decide (j = i)) as [->|Hne].
  - rewrite list_lookup_insert_eq by lia.
    destruct (lookup_lt_is_Some_2 x i ltac:(lia)) as [v Hv]. rewrite Hv.
    rewrite (nth_lookup_default _ _ _ _ Hv), Nat.sub_diag.
    destruct (Nat.leb_spec (S i) i); [lia|].
    destruct (Nat.leb_spec i i), (Nat.ltb_spec i (i + S n)); try lia. by cbn.
  - rewrite list_lookup_insert_ne by done.
    destruct (Nat.leb_spec (S i) j), (Nat.leb_spec i j),
      (Nat.ltb_spec j (S i + n)), (Nat.ltb_spec j (i + S n)); cbn [andb]; try lia; try done.
    by replace (8 + 8 * (j - S i))%nat with (8 * (j - i))%nat by lia.
Qed.

Lemma length_xorIn_loop n i b x : length (xorIn_loop n i b x) = length x.
Proof.
  revert i b x. induction n as [|n IH]; intros i b x; cbn; [done|].
  by rewrite IH, length_insert.
Qed.

Lemma xorInGeneric_lanes x b :
  (length b <= 8 * length x)%nat -> xorInGeneric x b = xor_lanes x b.
Proof.
  intros Hl. assert (Hn : (length b / 8 <= length x)%nat).
  { apply Nat.Div0.div_le_upper_bound. lia. }
  apply list_eq. intros j. unfold xorInGeneric, xor_lanes.
  rewrite xorIn_loop_lookup, list_lookup_imap by lia. cbn [Nat.leb andb].
  rewrite Nat.sub_0_r, Nat.add_0_l.
  assert (Hiff : (j < length b / 8 <-> 8 * j + 8 <= length b)%nat).
  { split; intros H.
    - pose proof (Nat.Div0.mul_div_le (length b) 8). lia.
    - apply Nat.div_le_lower_bound; lia. }
  destruct (Nat.ltb_spec j (length b / 8)), (Nat.leb_spec (8 * j + 8) (length b)); try lia.
  all: by destruct (x !! j).
Qed.

Lemma xor_words_lookup lo hi b x j :
  (hi <= length x)%nat ->
  xor_words lo hi b x !! j =
    if ((lo <=? j) && (j <? hi))%nat
    then (fun v => v ^^ le64 (drop (8 * j) b)) <$> x !! j else x !! j.
Proof.
  intros Hhi. unfold xor_words. remember (hi - lo)%nat as k eqn:Ek.
  revert lo x Ek Hhi. induction k as [|k IH]; intros lo x Ek Hhi; cbn [seq fold_left].
  { destruct (Nat.leb_spec lo j), (Nat.ltb_spec j hi); cbn; done || lia. }
  rewrite IH by (rewrite ?length_insert; lia).
  destruct (decide (j = lo)) as [->|Hne].
  - rewrite list_lookup_insert_eq by lia.
    destruct (lookup_lt_is_Some_2 x lo ltac:(lia)) as [v Hv]. rewrite Hv.
    rewrite (nth_lookup_default _ _ _ _ Hv).
    destruct (Nat.leb_spec (S lo) lo); [lia|].
    destruct (Nat.leb_spec lo lo), (Nat.ltb_spec lo hi); try lia. by cbn.
  - rewrite list_lookup_insert_ne by done.
    destruct (Nat.leb_spec (S lo) j), (Nat.leb_spec lo j), (Nat.ltb_spec j hi);
      cbn; done || lia.
Qed.

Lemma xor_words_join lo mid hi b x :
  (lo <= mid <= hi)%nat ->
  xor_words mid hi b (xor_words lo mid b x) = xor_words lo hi b x.
Proof.
  intros H. unfold xor_words. rewrite <- fold_left_app.
  replace (hi - lo)%nat with (mid - lo + (hi - mid))%nat by lia.
  rewrite seq_app. by replace (lo + (mid - lo))%nat with mid by lia.
Qed.

Lemma xor_words_lanes k b x :
  length b = (8 * k)%nat -> (k <= length x)%nat -> xor_words 0 k b x = xor_lanes x b.
Proof.
  intros Hb Hk. apply list_eq. intros j. unfold xor_lanes.
  rewrite xor_words_lookup, list_lookup_imap by done. cbn [Nat.leb andb].
  destruct (Nat.ltb_spec j k), (Nat.leb_spec (8 * j + 8) (length b)); try lia.
  all: by destruct (x !! j).
Qed.

Lemma length_xor_words lo hi b x : length (xor_words lo hi b x) = length x.
Proof.
  unfold xor_words. generalize (seq lo (hi - lo)) as l. intros l. revert x.
  induction l as [|i l IH]; intros x; cbn; [done|]. by rewrite IH, length_insert.
Qed.

Lemma copyOut_loop_bytes f n i x :
  (n < f)%nat -> (n <= 8 * (length x - i))%nat -> (n mod 8 = 0)%nat ->
  copyOut_loop f n i x = take n (state_bytes (drop i x)).
Proof.
  revert n i. induction f as [|f IH]; intros n i Hf Hn Hm; [lia|]. cbn [copyOut_loop].
  destruct (Nat.leb_spec 8 n).
  - destruct (lookup_lt_is_Some_2 x i ltac:(lia)) as [v Hv].
    rewrite (nth_lookup_default _ _ _ _ Hv), (drop_S x v i Hv). cbn [state_bytes flat_map].
    rewrite IH; [|lia|lia|].
    + rewrite take_app, length_le_bytes. f_equal. rewrite take_ge; [done|].
      rewrite length_le_bytes. lia.
    + replace n with (n - 8 + 1 * 8)%nat in Hm by lia.
      by rewrite Nat.Div0.mod_add in Hm.
  - assert (n = 0)%nat as ->; [|done]. by rewrite Nat.mod_small in Hm by lia.
Qed.

Lemma length_state_bytes x : length (state_bytes x) = (8 * length x)%nat.
Proof.
  unfold state_bytes. induction x as [|v x IH]; [done|].
  cbn [flat_map length]. rewrite length_app, length_le_bytes, IH. lia.
Qed.

Lemma copyOutGeneric_bytes x n :
  (n <= 8 * length x)%nat -> (n mod 8 = 0)%nat -> copyOutGeneric x n = take n (state_bytes x).
Proof.
  intros Hn Hm. unfold copyOutGeneric. rewrite copyOut_loop_bytes by lia. by rewrite drop_0.
Qed.

End Words.

(** ** Absorbing *)

Section Absorbing.
#[local] Opaque keccak_f keccakF1600.

Definition rate_ok (r : nat) : Prop := (0 < r <= maxRate)%nat /\ (r mod 8 = 0)%nat.

Record sizes (d : state) : Prop := Sizes {
  sz_a : length (a d) = 25%nat; sz_storage : length (storage d) = maxRate;
  sz_rate : rate_ok (rate d) }.

(** [d] has absorbed [m]: [k] full blocks, the rest is in the buffer. *)
Definition absorbing (d : state) (m : bytes) : Prop :=
  sizes d /\ dir d = spongeAbsorbing /\
  exists k full tl, m = full ++ tl /\ length full = (k * rate d)%nat /\
    (length tl < rate d)%nat /\ a d = absorb k (rate d) (replicate 25 0) full /\
    buf d = whole (length tl) /\ take (length tl) (storage d) = tl.

Lemma absorb_prefix k r x m m' :
  (k * r <= length m)%nat -> absorb k r x (m ++ m') = absorb k r x m.
Proof.
  revert x m. induction k as [|k IH]; intros x m Hk; [done|]. cbn [absorb].
  rewrite take_app_le, drop_app_le by lia. apply IH. rewrite length_drop. lia.
Qed.

Lemma absorb_block k r x m b :
  length m = (k * r)%nat -> length b = r ->
  absorb (S k) r x (m ++ b) = keccak_f (xor_lanes (absorb k r x m) b).
Proof.
  revert x m. induction k as [|k IH]; intros x m Hm Hb.
  { destruct m; [|cbn in Hm; lia]. cbn [absorb app]. by rewrite take_ge by lia. }
  cbn [absorb] in *. rewrite take_app_le, drop_app_le by lia.
  rewrite IH; [done| |done]. rewrite length_drop. lia.
Qed.

Lemma xorIn_absorb d b :
  sizes d -> length b = rate d ->
  keccakF1600 (xorInGeneric (a d) b) = keccak_f (xor_lanes (a d) b) /\
  length (keccak_f (xor_lanes (a d) b)) = 25%nat.
Proof.
  intros [Ha Hs [Hr Hm]] Hb. split; [|apply length_keccak_f].
  rewrite xorInGeneric_lanes by (unfold maxRate in *; lia).
  rewrite keccakF1600_keccak_f; [done|]. unfold xor_lanes. by rewrite length_imap.
Qed.

Lemma length_write_at s o b :
  (o + length b <= length s)%nat -> length (write_at s o b) = length s.
Proof. intros H. unfold write_at. rewrite !length_app, length_take, length_drop. lia. Qed.

Lemma take_write_at s o b :
  (o + length b <= length s)%nat -> take (o + length b) (write_at s o b) = take o s ++ b.
Proof.
  intros H. unfold write_at. rewrite app_assoc, take_app_le.
  - rewrite take_ge; [done|]. rewrite length_app, length_take. lia.
  - rewrite length_app, length_take. lia.
Qed.

Lemma split_app (n : nat) (m p : bytes) : m ++ p = (m ++ take n p) ++ drop n p.
Proof. by rewrite <- app_assoc, take_drop. Qed.

(** One more full block. *)
Lemma absorbing_block d k full tl b st :
  sizes d -> length full = (k * rate d)%nat ->
  a d = absorb k (rate d) (replicate 25 0) full -> length (tl ++ b) = rate d ->
  length st = maxRate ->
  absorbing (State (keccakF1600 (xorInGeneric (a d) (tl ++ b))) (whole 0) (rate d)
    (dsbyte d) st (outputLen d) spongeAbsorbing) ((full ++ tl) ++ b).
Proof.
  intros Hsz Hf Ha Hb Hst. destruct (xorIn_absorb d (tl ++ b) Hsz Hb) as [E El].
  rewrite E. clear E. destruct (sz_rate _ Hsz) as [Hr Hm].
  rewrite Ha in El |- *. rewrite <- app_assoc.
  pose proof (absorb_block k (rate d) (replicate 25 0) full (tl ++ b) Hf Hb) as Eb.
  rewrite <- Eb in El |- *. clear Eb.
  assert (Hlen : length (full ++ tl ++ b) = (S k * rate d)%nat).
  { rewrite length_app, Hb, Hf. cbn [Nat.mul]. lia. }
  split; [split; [exact El|exact Hst|exact (conj Hr Hm)]|]. split; [reflexivity|].
  exists (S k), (full ++ tl ++ b), []. cbn [rate buf storage length take].
  rewrite app_nil_r. split; [reflexivity|]. split; [exact Hlen|]. split; [lia|].
  split; [reflexivity|]. split; reflexivity.
Qed.

Lemma Write_loop_absorbing fuel p d m :
  (length p <= fuel)%nat -> absorbing d m -> absorbing (Write_loop fuel p d) (m ++ p).
Proof.
  revert p d m. induction fuel as [|fuel IH]; intros p d m Hf Habs.
  { destruct p; [|cbn in Hf; lia]. cbn. by rewrite app_nil_r. }
  cbn [Write_loop]. destruct (Nat.ltb_spec 0 (length p)) as [Hp|Hp].
  2: { destruct p; [|cbn in Hp; lia]. by rewrite app_nil_r. }
  destruct Habs as (Hsz & Hdir & k & full & tl & -> & Hfull & Htl & Ha & Hbuf & Hst).
  destruct (sz_rate _ Hsz) as [Hr _].
  assert (Hbl : buf_len d = length tl) by (unfold buf_len; by rewrite Hbuf).
  assert (Hbs : buf_start d = 0%nat) by (unfold buf_start; by rewrite Hbuf).
  destruct (_ && _)%bool eqn:Efast.
  - apply andb_true_iff in Efast as [E0 E1]. apply Nat.eqb_eq in E0. apply Nat.leb_le in E1.
    assert (tl = []) as -> by (destruct tl; [reflexivity|cbn in Hbl; lia]).
    rewrite (split_app (rate d)). apply IH.
    { rewrite length_drop. lia. }
    pose proof (absorbing_block d k full [] (take (rate d) p) (storage d) Hsz Hfull Ha)
      as Hnew. cbn [app] in Hnew.
    unfold keccak_a, xorIn, set_a. cbn [a buf rate dsbyte storage outputLen dir].
    rewrite Hbuf, Hdir. apply Hnew; [rewrite length_take; lia|apply Hsz].
  - set (todo := Nat.min (rate d - buf_len d) (length p)).
    assert (Htodo : (0 < todo <= length p)%nat) by lia.
    rewrite (split_app todo). apply IH.
    { rewrite length_drop. lia. }
    assert (Hlt : length (take todo p) = todo) by (rewrite length_take; lia).
    assert (Hroom : (length tl + length (take todo p) <= length (storage d))%nat).
    { rewrite (sz_storage _ Hsz), Hlt. lia. }
    assert (Hlast : take (length tl + todo) (write_at (storage d) (length tl) (take todo p))
      = tl ++ take todo p).
    { rewrite <- Hlt at 1. rewrite take_write_at by done. by rewrite Hst. }
    unfold append_buf. cbn [buf_len buf rate set_buf set_storage].
    rewrite Hbs, Hbl, Hlt, Nat.add_0_l.
    destruct (Nat.eqb_spec (length tl + todo) (rate d)) as [Efull|Enot].
    + unfold permute. cbn [dir set_buf set_storage]. rewrite Hdir.
      unfold keccak_a, xorIn, set_a, set_buf, set_storage, buf_bytes, buf_len, buf_start.
      cbn [a buf rate dsbyte storage outputLen dir]. rewrite drop_0, Hlast, Hdir.
      apply (absorbing_block d k); [exact Hsz|exact Hfull|exact Ha| |].
      * rewrite length_app. lia.
      * rewrite length_write_at by done. apply Hsz.
    + split; [|split; [done|]].
      { split; cbn; [apply Hsz| |apply Hsz]. rewrite length_write_at by done. apply Hsz. }
      exists k, full, (tl ++ take todo p). cbn [rate a buf storage set_buf set_storage].
      rewrite length_app, Hlt. split_and!; try done; [by rewrite app_assoc|lia].
Qed.

Lemma absorbing_new r n ds : rate_ok r -> absorbing (init_buf (new_state r n ds)) [].
Proof.
  intros Hr. split; [done|]. split; [done|]. exists 0%nat, [], [].
  destruct Hr as [? _]. split_and!; done || (cbn; lia).
Qed.

Lemma absorbing_init d m : absorbing d m -> init_buf d = d.
Proof.
  intros (_ & _ & k & full & tl & _ & _ & _ & _ & Hb & _). unfold init_buf. by rewrite Hb.
Qed.

End Absorbing.

(** ** Squeezing *)

Section Squeezing.
#[local] Opaque keccak_f keccakF1600.

(** [d] has given out [P] bytes of the output that starts with state [x0]. *)
Definition squeezed (d : state) (x0 : list Z) (P : nat) : Prop :=
  sizes d /\ dir d = spongeSqueezing /\ length x0 = 25%nat /\
  exists j o, P = (j * rate d + o)%nat /\ (o < rate d)%nat /\
    a d = Nat.iter j keccak_f x0 /\ buf d = Some (o, rate d - o)%nat /\
    take (rate d) (storage d) = take (rate d) (state_bytes (a d)).

Lemma length_iter_keccak j x : length x = 25%nat -> length (Nat.iter j keccak_f x) = 25%nat.
Proof. intros H. destruct j; [exact H|]. exact (length_keccak_f _). Qed.

Lemma length_block r x :
  rate_ok r -> length x = 25%nat -> length (take r (state_bytes x)) = r.
Proof.
  intros [Hr _] Hx. rewrite length_take, length_state_bytes, Hx. unfold maxRate in Hr. lia.
Qed.

Lemma squeeze_drop j K r x :
  rate_ok r -> length x = 25%nat -> (j <= K)%nat ->
  drop (j * r) (squeeze K r x) = squeeze (K - j) r (Nat.iter j keccak_f x).
Proof.
  intros Hr Hx. revert K x Hx. induction j as [|j IH]; intros K x Hx HK.
  { by rewrite drop_0, Nat.sub_0_r. }
  destruct K as [|K]; [lia|]. cbn [squeeze Nat.sub Nat.mul].
  rewrite <- drop_drop, drop_app_length' by (by rewrite length_block).
  rewrite IH; [|exact (length_keccak_f x)|lia]. by rewrite <- Nat.iter_succ_r.
Qed.

Lemma squeeze_piece j o m K r x :
  rate_ok r -> length x = 25%nat -> (j < K)%nat -> (o + m <= r)%nat ->
  take m (drop (j * r + o) (squeeze K r x)) =
  take m (drop o (take r (state_bytes (Nat.iter j keccak_f x)))).
Proof.
  intros Hr Hx HK Ho. rewrite <- drop_drop, squeeze_drop by (done || lia).
  destruct (K - j)%nat as [|k] eqn:E; [lia|]. cbn [squeeze].
  pose proof (length_block r (Nat.iter j keccak_f x) Hr (length_iter_keccak j x Hx)) as Hb.
  revert Hb. generalize (take r (state_bytes (Nat.iter j keccak_f x))) as blk.
  intros blk Hb. rewrite drop_app_le by lia. rewrite take_app_le; [done|].
  rewrite length_drop. lia.
Qed.

(** Output is stored at the front of [storage]. *)
Lemma copyOut_storage d :
  sizes d -> buf d = whole (rate d) ->
  let d' := copyOut d in
  sizes d' /\ rate d' = rate d /\ dir d' = dir d /\ a d' = a d /\ buf d' = whole (rate d) /\
  take (rate d) (storage d') = take (rate d) (state_bytes (a d)).
Proof.
  intros [Ha Hs Hr] Hb d'. unfold d', copyOut, buf_start, buf_len. rewrite Hb.
  cbn [whole]. pose proof (length_block _ _ Hr Ha) as Hl. destruct Hr as [Hr Hm].
  rewrite copyOutGeneric_bytes by (unfold maxRate in *; lia).
  assert (Hroom : (0 + length (take (rate d) (state_bytes (a d))) <= length (storage d))%nat)
    by (rewrite Hs; lia).
  split_and!; try reflexivity; [|exact Hb|].
  - split; cbn [a storage rate set_storage]; [exact Ha| |split; [exact Hr|exact Hm]].
    rewrite length_write_at by exact Hroom. exact Hs.
  - cbn [storage set_storage]. pose proof (take_write_at _ _ _ Hroom) as E.
    rewrite Hl, Nat.add_0_l in E. exact E.
Qed.

Lemma squeeze_permute d x0 j :
  sizes d -> dir d = spongeSqueezing -> length x0 = 25%nat ->
  a d = Nat.iter j keccak_f x0 ->
  squeezed (permute d) x0 (S j * rate d).
Proof.
  intros Hsz Hdir Hx Ha. unfold permute. rewrite Hdir.
  set (d1 := set_buf _ _).
  assert (E1 : a d1 = Nat.iter (S j) keccak_f x0).
  { unfold d1. cbn [a set_buf keccak_a set_a]. rewrite keccakF1600_keccak_f by apply Hsz.
    by rewrite Ha. }
  assert (Hsz1 : sizes d1).
  { split; [|apply Hsz|apply Hsz]. rewrite E1. by apply length_iter_keccak. }
  destruct (copyOut_storage d1 Hsz1 eq_refl) as (Hs' & Hr' & Hd' & Ha' & Hb' & Hst').
  split; [exact Hs'|]. split; [rewrite Hd'; exact Hdir|]. split; [exact Hx|].
  exists (S j), 0%nat. rewrite Hr', Ha', Hb', Nat.sub_0_r, Nat.add_0_r.
  destruct (sz_rate _ Hsz) as [Hr _].
  split; [reflexivity|]. split; [cbn; lia|]. split; [exact E1|]. split; [reflexivity|exact Hst'].
Qed.

Lemma Read_loop_squeezed fuel n d out x0 P K :
  squeezed d x0 P -> (n <= fuel)%nat -> (P + n <= K * rate d)%nat ->
  exists d', Read_loop fuel n d out =
      (d', out ++ take n (drop P (squeeze K (rate d) x0))) /\
    squeezed d' x0 (P + n) /\ rate d' = rate d.
Proof.
  revert n d out P. induction fuel as [|fuel IH]; intros n d out P Hd Hn HK.
  { exists d. replace n with 0%nat by lia. cbn. rewrite app_nil_r, Nat.add_0_r. done. }
  cbn [Read_loop]. destruct (Nat.ltb_spec 0 n) as [Hpos|Hz].
  2: { exists d. replace n with 0%nat by lia. cbn. rewrite app_nil_r, Nat.add_0_r. done. }
  destruct Hd as (Hsz & Hdir & Hx & j & o & -> & Ho & Ha & Hb & Hst).
  assert (Hbl : buf_len d = (rate d - o)%nat) by (unfold buf_len; by rewrite Hb).
  assert (Hbs : buf_start d = o) by (unfold buf_start; by rewrite Hb).
  rewrite Hbl, Hbs. set (m := Nat.min n (rate d - o)).
  assert (Hm : (0 < m <= n)%nat) by lia. assert (Hom : (o + m <= rate d)%nat) by lia.
  assert (HjK : (j < K)%nat) by nia.
  assert (Hout : take m (buf_bytes d) =
    take m (drop (j * rate d + o) (squeeze K (rate d) x0))).
  { rewrite (squeeze_piece j o m K) by (apply Hsz || lia). rewrite <- Ha, <- Hst.
    unfold buf_bytes. rewrite Hbl, Hbs, take_take, Nat.min_l by lia.
    rewrite skipn_firstn_comm, take_take, Nat.min_l by lia. reflexivity. }
  rewrite Hout. set (d1 := set_buf (Some _) d).
  set (d2 := if (buf_len d1 =? 0)%nat then permute d1 else d1).
  assert (Hd2 : squeezed d2 x0 (j * rate d + o + m) /\ rate d2 = rate d).
  { unfold d2, d1, buf_len. cbn [buf set_buf].
    destruct (Nat.eqb_spec (rate d - o - m) 0) as [E|E].
    - split; [|unfold permute; cbn [dir set_buf]; rewrite Hdir; reflexivity].
      replace (j * rate d + o + m)%nat with (S j * rate d)%nat by (cbn; lia).
      apply (squeeze_permute (set_buf _ d)); [destruct Hsz; split; assumption|assumption..].
    - split; [|reflexivity]. split; [destruct Hsz; split; assumption|].
      split; [exact Hdir|]. split; [exact Hx|]. exists j, (o + m)%nat.
      cbn [rate a buf storage set_buf].
      split; [lia|]. split; [lia|]. split; [exact Ha|]. split; [|exact Hst].
      do 2 f_equal. lia. }
  destruct Hd2 as [Hd2 Hr2]. rewrite <- Hr2 in HK.
  destruct (IH (n - m)%nat d2 (out ++ take m (drop (j * rate d + o) (squeeze K (rate d) x0)))
    _ Hd2) as (d' & E' & Hd' & Hr'); [lia|lia|].
  exists d'. rewrite E'. rewrite Hr2 in *. split; [|split; [|done]].
  - f_equal. rewrite <- app_assoc. f_equal. rewrite <- (drop_drop _ m), take_take_drop.
    do 2 f_equal. lia.
  - by replace (j * rate d + o + n)%nat with (j * rate d + o + m + (n - m))%nat by lia.
Qed.

End Squeezing.

(** ** Padding *)

Section Padding.
#[local] Opaque keccak_f keccakF1600.

(** What the three writes into [storage] leave in the first block. *)
Lemma pad_block (st tl : bytes) r ds :
  length st = maxRate -> (r <= maxRate)%nat -> (length tl < r)%nat -> take (length tl) st = tl ->
  let st2 := write_at (write_at st (length tl) [ds]) (length tl + 1)
               (replicate (r - (length tl + 1)) 0) in
  let st3 := <[(r - 1)%nat := Z.lxor (nth (r - 1) st2 0) 0x80]> st2 in
  length st3 = maxRate /\ take r st3 = tl ++ padding r ds (length tl).
Proof.
  intros Hst Hr Htl Htk st2 st3.
  assert (H1 : (length tl + length [ds] <= length st)%nat) by (cbn; lia).
  set (st1 := write_at st (length tl) [ds]) in *.
  assert (L1 : length st1 = maxRate) by (unfold st1; by rewrite length_write_at).
  assert (E1 : take (length tl + 1) st1 = tl ++ [ds]).
  { pose proof (take_write_at _ _ _ H1) as E. by rewrite Htk in E. }
  assert (H2 : (length tl + 1 + length (replicate (r - (length tl + 1)) 0%Z)
    <= length st1)%nat) by (rewrite length_replicate; lia).
  assert (L2 : length st2 = maxRate) by (unfold st2; by rewrite length_write_at).
  assert (E2 : take r st2 = (tl ++ [ds]) ++ replicate (r - (length tl + 1)) 0).
  { pose proof (take_write_at _ _ _ H2) as E. rewrite E1, length_replicate in E.
    by replace (length tl + 1 + (r - (length tl + 1)))%nat with r in E by lia. }
  split; [unfold st3; by rewrite length_insert|].
  unfold st3. rewrite take_insert_lt by lia.
  assert (En : nth (r - 1) st2 0 = nth (r - 1) (take r st2) 0).
  { rewrite <- (take_drop r st2) at 1. rewrite app_nth1; [done|]. rewrite length_take. lia. }
  rewrite En, E2. unfold padding. rewrite Nat.mod_small by lia.
  destruct (Nat.eqb_spec (r - length tl) 1) as [Hq|Hq].
  - replace (r - (length tl + 1))%nat with 0%nat by lia. cbn [replicate].
    rewrite app_nil_r. replace (r - 1)%nat with (length tl + 0)%nat by lia.
    rewrite insert_app_r, app_nth2_plus. done.
  - replace (r - (length tl + 1))%nat with (r - length tl - 2 + 1)%nat by lia.
    rewrite replicate_add. set (z := replicate (r - length tl - 2) 0).
    assert (Hz : length z = (r - length tl - 2)%nat) by apply length_replicate.
    replace (r - 1)%nat with (length (tl ++ [ds]) + (length z + 0))%nat
      by (rewrite length_app; cbn [length]; lia).
    rewrite !insert_app_r, !app_nth2_plus, <- app_assoc. done.
Qed.

Lemma absorbed_split (r : nat) ds (k : nat) (full tl : bytes) :
  (0 < r)%nat -> length full = (k * r)%nat -> (length tl < r)%nat ->
  absorbed r ds (full ++ tl) =
    keccak_f (xor_lanes (absorb k r (replicate 25 0) full) (tl ++ padding r ds (length tl))).
Proof.
  intros Hr Hf Ht. unfold absorbed. rewrite length_app, Hf.
  replace ((k * r + length tl) / r)%nat with k.
  2: { rewrite Nat.add_comm, Nat.div_add, Nat.div_small by lia. lia. }
  assert (Hp : padding r ds (k * r + length tl) = padding r ds (length tl)).
  { unfold padding. rewrite Nat.add_comm, Nat.Div0.mod_add. done. }
  rewrite Hp, <- app_assoc. apply absorb_block; [done|].
  rewrite length_app. unfold padding. rewrite Nat.mod_small by lia.
  destruct (Nat.eqb_spec (r - length tl) 1); cbn [length]; [lia|].
  rewrite length_app, length_replicate. cbn [length]. lia.
Qed.

Lemma length_absorbed r ds m : length (absorbed r ds m) = 25%nat.
Proof.
  unfold absorbed. generalize (replicate 25 0%Z) as x. generalize (m ++ padding r ds (length m)).
  generalize (length m / r)%nat as k. induction k as [|k IH]; intros l x.
  - exact (length_keccak_f _).
  - exact (IH _ _).
Qed.

Lemma padAndPermute_squeezed d m :
  absorbing d m ->
  squeezed (padAndPermute (dsbyte d) d) (absorbed (rate d) (dsbyte d) m) 0 /\
  rate (padAndPermute (dsbyte d) d) = rate d /\
  outputLen (padAndPermute (dsbyte d) d) = outputLen d.
Proof.
  intros Habs. unfold padAndPermute. rewrite (absorbing_init d m Habs).
  destruct Habs as (Hsz & Hdir & k & full & tl & -> & Hfull & Htl & Ha & Hbuf & Hst).
  destruct (sz_rate _ Hsz) as [Hr Hm8].
  destruct (pad_block (storage d) tl (rate d) (dsbyte d) (sz_storage _ Hsz) ltac:(lia) Htl Hst)
    as [L3 E3].
  unfold append_buf, buf_len, buf_start. rewrite Hbuf.
  cbn [whole buf rate storage set_buf set_storage length Nat.add].
  cbv zeta in L3, E3.
  set (st3 := <[_ := _]> (write_at _ (length tl + 1) _)) in *.
  unfold permute. cbn [dir set_storage set_buf]. rewrite Hdir.
  unfold buf_bytes, buf_len, buf_start. cbn [buf set_storage set_buf storage whole].
  rewrite drop_0, E3. set (d1 := set_buf _ _).
  assert (E1 : a d1 = absorbed (rate d) (dsbyte d) (full ++ tl)).
  { unfold d1. cbn [a set_buf set_dir keccak_a set_a xorIn].
    rewrite (absorbed_split _ _ k) by (done || lia). rewrite <- Ha.
    refine (proj1 (xorIn_absorb d _ Hsz _)). rewrite <- E3, length_take. lia. }
  assert (Hsz1 : sizes d1).
  { split; [|exact L3|exact (conj Hr Hm8)]. rewrite E1. apply length_absorbed. }
  destruct (copyOut_storage d1 Hsz1 eq_refl) as (Hs' & Hr' & Hd' & Ha' & Hb' & Hst').
  split; [|split; [exact Hr'|reflexivity]].
  split; [exact Hs'|]. split; [exact Hd'|]. split; [apply length_absorbed|].
  exists 0%nat, 0%nat. rewrite Hr', Ha', Hb'. cbn [Nat.mul Nat.add]. rewrite Nat.sub_0_r.
  split; [reflexivity|]. split; [exact (proj1 Hr)|]. split; [exact E1|].
  split; [reflexivity|exact Hst'].
Qed.

Lemma div_cover n r : (0 < r)%nat -> (n <= S (n / r) * r)%nat.
Proof.
  intros Hr. pose proof (Nat.div_mod n r ltac:(lia)).
  pose proof (Nat.mod_upper_bound n r ltac:(lia)). nia.
Qed.

(** [Read] of a sponge that has absorbed [m]. *)
Lemma Read_absorbing d m n :
  absorbing d m ->
  (Read d n).2 = sponge (rate d) (dsbyte d) n m /\
  squeezed (Read d n).1 (absorbed (rate d) (dsbyte d) m) n /\
  rate (Read d n).1 = rate d.
Proof.
  intros Habs. destruct (padAndPermute_squeezed d m Habs) as (Hsq & Hr & _).
  pose proof Habs as (Hsz & Hdir & _). unfold Read. rewrite Hdir.
  destruct (sz_rate _ Hsz) as [Hr0 _].
  destruct (Read_loop_squeezed n n _ [] _ _ (S (n / rate d)) Hsq) as (d' & E & Hd' & Hrd');
    [lia|rewrite Hr; apply div_cover; lia|].
  rewrite E, Hr in *. cbn [fst snd]. rewrite drop_0.
  split; [reflexivity|]. split; [exact Hd'|congruence].
Qed.

Lemma Read_squeezed d x0 P n K :
  squeezed d x0 P -> (P + n <= K * rate d)%nat ->
  (Read d n).2 = take n (drop P (squeeze K (rate d) x0)) /\
  squeezed (Read d n).1 x0 (P + n) /\ rate (Read d n).1 = rate d.
Proof.
  intros Hsq HK. pose proof Hsq as (_ & Hdir & _). unfold Read. rewrite Hdir.
  destruct (Read_loop_squeezed n n d [] x0 P K Hsq) as (d' & E & Hd' & Hrd'); [lia|done|].
  rewrite E. done.
Qed.

End Padding.

(** ** Properties *)

Section Properties.
#[local] Opaque keccak_f keccakF1600.

Fixpoint write_all (d : state) (chunks : list bytes) : option state :=
  match chunks with
  | [] => Some d
  | p :: ps => '(d', _) ← Write d p; write_all d' ps
  end.

Fixpoint read_all (d : state) (ns : list nat) : state * bytes :=
  match ns with
  | [] => (d, [])
  | n :: ns' =>
      let (d1, b1) := Read d n in
      let (d2, b2) := read_all d1 ns' in (d2, b1 ++ b2)
  end.

Lemma squeeze_take n K K' r x :
  rate_ok r -> length x = 25%nat -> (n <= K * r)%nat -> (K <= K')%nat ->
  take n (squeeze K' r x) = take n (squeeze K r x).
Proof.
  intros Hr. revert n K' x. induction K as [|K IH]; intros n K' x Hx Hn HK.
  { by replace n with 0%nat by lia. }
  destruct K' as [|K']; [lia|]. cbn [squeeze].
  pose proof (length_block r x Hr Hx) as Hl. rewrite !take_app, Hl. f_equal.
  apply IH; [exact (length_keccak_f x)| |]; cbn in Hn; lia.
Qed.

Lemma sum_list_cons n ns : sum_list (n :: ns) = (n + sum_list ns)%nat.
Proof. reflexivity. Qed.

Lemma permute_params d :
  rate (permute d) = rate d /\ dsbyte (permute d) = dsbyte d /\
  outputLen (permute d) = outputLen d.
Proof. unfold permute. by destruct (dir d). Qed.

Lemma Write_loop_params f p d :
  rate (Write_loop f p d) = rate d /\ dsbyte (Write_loop f p d) = dsbyte d /\
  outputLen (Write_loop f p d) = outputLen d.
Proof.
  revert p d. induction f as [|f IH]; intros p d; [done|]. cbn [Write_loop].
  destruct (_ <? _)%nat; [|done]. destruct (_ && _)%bool; [exact (IH _ _)|].
  set (d1 := append_buf _ d). destruct (_ =? _)%nat; [|exact (IH _ d1)].
  destruct (permute_params d1) as (E1 & E2 & E3).
  destruct (IH (drop (Nat.min (rate d - buf_len d) (length p)) p) (permute d1))
    as (-> & -> & ->). rewrite E1, E2, E3. done.
Qed.

Lemma Write_absorbing d m p :
  absorbing (init_buf d) m -> exists d',
    Write d p = Some (d', length p) /\ absorbing d' (m ++ p) /\
    rate d' = rate d /\ dsbyte d' = dsbyte d /\ outputLen d' = outputLen d.
Proof.
  intros H. pose proof H as (_ & Hdir & _). unfold Write.
  assert (Hd : dir d = spongeAbsorbing) by (unfold init_buf in Hdir; by destruct (buf d)).
  rewrite Hd. eexists. split; [reflexivity|].
  split; [by apply Write_loop_absorbing|].
  assert (Hi : rate (init_buf d) = rate d /\ dsbyte (init_buf d) = dsbyte d /\
    outputLen (init_buf d) = outputLen d) by (unfold init_buf; by destruct (buf d)).
  destruct Hi as (<- & <- & <-). apply Write_loop_params.
Qed.

Lemma write_all_absorbing d m chunks :
  absorbing (init_buf d) m -> exists d',
    write_all d chunks = Some d' /\ absorbing (init_buf d') (m ++ concat chunks) /\
    rate d' = rate d /\ dsbyte d' = dsbyte d /\ outputLen d' = outputLen d.
Proof.
  revert d m. induction chunks as [|p ps IH]; intros d m H.
  { exists d. cbn. rewrite app_nil_r. done. }
  destruct (Write_absorbing d m p H) as (d1 & E1 & H1 & R1 & D1 & O1).
  pose proof (absorbing_init _ _ H1) as Hi. rewrite <- Hi in H1.
  destruct (IH d1 (m ++ p) H1) as (d2 & E2 & H2 & R2 & D2 & O2).
  exists d2. cbn. rewrite E1. cbn. rewrite E2. rewrite <- app_assoc in H2.
  split_and!; try done; congruence.
Qed.

Lemma clone_absorbing d m : absorbing (init_buf d) m -> clone d = Some (init_buf d).
Proof.
  intros (_ & Hdir & k & full & tl & _ & _ & _ & _ & Hb & _).
  destruct d as [xa xb xr xd xs xo xdir]. unfold init_buf, clone, buf_len in *.
  cbn [buf dir] in *. destruct xb as [[o n]|]; cbn in *; rewrite Hdir; [|done].
  unfold whole in Hb. by simplify_eq.
Qed.

Lemma Sum_absorbing d m :
  absorbing (init_buf d) m ->
  Sum d [] = Some (sponge (rate d) (dsbyte d) (outputLen d) m).
Proof.
  intros H. unfold Sum. rewrite (clone_absorbing _ _ H). cbn [mbind option_bind app].
  destruct (Read_absorbing (init_buf d) _ (outputLen (init_buf d)) H) as (-> & _ & _).
  unfold init_buf. by destruct (buf d).
Qed.

Lemma read_all_squeezed d x0 P ns K :
  squeezed d x0 P -> (P + sum_list ns <= K * rate d)%nat ->
  (read_all d ns).2 = take (sum_list ns) (drop P (squeeze K (rate d) x0)).
Proof.
  revert d P. induction ns as [|n ns IH]; intros d P Hsq HK; [done|].
  rewrite sum_list_cons in HK |- *. cbn [read_all].
  destruct (Read_squeezed d x0 P n K Hsq ltac:(lia)) as (E & Hsq' & Hr').
  destruct (Read d n) as [d1 b1]. cbn in E, Hsq', Hr'.
  specialize (IH d1 (P + n)%nat Hsq'). rewrite Hr' in IH. specialize (IH ltac:(lia)).
  destruct (read_all d1 ns) as [d2 b2]. cbn in IH |- *. rewrite E, IH.
  rewrite <- drop_drop, take_take_drop. done.
Qed.

End Properties.

(** C15: hashing is independent of how the data is cut up: after any sequence
    of [Write] calls, [Sum] appends the FIPS 202 sponge of the concatenated
    data, whatever the prefix it appends to; this holds for every rate the
    package uses, and [Write] never panics before a [Read]. *)
Theorem Sum_sponge r n ds chunks input (Hr : rate_ok r) :
  exists h, write_all (new_state r n ds) chunks = Some h /\
    Sum h input = Some (input ++ sponge r ds n (concat chunks)).
Proof.
  destruct (write_all_absorbing (new_state r n ds) [] chunks (absorbing_new r n ds Hr))
    as (h & E & H & R & D & O).
  exists h. split; [exact E|]. unfold Sum. rewrite (clone_absorbing _ _ H).
  destruct (Read_absorbing (init_buf h) _ (outputLen (init_buf h)) H) as (Er & _ & _).
  cbn [mbind option_bind]. rewrite Er.
  assert (Hi : rate (init_buf h) = r /\ dsbyte (init_buf h) = ds /\ outputLen (init_buf h) = n)
    by (unfold init_buf; by destruct (buf h)).
  destruct Hi as (-> & -> & ->). done.
Qed.

Lemma Sum_sponge_witness :
  exists h, write_all NewKeccak256 [[1; 2]; []; [3]] = Some h /\
    Sum h [9] = Some ([9] ++ sponge 136 1 32 [1; 2; 3]).
Proof.
  apply (Sum_sponge 136 32 1 [[1; 2]; []; [3]] [9]). split; [unfold maxRate; lia|reflexivity].
Defined.

(** Reading a SHAKE sponge in pieces of any sizes gives consecutive parts
    of one output stream, the sponge output of the data written. *)
Theorem Read_pieces r ds chunks ns (Hr : rate_ok r) :
  exists h, write_all (new_state r 0 ds) chunks = Some h /\
    (read_all h ns).2 = sponge r ds (sum_list ns) (concat chunks).
Proof.
  destruct (write_all_absorbing (new_state r 0 ds) [] chunks (absorbing_new r 0 ds Hr))
    as (h & E & H & R & D & O).
  exists h. split; [exact E|].
  assert (Hi : rate (init_buf h) = r /\ dsbyte (init_buf h) = ds)
    by (unfold init_buf; by destruct (buf h)).
  destruct Hi as [Hir Hid].
  assert (Hread : forall n, Read h n = Read (init_buf h) n).
  { intros n. unfold Read. pose proof H as (_ & Hdir & _).
    unfold init_buf in *. destruct (buf h) eqn:Eb; [done|]. cbn [dir set_buf] in *.
    rewrite Hdir. f_equal. unfold padAndPermute, init_buf. rewrite Eb. done. }
  destruct ns as [|n ns]; [done|]. rewrite sum_list_cons. cbn [read_all]. rewrite Hread.
  destruct (Read_absorbing (init_buf h) _ n H) as (Er & Hsq & Hrr).
  rewrite Hir, Hid in *. destruct (Read (init_buf h) n) as [d1 b1]. cbn [fst snd] in *.
  pose proof (read_all_squeezed d1 _ n ns (S ((n + sum_list ns) / r)) Hsq) as Es.
  rewrite Hrr in Es. specialize (Es (div_cover (n + sum_list ns) r (proj1 (proj1 Hr)))).
  destruct (read_all d1 ns) as [d2 b2]. cbn [fst snd] in *. rewrite Er, Es.
  unfold sponge. rewrite <- take_take_drop. f_equal. symmetry.
  apply squeeze_take; [exact Hr|apply length_absorbed| |].
  - apply div_cover. apply Hr.
  - apply le_n_S, Nat.Div0.div_le_mono. lia.
Qed.

Lemma Read_pieces_witness :
  exists h, write_all NewShake128 [[1]; [2]] = Some h /\
    (read_all h [5; 0; 300]%nat).2 = sponge 168 0x1f 305 [1; 2].
Proof.
  apply (Read_pieces 168 0x1f [[1]; [2]] [5; 0; 300]%nat).
  split; [unfold maxRate; lia|reflexivity].
Defined.

(** The fast word access of [xor_unaligned.go] (little-endian machines)
    agrees with the portable one of [xor_generic.go] for every rate of the
    package: absorbing a block and copying one out give the same result. *)
Theorem xor_unaligned_generic x b (Hx : length x = 25%nat)
    (Hb : In (length b) [72; 104; 136; 144; 168]%nat) :
  xorInUnaligned x b = xorInGeneric x b /\
  copyOutUnaligned x (length b) = copyOutGeneric x (length b).
Proof.
  split.
  - assert (Hlen : forall n, In n [72; 104; 136; 144; 168]%nat -> (n <= 200)%nat)
      by (cbn; lia).
    rewrite xorInGeneric_lanes by (specialize (Hlen _ Hb); lia). unfold xorInUnaligned.
    destruct Hb as [Hb|[Hb|[Hb|[Hb|[Hb|[]]]]]]; rewrite <- Hb; cbn [Nat.leb];
      rewrite ?xor_words_join by lia.
    + apply (xor_words_lanes 9); lia.
    + apply (xor_words_lanes 13); lia.
    + apply (xor_words_lanes 17); lia.
    + apply (xor_words_lanes 18); lia.
    + apply (xor_words_lanes 21); lia.
  - rewrite copyOutGeneric_bytes; unfold copyOutUnaligned.
    + rewrite take_take, Nat.min_l; [done|]. unfold maxRate. cbn in Hb. lia.
    + cbn in Hb. lia.
    + destruct Hb as [<-|[<-|[<-|[<-|[<-|[]]]]]]; reflexivity.
Qed.

Lemma xor_unaligned_generic_witness :
  xorInUnaligned (replicate 25 7) (replicate 136 3) =
    xorInGeneric (replicate 25 7) (replicate 136 3) /\
  copyOutUnaligned (replicate 25 7) 136 = copyOutGeneric (replicate 25 7) 136.
Proof.
  apply (xor_unaligned_generic (replicate 25 7) (replicate 136 3)); [reflexivity|].
  right; right; left. reflexivity.
Defined.

(** Cloning a sponge that is being read is only right for the largest rate,
    168: with a smaller rate the bounds are computed from a capacity that
    counts the unused end of [storage], so that [clone] panics while fewer
    than [168 - rate] bytes of a block were read, and otherwise gives a sponge
    that repeats the last [168 - rate] bytes. *)
Theorem clone_squeezing d x0 P (Hd : squeezed d x0 P) :
  (rate d = maxRate -> clone d = Some d) /\
  ((rate d < maxRate)%nat ->
     ((P mod rate d < maxRate - rate d)%nat -> clone d = None) /\
     ((maxRate - rate d <= P mod rate d)%nat ->
        exists d', clone d = Some d' /\
          buf_bytes d' = drop (P mod rate d - (maxRate - rate d)) (take (rate d) (storage d)) /\
          buf_len d' = (buf_len d + (maxRate - rate d))%nat)).
Proof.
  destruct Hd as (Hsz & Hdir & Hx & j & o & -> & Ho & Ha & Hb & Hst).
  destruct (sz_rate _ Hsz) as [Hr _]. unfold clone. rewrite Hdir.
  unfold buf_cap, buf_len. rewrite Hb.
  assert (Hmod : ((j * rate d + o) mod rate d = o)%nat).
  { rewrite Nat.add_comm, Nat.Div0.mod_add. by apply Nat.mod_small. }
  rewrite Hmod. split; [|intros Hlt; split].
  - intros Hr'. destruct (Z.ltb_spec (Z.of_nat (rate d) - Z.of_nat (maxRate - o)) 0); [lia|].
    replace (Z.to_nat (Z.of_nat (rate d) - Z.of_nat (maxRate - o))) with o by lia.
    rewrite <- Hb. by destruct d.
  - intros Hlo. by destruct (Z.ltb_spec (Z.of_nat (rate d) - Z.of_nat (maxRate - o)) 0); [|lia].
  - intros Hhi. destruct (Z.ltb_spec (Z.of_nat (rate d) - Z.of_nat (maxRate - o)) 0); [lia|].
    eexists. split; [reflexivity|]. unfold buf_bytes, buf_len, buf_start.
    cbn [buf set_buf storage].
    replace (Z.to_nat (Z.of_nat (rate d) - Z.of_nat (maxRate - o)))
      with (o - (maxRate - rate d))%nat by lia.
    split; [|lia]. by rewrite skipn_firstn_comm.
Qed.

Lemma clone_squeezing_witness : clone (Read (init_buf NewShake256) 10).1 = None.
Proof.
  assert (Hok : rate_ok 136) by (split; [unfold maxRate; lia|reflexivity]).
  destruct (Read_absorbing (init_buf NewShake256) [] 10 (absorbing_new 136 0 0x1f Hok))
    as (_ & Hsq & Hr).
  change (rate (init_buf NewShake256)) with 136%nat in Hr, Hsq.
  refine (proj1 (proj2 (clone_squeezing _ _ _ Hsq) _) _); rewrite Hr; unfold maxRate.
  - lia.
  - change (10 mod 136)%nat with 10%nat. lia.
Defined.
