(* ===== verification/Types.v ===== *)
(** * Hashes, addresses and events: [src/core/types.go]

    [Hash] and [Address] are the byte arrays of length 32 and 20.  An [Event]
    holds two [*big.Int] pointers: [TimeStamp] is never written through and is
    kept as the number it points to, [RoundID] is shared between events and
    written through, and is a pointer into the store of the graph. *)

From S2P Require Import Prelude RlpTypes RlpEncode RlpRaw Keccak Sponge.
Local Open Scope Z_scope.

Definition HashLength : nat := 32.
Definition AddressLength : nat := 20.
Definition MaxTransInEvent : nat := 64.

Definition Hash : Type := bytes.
Definition Address : Type := bytes.

Definition zero_hash : Hash := replicate HashLength 0.
Definition zero_address : Address := replicate AddressLength 0.

(** [Compare]: the same code for both types. *)
Fixpoint compare_loop (a b : bytes) : Z :=
  match a, b with
  | x :: a', y :: b' =>
      if x =? y then compare_loop a' b' else if y <? x then 1 else -1
  | _, _ => 0
  end.

Definition Compare (a b : bytes) : Z :=
  if zlen b <? zlen a then 1 else if zlen a <? zlen b then -1 else compare_loop a b.

(** [SetBytes] of a hash or address of [n] bytes that holds [h]. *)
Definition SetBytes (n : nat) (h b : bytes) : bytes :=
  let b := if (n <? length b)%nat then drop (length b - n) b else b in
  take (n - length b) h ++ b.

Definition BytesToHash (b : bytes) : Hash := SetBytes HashLength zero_hash b.
Definition Address_SetBytes (a : Address) (b : bytes) : Address := SetBytes AddressLength a b.
Definition BytesToAddress (b : bytes) : Address := Address_SetBytes zero_address b.

(** [big.Int.Bytes] is the absolute value in minimal big-endian form. *)
Definition big_Bytes (z : Z) : bytes := be_min (Z.abs z).
Definition BigToHash (z : Z) : Hash := BytesToHash (big_Bytes z).
Definition BigToAddress (z : Z) : Address := BytesToAddress (big_Bytes z).
Definition Hash_Big (h : Hash) : Z := be_val h.
Definition Address_Big (a : Address) : Z := be_val a.
Definition Address_Hash (a : Address) : Hash := BytesToHash a.

(** ** Events *)

(** A pointer to a [Transaction], which has no fields. *)
Inductive Transaction := Tx.

Record Event := MkEvent {
  TimeStamp : option Z; Trans : list Transaction; SelfPart : Hash; SelfHash : Hash;
  SelfSig : Address; OtherPartH : Hash; OtherPartA : Address; RoundID : option nat }.

Record RequestArg := MkRequestArg { TargetHash : Hash; TargetAddr : Address; Refered : Z }.

Definition set_SelfHash (h : Hash) (e : Event) : Event :=
  MkEvent (TimeStamp e) (Trans e) (SelfPart e) h (SelfSig e) (OtherPartH e) (OtherPartA e)
    (RoundID e).

(** Go's [copy(dst, src)]: [dst] after the call. *)
Definition go_copy {A} (dst src : list A) : list A :=
  take (length dst) src ++ drop (length src) dst.

(** [CopyEvent]: the new slice has length 0 (and capacity 64), so that [copy]
    copies nothing. *)
Definition CopyEvent (e : Event) : Event :=
  MkEvent (TimeStamp e) (go_copy [] (Trans e)) (SelfPart e) (SelfHash e) (SelfSig e)
    (OtherPartH e) (OtherPartA e) (RoundID e).

(** ** Hashing *)

(** [rlp.Encode] into the hash: its error is dropped. *)
Definition hash_write (o : option state) (b : bytes) : option state :=
  d ← o; '(d', _) ← Write d b; Some d'.

Definition rlpHash (t : gtype) (v : gval) : option Hash :=
  let hw := Some NewKeccak256 in
  let hw := match Encode hash_write hw t v with Ok hw' => hw' | Err _ => hw end in
  d ← hw; Sum d [].

Definition TTransaction : gtype := TStruct [].
Definition TSig : gtype := TStruct [(FMeta "Addr" true "", TByteArray AddressLength)].

Definition event_fields (e : Event) : list (gtype * gval) :=
  [(TBigPtr, VBigPtr (TimeStamp e));
   (TSlice (TPtr TTransaction),
    VList (map (fun _ => VPtr (Some (VStruct []))) (Trans e)));
   (TByteArray HashLength, VByteArray (SelfPart e));
   (TSig, VStruct [VByteArray (SelfSig e)]);
   (TByteArray HashLength, VByteArray (OtherPartH e))].

(** [(e *Event) Hash]; [Sum] never panics here. *)
Definition Event_Hash (e : Event) : Hash :=
  default zero_hash
    (rlpHash (TSlice (TIface 0)) (VList (map (fun p => VIface (Some p)) (event_fields e)))).

(** ** Comparing and converting *)

Section Convert.

Lemma compare_loop_val a b :
  bytes_ok a -> bytes_ok b -> length a = length b ->
  compare_loop a b = match be_val a ?= be_val b with Eq => 0 | Lt => -1 | Gt => 1 end.
Proof.
  revert b. induction a as [|x a IH]; intros [|y b] Ha Hb Hl; try done.
  apply bytes_ok_cons in Ha as [Hx Ha]. apply bytes_ok_cons in Hb as [Hy Hb].
  injection Hl as Hl. cbn [compare_loop be_val].
  pose proof (be_val_bound a Ha). pose proof (be_val_bound b Hb).
  rewrite <- Hl in *. pose proof (pow256_pos (length a)).
  destruct (Z.eqb_spec x y) as [->|Hne].
  - rewrite IH by done.
    destruct (Z.compare_spec (be_val a) (be_val b)),
      (Z.compare_spec (y * 256 ^ zlen a + be_val a) (y * 256 ^ zlen a + be_val b)); done || lia.
  - destruct (Z.ltb_spec y x),
      (Z.compare_spec (x * 256 ^ zlen a + be_val a) (y * 256 ^ zlen a + be_val b)); done || nia.
Qed.

Lemma compare_loop_eq a b : length a = length b -> compare_loop a b = 0 <-> a = b.
Proof.
  revert b. induction a as [|x a IH]; intros [|y b] Hl; try done.
  injection Hl as Hl. cbn. destruct (Z.eqb_spec x y) as [->|Hne].
  - rewrite IH by done. split; [by intros ->|by intros [= ->]].
  - split; [by case_match|]. intros [= ? _]. done.
Qed.

Lemma Compare_0 a b : length a = length b -> Compare a b = 0 <-> a = b.
Proof.
  intros Hl. unfold Compare. rewrite Hl, Z.ltb_irrefl. by apply compare_loop_eq.
Qed.

Lemma Compare_eq a b : Compare a b = 0 -> a = b.
Proof.
  intros H. assert (Hl : length a = length b).
  { unfold Compare in H. destruct (Z.ltb_spec (zlen b) (zlen a)); [done|].
    destruct (Z.ltb_spec (zlen a) (zlen b)); [done|]. lia. }
  by apply Compare_0.
Qed.

Lemma take_replicate_0 k n : (k <= n)%nat -> take k (replicate n 0%Z) = replicate k 0%Z.
Proof. intros H. rewrite take_replicate. f_equal. lia. Qed.

Lemma be_bytes_replicate k (b : bytes) :
  bytes_ok b -> be_bytes (k + length b) (be_val b) = replicate k 0 ++ b.
Proof.
  intros Hb. pose proof (be_val_bound b Hb) as Hv.
  assert (Hok : bytes_ok (replicate k 0 ++ b)).
  { apply bytes_ok_app. split; [|done]. apply Forall_replicate. unfold byte_ok. lia. }
  rewrite <- (be_bytes_be_val _ Hok), length_app, length_replicate. f_equal.
  rewrite be_val_app. assert (be_val (replicate k 0) = 0) as ->; [|lia].
  clear. induction k as [|k IH]; [done|]. cbn [replicate be_val]. lia.
Qed.

(** A hash or address is the low-order [n] bytes of what it is made from. *)
Lemma SetBytes_value n b :
  bytes_ok b -> SetBytes n (replicate n 0) b = be_bytes n (be_val b).
Proof.
  intros Hb. unfold SetBytes. destruct (Nat.ltb_spec n (length b)) as [Hlt|Hle].
  - rewrite length_drop. replace (n - (length b - (length b - n)))%nat with 0%nat by lia.
    cbn [take app]. set (hi := take (length b - n) b). set (lo := drop (length b - n) b).
    assert (Hlo : length lo = n) by (unfold lo; rewrite length_drop; lia).
    assert (Hok : bytes_ok lo) by (by apply bytes_ok_drop).
    replace (be_val b) with (be_val (hi ++ lo)) by (unfold hi, lo; by rewrite take_drop).
    rewrite be_val_app, be_bytes_mod, Hlo, Z.add_comm, Z.mod_add
      by (pose proof (pow256_pos n); lia).
    rewrite <- be_bytes_mod, <- Hlo. by rewrite be_bytes_be_val.
  - rewrite take_replicate_0 by lia.
    rewrite <- be_bytes_replicate by done. f_equal. lia.
Qed.

End Convert.

(** ** What an event hash is a hash of *)

Section EventHash.

Definition event_payload (e : Event) : bytes :=
  rlp_string (be_min (default 0 (TimeStamp e))) ++
  rlp_list (flat_map (fun _ => [0xC0]) (Trans e)) ++
  rlp_string (SelfPart e) ++
  rlp_list (rlp_string (SelfSig e)) ++
  rlp_string (OtherPartH e).

Definition event_preimage (e : Event) : bytes := rlp_list (event_payload e).

(** Arrays of bytes of the right length, a timestamp that is no negative number,
    and a size that fits. *)
Record event_ok (e : Event) : Prop := EventOk {
  ok_time : 0 <= default 0 (TimeStamp e);
  ok_selfpart : length (SelfPart e) = HashLength /\ bytes_ok (SelfPart e);
  ok_sig : length (SelfSig e) = AddressLength /\ bytes_ok (SelfSig e);
  ok_otherh : length (OtherPartH e) = HashLength /\ bytes_ok (OtherPartH e);
  ok_size : zlen (event_preimage e) < 2 ^ 64 }.

Lemma trans_enc (l : list Transaction) :
  rlp_encs (TPtr TTransaction) (map (fun _ => VPtr (Some (VStruct []))) l)
    (flat_map (fun _ => [0xC0]) l).
Proof.
  induction l as [|x l IH]; cbn [map flat_map]; constructor; [|done].
  apply E_ptr. apply (E_struct [] no_tags [] []). constructor.
Qed.

Definition event_value (e : Event) : gval :=
  VList (map (fun p => VIface (Some p)) (event_fields e)).

Lemma event_enc e :
  0 <= default 0 (TimeStamp e) ->
  rlp_enc (TSlice (TIface 0)) no_tags (event_value e) (event_preimage e).
Proof.
  intros Ht. apply (E_slice (TIface 0) no_tags). unfold event_payload.
  apply Es_cons; [apply E_iface; [done|]|].
  { destruct (TimeStamp e) as [z|]; [by apply E_bigptr|]. apply E_bigptr_nil. }
  apply Es_cons; [apply E_iface; [done|]|].
  { apply (E_slice (TPtr TTransaction) no_tags). apply trans_enc. }
  apply Es_cons; [apply E_iface; [done|constructor]|].
  apply Es_cons; [apply E_iface; [done|]|].
  { apply (E_struct _ no_tags). rewrite <- (app_nil_r (rlp_string (SelfSig e))).
    apply (Ef_field _ _ _ _ _ _ _ no_tags); [done..| |]; constructor. }
  rewrite <- (app_nil_r (rlp_string (OtherPartH e))).
  apply Es_cons; [apply E_iface; [done|constructor]|constructor].
Qed.

Lemma event_val_ok e : event_ok e -> val_ok (event_value e).
Proof.
  intros [_ [_ H1] [_ H2] [_ H3] _]. constructor. cbn.
  repeat (apply List.Forall_cons || apply List.Forall_nil); constructor.
  - constructor.
  - constructor. apply List.Forall_map, List.Forall_forall. intros. by repeat constructor.
  - by constructor.
  - constructor. by repeat constructor.
  - by constructor.
Qed.

(** [toWriter] does the same to related writers. *)
Lemma toWriter_rel {S1 S2} (R : S1 -> S2 -> Prop) W1 W2 w o1 o2 :
  (forall s1 s2 b, R s1 s2 -> R (W1 s1 b) (W2 s2 b)) -> R o1 o2 ->
  R (toWriter W1 w o1) (toWriter W2 w o2).
Proof.
  intros HW. unfold toWriter. generalize 0 as p. revert o1 o2.
  induction (lheads w) as [|h hs IH]; intros o1 o2 p Ho; cbn [toWriter_loop];
    case_match; auto.
Qed.

Lemma rlpHash_sponge t v e :
  serializable t = true -> val_ok v -> rlp_enc t no_tags v e -> zlen e < 2 ^ 64 ->
  rlpHash t v = Some (sponge 136 1 32 e).
Proof.
  intros Hs Hok He Hl. unfold rlpHash, Encode.
  destruct (encbuf_encode_emits t v e Hs Hok He Hl) as (eb & -> & Hem).
  cbn [mbind result_bind].
  pose (R := fun (o : option state) (m : bytes) => exists d, o = Some d /\
    absorbing (init_buf d) m /\ rate d = 136%nat /\ dsbyte d = 1 /\ outputLen d = 32%nat).
  assert (HR : R (toWriter hash_write eb (Some NewKeccak256)) (toWriter app eb [])).
  { apply (toWriter_rel R).
    - intros o m b (d & -> & Ha & Hr & Hd & Ho).
      destruct (Write_absorbing d m b Ha) as (d' & E & Ha' & Hr' & Hd' & Ho').
      exists d'. unfold hash_write. cbn. rewrite E. cbn. split; [done|].
      rewrite (absorbing_init _ _ Ha'). split_and!; congruence.
    - exists NewKeccak256. split; [done|]. split; [|done].
      apply absorbing_new. split; [unfold maxRate; lia|reflexivity]. }
  rewrite (toWriter_emits app [] eb e) in HR; [|intros; by rewrite <- app_assoc|apply app_nil_r|done].
  destruct HR as (d & -> & Ha & Hr & Hd & Ho). cbn [mbind option_bind].
  rewrite (Sum_absorbing d _ Ha), Hr, Hd, Ho. done.
Qed.

Lemma Event_Hash_sponge e : event_ok e -> Event_Hash e = sponge 136 1 32 (event_preimage e).
Proof.
  intros He. unfold Event_Hash. fold (event_value e).
  rewrite (rlpHash_sponge _ _ (event_preimage e)); [done|done|by apply event_val_ok| |apply He].
  apply event_enc, He.
Qed.

Lemma event_payload_ok e : event_ok e -> bytes_ok (event_payload e) /\ zlen (event_payload e) < 2 ^ 64.
Proof.
  intros He. pose proof (ok_size e He) as Hz. unfold event_preimage in Hz.
  pose proof (rlp_list_length (event_payload e)) as Hle.
  assert (Hp : zlen (event_payload e) < 2 ^ 64) by lia. split; [|done].
  destruct He as [_ [L1 H1] [L2 H2] [L3 H3] _]. unfold event_payload in *.
  rewrite !zlen_app in Hp.
  assert (Hs : forall b, bytes_ok b -> zlen (rlp_string b) < 2 ^ 64 -> bytes_ok (rlp_string b)).
  { intros b Hb Hl. apply rlp_string_ok; [done|]. pose proof (rlp_string_length b). lia. }
  assert (Hl : forall b, bytes_ok b -> zlen (rlp_list b) < 2 ^ 64 -> bytes_ok (rlp_list b)).
  { intros b Hb Hlt. apply rlp_list_ok; [done|]. pose proof (rlp_list_length b). lia. }
  pose proof (rlp_list_length (rlp_string (SelfSig e))).
  rewrite !bytes_ok_app. split_and!.
  - apply Hs; [apply be_min_ok|lia].
  - apply Hl; [|lia]. apply List.Forall_flat_map, List.Forall_forall. intros _ _.
    apply bytes_ok_cons. split; [unfold byte_ok; lia|constructor].
  - apply Hs; [done|lia].
  - apply Hl; [|lia]. apply Hs; [done|lia].
  - apply Hs; [done|lia].
Qed.

Lemma flat_map_C0_inj (l1 l2 : list Transaction) :
  flat_map (fun _ => [0xC0]) l1 = flat_map (fun _ => [0xC0]) l2 -> l1 = l2.
Proof.
  revert l2. induction l1 as [|[] l1 IH]; intros [|[] l2] H; try done.
  cbn in H. injection H as H. f_equal. by apply IH.
Qed.

(** The content that is hashed. *)
Definition same_content (e1 e2 : Event) : Prop :=
  default 0 (TimeStamp e1) = default 0 (TimeStamp e2) /\ Trans e1 = Trans e2 /\
  SelfPart e1 = SelfPart e2 /\ SelfSig e1 = SelfSig e2 /\ OtherPartH e1 = OtherPartH e2.

Lemma event_preimage_inj e1 e2 :
  event_ok e1 -> event_ok e2 -> event_preimage e1 = event_preimage e2 <-> same_content e1 e2.
Proof.
  intros H1 H2. split.
  2: { intros (Ht & Htr & Hp & Hs & Ho). unfold event_preimage, event_payload.
       by rewrite Ht, Htr, Hp, Hs, Ho. }
  intros Heq. destruct (event_payload_ok e1 H1) as [Hok Hl].
  assert (Hp : event_payload e1 = event_payload e2).
  { unfold event_preimage in Heq.
    rewrite <- (app_nil_r (rlp_list (event_payload e1))) in Heq.
    rewrite <- (app_nil_r (rlp_list (event_payload e2))) in Heq.
    apply rlp_list_inj in Heq as [? _]; [done|..]; rewrite app_nil_r.
    - by apply rlp_list_ok.
    - apply (ok_size e1 H1). }
  clear Heq. unfold event_payload in *.
  apply rlp_string_inj in Hp as [Ht Hp]; [|done|done].
  apply bytes_ok_app in Hok as [_ Hok]. rewrite zlen_app in Hl.
  apply rlp_list_inj in Hp as [Htr Hp]; [|done|lia].
  apply bytes_ok_app in Hok as [_ Hok]. rewrite zlen_app in Hl.
  apply rlp_string_inj in Hp as [Hsp Hp]; [|done|lia].
  apply bytes_ok_app in Hok as [_ Hok]. rewrite zlen_app in Hl.
  apply rlp_list_inj in Hp as [Hsig Hp]; [|done|lia].
  apply bytes_ok_app in Hok as [Hok1 Hok]. rewrite zlen_app in Hl.
  rewrite <- (app_nil_r (rlp_string (OtherPartH e1))) in Hp.
  rewrite <- (app_nil_r (rlp_string (OtherPartH e2))) in Hp.
  apply rlp_string_inj in Hp as [Ho _]; [|by rewrite app_nil_r|rewrite app_nil_r; lia].
  rewrite <- (app_nil_r (rlp_string (SelfSig e1))) in Hsig.
  rewrite <- (app_nil_r (rlp_string (SelfSig e2))) in Hsig.
  apply rlp_string_inj in Hsig as [Hsig _]; rewrite ?app_nil_r.
  - split_and!; try done; [|by apply flat_map_C0_inj].
    rewrite <- (be_val_be_min (default 0 (TimeStamp e1))) by apply H1.
    rewrite <- (be_val_be_min (default 0 (TimeStamp e2))) by apply H2. by rewrite Ht.
  - apply rlp_string_ok; [apply H1|]. destruct (ok_sig e1 H1) as [-> _]. by vm_compute.
  - pose proof (rlp_list_length (rlp_string (SelfSig e1))). lia.
Qed.

End EventHash.

(** ** Properties *)

(** [Compare] orders hashes and addresses like the big-endian numbers they
    stand for; in particular it gives 0 exactly on equal arrays. *)
Theorem Compare_spec a b (Ha : bytes_ok a) (Hb : bytes_ok b) (Hl : length a = length b) :
  Compare a b = match be_val a ?= be_val b with Eq => 0 | Lt => -1 | Gt => 1 end /\
  (Compare a b = 0 <-> a = b) /\ Compare b a = - Compare a b.
Proof.
  assert (Hc : forall a b, bytes_ok a -> bytes_ok b -> length a = length b ->
    Compare a b = match be_val a ?= be_val b with Eq => 0 | Lt => -1 | Gt => 1 end).
  { intros x y Hx Hy Hxy. unfold Compare. rewrite Hxy, Z.ltb_irrefl.
    by apply compare_loop_val. }
  split; [by apply Hc|]. split; [by apply Compare_0|].
  rewrite !Hc by done. rewrite Z.compare_antisym. by destruct (be_val a ?= be_val b).
Qed.

Lemma Compare_spec_witness : Compare [1; 2; 255] [1; 3; 0] = -1.
Proof.
  rewrite (proj1 (Compare_spec [1; 2; 255] [1; 3; 0] ltac:(solve_bytes) ltac:(solve_bytes)
    eq_refl)). reflexivity.
Defined.

(** Hashes and addresses made from bytes keep the low-order bytes: they
    hold the number modulo 2^256 or 2^160, whatever the length of the input,
    and converting a number there and back is the identity below that. *)
Theorem BytesToHash_value b z (Hb : bytes_ok b) :
  BytesToHash b = be_bytes HashLength (be_val b) /\
  BytesToAddress b = be_bytes AddressLength (be_val b) /\
  Hash_Big (BigToHash z) = Z.abs z mod 2 ^ 256 /\
  Address_Big (BigToAddress z) = Z.abs z mod 2 ^ 160 /\
  Hash_Big (Address_Hash (BytesToAddress b)) = be_val b mod 2 ^ 160.
Proof.
  assert (Hh : forall n b, bytes_ok b -> be_val (SetBytes n (replicate n 0) b) =
    be_val b mod 256 ^ Z.of_nat n).
  { intros n x Hx. rewrite SetBytes_value by done. apply be_val_be_bytes. }
  assert (Hz : be_val (big_Bytes z) = Z.abs z) by (apply be_val_be_min; lia).
  split_and!.
  - by apply SetBytes_value.
  - by apply SetBytes_value.
  - unfold Hash_Big, BigToHash, BytesToHash, zero_hash. rewrite Hh by apply be_min_ok.
    by rewrite Hz.
  - unfold Address_Big, BigToAddress, BytesToAddress, Address_SetBytes, zero_address.
    rewrite Hh by apply be_min_ok. by rewrite Hz.
  - unfold Hash_Big, Address_Hash, BytesToHash, BytesToAddress, Address_SetBytes, zero_hash, zero_address.
    rewrite (SetBytes_value AddressLength b Hb), Hh by apply be_bytes_ok.
    rewrite be_val_be_bytes. apply Z.mod_small.
    pose proof (Z.mod_pos_bound (be_val b) (256 ^ Z.of_nat AddressLength)).
    change (256 ^ Z.of_nat HashLength) with (2 ^ 256).
    change (256 ^ Z.of_nat AddressLength) with (2 ^ 160) in *. lia.
Qed.

Lemma BytesToHash_value_witness :
  Hash_Big (BigToHash (2 ^ 256 + 7)) = 7 /\
  BytesToAddress [1; 2] = be_bytes AddressLength 258.
Proof.
  destruct (BytesToHash_value [1; 2] (2 ^ 256 + 7) ltac:(solve_bytes)) as (_ & H2 & H3 & _).
  split; [rewrite H3; reflexivity|exact H2].
Defined.

(** C16: the hash of an event is the Keccak-256 of the RLP list of its
    timestamp, transactions, self parent, creator and other parent's hash.
    This content and nothing else determines the bytes that are hashed, so two
    events with different content and equal hashes are a Keccak collision;
    round number, address of the other parent and claimed hash are free. *)
Theorem Event_Hash_spec e1 e2 (H1 : event_ok e1) (H2 : event_ok e2) :
  Event_Hash e1 = sponge 136 1 32 (event_preimage e1) /\
  (event_preimage e1 = event_preimage e2 <-> same_content e1 e2) /\
  (same_content e1 e2 -> Event_Hash e1 = Event_Hash e2).
Proof.
  pose proof (event_preimage_inj e1 e2 H1 H2) as Hinj.
  split; [by apply Event_Hash_sponge|]. split; [done|].
  intros Hs. rewrite !Event_Hash_sponge by done. by rewrite (proj2 Hinj Hs).
Qed.

Definition ex_event (ts : Z) (sig otherA : Address) : Event :=
  MkEvent (Some ts) [Tx] zero_hash zero_hash sig zero_hash otherA None.

Lemma ex_event_ok otherA : event_ok (ex_event 5 zero_address otherA).
Proof.
  split.
  - cbn. lia.
  - split; [reflexivity|]. by apply Forall_replicate.
  - split; [reflexivity|]. by apply Forall_replicate.
  - split; [reflexivity|]. by apply Forall_replicate.
  - vm_compute. reflexivity.
Qed.

Lemma Event_Hash_spec_witness :
  Event_Hash (ex_event 5 zero_address zero_address) =
  Event_Hash (ex_event 5 zero_address (replicate 20 9)).
Proof.
  apply (proj2 (proj2 (Event_Hash_spec (ex_event 5 zero_address zero_address)
    (ex_event 5 zero_address (replicate 20 9)) (ex_event_ok _) (ex_event_ok _)))).
  repeat split.
Defined.
