(* ===== verification/ReceiptLog.v ===== *)
(** * The log record of [src/core/types/log.go] and its two encodings

    A [Log] is encoded without what the node adds to it, a [LogForStorage] with it.  Both types have methods
    [EncodeRLP] and [DecodeRLP], which are instances of the interfaces of [RlpMethods]. *)

From S2P Require Import Prelude RlpTypes RlpEncode RlpStream RlpDecode RlpMethods Types.
Local Open Scope Z_scope.

(** ** Types *)

Record Log := MkLog {
  lg_Address : Address; lg_Topics : list Hash; lg_Data : bytes;
  lg_BlockNumber : Z; lg_TxHash : Hash; lg_TxIndex : Z; lg_BlockHash : Hash; lg_Index : Z;
  lg_Removed : bool }.

(** [type LogForStorage Log]. *)
Record LogForStorage := ForStorage { storage_log : Log }.

Abbreviation field name t := (FMeta name true "", t).
Abbreviation THash := (TByteArray HashLength).

Definition rlpLog_fields : list (fmeta * gtype) :=
  [field "Address" (TByteArray AddressLength); field "Topics" (TSlice THash); field "Data" TBytes].
Definition derived_fields : list (fmeta * gtype) :=
  [field "BlockNumber" (TUint 64); field "TxHash" THash; field "TxIndex" (TUint 64);
   field "BlockHash" THash; field "Index" (TUint 64)].

Definition rlpLog : gtype := TStruct rlpLog_fields.
Definition rlpStorageLog : gtype := TStruct (rlpLog_fields ++ derived_fields).
Definition TLog : gtype := TStruct (rlpLog_fields ++ derived_fields ++ [field "Removed" TBool]).

(** The values of the fields, in their order. *)
Definition rlpLog_vals (l : Log) : list gval :=
  [VByteArray (lg_Address l); VList (VByteArray <$> lg_Topics l); VBytes (lg_Data l)].
Definition derived_vals (l : Log) : list gval :=
  [VUint (lg_BlockNumber l); VByteArray (lg_TxHash l); VUint (lg_TxIndex l);
   VByteArray (lg_BlockHash l); VUint (lg_Index l)].
Definition Log_val (l : Log) : gval := VStruct (rlpLog_vals l ++ derived_vals l ++ [VBool (lg_Removed l)]).

Definition hash_of (v : gval) : option Hash := match v with VByteArray h => Some h | _ => None end.

Definition Log_of (v : gval) : option Log :=
  match v with
  | VStruct [VByteArray a; VList ts; VBytes d; VUint bn; VByteArray th; VUint ti; VByteArray bh; VUint i; VBool rm] =>
      Some (MkLog a (omap hash_of ts) d bn th ti bh i rm)
  | _ => None
  end.

#[global] Instance Log_go : GoType Log := {| go_type := TLog; go_val := Log_val; of_val := Log_of |}.
#[global] Instance LogForStorage_go : GoType LogForStorage :=
  {| go_type := TLog; go_val l := Log_val (storage_log l); of_val v := ForStorage <$> Log_of v |}.

(** ** Methods *)

(** A nil receiver is dereferenced.  [Encode] writes into the buffer that it is given when it is one of its
    own, as it is when the method is called by [writeEncoder]. *)
Definition Log_EncodeRLP (o : option Log) (w : encbuf) : result rlp_error encbuf :=
  match o with
  | None => Err ErrPanic
  | Some l => encbuf_encode rlpLog (VStruct (rlpLog_vals l)) w
  end.

Definition LogForStorage_EncodeRLP (o : option LogForStorage) (w : encbuf) : result rlp_error encbuf :=
  match o with
  | None => Err ErrPanic
  | Some (ForStorage l) => encbuf_encode rlpStorageLog (VStruct (rlpLog_vals l ++ derived_vals l)) w
  end.

#[global] Instance Log_Encoder : Encoder Log := Log_EncodeRLP.
#[global] Instance LogForStorage_Encoder : Encoder LogForStorage := LogForStorage_EncodeRLP.

Section Decoding.
Context (type_name : gtype -> string).

Definition Log_DecodeRLP (l : Log) (s : Stream) : option rlp_error * Log * Stream :=
  match stream_Decode type_name (PointerTo rlpLog (zero_of rlpLog)) s with
  | (None, PointerTo _ (VStruct [VByteArray a; VList ts; VBytes d]), s') =>
      (None, MkLog a (omap hash_of ts) d (lg_BlockNumber l) (lg_TxHash l) (lg_TxIndex l) (lg_BlockHash l) (lg_Index l)
               (lg_Removed l), s')
  | (None, _, s') => (Some ErrReflect, l, s')
  | (Some err, _, s') => (Some err, l, s')
  end.

Definition LogForStorage_DecodeRLP (l : LogForStorage) (s : Stream) : option rlp_error * LogForStorage * Stream :=
  match stream_Decode type_name (PointerTo rlpStorageLog (zero_of rlpStorageLog)) s with
  | (None, PointerTo _ (VStruct [VByteArray a; VList ts; VBytes d; VUint bn; VByteArray th; VUint ti; VByteArray bh; VUint i]), s') =>
      (None, ForStorage (MkLog a (omap hash_of ts) d bn th ti bh i false), s')
  | (None, _, s') => (Some ErrReflect, l, s')
  | (Some err, _, s') => (Some err, l, s')
  end.

#[global] Instance Log_Decoder : Decoder Log := Log_DecodeRLP.
#[global] Instance LogForStorage_Decoder : Decoder LogForStorage := LogForStorage_DecodeRLP.

(** ** Records as Go has them *)

Definition fixed (n : nat) (b : bytes) : Prop := length b = n /\ bytes_ok b.
#[global] Instance fixed_dec n b : Decision (fixed n b).
Proof. unfold fixed. apply _. Defined.

Record log_ok (l : Log) : Prop := {
  lo_Address : fixed AddressLength (lg_Address l);
  lo_Topics : Forall (fixed HashLength) (lg_Topics l);
  lo_Data : bytes_ok (lg_Data l);
  lo_BlockNumber : 0 <= lg_BlockNumber l < 2 ^ 64;
  lo_TxHash : fixed HashLength (lg_TxHash l);
  lo_TxIndex : 0 <= lg_TxIndex l < 2 ^ 64;
  lo_BlockHash : fixed HashLength (lg_BlockHash l);
  lo_Index : 0 <= lg_Index l < 2 ^ 64 }.

(** The encodings by the rules. *)
Definition log_fields_wire (l : Log) : bytes :=
  rlp_string (lg_Address l) ++ rlp_list (concat (rlp_string <$> lg_Topics l)) ++ rlp_string (lg_Data l).
Definition derived_wire (l : Log) : bytes :=
  rlp_string (be_min (lg_BlockNumber l)) ++ rlp_string (lg_TxHash l) ++ rlp_string (be_min (lg_TxIndex l)) ++
  rlp_string (lg_BlockHash l) ++ rlp_string (be_min (lg_Index l)).
Definition log_wire (l : Log) : bytes := rlp_list (log_fields_wire l).
Definition storage_wire (l : Log) : bytes := rlp_list (log_fields_wire l ++ derived_wire l).

(** What is left of a record, over what was there before. *)
Definition consensus_over (old l : Log) : Log :=
  MkLog (lg_Address l) (lg_Topics l) (lg_Data l) (lg_BlockNumber old) (lg_TxHash old) (lg_TxIndex old)
    (lg_BlockHash old) (lg_Index old) (lg_Removed old).
Definition not_removed (l : Log) : Log :=
  MkLog (lg_Address l) (lg_Topics l) (lg_Data l) (lg_BlockNumber l) (lg_TxHash l) (lg_TxIndex l)
    (lg_BlockHash l) (lg_Index l) false.
Definition zero_log : Log := default (MkLog [] [] [] 0 [] 0 [] 0 false) (Log_of (zero_of TLog)).

Lemma hashes_of (l : list Hash) : omap hash_of (VByteArray <$> l) = l.
Proof. induction l as [|h l IH]; [done|]. cbn. by f_equal. Qed.

Lemma topics_enc ts : rlp_encs THash (VByteArray <$> ts) (concat (rlp_string <$> ts)).
Proof. induction ts as [|h ts IH]; cbn; constructor; [constructor|done]. Qed.

Lemma topics_rt ts : Forall (fixed HashLength) ts -> rt_oks THash (VByteArray <$> ts).
Proof.
  induction 1 as [|h ts [Hl Hb] _ IH]; cbn; constructor; [done| |done].
  constructor; [done..|]. intros ->. by unfold HashLength in Hl.
Qed.

Lemma topics_ok ts : Forall (fixed HashLength) ts -> Forall val_ok (VByteArray <$> ts).
Proof. intros H. apply Forall_fmap. eapply Forall_impl; [exact H|]. intros h [_ Hb]. by constructor. Qed.

(** The next field, which has no tag. *)
Ltac next_enc := apply (Ef_field _ _ _ _ _ _ _ no_tags); [done..| |].
Ltac next_rt := apply (Rf_field _ _ _ _ _ no_tags); [done..| |].

Lemma fixed_rt n b ts : (1 < n)%nat -> fixed n b -> rt_ok (TByteArray n) ts (VByteArray b).
Proof. intros Hn [Hl Hb]. constructor; [done..|]. intros ->. cbn in Hl. lia. Qed.

Lemma uint64_rt z ts : z < 2 ^ 64 -> rt_ok (TUint 64) ts (VUint z).
Proof. intros Hz. by constructor. Qed.

Lemma log_enc l : rlp_enc rlpLog no_tags (VStruct (rlpLog_vals l)) (log_wire l).
Proof.
  apply (E_struct _ no_tags). unfold log_fields_wire. rewrite <- (app_nil_r (rlp_string (lg_Data l))).
  repeat next_enc; try by constructor. apply (E_slice THash no_tags), topics_enc.
Qed.

Lemma storage_enc l : log_ok l ->
  rlp_enc rlpStorageLog no_tags (VStruct (rlpLog_vals l ++ derived_vals l)) (storage_wire l).
Proof.
  intros H. apply (E_struct _ no_tags). unfold log_fields_wire, derived_wire.
  rewrite <- !app_assoc, <- (app_nil_r (rlp_string (be_min (lg_Index l)))).
  repeat next_enc; try (constructor; by apply H); try by constructor. apply (E_slice THash no_tags), topics_enc.
Qed.

Lemma log_rt l : log_ok l -> rt_ok rlpLog no_tags (VStruct (rlpLog_vals l)).
Proof.
  intros H. apply (R_struct _ no_tags). repeat next_rt; try by constructor.
  - apply fixed_rt; [unfold AddressLength; lia|apply H].
  - constructor. apply topics_rt, H.
Qed.

Lemma storage_rt l : log_ok l -> rt_ok rlpStorageLog no_tags (VStruct (rlpLog_vals l ++ derived_vals l)).
Proof.
  intros H. apply (R_struct _ no_tags). repeat next_rt; try by constructor.
  all: try (apply fixed_rt; [unfold AddressLength, HashLength; lia|apply H]); try (apply uint64_rt; apply H).
  constructor. apply topics_rt, H.
Qed.

Lemma log_vals_ok l : log_ok l -> Forall val_ok (rlpLog_vals l ++ derived_vals l).
Proof.
  intros H. repeat (apply List.Forall_cons); try apply List.Forall_nil; constructor; try apply H. apply topics_ok, H.
Qed.

(** ** The laws *)

#[global] Program Instance Log_laws : RlpLaws Log := {|
  wire l e := log_ok l /\ e = log_wire l;
  back := consensus_over;
  zero := zero_log |}.
Next Obligation. intros l. cbn. destruct l as [a ts d bn th ti bh i rm]. cbn. by rewrite hashes_of. Qed.
Next Obligation. reflexivity. Qed.
Next Obligation. intros l e [_ ->]. apply one_value_list. Qed.
Next Obligation.
  intros l e w [Hl ->] He. apply (encbuf_encode_writes rlpLog); [done| |apply log_enc|done].
  constructor. pose proof (log_vals_ok l Hl) as Hv. by apply Forall_app in Hv as [Hv _].
Qed.
Next Obligation.
  intros old l e rest s [Hl ->] Hk Hr Hroom.
  destruct (stream_Decode_decodes type_name rlpLog _ _ rest s eq_refl (log_rt l Hl) (log_enc l) Hk Hr Hroom)
    as (s' & E & A & K).
  exists s'. split; [|done]. unfold DecodeRLP, Log_Decoder, Log_DecodeRLP. rewrite E. cbn [rlpLog_vals].
  by rewrite hashes_of.
Qed.
Next Obligation.
  intros old s Hs. destruct (stream_Decode_eol type_name rlpLog s eq_refl eq_refl Hs) as [v E].
  exists old. unfold DecodeRLP, Log_Decoder, Log_DecodeRLP. by rewrite E.
Qed.

#[global] Program Instance LogForStorage_laws : RlpLaws LogForStorage := {|
  wire l e := log_ok (storage_log l) /\ e = storage_wire (storage_log l);
  back _ l := ForStorage (not_removed (storage_log l));
  zero := ForStorage zero_log |}.
Next Obligation. intros [l]. cbn. destruct l as [a ts d bn th ti bh i rm]. cbn. by rewrite hashes_of. Qed.
Next Obligation. reflexivity. Qed.
Next Obligation. intros l e [_ ->]. apply one_value_list. Qed.
Next Obligation.
  intros [l] e w [Hl ->] He. apply (encbuf_encode_writes rlpStorageLog); [done| |by apply storage_enc|done].
  constructor. by apply log_vals_ok.
Qed.
Next Obligation.
  intros old [l] e rest s [Hl ->] Hk Hr Hroom. cbn [storage_log] in *.
  destruct (stream_Decode_decodes type_name rlpStorageLog _ _ rest s eq_refl (storage_rt l Hl) (storage_enc l Hl) Hk Hr Hroom)
    as (s' & E & A & K).
  exists s'. split; [|done]. unfold DecodeRLP, LogForStorage_Decoder, LogForStorage_DecodeRLP. rewrite E.
  cbn [rlpLog_vals derived_vals app]. by rewrite hashes_of.
Qed.
Next Obligation.
  intros old s Hs. destruct (stream_Decode_eol type_name rlpStorageLog s eq_refl eq_refl Hs) as [v E].
  exists old. unfold DecodeRLP, LogForStorage_Decoder, LogForStorage_DecodeRLP. by rewrite E.
Qed.

(** ** Properties *)

Lemma wires_Log l : Forall log_ok l -> Forall2 wire l (log_wire <$> l).
Proof. intros H. apply Forall2_fmap_r, Forall_Forall2_diag. eapply Forall_impl; [exact H|]. by intros x Hx. Qed.

Lemma wires_storage l : Forall log_ok l -> Forall2 wire (ForStorage <$> l) (storage_wire <$> l).
Proof.
  intros H. apply Forall2_fmap, Forall_Forall2_diag. eapply Forall_impl; [exact H|]. by intros x Hx.
Qed.

Definition ptr_to (l : Log) : gval := VPtr (Some (Log_val l)).


End Decoding.

(** A record with a topic. *)
Definition ex_log : Log :=
  MkLog (replicate 20 1) [replicate 32 2] [3; 4] 5 (replicate 32 6) 0 (replicate 32 7) 300 true.

Lemma ex_log_ok : log_ok ex_log.
Proof.
  split; cbn; try lia; try (apply (bool_decide_unpack _); vm_compute; exact I).
Qed.

