(* ===== verification/Hexutil.v ===== *)
(** * Hexadecimal text: [src/core/hexutil/hexutil.go], [src/core/hexutil/json.go] and
    [src/core/common/bytes.go]

    Text is a list of bytes.  Of the packages [encoding/hex] and [strconv] of the
    standard library, what is used is written out first.  Words have 64 bits. *)

From S2P Require Import Prelude.
Local Open Scope Z_scope.

(** ** The standard library *)

(** [hextable[d]]. *)
Definition hexdigit (d : Z) : Z := if d <? 10 then 48 + d else 87 + d.

Definition fromHexChar (c : Z) : option Z :=
  if (48 <=? c) && (c <=? 57) then Some (c - 48)
  else if (97 <=? c) && (c <=? 102) then Some (c - 97 + 10)
  else if (65 <=? c) && (c <=? 70) then Some (c - 65 + 10)
  else None.

Definition hex_EncodeToString (b : bytes) : bytes :=
  flat_map (fun v => [hexdigit (Z.shiftr v 4); hexdigit (Z.land v 0x0f)]) b.

Inductive std_error := InvalidByteError (c : Z) | ErrLength | NumErrSyntax | NumErrRange.

(** [hex.Decode]: the bytes before an error are decoded. *)
Fixpoint hex_Decode (src : bytes) : bytes * option std_error :=
  match src with
  | p :: q :: rest =>
      match fromHexChar p, fromHexChar q with
      | None, _ => ([], Some (InvalidByteError p))
      | _, None => ([], Some (InvalidByteError q))
      | Some a, Some b =>
          let (l, err) := hex_Decode rest in (Z.lor (Z.shiftl a 4) b :: l, err)
      end
  | [p] =>
      match fromHexChar p with
      | None => ([], Some (InvalidByteError p))
      | Some _ => ([], Some ErrLength)
      end
  | [] => ([], None)
  end.

(** [strconv.ParseUint(s, 16, 64)] from [n] on. *)
Fixpoint parse_loop (n : Z) (s : bytes) : Z * option std_error :=
  match s with
  | [] => (n, None)
  | c :: s' =>
      match fromHexChar c with
      | None => (0, Some NumErrSyntax)
      | Some d =>
          if 2 ^ 60 <=? n then (2 ^ 64 - 1, Some NumErrRange)
          else parse_loop (n * 16 + d) s'
      end
  end.
Definition ParseUint16 (s : bytes) : Z * option std_error :=
  match s with [] => (0, Some NumErrSyntax) | _ => parse_loop 0 s end.

(** The digits of a number, as [strconv.AppendUint] and [fmt] print them. *)
Definition nnibbles (z : Z) : nat := if z =? 0 then 1 else S (Z.to_nat (Z.log2 z / 4)).
Fixpoint hex_digits (n : nat) (z : Z) : bytes :=
  match n with O => [] | S n => hex_digits n (z / 16) ++ [hexdigit (z mod 16)] end.
Definition AppendUint16 (dst : bytes) (z : Z) : bytes := dst ++ hex_digits (nnibbles z) z.

(** ** [hexutil.go] *)

Inductive hex_error :=
| ErrEmptyString | ErrSyntax | ErrMissingPrefix | ErrOddLength | ErrEmptyNumber
| ErrLeadingZero | ErrUint64Range | ErrUintRange | ErrBig256Range.

Definition prefix0x : bytes := [48; 120].

Definition has0xPrefix (input : bytes) : bool :=
  match input with
  | a :: b :: _ => (a =? 48) && ((b =? 120) || (b =? 88))
  | _ => false
  end.

Definition mapError (e : std_error) : hex_error :=
  match e with
  | NumErrRange => ErrUint64Range
  | NumErrSyntax => ErrSyntax
  | InvalidByteError _ => ErrSyntax
  | ErrLength => ErrOddLength
  end.

Definition Decode (input : bytes) : bytes * option hex_error :=
  match input with
  | [] => ([], Some ErrEmptyString)
  | _ =>
      if negb (has0xPrefix input) then ([], Some ErrMissingPrefix)
      else let (b, err) := hex_Decode (drop 2 input) in (b, mapError <$> err)
  end.

(** [None]: panic. *)
Definition MustDecode (input : bytes) : option bytes :=
  match Decode input with (b, None) => Some b | _ => None end.

Definition Encode (b : bytes) : bytes := prefix0x ++ hex_EncodeToString b.

Definition checkNumber (input : bytes) : result hex_error bytes :=
  match input with
  | [] => Err ErrEmptyString
  | _ =>
      if negb (has0xPrefix input) then Err ErrMissingPrefix
      else
        let raw := drop 2 input in
        if (length raw =? 0)%nat then Err ErrEmptyNumber
        else if (1 <? length raw)%nat && (nth 0 raw 0 =? 48) then Err ErrLeadingZero
        else Ok raw
  end.

Definition DecodeUint64 (input : bytes) : Z * option hex_error :=
  match checkNumber input with
  | Err e => (0, Some e)
  | Ok raw => let (dec, err) := ParseUint16 raw in (dec, mapError <$> err)
  end.

Definition MustDecodeUint64 (input : bytes) : option Z :=
  match DecodeUint64 input with (n, None) => Some n | _ => None end.

Definition EncodeUint64 (i : Z) : bytes := AppendUint16 prefix0x i.

Definition badNibble : Z := 2 ^ 64 - 1.

Definition decodeNibble (c : Z) : Z :=
  if (48 <=? c) && (c <=? 57) then c - 48
  else if (65 <=? c) && (c <=? 70) then c - 65 + 10
  else if (97 <=? c) && (c <=? 102) then c - 97 + 10
  else badNibble.

Definition bigWordNibbles : nat := 16.

(** One word of the number: [None] is a bad nibble. *)
Fixpoint word_nibbles (w : Z) (l : bytes) : option Z :=
  match l with
  | [] => Some w
  | c :: l' =>
      let nib := decodeNibble c in
      if nib =? badNibble then None else word_nibbles (u64 (u64 (w * 16) + nib)) l'
  end.

(** The loop over [n] words; digits from [end_] on are done. *)
Fixpoint words_loop (n : nat) (raw : bytes) (end_ : nat) : option (list Z) :=
  match n with
  | O => Some []
  | S n =>
      let start := (end_ - bigWordNibbles)%nat in
      w ← word_nibbles 0 (take (end_ - start) (drop start raw));
      ws ← words_loop n raw start;
      Some (w :: ws)
  end.

(** [big.Int.SetBits]. *)
Fixpoint SetBits (ws : list Z) : Z :=
  match ws with [] => 0 | w :: ws' => w + 2 ^ 64 * SetBits ws' end.

Definition decode_big (raw : bytes) : result hex_error Z :=
  if (64 <? length raw)%nat then Err ErrBig256Range
  else match words_loop (length raw / bigWordNibbles + 1) raw (length raw) with
       | None => Err ErrSyntax
       | Some words => Ok (SetBits words)
       end.

Definition DecodeBig (input : bytes) : result hex_error Z :=
  raw ← checkNumber input; decode_big raw.

Definition MustDecodeBig (input : bytes) : option Z :=
  match DecodeBig input with Ok z => Some z | Err _ => None end.

(** [fmt.Sprintf("%#x")] prints the sign in front. *)
Definition EncodeBig (bigint : Z) : bytes :=
  if bigint =? 0 then prefix0x ++ [48]
  else (if bigint <? 0 then [45] else []) ++ AppendUint16 prefix0x (Z.abs bigint).

(** ** [json.go] *)

Inductive type_value := NonString | OfError (e : hex_error).
Inductive json_error :=
| DecErr (e : hex_error)
| LengthErr (got want : Z) (typname : string)
| UnmarshalTypeError (value : type_value) (typ : string).

Definition isString (input : bytes) : bool :=
  (2 <=? length input)%nat && (nth 0 input 0 =? 34) && (List.last input 0 =? 34).

Definition wrapTypeError (err : option json_error) (typ : string) : option json_error :=
  match err with
  | Some (DecErr e) => Some (UnmarshalTypeError (OfError e) typ)
  | _ => err
  end.

(** [input[1:len(input)-1]]. *)
Definition unquote (input : bytes) : bytes := take (length input - 2) (drop 1 input).

(** [UnmarshalJSON] on top of [UnmarshalText]: the error and the value. *)
Definition UnmarshalJSON {A} (text : bytes -> A -> option json_error * A) (typ : string)
    (input : bytes) (old : A) : option json_error * A :=
  if negb (isString input) then (Some (UnmarshalTypeError NonString typ), old)
  else let (err, v) := text (unquote input) old in (wrapTypeError err typ, v).

Definition checkText (input : bytes) (wantPrefix : bool) : result hex_error bytes :=
  match input with
  | [] => Ok []
  | _ =>
      raw ← (if has0xPrefix input then Ok (drop 2 input)
             else if wantPrefix then Err ErrMissingPrefix else Ok input);
      if Nat.odd (length raw) then Err ErrOddLength else Ok raw
  end.

Definition checkNumberText (input : bytes) : result hex_error bytes :=
  match input with
  | [] => Ok []
  | _ =>
      if negb (has0xPrefix input) then Err ErrMissingPrefix
      else
        let raw := drop 2 input in
        if (length raw =? 0)%nat then Err ErrEmptyNumber
        else if (1 <? length raw)%nat && (nth 0 raw 0 =? 48) then Err ErrLeadingZero
        else Ok raw
  end.

Definition Bytes_MarshalText (b : bytes) : bytes := prefix0x ++ hex_EncodeToString b.

Definition Bytes_UnmarshalText (input : bytes) (old : bytes) : option json_error * bytes :=
  match checkText input true with
  | Err e => (Some (DecErr e), old)
  | Ok raw =>
      match hex_Decode raw with
      | (_, Some e) => (Some (DecErr (mapError e)), old)
      | (dec, None) => (None, dec)
      end
  end.

(** [UnmarshalFixedText] and [UnmarshalFixedUnprefixedText]. *)
Definition unmarshal_fixed (wantPrefix : bool) (typname : string) (input out : bytes)
    : option json_error * bytes :=
  match checkText input wantPrefix with
  | Err e => (Some (DecErr e), out)
  | Ok raw =>
      if negb (length raw / 2 =? length out)%nat
      then (Some (LengthErr (zlen raw) (zlen out * 2) typname), out)
      else if existsb (fun b => decodeNibble b =? badNibble) raw then (Some (DecErr ErrSyntax), out)
      else let (dec, _) := hex_Decode raw in (None, dec ++ drop (length dec) out)
  end.
Definition UnmarshalFixedText := unmarshal_fixed true.
Definition UnmarshalFixedUnprefixedText := unmarshal_fixed false.
Definition UnmarshalFixedJSON (typ : string) (input out : bytes) : option json_error * bytes :=
  UnmarshalJSON (UnmarshalFixedText typ) typ input out.

Definition Big_MarshalText (b : Z) : bytes := EncodeBig b.

Definition Big_UnmarshalText (input : bytes) (old : Z) : option json_error * Z :=
  match raw ← checkNumberText input; decode_big raw with
  | Err e => (Some (DecErr e), old)
  | Ok dec => (None, dec)
  end.

Definition Uint64_MarshalText (b : Z) : bytes := AppendUint16 prefix0x b.
Definition Uint_MarshalText (b : Z) : bytes := Uint64_MarshalText b.

(** The methods [String]. *)
Definition Bytes_String (b : bytes) : bytes := Encode b.
Definition Big_String (b : Z) : bytes := EncodeBig b.
Definition Uint64_String (b : Z) : bytes := EncodeUint64 b.
Definition Uint_String (b : Z) : bytes := EncodeUint64 b.

Fixpoint uint64_nibbles (dec : Z) (raw : bytes) : option Z :=
  match raw with
  | [] => Some dec
  | c :: raw' =>
      let nib := decodeNibble c in
      if nib =? badNibble then None else uint64_nibbles (u64 (u64 (dec * 16) + nib)) raw'
  end.

Definition Uint64_UnmarshalText (input : bytes) (old : Z) : option json_error * Z :=
  match checkNumberText input with
  | Err e => (Some (DecErr e), old)
  | Ok raw =>
      if (16 <? length raw)%nat then (Some (DecErr ErrUint64Range), old)
      else match uint64_nibbles 0 raw with
           | None => (Some (DecErr ErrSyntax), old)
           | Some dec => (None, dec)
           end
  end.

(** [uint] has 64 bits. *)
Definition Uint_UnmarshalText (input : bytes) (old : Z) : option json_error * Z :=
  match Uint64_UnmarshalText input 0 with
  | (Some (DecErr ErrUint64Range), _) => (Some (DecErr ErrUintRange), old)
  | (Some e, _) => (Some e, old)
  | (None, u64) => (None, u64)
  end.

Definition Big_UnmarshalJSON : bytes -> Z -> option json_error * Z := UnmarshalJSON Big_UnmarshalText "*hexutil.Big".
Definition Uint64_UnmarshalJSON : bytes -> Z -> option json_error * Z :=
  UnmarshalJSON Uint64_UnmarshalText "hexutil.Uint64".
Definition Uint_UnmarshalJSON : bytes -> Z -> option json_error * Z := UnmarshalJSON Uint_UnmarshalText "hexutil.Uint".

(** ** [common/bytes.go] *)

Definition HasHexPrefix : bytes -> bool := has0xPrefix.

Definition isHexCharacter (c : Z) : bool :=
  ((48 <=? c) && (c <=? 57)) || ((97 <=? c) && (c <=? 102)) || ((65 <=? c) && (c <=? 70)).

Definition IsHex (str : bytes) : bool :=
  if Nat.odd (length str) then false else forallb isHexCharacter str.

Definition Bytes2Hex (d : bytes) : bytes := hex_EncodeToString d.
Definition Hex2Bytes (str : bytes) : bytes := (hex_Decode str).1.

Definition ToHex (b : bytes) : bytes :=
  let hex := Bytes2Hex b in
  prefix0x ++ match hex with [] => [48] | _ => hex end.

Definition FromHex (s : bytes) : bytes :=
  let s := if has0xPrefix s then drop 2 s else s in
  let s := if Nat.odd (length s) then 48 :: s else s in
  Hex2Bytes s.

Definition Hex2BytesFixed (str : bytes) (flen : nat) : bytes :=
  let h := (hex_Decode str).1 in
  if (length h =? flen)%nat then h
  else if (flen <? length h)%nat then drop (length h - flen) h
  else replicate (flen - length h) 0 ++ h.

Definition RightPadBytes (slice : bytes) (l : nat) : bytes :=
  if (l <=? length slice)%nat then slice else slice ++ replicate (l - length slice) 0.
Definition LeftPadBytes (slice : bytes) (l : nat) : bytes :=
  if (l <=? length slice)%nat then slice else replicate (l - length slice) 0 ++ slice.

(** ** Values of digits *)

Section Digits.

(** The number that digits stand for, after the number [n]. *)
Fixpoint hexval (n : Z) (l : bytes) : option Z :=
  match l with
  | [] => Some n
  | c :: l' => d ← fromHexChar c; hexval (n * 16 + d) l'
  end.

Lemma fromHexChar_range c d : fromHexChar c = Some d -> 0 <= d < 16.
Proof.
  unfold fromHexChar. intros H. repeat case_match; simplify_eq;
    repeat match goal with E : (_ && _)%bool = true |- _ => apply andb_prop in E as [? ?] end;
    zbool; lia.
Qed.

Lemma fromHexChar_zero c : fromHexChar c = Some 0 -> c = 48.
Proof.
  unfold fromHexChar. intros H. repeat case_match; simplify_eq;
    repeat match goal with E : (_ && _)%bool = true |- _ => apply andb_prop in E as [? ?] end;
    zbool; lia.
Qed.

Lemma fromHexChar_hexdigit d : 0 <= d < 16 -> fromHexChar (hexdigit d) = Some d.
Proof.
  intros Hd. unfold hexdigit, fromHexChar.
  assert (H : d = 0 \/ d = 1 \/ d = 2 \/ d = 3 \/ d = 4 \/ d = 5 \/ d = 6 \/ d = 7 \/ d = 8 \/
    d = 9 \/ d = 10 \/ d = 11 \/ d = 12 \/ d = 13 \/ d = 14 \/ d = 15) by lia.
  by destruct_or! H; subst d.
Qed.

Lemma decodeNibble_char c :
  decodeNibble c = default badNibble (fromHexChar c) /\
  ((decodeNibble c =? badNibble) = bool_decide (fromHexChar c = None)).
Proof.
  assert (E : decodeNibble c = default badNibble (fromHexChar c)).
  { unfold decodeNibble, fromHexChar. repeat case_match; try done.
    all: repeat match goal with E : (_ && _)%bool = true |- _ => apply andb_prop in E as [? ?] end;
      zbool; lia. }
  split; [exact E|]. rewrite E. destruct (fromHexChar c) as [d|] eqn:Hc; cbn; [|done].
  apply fromHexChar_range in Hc. apply Z.eqb_neq. unfold badNibble. lia.
Qed.

Lemma hexval_app n l1 l2 : hexval n (l1 ++ l2) = v ← hexval n l1; hexval v l2.
Proof.
  revert n. induction l1 as [|c l1 IH]; intros n; cbn; [done|].
  destruct (fromHexChar c); cbn; [apply IH|done].
Qed.

Lemma hexval_shift n l : hexval n l = (fun v => n * 16 ^ zlen l + v) <$> hexval 0 l.
Proof.
  revert n. induction l as [|c l IH]; intros n; cbn [hexval].
  { cbn. f_equal. lia. }
  destruct (fromHexChar c) as [d|]; [|done]. cbn [mbind option_bind].
  rewrite (IH (n * 16 + d)), (IH (0 * 16 + d)).
  destruct (hexval 0 l) as [v|]; [|done]. cbn [fmap option_fmap option_map]. f_equal.
  cbn [length]. rewrite Nat2Z.inj_succ, Z.pow_succ_r by lia. lia.
Qed.

Lemma hexval_bound l v : hexval 0 l = Some v -> 0 <= v < 16 ^ zlen l.
Proof.
  revert v. induction l as [|c l IH]; intros v; cbn [hexval].
  { intros [= <-]. cbn. lia. }
  destruct (fromHexChar c) as [d|] eqn:Hc; [|done]. cbn [mbind option_bind].
  rewrite hexval_shift. destruct (hexval 0 l) as [w|]; [|done]. cbn.
  intros [= <-]. specialize (IH w eq_refl). apply fromHexChar_range in Hc.
  rewrite Nat2Z.inj_succ, Z.pow_succ_r by lia. nia.
Qed.

(** Without leading zeros the value is at least the power of its length. *)
Lemma hexval_lower c l v :
  c <> 48 -> hexval 0 (c :: l) = Some v -> 16 ^ zlen l <= v.
Proof.
  intros Hne. cbn [hexval]. destruct (fromHexChar c) as [d|] eqn:Hc; [|done].
  cbn [mbind option_bind]. rewrite hexval_shift. destruct (hexval 0 l) as [w|] eqn:Hw; [|done].
  cbn. intros [= <-]. apply hexval_bound in Hw. pose proof (fromHexChar_range _ _ Hc).
  assert (d <> 0) by (intros ->; by apply fromHexChar_zero in Hc).
  assert (0 < 16 ^ zlen l) by (apply Z.pow_pos_nonneg; lia). nia.
Qed.

(** ** Loops *)

Lemma parse_loop_spec s n v :
  0 <= n < 2 ^ 64 -> (parse_loop n s = (v, None) <-> hexval n s = Some v /\ v < 2 ^ 64).
Proof.
  revert n. induction s as [|c s IH]; intros n Hn; cbn [parse_loop hexval].
  { split; [intros [= <-]; split; [done|lia]|]. intros [[= <-] _]. done. }
  destruct (fromHexChar c) as [d|] eqn:Hc; cbn [mbind option_bind]; [|split; [done|by intros [? _]]].
  apply fromHexChar_range in Hc. destruct (Z.leb_spec (2 ^ 60) n) as [Hge|Hlt].
  - split; [done|]. rewrite hexval_shift. intros [H Hv].
    destruct (hexval 0 s) as [w|] eqn:Hw; [|done]. cbn in H. injection H as <-.
    apply hexval_bound in Hw. assert (1 <= 16 ^ zlen s) by (apply (Z.pow_le_mono_r 16 0); lia). nia.
  - apply IH. lia.
Qed.

(** Within 64 bits nothing is lost. *)
Lemma word_nibbles_spec l w k :
  0 <= w < 16 ^ k -> 0 <= k -> k + zlen l <= 16 -> word_nibbles w l = hexval w l.
Proof.
  revert w k. induction l as [|c l IH]; intros w k Hw Hk Hl; cbn [word_nibbles hexval]; [done|].
  destruct (decodeNibble_char c) as [-> ->].
  destruct (fromHexChar c) as [d|] eqn:Hc; [|done]. rewrite bool_decide_false by done.
  cbn [default from_option id mbind option_bind]. apply fromHexChar_range in Hc.
  cbn [length] in Hl. rewrite Nat2Z.inj_succ in Hl.
  assert (16 ^ Z.succ k <= 16 ^ 16) by (apply Z.pow_le_mono_r; lia).
  assert (16 ^ Z.succ k = 16 * 16 ^ k) by (apply Z.pow_succ_r; lia).
  change (16 ^ 16) with (2 ^ 64) in *. unfold u64.
  rewrite (Z.mod_small (w * 16)), Z.mod_small by lia. apply (IH _ (Z.succ k)); lia.
Qed.

Lemma uint64_nibbles_word l d : uint64_nibbles d l = word_nibbles d l.
Proof. revert d. induction l as [|c l IH]; intros d; cbn; [done|]. case_match; auto. Qed.

Lemma SetBits_zero n : SetBits (replicate n 0) = 0.
Proof. induction n; cbn [replicate SetBits]; lia. Qed.

Lemma words_loop_zero n raw : words_loop n raw 0 = Some (replicate n 0).
Proof. induction n as [|n IH]; cbn [words_loop]; [done|]. cbn. by rewrite IH. Qed.

(** The words are the number, 16 digits each, the last ones first. *)
Lemma words_loop_spec n raw end_ :
  (end_ <= length raw)%nat -> (end_ <= n * 16)%nat ->
  SetBits <$> words_loop n raw end_ = hexval 0 (take end_ raw).
Proof.
  revert end_. induction n as [|n IH]; intros end_ Hl Hn.
  { assert (end_ = 0%nat) as -> by lia. by rewrite take_0. }
  cbn [words_loop]. set (start := (end_ - bigWordNibbles)%nat). unfold bigWordNibbles in start.
  set (chunk := take (end_ - start) (drop start raw)).
  assert (Hlen : length chunk = (end_ - start)%nat)
    by (unfold chunk; rewrite length_take, length_drop; lia).
  assert (Hsplit : take end_ raw = take start raw ++ chunk).
  { unfold chunk. rewrite take_take_drop. f_equal. lia. }
  rewrite (word_nibbles_spec chunk 0 0) by (rewrite ?Hlen; lia).
  rewrite Hsplit, hexval_app. specialize (IH start ltac:(lia) ltac:(lia)).
  destruct (decide (start = 0%nat)) as [H0|H0].
  { rewrite H0, words_loop_zero, take_0. cbn [hexval mbind option_bind].
    destruct (hexval 0 chunk) as [w|]; [|done]. cbn. f_equal. rewrite SetBits_zero. lia. }
  rewrite <- IH. destruct (words_loop n raw start) as [ws|]; cbn.
  - rewrite (hexval_shift (SetBits ws)), Hlen.
    replace (Z.of_nat (end_ - start)) with 16 by lia.
    destruct (hexval 0 chunk) as [w|]; [|done]. cbn. f_equal. lia.
  - by destruct (hexval 0 chunk).
Qed.

(** Printing a number. *)
Lemma hex_digits_val n z : 0 <= z -> hexval 0 (hex_digits n z) = Some (z mod 16 ^ Z.of_nat n).
Proof.
  revert z. induction n as [|n IH]; intros z Hz; cbn [hex_digits].
  { cbn. by rewrite Z.mod_1_r. }
  rewrite hexval_app, IH by (apply Z.div_pos; lia). cbn [mbind option_bind hexval].
  rewrite fromHexChar_hexdigit by (apply Z.mod_pos_bound; lia). cbn [mbind option_bind]. f_equal.
  rewrite Nat2Z.inj_succ, Z.pow_succ_r by lia.
  rewrite (Z.rem_mul_r z 16) by (try apply Z.pow_pos_nonneg; lia). lia.
Qed.

Lemma length_hex_digits n z : length (hex_digits n z) = n.
Proof. revert z. induction n as [|n IH]; intros z; cbn; [done|]. rewrite length_app, IH. cbn. lia. Qed.

Lemma nnibbles_bounds z : 0 < z ->
  16 ^ (Z.of_nat (nnibbles z) - 1) <= z < 16 ^ Z.of_nat (nnibbles z).
Proof.
  intros Hz. unfold nnibbles. destruct (Z.eqb_spec z 0); [lia|].
  pose proof (Z.log2_spec z Hz) as [Hlo Hhi]. pose proof (Z.log2_nonneg z).
  pose proof (Z.div_pos (Z.log2 z) 4 ltac:(lia) ltac:(lia)).
  rewrite Nat2Z.inj_succ, Z2Nat.id by lia. change 16 with (2 ^ 4).
  rewrite <- !Z.pow_mul_r by lia. pose proof (Z.div_mod (Z.log2 z) 4 ltac:(lia)).
  pose proof (Z.mod_pos_bound (Z.log2 z) 4 ltac:(lia)). split.
  - etrans; [|exact Hlo]. apply Z.pow_le_mono_r; lia.
  - eapply Z.lt_le_trans; [exact Hhi|]. apply Z.pow_le_mono_r; lia.
Qed.

(** The digits of a number: its value, and no zero in front. *)
Lemma digits_spec z :
  0 <= z -> let l := hex_digits (nnibbles z) z in
  hexval 0 l = Some z /\ exists c l', l = c :: l' /\ (c = 48 -> l' = []).
Proof.
  intros Hz l. assert (Hv : hexval 0 l = Some z).
  { unfold l. rewrite hex_digits_val by done. f_equal.
    destruct (Z.eq_dec z 0) as [->|]; [done|]. apply Z.mod_small.
    pose proof (nnibbles_bounds z). lia. }
  split; [done|]. pose proof (length_hex_digits (nnibbles z) z) as Hl. fold l in Hl.
  assert (Hn : (1 <= nnibbles z)%nat) by (unfold nnibbles; case_match; lia).
  destruct l as [|c l']; [cbn in Hl; lia|]. exists c, l'. split; [done|]. intros ->.
  destruct (Z.eq_dec z 0) as [->|Hne]; [by destruct l'|].
  change (hexval 0 (48 :: l')) with (hexval 0 l') in Hv. apply hexval_bound in Hv.
  pose proof (nnibbles_bounds z ltac:(lia)) as [Hlo _]. cbn in Hl.
  replace (Z.of_nat (nnibbles z) - 1) with (zlen l') in Hlo by lia. lia.
Qed.

(** ** Bytes *)

Lemma hex_Decode_Encode b : bytes_ok b -> hex_Decode (hex_EncodeToString b) = (b, None).
Proof.
  intros Hb. unfold hex_EncodeToString. induction Hb as [|x b Hx Hb IH]; cbn [flat_map]; [done|].
  cbn [app hex_Decode]. unfold byte_ok in Hx.
  rewrite Z.shiftr_div_pow2 by lia.
  replace (Z.land x 15) with (x mod 2 ^ 4) by (symmetry; apply (Z.land_ones x 4); lia).
  rewrite !fromHexChar_hexdigit.
  - rewrite IH. f_equal. f_equal. rewrite lor_shiftl_add by (try apply Z.mod_pos_bound; lia).
    change (2 ^ 4) with 16. pose proof (Z.div_mod x 16). lia.
  - apply Z.mod_pos_bound. lia.
  - split; [apply Z.div_pos; lia|apply Z.div_lt_upper_bound; lia].
Qed.

Lemma isHexCharacter_char c : isHexCharacter c = bool_decide (is_Some (fromHexChar c)).
Proof.
  unfold isHexCharacter, fromHexChar. repeat case_match; cbn;
    rewrite ?bool_decide_true by (by eexists); rewrite ?bool_decide_false by (by intros [? ?]); done.
Qed.

Lemma hexdigit_char d : 0 <= d < 16 -> isHexCharacter (hexdigit d) = true.
Proof.
  intros Hd. rewrite isHexCharacter_char, fromHexChar_hexdigit by done.
  apply bool_decide_true. by eexists.
Qed.

Lemma hex_digits_of_bytes b : bytes_ok b ->
  length (hex_EncodeToString b) = (2 * length b)%nat /\
  forallb isHexCharacter (hex_EncodeToString b) = true.
Proof.
  intros Hb. unfold hex_EncodeToString. induction Hb as [|x b Hx Hb [IH1 IH2]]; cbn [flat_map]; [done|].
  cbn [app length forallb]. rewrite IH1, IH2. unfold byte_ok in Hx. split; [lia|].
  rewrite !hexdigit_char; [done| |].
  - change 15 with (Z.ones 4). rewrite Z.land_ones by lia. apply Z.mod_pos_bound. lia.
  - rewrite Z.shiftr_div_pow2 by lia.
    split; [apply Z.div_pos; lia|apply Z.div_lt_upper_bound; lia].
Qed.

End Digits.
