(* ===== verification/HexutilSpec.v ===== *)
(** * Reading and printing hexadecimal text

    What the decoders of [src/core/hexutil] accept, that they read back what is
    printed, and the hexadecimal forms of hashes and addresses in
    [src/core/types.go]. *)

From S2P Require Import Prelude Keccak Sponge Types Hexutil.
Local Open Scope Z_scope.

(** ** Forms of hashes and addresses *)

Definition HexToHash (s : bytes) : Hash := BytesToHash (FromHex s).
Definition Hash_Hex (h : Hash) : bytes := Encode h.
Definition HexToAddress (s : bytes) : Address := BytesToAddress (FromHex s).

Definition IsHexAddress (s : bytes) : bool :=
  let s := if HasHexPrefix s then drop 2 s else s in
  (length s =? 2 * AddressLength)%nat && IsHex s.

(** The loop over the digits: [hash] tells which letters become capital. *)
Fixpoint checksum (i : nat) (result hash : bytes) : bytes :=
  match result with
  | [] => []
  | c :: result' =>
      let hashByte := nth (i / 2) hash 0 in
      let hashByte := if Nat.even i then Z.shiftr hashByte 4 else Z.land hashByte 0xf in
      (if (57 <? c) && (7 <? hashByte) then c - 32 else c) :: checksum (S i) result' hash
  end.

(** [None]: [Write] or [Sum] panics, which they do not. *)
Definition Address_Hex (a : Address) : option bytes :=
  let unchecksummed := hex_EncodeToString a in
  '(sha, _) ← Write NewKeccak256 unchecksummed;
  hash ← Sum sha [];
  Some (prefix0x ++ checksum 0 unchecksummed hash).

(** ** Numbers *)

Section Numbers.

(** The text is the prefix, in either case of the letter, followed by the digits
    of [v] without zeros in front. *)
Definition canonical (input : bytes) (v : Z) : Prop :=
  exists x c raw, input = 48 :: x :: c :: raw /\ (x = 120 \/ x = 88) /\
    (c = 48 -> raw = []) /\ hexval 0 (c :: raw) = Some v.

Lemma has0xPrefix_inv input :
  has0xPrefix input = true -> exists x raw, input = 48 :: x :: raw /\ (x = 120 \/ x = 88).
Proof.
  destruct input as [|a [|b raw]]; try done. cbn.
  intros [Ha%Z.eqb_eq Hb]%andb_prop. apply orb_prop in Hb as [Hb|Hb]; apply Z.eqb_eq in Hb;
    subst; eexists _, _; eauto.
Qed.

(** What the checks of a number let through. *)
Lemma checkNumber_ok input raw :
  checkNumber input = Ok raw <->
  exists x c l, input = 48 :: x :: raw /\ (x = 120 \/ x = 88) /\ raw = c :: l /\ (c = 48 -> l = []).
Proof.
  unfold checkNumber. destruct input as [|a input]; [split; [done|by intros (? & ? & ? & ? & _)]|].
  destruct (has0xPrefix (a :: input)) eqn:Hp; cbn [negb].
  - apply has0xPrefix_inv in Hp as (x & rest & E & Hx). injection E as -> ->.
    change (drop 2 (48 :: x :: rest)) with rest. cbv zeta.
    destruct rest as [|c l]; [split; [done|by intros (? & ? & ? & [= _ <-] & _ & ? & _)]|].
    change (nth 0 (c :: l) 0) with c. cbn [length Nat.eqb]. destruct (_ && _)%bool eqn:Hz.
    + apply andb_prop in Hz as [Hl%Nat.ltb_lt ->%Z.eqb_eq]. split; [done|].
      intros (x' & c & l' & [= _ <-] & _ & [= <- <-] & Hc). rewrite (Hc eq_refl) in Hl. cbn in Hl. lia.
    + split.
      * intros [= <-]. exists x, c, l. split_and!; try done. intros ->.
        by destruct l.
      * by intros (x' & c' & l' & [= _ <-] & _).
  - split; [done|]. intros (x & c & l & [= -> ->] & Hx & _). exfalso. revert Hp. cbn.
    by destruct Hx as [-> | ->].
Qed.

Lemma checkNumberText_same input : input <> [] -> checkNumberText input = checkNumber input.
Proof. by destruct input. Qed.

Lemma canonical_raw input v :
  canonical input v <-> exists raw, checkNumber input = Ok raw /\ hexval 0 raw = Some v.
Proof.
  split.
  - intros (x & c & raw & -> & Hx & Hc & Hv). exists (c :: raw). split; [|done].
    apply checkNumber_ok. by exists x, c, raw.
  - intros (raw & Hr & Hv). apply checkNumber_ok in Hr as (x & c & l & -> & Hx & -> & Hc).
    by exists x, c, l.
Qed.

(** Without zeros in front, the number of digits tells the size. *)
Lemma digits_fit c l v n :
  (c = 48 -> l = []) -> hexval 0 (c :: l) = Some v -> (1 <= n)%nat ->
  ((length (c :: l) <= n)%nat <-> v < 16 ^ Z.of_nat n).
Proof.
  intros Hc Hv Hn. split.
  - intros Hl. apply hexval_bound in Hv as [_ Hv]. eapply Z.lt_le_trans; [exact Hv|].
    apply Z.pow_le_mono_r; lia.
  - intros Hlt. destruct (decide (c = 48)) as [E|E]; [rewrite (Hc E); cbn; lia|].
    apply hexval_lower in Hv; [|done].
    destruct (decide (length (c :: l) <= n)%nat) as [|Hgt]; [done|]. exfalso. cbn in Hgt.
    assert (16 ^ Z.of_nat n <= 16 ^ zlen l) by (apply Z.pow_le_mono_r; lia). lia.
Qed.

Lemma uint64_raw c l :
  (c = 48 -> l = []) -> forall v,
  ((if (16 <? length (c :: l))%nat then None else uint64_nibbles 0 (c :: l)) = Some v <->
   hexval 0 (c :: l) = Some v /\ v < 2 ^ 64).
Proof.
  intros Hc v. destruct (Nat.ltb_spec 16 (length (c :: l))) as [Hgt|Hle].
  - split; [done|]. intros [Hv Hlt]. exfalso.
    apply (digits_fit c l v 16 Hc Hv) in Hlt; [lia|lia].
  - rewrite uint64_nibbles_word, (word_nibbles_spec (c :: l) 0 0) by lia.
    split; [|by intros [? _]]. intros Hv. split; [done|].
    by apply (digits_fit c l v 16 Hc Hv); [lia|].
Qed.

Lemma decode_big_raw c l :
  (c = 48 -> l = []) -> forall v,
  decode_big (c :: l) = Ok v <-> hexval 0 (c :: l) = Some v /\ v < 2 ^ 256.
Proof.
  intros Hc v. unfold decode_big. destruct (Nat.ltb_spec 64 (length (c :: l))) as [Hgt|Hle].
  - split; [done|]. intros [Hv Hlt]. exfalso.
    apply (digits_fit c l v 64 Hc Hv) in Hlt; [lia|lia].
  - pose proof (words_loop_spec (length (c :: l) / bigWordNibbles + 1) (c :: l) (length (c :: l))
      ltac:(lia)) as Hw.
    specialize (Hw ltac:(unfold bigWordNibbles; pose proof (Nat.div_mod_eq (length (c :: l)) 16);
      pose proof (Nat.mod_upper_bound (length (c :: l)) 16); lia)).
    rewrite take_ge in Hw by lia. rewrite <- Hw.
    destruct (words_loop _ _ _) as [ws|]; cbn [fmap option_fmap option_map] in *.
    + split; [|by intros [[= <-] _]]. intros [= <-]. split; [done|].
      by apply (digits_fit c l _ 64 Hc (eq_sym Hw)); [lia|].
    + by split; [|intros [? _]].
Qed.

(** A number that the checks let through, and the digits read. *)
Lemma number_split input (P : result hex_error bytes -> Prop) :
  (forall e, (forall v, ~ canonical input v) -> P (Err e)) ->
  (forall c l, (c = 48 -> l = []) -> (forall v, canonical input v <-> hexval 0 (c :: l) = Some v) ->
     P (Ok (c :: l))) ->
  P (checkNumber input).
Proof.
  intros He Ho. destruct (checkNumber input) as [raw|e] eqn:E.
  - pose proof E as (x & c & l & Hin & Hx & -> & Hc)%checkNumber_ok. apply Ho; [done|].
    intros v. rewrite canonical_raw, E. split; [by intros (raw & [= <-] & H)|]. intros H.
    by exists (c :: l).
  - apply He. intros v Hv. apply canonical_raw in Hv as (raw & Hr & _). by rewrite E in Hr.
Qed.

Lemma decode_uint64 input v : DecodeUint64 input = (v, None) <-> canonical input v /\ v < 2 ^ 64.
Proof.
  unfold DecodeUint64. apply number_split.
  - intros e Hn. split; [done|]. by intros [H%Hn _].
  - intros c l Hc Hv. rewrite Hv, <- (parse_loop_spec (c :: l) 0 v) by lia.
    unfold ParseUint16. destruct (parse_loop 0 (c :: l)) as [n [e|]]; [done|]. cbn. split; by intros [= <-].
Qed.

Lemma text_uint64 input old v :
  input <> [] ->
  Uint64_UnmarshalText input old = (None, v) <-> canonical input v /\ v < 2 ^ 64.
Proof.
  intros Hne. unfold Uint64_UnmarshalText. rewrite checkNumberText_same by done. apply number_split.
  - intros e Hn. split; [done|]. by intros [H%Hn _].
  - intros c l Hc Hv. rewrite Hv, <- (uint64_raw c l Hc v).
    destruct (16 <? length (c :: l))%nat; [done|].
    destruct (uint64_nibbles 0 (c :: l)) as [n|]; [|done]. split; by intros [= <-].
Qed.

Lemma decode_bigint input v : DecodeBig input = Ok v <-> canonical input v /\ v < 2 ^ 256.
Proof.
  unfold DecodeBig. apply number_split.
  - intros e Hn. split; [done|]. by intros [H%Hn _].
  - intros c l Hc Hv. rewrite Hv. by apply decode_big_raw.
Qed.

Lemma text_bigint input old v :
  input <> [] -> Big_UnmarshalText input old = (None, v) <-> canonical input v /\ v < 2 ^ 256.
Proof.
  intros Hne. rewrite <- decode_bigint. unfold Big_UnmarshalText, DecodeBig.
  rewrite checkNumberText_same by done.
  destruct (checkNumber input ≫= _) as [z|e]; [|done]. split; by intros [= <-].
Qed.

(** Printed numbers. *)
Lemma printed_canonical z : 0 <= z -> canonical (AppendUint16 prefix0x z) z.
Proof.
  intros Hz. destruct (digits_spec z Hz) as (Hv & c & l & E & Hc).
  exists 120, c, l. unfold AppendUint16. rewrite E in *. split; [done|]. split; [by left|].
  by split.
Qed.

Lemma EncodeBig_canonical z : 0 <= z -> canonical (EncodeBig z) z.
Proof.
  intros Hz. unfold EncodeBig. destruct (Z.eqb_spec z 0) as [->|Hne].
  - by apply (printed_canonical 0).
  - destruct (Z.ltb_spec z 0); [lia|]. rewrite Z.abs_eq by done. by apply printed_canonical.
Qed.

Lemma UnmarshalJSON_quoted {A} (text : bytes -> A -> option json_error * A) typ t old :
  UnmarshalJSON text typ ([34] ++ t ++ [34]) old =
  let (err, v) := text t old in (wrapTypeError err typ, v).
Proof.
  assert (Hu : unquote ([34] ++ t ++ [34]) = t).
  { unfold unquote. rewrite !length_app. change (drop 1 ([34] ++ t ++ [34])) with (t ++ [34]).
    apply take_app_length'. cbn. lia. }
  assert (Hs : isString ([34] ++ t ++ [34]) = true).
  { unfold isString. rewrite app_assoc, last_last, !length_app. change (nth 0 _ 0) with 34. cbn.
    by rewrite Nat.add_1_r. }
  unfold UnmarshalJSON. by rewrite Hs, Hu.
Qed.

Lemma unquote_ok {A} (text : bytes -> A -> option json_error * A) typ t old v :
  text t old = (None, v) -> UnmarshalJSON text typ ([34] ++ t ++ [34]) old = (None, v).
Proof. intros H. by rewrite UnmarshalJSON_quoted, H. Qed.

End Numbers.

Section Bytes.

Lemma checkText_bytes b w :
  bytes_ok b -> checkText (Bytes_MarshalText b) w = Ok (hex_EncodeToString b).
Proof.
  intros Hb. destruct (hex_digits_of_bytes b Hb) as [Hl _]. unfold checkText, Bytes_MarshalText.
  change (has0xPrefix (prefix0x ++ hex_EncodeToString b)) with true.
  change (drop 2 (prefix0x ++ hex_EncodeToString b)) with (hex_EncodeToString b).
  cbn [prefix0x app mbind result_bind]. rewrite Hl, Nat.odd_mul. done.
Qed.

Lemma Bytes_text b old : bytes_ok b -> Bytes_UnmarshalText (Bytes_MarshalText b) old = (None, b).
Proof.
  intros Hb. unfold Bytes_UnmarshalText. by rewrite checkText_bytes, hex_Decode_Encode.
Qed.

Lemma no_bad_nibble l :
  forallb isHexCharacter l = true -> existsb (fun c => decodeNibble c =? badNibble) l = false.
Proof.
  induction l as [|c l IH]; cbn [forallb existsb]; [done|]. intros [Hc Hl]%andb_prop.
  rewrite IH by done. destruct (decodeNibble_char c) as [_ ->].
  rewrite isHexCharacter_char in Hc. apply bool_decide_eq_true in Hc as [d ->]. done.
Qed.

Lemma fixed_text b out typ :
  bytes_ok b -> UnmarshalFixedText typ (Bytes_MarshalText b) out =
    if (length b =? length out)%nat then (None, b)
    else (Some (LengthErr (2 * zlen b) (2 * zlen out) typ), out).
Proof.
  intros Hb. unfold UnmarshalFixedText, unmarshal_fixed. rewrite checkText_bytes by done.
  destruct (hex_digits_of_bytes b Hb) as [Hl Hc]. rewrite no_bad_nibble, hex_Decode_Encode by done.
  rewrite Hl. replace (2 * length b / 2)%nat with (length b)
    by (rewrite Nat.mul_comm; symmetry; by apply Nat.div_mul).
  destruct (Nat.eqb_spec (length b) (length out)) as [E|E]; cbn [negb].
  - by rewrite E, drop_all, app_nil_r.
  - do 3 f_equal; lia.
Qed.

End Bytes.

(** C36: the numbers that are accepted.  The decoders of 64-bit numbers, by
    [strconv] and by hand, and of big integers, word by word, accept exactly the
    prefix with digits without zeros in front, in range, and give the number of the
    digits; the forms for text differ only on the empty input. *)
Theorem numbers_accepted input v old :
  (DecodeUint64 input = (v, None) <-> canonical input v /\ v < 2 ^ 64) /\
  (DecodeBig input = Ok v <-> canonical input v /\ v < 2 ^ 256) /\
  (input <> [] ->
     (Uint64_UnmarshalText input old = (None, v) <-> canonical input v /\ v < 2 ^ 64) /\
     (Uint_UnmarshalText input old = (None, v) <-> canonical input v /\ v < 2 ^ 64) /\
     (Big_UnmarshalText input old = (None, v) <-> canonical input v /\ v < 2 ^ 256)).
Proof.
  split; [apply decode_uint64|]. split; [apply decode_bigint|]. intros Hne.
  split; [by apply text_uint64|]. split; [|by apply text_bigint].
  rewrite <- (text_uint64 input 0 v Hne). unfold Uint_UnmarshalText.
  destruct (Uint64_UnmarshalText input 0) as [[[[]| |]|] u]; split; by intros [= <-].
Qed.

(** What is printed is read back: byte strings, 64-bit numbers and big integers
    below 2^256, as plain text and as the text of JSON strings; and a byte string
    of the wrong length is refused, without a change, where the length is fixed. *)
Theorem hex_round_trip b i z old out typ (Hb : bytes_ok b) (Hi : 0 <= i < 2 ^ 64)
    (Hz : 0 <= z < 2 ^ 256) :
  let quoted t := [34] ++ t ++ [34] in
  Decode (Encode b) = (b, None) /\
  DecodeUint64 (EncodeUint64 i) = (i, None) /\
  DecodeBig (EncodeBig z) = Ok z /\
  UnmarshalJSON Bytes_UnmarshalText typ (quoted (Bytes_MarshalText b)) out = (None, b) /\
  UnmarshalJSON Uint64_UnmarshalText typ (quoted (Uint64_MarshalText i)) old = (None, i) /\
  UnmarshalJSON Big_UnmarshalText typ (quoted (Big_MarshalText z)) old = (None, z) /\
  UnmarshalFixedJSON typ (quoted (Bytes_MarshalText b)) out =
    if (length b =? length out)%nat then (None, b)
    else (Some (LengthErr (2 * zlen b) (2 * zlen out) typ), out).
Proof.
  intros quoted. pose proof (printed_canonical i ltac:(lia)) as Hci.
  pose proof (EncodeBig_canonical z ltac:(lia)) as Hcz.
  split.
  { unfold Decode, Encode. change (has0xPrefix (prefix0x ++ hex_EncodeToString b)) with true.
    change (drop 2 (prefix0x ++ hex_EncodeToString b)) with (hex_EncodeToString b).
    cbn [prefix0x app negb]. by rewrite hex_Decode_Encode. }
  split; [by apply decode_uint64; split; [|lia]|]. split; [by apply decode_bigint; split; [|lia]|].
  split; [by apply unquote_ok, Bytes_text|].
  split; [apply unquote_ok, text_uint64; [done|split; [done|lia]]|].
  split; [apply unquote_ok, text_bigint; [|split; [done|lia]]|].
  { destruct Hcz as (x & c & raw & E & _). unfold Big_MarshalText. by rewrite E. }
  unfold UnmarshalFixedJSON, quoted. rewrite UnmarshalJSON_quoted, fixed_text by done.
  by destruct (_ =? _)%nat.
Qed.

Lemma hex_round_trip_witness :
  DecodeBig (EncodeBig (2 ^ 256 - 1)) = Ok (2 ^ 256 - 1) /\
  UnmarshalFixedJSON "common.Hash" ([34] ++ Bytes_MarshalText [1; 255] ++ [34]) [7] =
    (Some (LengthErr 4 2 "common.Hash"), [7]).
Proof.
  destruct (hex_round_trip [1; 255] 0 (2 ^ 256 - 1) 0 [7] "common.Hash"
    ltac:(solve_bytes) ltac:(lia) ltac:(lia)) as (_ & _ & H1 & _ & _ & _ & H2).
  split; [exact H1|exact H2].
Defined.

(** ** Hashes and addresses *)

Section Addresses.

(** The digits that [hex.EncodeToString] prints. *)
Definition lower (c : Z) : Prop := 48 <= c <= 57 \/ 97 <= c <= 102.

Lemma hexdigit_lower d : 0 <= d < 16 -> lower (hexdigit d).
Proof. unfold lower, hexdigit. case_match eqn:E; [apply Z.ltb_lt in E|apply Z.ltb_ge in E]; lia. Qed.

Lemma digits_lower b : bytes_ok b -> Forall lower (hex_EncodeToString b).
Proof.
  unfold hex_EncodeToString. induction 1 as [|x b Hx Hb IH]; cbn [flat_map app]; [done|].
  unfold byte_ok in Hx. constructor; [|constructor; [|done]]; apply hexdigit_lower.
  - rewrite Z.shiftr_div_pow2 by lia.
    split; [apply Z.div_pos; lia|apply Z.div_lt_upper_bound; lia].
  - change 15 with (Z.ones 4). rewrite Z.land_ones by lia. apply Z.mod_pos_bound. lia.
Qed.

(** A capital letter stands for the same digit. *)
Lemma upper_digit c : lower c -> 57 < c -> fromHexChar (c - 32) = fromHexChar c.
Proof.
  intros [Hc|Hc] Hlt; [lia|]. assert (c = 97 \/ c = 98 \/ c = 99 \/ c = 100 \/ c = 101 \/ c = 102) as Hd
    by lia.
  by destruct Hd as [-> |[-> |[-> |[-> |[-> | ->]]]]].
Qed.

Lemma checksum_digits l h i :
  Forall lower l -> fromHexChar <$> checksum i l h = fromHexChar <$> l.
Proof.
  intros Hl. revert i. induction Hl as [|c l Hc Hl IH]; intros i; cbn [checksum]; [done|].
  cbv zeta. rewrite !fmap_cons, IH. f_equal. destruct (Z.ltb_spec 57 c); cbn [andb]; [|done].
  destruct (7 <? _); [by apply upper_digit|done].
Qed.

(** Decoding sees the digits only, as long as there is no error. *)
Lemma hex_Decode_digits l l' b :
  fromHexChar <$> l' = fromHexChar <$> l -> hex_Decode l = (b, None) -> hex_Decode l' = (b, None).
Proof.
  revert l' b. induction l as [l IH] using (induction_ltof1 _ (@length Z)). intros l' b E.
  destruct l as [|p [|q l]], l' as [|p' [|q' l']]; try discriminate E.
  - done.
  - cbn [hex_Decode]. by destruct (fromHexChar p).
  - cbn [fmap list_fmap] in E. injection E as Ep Eq E. cbn [hex_Decode]. rewrite Ep, Eq.
    destruct (fromHexChar p), (fromHexChar q); try done.
    destruct (hex_Decode l) as [t err] eqn:El. intros [= <- ->].
    rewrite (IH l ltac:(unfold ltof; cbn; lia) l' t E El). done.
Qed.

Lemma hex_characters l : forallb isHexCharacter l = forallb (fun o => bool_decide (is_Some o)) (fromHexChar <$> l).
Proof.
  induction l as [|c l IH]; [done|]. cbn [forallb fmap list_fmap]. by rewrite isHexCharacter_char, IH.
Qed.

Lemma SetBytes_exact n b : length b = n -> SetBytes n (replicate n 0) b = b.
Proof. intros <-. unfold SetBytes. by rewrite Nat.ltb_irrefl, Nat.sub_diag. Qed.

Lemma FromHex_digits b l :
  fromHexChar <$> l = fromHexChar <$> hex_EncodeToString b -> bytes_ok b -> FromHex (prefix0x ++ l) = b.
Proof.
  intros E Hb. unfold FromHex, Hex2Bytes. change (has0xPrefix (prefix0x ++ l)) with true.
  change (drop 2 (prefix0x ++ l)) with l. cbv zeta iota.
  assert (Hl : length l = (2 * length b)%nat).
  { rewrite <- (proj1 (hex_digits_of_bytes b Hb)), <- (length_fmap fromHexChar l), E. apply length_fmap. }
  rewrite Hl, Nat.odd_mul. cbn [andb Nat.odd Nat.even negb].
  by rewrite (hex_Decode_digits (hex_EncodeToString b) l b E (hex_Decode_Encode b Hb)).
Qed.

End Addresses.

(** The text of an address is the prefix and its digits, of which the letter at
    position i is a capital exactly when the i-th half byte of the Keccak-256 of the
    lower-case digits is above 7; it is a well-formed address and is read back, as
    is the text of a hash.  Neither the hash nor the loop panics. *)
Theorem Address_Hex_spec a h (Ha : length a = AddressLength) (Hb : bytes_ok a)
    (Hh : length h = HashLength) (Hk : bytes_ok h) :
  let digits := hex_EncodeToString a in
  let t := prefix0x ++ checksum 0 digits (sponge 136 1 32 digits) in
  Address_Hex a = Some t /\ IsHexAddress t = true /\ HexToAddress t = a /\
  HexToHash (Hash_Hex h) = h.
Proof.
  intros digits t. pose proof (checksum_digits digits (sponge 136 1 32 digits) 0 (digits_lower a Hb)) as E.
  pose proof (hex_digits_of_bytes a Hb) as [Hl Hc].
  split; [|split; [|split]].
  - unfold Address_Hex. fold digits.
    destruct (Write_absorbing NewKeccak256 [] digits) as (d & -> & Hd & R & D & O).
    { apply absorbing_new. split; [unfold maxRate; lia|reflexivity]. }
    cbn [mbind option_bind]. rewrite <- (absorbing_init _ _ Hd) in Hd.
    by rewrite (Sum_absorbing _ _ Hd), R, D, O.
  - unfold IsHexAddress, IsHex. change (HasHexPrefix t) with true. unfold t.
    set (l := checksum _ _ _) in *. change (drop 2 (prefix0x ++ l)) with l. cbv zeta iota.
    assert (length l = (2 * AddressLength)%nat) as ->.
    { rewrite <- (length_fmap fromHexChar l), E, length_fmap. unfold digits. by rewrite Hl, Ha. }
    rewrite hex_characters, E, <- hex_characters. unfold digits. by rewrite Hc.
  - unfold HexToAddress, t. rewrite (FromHex_digits a) by done. by apply SetBytes_exact.
  - unfold HexToHash, Hash_Hex, Encode. rewrite (FromHex_digits h) by done. by apply SetBytes_exact.
Qed.

Lemma Address_Hex_spec_witness :
  HexToHash (Hash_Hex (replicate 32 0xab)) = replicate 32 0xab /\
  IsHexAddress (prefix0x ++ checksum 0 (hex_EncodeToString (replicate 20 0xcd))
    (sponge 136 1 32 (hex_EncodeToString (replicate 20 0xcd)))) = true.
Proof.
  destruct (Address_Hex_spec (replicate 20 0xcd) (replicate 32 0xab) eq_refl
    ltac:(solve_bytes) eq_refl ltac:(solve_bytes)) as (_ & H1 & _ & H2).
  split; [exact H2|exact H1].
Defined.
