(* ===== verification/Crypto.v ===== *)
(** * Keys, addresses and hashes: [src/crypto/crypto.go]

    The package stands on code of other projects: the hash functions, the encoding and the byte helpers of
    go-ethereum, and an implementation of the curve secp256k1.  They are the classes [Eth] and [Secp256k1]; what
    is relied on are the classes [EthLaws] and [CurveLaws], with their documented
    behaviour.  [crypto/elliptic], [crypto/ecdsa], [encoding/hex] and the files are of the standard library and are
    modelled.  [Eth] is shown to be satisfied by the sponge, the encoder and the integers of this program. *)

From S2P Require Import Prelude RlpTypes RlpEncode RlpRaw Sponge Types Hexutil.
Local Open Scope Z_scope.

(** ** Code of other packages *)

(** [elliptic.Curve]; curves are compared by identity, [c_id].  A coordinate may be nil. *)
Record Curve := MkCurve {
  c_id : nat; c_BitSize : Z; c_P : Z; c_N : Z; c_IsOnCurve : Z -> Z -> bool;
  c_ScalarBaseMult : bytes -> option Z * option Z }.

Class Secp256k1 := S256 : Curve.

Class Eth := {
  hasher : Type; NewKeccak256 : hasher; NewKeccak512 : hasher;
  hash_Write : hasher -> bytes -> hasher; hash_Sum : hasher -> bytes -> bytes;
  eth_EncodeToBytes : gtype -> gval -> result rlp_error bytes;
  BytesToAddress : bytes -> bytes;
  PaddedBigBytes : Z -> nat -> bytes }.

(** ** Keys *)

Record PublicKey := MkPub { pk_Curve : Curve; pk_X : option Z; pk_Y : option Z }.
Record PrivateKey := MkPriv { PublicKey_ : PublicKey; priv_D : Z }.

Inductive key_error :=
| InvalidLength | GreaterN | NotPositive | InvalidKey | InvalidHexString | HexError (e : std_error)
| FileError | ReadEOF | ReadUnexpectedEOF | RandError.

Definition secp256k1N : Z := 0xfffffffffffffffffffffffffffffffebaaedce6af48a03bbfd25e8cd0364141.
Definition secp256k1halfN : Z := secp256k1N / 2.

(** ** The standard library *)

(** [copy(b[off:], src)]; [None] is the panic of the slice expression. *)
Definition copy_at (b : bytes) (off : Z) (src : bytes) : option bytes :=
  if (off <? 0) || (zlen b <? off) then None
  else
    let o := Z.to_nat off in
    let n := Nat.min (length src) (length b - o) in
    Some (take o b ++ take n src ++ drop (o + n) b).

(** [s[n:]]. *)
Definition slice_from (n : nat) (s : bytes) : option bytes := if (n <=? length s)%nat then Some (drop n s) else None.

(** [big.Int.Bytes] of the absolute value. *)
Definition int_Bytes (z : Z) : bytes := be_min (Z.abs z).

Definition elliptic_Marshal (c : Curve) (x y : Z) : option bytes :=
  let byteLen := Z.to_nat ((c_BitSize c + 7) / 8) in
  let ret := 4 :: replicate (2 * byteLen) 0 in
  ret ← copy_at ret (1 + Z.of_nat byteLen - zlen (int_Bytes x)) (int_Bytes x);
  copy_at ret (1 + 2 * Z.of_nat byteLen - zlen (int_Bytes y)) (int_Bytes y).

Definition elliptic_Unmarshal (c : Curve) (data : bytes) : option Z * option Z :=
  let byteLen := Z.to_nat ((c_BitSize c + 7) / 8) in
  if negb (length data =? 1 + 2 * byteLen)%nat then (None, None)
  else if negb (nth 0 data 0 =? 4) then (None, None)
  else
    let x := be_val (take byteLen (drop 1 data)) in
    let y := be_val (drop (1 + byteLen) data) in
    if (c_P c <=? x) || (c_P c <=? y) then (None, None)
    else if negb (c_IsOnCurve c x y) then (None, None)
    else (Some x, Some y).

(** [ecdsa.GenerateKey], with the bytes that the source of randomness has. *)
Definition ecdsa_GenerateKey (c : Curve) (rand : bytes) : result key_error PrivateKey :=
  let n := Z.to_nat (c_BitSize c / 8 + 8) in
  if (length rand <? n)%nat then Err RandError
  else
    let k := be_val (take n rand) mod (c_N c - 1) + 1 in
    let (x, y) := c_ScalarBaseMult c (int_Bytes k) in
    Ok (MkPriv (MkPub c x y) k).

(** Files: [io.ReadFull] of a buffer of [n] bytes; [ioutil.WriteFile] with what may happen. *)
Definition ReadFull (n : nat) (content : bytes) : result key_error bytes :=
  if (n <=? length content)%nat then Ok (take n content)
  else match content with [] => Err ReadEOF | _ => Err ReadUnexpectedEOF end.

Inductive write_outcome := Written | CannotOpen | CutShort (n : nat).

Definition WriteFile (o : write_outcome) (file : string) (data : bytes) (fs : gmap string bytes)
    : option key_error * gmap string bytes :=
  match o with
  | Written => (None, <[file := data]> fs)
  | CannotOpen => (Some FileError, fs)
  | CutShort n => (Some FileError, <[file := take n data]> fs)
  end.

(** ** The package *)

Section Crypto.
Context `{Eth, Secp256k1}.

Definition Keccak256 (data : list bytes) : bytes := hash_Sum (fold_left hash_Write data NewKeccak256) [].

(** [Sum] appends to a slice of length 0 into the array that is returned: in place when
    the array is large enough, and elsewhere when it is not. *)
Definition Keccak256Hash (data : list bytes) : Hash :=
  let h := replicate HashLength 0 in
  let sum := hash_Sum (fold_left hash_Write data NewKeccak256) [] in
  if (length sum <=? HashLength)%nat then sum ++ drop (length sum) h else h.

Definition Keccak512 (data : list bytes) : bytes := hash_Sum (fold_left hash_Write data NewKeccak512) [].

(** An address and a number as a slice of interfaces; an error of the encoder leaves no bytes. *)
Definition address_nonce (b : Address) (nonce : Z) : gval :=
  VList [VIface (Some (TByteArray AddressLength, VByteArray b)); VIface (Some (TUint 64, VUint nonce))].

Definition CreateAddress (b : Address) (nonce : Z) : option Address :=
  let data := match eth_EncodeToBytes (TSlice (TIface 0)) (address_nonce b nonce) with Ok e => e | Err _ => [] end in
  BytesToAddress <$> slice_from 12 (Keccak256 [data]).

Definition toECDSA (d : bytes) (strict : bool) : result key_error PrivateKey :=
  if strict && negb (8 * zlen d =? c_BitSize S256) then Err InvalidLength
  else
    let D := be_val d in
    if secp256k1N <=? D then Err GreaterN
    else if D <=? 0 then Err NotPositive
    else
      let (x, y) := c_ScalarBaseMult S256 d in
      match x with
      | None => Err InvalidKey
      | Some _ => Ok (MkPriv (MkPub S256 x y) D)
      end.

Definition ToECDSA (d : bytes) : result key_error PrivateKey := toECDSA d true.

Definition ToECDSAUnsafe (d : bytes) : option PrivateKey :=
  match toECDSA d false with Ok priv => Some priv | Err _ => None end.

Definition FromECDSA (priv : option PrivateKey) : bytes :=
  match priv with
  | None => []
  | Some priv => PaddedBigBytes (priv_D priv) (Z.to_nat (c_BitSize (pk_Curve (PublicKey_ priv)) / 8))
  end.

Definition ToECDSAPub (pub : bytes) : option PublicKey :=
  match pub with
  | [] => None
  | _ => let (x, y) := elliptic_Unmarshal S256 pub in Some (MkPub S256 x y)
  end.

(** [Some []] is nil; [None] is a panic. *)
Definition FromECDSAPub (pub : option PublicKey) : option bytes :=
  match pub with
  | Some (MkPub _ (Some x) (Some y)) => elliptic_Marshal S256 x y
  | _ => Some []
  end.

Definition HexToECDSA (hexkey : bytes) : result key_error PrivateKey :=
  match hex_Decode hexkey with
  | (_, Some _) => Err InvalidHexString
  | (b, None) => ToECDSA b
  end.

Definition LoadECDSA (fs : gmap string bytes) (file : string) : result key_error PrivateKey :=
  match fs !! file with
  | None => Err FileError
  | Some content =>
      buf ← ReadFull 64 content;
      match hex_Decode buf with
      | (_, Some e) => Err (HexError e)
      | (key, None) => ToECDSA key
      end
  end.

Definition SaveECDSA (o : write_outcome) (file : string) (key : option PrivateKey) (fs : gmap string bytes)
    : option key_error * gmap string bytes :=
  WriteFile o file (hex_EncodeToString (FromECDSA key)) fs.

Definition GenerateKey (rand : bytes) : result key_error PrivateKey := ecdsa_GenerateKey S256 rand.

Definition ValidateSignatureValues (v r s : Z) (homestead : bool) : bool :=
  if (r <? 1) || (s <? 1) then false
  else if homestead && (secp256k1halfN <? s) then false
  else (r <? secp256k1N) && (s <? secp256k1N) && ((v =? 0) || (v =? 1)).

Definition PubkeyToAddress (p : PublicKey) : option Address :=
  pubBytes ← FromECDSAPub (Some p);
  rest ← slice_from 1 pubBytes;
  BytesToAddress <$> slice_from 12 (Keccak256 [rest]).

Fixpoint zeroBytes (bytes : bytes) : Prelude.bytes :=
  match bytes with [] => [] | _ :: l => 0 :: zeroBytes l end.

End Crypto.

(** ** What the other packages promise *)

(** A hash object hashes the concatenation of what was written; an encoder follows the rules; an address is made of 20
    bytes as they are; a number that fits is padded to the size. *)
Class EthLaws `{Eth} := {
  keccak256 : bytes -> bytes;
  keccak512 : bytes -> bytes;
  law_sum256 data input : hash_Sum (fold_left hash_Write data NewKeccak256) input = input ++ keccak256 (concat data);
  law_sum512 data input : hash_Sum (fold_left hash_Write data NewKeccak512) input = input ++ keccak512 (concat data);
  law_size256 m : length (keccak256 m) = 32%nat;
  law_rlp t v e : serializable t = true -> val_ok v -> rlp_enc t no_tags v e -> zlen e < 2 ^ 64 ->
    eth_EncodeToBytes t v = Ok e;
  law_address b : length b = AddressLength -> BytesToAddress b = b;
  law_padded z n : 0 <= z < 256 ^ Z.of_nat n -> PaddedBigBytes z n = be_bytes n z }.

(** The curve has 256 bits and the order of the package; the product is determined by the number, and is a
    point of the curve unless the number is a multiple of the order. *)
Class CurveLaws `{Secp256k1} := {
  law_bits : c_BitSize S256 = 256;
  law_order : c_N S256 = secp256k1N;
  law_field : 0 < c_P S256 <= 2 ^ 256;
  law_number d1 d2 : be_val d1 = be_val d2 -> c_ScalarBaseMult S256 d1 = c_ScalarBaseMult S256 d2;
  law_point d : 0 < be_val d < secp256k1N -> exists x y, c_ScalarBaseMult S256 d = (Some x, Some y) /\
    0 <= x < c_P S256 /\ 0 <= y < c_P S256 /\ c_IsOnCurve S256 x y = true }.

(** ** Bytes *)

Lemma be_val_zeros n l : be_val (replicate n 0 ++ l) = be_val l.
Proof. induction n as [|n IH]; cbn; [done|]. rewrite IH. lia. Qed.

Lemma bytes_ok_zeros n : bytes_ok (replicate n 0).
Proof. apply Forall_replicate. unfold byte_ok. lia. Qed.

Lemma padded_min n z : 0 <= z < 256 ^ Z.of_nat n -> replicate (n - nbytes z) 0 ++ be_min z = be_bytes n z.
Proof.
  intros Hz. pose proof (nbytes_le z n Hz) as Hn. apply be_val_inj.
  - apply bytes_ok_app. split; [apply bytes_ok_zeros|apply be_min_ok].
  - apply be_bytes_ok.
  - rewrite length_app, length_replicate, length_be_min, length_be_bytes. lia.
  - rewrite be_val_zeros, be_val_be_min, be_val_be_bytes, Z.mod_small by lia. done.
Qed.

Lemma copy_at_middle pre mid post src o : o = zlen pre -> length src = length mid ->
  copy_at (pre ++ mid ++ post) o src = Some (pre ++ src ++ post).
Proof.
  intros -> Hl. unfold copy_at. rewrite !length_app. destruct (Z.ltb_spec (zlen pre) 0); [lia|].
  destruct (Z.ltb_spec (Z.of_nat (length pre + (length mid + length post))) (zlen pre)); [lia|]. cbn [orb].
  rewrite Nat2Z.id, Nat.min_l, take_app_length, (take_ge src), drop_app_add, Hl, drop_app_length by lia. done.
Qed.

(** A number copied to the end of a field of zeros. *)
Lemma copy_number pre n post z : 0 <= z < 256 ^ Z.of_nat n ->
  copy_at (pre ++ replicate n 0 ++ post) (zlen pre + Z.of_nat n - zlen (int_Bytes z)) (int_Bytes z) =
  Some (pre ++ be_bytes n z ++ post).
Proof.
  intros Hz. pose proof (nbytes_le z n Hz) as Hn. unfold int_Bytes. rewrite Z.abs_eq, length_be_min by lia.
  rewrite <- (padded_min n z Hz).
  replace (replicate n 0) with (replicate (n - nbytes z) 0 ++ replicate (nbytes z) 0)
    by (rewrite <- replicate_add; f_equal; lia).
  rewrite <- !app_assoc, (app_assoc pre), (app_assoc pre). apply copy_at_middle.
  - rewrite length_app, length_replicate. lia.
  - by rewrite length_be_min, length_replicate.
Qed.

Lemma length_hex b : bytes_ok b -> length (hex_EncodeToString b) = (2 * length b)%nat.
Proof. intros Hb. by apply hex_digits_of_bytes. Qed.

Lemma zeroBytes_spec b : zeroBytes b = replicate (length b) 0.
Proof. induction b as [|x b IH]; cbn; [done|]. by f_equal. Qed.

(** ** Private keys *)

Section Keys.
Context `{EthLaws, CurveLaws}.

(** The key of a number. *)
Definition key_of (D : Z) : PrivateKey :=
  let (x, y) := c_ScalarBaseMult S256 (be_bytes 32 D) in MkPriv (MkPub S256 x y) D.

Definition in_range (D : Z) : Prop := 1 <= D < secp256k1N.

Lemma N_fits : secp256k1N < 256 ^ Z.of_nat 32.
Proof. by vm_compute. Qed.

Lemma in_range_fits D : in_range D -> 0 <= D < 256 ^ Z.of_nat 32.
Proof. pose proof N_fits. unfold in_range. lia. Qed.

Lemma key_number d : in_range (be_val d) -> 
  c_ScalarBaseMult S256 d = c_ScalarBaseMult S256 (be_bytes 32 (be_val d)).
Proof.
  intros Hd. apply law_number. rewrite be_val_be_bytes, Z.mod_small; [done|]. by apply in_range_fits.
Qed.

Lemma toECDSA_spec d strict k :
  toECDSA d strict = Ok k <->
  (strict = true -> length d = 32%nat) /\ in_range (be_val d) /\ k = key_of (be_val d).
Proof.
  unfold toECDSA, in_range. rewrite law_bits.
  destruct (strict && negb (8 * zlen d =? 256))%bool eqn:Es.
  { split; [done|]. intros [Hs _]. apply andb_true_iff in Es as [-> E]. specialize (Hs eq_refl). rewrite Hs in E. done. }
  assert (Hs : strict = true -> length d = 32%nat).
  { intros ->. cbn [andb] in Es. apply negb_false_iff, Z.eqb_eq in Es. lia. }
  destruct (Z.leb_spec secp256k1N (be_val d)); [split; [done|lia]|].
  destruct (Z.leb_spec (be_val d) 0); [split; [done|lia]|].
  assert (Hd : in_range (be_val d)) by (unfold in_range; lia). unfold key_of. rewrite <- (key_number d Hd).
  destruct (law_point d) as (x & y & E & _); [lia|]. rewrite E.
  split; [intros [= <-]; split; [done|]; split; [lia|done]|]. by intros (_ & _ & ->).
Qed.

Lemma key_of_Curve D : pk_Curve (PublicKey_ (key_of D)) = S256.
Proof. unfold key_of. by destruct (c_ScalarBaseMult _ _). Qed.
Lemma key_of_D D : priv_D (key_of D) = D.
Proof. unfold key_of. by destruct (c_ScalarBaseMult _ _). Qed.

Lemma FromECDSA_key D : in_range D -> FromECDSA (Some (key_of D)) = be_bytes 32 D.
Proof.
  intros HD. unfold FromECDSA. rewrite key_of_Curve, key_of_D, law_bits.
  apply law_padded. by apply in_range_fits.
Qed.

(** C34: private keys.  [ToECDSA] accepts exactly the 32 bytes of the numbers from 1 to the
    order less 1, and gives the key of that number; [FromECDSA] gives the bytes back.  [ToECDSAUnsafe] accepts
    the same numbers in any length, and [FromECDSA] of its key has 32 bytes again.  [HexToECDSA]
    reads the hexadecimal text of bytes as [ToECDSA] does the bytes. *)
Theorem private_keys d (Hd : bytes_ok d) :
  (forall k, ToECDSA d = Ok k <-> length d = 32%nat /\ in_range (be_val d) /\ k = key_of (be_val d)) /\
  (forall k, ToECDSA d = Ok k -> FromECDSA (Some k) = d) /\
  (forall k, ToECDSAUnsafe d = Some k <-> in_range (be_val d) /\ k = key_of (be_val d)) /\
  (forall k, ToECDSAUnsafe d = Some k -> FromECDSA (Some k) = be_bytes 32 (be_val d)) /\
  (forall k, HexToECDSA (hex_EncodeToString d) = Ok k <-> ToECDSA d = Ok k).
Proof.
  assert (Hsafe : forall k, ToECDSA d = Ok k <-> length d = 32%nat /\ in_range (be_val d) /\ k = key_of (be_val d)).
  { intros k. unfold ToECDSA. rewrite toECDSA_spec. by split; intros [Hl Hk]; (split; [|done]); [apply Hl|]. }
  assert (Hunsafe : forall k, ToECDSAUnsafe d = Some k <-> in_range (be_val d) /\ k = key_of (be_val d)).
  { intros k. assert (Hk : toECDSA d false = Ok k <-> in_range (be_val d) /\ k = key_of (be_val d)).
    { rewrite toECDSA_spec. split; [by intros [_ Hk]|by split]. }
    rewrite <- Hk. unfold ToECDSAUnsafe. destruct (toECDSA d false); split; congruence. }
  split; [done|]. split; [|split; [done|split]].
  - intros k Hk. apply Hsafe in Hk as (Hl & Hr & ->). rewrite FromECDSA_key, <- Hl by done. by apply be_bytes_be_val.
  - intros k Hk. apply Hunsafe in Hk as (Hr & ->). by apply FromECDSA_key.
  - intros k. unfold HexToECDSA. by rewrite hex_Decode_Encode.
Qed.

(** ** Key files *)

Lemma ToECDSA_be D : in_range D -> ToECDSA (be_bytes 32 D) = Ok (key_of D).
Proof.
  intros HD. assert (Hv : be_val (be_bytes 32 D) = D).
  { rewrite be_val_be_bytes, Z.mod_small; [done|]. by apply in_range_fits. }
  unfold ToECDSA. rewrite toECDSA_spec. split; [intros _; apply length_be_bytes|]. by rewrite Hv.
Qed.

Lemma GenerateKey_key rand : (40 <= length rand)%nat ->
  exists D, in_range D /\ GenerateKey rand = Ok (key_of D).
Proof.
  intros Hl. unfold GenerateKey, ecdsa_GenerateKey. rewrite law_bits, law_order. cbn [Z.div Z.add].
  change (Z.to_nat (256 / 8 + 8)) with 40%nat. destruct (Nat.ltb_spec (length rand) 40); [lia|].
  set (k := be_val (take 40 rand) mod (secp256k1N - 1) + 1). exists k.
  assert (Hk : in_range k).
  { unfold in_range, k. pose proof (Z.mod_pos_bound (be_val (take 40 rand)) (secp256k1N - 1) eq_refl). lia. }
  split; [done|]. unfold key_of. unfold int_Bytes. rewrite Z.abs_eq by (unfold in_range in Hk; lia).
  assert (E : be_val (be_min k) = k) by (apply be_val_be_min; unfold in_range in Hk; lia).
  rewrite (key_number (be_min k)) by (by rewrite E). rewrite E. by destruct (c_ScalarBaseMult _ _).
Qed.

Lemma Load_content fs file D junk : in_range D ->
  fs !! file = Some (hex_EncodeToString (be_bytes 32 D) ++ junk) -> LoadECDSA fs file = Ok (key_of D).
Proof.
  intros HD Hf. unfold LoadECDSA. rewrite Hf. unfold ReadFull.
  assert (Hl : length (hex_EncodeToString (be_bytes 32 D)) = 64%nat).
  { rewrite length_hex by apply be_bytes_ok. by rewrite length_be_bytes. }
  rewrite length_app. destruct (Nat.leb_spec 64 (length (hex_EncodeToString (be_bytes 32 D)) + length junk)); [|lia].
  cbn [mbind result_bind]. rewrite take_app_length' by done. rewrite hex_Decode_Encode by apply be_bytes_ok.
  by apply ToECDSA_be.
Qed.

Lemma Load_short fs file content : fs !! file = Some content -> (length content < 64)%nat ->
  exists e, LoadECDSA fs file = Err e.
Proof.
  intros Hf Hl. unfold LoadECDSA. rewrite Hf. unfold ReadFull. destruct (Nat.leb_spec 64 (length content)); [lia|].
  destruct content; by eexists.
Qed.

(** Key files.  Every key that is generated can be saved, and is loaded again as it was, even when
    something was appended to the file.  When writing fails after some of the 64 characters, loading fails too: no
    other key is ever loaded.  Other files are not touched. *)
Theorem key_files rand file fs (Hr : (40 <= length rand)%nat) :
  exists k, GenerateKey rand = Ok k /\
  (forall fs', SaveECDSA Written file (Some k) fs = (None, fs') -> LoadECDSA fs' file = Ok k) /\
  (forall fs' content junk, SaveECDSA Written file (Some k) fs = (None, fs') -> fs' !! file = Some content ->
     LoadECDSA (<[file := content ++ junk]> fs') file = Ok k) /\
  (forall n fs' err, (n < 64)%nat -> SaveECDSA (CutShort n) file (Some k) fs = (Some err, fs') ->
     exists e, LoadECDSA fs' file = Err e) /\
  (forall o res fs' file', SaveECDSA o file (Some k) fs = (res, fs') -> file' <> file -> fs' !! file' = fs !! file').
Proof.
  destruct (GenerateKey_key rand Hr) as (D & HD & Hk). exists (key_of D). split; [exact Hk|].
  unfold SaveECDSA. rewrite (FromECDSA_key D HD). unfold WriteFile. split; [|split; [|split]].
  - intros fs' [= <-]. apply (Load_content _ _ D []); [exact HD|]. rewrite lookup_insert_eq, app_nil_r. reflexivity.
  - intros fs' content junk [= <-] Hc. rewrite lookup_insert_eq in Hc. injection Hc as <-.
    apply (Load_content _ _ D junk); [exact HD|]. rewrite lookup_insert_eq. reflexivity.
  - intros n fs' err Hn [= _ <-]. eapply Load_short; [apply lookup_insert_eq|]. rewrite length_take.
    eapply Nat.le_lt_trans; [apply Nat.le_min_l|exact Hn].
  - intros o res fs' file' E Hne. destruct o; injection E as _ <-; [|reflexivity|]; rewrite lookup_insert_ne; congruence.
Qed.

(** ** Public keys and addresses *)

Definition on_curve (x y : Z) : Prop := 0 <= x < c_P S256 /\ 0 <= y < c_P S256 /\ c_IsOnCurve S256 x y = true.
Definition point_bytes (x y : Z) : bytes := be_bytes 32 x ++ be_bytes 32 y.

Lemma coordinate_fits x : 0 <= x < c_P S256 -> 0 <= x < 256 ^ Z.of_nat 32.
Proof. pose proof law_field as Hp. change (256 ^ Z.of_nat 32) with (2 ^ 256). lia. Qed.

Lemma Marshal_point x y : on_curve x y -> elliptic_Marshal S256 x y = Some (4 :: point_bytes x y).
Proof.
  intros (Hx & Hy & _). apply coordinate_fits in Hx, Hy. unfold elliptic_Marshal. rewrite law_bits.
  change (Z.to_nat ((256 + 7) / 8)) with 32%nat. cbv zeta.
  pose proof (copy_number [4] 32 (replicate 32 0) x Hx) as E1.
  pose proof (copy_number ([4] ++ be_bytes 32 x) 32 [] y Hy) as E2.
  rewrite app_nil_r, length_app, length_be_bytes in E2.
  change (4 :: replicate (2 * 32) 0) with ([4] ++ replicate 32 0 ++ replicate 32 0).
  replace (1 + Z.of_nat 32) with (zlen [4] + Z.of_nat 32) by done. rewrite E1. cbn [mbind option_bind].
  rewrite <- app_assoc in E2. replace (1 + 2 * Z.of_nat 32) with (Z.of_nat (length [4] + 32) + Z.of_nat 32) by done.
  rewrite E2, app_nil_r, <- app_assoc. done.
Qed.

Lemma Unmarshal_spec pub x y : bytes_ok pub ->
  elliptic_Unmarshal S256 pub = (Some x, Some y) <-> on_curve x y /\ pub = 4 :: point_bytes x y.
Proof.
  intros Hb. unfold elliptic_Unmarshal, on_curve, point_bytes. rewrite law_bits.
  change (Z.to_nat ((256 + 7) / 8)) with 32%nat. split.
  - destruct (Nat.eqb_spec (length pub) (1 + 2 * 32)) as [Hl|]; [|done]. cbn [negb].
    destruct pub as [|b pub]; [done|]. cbn [nth drop Nat.add]. rewrite drop_0. apply bytes_ok_cons in Hb as [_ Hb].
    destruct (Z.eqb_spec b 4) as [->|]; [|done]. cbn [negb].
    pose proof (be_val_bound _ (bytes_ok_take 32 pub Hb)) as Bx. pose proof (be_val_bound _ (bytes_ok_drop 32 pub Hb)) as By.
    destruct (Z.leb_spec (c_P S256) (be_val (take 32 pub))); cbn [orb]; [intros [=]|].
    destruct (Z.leb_spec (c_P S256) (be_val (drop 32 pub))); [intros [=]|].
    destruct (c_IsOnCurve _ _ _) eqn:Eo; [|done]. cbn [negb]. intros [= <- <-]. split; [split_and!; lia || done|].
    f_equal. cbn in Hl.
    pose proof (be_bytes_be_val _ (bytes_ok_take 32 pub Hb)) as Ex. pose proof (be_bytes_be_val _ (bytes_ok_drop 32 pub Hb)) as Ey.
    rewrite length_take, Nat.min_l in Ex by lia. rewrite length_drop in Ey. replace (length pub - 32)%nat with 32%nat in Ey by lia.
    by rewrite Ex, Ey, take_drop.
  - intros ((Hx & Hy & Ho) & ->). cbn [length nth drop Nat.add]. rewrite drop_0, length_app, !length_be_bytes. cbn [Nat.eqb Nat.add Nat.mul negb].
    rewrite Z.eqb_refl. cbn [negb]. rewrite take_app_length', drop_app_length' by (by rewrite length_be_bytes).
    pose proof (coordinate_fits x Hx). pose proof (coordinate_fits y Hy).
    rewrite !be_val_be_bytes, !Z.mod_small by done.
    destruct (Z.leb_spec (c_P S256) x); [lia|]. destruct (Z.leb_spec (c_P S256) y); [lia|]. cbn [orb]. by rewrite Ho.
Qed.

Lemma Unmarshal_both pub ox oy : elliptic_Unmarshal S256 pub = (ox, oy) ->
  (ox = None /\ oy = None) \/ exists x y, ox = Some x /\ oy = Some y.
Proof. unfold elliptic_Unmarshal. repeat case_match; intros [= <- <-]; eauto. Qed.

(** The coordinates of a generated key. *)
Lemma GenerateKey_point rand priv : GenerateKey rand = Ok priv ->
  exists x y, on_curve x y /\ PublicKey_ priv = MkPub S256 (Some x) (Some y).
Proof.
  intros Hg. destruct (Nat.le_gt_cases 40 (length rand)) as [Hl|Hl].
  - destruct (GenerateKey_key rand Hl) as (D & HD & Hk). rewrite Hk in Hg. injection Hg as <-.
    destruct (law_point (be_bytes 32 D)) as (x & y & E & Hxy).
    { rewrite be_val_be_bytes, Z.mod_small by (by apply in_range_fits). unfold in_range in HD. lia. }
    exists x, y. split; [done|]. unfold key_of. by rewrite E.
  - unfold GenerateKey, ecdsa_GenerateKey in Hg. rewrite law_bits in Hg.
    change (Z.to_nat (256 / 8 + 8)) with 40%nat in Hg. destruct (Nat.ltb_spec (length rand) 40); [done|lia].
Qed.

Lemma Keccak256_hash data : Keccak256 data = keccak256 (concat data).
Proof. unfold Keccak256. by rewrite law_sum256. Qed.

Lemma hash_to_address m : BytesToAddress <$> slice_from 12 (keccak256 m) = Some (drop 12 (keccak256 m)).
Proof.
  unfold slice_from. rewrite law_size256. cbn [Nat.leb fmap option_fmap option_map]. f_equal. apply law_address.
  rewrite length_drop, law_size256. done.
Qed.

(** Public keys.  Bytes are read as a point exactly when they are the tag 4 and the coordinates of a point
    of the curve; such a key is written as the same bytes, and its address is the last 20 bytes of the hash of the
    coordinates.  All other bytes but none give a key without coordinates instead of an error: it is
    written as nothing, and asking for its address panics.  Keys that are generated have an address. *)
Theorem public_keys pub k (Hb : bytes_ok pub) (Hk : ToECDSAPub pub = Some k) :
  (forall x y, pub = 4 :: point_bytes x y -> on_curve x y ->
     k = MkPub S256 (Some x) (Some y) /\ FromECDSAPub (Some k) = Some pub /\
     PubkeyToAddress k = Some (drop 12 (keccak256 (point_bytes x y)))) /\
  ((forall x y, on_curve x y -> pub <> 4 :: point_bytes x y) ->
     k = MkPub S256 None None /\ FromECDSAPub (Some k) = Some [] /\ PubkeyToAddress k = None) /\
  (forall rand priv, GenerateKey rand = Ok priv -> is_Some (PubkeyToAddress (PublicKey_ priv))).
Proof.
  assert (Haddr : forall x y, on_curve x y ->
    PubkeyToAddress (MkPub S256 (Some x) (Some y)) = Some (drop 12 (keccak256 (point_bytes x y)))).
  { intros x y Hxy. unfold PubkeyToAddress, FromECDSAPub. rewrite (Marshal_point x y Hxy).
    cbn [mbind option_bind slice_from length Nat.leb drop]. rewrite Keccak256_hash. cbn [concat].
    rewrite app_nil_r. apply hash_to_address. }
  unfold ToECDSAPub in Hk. destruct (elliptic_Unmarshal S256 pub) as [ox oy] eqn:E.
  assert (Hk' : k = MkPub S256 ox oy) by (destruct pub; [done|congruence]). clear Hk. subst k. split; [|split].
  - intros x y Hp Hxy. assert (E' : elliptic_Unmarshal S256 pub = (Some x, Some y)) by (by apply Unmarshal_spec).
    rewrite E' in E. injection E as <- <-. split; [done|]. split; [|by apply Haddr].
    unfold FromECDSAPub. rewrite (Marshal_point x y Hxy). by rewrite Hp.
  - intros Hno. destruct (Unmarshal_both pub ox oy E) as [[-> ->]|(x & y & -> & ->)]; [done|].
    apply Unmarshal_spec in E as [Hxy Hp]; [|done]. by destruct (Hno x y Hxy).
  - intros rand priv Hg. destruct (GenerateKey_point rand priv Hg) as (x & y & Hxy & ->). rewrite Haddr by done. by eexists.
Qed.

(** ** Addresses of what an account creates *)

Definition create_preimage (b : Address) (nonce : Z) : bytes := rlp_list (rlp_string b ++ rlp_string (be_min nonce)).

Lemma create_enc b nonce : 0 <= nonce < 2 ^ 64 ->
  rlp_enc (TSlice (TIface 0)) no_tags (address_nonce b nonce) (create_preimage b nonce).
Proof.
  intros Hn. apply (E_slice (TIface 0) no_tags). rewrite <- (app_nil_r (rlp_string (be_min nonce))).
  repeat (apply Es_cons || apply Es_nil || (apply E_iface; [done|])); by constructor.
Qed.

Lemma rlp_string_bound b : (length (rlp_string b) <= length b + 9)%nat \/ 2 ^ 64 <= zlen b.
Proof.
  destruct (Z.lt_ge_cases (zlen b) (2 ^ 64)) as [Hl|Hl]; [left|by right].
  unfold rlp_string, rlp_header. pose proof (nbytes_le (zlen b) 8 ltac:(change (256 ^ Z.of_nat 8) with (2 ^ 64); lia)).
  destruct b as [|x [|y b]]; repeat case_match; rewrite ?length_app; cbn [length] in *; rewrite ?length_be_min; lia.
Qed.

Lemma create_small b nonce : length b = AddressLength -> 0 <= nonce < 2 ^ 64 ->
  zlen (create_preimage b nonce) < 2 ^ 64.
Proof.
  intros Hb Hn. unfold create_preimage, rlp_list. rewrite !length_app.
  pose proof (rlp_string_bound b) as L1. pose proof (rlp_string_bound (be_min nonce)) as L2.
  pose proof (nbytes_le nonce 8 ltac:(change (256 ^ Z.of_nat 8) with (2 ^ 64); lia)) as Ln.
  rewrite length_be_min in L2. unfold AddressLength in Hb. unfold rlp_header.
  destruct (Z.ltb_spec (Z.of_nat (length (rlp_string b) + length (rlp_string (be_min nonce)))) 56) as [_|Hge]; cbn [length].
  - lia.
  - rewrite length_be_min.
    pose proof (nbytes_le (Z.of_nat (length (rlp_string b) + length (rlp_string (be_min nonce)))) 8).
    change (256 ^ Z.of_nat 8) with (2 ^ 64) in *. lia.
Qed.

Lemma create_preimage_inj b1 n1 b2 n2 :
  length b1 = AddressLength -> bytes_ok b1 -> 0 <= n1 < 2 ^ 64 -> 0 <= n2 < 2 ^ 64 ->
  create_preimage b1 n1 = create_preimage b2 n2 -> b1 = b2 /\ n1 = n2.
Proof.
  intros Hl Ho Hn1 Hn2 E. pose proof (create_small b1 n1 Hl Hn1) as Hs. unfold create_preimage in E, Hs.
  set (p := rlp_string b1 ++ rlp_string (be_min n1)) in *.
  assert (Hp : zlen p < 2 ^ 64) by (pose proof (rlp_list_length p); lia).
  assert (Hz : zlen (be_min n1) < 2 ^ 64).
  { subst p. rewrite length_app in Hp. pose proof (rlp_string_length (be_min n1)). lia. }
  assert (Hpo : bytes_ok p).
  { apply bytes_ok_app. split; apply rlp_string_ok; [done| |apply be_min_ok|done].
    unfold AddressLength in Hl. lia. }
  destruct (rlp_list_inj p [] (rlp_string b2 ++ rlp_string (be_min n2)) []) as [Ep _]; rewrite ?app_nil_r; [|done..|].
  { by apply rlp_list_ok. }
  destruct (rlp_string_inj b1 (rlp_string (be_min n1)) b2 (rlp_string (be_min n2)) Hpo Hp Ep) as [-> Er].
  split; [done|].
  destruct (rlp_string_inj (be_min n1) [] (be_min n2) []) as [Hm _]; rewrite ?app_nil_r; [| |done|].
  - apply rlp_string_ok; [apply be_min_ok|done].
  - subst p. rewrite length_app in Hp. lia.
  - apply (f_equal be_val) in Hm. rewrite !be_val_be_min in Hm by lia. done.
Qed.

(** Addresses of what an account creates.  The address is the last 20 bytes of the hash of the encoded
    pair of the creator and its counter, and the pair can be read off what is hashed: two pairs with one address are a
    collision of the shortened hash.  [Keccak256] and [Keccak256Hash], which writes into the array that it
    returns, give the hash of all the data. *)
Theorem created_addresses b1 n1 b2 n2 data
    (Hb1 : length b1 = AddressLength /\ bytes_ok b1) (Hn1 : 0 <= n1 < 2 ^ 64)
    (Hb2 : length b2 = AddressLength /\ bytes_ok b2) (Hn2 : 0 <= n2 < 2 ^ 64) :
  CreateAddress b1 n1 = Some (drop 12 (keccak256 (create_preimage b1 n1))) /\
  (create_preimage b1 n1 = create_preimage b2 n2 <-> b1 = b2 /\ n1 = n2) /\
  Keccak256 data = keccak256 (concat data) /\ Keccak256Hash data = keccak256 (concat data) /\
  Keccak512 data = keccak512 (concat data).
Proof.
  destruct Hb1 as [Hl1 Ho1], Hb2 as [Hl2 Ho2]. split; [|split; [|split; [|split]]].
  - unfold CreateAddress. rewrite (law_rlp _ _ (create_preimage b1 n1)); [|done| | |].
    + rewrite Keccak256_hash. cbn [concat]. rewrite app_nil_r. apply hash_to_address.
    + unfold address_nonce. repeat constructor. done.
    + by apply create_enc.
    + by apply create_small.
  - split; [|by intros [-> ->]]. by apply create_preimage_inj.
  - apply Keccak256_hash.
  - unfold Keccak256Hash. rewrite law_sum256. cbn [app]. rewrite law_size256. cbn [Nat.leb HashLength].
    rewrite drop_ge by done. apply app_nil_r.
  - unfold Keccak512. by rewrite law_sum512.
Qed.

End Keys.

(** ** The classes are satisfied

    The hash functions, the encoder and the integers of this program are such a library. *)

Definition own_Write (h : state) (p : bytes) : state := match Sponge.Write h p with Some (h', _) => h' | None => h end.

Lemma own_Write_all d chunks h : write_all d chunks = Some h -> fold_left own_Write chunks d = h.
Proof.
  revert d. induction chunks as [|p ps IH]; intros d; cbn [write_all fold_left]; [congruence|].
  unfold own_Write at 2. destruct (Sponge.Write d p) as [[d' n]|]; [apply IH|discriminate].
Qed.

Lemma Sum_input d input : Sponge.Sum d input = app input <$> Sponge.Sum d [].
Proof.
  unfold Sponge.Sum. destruct (clone d) as [dup|]; [|reflexivity]. cbn [mbind option_bind fmap option_fmap option_map].
  destruct (Read dup (outputLen dup)) as [d' b]. reflexivity.
Qed.

Lemma own_Sum r n ds chunks input : rate_ok r ->
  default [] (Sponge.Sum (fold_left own_Write chunks (new_state r n ds)) input) =
  input ++ sponge r ds n (concat chunks).
Proof.
  intros Hr. destruct (write_all_absorbing (new_state r n ds) [] chunks (absorbing_new r n ds Hr))
    as (h & Eh & Ha & Hrate & Hds & Ho).
  rewrite (own_Write_all _ _ _ Eh), Sum_input, (Sum_absorbing h _ Ha), Hrate, Hds, Ho. reflexivity.
Qed.

Lemma length_sponge r ds n m : rate_ok r -> (n <= r)%nat -> length (sponge r ds n m) = n.
Proof.
  intros Hr Hn. unfold sponge. rewrite length_take. cbn [squeeze]. rewrite length_app, length_block; [|done|apply length_absorbed].
  lia.
Qed.

#[local] Instance own_eth : Eth := {|
  hasher := state; NewKeccak256 := Sponge.NewKeccak256; NewKeccak512 := Sponge.NewKeccak512;
  hash_Write := own_Write; hash_Sum h input := default [] (Sponge.Sum h input);
  eth_EncodeToBytes := RlpEncode.EncodeToBytes;
  BytesToAddress := Types.BytesToAddress;
  PaddedBigBytes z n := be_bytes n z |}.

#[local] Program Instance own_eth_laws : EthLaws := {|
  keccak256 := sponge 136 1 32; keccak512 := sponge 72 1 64 |}.
Next Obligation. intros data input. apply own_Sum. split; [unfold maxRate; lia|reflexivity]. Qed.
Next Obligation. intros data input. apply own_Sum. split; [unfold maxRate; lia|reflexivity]. Qed.
Next Obligation. intros m. apply length_sponge; [split; [unfold maxRate; lia|reflexivity]|lia]. Qed.
Next Obligation.
  intros t v e Hs Hok He Hl. cbn. unfold EncodeToBytes.
  destruct (encbuf_encode_emits t v e Hs Hok He Hl) as (eb & -> & Hem). cbn. by rewrite (toBytes_emits _ _ Hem).
Qed.
Next Obligation.
  intros b Hb. change (SetBytes AddressLength zero_address b = b). unfold SetBytes.
  rewrite Hb, Nat.ltb_irrefl, Hb, Nat.sub_diag. done.
Qed.
Next Obligation. reflexivity. Qed.

(** A curve, for the sake of examples, whose points are all pairs of coordinates. *)
#[local] Instance plain_curve : Secp256k1 :=
  MkCurve 1 256 (2 ^ 256 - 2 ^ 32 - 977) secp256k1N (fun _ _ => true)
    (fun d => (Some (be_val d mod (2 ^ 256 - 2 ^ 32 - 977)), Some 1)).

#[local] Program Instance plain_curve_laws : CurveLaws.
Next Obligation. reflexivity. Qed.
Next Obligation. reflexivity. Qed.
Next Obligation. by vm_compute. Qed.
Next Obligation. intros d1 d2 E. cbn. by rewrite E. Qed.
Next Obligation.
  intros d _. eexists _, _. split; [reflexivity|]. cbn [c_P S256 plain_curve c_IsOnCurve].
  split; [by apply Z.mod_pos_bound|]. by split.
Qed.

(** ** Examples *)

Lemma private_keys_witness : ToECDSA (replicate 32 1) = Ok (key_of (be_val (replicate 32 1))) /\
  FromECDSA (Some (key_of (be_val (replicate 32 1)))) = replicate 32 1.
Proof.
  destruct (private_keys (replicate 32 1)) as (H1 & H2 & _).
  { apply (bool_decide_unpack _). vm_compute. exact I. }
  assert (E : ToECDSA (replicate 32 1) = Ok (key_of (be_val (replicate 32 1)))).
  { apply H1. split; [reflexivity|]. split; [by vm_compute|reflexivity]. }
  split; [exact E|]. apply H2. exact E.
Defined.

Lemma key_files_witness : exists k, GenerateKey (replicate 40 7) = Ok k /\
  LoadECDSA (SaveECDSA Written "key" (Some k) ∅).2 "key" = Ok k.
Proof.
  destruct (key_files (replicate 40 7) "key" ∅) as (k & Hk & Hload & _); [reflexivity|].
  exists k. split; [exact Hk|]. apply Hload. reflexivity.
Defined.

Lemma public_keys_witness :
  PubkeyToAddress (MkPub S256 (Some 2) (Some 3)) = Some (drop 12 (sponge 136 1 32 (point_bytes 2 3))) /\
  PubkeyToAddress (MkPub S256 None None) = None.
Proof.
  split.
  - destruct (public_keys (4 :: point_bytes 2 3) (MkPub S256 (Some 2) (Some 3))) as [H _].
    + apply (bool_decide_unpack _). vm_compute. exact I.
    + unfold ToECDSAPub. assert (E : elliptic_Unmarshal S256 (4 :: point_bytes 2 3) = (Some 2, Some 3)) by (vm_compute; reflexivity).
      rewrite E. reflexivity.
    + destruct (H 2 3) as (_ & _ & E); [reflexivity|by vm_compute|]. exact E.
  - destruct (public_keys [5] (MkPub S256 None None)) as (_ & H & _).
    + apply (bool_decide_unpack _). vm_compute. exact I.
    + unfold ToECDSAPub. assert (E : elliptic_Unmarshal S256 [5] = (None, None)) by (vm_compute; reflexivity).
      rewrite E. reflexivity.
    + destruct H as (_ & _ & E); [intros x y _ [=]|]. exact E.
Defined.

Lemma created_addresses_witness :
  CreateAddress (replicate 20 1) 5 = Some (drop 12 (sponge 136 1 32 (create_preimage (replicate 20 1) 5))).
Proof.
  destruct (created_addresses (replicate 20 1) 5 (replicate 20 1) 5 []) as [E _].
  - split; [reflexivity|]. apply (bool_decide_unpack _). vm_compute. exact I.
  - by vm_compute.
  - split; [reflexivity|]. apply (bool_decide_unpack _). vm_compute. exact I.
  - by vm_compute.
  - exact E.
Defined.
