(* ===== verification/SignatureCgo.v ===== *)
(** * Signatures with the C library: [src/crypto/signature_cgo.go]

    The functions of libsecp256k1, through its Go package, are the class [Libsecp], and what is relied on
    [LibsecpLaws].  The secret is a slice of its own, which is overwritten when [Sign] returns; its content
    then is part of the result. *)

From S2P Require Import Prelude Types Crypto.
Local Open Scope Z_scope.

Inductive lib_error := BadHash | InvalidPublicKey | LibFailed (text : string).

Class Libsecp := {
  lib_S256 : Curve;
  lib_RecoverPubkey : bytes -> bytes -> result lib_error bytes;
  lib_Sign : bytes -> bytes -> result lib_error bytes;
  lib_VerifySignature : bytes -> bytes -> bytes -> bool;
  lib_DecompressPubkey : bytes -> option Z * option Z;
  lib_CompressPubkey : option Z -> option Z -> bytes }.

Section Cgo.
Context `{Eth, Libsecp}.

#[global] Instance cgo_S256 : Secp256k1 := lib_S256.

Definition Ecrecover (hash sig : bytes) : result lib_error bytes := lib_RecoverPubkey hash sig.

Definition SigToPub (hash sig : bytes) : result lib_error PublicKey :=
  s ← Ecrecover hash sig;
  let (x, y) := elliptic_Unmarshal S256 s in Ok (MkPub S256 x y).

(** The signature, and the slice with the secret after the call, if there is one. *)
Definition Sign (hash : bytes) (prv : PrivateKey) : result lib_error bytes * option bytes :=
  if negb (length hash =? 32)%nat then (Err BadHash, None)
  else
    let seckey := PaddedBigBytes (priv_D prv) (Z.to_nat (c_BitSize (pk_Curve (PublicKey_ prv)) / 8)) in
    (lib_Sign hash seckey, Some (zeroBytes seckey)).

Definition VerifySignature (pubkey hash signature : bytes) : bool := lib_VerifySignature pubkey hash signature.

Definition DecompressPubkey (pubkey : bytes) : result lib_error PublicKey :=
  let (x, y) := lib_DecompressPubkey pubkey in
  match x with
  | None => Err InvalidPublicKey
  | Some _ => Ok (MkPub S256 x y)
  end.

Definition CompressPubkey (pubkey : PublicKey) : bytes := lib_CompressPubkey (pk_X pubkey) (pk_Y pubkey).

End Cgo.

(** A signature with the 32 bytes of a secret gives back the public key, with its tag 4; a point is compressed
    and decompressed. *)
Class LibsecpLaws `{Libsecp} := {
  lib_recover D hash sig x y : in_range D -> c_ScalarBaseMult S256 (be_bytes 32 D) = (Some x, Some y) ->
    lib_Sign hash (be_bytes 32 D) = Ok sig -> lib_RecoverPubkey hash sig = Ok (4 :: point_bytes x y);
  lib_compressed x y : on_curve x y -> lib_DecompressPubkey (lib_CompressPubkey (Some x) (Some y)) = (Some x, Some y) }.

Section Signatures.
Context `{EthLaws} `{Libsecp} `{!CurveLaws} `{!LibsecpLaws}.

(** Keys given by a number: the library gets exactly the 32 bytes of the secret, and nothing of them is left in
    memory; whoever has the signature recovers the public key. *)
Theorem sign_recover_cgo hash D (HD : in_range D) :
  (length hash = 32%nat ->
     Sign hash (key_of D) = (lib_Sign hash (be_bytes 32 D), Some (replicate 32 0)) /\
     forall sig, (Sign hash (key_of D)).1 = Ok sig -> SigToPub hash sig = Ok (PublicKey_ (key_of D))) /\
  (length hash <> 32%nat -> Sign hash (key_of D) = (Err BadHash, None)) /\
  DecompressPubkey (CompressPubkey (PublicKey_ (key_of D))) = Ok (PublicKey_ (key_of D)).
Proof.
  destruct (law_point (be_bytes 32 D)) as (x & y & E & Hxy).
  { rewrite be_val_be_bytes, Z.mod_small by (by apply in_range_fits). unfold in_range in HD. lia. }
  assert (Hk : PublicKey_ (key_of D) = MkPub S256 (Some x) (Some y)) by (unfold key_of; by rewrite E).
  assert (Hsig : length hash = 32%nat -> Sign hash (key_of D) = (lib_Sign hash (be_bytes 32 D), Some (replicate 32 0))).
  { intros Hh. unfold Sign. rewrite Hh, key_of_Curve, key_of_D, law_bits. cbn [Nat.eqb negb].
    change (Z.to_nat (256 / 8)) with 32%nat. rewrite law_padded by (by apply in_range_fits).
    by rewrite zeroBytes_spec, length_be_bytes. }
  split; [|split].
  - intros Hh. specialize (Hsig Hh). split; [done|]. rewrite Hsig. cbn [fst]. intros sig Hs.
    unfold SigToPub, Ecrecover. rewrite (lib_recover D hash sig x y HD E Hs). cbn [mbind result_bind].
    assert (Hu : elliptic_Unmarshal S256 (4 :: point_bytes x y) = (Some x, Some y)).
    { apply Unmarshal_spec; [|by split]. apply bytes_ok_cons. split; [unfold byte_ok; lia|].
      apply bytes_ok_app. split; apply be_bytes_ok. }
    rewrite Hu. by rewrite Hk.
  - intros Hh. unfold Sign. by destruct (Nat.eqb_spec (length hash) 32).
  - unfold DecompressPubkey, CompressPubkey. rewrite Hk. cbn [pk_X pk_Y]. by rewrite lib_compressed.
Qed.

End Signatures.

(** ** The classes are satisfied

    A library, for the sake of examples, whose signatures are the secrets. *)

#[local] Existing Instances own_eth own_eth_laws.

#[local] Instance toy_lib : Libsecp := {|
  lib_S256 := plain_curve;
  lib_Sign hash seckey := Ok seckey;
  lib_RecoverPubkey hash sig :=
    let (x, y) := c_ScalarBaseMult plain_curve sig in Ok (4 :: point_bytes (default 0 x) (default 0 y));
  lib_VerifySignature _ _ _ := true;
  lib_CompressPubkey x y := point_bytes (default 0 x) (default 0 y);
  lib_DecompressPubkey b := (Some (be_val (take 32 b)), Some (be_val (drop 32 b))) |}.

#[local] Instance toy_curve_laws : @CurveLaws cgo_S256 := plain_curve_laws.

#[local] Program Instance toy_lib_laws : LibsecpLaws.
Next Obligation.
  intros D hash sig x y HD E Hs. assert (sig = be_bytes 32 D) as -> by (cbn [lib_Sign toy_lib] in Hs; congruence).
  cbn [lib_RecoverPubkey toy_lib]. unfold S256, cgo_S256 in E. cbn [lib_S256 toy_lib] in E. rewrite E. reflexivity.
Qed.
Next Obligation.
  intros x y (Hx & Hy & _). cbn [lib_DecompressPubkey lib_CompressPubkey toy_lib default from_option id].
  apply (@coordinate_fits plain_curve plain_curve_laws) in Hx, Hy. unfold point_bytes.
  rewrite take_app_length', drop_app_length' by (by rewrite length_be_bytes).
  rewrite !be_val_be_bytes, !Z.mod_small by done. reflexivity.
Qed.

Lemma sign_recover_cgo_witness : SigToPub (replicate 32 9) (be_bytes 32 5) = Ok (PublicKey_ (key_of 5)) /\
  (Sign (replicate 32 9) (key_of 5)).2 = Some (replicate 32 0).
Proof.
  destruct (sign_recover_cgo (replicate 32 9) 5) as (H & _); [by vm_compute|].
  destruct (H eq_refl) as [E Hs]. split; [|rewrite E; reflexivity]. apply Hs. rewrite E. reflexivity.
Defined.
