(* ===== verification/SignatureNocgo.v ===== *)
(** * Signatures without C code: [src/crypto/signature_nocgo.go]

    The library btcec puts the recovery number in front of a signature, the program behind it.  The functions of
    btcec are the class [Btcec], and what its documentation says of them [BtcecLaws]. *)

From S2P Require Import Prelude Types Crypto.
Local Open Scope Z_scope.

(** ** btcec *)

Inductive sig_error := BadHashLength | WrongCurve | BadPubkeyLength | LibError (text : string).

Class Btcec := {
  btcec_S256 : Curve;
  RecoverCompact : bytes -> bytes -> result sig_error PublicKey;
  SignCompact : PrivateKey -> bytes -> bool -> result sig_error bytes;
  ParsePubKey : bytes -> result sig_error PublicKey;
  Signature_Verify : Z -> Z -> bytes -> PublicKey -> bool;
  SerializeUncompressed : PublicKey -> bytes;
  SerializeCompressed : PublicKey -> bytes }.

(** ** The functions

    The outer [None] is a panic: an index out of range. *)

Section Nocgo.
Context `{Btcec}.

#[global] Instance nocgo_S256 : Secp256k1 := btcec_S256.

Definition SigToPub (hash sig : bytes) : option (result sig_error PublicKey) :=
  v ← sig !! 64%nat;
  btcsig ← copy_at (u8 (v + 27) :: replicate 64 0) 1 sig;
  Some (RecoverCompact btcsig hash).

Definition Ecrecover (hash sig : bytes) : option (result sig_error bytes) :=
  r ← SigToPub hash sig;
  Some match r with Err e => Err e | Ok pub => Ok (SerializeUncompressed pub) end.

Definition Sign (hash : bytes) (prv : PrivateKey) : option (result sig_error bytes) :=
  if negb (length hash =? 32)%nat then Some (Err BadHashLength)
  else if negb (c_id (pk_Curve (PublicKey_ prv)) =? c_id btcec_S256)%nat then Some (Err WrongCurve)
  else
    match SignCompact prv hash false with
    | Err e => Some (Err e)
    | Ok sig =>
        first ← sig !! 0%nat;
        let v := u8 (first - 27) in
        sig ← copy_at sig 0 (drop 1 sig);
        if (64 <? length sig)%nat then Some (Ok (<[64%nat := v]> sig)) else None
    end.

Definition VerifySignature (pubkey hash signature : bytes) : bool :=
  if negb (length signature =? 64)%nat then false
  else
    let R := be_val (take 32 signature) in
    let S := be_val (drop 32 signature) in
    match ParsePubKey pubkey with
    | Err _ => false
    | Ok key => if secp256k1halfN <? S then false else Signature_Verify R S hash key
    end.

Definition DecompressPubkey (pubkey : bytes) : result sig_error PublicKey :=
  if negb (length pubkey =? 33)%nat then Err BadPubkeyLength else ParsePubKey pubkey.

Definition CompressPubkey (pubkey : PublicKey) : bytes := SerializeCompressed pubkey.

End Nocgo.

(** ** What btcec promises

    A compact signature with the key of a number has 65 bytes: 27 and the recovery number, R and S, and S is at most half of
    the order.  The key is recovered from it, and verifies it.  A serialized key is parsed back; compressed it has 33 bytes. *)
Class BtcecLaws `{Btcec} := {
  law_compact D hash sig : in_range D -> SignCompact (key_of D) hash false = Ok sig ->
    exists v R S, sig = (27 + v) :: be_bytes 32 R ++ be_bytes 32 S /\ 0 <= v <= 3 /\
      0 <= R < secp256k1N /\ 0 <= S <= secp256k1halfN /\ Signature_Verify R S hash (PublicKey_ (key_of D)) = true;
  law_recover D hash sig : in_range D -> SignCompact (key_of D) hash false = Ok sig ->
    RecoverCompact sig hash = Ok (PublicKey_ (key_of D));
  law_uncompressed D : in_range D ->
    ParsePubKey (SerializeUncompressed (PublicKey_ (key_of D))) = Ok (PublicKey_ (key_of D));
  law_compressed D : in_range D ->
    ParsePubKey (SerializeCompressed (PublicKey_ (key_of D))) = Ok (PublicKey_ (key_of D)) /\
    length (SerializeCompressed (PublicKey_ (key_of D))) = 33%nat }.

(** ** Properties *)

Section Signatures.
Context `{BtcecLaws}.

Lemma Sign_compact hash prv v R S :
  length hash = 32%nat -> c_id (pk_Curve (PublicKey_ prv)) = c_id btcec_S256 -> 0 <= v <= 3 ->
  SignCompact prv hash false = Ok ((27 + v) :: be_bytes 32 R ++ be_bytes 32 S) ->
  Sign hash prv = Some (Ok (be_bytes 32 R ++ be_bytes 32 S ++ [v])).
Proof.
  intros Hh Hc Hv E. unfold Sign. rewrite Hh, Hc, !Nat.eqb_refl, E. cbn [negb].
  set (b := be_bytes 32 R ++ be_bytes 32 S). assert (Hb : length b = 64%nat) by (unfold b; by rewrite length_app, !length_be_bytes).
  destruct (drop 63 b) as [|x [|y l]] eqn:Ed; pose proof (f_equal length Ed) as El; rewrite length_drop, Hb in El; try discriminate El.
  assert (Ec : copy_at ((27 + v) :: b) 0 b = Some (b ++ [x])).
  { rewrite <- (take_drop 63 b) at 1. rewrite Ed, app_comm_cons.
    apply (copy_at_middle [] ((27 + v) :: take 63 b) [x] b); [done|]. cbn [length]. rewrite length_take. lia. }
  cbn [lookup list_lookup mbind option_bind drop]. rewrite drop_0, Ec. cbn [mbind option_bind].
  rewrite length_app, Hb. cbn [length Nat.add Nat.ltb Nat.leb]. rewrite insert_app_r_alt by lia. rewrite Hb, Nat.sub_diag.
  cbn [insert list_insert]. unfold b. rewrite <- app_assoc. do 5 f_equal. unfold u8. rewrite Z.mod_small; lia.
Qed.

Lemma SigToPub_compact hash v R S : 0 <= v <= 3 ->
  SigToPub hash (be_bytes 32 R ++ be_bytes 32 S ++ [v]) =
  Some (RecoverCompact ((27 + v) :: be_bytes 32 R ++ be_bytes 32 S) hash).
Proof.
  intros Hv. unfold SigToPub. rewrite app_assoc. set (b := be_bytes 32 R ++ be_bytes 32 S).
  assert (Hb : length b = 64%nat) by (unfold b; by rewrite length_app, !length_be_bytes).
  rewrite lookup_app_r, Hb, Nat.sub_diag by lia. cbn [lookup list_lookup mbind option_bind].
  assert (Hu : u8 (v + 27) = 27 + v) by (unfold u8; rewrite Z.mod_small; lia). rewrite Hu.
  assert (Ec : copy_at ((27 + v) :: replicate 64 0) 1 (b ++ [v]) = copy_at ((27 + v) :: replicate 64 0) 1 b).
  { unfold copy_at. cbn [length]. rewrite length_replicate, length_app, Hb. cbn [length Nat.add].
    change (Z.to_nat 1) with 1%nat. cbn [Nat.sub Nat.min]. by rewrite take_app_length', (take_ge b) by lia. }
  rewrite Ec. assert (E1 := copy_at_middle [27 + v] (replicate 64 0) [] b 1 eq_refl). rewrite !app_nil_r in E1.
  change ((27 + v) :: replicate 64 0) with ([27 + v] ++ replicate 64 0). rewrite E1; [done|]. by rewrite length_replicate.
Qed.

(** C32: signing.  Signing a hash of 32 bytes with a key of the curve never panics, and other hashes are refused; a signature is R, S and a
    recovery number below 4.  The format is turned back exactly, so that [SigToPub] and [Ecrecover] recover the key
    that signed and [VerifySignature] accepts the signature under its serialized key; a compressed key is
    decompressed to itself. *)
Theorem sign_recover hash D (HD : in_range D) :
  let prv := key_of D in let pub := PublicKey_ prv in
  (length hash <> 32%nat -> Sign hash prv = Some (Err BadHashLength)) /\
  (length hash = 32%nat -> exists res, Sign hash prv = Some res /\
     forall sig, res = Ok sig ->
     length sig = 65%nat /\ (exists v, sig !! 64%nat = Some v /\ 0 <= v <= 3) /\
     SigToPub hash sig = Some (Ok pub) /\ Ecrecover hash sig = Some (Ok (SerializeUncompressed pub)) /\
     VerifySignature (SerializeUncompressed pub) hash (take 64 sig) = true /\
     VerifySignature (CompressPubkey pub) hash (take 64 sig) = true) /\
  DecompressPubkey (CompressPubkey pub) = Ok pub.
Proof.
  intros prv pub. destruct (law_compressed D HD) as [Hp Hl]. split; [|split].
  { intros Hh. unfold Sign. by destruct (Nat.eqb_spec (length hash) 32). }
  2: { unfold DecompressPubkey, CompressPubkey, pub, prv. by rewrite Hl. }
  intros Hh. assert (Hc : c_id (pk_Curve pub) = c_id btcec_S256) by (unfold pub, prv; by rewrite key_of_Curve).
  destruct (SignCompact prv hash false) as [csig|e] eqn:E.
  2: { exists (Err e). split; [|done]. unfold Sign. fold pub. by rewrite Hh, Hc, !Nat.eqb_refl, E. }
  destruct (law_compact D hash csig HD E) as (v & R & S & -> & Hv & HR & HS & Hver).
  exists (Ok (be_bytes 32 R ++ be_bytes 32 S ++ [v])). split; [by apply Sign_compact|].
  intros sig Esig. assert (Hsig : sig = be_bytes 32 R ++ be_bytes 32 S ++ [v]) by congruence. clear Esig. subst sig.
  pose proof (law_recover D hash _ HD E) as Hrec.
  assert (Hs : SigToPub hash (be_bytes 32 R ++ be_bytes 32 S ++ [v]) = Some (Ok pub)) by (by rewrite SigToPub_compact, Hrec).
  assert (Hb : length (be_bytes 32 R ++ be_bytes 32 S) = 64%nat) by (by rewrite length_app, !length_be_bytes).
  assert (Hok : forall pk, ParsePubKey pk = Ok pub ->
    VerifySignature pk hash (take 64 (be_bytes 32 R ++ be_bytes 32 S ++ [v])) = true).
  { intros pk Hpk. rewrite app_assoc, take_app_length' by done. unfold VerifySignature. rewrite Hb, Hpk. cbn [Nat.eqb negb].
    rewrite take_app_length', drop_app_length' by (by rewrite length_be_bytes).
    pose proof N_fits. assert (secp256k1halfN < secp256k1N) by (by vm_compute).
    rewrite !be_val_be_bytes, !Z.mod_small by lia. destruct (Z.ltb_spec secp256k1halfN S); [lia|done]. }
  split_and!; [|exists v; split; [|done]|done| |by apply Hok, law_uncompressed|by apply Hok].
  - by rewrite app_assoc, length_app, Hb.
  - rewrite app_assoc, lookup_app_r, Hb by lia. done.
  - unfold Ecrecover. by rewrite Hs.
Qed.

End Signatures.

(** ** Malleability *)

Lemma N_odd : secp256k1N = 2 * secp256k1halfN + 1.
Proof. by vm_compute. Qed.

(** C33: no second signature.  Of S and N - S, which a curve accepts alike, [VerifySignature] accepts at most
    one, whatever btcec does, and [ValidateSignatureValues] accepts exactly one under the later rules and both under the
    earlier ones. *)
Theorem not_malleable `{Btcec} pubkey hash sig v r s
    (Hb : bytes_ok sig) (Hv : v = 0 \/ v = 1) (Hr : 1 <= r < secp256k1N) (Hs : 1 <= s < secp256k1N) :
  (VerifySignature pubkey hash sig = true -> forall pubkey' hash' r',
     length r' = 32%nat ->
     VerifySignature pubkey' hash' (r' ++ be_bytes 32 (secp256k1N - be_val (drop 32 sig))) = false) /\
  ValidateSignatureValues v r s true = negb (ValidateSignatureValues v r (secp256k1N - s) true) /\
  ValidateSignatureValues v r s false = true.
Proof.
  pose proof N_odd as HN. split; [|split].
  - unfold VerifySignature. intros Hsig pubkey' hash' r' Hr'.
    destruct (Nat.eqb_spec (length sig) 64) as [Hl|]; [|done]. cbn [negb] in Hsig.
    destruct (ParsePubKey pubkey); [|done]. destruct (Z.ltb_spec secp256k1halfN (be_val (drop 32 sig))); [done|]. clear Hsig.
    rewrite length_app, length_be_bytes, Hr'. cbn [Nat.add Nat.eqb negb]. destruct (ParsePubKey pubkey'); [|done].
    rewrite drop_app_length' by done. pose proof (be_val_bound _ (bytes_ok_drop 32 sig Hb)). pose proof N_fits.
    rewrite be_val_be_bytes, Z.mod_small by lia.
    destruct (Z.ltb_spec secp256k1halfN (secp256k1N - be_val (drop 32 sig))); [done|lia].
  - unfold ValidateSignatureValues. cbn [andb]. assert (Ev : ((v =? 0) || (v =? 1))%bool = true) by (destruct Hv as [-> | ->]; done).
    rewrite Ev. destruct (Z.ltb_spec r 1), (Z.ltb_spec s 1), (Z.ltb_spec (secp256k1N - s) 1), (Z.ltb_spec r secp256k1N),
      (Z.ltb_spec s secp256k1N), (Z.ltb_spec (secp256k1N - s) secp256k1N); try lia. cbn [orb andb].
    destruct (Z.ltb_spec secp256k1halfN s), (Z.ltb_spec secp256k1halfN (secp256k1N - s)); done || lia.
  - unfold ValidateSignatureValues. cbn [andb]. assert (Ev : ((v =? 0) || (v =? 1))%bool = true) by (destruct Hv as [-> | ->]; done).
    rewrite Ev. destruct (Z.ltb_spec r 1), (Z.ltb_spec s 1), (Z.ltb_spec r secp256k1N), (Z.ltb_spec s secp256k1N); done || lia.
Qed.

(** ** The class is satisfied

    A library, for the sake of examples, that puts the secret into its signatures. *)

Definition toy_parse (pk : bytes) : result sig_error PublicKey :=
  if (length pk =? 33)%nat then Ok (MkPub plain_curve (Some (be_val (drop 1 pk))) (Some 1))
  else match elliptic_Unmarshal plain_curve pk with
       | (Some x, Some y) => Ok (MkPub plain_curve (Some x) (Some y))
       | _ => Err (LibError "invalid")
       end.

#[local] Instance toy_btcec : Btcec := {|
  btcec_S256 := plain_curve;
  SignCompact prv hash _ := Ok (27 :: be_bytes 32 (priv_D prv) ++ be_bytes 32 1);
  RecoverCompact sig hash := Ok (PublicKey_ (@key_of plain_curve (be_val (take 32 (drop 1 sig)))));
  ParsePubKey := toy_parse;
  Signature_Verify _ _ _ _ := true;
  SerializeUncompressed pub := default [] (@FromECDSAPub plain_curve (Some pub));
  SerializeCompressed pub := 2 :: be_bytes 32 (default 0 (pk_X pub)) |}.

Lemma toy_point D : in_range D -> PublicKey_ (@key_of plain_curve D) = MkPub plain_curve (Some (D mod c_P plain_curve)) (Some 1).
Proof.
  intros HD. unfold key_of. cbn [S256 plain_curve c_ScalarBaseMult PublicKey_ c_P].
  rewrite be_val_be_bytes, (Z.mod_small D) by (by apply in_range_fits). reflexivity.
Qed.

Lemma toy_on_curve D : @on_curve plain_curve (D mod c_P plain_curve) 1.
Proof. split; [by apply Z.mod_pos_bound|]. by split. Qed.

Lemma toy_sig D hash sig : SignCompact (@key_of plain_curve D) hash false = Ok sig -> sig = 27 :: be_bytes 32 D ++ be_bytes 32 1.
Proof. cbn [SignCompact toy_btcec]. rewrite key_of_D. congruence. Qed.

#[local] Program Instance toy_laws : BtcecLaws.
Next Obligation.
  intros D hash sig HD E. apply toy_sig in E. subst sig. exists 0, D, 1. pose proof HD as [H1 H2].
  split; [reflexivity|]. split; [lia|]. split; [lia|]. split; [by vm_compute|reflexivity].
Qed.
Next Obligation.
  intros D hash sig HD E. apply toy_sig in E. subst sig. cbn [RecoverCompact toy_btcec drop]. rewrite drop_0, take_app_length' by (by rewrite length_be_bytes).
  rewrite be_val_be_bytes, Z.mod_small by (by apply in_range_fits). reflexivity.
Qed.
Next Obligation.
  intros D HD. cbn [ParsePubKey SerializeUncompressed toy_btcec btcec_S256 nocgo_S256]. rewrite (toy_point D HD).
  pose proof (toy_on_curve D) as Hxy. unfold FromECDSAPub. rewrite (@Marshal_point plain_curve plain_curve_laws _ _ Hxy).
  cbn [default from_option id]. unfold toy_parse.
  assert (Hl : length (4 :: point_bytes (D mod c_P plain_curve) 1) = 65%nat)
    by (cbn [length]; unfold point_bytes; by rewrite length_app, !length_be_bytes).
  rewrite Hl. cbn [Nat.eqb].
  assert (E : @elliptic_Unmarshal plain_curve (4 :: point_bytes (D mod c_P plain_curve) 1) = (Some (D mod c_P plain_curve), Some 1)).
  { apply (@Unmarshal_spec plain_curve plain_curve_laws); [|by split]. apply bytes_ok_cons. split; [unfold byte_ok; lia|].
    apply bytes_ok_app. split; apply be_bytes_ok. }
  rewrite E. reflexivity.
Qed.
Next Obligation.
  intros D HD. cbn [ParsePubKey SerializeCompressed toy_btcec btcec_S256 nocgo_S256]. rewrite (toy_point D HD).
  cbn [pk_X default from_option id]. split; [|cbn [length]; by rewrite length_be_bytes].
  unfold toy_parse. cbn [length drop]. rewrite length_be_bytes, drop_0. cbn [Nat.eqb].
  rewrite be_val_be_bytes, (Z.mod_small (D mod _)); [reflexivity|].
  apply (@coordinate_fits plain_curve plain_curve_laws), Z.mod_pos_bound. reflexivity.
Qed.

Lemma sign_recover_witness : exists sig, Sign (replicate 32 9) (key_of 5) = Some (Ok sig) /\
  SigToPub (replicate 32 9) sig = Some (Ok (PublicKey_ (key_of 5))).
Proof.
  destruct (sign_recover (replicate 32 9) 5) as (_ & H & _); [by vm_compute|].
  destruct (H eq_refl) as (res & E & Hres). exists (be_bytes 32 5 ++ be_bytes 32 1 ++ [0]).
  assert (Er : res = Ok (be_bytes 32 5 ++ be_bytes 32 1 ++ [0])).
  { assert (E' : Sign (replicate 32 9) (key_of 5) = Some (Ok (be_bytes 32 5 ++ be_bytes 32 1 ++ [0]))) by (vm_compute; reflexivity).
    congruence. }
  split; [congruence|]. destruct (Hres _ Er) as (_ & _ & Hs & _). exact Hs.
Defined.

Lemma not_malleable_witness :
  VerifySignature [] [] (replicate 32 1 ++ be_bytes 32 (secp256k1N - 1)) = false /\
  ValidateSignatureValues 0 1 1 true = negb (ValidateSignatureValues 0 1 (secp256k1N - 1) true).
Proof.
  destruct (not_malleable (2 :: be_bytes 32 5) [] (be_bytes 32 5 ++ be_bytes 32 1) 0 1 1) as (H1 & H2 & _).
  - apply (bool_decide_unpack _). vm_compute. exact I.
  - by left.
  - by vm_compute.
  - by vm_compute.
  - split; [|exact H2]. apply H1; [vm_compute; reflexivity|reflexivity].
Defined.
