(* ===== verification/Text.v ===== *)
(** * Text: the parts of [unicode/utf8], [strings], [strconv] and [bytes] that
    [src/log] uses

    A Go string is a list of bytes.  A [range] over a string decodes it rune by
    rune; a byte that does not belong to a valid encoding is the rune U+FFFD. *)

From S2P Require Import Prelude.
Local Open Scope Z_scope.

(** ** Literals *)

Definition ascii_byte (c : Ascii.ascii) : Z := Z.of_N (Ascii.N_of_ascii c).
Fixpoint str (s : string) : bytes :=
  match s with
  | EmptyString => []
  | String c s => ascii_byte c :: str s
  end.

(** ** UTF-8 *)

Definition RuneError : Z := 0xfffd.

Definition within (lo hi b : Z) : bool := (lo <=? b) && (b <=? hi).
Definition low6 (b : Z) : Z := Z.land b 0x3f.

(** The bounds of the second byte after the first byte [b0] of three or four. *)
Definition accept3 (b0 : Z) : Z * Z :=
  if b0 =? 0xe0 then (0xa0, 0xbf) else if b0 =? 0xed then (0x80, 0x9f) else (0x80, 0xbf).
Definition accept4 (b0 : Z) : Z * Z :=
  if b0 =? 0xf0 then (0x90, 0xbf) else if b0 =? 0xf4 then (0x80, 0x8f) else (0x80, 0xbf).

(** [utf8.DecodeRune] of [b0 :: s]: the rune and its width. *)
Definition DecodeRune (b0 : Z) (s : bytes) : Z * nat :=
  let bad := (RuneError, 1%nat) in
  if b0 <? 0x80 then (b0, 1%nat)
  else if within 0xc2 0xdf b0 then
    match s with
    | b1 :: _ =>
        if within 0x80 0xbf b1 then (Z.lor (Z.shiftl (Z.land b0 0x1f) 6) (low6 b1), 2%nat) else bad
    | _ => bad
    end
  else if within 0xe0 0xef b0 then
    match s with
    | b1 :: b2 :: _ =>
        let (lo, hi) := accept3 b0 in
        if within lo hi b1 && within 0x80 0xbf b2
        then (Z.lor (Z.shiftl (Z.lor (Z.shiftl (Z.land b0 0x0f) 6) (low6 b1)) 6) (low6 b2), 3%nat)
        else bad
    | _ => bad
    end
  else if within 0xf0 0xf4 b0 then
    match s with
    | b1 :: b2 :: b3 :: _ =>
        let (lo, hi) := accept4 b0 in
        if within lo hi b1 && within 0x80 0xbf b2 && within 0x80 0xbf b3
        then (Z.lor (Z.shiftl (Z.lor (Z.shiftl (Z.lor (Z.shiftl (Z.land b0 0x07) 6) (low6 b1)) 6)
                (low6 b2)) 6) (low6 b3), 4%nat)
        else bad
    | _ => bad
    end
  else bad.

(** The runes of a string with the bytes of each; [skip] bytes belong to the
    rune before. *)
Fixpoint segments_from (skip : nat) (s : bytes) : list (Z * bytes) :=
  match s with
  | [] => []
  | b :: s' =>
      match skip with
      | S k => segments_from k s'
      | O => let (r, w) := DecodeRune b s' in
             (r, take w (b :: s')) :: segments_from (w - 1) s'
      end
  end.
Definition segments : bytes -> list (Z * bytes) := segments_from 0.

(** [for _, r := range s]. *)
Definition runes (s : bytes) : list Z := (segments s).*1.
Definition RuneCountInString (s : bytes) : nat := length (runes s).

Definition valid_rune (r : Z) : bool := within 0 0xd7ff r || within 0xe000 0x10ffff r.

(** [WriteRune]. *)
Definition EncodeRune (r : Z) : bytes :=
  let r := if valid_rune r then r else RuneError in
  if r <=? 0x7f then [r]
  else if r <=? 0x7ff then [Z.lor 0xc0 (Z.shiftr r 6); Z.lor 0x80 (low6 r)]
  else if r <=? 0xffff then
    [Z.lor 0xe0 (Z.shiftr r 12); Z.lor 0x80 (low6 (Z.shiftr r 6)); Z.lor 0x80 (low6 r)]
  else
    [Z.lor 0xf0 (Z.shiftr r 18); Z.lor 0x80 (low6 (Z.shiftr r 12));
     Z.lor 0x80 (low6 (Z.shiftr r 6)); Z.lor 0x80 (low6 r)].

Definition utf8 (rs : list Z) : bytes := flat_map EncodeRune rs.

Definition valid_utf8 (s : bytes) : bool :=
  bool_decide (utf8 (runes s) = s) && forallb valid_rune (runes s).

(** ** Numbers *)

(** The decimal digits of a number below [10 ^ n]; at least one. *)
Fixpoint digits10 (n : nat) (z : Z) : bytes :=
  match n with
  | O => []
  | S n => (if z / 10 =? 0 then [] else digits10 n (z / 10)) ++ [48 + z mod 10]
  end.
Definition FormatUint (z : Z) : bytes := digits10 (S (Z.to_nat (Z.log2 z))) z.
(** [fmt.Sprintf("%d", z)]. *)
Definition FormatInt (z : Z) : bytes :=
  (if z <? 0 then str "-" else []) ++ FormatUint (Z.abs z).

(** [n] digits with leading zeros. *)
Fixpoint pad10 (n : nat) (z : Z) : bytes :=
  match n with O => [] | S n => pad10 n (z / 10) ++ [48 + z mod 10] end.

Fixpoint atoi_loop (n : Z) (s : bytes) : option Z :=
  match s with
  | [] => Some n
  | c :: s' => if within 48 57 c then atoi_loop (n * 10 + (c - 48)) s' else None
  end.
(** [strconv.Atoi]; [None] is an error. *)
Definition Atoi (s : bytes) : option Z :=
  let neg := match s with c :: _ => c =? 45 | [] => false end in
  let ds := match s with c :: s' => if (c =? 45) || (c =? 43) then s' else s | [] => s end in
  match ds with
  | [] => None
  | _ =>
      v ← atoi_loop 0 ds;
      let n := if neg then - v else v in
      if within (- 2 ^ 63) (2 ^ 63 - 1) n then Some n else None
  end.

(** ** Strings *)

(** [strings.Split(s, sep)] for one byte [sep]. *)
Fixpoint Split (sep : Z) (s : bytes) : list bytes :=
  match s with
  | [] => [[]]
  | c :: s' =>
      if c =? sep then [] :: Split sep s'
      else match Split sep s' with [] => [[c]] | x :: xs => (c :: x) :: xs end
  end.

(** [unicode.IsSpace]. *)
Definition IsSpace (r : Z) : bool :=
  within 9 13 r || (r =? 0x20) || (r =? 0x85) || (r =? 0xa0) || (r =? 0x1680)
  || within 0x2000 0x200a r || (r =? 0x2028) || (r =? 0x2029) || (r =? 0x202f)
  || (r =? 0x205f) || (r =? 0x3000).

Fixpoint drop_space (l : list (Z * bytes)) : list (Z * bytes) :=
  match l with
  | [] => []
  | (r, b) :: l' => if IsSpace r then drop_space l' else l
  end.
Definition TrimSpace (s : bytes) : bytes :=
  concat (reverse (drop_space (reverse (drop_space (segments s))))).*2.

Fixpoint HasPrefix (s prefix : bytes) : bool :=
  match prefix, s with
  | [], _ => true
  | p :: prefix', c :: s' => (p =? c) && HasPrefix s' prefix'
  | _, [] => false
  end.
Definition HasSuffix (s suffix : bytes) : bool := HasPrefix (reverse s) (reverse suffix).
Definition TrimPrefix (s prefix : bytes) : bytes :=
  if HasPrefix s prefix then drop (length prefix) s else s.

(** [bytes.Repeat]; a negative count panics. *)
Definition Repeat (c count : Z) : option bytes :=
  if count <? 0 then None else Some (replicate (Z.to_nat count) c).

Lemma Repeat_ok c n : 0 <= n -> Repeat c n = Some (replicate (Z.to_nat n) c).
Proof. intros Hn. unfold Repeat. by destruct (Z.ltb_spec n 0); [lia|]. Qed.

(** ** Decoding what was encoded *)

Section Utf8.

Lemma low6_mod b : low6 b = b mod 64.
Proof. unfold low6. change 0x3f with (Z.ones 6). by apply Z.land_ones. Qed.

Lemma lor_low a b k : 0 <= k -> 0 <= b < 2 ^ k -> Z.lor (a * 2 ^ k) b = a * 2 ^ k + b.
Proof. intros Hk Hb. by rewrite <- lor_shiftl_add, Z.shiftl_mul_pow2. Qed.

(** The first byte with its marking bits. *)
Lemma lead_bits m b k : 0 <= k -> 0 <= b < 2 ^ k -> m mod 2 ^ k = 0 ->
  Z.lor m b = m + b /\ Z.land (m + b) (Z.ones k) = b.
Proof.
  intros Hk Hb Hm. assert (E : m = m / 2 ^ k * 2 ^ k) by (pose proof (Z.div_mod m (2 ^ k)); lia).
  rewrite Z.land_ones by done. split.
  - rewrite E at 1. rewrite lor_low by done. lia.
  - rewrite E, Z.add_comm, Z.mod_add by lia. by apply Z.mod_small.
Qed.

(** A continuation byte. *)
Lemma cont_byte t : 0 <= t < 64 -> Z.lor 0x80 t = 128 + t /\ low6 (128 + t) = t.
Proof. intros Ht. unfold low6. by apply (lead_bits 0x80 t 6). Qed.

Lemma within_true lo hi b : lo <= b <= hi -> within lo hi b = true.
Proof. intros H. unfold within. apply andb_true_intro. split; apply Z.leb_le; lia. Qed.
Lemma within_false lo hi b : b < lo \/ hi < b -> within lo hi b = false.
Proof.
  intros H. unfold within. destruct (Z.leb_spec lo b), (Z.leb_spec b hi); cbn; lia || done.
Qed.
Lemma within_spec lo hi b : within lo hi b = true <-> lo <= b <= hi.
Proof. unfold within. by rewrite andb_true_iff, !Z.leb_le. Qed.

(** The rune of continuation digits [t], in base 64. *)
Lemma join64 q t : 0 <= t < 64 -> Z.lor (Z.shiftl q 6) t = q * 64 + t.
Proof. intros Ht. by apply (lor_shiftl_add q t 6). Qed.

Lemma Decode2 q t s : 2 <= q < 32 -> 0 <= t < 64 ->
  DecodeRune (192 + q) ((128 + t) :: s) = (q * 64 + t, 2%nat).
Proof.
  intros Hq Ht. unfold DecodeRune. destruct (lead_bits 192 q 5) as [_ E]; [lia..|done|].
  change (Z.ones 5) with 0x1f in E. rewrite E, (proj2 (cont_byte t Ht)), join64 by done.
  destruct (Z.ltb_spec (192 + q) 128); [lia|]. by rewrite !within_true by lia.
Qed.

Lemma Decode3 q t1 t2 s : 0 <= q < 16 -> 0 <= t1 < 64 -> 0 <= t2 < 64 ->
  (q = 0 -> 32 <= t1) -> (q = 13 -> t1 < 32) ->
  DecodeRune (224 + q) ((128 + t1) :: (128 + t2) :: s) = ((q * 64 + t1) * 64 + t2, 3%nat).
Proof.
  intros Hq H1 H2 H0 Hd. unfold DecodeRune. destruct (lead_bits 224 q 4) as [_ E]; [lia..|done|].
  change (Z.ones 4) with 0x0f in E.
  rewrite E, (proj2 (cont_byte t1 H1)), (proj2 (cont_byte t2 H2)), !join64 by done.
  destruct (Z.ltb_spec (224 + q) 128); [lia|].
  rewrite within_false, (within_true 0xe0) by lia. unfold accept3.
  destruct (Z.eqb_spec (224 + q) 0xe0); [|destruct (Z.eqb_spec (224 + q) 0xed)];
    by rewrite !within_true by lia.
Qed.

Lemma Decode4 q t1 t2 t3 s : 0 <= q < 5 -> 0 <= t1 < 64 -> 0 <= t2 < 64 -> 0 <= t3 < 64 ->
  (q = 0 -> 16 <= t1) -> (q = 4 -> t1 < 16) ->
  DecodeRune (240 + q) ((128 + t1) :: (128 + t2) :: (128 + t3) :: s) =
    (((q * 64 + t1) * 64 + t2) * 64 + t3, 4%nat).
Proof.
  intros Hq H1 H2 H3 H0 Hd. unfold DecodeRune. destruct (lead_bits 240 q 3) as [_ E]; [lia..|done|].
  change (Z.ones 3) with 0x07 in E.
  rewrite E, (proj2 (cont_byte t1 H1)), (proj2 (cont_byte t2 H2)), (proj2 (cont_byte t3 H3)),
    !join64 by done.
  destruct (Z.ltb_spec (240 + q) 128); [lia|].
  rewrite !(within_false _ _ (240 + q)), (within_true 0xf0) by lia. unfold accept4.
  destruct (Z.eqb_spec (240 + q) 0xf0); [|destruct (Z.eqb_spec (240 + q) 0xf4)];
    by rewrite !within_true by lia.
Qed.

Lemma EncodeRune_bytes r : valid_rune r = true ->
  (r < 128 /\ 0 <= r /\ EncodeRune r = [r]) \/
  (128 <= r < 2048 /\ EncodeRune r = [192 + r / 64; 128 + r mod 64]) \/
  (2048 <= r < 65536 /\ ~ (0xd800 <= r <= 0xdfff) /\
   EncodeRune r = [224 + r / 64 / 64; 128 + r / 64 mod 64; 128 + r mod 64]) \/
  (65536 <= r <= 0x10ffff /\
   EncodeRune r = [240 + r / 64 / 64 / 64; 128 + r / 64 / 64 mod 64; 128 + r / 64 mod 64; 128 + r mod 64]).
Proof.
  intros Hr. unfold EncodeRune. rewrite Hr.
  assert (Hv : 0 <= r <= 0x10ffff /\ ~ (0xd800 <= r <= 0xdfff)).
  { apply orb_prop in Hr as [H|H]; apply within_spec in H; lia. }
  rewrite !Z.shiftr_div_pow2 by lia.
  change (2 ^ 12) with (64 * 64). change (2 ^ 18) with (64 * 64 * 64). change (2 ^ 6) with 64.
  rewrite <- !Z.div_div by lia.
  pose proof (Z.mod_pos_bound r 64 ltac:(lia)). pose proof (Z.mod_pos_bound (r / 64) 64 ltac:(lia)).
  pose proof (Z.mod_pos_bound (r / 64 / 64) 64 ltac:(lia)).
  pose proof (Z.div_mod r 64 ltac:(lia)). pose proof (Z.div_mod (r / 64) 64 ltac:(lia)).
  pose proof (Z.div_mod (r / 64 / 64) 64 ltac:(lia)).
  rewrite !low6_mod. rewrite !(fun t H => proj1 (cont_byte t H)) by done.
  destruct (Z.leb_spec r 127); [left; done || (split; [lia|split; [lia|done]])|right].
  destruct (Z.leb_spec r 0x7ff); [left|right].
  { split; [lia|]. do 2 f_equal. apply (lead_bits 192 _ 5); [lia| |done]. lia. }
  destruct (Z.leb_spec r 0xffff); [left|right].
  { split; [lia|]. split; [lia|]. do 2 f_equal. apply (lead_bits 224 _ 4); [lia| |done]. lia. }
  split; [lia|]. do 2 f_equal. apply (lead_bits 240 _ 3); [lia| |done]. lia.
Qed.

(** A rune that was written is read, with its bytes. *)
Lemma segments_EncodeRune r s :
  valid_rune r = true -> segments (EncodeRune r ++ s) = (r, EncodeRune r) :: segments s.
Proof.
  intros Hr. pose proof (Z.mod_pos_bound r 64 ltac:(lia)).
  pose proof (Z.mod_pos_bound (r / 64) 64 ltac:(lia)).
  pose proof (Z.mod_pos_bound (r / 64 / 64) 64 ltac:(lia)).
  pose proof (Z.div_mod r 64 ltac:(lia)). pose proof (Z.div_mod (r / 64) 64 ltac:(lia)).
  pose proof (Z.div_mod (r / 64 / 64) 64 ltac:(lia)). unfold segments.
  destruct (EncodeRune_bytes r Hr) as [(? & ? & ->)|[(? & ->)|[(? & ? & ->)|(? & ->)]]];
    cbn [app segments_from].
  - unfold DecodeRune. by destruct (Z.ltb_spec r 128); [|lia].
  - rewrite Decode2 by lia. cbn. do 2 f_equal. lia.
  - rewrite Decode3 by lia. cbn. do 2 f_equal. lia.
  - rewrite Decode4 by lia. cbn. do 2 f_equal. lia.
Qed.

Lemma runes_EncodeRune r s : valid_rune r = true -> runes (EncodeRune r ++ s) = r :: runes s.
Proof. intros Hr. unfold runes. by rewrite segments_EncodeRune. Qed.

Lemma runes_utf8 rs : forallb valid_rune rs = true -> runes (utf8 rs) = rs.
Proof.
  unfold utf8. induction rs as [|r rs IH]; [done|]. cbn [forallb flat_map]. intros [Hr Hrs]%andb_prop.
  by rewrite runes_EncodeRune, IH.
Qed.

(** Bytes below 128 stand for themselves. *)
Lemma runes_ascii b s : 0 <= b < 128 -> runes (b :: s) = b :: runes s.
Proof.
  intros Hb. unfold runes, segments. cbn [segments_from]. unfold DecodeRune.
  by destruct (Z.ltb_spec b 128); [|lia].
Qed.

End Utf8.
