(* ===== verification/LogFormat.v ===== *)
(** * Log records and their formats: [src/log/format.go] and the types of
    [src/log/logger.go]

    The values in a record's context are of any Go type.  Those that the formats
    treat on their own have a constructor; any other value is known by what it
    prints and whether it can be compared ([obj]).  [None] is a panic. *)

From S2P Require Import Prelude Text.
Local Open Scope Z_scope.
#[local] Set Warnings "-register-all".

(** ** Values *)

(** [time.Time] by what [Format] prints of it; [t_repr] is what [==] compares.
    The zone is in minutes. *)
Record time := MkTime {
  t_year : Z; t_month : Z; t_day : Z; t_hour : Z; t_minute : Z; t_second : Z; t_zone : Z;
  t_repr : Z }.

(** A finite float is [m * 2 ^ e] with a sign. *)
Inductive float := FNaN | FInf (neg : bool) | FFinite (neg : bool) (m e : Z).

Inductive int_kind :=
| Kint | Kint8 | Kint16 | Kint32 | Kint64 | Kuint | Kuint8 | Kuint16 | Kuint32 | Kuint64.
#[global] Instance int_kind_eq_dec : EqDecision int_kind.
Proof. solve_decision. Defined.

(** A value of another type: its type, its value unless the type has no equality,
    its method [TerminalString] and its method [Error] or [String] if it has one, each with
    its result or [None] if it panics; whether it is a nil pointer; and what
    [fmt.Sprintf] prints with the verb "%+v". *)
Record obj := MkObj {
  o_type : Z; o_val : option Z; o_terminal : option (option bytes);
  o_method : option (option bytes); o_nil : bool; o_text : bytes }.

Inductive value :=
| VNil
| VTime (t : time)
| VBool (b : bool)
| VFloat (bits : Z) (f : float)
| VInt (k : int_kind) (z : Z)
| VString (s : bytes)
| VLvl (l : Z)
| VLazy (fn : lazy_fn)
| VObj (o : obj)
(** What [Lazy.Fn] holds: nil; a value that is no function; or a function with the
    numbers of its arguments and results and what a call returns, [None] if it
    panics.  [text] is what [fmt.Sprintf] prints with the verb "%+v". *)
with lazy_fn :=
| FnNil
| NotFunc (text : bytes)
| Func (text : bytes) (numIn numOut : nat) (results : option (list value)).

(** ** Levels *)

Definition LvlCrit : Z := 0.
Definition LvlError : Z := 1.
Definition LvlWarn : Z := 2.
Definition LvlInfo : Z := 3.
Definition LvlDebug : Z := 4.
Definition LvlTrace : Z := 5.

Definition AlignedString (l : Z) : option bytes :=
  if l =? LvlTrace then Some (str "TRACE")
  else if l =? LvlDebug then Some (str "DEBUG")
  else if l =? LvlInfo then Some (str "INFO ")
  else if l =? LvlWarn then Some (str "WARN ")
  else if l =? LvlError then Some (str "ERROR")
  else if l =? LvlCrit then Some (str "CRIT ")
  else None.

Definition Lvl_String (l : Z) : option bytes :=
  if l =? LvlTrace then Some (str "trce")
  else if l =? LvlDebug then Some (str "dbug")
  else if l =? LvlInfo then Some (str "info")
  else if l =? LvlWarn then Some (str "warn")
  else if l =? LvlError then Some (str "eror")
  else if l =? LvlCrit then Some (str "crit")
  else None.

Definition bytes_eqb (a b : bytes) : bool := bool_decide (a = b).

(** The level, and whether there is no error. *)
Definition LvlFromString (s : bytes) : Z * bool :=
  if bytes_eqb s (str "trace") || bytes_eqb s (str "trce") then (LvlTrace, true)
  else if bytes_eqb s (str "debug") || bytes_eqb s (str "dbug") then (LvlDebug, true)
  else if bytes_eqb s (str "info") then (LvlInfo, true)
  else if bytes_eqb s (str "warn") then (LvlWarn, true)
  else if bytes_eqb s (str "error") || bytes_eqb s (str "eror") then (LvlError, true)
  else if bytes_eqb s (str "crit") then (LvlCrit, true)
  else (LvlDebug, false).

(** ** Records *)

Definition timeKey : bytes := str "t".
Definition lvlKey : bytes := str "lvl".
Definition msgKey : bytes := str "msg".
Definition errorKey : bytes := str "LOG15_ERROR".

(** A call site of the package [stack]: its program counter and what is printed of it
    with the verbs "%v", "%+v", "%+s" and "%+n". *)
Record call := MkCall {
  c_PC : Z; c_v : bytes; c_plus_v : bytes; c_plus_s : bytes; c_plus_n : bytes }.

Record key_names := MkKeyNames { k_Time : bytes; k_Msg : bytes; k_Lvl : bytes }.

Record record := MkRecord {
  r_Time : time; r_Lvl : Z; r_Msg : bytes; r_Ctx : list value; r_Call : call;
  r_KeyNames : key_names }.
Definition set_ctx (c : list value) (r : record) : record :=
  MkRecord (r_Time r) (r_Lvl r) (r_Msg r) c (r_Call r) (r_KeyNames r).

(** ** Printing values *)

(** [appendInt] of package [time]. *)
Definition appendInt (z : Z) (width : nat) : bytes :=
  let ds := FormatUint (Z.abs z) in
  (if z <? 0 then str "-" else []) ++ replicate (width - length ds) 48 ++ ds.

(** [t.Format("2006-01-02T15:04:05-0700")]. *)
Definition Format_time (t : time) : bytes :=
  appendInt (t_year t) 4 ++ str "-" ++ appendInt (t_month t) 2 ++ str "-" ++
  appendInt (t_day t) 2 ++ str "T" ++ appendInt (t_hour t) 2 ++ str ":" ++
  appendInt (t_minute t) 2 ++ str ":" ++ appendInt (t_second t) 2 ++
  (if t_zone t <? 0 then str "-" else str "+") ++
  appendInt (Z.abs (t_zone t) / 60) 2 ++ appendInt (Z.abs (t_zone t) mod 60) 2.

(** [t.Format("01-02|15:04:05")]. *)
Definition Format_term (t : time) : bytes :=
  appendInt (t_month t) 2 ++ str "-" ++ appendInt (t_day t) 2 ++ str "|" ++
  appendInt (t_hour t) 2 ++ str ":" ++ appendInt (t_minute t) 2 ++ str ":" ++
  appendInt (t_second t) 2.

(** The nearest integer to [n / d], the even one of two. *)
Definition round_even (n d : Z) : Z :=
  let q := n / d in
  let rem := 2 * (n mod d) in
  if (d <? rem) || ((rem =? d) && Z.odd q) then q + 1 else q.

(** [strconv.FormatFloat(v, 'f', 3, 64)]. *)
Definition FormatFloat3 (f : float) : bytes :=
  match f with
  | FNaN => str "NaN"
  | FInf neg => if neg then str "-Inf" else str "+Inf"
  | FFinite neg m e =>
      let n := if 0 <=? e then m * 2 ^ e * 1000 else round_even (m * 1000) (2 ^ (- e)) in
      (if neg then str "-" else []) ++ FormatUint (n / 1000) ++ str "." ++ pad10 3 (n mod 1000)
  end.

Definition FormatBool (b : bool) : bytes := if b then str "true" else str "false".

(** The characters that make quotes or escapes necessary. *)
Definition quotes_rune (r : Z) : bool := (r <=? 32) || (r =? 61) || (r =? 34).
Definition escapes_rune (r : Z) : bool :=
  (r =? 92) || (r =? 34) || (r =? 10) || (r =? 13) || (r =? 9).

Definition escape_rune (r : Z) : bytes :=
  if (r =? 92) || (r =? 34) then [92; r]
  else if r =? 10 then [92; 110]
  else if r =? 13 then [92; 114]
  else if r =? 9 then [92; 116]
  else EncodeRune r.

Definition escapeString (s : bytes) : bytes :=
  let needsQuotes := existsb quotes_rune (runes s) in
  let needsEscape := existsb escapes_rune (runes s) in
  if negb needsEscape && negb needsQuotes then s
  else
    let e := [34] ++ flat_map escape_rune (runes s) ++ [34] in
    if needsQuotes then e else take (length e - 2) (drop 1 e).

(** The [recover] in [formatShared]: a method that panics on a nil pointer prints
    "nil". *)
Definition formatShared (v : value) : option value :=
  match v with
  | VTime t => Some (VString (Format_time t))
  | VLvl l => VString <$> Lvl_String l
  | VObj o =>
      match o_method o with
      | Some (Some text) => Some (VString text)
      | Some None => if o_nil o then Some (VString (str "nil")) else None
      | None => Some v
      end
  | _ => Some v
  end.

Definition fn_text (fn : lazy_fn) : bytes :=
  match fn with FnNil => str "<nil>" | NotFunc text => text | Func text _ _ _ => text end.

(** [fmt.Sprintf("%+v", v)] of what [formatShared] returns and the formats do not
    treat otherwise. *)
Definition Sprintf_v (v : value) : bytes :=
  match v with
  | VNil => str "<nil>"
  | VBool b => FormatBool b
  | VLazy fn => str "{Fn:" ++ fn_text fn ++ str "}"
  | VObj o => o_text o
  | _ => []
  end.

Definition formatLogfmtValue (v : value) (term : bool) : option bytes :=
  let shared :=
    v' ← formatShared v;
    Some match v' with
         | VBool b => FormatBool b
         | VFloat _ f => FormatFloat3 f
         | VInt _ z => FormatInt z
         | VString s => escapeString s
         | _ => escapeString (Sprintf_v v')
         end in
  match v with
  | VNil => Some (str "nil")
  | VTime t => Some (Format_time t)
  | VObj o =>
      match term, o_terminal o with
      | true, Some res => escapeString <$> res
      | _, _ => shared
      end
  | _ => shared
  end.

Definition formatJSONValue (v : value) : option value :=
  v' ← formatShared v;
  Some match v' with
       | VInt _ _ | VFloat _ _ | VString _ => v'
       | _ => VString (Sprintf_v v')
       end.

(** ** Formats *)

(** The global variables of [format.go]. *)
Record globals := MkGlobals {
  locationEnabled : bool; locationLength : Z; fieldPadding : gmap bytes nat }.

Definition PrintOrigins (print : bool) (g : globals) : globals :=
  MkGlobals print (locationLength g) (fieldPadding g).

Definition color_on (color : Z) (s : bytes) : bytes :=
  [27] ++ str "[" ++ FormatInt color ++ str "m" ++ s ++ [27] ++ str "[0m".

(** The assertion that the key is a string: if it fails [k] is empty. *)
Definition key_value (k : value) (v : bytes) (term : bool) : option (bytes * bytes) :=
  match k with
  | VString k => Some (k, v)
  | _ => v ← formatLogfmtValue (VString []) term; Some (errorKey, v)
  end.

(** The loop over the pairs of the context: [first] is [i == 0]. *)
Fixpoint logfmt_loop (color : Z) (term first : bool) (ctx : list value)
    (padding : gmap bytes nat) : option (bytes * gmap bytes nat) :=
  match ctx with
  | [] => Some ([], padding)
  | [_] => None
  | k :: v :: ctx' =>
      v ← formatLogfmtValue v term;
      kv ← key_value k v term;
      let '(k, v) := kv : bytes * bytes in
      let len := RuneCountInString v in
      let pad := default 0%nat (padding !! k) in
      let '(pad, padding) :=
        if (pad <? len)%nat then (len, <[k := len]> padding) else (pad, padding) in
      spaces ← (if bool_decide (ctx' = []) then Some []
                else Repeat 32 (Z.of_nat pad - Z.of_nat len));
      rest ← logfmt_loop color term false ctx' padding;
      Some ((if first then [] else [32]) ++
            (if 0 <? color then color_on color k ++ [61] else k ++ [61]) ++
            v ++ spaces ++ rest.1, rest.2)
  end.

Definition logfmt (ctx : list value) (color : Z) (term : bool) (g : globals)
    : option (bytes * globals) :=
  res ← logfmt_loop color term true ctx (fieldPadding g);
  Some (res.1 ++ [10], MkGlobals (locationEnabled g) (locationLength g) res.2).

Definition format : Type := record -> globals -> option (bytes * globals).

Definition LogfmtFormat : format := fun r g =>
  let common := [VString (k_Time (r_KeyNames r)); VTime (r_Time r);
                 VString (k_Lvl (r_KeyNames r)); VLvl (r_Lvl r);
                 VString (k_Msg (r_KeyNames r)); VString (r_Msg r)] in
  logfmt (common ++ r_Ctx r) 0 false g.

Definition termMsgJust : nat := 40.
Definition locationTrims : list bytes := [str "github.com/ethereum/go-ethereum/"].

Definition level_color (usecolor : bool) (l : Z) : Z :=
  if usecolor then
    if l =? LvlCrit then 35 else if l =? LvlError then 31 else if l =? LvlWarn then 33
    else if l =? LvlInfo then 32 else if l =? LvlDebug then 36 else if l =? LvlTrace then 34
    else 0
  else 0.

Definition TerminalFormat (usecolor : bool) : format := fun r g =>
  let color := level_color usecolor (r_Lvl r) in
  lvl ← AlignedString (r_Lvl r);
  let lvl := if 0 <? color then color_on color lvl else lvl in
  head ← (if locationEnabled g then
            let location := foldl TrimPrefix (c_plus_v (r_Call r)) locationTrims in
            let align := locationLength g in
            let '(align, g) :=
              if align <? zlen location
              then (zlen location, MkGlobals true (u32 (zlen location)) (fieldPadding g))
              else (align, g) in
            padding ← Repeat 32 (align - zlen location);
            Some (lvl ++ str "[" ++ Format_term (r_Time r) ++ str "|" ++ location ++ str "]" ++
                  padding ++ str " " ++ r_Msg r ++ str " ", g)
          else Some (lvl ++ str "[" ++ Format_term (r_Time r) ++ str "] " ++ r_Msg r ++ str " ", g));
  let '(head, g) := head : bytes * globals in
  let len := RuneCountInString (r_Msg r) in
  just ← (if bool_decide (r_Ctx r <> []) && (len <? termMsgJust)%nat
          then Repeat 32 (Z.of_nat termMsgJust - Z.of_nat len) else Some []);
  rest ← logfmt (r_Ctx r) color true g;
  Some (head ++ just ++ rest.1, rest.2).

(** The map that is given to [jsonMarshal]; [sprintf] is what [fmt.Sprintf] prints of a key
    that is no string. *)
Fixpoint json_props (sprintf : value -> bytes) (ctx : list value) (props : gmap bytes value) : option (gmap bytes value) :=
  match ctx with
  | [] => Some props
  | [_] => None
  | k :: v :: ctx' =>
      let '(k, props) := match k with
        | VString k => (k, props)
        | _ => ([], <[errorKey := VString (sprintf k ++ str " is not a string key")]> props)
        end in
      v ← formatJSONValue v;
      json_props sprintf ctx' (<[k := v]> props)
  end.

(** [jsonMarshal] is [json.Marshal] or [json.MarshalIndent]; an error has a text. *)
Definition JSONFormatEx (sprintf : value -> bytes)
    (jsonMarshal : gmap bytes value -> result bytes bytes) (lineSeparated : bool) : format := fun r g =>
  lvl ← Lvl_String (r_Lvl r);
  let props := <[k_Msg (r_KeyNames r) := VString (r_Msg r)]>
    (<[k_Lvl (r_KeyNames r) := VString lvl]>
    {[k_Time (r_KeyNames r) := VTime (r_Time r)]}) in
  props ← json_props sprintf (r_Ctx r) props;
  Some (match jsonMarshal props with
        | Ok b => if lineSeparated then b ++ [10] else b
        | Err e =>
            match jsonMarshal {[errorKey := VString e]} with Ok b => b | Err _ => [] end
        end, g).
