(* ===== verification/LogFormatSpec.v ===== *)
(** * Log lines can be read back

    A line that [LogfmtFormat] prints is parsed into the keys and texts of the
    record; it is one line, whatever the values contain. *)

From S2P Require Import Prelude Text LogFormat.
Local Open Scope Z_scope.

(** ** Reading a line *)

Definition unescape (c : Z) : Z :=
  if c =? 110 then 10 else if c =? 114 then 13 else if c =? 116 then 9 else c.

(** The rest of a quoted value, and what follows it. *)
Fixpoint read_quoted (s : bytes) : option (bytes * bytes) :=
  match s with
  | [] => None
  | c :: s1 =>
      if c =? 34 then Some ([], s1)
      else if c =? 92 then
        match s1 with
        | [] => None
        | d :: s2 => '(x, rest) ← read_quoted s2; Some (unescape d :: x, rest)
        end
      else '(x, rest) ← read_quoted s1; Some (c :: x, rest)
  end.

(** A value without quotes ends at a space or at the end of the line. *)
Fixpoint read_plain (s : bytes) : bytes * bytes :=
  match s with
  | [] => ([], [])
  | c :: s1 =>
      if (c =? 32) || (c =? 10) then ([], s)
      else if c =? 92 then
        match s1 with
        | [] => ([], [])
        | d :: s2 => let (x, rest) := read_plain s2 in (unescape d :: x, rest)
        end
      else let (x, rest) := read_plain s1 in (c :: x, rest)
  end.

Definition read_value (s : bytes) : option (bytes * bytes) :=
  match s with
  | c :: s' => if c =? 34 then read_quoted s' else Some (read_plain s)
  | [] => Some (read_plain s)
  end.

Fixpoint read_key (s : bytes) : option (bytes * bytes) :=
  match s with
  | [] => None
  | c :: s' => if c =? 61 then Some ([], s') else '(k, rest) ← read_key s'; Some (c :: k, rest)
  end.

Fixpoint read_line (fuel : nat) (s : bytes) : option (list (bytes * bytes)) :=
  match fuel, s with
  | S fuel, c :: s' =>
      if c =? 10 then if bool_decide (s' = []) then Some [] else None
      else if c =? 32 then read_line fuel s'
      else
        '(k, s) ← read_key s;
        '(v, s) ← read_value s;
        l ← read_line fuel s;
        Some ((k, v) :: l)
  | _, _ => None
  end.
Definition parse_line (s : bytes) : option (list (bytes * bytes)) := read_line (S (length s)) s.

(** ** Escaping *)

Section Escape.

Lemma valid_utf8_runes s : valid_utf8 s = true -> exists rs, s = utf8 rs /\ forallb valid_rune rs = true.
Proof. intros [H1%bool_decide_eq_true H2]%andb_prop. by exists (runes s). Qed.

(** The bytes of a rune are the rune itself or above 127. *)
Lemma EncodeRune_high r b : valid_rune r = true -> b ∈ EncodeRune r -> b = r \/ 128 <= b.
Proof.
  intros Hr Hb. pose proof (EncodeRune_bytes r Hr) as E.
  pose proof (Z.mod_pos_bound r 64 ltac:(lia)). pose proof (Z.mod_pos_bound (r / 64) 64 ltac:(lia)).
  pose proof (Z.mod_pos_bound (r / 64 / 64) 64 ltac:(lia)).
  pose proof (Z.div_mod r 64 ltac:(lia)). pose proof (Z.div_mod (r / 64) 64 ltac:(lia)).
  pose proof (Z.div_mod (r / 64 / 64) 64 ltac:(lia)).
  destruct E as [(? & ? & E)|[(? & E)|[(? & ? & E)|(? & E)]]]; rewrite E in Hb;
    repeat (apply elem_of_cons in Hb as [Hb|Hb]); try (by apply elem_of_nil in Hb); lia.
Qed.

Lemma EncodeRune_no c r : valid_rune r = true -> c < 128 -> r <> c -> Forall (fun b => b <> c) (EncodeRune r).
Proof.
  intros Hr Hc Hne. apply Forall_forall. intros b Hb ->.
  destruct (EncodeRune_high r c Hr Hb); [by subst|lia].
Qed.

Lemma read_quoted_copy x s :
  Forall (fun b => b <> 34) x -> Forall (fun b => b <> 92) x ->
  read_quoted (x ++ s) = '(y, rest) ← read_quoted s; Some (x ++ y, rest).
Proof.
  induction 1 as [|b x Hb Hx IH]; intros H92; cbn [app read_quoted].
  - destruct (read_quoted s) as [[? ?]|]; done.
  - apply Forall_cons in H92 as [Hb' H92]. rewrite (proj2 (Z.eqb_neq b 34) Hb), (proj2 (Z.eqb_neq b 92) Hb'),
      IH by done. destruct (read_quoted s) as [[? ?]|]; done.
Qed.

Lemma read_quoted_escaped rs s :
  forallb valid_rune rs = true ->
  read_quoted (flat_map escape_rune rs ++ 34 :: s) = Some (utf8 rs, s).
Proof.
  unfold utf8. induction rs as [|r rs IH]; cbn [forallb flat_map]; [done|]. intros [Hr Hrs]%andb_prop.
  rewrite <- !app_assoc. unfold escape_rune at 1.
  destruct (Z.eqb_spec r 92) as [->|H92]; [cbn [orb app Z.eqb Pos.eqb read_quoted]; by rewrite IH|].
  destruct (Z.eqb_spec r 34) as [->|H34]; [cbn [orb app Z.eqb Pos.eqb read_quoted read_plain]; by rewrite IH|].
  destruct (Z.eqb_spec r 10) as [->|H10]; [cbn [orb app Z.eqb Pos.eqb read_quoted read_plain]; by rewrite IH|].
  destruct (Z.eqb_spec r 13) as [->|H13]; [cbn [orb app Z.eqb Pos.eqb read_quoted read_plain]; by rewrite IH|].
  destruct (Z.eqb_spec r 9) as [->|H9]; [cbn [orb app Z.eqb Pos.eqb read_quoted read_plain]; by rewrite IH|]. cbn [orb].
  rewrite read_quoted_copy by (by apply EncodeRune_no). by rewrite IH.
Qed.

(** What may follow a value. *)
Definition ends_value (s : bytes) : bool :=
  match s with [] => true | c :: _ => (c =? 32) || (c =? 10) end.

Lemma read_plain_copy x s :
  Forall (fun b => b <> 32) x -> Forall (fun b => b <> 10) x -> Forall (fun b => b <> 92) x ->
  read_plain (x ++ s) = let (y, rest) := read_plain s in (x ++ y, rest).
Proof.
  induction 1 as [|b x Hb Hx IH]; intros H10 H92; cbn [app].
  - by destruct (read_plain s).
  - apply Forall_cons in H92 as [Hb' H92]. apply Forall_cons in H10 as [Hb'' H10].
    cbn [read_plain]. rewrite (proj2 (Z.eqb_neq b 32) Hb), (proj2 (Z.eqb_neq b 10) Hb''),
      (proj2 (Z.eqb_neq b 92) Hb'), IH by done. by destruct (read_plain s).
Qed.

Lemma read_plain_end s : ends_value s = true -> read_plain s = ([], s).
Proof. destruct s; cbn; [done|]. by intros ->. Qed.

Lemma read_plain_escaped rs s :
  forallb valid_rune rs = true -> existsb quotes_rune rs = false -> ends_value s = true ->
  read_plain (flat_map escape_rune rs ++ s) = (utf8 rs, s).
Proof.
  unfold utf8. intros Hv Hq Hs. induction rs as [|r rs IH]; cbn [forallb existsb flat_map] in *.
  - by apply read_plain_end.
  - apply andb_prop in Hv as [Hr Hv]. apply orb_false_elim in Hq as [Hrq Hq].
    unfold quotes_rune in Hrq. rewrite !orb_false_iff, Z.leb_gt, !Z.eqb_neq in Hrq.
    destruct Hrq as [[H32 H61] H34]. rewrite <- !app_assoc. unfold escape_rune at 1.
    destruct (Z.eqb_spec r 92) as [->|H92]; [cbn [orb app Z.eqb Pos.eqb read_quoted read_plain]; by rewrite IH|].
    rewrite !(proj2 (Z.eqb_neq r _)) by lia. cbn [orb].
    rewrite read_plain_copy, IH by (done || apply EncodeRune_no; (done || lia)). done.
Qed.

(** Without anything to escape the text is the string itself. *)
Lemma escape_none rs : existsb escapes_rune rs = false -> flat_map escape_rune rs = utf8 rs.
Proof.
  unfold utf8. induction rs as [|r rs IH]; cbn [existsb flat_map]; [done|].
  intros [Hr Hrs]%orb_false_elim. rewrite IH by done. f_equal. unfold escape_rune, escapes_rune in *.
  rewrite !orb_false_iff in Hr. by destruct Hr as [[[[-> ->] ->] ->] ->].
Qed.

(** The two forms of an escaped string. *)
Lemma escapeString_form rs : forallb valid_rune rs = true ->
  escapeString (utf8 rs) =
    if existsb quotes_rune rs then [34] ++ flat_map escape_rune rs ++ [34] else flat_map escape_rune rs.
Proof.
  intros Hv. unfold escapeString. rewrite runes_utf8 by done.
  destruct (existsb quotes_rune rs) eqn:Hq; destruct (existsb escapes_rune rs) eqn:He; cbn [negb andb];
    try done.
  - cbn [app drop]. rewrite length_cons, length_app. apply take_app_length'. cbn. lia.
  - by rewrite escape_none.
Qed.

Lemma flat_escape_head rs c s : forallb valid_rune rs = true -> existsb quotes_rune rs = false ->
  flat_map escape_rune rs ++ s = c :: drop 1 (flat_map escape_rune rs ++ s) ->
  ends_value s = true -> c <> 34.
Proof.
  destruct rs as [|r rs]; cbn [flat_map app forallb existsb].
  - intros _ _ -> H ->. done.
  - intros [Hr _]%andb_prop [Hrq _]%orb_false_elim E Hs ->.
    unfold quotes_rune in Hrq. rewrite !orb_false_iff, Z.leb_gt, !Z.eqb_neq in Hrq.
    destruct Hrq as [[H32 H61] H34]. unfold escape_rune in E.
    destruct (Z.eqb_spec r 92); [done|]. rewrite !(proj2 (Z.eqb_neq r _)) in E by lia. cbn [orb] in E.
    assert (Hin : 34 ∈ EncodeRune r).
    { destruct (EncodeRune r) as [|b l] eqn:Eb.
      - exfalso. pose proof (EncodeRune_bytes r Hr) as H. rewrite Eb in H.
        by destruct H as [(_ & _ & H)|[(_ & H)|[(_ & _ & H)|(_ & H)]]].
      - cbn in E. injection E as ->. by left. }
    destruct (EncodeRune_high r 34 Hr Hin); [by subst|lia].
Qed.

(** A printed value is read back. *)
Lemma read_escaped t s :
  valid_utf8 t = true -> ends_value s = true -> read_value (escapeString t ++ s) = Some (t, s).
Proof.
  intros (rs & -> & Hv)%valid_utf8_runes Hs. rewrite escapeString_form by done.
  destruct (existsb quotes_rune rs) eqn:Hq.
  - change (([34] ++ flat_map escape_rune rs ++ [34]) ++ s)
      with (34 :: (flat_map escape_rune rs ++ [34]) ++ s).
    rewrite <- app_assoc. cbn [read_value Z.eqb Pos.eqb]. by apply read_quoted_escaped.
  - unfold read_value. destruct (flat_map escape_rune rs ++ s) as [|c l] eqn:E.
    + rewrite <- E. by rewrite read_plain_escaped.
    + assert (c <> 34) as Hc%Z.eqb_neq.
      { apply (flat_escape_head rs c s); try done. by rewrite E. }
      rewrite Hc, <- E. by rewrite read_plain_escaped.
Qed.

(** A printed value stays on its line. *)
Lemma escaped_no_newline t : valid_utf8 t = true -> Forall (fun b => b <> 10) (escapeString t).
Proof.
  intros (rs & -> & Hv)%valid_utf8_runes. rewrite escapeString_form by done.
  assert (H : Forall (fun b => b <> 10) (flat_map escape_rune rs)).
  { clear -Hv. induction rs as [|r rs IH]; cbn [flat_map]; [constructor|].
    apply andb_prop in Hv as [Hr Hv]. apply Forall_app. split; [|by apply IH].
    unfold escape_rune. destruct (Z.eqb_spec r 92) as [->|]; [by repeat constructor|].
    destruct (Z.eqb_spec r 34) as [->|]; [by repeat constructor|]. cbn [orb].
    destruct (Z.eqb_spec r 10) as [->|]; [by repeat constructor|].
    repeat (case_match; [by repeat constructor|]). by apply EncodeRune_no. }
  destruct (existsb quotes_rune rs); [|done].
  apply Forall_app. split; [by repeat constructor|]. apply Forall_app. split; [done|by repeat constructor].
Qed.

End Escape.

(** ** Values that need no escaping *)

Create HintDb plain.

Section Plain.

(** Printable characters other than the equals sign, quotes and backslash. *)
Definition plain_byte (b : Z) : Prop := 33 <= b < 127 /\ b <> 61 /\ b <> 34 /\ b <> 92.

Lemma escape_plain s : Forall plain_byte s -> escapeString s = s.
Proof.
  intros H. unfold escapeString.
  assert (E : runes s = s).
  { induction H as [|b s (Hb & _) Hs IH]; [done|]. rewrite runes_ascii by lia. by rewrite IH. }
  rewrite E.
  assert (existsb quotes_rune s = false /\ existsb escapes_rune s = false) as [-> ->]; [|done].
  clear E. induction H as [|b s (Hb & H61 & H34 & H92) Hs [IH1 IH2]]; [done|]. cbn [existsb].
  rewrite IH1, IH2. unfold quotes_rune, escapes_rune.
  rewrite !(proj2 (Z.eqb_neq b _)), (proj2 (Z.leb_gt b _)) by lia. done.
Qed.

Lemma plain_digit d : 0 <= d < 10 -> plain_byte (48 + d).
Proof. unfold plain_byte. lia. Qed.

Lemma plain_digits10 n z : Forall plain_byte (digits10 n z).
Proof.
  revert z. induction n as [|n IH]; intros z; cbn [digits10]; [constructor|].
  apply Forall_app. split; [by case_match; [constructor|]|]. constructor; [|constructor].
  apply plain_digit, Z.mod_pos_bound. lia.
Qed.

Lemma plain_pad10 n z : Forall plain_byte (pad10 n z).
Proof.
  revert z. induction n as [|n IH]; intros z; cbn [pad10]; [constructor|].
  apply Forall_app. split; [done|]. constructor; [|constructor].
  apply plain_digit, Z.mod_pos_bound. lia.
Qed.

Lemma plain_zeros n : Forall plain_byte (replicate n 48).
Proof. apply Forall_replicate. unfold plain_byte. lia. Qed.

Lemma plain_literal s :
  forallb (fun b => within 33 126 b && negb (b =? 61) && negb (b =? 34) && negb (b =? 92)) s = true ->
  Forall plain_byte s.
Proof.
  intros H. apply Forall_forall. intros b Hb. rewrite forallb_forall in H.
  specialize (H b (proj1 (list_elem_of_In _ _) Hb)). rewrite !andb_true_iff, within_spec in H.
  destruct H as [[[? H1] H2] H3]. unfold plain_byte.
  destruct (Z.eqb_spec b 61), (Z.eqb_spec b 34), (Z.eqb_spec b 92); try done. lia.
Qed.

#[local] Hint Resolve plain_digits10 plain_pad10 plain_zeros : plain.
Local Ltac plain :=
  repeat first [solve [auto with plain] | apply Forall_app; split | case_match];
  apply plain_literal; reflexivity.

Lemma plain_FormatUint z : Forall plain_byte (FormatUint z).
Proof. apply plain_digits10. Qed.
#[local] Hint Resolve plain_FormatUint : plain.
Lemma plain_FormatInt z : Forall plain_byte (FormatInt z).
Proof. unfold FormatInt. plain. Qed.
Lemma plain_appendInt z n : Forall plain_byte (appendInt z n).
Proof. unfold appendInt. plain. Qed.
#[local] Hint Resolve plain_FormatInt plain_appendInt : plain.
Lemma plain_time t : Forall plain_byte (Format_time t).
Proof. unfold Format_time. plain. Qed.
Lemma plain_float f : Forall plain_byte (FormatFloat3 f).
Proof. unfold FormatFloat3. destruct f; plain. Qed.
Lemma plain_bool b : Forall plain_byte (FormatBool b).
Proof. unfold FormatBool. plain. Qed.

End Plain.

(** ** The text of a line *)

Section Line.

(** The text of a value before it is escaped. *)
Definition value_text (v : value) (term : bool) : option bytes :=
  let shared :=
    v' ← formatShared v;
    Some match v' with
         | VBool b => FormatBool b
         | VFloat _ f => FormatFloat3 f
         | VInt _ z => FormatInt z
         | VString s => s
         | _ => Sprintf_v v'
         end in
  match v with
  | VNil => Some (str "nil")
  | VTime t => Some (Format_time t)
  | VObj o => match term, o_terminal o with true, Some res => res | _, _ => shared end
  | _ => shared
  end.

(** Nothing is lost by printing times, numbers and truth values without escaping. *)
Lemma formatLogfmtValue_text v term : formatLogfmtValue v term = escapeString <$> value_text v term.
Proof.
  assert (Hs : forall v', formatShared v = Some v' ->
    match v' with
    | VBool b => FormatBool b | VFloat _ f => FormatFloat3 f | VInt _ z => FormatInt z
    | VString s => escapeString s | _ => escapeString (Sprintf_v v')
    end = escapeString match v' with
    | VBool b => FormatBool b | VFloat _ f => FormatFloat3 f | VInt _ z => FormatInt z
    | VString s => s | _ => Sprintf_v v'
    end).
  { intros v' _. destruct v'; try done; symmetry; apply escape_plain.
    - apply plain_bool. - apply plain_float. - apply plain_FormatInt. }
  assert (Hsh : (v' ← formatShared v; Some match v' with
    | VBool b => FormatBool b | VFloat _ f => FormatFloat3 f | VInt _ z => FormatInt z
    | VString s => escapeString s | _ => escapeString (Sprintf_v v') end) =
    escapeString <$> (v' ← formatShared v; Some match v' with
    | VBool b => FormatBool b | VFloat _ f => FormatFloat3 f | VInt _ z => FormatInt z
    | VString s => s | _ => Sprintf_v v' end)).
  { destruct (formatShared v) as [v'|] eqn:E; [|done]. cbn [mbind option_bind fmap option_fmap option_map].
    by rewrite Hs. }
  unfold formatLogfmtValue, value_text. destruct v; try exact Hsh; try done.
  - cbn. by rewrite escape_plain by apply plain_time.
  - destruct term, (o_terminal o); try exact Hsh. done.
Qed.

(** What a line says: a key that is no string is replaced, and its value is lost. *)
Definition entry (term : bool) (k v : value) : option (bytes * bytes) :=
  t ← value_text v term;
  Some match k with VString k => (k, t) | _ => (errorKey, []) end.
Fixpoint entries (term : bool) (ctx : list value) : option (list (bytes * bytes)) :=
  match ctx with
  | [] => Some []
  | [_] => None
  | k :: v :: ctx' => e ← entry term k v; l ← entries term ctx'; Some (e :: l)
  end.

Definition clean_key (k : bytes) : bool :=
  forallb (fun c => negb ((c =? 61) || (c =? 32) || (c =? 10))) k.
Definition clean (e : bytes * bytes) : bool := clean_key e.1 && valid_utf8 e.2.

(** The table of widths only grows. *)
Definition wider (p p' : gmap bytes nat) : Prop :=
  forall k, (default 0 (p !! k) <= default 0 (p' !! k))%nat.

Lemma wider_insert p k n : (default 0 (p !! k) <= n)%nat -> wider p (<[k := n]> p).
Proof.
  intros H k'. destruct (decide (k' = k)) as [->|Hne].
  - by rewrite lookup_insert_eq.
  - by rewrite lookup_insert_ne.
Qed.

Lemma clean_key_no k : clean_key k = true ->
  Forall (fun b => b <> 61) k /\ Forall (fun b => b <> 32) k /\ Forall (fun b => b <> 10) k.
Proof.
  unfold clean_key. induction k as [|c k IH]; cbn [forallb]; [done|]. intros [Hc Hk]%andb_prop.
  apply negb_true_iff in Hc. rewrite !orb_false_iff, !Z.eqb_neq in Hc.
  destruct (IH Hk) as (? & ? & ?). split_and!; constructor; tauto.
Qed.

Lemma read_key_app k s : Forall (fun b => b <> 61) k -> read_key (k ++ 61 :: s) = Some (k, s).
Proof.
  induction 1 as [|c k Hc Hk IH]; [done|]. cbn [app read_key].
  by rewrite (proj2 (Z.eqb_neq c 61) Hc), IH.
Qed.

Lemma read_line_spaces n fuel s :
  (n <= fuel)%nat -> read_line fuel (replicate n 32 ++ s) = read_line (fuel - n) s.
Proof.
  revert fuel. induction n as [|n IH]; intros fuel Hf; cbn [replicate app].
  - by rewrite Nat.sub_0_r.
  - destruct fuel as [|fuel]; [lia|]. cbn [read_line Z.eqb Pos.eqb]. rewrite IH by lia. done.
Qed.

Lemma read_line_entry fuel k t s :
  clean (k, t) = true -> ends_value s = true -> 
  read_line (S fuel) (k ++ [61] ++ escapeString t ++ s) = l ← read_line fuel s; Some ((k, t) :: l).
Proof.
  intros [Hk Ht]%andb_prop Hs. apply clean_key_no in Hk as (H61 & H32 & H10). cbn [fst snd] in *.
  set (s0 := k ++ [61] ++ escapeString t ++ s).
  assert (Hh : exists c s1, s0 = c :: s1 /\ c <> 10 /\ c <> 32).
  { unfold s0. destruct k as [|c k]; [by exists 61, (escapeString t ++ s)|].
    apply Forall_cons in H10 as [? _]. apply Forall_cons in H32 as [? _]. by eexists c, _. }
  destruct Hh as (c & s1 & E & Hc10 & Hc32). rewrite E. cbn [read_line].
  rewrite (proj2 (Z.eqb_neq c 10) Hc10), (proj2 (Z.eqb_neq c 32) Hc32), <- E. unfold s0.
  cbn [app]. rewrite read_key_app by done. cbn [mbind option_bind]. by rewrite read_escaped.
Qed.

(** The part of the loop that looks after the table of widths. *)
Definition widen (k : bytes) (len : nat) (p : gmap bytes nat) : nat * gmap bytes nat :=
  let pad := default 0%nat (p !! k) in
  if (pad <? len)%nat then (len, <[k := len]> p) else (pad, p).

Lemma widen_spec k len p pad p' : widen k len p = (pad, p') ->
  wider p p' /\ (len <= pad)%nat /\ default 0%nat (p' !! k) = pad.
Proof.
  unfold widen. destruct (Nat.ltb_spec (default 0%nat (p !! k)) len); intros [= <- <-].
  - split; [apply wider_insert; lia|]. split; [done|]. by rewrite lookup_insert_eq.
  - split; [by intros k'|]. done.
Qed.

Lemma key_value_total k v term : exists kv, key_value k v term = Some kv.
Proof. destruct k; by eexists. Qed.

Lemma repeat_widen k len p pad p' (ctx : list value) : widen k len p = (pad, p') ->
  exists n, (if bool_decide (ctx = []) then Some [] else Repeat 32 (Z.of_nat pad - Z.of_nat len)) =
    Some (replicate n 32).
Proof.
  intros (_ & Hlen & _)%widen_spec. case_bool_decide; [by exists 0%nat|].
  rewrite Repeat_ok by lia. by eexists.
Qed.

(** The loop panics exactly when the context has an odd length or a value's method
    panics. *)
Lemma logfmt_loop_total color term first ctx p :
  is_Some (logfmt_loop color term first ctx p) <-> is_Some (entries term ctx).
Proof.
  revert first p. induction ctx as [ctx IH] using (induction_ltof1 _ (@length value)).
  intros first p. destruct ctx as [|k [|v ctx]]; [cbn; split; by eexists|cbn; by split; intros [? ?]|].
  cbn [logfmt_loop entries]. rewrite formatLogfmtValue_text. unfold entry.
  destruct (value_text v term) as [t|]; cbn [mbind option_bind fmap option_fmap option_map];
    [|by split; intros [? ?]].
  destruct (key_value_total k (escapeString t) term) as [[k' v'] ->]. cbn [mbind option_bind].
  change (if (_ <? _)%nat then _ else _) with (widen k' (RuneCountInString v') p).
  destruct (widen _ _ _) as [pad p1] eqn:Ew. destruct (repeat_widen _ _ _ _ _ ctx Ew) as [n ->].
  cbn [mbind option_bind]. specialize (IH ctx ltac:(unfold ltof; cbn; lia) false p1).
  destruct (logfmt_loop color term false ctx p1) as [[line p2]|], (entries term ctx) as [le|]; cbn.
  - split; intros _; by eexists.
  - by destruct (proj1 IH (ex_intro _ _ eq_refl)) as [? [=]].
  - by destruct (proj2 IH (ex_intro _ _ eq_refl)) as [? [=]].
  - done.
Qed.

(** What the loop prints for the entries [l], in the middle of a line or at its start. *)
Record printed (first : bool) (p p' : gmap bytes nat) (l : list (bytes * bytes)) (line : bytes) : Prop := {
  pr_read : forall fuel, (length line < fuel)%nat -> read_line fuel (line ++ [10]) = Some l;
  pr_line : Forall (fun b => b <> 10) line;
  pr_wider : wider p p';
  pr_width : Forall (fun e => (RuneCountInString (escapeString e.2) <= default 0 (p' !! e.1))%nat) l;
  pr_ends : first = false -> ends_value (line ++ [10]) = true }.

Lemma printed_cons first p p1 p2 k t l n line :
  clean (k, t) = true -> wider p p1 -> (RuneCountInString (escapeString t) <= default 0 (p1 !! k))%nat ->
  printed false p1 p2 l line ->
  printed first p p2 ((k, t) :: l)
    ((if first then [] else [32]) ++ (k ++ [61]) ++ escapeString t ++ replicate n 32 ++ line).
Proof.
  intros Hc Hw Hlen [Hr Hl Hw' Hwd He].
  assert (Hend : ends_value (replicate n 32 ++ line ++ [10]) = true) by (destruct n; [by apply He|done]).
  split.
  - intros fuel Hf. rewrite <- !app_assoc. rewrite !length_app, length_replicate in Hf. cbn in Hf.
    replace ((if first then [] else [32]) : bytes) with (replicate (if first then 0 else 1)%nat 32)
      in * by (by destruct first).
    rewrite length_replicate in Hf. rewrite read_line_spaces by lia.
    destruct (fuel - (if first then 0 else 1))%nat as [|f] eqn:Ef; [lia|].
    rewrite (read_line_entry f k t) by done. rewrite read_line_spaces by lia. by rewrite Hr by lia.
  - apply andb_prop in Hc as [Hk Ht]. apply clean_key_no in Hk as (_ & _ & H10).
    repeat (apply Forall_app; split); try done.
    + by destruct first; repeat constructor.
    + by repeat constructor.
    + by apply escaped_no_newline.
    + by apply Forall_replicate.
  - intros k'. etrans; [apply Hw|apply Hw'].
  - constructor; [|done]. cbn [fst snd]. etrans; [exact Hlen|apply Hw'].
  - by intros ->.
Qed.

Lemma logfmt_loop_spec ctx l first p :
  entries false ctx = Some l -> forallb clean l = true ->
  exists line p', logfmt_loop 0 false first ctx p = Some (line, p') /\ printed first p p' l line.
Proof.
  revert l first p. induction ctx as [ctx IH] using (induction_ltof1 _ (@length value)).
  intros l first p. destruct ctx as [|k [|v ctx]]; [|done|].
  - intros [= <-] _. exists [], p. split; [done|].
    split; [intros [|fuel]; cbn; [lia|done]|constructor|by intros k|constructor|done].
  - cbn [entries]. destruct (entry false k v) as [[k' t]|] eqn:Ee; [|done]. cbn [mbind option_bind].
    destruct (entries false ctx) as [l'|] eqn:El; [|done]. cbn [mbind option_bind]. intros [= <-].
    cbn [forallb]. intros [Hc Hcl]%andb_prop. cbn [logfmt_loop]. rewrite formatLogfmtValue_text.
    unfold entry in Ee. destruct (value_text v false) as [t'|]; [|done].
    cbn [mbind option_bind fmap option_fmap option_map] in *.
    assert (Ekv : key_value k (escapeString t') false = Some (k', escapeString t))
      by (by destruct k; injection Ee as <- <-).
    rewrite Ekv. cbn [mbind option_bind].
    change (if (_ <? _)%nat then _ else _) with (widen k' (RuneCountInString (escapeString t)) p).
    destruct (widen _ _ _) as [pad p1] eqn:Ew. pose proof (repeat_widen _ _ _ _ _ ctx Ew) as Hsp.
    apply widen_spec in Ew as (Hw & Hlen & Hp1). destruct (IH ctx ltac:(unfold ltof; cbn; lia) l' false p1 El Hcl) as (line & p2 & E & Hpr).
    rewrite E. cbn [Z.ltb Z.compare].
    destruct Hsp as [n ->]. cbn [mbind option_bind fst snd]. eexists _, p2. split; [reflexivity|].
    apply (printed_cons first p p1 p2 k' t l' n line Hc Hw); [by rewrite Hp1|done].
Qed.

End Line.

(** ** Formats *)

Lemma plain_valid s : Forall plain_byte s -> valid_utf8 s = true.
Proof.
  intros H. assert (E : runes s = s /\ utf8 s = s /\ forallb valid_rune s = true).
  { unfold utf8. induction H as [|b s (Hb & _) Hs (IH1 & IH2 & IH3)]; [done|].
    assert (Hv : valid_rune b = true) by (unfold valid_rune; rewrite within_true by lia; done).
    rewrite runes_ascii by lia. cbn [flat_map forallb]. rewrite IH1, IH2, IH3, Hv. split; [done|].
    split; [|done]. destruct (EncodeRune_bytes b Hv) as [(_ & _ & ->)|[[? _]|[[? _]|[? _]]]]; [done|lia..]. }
  destruct E as (E1 & E2 & E3). unfold valid_utf8. rewrite E1, E2, E3. by rewrite bool_decide_true.
Qed.

Definition level_ok (l : Z) : bool := within 0 5 l.

Lemma level_cases l : level_ok l = true ->
  l = 0 \/ l = 1 \/ l = 2 \/ l = 3 \/ l = 4 \/ l = 5.
Proof. intros H%within_spec. lia. Qed.

Lemma Lvl_String_total l : is_Some (Lvl_String l) <-> level_ok l = true.
Proof.
  split.
  - unfold Lvl_String. intros [x H]. apply within_spec.
    repeat (case_match eqn:E; [apply Z.eqb_eq in E; cbv in E; lia|clear E]); done.
  - intros H%level_cases. by destruct H as [-> |[-> |[-> |[-> |[-> | ->]]]]]; eexists.
Qed.

Lemma AlignedString_total l : is_Some (AlignedString l) <-> level_ok l = true.
Proof.
  split.
  - unfold AlignedString. intros [x H]. apply within_spec.
    repeat (case_match eqn:E; [apply Z.eqb_eq in E; cbv in E; lia|clear E]); done.
  - intros H%level_cases. by destruct H as [-> |[-> |[-> |[-> |[-> | ->]]]]]; eexists.
Qed.

Lemma Lvl_String_plain l s : Lvl_String l = Some s -> valid_utf8 s = true.
Proof.
  intros E. assert (H : level_ok l = true) by (apply Lvl_String_total; by eexists).
  apply level_cases in H. by destruct H as [-> |[-> |[-> |[-> |[-> | ->]]]]]; injection E as <-.
Qed.

(** The entries of a whole record. *)
Definition record_entries (r : record) : option (list (bytes * bytes)) :=
  lvl ← Lvl_String (r_Lvl r);
  l ← entries false (r_Ctx r);
  Some ((k_Time (r_KeyNames r), Format_time (r_Time r)) :: (k_Lvl (r_KeyNames r), lvl) ::
        (k_Msg (r_KeyNames r), r_Msg r) :: l).

Lemma record_entries_all r : record_entries r =
  entries false ([VString (k_Time (r_KeyNames r)); VTime (r_Time r); VString (k_Lvl (r_KeyNames r));
    VLvl (r_Lvl r); VString (k_Msg (r_KeyNames r)); VString (r_Msg r)] ++ r_Ctx r).
Proof.
  unfold record_entries. cbn. destruct (Lvl_String (r_Lvl r)); cbn; [|done].
  by destruct (entries false (r_Ctx r)).
Qed.

Lemma LogfmtFormat_total r g : is_Some (LogfmtFormat r g) <-> is_Some (record_entries r).
Proof.
  unfold LogfmtFormat, logfmt.
  rewrite record_entries_all, <- (logfmt_loop_total 0 false true _ (fieldPadding g)).
  destruct (logfmt_loop _ _ _ _ _); cbn; [|done]. split; by eexists.
Qed.

Lemma LogfmtFormat_line r g l : record_entries r = Some l -> forallb clean l = true ->
  exists line g', LogfmtFormat r g = Some (line ++ [10], g') /\
    parse_line (line ++ [10]) = Some l /\ Forall (fun b => b <> 10) line /\
    wider (fieldPadding g) (fieldPadding g').
Proof.
  intros Hl Hc. rewrite record_entries_all in Hl.
  destruct (logfmt_loop_spec _ l true (fieldPadding g) Hl Hc) as (line & p' & E & [Hr Hn Hw _ _]).
  unfold LogfmtFormat, logfmt. rewrite E. eexists line, _. split; [reflexivity|]. split; [|by split].
  apply Hr. rewrite length_app. cbn. lia.
Qed.

(** A line in logfmt format is read back.  If the keys hold no space, equals sign or
    newline and the texts are UTF-8, the line that is printed parses to the names of
    time, level and message and to the keys and texts of the context, whatever
    characters the texts contain; it holds no newline but the last character, and
    the table of widths only grows.  Without these conditions the format still
    panics only for a level that does not exist, a value whose method panics or
    a context of odd length. *)
Theorem LogfmtFormat_parse r g :
  (is_Some (LogfmtFormat r g) <-> is_Some (record_entries r)) /\
  (forall l, record_entries r = Some l -> forallb clean l = true ->
   exists line g', LogfmtFormat r g = Some (line ++ [10], g') /\
     parse_line (line ++ [10]) = Some l /\ Forall (fun b => b <> 10) line /\
     wider (fieldPadding g) (fieldPadding g')).
Proof.
  split; [apply LogfmtFormat_total|]. intros l. apply LogfmtFormat_line.
Qed.

Definition ex_time : time := MkTime 2018 7 4 9 30 5 120 0.
Definition ex_call : call := MkCall 1 (str "main.go:7") (str "a/main.go:7") (str "a/main.go") (str "main").
Definition ex_record : record :=
  MkRecord ex_time LvlWarn ([34; 10] ++ str "= " ++ utf8 [0x20ac; 0x1f600]) [VString (str "n"); VInt Kint (-5)]
    ex_call (MkKeyNames timeKey msgKey lvlKey).

Lemma LogfmtFormat_parse_witness : exists line g',
  LogfmtFormat ex_record (MkGlobals false 0 ∅) = Some (line, g') /\
  parse_line line = Some [(str "t", str "2018-07-04T09:30:05+0200"); (str "lvl", str "warn");
    (str "msg", r_Msg ex_record); (str "n", str "-5")].
Proof.
  destruct (proj2 (LogfmtFormat_parse ex_record (MkGlobals false 0 ∅)) _ ltac:(vm_compute; reflexivity)
    ltac:(vm_compute; reflexivity)) as (line & g' & E & Hp & _).
  exists (line ++ [10]), g'. split; [exact E|]. rewrite Hp. vm_compute. reflexivity.
Defined.

(** The format for terminals panics in the same cases. *)
Lemma TerminalFormat_total usecolor r g :
  is_Some (TerminalFormat usecolor r g) <->
  level_ok (r_Lvl r) = true /\ is_Some (entries true (r_Ctx r)).
Proof.
  unfold TerminalFormat. rewrite <- AlignedString_total.
  destruct (AlignedString (r_Lvl r)) as [lvl|]; cbn [mbind option_bind];
    [|split; [by intros [? ?]|by intros [[? ?] _]]].
  match goal with |- context [if locationEnabled g then ?a else ?b] =>
    assert (Hh : is_Some (if locationEnabled g then a else b)) end.
  { destruct (locationEnabled g); [|by eexists]. set (loc := foldl _ _ _).
    destruct (Z.ltb_spec (locationLength g) (zlen loc)); rewrite Repeat_ok by lia; by eexists. }
  destruct Hh as [[head g'] ->]. cbn [mbind option_bind].
  match goal with |- context [if ?c && (?n <? ?m)%nat then ?a else ?b] =>
    assert (Hj : is_Some (if c && (n <? m)%nat then a else b)) end.
  { destruct (bool_decide _); [|by eexists]. destruct (Nat.ltb_spec (RuneCountInString (r_Msg r)) termMsgJust);
      [|by eexists]. rewrite Repeat_ok by lia. by eexists. }
  destruct Hj as [just ->]. cbn [mbind option_bind]. unfold logfmt.
  rewrite <- (logfmt_loop_total (level_color usecolor (r_Lvl r)) true true _ (fieldPadding g')).
  destruct (logfmt_loop _ _ _ _ _) as [[line p]|]; cbn.
  - split; [intros _; split; by eexists|intros _; by eexists].
  - split; [by intros [? ?]|by intros [_ [? ?]]].
Qed.
