(* ===== verification/Common.v ===== *)
(** * Helpers: [src/core/common]

    Sizes, file names, and where in a file a JSON error is.  The bytes of [bytes.go] are in [Hexutil.v].  What the operating
    system and the JSON decoder answer are arguments. *)

From S2P Require Import Prelude Text LogFormat.
Local Open Scope Z_scope.
#[local] Set Warnings "-register-all".

(** ** Numbers: [big.go] and [bytes.go] *)

Definition Big1 : Z := 1.
Definition Big2 : Z := 2.
Definition Big3 : Z := 3.
Definition Big0 : Z := 0.
Definition Big32 : Z := 32.
Definition Big256 : Z := 256.
Definition Big257 : Z := 257.

(** [None] is nil; the copy is a slice of its own. *)
Definition CopyBytes (b : option bytes) : option bytes :=
  match b with
  | None => None
  | Some b => Some (b ++ drop (length b) (replicate (length b) 0))
  end.

(** ** Sizes: [size.go] *)

(** [f > k] and [f / k], for a positive number [k] that is exact and a result of at least 1: the nearest number with 53
    bits. *)
Definition float_gt (f : float) (k : Z) : bool :=
  match f with
  | FNaN => false
  | FInf neg => negb neg
  | FFinite neg m e => negb neg && (if 0 <=? e then k <? m * 2 ^ e else k * 2 ^ (- e) <? m)
  end.

Definition float_div (f : float) (k : Z) : float :=
  match f with
  | FFinite neg m e =>
      let num := m * 2 ^ Z.max e 0 in
      let den := k * 2 ^ Z.max (- e) 0 in
      let at_scale (sh : Z) := round_even (num * 2 ^ Z.max sh 0) (den * 2 ^ Z.max (- sh) 0) in
      let sh := 53 - (Z.log2 num - Z.log2 den) in
      let sh := if (num * 2 ^ Z.max sh 0) / (den * 2 ^ Z.max (- sh) 0) <? 2 ^ 53 then sh else sh - 1 in
      FFinite neg (at_scale sh) (- sh)
  | _ => f
  end.

(** [fmt.Sprintf("%.2f", f)]. *)
Definition FormatFloat2 (f : float) : bytes :=
  match f with
  | FNaN => str "NaN"
  | FInf neg => if neg then str "-Inf" else str "+Inf"
  | FFinite neg m e =>
      let n := if 0 <=? e then m * 2 ^ e * 100 else round_even (m * 100) (2 ^ (- e)) in
      (if neg then str "-" else []) ++ FormatUint (n / 100) ++ str "." ++ pad10 2 (n mod 100)
  end.

Definition StorageSize_String (s : float) : bytes :=
  if float_gt s 1000000 then FormatFloat2 (float_div s 1000000) ++ str " mB"
  else if float_gt s 1000 then FormatFloat2 (float_div s 1000) ++ str " kB"
  else FormatFloat2 s ++ str " B".

Definition StorageSize_TerminalString (s : float) : bytes :=
  if float_gt s 1000000 then FormatFloat2 (float_div s 1000000) ++ str "mB"
  else if float_gt s 1000 then FormatFloat2 (float_div s 1000) ++ str "kB"
  else FormatFloat2 s ++ str "B".

(** Thresholds, and a quotient that is no binary fraction. *)
Example sizes_printed : (fun n => StorageSize_String (FFinite false n 0)) <$> [0; 1000; 1001; 1015; 1000000; 1000001; 2381273] =
  str <$> ["0.00 B"; "1000.00 B"; "1.00 kB"; "1.01 kB"; "1000.00 kB"; "1.00 mB"; "2.38 mB"]%string.
Proof. vm_compute. reflexivity. Qed.

(** ** Names: [path.go] *)

Definition MakeName (GOOS go_version name version : bytes) : bytes :=
  name ++ str "/v" ++ version ++ str "/" ++ GOOS ++ str "/" ++ go_version.

(** What [os.Stat] reports: no error, that there is no such file, or another error. *)
Inductive stat_result := StatOk | StatNotExist | StatOther.

Definition FileExist (stat : bytes -> stat_result) (filePath : bytes) : bool :=
  match stat filePath with StatNotExist => false | _ => true end.

(** [filepath.IsAbs], [filepath.Clean] and [filepath.Join] of two elements, where the separator is a slash. *)
Definition IsAbs (path : bytes) : bool := HasPrefix path (str "/").

(** The components kept so far, the last one first. *)
Fixpoint clean_loop (rooted : bool) (kept : list bytes) (comps : list bytes) : list bytes :=
  match comps with
  | [] => reverse kept
  | c :: comps =>
      clean_loop rooted
        (if bytes_eqb c [] || bytes_eqb c (str ".") then kept
         else if bytes_eqb c (str "..") then
           match kept with
           | k :: kept' => if bytes_eqb k (str "..") then c :: kept else kept'
           | [] => if rooted then [] else [c]
           end
         else c :: kept)
        comps
  end.

Fixpoint join_slash (comps : list bytes) : bytes :=
  match comps with
  | [] => []
  | [c] => c
  | c :: comps => c ++ str "/" ++ join_slash comps
  end.

Definition Clean (path : bytes) : bytes :=
  let rooted := IsAbs path in
  let body := join_slash (clean_loop rooted [] (Split 47 path)) in
  if rooted then str "/" ++ body else match body with [] => str "." | _ => body end.

Definition Join (a b : bytes) : bytes :=
  match a, b with
  | [], [] => []
  | [], _ => Clean b
  | _, _ => Clean (a ++ str "/" ++ b)
  end.

Definition AbsolutePath (datadir filename : bytes) : bytes :=
  if IsAbs filename then filename else Join datadir filename.

Example paths_joined : (fun p => AbsolutePath (str "/home/x/") (str p)) <$> ["/etc//a"; "a/./b"; "../y"; "../../../z"; ""]%string =
  str <$> ["/etc//a"; "/home/x/a/b"; "/home/y"; "/z"; "/home/x"]%string.
Proof. vm_compute. reflexivity. Qed.

(** A file name is absolute if the directory is. *)
Lemma AbsolutePath_IsAbs datadir filename : IsAbs datadir = true -> IsAbs (AbsolutePath datadir filename) = true.
Proof.
  intros Hd. unfold AbsolutePath. destruct (IsAbs filename) eqn:Hf; [done|]. destruct datadir as [|c d]; [done|].
  unfold Join, Clean. assert (H : IsAbs ((c :: d) ++ str "/" ++ filename) = true).
  { unfold IsAbs in *. cbn in *. apply andb_true_iff in Hd as [-> _]. by destruct d. }
  rewrite H. cbn. by destruct (join_slash _).
Qed.

(** ** Reading a file: [test_utils.go] *)

(** [findLine]: the loop over the runes from byte [i] on. *)
Fixpoint findLine_loop (offset i line : Z) (segs : list (Z * bytes)) : Z :=
  match segs with
  | [] => line
  | (r, b) :: segs =>
      if offset <=? i then line
      else findLine_loop offset (i + zlen b) (if r =? 10 then line + 1 else line) segs
  end.

Definition findLine (data : bytes) (offset : Z) : Z := findLine_loop offset 0 1 (segments data).

(** What [json.Unmarshal] reports: nothing, or the text of an error, with its offset if it is a syntax error. *)
Inductive json_result := JsonOk | JsonSyntax (offset : Z) (text : bytes) | JsonOther (text : bytes).

(** [LoadJSON]: the text of the error, and the value, which [Unmarshal] may have changed in part. *)
Definition LoadJSON {V} (ReadFile : bytes -> result bytes bytes) (Unmarshal : bytes -> V -> json_result * V) (file : bytes) (val : V)
    : option bytes * V :=
  match ReadFile file with
  | Err err => (Some err, val)
  | Ok content =>
      let (res, val) := Unmarshal content val in
      (match res with
       | JsonOk => None
       | JsonSyntax offset text =>
           Some (str "JSON syntax error at " ++ file ++ str ":" ++ FormatInt (findLine content offset) ++ str ": " ++ text)
       | JsonOther text => Some (str "JSON unmarshal error in " ++ file ++ str ": " ++ text)
       end, val)
  end.

(** ** The line of an offset *)

Definition newlines (s : bytes) : Z := zlen (filter (fun b => b = 10) s).

Lemma newlines_app s1 s2 : newlines (s1 ++ s2) = newlines s1 + newlines s2.
Proof. unfold newlines. rewrite filter_app, length_app. lia. Qed.

Lemma newlines_none s : Forall (fun b => 128 <= b) s -> newlines s = 0.
Proof.
  intros H. unfold newlines. induction H as [|b s Hb _ IH]; [done|]. rewrite filter_cons. by rewrite decide_False by lia.
Qed.

Lemma low6_range b : 0 <= low6 b < 64.
Proof. rewrite low6_mod. by apply Z.mod_pos_bound. Qed.

Lemma low6_cont z : 128 <= z <= 191 -> low6 z = z - 128.
Proof. intros Hz. destruct (cont_byte (z - 128)) as [_ H]; [lia|]. by replace (128 + (z - 128)) with z in H by lia. Qed.

(** A rune is a newline if its first byte is; the others are above the ASCII range, and there are as many as its width says. *)
Lemma DecodeRune_bytes b s r w : DecodeRune b s = (r, w) ->
  (r = 10 <-> b = 10) /\ (1 <= w <= S (length s))%nat /\ Forall (fun c => 128 <= c) (take (w - 1) s).
Proof.
  unfold DecodeRune, RuneError. intros E.
  destruct (Z.ltb_spec b 0x80); [injection E as <- <-; split_and!; [done|cbn; lia..|constructor]|].
  repeat case_match; simplify_eq; rewrite ?andb_true_iff, ?within_spec in *; destruct_and?; (split; [split; [|lia]|]);
    try lia; try (split; [cbn; lia|]; cbn; repeat (constructor; [unfold accept3, accept4 in *; repeat case_match; simplify_eq; lia|]); constructor).
  - destruct (lead_bits 192 (b - 192) 5) as [_ Hq]; [lia..|done|]. replace (192 + (b - 192)) with b in Hq by lia.
    change (Z.ones 5) with 31 in Hq. rewrite Hq, join64 by apply low6_range. pose proof (low6_range z). lia.
  - destruct (lead_bits 224 (b - 224) 4) as [_ Hq]; [lia..|done|]. replace (224 + (b - 224)) with b in Hq by lia.
    change (Z.ones 4) with 15 in Hq. rewrite Hq, !join64 by apply low6_range. pose proof (low6_range z0).
    unfold accept3 in *. destruct (Z.eqb_spec b 224), (Z.eqb_spec b 237); simplify_eq; rewrite (low6_cont z) by lia; lia.
  - destruct (lead_bits 240 (b - 240) 3) as [_ Hq]; [lia..|done|]. replace (240 + (b - 240)) with b in Hq by lia.
    change (Z.ones 3) with 7 in Hq. rewrite Hq, !join64 by apply low6_range. pose proof (low6_range z0). pose proof (low6_range z1).
    unfold accept4 in *. destruct (Z.eqb_spec b 240), (Z.eqb_spec b 244); simplify_eq; rewrite (low6_cont z) by lia; lia.
Qed.

Lemma findLine_from offset skip i line s : 0 <= i -> (skip <= length s)%nat -> Forall (fun c => 128 <= c) (take skip s) ->
  findLine_loop offset (i + Z.of_nat skip) line (segments_from skip s) = line + newlines (take (Z.to_nat (offset - i)) s).
Proof.
  revert skip i line. induction s as [|b s IH]; intros skip i line Hi Hk Hs.
  { destruct skip; cbn in Hk; [|lia]. rewrite take_nil, newlines_none by constructor. cbn. lia. }
  destruct skip as [|k].
  - cbn [segments_from]. destruct (DecodeRune b s) as [r w] eqn:E. destruct (DecodeRune_bytes b s r w E) as (Hr & Hw & Hhigh).
    cbn [findLine_loop]. rewrite Z.add_0_r. destruct (Z.leb_spec offset i).
    { replace (Z.to_nat (offset - i)) with 0%nat by lia. cbn [take]. rewrite newlines_none by constructor. lia. }
    replace (Z.to_nat (offset - i)) with (S (Z.to_nat (offset - (i + 1)))) by lia.
    assert (Hlen : length (take w (b :: s)) = w) by (rewrite length_take; cbn; lia). rewrite Hlen.
    replace (i + Z.of_nat w) with (i + 1 + Z.of_nat (w - 1)) by lia. rewrite IH by (done || lia).
    cbn [take]. change (b :: take ?n s) with ([b] ++ take n s). rewrite newlines_app.
    assert (Hb : newlines [b] = if b =? 10 then 1 else 0) by (unfold newlines; rewrite filter_cons; destruct (Z.eqb_spec b 10); by case_decide).
    rewrite Hb. destruct (Z.eqb_spec r 10), (Z.eqb_spec b 10); try lia; tauto.
  - cbn [segments_from]. cbn [take] in Hs. apply Forall_cons in Hs as [Hb Hs]. cbn [length] in Hk.
    replace (i + Z.of_nat (S k)) with (i + 1 + Z.of_nat k) by lia. rewrite IH by (done || lia). f_equal.
    destruct (decide (offset <= i)); [by replace (Z.to_nat (offset - i)) with 0%nat by lia; replace (Z.to_nat (offset - (i + 1))) with 0%nat by lia|].
    replace (Z.to_nat (offset - i)) with (S (Z.to_nat (offset - (i + 1)))) by lia. cbn [take].
    change (b :: take ?n s) with ([b] ++ take n s). rewrite newlines_app, (newlines_none [b]); [done|]. by constructor.
Qed.

(** The line of an offset is one more than the number of newlines before it, whatever the bytes of the file are: a newline is never
    part of a longer rune. *)
Theorem findLine_newlines data offset : findLine data offset = 1 + newlines (take (Z.to_nat offset) data).
Proof.
  unfold findLine, segments. rewrite <- (Z.sub_0_r offset) at 2. change 0 with (0 + Z.of_nat 0) at 1.
  by rewrite findLine_from by (done || lia || constructor).
Qed.
