(* ===== verification/LogHandler.v ===== *)
(** * Log handlers and loggers: [src/log/handler.go], [src/log/handler_glog.go],
    [src/log/handler_go14.go], [src/log/syslog.go], [src/log/logger.go] and [src/log/root.go]

    A handler is a closure: it is represented by the function that made it and what
    it has captured, and [Log] says what the closure does.  Handlers that are
    changed after they were made, those of [swapHandler] and [GlogHandler], are
    pointers into the state, as are channels.  A record is passed by pointer: [Log] returns
    the record as the handler leaves it.  The mutex of [SyncHandler] is free again after
    every call and is left out.  A writer, a file, connection or system log, is a number; opening
    them is in [LogSinks.v]. *)

From S2P Require Import Prelude Text LogFormat.
Local Open Scope Z_scope.
#[local] Set Warnings "-register-all".

(** ** State *)

Inductive handler :=
| WriteHandler (wr : nat) (fmtr : format)
| SyncHandler (h : handler)
| LazyHandler (h : handler)
| CallerFileHandler (h : handler)
| CallerFuncHandler (h : handler)
| CallerStackHandler (format : bytes) (h : handler)
| FilterHandler (fn : record -> option bool) (h : handler)
| MultiHandler (hs : list handler)
| FailoverHandler (hs : list handler)
| ChannelHandler (recs : nat)
| DiscardHandler
| swapHandler (p : nat)
| GlogAt (p : nat)
| closingHandler (wr : nat) (h : handler)
| SysWriteHandler (sysWr : nat) (fmtr : format).

(** The regular expressions that [Vmodule] puts together, piece by piece: anything but a
    newline; optionally a slash and anything; a quoted text; one or more characters other
    than a slash. *)
Inductive piece := Any | OptSlash | Lit (s : bytes) | NoSlash.

(** [regexp.Compile] returns nil for a text that is not UTF-8. *)
Record pattern := MkPattern { p_pattern : option (list piece); p_level : Z }.

(** [siteCache] is nil at first. *)
Record GlogHandler := MkGlog {
  origin : handler; level : Z; override : Z; backtrace : Z; patterns : list pattern;
  siteCache : option (gmap Z Z); location : bytes }.

(** [Exit] ends the program. *)
Inductive halt := Panic | Blocked | OutOfFuel | Exit.

(** The methods of a writer to the system log. *)
Inductive severity := SysCrit | SysErr | SysWarning | SysInfo | SysDebug.

(** What the package relies on: writers with a state of their own, and what is printed of
    the stack and of a list of values. *)
Class Env (U : Type) := {
  Write : nat -> bytes -> U -> option bytes * U;
  Syslog : nat -> severity -> bytes -> U -> option bytes * U;
  Sprint_values : list value -> bytes;
  trim_stack : call -> value -> value;
  stack_text : bytes -> call -> option bytes;
  all_stacks : bytes }.

Record world (U : Type) := MkWorld {
  w_globals : globals; w_ext : U; w_swap : gmap nat handler; w_glog : gmap nat GlogHandler;
  w_chan : gmap nat (nat * list record) }.
Arguments MkWorld {U} _ _ _ _ _.
Arguments w_globals {U} _.
Arguments w_ext {U} _.
Arguments w_swap {U} _.
Arguments w_glog {U} _.
Arguments w_chan {U} _.

(** ** Regular expressions *)

(** [k] holds at some place after bytes that satisfy [ok]. *)
Fixpoint after_any (ok : Z -> bool) (k : bytes -> bool) (s : bytes) : bool :=
  k s || match s with [] => false | c :: s' => ok c && after_any ok k s' end.

Definition not_newline (c : Z) : bool := negb (c =? 10).
Definition not_slash (c : Z) : bool := negb (c =? 47).

(** The pieces match the whole of [s]: the expression ends with [$]. *)
Fixpoint match_pieces (rx : list piece) (s : bytes) : bool :=
  match rx with
  | [] => bool_decide (s = [])
  | Any :: rx => after_any not_newline (match_pieces rx) s
  | OptSlash :: rx =>
      match_pieces rx s ||
      match s with
      | c :: s' => (c =? 47) && after_any not_newline (match_pieces rx) s'
      | [] => false
      end
  | Lit l :: rx => HasPrefix s l && match_pieces rx (drop (length l) s)
  | NoSlash :: rx =>
      match s with
      | c :: s' => not_slash c && after_any not_slash (match_pieces rx) s'
      | [] => false
      end
  end.

(** [MatchString] finds a match anywhere. *)
Definition MatchString (rx : list piece) (s : bytes) : bool :=
  after_any (fun _ => true) (match_pieces rx) s.

(** ** [GlogHandler] *)

Definition NewGlogHandler (h : handler) : GlogHandler := MkGlog h 0 0 0 [] None [].

Definition Verbosity (lvl : Z) (h : GlogHandler) : GlogHandler :=
  MkGlog (origin h) (u32 lvl) (override h) (backtrace h) (patterns h) (siteCache h) (location h).

Definition go_suffix : bytes := str ".go".

(** The pieces for the components of a pattern. *)
Definition component (comp : bytes) : list piece :=
  if bytes_eqb comp (str "*") then [OptSlash]
  else if bytes_eqb comp [] then []
  else [Lit (str "/" ++ comp)].

Definition matcher (pat : bytes) : list piece :=
  [Any] ++ flat_map component (Split 47 pat) ++
  (if HasSuffix pat go_suffix then [] else [Lit (str "/"); NoSlash; Lit go_suffix]).

(** One rule: an error, nothing for a level that is not positive, or a pattern. *)
Definition vmodule_rule (rule : bytes) : result unit (option pattern) :=
  match Split 61 rule with
  | [p0; p1] =>
      let p0 := TrimSpace p0 in
      let p1 := TrimSpace p1 in
      if bytes_eqb p0 [] || bytes_eqb p1 [] then Err tt
      else match Atoi p1 with
           | None => Err tt
           | Some lvl =>
               if lvl <=? 0 then Ok None
               else Ok (Some (MkPattern (if valid_utf8 p0 then Some (matcher p0) else None) lvl))
           end
  | _ => Err tt
  end.

Fixpoint vmodule_rules (rules : list bytes) : result unit (list pattern) :=
  match rules with
  | [] => Ok []
  | rule :: rules =>
      if bytes_eqb rule [] then vmodule_rules rules
      else
        p ← vmodule_rule rule;
        ps ← vmodule_rules rules;
        Ok match p with Some p => p :: ps | None => ps end
  end.

(** Whether there is no error, and the handler. *)
Definition Vmodule (ruleset : bytes) (h : GlogHandler) : bool * GlogHandler :=
  match vmodule_rules (Split 44 ruleset) with
  | Err _ => (false, h)
  | Ok filter =>
      (true, MkGlog (origin h) (level h) (u32 (zlen filter)) (backtrace h) filter (Some ∅) (location h))
  end.

Definition BacktraceAt (loc : bytes) (h : GlogHandler) : bool * GlogHandler :=
  match Split 58 loc with
  | [p0; p1] =>
      let p0 := TrimSpace p0 in
      let p1 := TrimSpace p1 in
      if bytes_eqb p0 [] || bytes_eqb p1 [] then (false, h)
      else if negb (HasSuffix p0 go_suffix) then (false, h)
      else match Atoi p1 with
           | None => (false, h)
           | Some _ =>
               (true, MkGlog (origin h) (level h) (override h) (u32 (zlen loc)) (patterns h)
                        (siteCache h) loc)
           end
  | _ => (false, h)
  end.

(** The first rule that matches; a rule without an expression panics. *)
Fixpoint first_rule (ps : list pattern) (path : bytes) : result halt (option Z) :=
  match ps with
  | [] => Ok None
  | p :: ps =>
      match p_pattern p with
      | None => Err Panic
      | Some rx => if MatchString rx path then Ok (Some (p_level p)) else first_rule ps path
      end
  end.

Definition set_cache (c : gmap Z Z) (h : GlogHandler) : GlogHandler :=
  MkGlog (origin h) (level h) (override h) (backtrace h) (patterns h) (Some c) (location h).

(** The level of a call site, from the cache or from the rules; and the handler with the
    cache.  Writing into a nil map panics. *)
Definition site_level (h : GlogHandler) (c : call) : result halt (Z * GlogHandler) :=
  match siteCache h ≫= fun m => m !! c_PC c with
  | Some lvl => Ok (lvl, h)
  | None =>
      found ← first_rule (patterns h) (c_plus_s c);
      let lvl := default 0 found in
      match siteCache h with
      | None => Err Panic
      | Some m => Ok (lvl, set_cache (<[c_PC c := lvl]> m) h)
      end
  end.

(** ** Handlers *)

Definition append_ctx (k : bytes) (v : value) (r : record) : record :=
  set_ctx (r_Ctx r ++ [VString k; v]) r.

(** An error as a value. *)
Definition err_value (text : bytes) : value := VObj (MkObj 0 (Some 0) None (Some (Some text)) false text).

Definition LvlFilterHandler (maxLvl : Z) (h : handler) : handler :=
  FilterHandler (fun r => Some (r_Lvl r <=? maxLvl)) h.

Definition float_eqb (a b : float) : bool :=
  match a, b with
  | FInf n1, FInf n2 => eqb n1 n2
  | FFinite n1 m1 e1, FFinite n2 m2 e2 =>
      let lo := Z.min e1 e2 in
      (m1 * 2 ^ (e1 - lo) =? m2 * 2 ^ (e2 - lo)) && (eqb n1 n2 || (m1 =? 0))
  | _, _ => false
  end.

(** [==] of two interface values; functions and objects without equality panic. *)
Definition iface_eq (a b : value) : option bool :=
  match a, b with
  | VNil, VNil => Some true
  | VTime t1, VTime t2 => Some (t_repr t1 =? t_repr t2)
  | VBool b1, VBool b2 => Some (eqb b1 b2)
  | VFloat k1 f1, VFloat k2 f2 => Some ((k1 =? k2) && float_eqb f1 f2)
  | VInt k1 z1, VInt k2 z2 => Some (bool_decide (k1 = k2) && (z1 =? z2))
  | VString s1, VString s2 => Some (bytes_eqb s1 s2)
  | VLvl l1, VLvl l2 => Some (l1 =? l2)
  | VLazy FnNil, VLazy FnNil => Some true
  | VLazy FnNil, VLazy _ | VLazy _, VLazy FnNil => Some false
  | VLazy _, VLazy _ => None
  | VObj o1, VObj o2 =>
      if o_type o1 =? o_type o2 then
        match o_val o1, o_val o2 with Some v1, Some v2 => Some (v1 =? v2) | _, _ => None end
      else Some false
  | _, _ => Some false
  end.

Fixpoint match_ctx (key : bytes) (v : value) (ctx : list value) : option bool :=
  match ctx with
  | [] => Some false
  | k :: ctx' =>
      same ← iface_eq k (VString key);
      match ctx' with
      | [] => if (same : bool) then None else Some false
      | x :: ctx'' => if (same : bool) then iface_eq x v else match_ctx key v ctx''
      end
  end.

Definition MatchFilterHandler (key : bytes) (v : value) (h : handler) : handler :=
  FilterHandler (fun r =>
    if bytes_eqb key (k_Lvl (r_KeyNames r)) then iface_eq (VLvl (r_Lvl r)) v
    else if bytes_eqb key (k_Time (r_KeyNames r)) then iface_eq (VTime (r_Time r)) v
    else if bytes_eqb key (k_Msg (r_KeyNames r)) then iface_eq (VString (r_Msg r)) v
    else match_ctx key v (r_Ctx r)) h.

Definition StreamHandler (wr : nat) (fmtr : format) : handler :=
  LazyHandler (SyncHandler (WriteHandler wr fmtr)).

Section Handlers.
Context `{HE : Env U}.

Definition M (A : Type) : Type := world U -> result halt (A * world U).
#[global] Instance M_ret : MRet M := fun A a w => Ok (a, w).
#[global] Instance M_bind : MBind M :=
  fun A B f m w => match m w with Ok (a, w') => f a w' | Err e => Err e end.
Definition stop {A} (e : halt) : M A := fun _ => Err e.

(** [None]: the function panics. *)
Definition evaluateLazy (fn : lazy_fn) : option (result bytes value) :=
  match fn with
  | FnNil => None
  | NotFunc text => Some (Err (str "INVALID_LAZY, not func: " ++ text))
  | Func text numIn numOut results =>
      if (0 <? numIn)%nat then Some (Err (str "INVALID_LAZY, func takes args: " ++ text))
      else if (numOut =? 0)%nat then Some (Err (str "INVALID_LAZY, no func return val: " ++ text))
      else
        results ← results;
        Some (Ok match results with
                 | [v] => v
                 | values => VObj (MkObj 1 None None None false (Sprint_values values))
                 end)
  end.

(** The values of the context, and [hadErr]. *)
Fixpoint lazy_loop (c : call) (ctx : list value) : option (list value * bool) :=
  match ctx with
  | k :: v :: ctx' =>
      x ← match v with
          | VLazy fn =>
              res ← evaluateLazy fn;
              Some match res with
                   | Err e => (err_value e, true)
                   | Ok v => (trim_stack c v, false)
                   end
          | _ => Some (v, false)
          end;
      rest ← lazy_loop c ctx';
      Some (k :: x.1 :: rest.1, x.2 || rest.2)
  | _ => Some (ctx, false)
  end.

Definition lazy_record (r : record) : option record :=
  res ← lazy_loop (r_Call r) (r_Ctx r);
  let r := set_ctx res.1 r in
  Some (if res.2 : bool then append_ctx errorKey (VString (str "bad lazy")) r else r).

Definition write_record (wr : nat) (fmtr : format) (r : record) : M (option bytes) := fun w =>
  match fmtr r (w_globals w) with
  | None => Err Panic
  | Some (b, g) =>
      let (err, u) := Write wr b (w_ext w) in
      Ok (err, MkWorld g u (w_swap w) (w_glog w) (w_chan w))
  end.

Definition send (c : nat) (r : record) : M unit := fun w =>
  match w_chan w !! c with
  | None => Err Blocked
  | Some (size, recs) =>
      if (length recs <? size)%nat
      then Ok (tt, MkWorld (w_globals w) (w_ext w) (w_swap w) (w_glog w)
                     (<[c := (size, recs ++ [r])]> (w_chan w)))
      else Err Blocked
  end.

(** What a handler returns: the error, and the record it leaves. *)
Abbreviation logged := (option bytes * record)%type.

Fixpoint multi_loop (log : handler -> record -> M logged) (hs : list handler) (r : record)
    : M logged :=
  match hs with
  | [] => mret (None, r)
  | h :: hs => '(_, r) ← log h r; multi_loop log hs r
  end.

Fixpoint failover_loop (log : handler -> record -> M logged) (i : Z) (err : option bytes)
    (hs : list handler) (r : record) : M logged :=
  match hs with
  | [] => mret (err, r)
  | h :: hs =>
      '(err, r) ← log h r;
      match err with
      | None => mret (None, r)
      | Some e =>
          failover_loop log (i + 1) err hs
            (append_ctx (str "failover_err_" ++ FormatInt i) (err_value e) r)
      end
  end.

(** The backtrace that is asked for. *)
Definition glog_record (h : GlogHandler) (r : record) : record :=
  if (0 <? backtrace h) && bytes_eqb (location h) (c_v (r_Call r))
  then MkRecord (r_Time r) LvlInfo (r_Msg r ++ [10; 10] ++ all_stacks) (r_Ctx r) (r_Call r) (r_KeyNames r)
  else r.

(** The handler after the call, and whether the record goes on to [origin]. *)
Definition glog_filter (h : GlogHandler) (r : record) : result halt (bool * GlogHandler) :=
  if u32 (r_Lvl r) <=? level h then Ok (true, h)
  else if override h =? 0 then Ok (false, h)
  else '(lvl, h) ← site_level h (r_Call r); Ok (r_Lvl r <=? lvl, h).

Definition glog_log (log : handler -> record -> M logged) (p : nat) (r : record) : M logged := fun w =>
  match w_glog w !! p with
  | None => Err Panic
  | Some h =>
      let r := glog_record h r in
      match glog_filter h r with
      | Err e => Err e
      | Ok (pass, h) =>
          let w := MkWorld (w_globals w) (w_ext w) (w_swap w) (<[p := h]> (w_glog w)) (w_chan w) in
          if pass then log (origin h) r w else Ok ((None, r), w)
      end
  end.

(** [syslogFn]; nothing is written for the level of traces. *)
Definition syslogFn (sysWr : nat) (lvl : Z) (s : bytes) (u : U) : option bytes * U :=
  if lvl =? LvlCrit then Syslog sysWr SysCrit s u
  else if lvl =? LvlError then Syslog sysWr SysErr s u
  else if lvl =? LvlWarn then Syslog sysWr SysWarning s u
  else if lvl =? LvlInfo then Syslog sysWr SysInfo s u
  else if lvl =? LvlDebug then Syslog sysWr SysDebug s u
  else if lvl =? LvlTrace then (None, u)
  else Syslog sysWr SysInfo s u.

Definition syslog_log (sysWr : nat) (fmtr : format) (r : record) : M logged := fun w =>
  match fmtr r (w_globals w) with
  | None => Err Panic
  | Some (b, g) =>
      let (err, u) := syslogFn sysWr (r_Lvl r) (TrimSpace b) (w_ext w) in
      Ok ((err, r), MkWorld g u (w_swap w) (w_glog w) (w_chan w))
  end.

(** What the closures do; [log] is the call of another handler. *)
Section Closures.
Context (log : handler -> record -> M logged).

Definition stream_log (wr : nat) (fmtr : format) (r : record) : M logged :=
  err ← write_record wr fmtr r; mret (err, r).
Definition sync_log (h : handler) (r : record) : M logged := log h r.
Definition lazy_log (h : handler) (r : record) : M logged :=
  match lazy_record r with None => stop Panic | Some r => log h r end.
Definition callerFile_log (h : handler) (r : record) : M logged :=
  log h (append_ctx (str "caller") (VString (c_v (r_Call r))) r).
Definition callerFunc_log (h : handler) (r : record) : M logged :=
  log h (append_ctx (str "fn") (VString (c_plus_n (r_Call r))) r).
Definition callerStack_log (format : bytes) (h : handler) (r : record) : M logged :=
  log h
    match stack_text format (r_Call r) with
    | Some text => append_ctx (str "stack") (VString text) r
    | None => r
    end.
Definition filter_log (fn : record -> option bool) (h : handler) (r : record) : M logged :=
  match fn r with
  | None => stop Panic
  | Some true => log h r
  | Some false => mret (None, r)
  end.
Definition channel_log (recs : nat) (r : record) : M logged := _ ← send recs r; mret (None, r).
Definition discard_log (r : record) : M logged := mret (None, r).
Definition closing_log (h : handler) (r : record) : M logged := log h r.
Definition swap_log (p : nat) (r : record) : M logged := fun w =>
  match w_swap w !! p with None => Err Panic | Some h => log h r w end.

End Closures.

Fixpoint Log (fuel : nat) (h : handler) (r : record) : M logged :=
  match fuel with
  | O => stop OutOfFuel
  | S fuel =>
      match h with
      | WriteHandler wr fmtr => stream_log wr fmtr r
      | SyncHandler h => sync_log (Log fuel) h r
      | LazyHandler h => lazy_log (Log fuel) h r
      | CallerFileHandler h => callerFile_log (Log fuel) h r
      | CallerFuncHandler h => callerFunc_log (Log fuel) h r
      | CallerStackHandler format h => callerStack_log (Log fuel) format h r
      | FilterHandler fn h => filter_log (Log fuel) fn h r
      | MultiHandler hs => multi_loop (Log fuel) hs r
      | FailoverHandler hs => failover_loop (Log fuel) 0 None hs r
      | ChannelHandler c => channel_log c r
      | DiscardHandler => discard_log r
      | swapHandler p => swap_log (Log fuel) p r
      | GlogAt p => glog_log (Log fuel) p r
      | closingHandler _ h => closing_log (Log fuel) h r
      | SysWriteHandler sysWr fmtr => syslog_log sysWr fmtr r
      end
  end.

(** One turn of the goroutine of [BufferedHandler]: the oldest record goes to [h]. *)
Definition buffered_turn (fuel : nat) (c : nat) (h : handler) : M unit := fun w =>
  match w_chan w !! c with
  | Some (size, m :: recs) =>
      match Log fuel h m (MkWorld (w_globals w) (w_ext w) (w_swap w) (w_glog w)
                            (<[c := (size, recs)]> (w_chan w))) with
      | Ok (_, w) => Ok (tt, w)
      | Err e => Err e
      end
  | _ => Err Blocked
  end.

(** ** Loggers *)

(** A logger has its context and a [swapHandler] of its own. *)
Record logger := MkLogger { l_ctx : list value; l_h : nat }.

(** The expansion of a single [Ctx] map is its entries in some order. *)
Inductive args := Args (l : list value) | ArgsCtx (entries : list (bytes * value)).

Definition toArray (entries : list (bytes * value)) : list value :=
  flat_map (fun kv => [VString kv.1; kv.2]) entries.

Definition normalize (a : args) : list value :=
  let ctx := match a with Args l => l | ArgsCtx es => toArray es end in
  if Nat.odd (length ctx)
  then ctx ++ [VNil; VString errorKey; VString (str "Normalized odd number of arguments by adding nil")]
  else ctx.

Definition newContext (prefix : list value) (suffix : args) : list value :=
  prefix ++ normalize suffix.

(** [now] and [caller] are [time.Now()] and [stack.Caller(2)]. *)
Definition logger_write (fuel : nat) (now : time) (caller : call) (l : logger) (msg : bytes) (lvl : Z)
    (ctx : args) : M unit :=
  _ ← Log fuel (swapHandler (l_h l))
        (MkRecord now lvl msg (newContext (l_ctx l) ctx) caller (MkKeyNames timeKey msgKey lvlKey));
  mret tt.

(** The methods for the levels; [Crit] ends the program. *)
Definition Trace fuel now caller l msg ctx : M unit := logger_write fuel now caller l msg LvlTrace ctx.
Definition Debug fuel now caller l msg ctx : M unit := logger_write fuel now caller l msg LvlDebug ctx.
Definition Info fuel now caller l msg ctx : M unit := logger_write fuel now caller l msg LvlInfo ctx.
Definition Warn fuel now caller l msg ctx : M unit := logger_write fuel now caller l msg LvlWarn ctx.
Definition Error fuel now caller l msg ctx : M unit := logger_write fuel now caller l msg LvlError ctx.
Definition Crit fuel now caller l msg ctx : M unit :=
  _ ← logger_write fuel now caller l msg LvlCrit ctx; stop Exit.

(** The methods of [swapHandler]; nothing was stored before the first [Swap]. *)
Definition Swap (p : nat) (newHandler : handler) : M unit := fun w =>
  Ok (tt, MkWorld (w_globals w) (w_ext w) (<[p := newHandler]> (w_swap w)) (w_glog w) (w_chan w)).
Definition Get (p : nat) : M handler := fun w =>
  match w_swap w !! p with None => Err Panic | Some h => Ok (h, w) end.

Definition SetHandler (l : logger) (h : handler) : M unit := Swap (l_h l) h.
Definition GetHandler (l : logger) : M handler := Get (l_h l).

(** [new(swapHandler)] is a pointer that is not in use. *)
Definition logger_New (l : logger) (ctx : args) : M logger := fun w =>
  let child := MkLogger (newContext (l_ctx l) ctx) (fresh (dom (w_swap w))) in
  (_ ← SetHandler child (swapHandler (l_h l)); mret child) w.

(** The root logger at the start of the program. *)
Definition root : logger := MkLogger [] 0.
Definition root_swap : gmap nat handler := {[0%nat := DiscardHandler]}.

(** The functions of the package, which write with the root logger. *)
Definition log_New (ctx : args) : M logger := logger_New root ctx.
Definition log_Trace fuel now caller msg ctx : M unit := logger_write fuel now caller root msg LvlTrace ctx.
Definition log_Debug fuel now caller msg ctx : M unit := logger_write fuel now caller root msg LvlDebug ctx.
Definition log_Info fuel now caller msg ctx : M unit := logger_write fuel now caller root msg LvlInfo ctx.
Definition log_Warn fuel now caller msg ctx : M unit := logger_write fuel now caller root msg LvlWarn ctx.
Definition log_Error fuel now caller msg ctx : M unit := logger_write fuel now caller root msg LvlError ctx.
Definition log_Crit fuel now caller msg ctx : M unit :=
  _ ← logger_write fuel now caller root msg LvlCrit ctx; stop Exit.

End Handlers.
