(* ===== verification/GlogSpec.v ===== *)
(** * Filtering by verbosity: properties of [src/log/handler_glog.go]

    Which paths a pattern of [Vmodule] matches, and which records pass the
    handler, whatever its cache of call sites holds. *)

From S2P Require Import Prelude Text LogFormat LogFormatSpec LogHandler.
Local Open Scope Z_scope.

(** ** The language of a pattern *)

Section Patterns.

(** What the pieces of an expression stand for. *)
Fixpoint denotes (rx : list piece) (s : bytes) : Prop :=
  match rx with
  | [] => s = []
  | Any :: rx => exists a b, s = a ++ b /\ (10 ∉ a) /\ denotes rx b
  | OptSlash :: rx => denotes rx s \/ exists a b, s = [47] ++ a ++ b /\ (10 ∉ a) /\ denotes rx b
  | Lit l :: rx => exists b, s = l ++ b /\ denotes rx b
  | NoSlash :: rx => exists a b, s = a ++ b /\ a <> [] /\ (47 ∉ a) /\ denotes rx b
  end.

Lemma after_any_spec ok k s :
  after_any ok k s = true <-> exists a b, s = a ++ b /\ forallb ok a = true /\ k b = true.
Proof.
  induction s as [|c s IH]; cbn [after_any]; rewrite orb_true_iff.
  - split.
    + intros [Hk|[=]]. by exists [], [].
    + intros (a & b & E & _ & Hk). apply eq_sym, app_nil in E as [-> ->]. by left.
  - rewrite andb_true_iff, IH. split.
    + intros [Hk|(Hc & a & b & -> & Ha & Hk)]; [by exists [], (c :: s)|].
      exists (c :: a), b. cbn. by rewrite Hc.
    + intros ([|c' a] & b & E & Ha & Hk); cbn in *; [left; by subst|right].
      injection E as <- ->. apply andb_prop in Ha as [Hc Ha]. split; [done|]. by exists a, b.
Qed.

Lemma HasPrefix_spec s l : HasPrefix s l = true <-> exists b, s = l ++ b.
Proof.
  revert s. induction l as [|c l IH]; intros s.
  - split; [by exists s|]. by destruct s.
  - destruct s as [|d s]; [split; [done|]; by intros [b [=]]|]. cbn [HasPrefix].
    rewrite andb_true_iff, Z.eqb_eq, IH. split.
    + intros [-> [b ->]]. by exists b.
    + intros [b [= <- ->]]. split; [done|]. by exists b.
Qed.

Lemma no_byte c a : forallb (fun x => negb (x =? c)) a = true <-> c ∉ a.
Proof.
  induction a as [|x a IH]; cbn [forallb]; [split; [intros _; apply not_elem_of_nil|done]|].
  rewrite andb_true_iff, IH, not_elem_of_cons, negb_true_iff, Z.eqb_neq.
  split; (intros [H1 H2]; split; [congruence|exact H2]).
Qed.

(** The matcher decides the language. *)
Lemma match_pieces_spec rx s : match_pieces rx s = true <-> denotes rx s.
Proof.
  revert s. induction rx as [|[| |l|] rx IH]; intros s; cbn [match_pieces denotes].
  - by rewrite bool_decide_eq_true.
  - rewrite after_any_spec. setoid_rewrite no_byte. by setoid_rewrite IH.
  - rewrite orb_true_iff, IH. apply or_iff_compat_l. destruct s as [|c s].
    + split; [done|]. by intros (a & b & [=] & _).
    + rewrite andb_true_iff, Z.eqb_eq, after_any_spec. setoid_rewrite no_byte. setoid_rewrite IH. split.
      * intros (-> & a & b & -> & Ha & Hb). by exists a, b.
      * intros (a & b & [= -> ->] & Ha & Hb). split; [done|]. by exists a, b.
  - rewrite andb_true_iff, IH, HasPrefix_spec. split.
    + intros [[b ->] Hb]. exists b. by rewrite drop_app_length in Hb.
    + intros (b & -> & Hb). rewrite drop_app_length. split; [by exists b|done].
  - destruct s as [|c s].
    + split; [done|]. intros (a & b & E & Hne & _). by apply eq_sym, app_nil in E as [-> _].
    + rewrite andb_true_iff, after_any_spec. setoid_rewrite no_byte. setoid_rewrite IH. split.
      * intros (Hc & a & b & -> & Ha & Hb). exists (c :: a), b. split_and!; try done.
        apply not_elem_of_cons. split; [|done]. by apply negb_true_iff, Z.eqb_neq in Hc.
      * intros ([|c' a] & b & E & Hne & Ha & Hb); [done|]. injection E as <- ->.
        apply not_elem_of_cons in Ha as [Hc Ha]. split; [|by exists a, b].
        apply negb_true_iff, Z.eqb_neq. done.
Qed.

(** [MatchString] of an expression that begins with any text is a match at the end
    of the path. *)
Lemma MatchString_any rx s :
  MatchString (Any :: rx) s = true <-> exists a b, s = a ++ b /\ denotes rx b.
Proof.
  unfold MatchString. rewrite after_any_spec. setoid_rewrite match_pieces_spec. cbn [denotes]. split.
  - intros (a & b & -> & _ & a' & b' & -> & _ & Hb). exists (a ++ a'), b'. by rewrite app_assoc.
  - intros (a & b & -> & Hb). exists a, b. split; [done|]. split; [by apply forallb_forall|].
    exists [], b. split; [done|]. split; [apply not_elem_of_nil|done].
Qed.

(** A component of a pattern is a text without a slash. *)
Lemma Split_one c s : c ∉ s -> Split c s = [s].
Proof.
  induction s as [|x s IH]; [done|]. rewrite not_elem_of_cons. intros [Hx Hs]. cbn [Split].
  rewrite (proj2 (Z.eqb_neq x c)) by congruence. by rewrite IH.
Qed.

Lemma Split_app c s t : c ∉ s -> Split c (s ++ c :: t) = s :: Split c t.
Proof.
  induction s as [|x s IH]; cbn [app Split]; [by rewrite Z.eqb_refl|]. rewrite not_elem_of_cons.
  intros [Hx Hs]. rewrite (proj2 (Z.eqb_neq x c)) by congruence. by rewrite IH.
Qed.

(** A name that is neither empty nor a star. *)
Definition name (s : bytes) : Prop := (47 ∉ s) /\ s <> [] /\ s <> str "*".

Lemma component_name s : name s -> component s = [Lit (str "/" ++ s)].
Proof.
  intros (_ & Hne & Hs). unfold component, bytes_eqb. by rewrite !bool_decide_false.
Qed.

End Patterns.

(** The forms of patterns that the documentation of [Vmodule] names.  A file name with
    its suffix matches the files of that name; a name matches the Go files of the directories
    of that name; and a name followed by a star also matches all files below them. *)
Theorem matcher_patterns pat path (Hn : name pat) :
  (HasSuffix pat go_suffix = true ->
   (MatchString (matcher pat) path = true <-> exists dir, path = dir ++ str "/" ++ pat)) /\
  (HasSuffix pat go_suffix = false ->
   (MatchString (matcher pat) path = true <->
    exists dir file, path = dir ++ str "/" ++ pat ++ str "/" ++ file ++ go_suffix /\
      file <> [] /\ 47 ∉ file)) /\
  (MatchString (matcher (pat ++ str "/*")) path = true <->
   exists dir sub file, path = dir ++ str "/" ++ pat ++ sub ++ str "/" ++ file ++ go_suffix /\
     (sub = [] \/ exists s, sub = str "/" ++ s /\ 10 ∉ s) /\ file <> [] /\ 47 ∉ file).
Proof.
  pose proof Hn as (Hs & _ & _). unfold matcher. rewrite Split_one by done.
  change (str "/*") with (47 :: str "*"). rewrite Split_app by done.
  change (Split 47 (str "*")) with [str "*"]. cbn [flat_map].
  change (component (str "*")) with [OptSlash]. rewrite component_name by done.
  assert (Hst : HasSuffix (pat ++ 47 :: str "*") go_suffix = false).
  { unfold HasSuffix. rewrite reverse_app. done. }
  rewrite Hst. cbn [app]. split; [|split].
  - intros ->. cbn [app]. rewrite MatchString_any. cbn [denotes]. split.
    + intros (a & b & -> & c & -> & ->). exists a. by rewrite app_nil_r.
    + intros [dir ->]. exists dir, (str "/" ++ pat). split; [done|]. exists []. by rewrite app_nil_r.
  - intros ->. rewrite MatchString_any. cbn [denotes]. split.
    + intros (a & b & -> & c & -> & d & -> & f & g & -> & Hne & Hf & e & -> & ->).
      exists a, f. by rewrite app_nil_r, <- !app_assoc.
    + intros (dir & file & -> & Hne & Hf). eexists dir, _. split; [reflexivity|].
      eexists. split; [by rewrite app_assoc|]. eexists. split; [reflexivity|].
      eexists file, _. split; [reflexivity|]. split_and!; try done. exists []. done.
  - rewrite MatchString_any. cbn [denotes]. split.
    + intros (a & b & -> & c & -> & Hc). destruct Hc as [Hc|(s & b' & -> & Hs10 & Hc)];
        destruct Hc as (d & -> & f & g & -> & Hne & Hf & e & -> & ->).
      * exists a, [], f. rewrite app_nil_r, <- !app_assoc. split_and!; try done. by left.
      * exists a, (str "/" ++ s), f. rewrite app_nil_r, <- !app_assoc. split_and!; try done. right. by exists s.
    + intros (dir & sub & file & -> & Hsub & Hne & Hf). eexists dir, _. split; [reflexivity|].
      eexists. split; [by rewrite app_assoc|].
      assert (Hend : exists b, str "/" ++ file ++ go_suffix = str "/" ++ b /\ exists a b', b = a ++ b' /\
        a <> [] /\ (47 ∉ a) /\ exists b'', b' = go_suffix ++ b'' /\ b'' = []).
      { eexists. split; [reflexivity|]. exists file, go_suffix. split_and!; try done. by exists []. }
      destruct Hsub as [-> |(s & -> & Hs10)]; [by left|right].
      exists s, (str "/" ++ file ++ go_suffix). split; [by rewrite <- app_assoc|]. by split.
Qed.

Lemma matcher_patterns_witness :
  MatchString (matcher (str "core/*")) (str "go-hashgrid/core/hexutil/json.go") = true.
Proof.
  apply (matcher_patterns (str "core") (str "go-hashgrid/core/hexutil/json.go")).
  - split; [by rewrite <- no_byte|done].
  - exists (str "go-hashgrid"), (str "/hexutil"), (str "json"). split; [reflexivity|].
    split; [right; exists (str "hexutil"); split; [reflexivity|by rewrite <- no_byte]|].
    split; [done|by rewrite <- no_byte].
Defined.

(** ** Which records pass *)

Section Glog.
Context `{HE : Env U}.

(** What the package [stack] promises: calls with the same program counter are in the same
    file. *)
Context (pc_path : Z -> bytes).
Definition call_ok (c : call) : Prop := c_plus_s c = pc_path (c_PC c).

(** The level of the first pattern that matches a path. *)
Fixpoint rule_level (ps : list pattern) (path : bytes) : option Z :=
  match ps with
  | [] => None
  | p :: ps =>
      match p_pattern p with
      | Some rx => if MatchString rx path then Some (p_level p) else rule_level ps path
      | None => None
      end
  end.

(** A record passes if its level is within the general verbosity or within the one of
    its file. *)
Definition passes (h : GlogHandler) (r : record) : bool :=
  (r_Lvl r <=? level h) ||
  match rule_level (patterns h) (c_plus_s (r_Call r)) with Some lvl => r_Lvl r <=? lvl | None => false end.

Definition compiled (p : pattern) : bool := bool_decide (is_Some (p_pattern p)).

(** The cache agrees with the rules; there is a cache when there are rules. *)
Record glog_ok (h : GlogHandler) : Prop := {
  ok_level : 0 <= level h < 2 ^ 32;
  ok_compiled : forallb compiled (patterns h) = true;
  ok_override : override h = 0 <-> patterns h = [];
  ok_nil : siteCache h = None -> patterns h = [];
  ok_cache : forall m pc lvl, siteCache h = Some m -> m !! pc = Some lvl ->
    lvl = default 0 (rule_level (patterns h) (pc_path pc)) }.

Lemma first_rule_compiled ps path :
  forallb compiled ps = true -> first_rule ps path = Ok (rule_level ps path).
Proof.
  induction ps as [|p ps IH]; cbn [forallb first_rule rule_level]; [done|].
  intros [Hp Hps]%andb_prop. apply bool_decide_eq_true in Hp as [rx ->].
  destruct (MatchString rx path); [done|by apply IH].
Qed.

(** The cache is only a cache. *)
Lemma site_level_spec h c : glog_ok h -> call_ok c -> patterns h <> [] ->
  exists h', site_level h c = Ok (default 0 (rule_level (patterns h) (c_plus_s c)), h') /\
    glog_ok h' /\ patterns h' = patterns h /\ level h' = level h /\ origin h' = origin h.
Proof.
  intros Hok Hcall Hne. pose proof Hok as [Hl Hc Ho Hn Hca]. unfold site_level.
  destruct (siteCache h) as [m|] eqn:Em; [|by destruct Hne; apply Hn]. cbn [mbind option_bind].
  destruct (m !! c_PC c) as [lvl|] eqn:El.
  - exists h. split; [|by split_and!]. rewrite (Hca m _ _ eq_refl El). by rewrite Hcall.
  - rewrite first_rule_compiled by done. cbn [mbind result_bind]. eexists. split; [reflexivity|].
    split; [|done]. split; cbn [siteCache set_cache patterns]; try done.
    intros m' pc lvl [= <-]. destruct (decide (pc = c_PC c)) as [->|Hpc].
    + rewrite lookup_insert_eq. intros [= <-]. by rewrite Hcall.
    + rewrite lookup_insert_ne by done. by apply Hca.
Qed.

Lemma u32_small l : level_ok l = true -> u32 l = l.
Proof. intros Hl%within_spec. unfold u32. apply Z.mod_small. lia. Qed.

Lemma glog_filter_spec h r :
  glog_ok h -> call_ok (r_Call r) -> level_ok (r_Lvl r) = true ->
  exists h', glog_filter h r = Ok (passes h r, h') /\ glog_ok h' /\
    patterns h' = patterns h /\ level h' = level h /\ origin h' = origin h.
Proof.
  intros Hok Hc Hl. unfold glog_filter, passes. rewrite u32_small by done.
  destruct (r_Lvl r <=? level h) eqn:E; [exists h; by split_and!|]. cbn [orb].
  destruct (Z.eqb_spec (override h) 0) as [E0|E0].
  - apply (ok_override h Hok) in E0 as Hp. exists h. split; [|by split_and!]. by rewrite Hp.
  - destruct (site_level_spec h (r_Call r) Hok Hc) as (h' & -> & Hok' & Hrest).
    { intros Hp. by apply E0, (ok_override h Hok). }
    cbn [mbind result_bind]. exists h'. split; [|by split]. f_equal. f_equal.
    destruct (rule_level _ _); [done|]. cbn [default]. apply within_spec in Hl.
    apply Z.leb_gt in E. pose proof (ok_level h Hok). apply Z.leb_gt. lia.
Qed.

(** ** Histories *)

Inductive glog_op :=
| OpVerbosity (lvl : Z) | OpVmodule (ruleset : bytes) | OpBacktraceAt (loc : bytes) | OpLog (r : record).

(** The record is that after [glog_record]. *)
Definition glog_step (op : glog_op) (h : GlogHandler) : result halt GlogHandler :=
  match op with
  | OpVerbosity lvl => Ok (Verbosity lvl h)
  | OpVmodule rs => Ok (Vmodule rs h).2
  | OpBacktraceAt loc => Ok (BacktraceAt loc h).2
  | OpLog r => '(_, h) ← glog_filter h (glog_record h r); Ok h
  end.
Fixpoint glog_run (ops : list glog_op) (h : GlogHandler) : result halt GlogHandler :=
  match ops with
  | [] => Ok h
  | op :: ops => h ← glog_step op h; glog_run ops h
  end.

(** Rules of fewer than 2^32 bytes whose patterns are UTF-8; records with a level. *)
Definition op_ok (op : glog_op) : Prop :=
  match op with
  | OpVmodule rs => zlen rs < 2 ^ 32 - 1 /\
      match vmodule_rules (Split 44 rs) with Ok ps => forallb compiled ps = true | Err _ => True end
  | OpLog r => call_ok (r_Call r) /\ level_ok (r_Lvl r) = true
  | _ => True
  end.

Lemma length_Split c s : (length (Split c s) <= S (length s))%nat.
Proof.
  induction s as [|x s IH]; cbn [Split]; [done|]. destruct (x =? c); [cbn; lia|].
  destruct (Split c s); cbn in *; lia.
Qed.

Lemma length_rules rules ps : vmodule_rules rules = Ok ps -> (length ps <= length rules)%nat.
Proof.
  revert ps. induction rules as [|rule rules IH]; intros ps; cbn [vmodule_rules]; [by intros [= <-]|].
  destruct (bytes_eqb rule []); [intros ?%IH; cbn; lia|].
  intros (p & _ & (ps' & E & Eps)%bind_Ok)%bind_Ok. apply IH in E. injection Eps as <-.
  destruct p; cbn; lia.
Qed.

Lemma glog_record_call h r : r_Call (glog_record h r) = r_Call r.
Proof. unfold glog_record. by destruct (_ && _)%bool. Qed.
Lemma glog_record_level h r :
  level_ok (r_Lvl r) = true -> level_ok (r_Lvl (glog_record h r)) = true.
Proof. unfold glog_record. by destruct (_ && _)%bool. Qed.

Lemma glog_ok_new o : glog_ok (NewGlogHandler o).
Proof. split; try done; cbn; lia. Qed.

Lemma glog_step_ok op h : glog_ok h -> op_ok op -> exists h', glog_step op h = Ok h' /\ glog_ok h'.
Proof.
  intros Hok Hop. pose proof Hok as [Hl Hc Ho Hn Hca]. destruct op as [lvl|rs|loc|r]; cbn [glog_step op_ok] in *.
  - eexists. split; [reflexivity|]. split; try done. apply Z.mod_pos_bound. lia.
  - eexists. split; [reflexivity|]. destruct Hop as [Hrs Hps]. unfold Vmodule.
    destruct (vmodule_rules (Split 44 rs)) as [ps|] eqn:E; [|done].
    apply length_rules in E. pose proof (length_Split 44 rs).
    split; cbn [snd level patterns override siteCache]; try done.
    + unfold u32. rewrite Z.mod_small by lia. destruct ps; [done|]. split; [cbn; lia|done].
    + intros m pc lvl [= <-]. by rewrite lookup_empty.
  - eexists. split; [reflexivity|]. unfold BacktraceAt. repeat case_match; try done; by split.
  - destruct Hop as [Hcall Hlvl].
    destruct (glog_filter_spec h (glog_record h r) Hok) as (h' & -> & Hok' & _).
    { by rewrite glog_record_call. } { by apply glog_record_level. }
    by exists h'.
Qed.

Lemma glog_run_ok ops h : glog_ok h -> Forall op_ok ops -> exists h', glog_run ops h = Ok h' /\ glog_ok h'.
Proof.
  intros Hok Hops. revert h Hok. induction Hops as [|op ops Hop Hops IH]; intros h Hok; [by exists h|].
  destruct (glog_step_ok op h Hok Hop) as (h1 & E1 & Hok1). cbn [glog_run]. rewrite E1. by apply IH.
Qed.

End Glog.


#[local] Instance ex_env : Env unit := {
  Write _ _ u := (None, u); Syslog _ _ _ u := (None, u); Sprint_values _ := []; trim_stack _ v := v; stack_text _ _ := None;
  all_stacks := [] }.

Definition ex_log (lvl : Z) : record :=
  MkRecord ex_time lvl [] [] (MkCall 1 [] [] (str "x/a/main.go") []) (MkKeyNames timeKey msgKey lvlKey).

