(* ===== verification/LogSpec.v ===== *)
(** * Loggers and handlers at work: properties of [src/log/handler.go] and
    [src/log/logger.go]

    Logging ends when the handlers that can be swapped do not form a cycle; the loggers
    derived from a logger write through its current handler, with their contexts
    joined; contexts always have pairs of keys and values; and what handlers that fail
    over to each other write. *)

From S2P Require Import Prelude Text LogFormat LogFormatSpec LogHandler.
Local Open Scope Z_scope.

(** ** Termination *)

Section Termination.
Context `{HE : Env U}.

(** How deep a handler is nested, given bounds for the handlers behind pointers. *)
Context (swap_rank glog_rank : nat -> nat).
Fixpoint height (h : handler) : nat :=
  match h with
  | WriteHandler _ _ | ChannelHandler _ | DiscardHandler | SysWriteHandler _ _ => 0
  | SyncHandler h | LazyHandler h | CallerFileHandler h | CallerFuncHandler h
  | CallerStackHandler _ h | FilterHandler _ h | closingHandler _ h => S (height h)
  | MultiHandler hs | FailoverHandler hs => S (foldr (fun h n => Nat.max (height h) n) 0%nat hs)
  | swapHandler p => S (swap_rank p)
  | GlogAt p => S (glog_rank p)
  end.

(** The handlers behind pointers are lower than the pointers: there is no cycle. *)
Record ranked (w : world U) : Prop := {
  rk_swap : forall p h, w_swap w !! p = Some h -> (height h <= swap_rank p)%nat;
  rk_glog : forall p g, w_glog w !! p = Some g -> (height (origin g) <= glog_rank p)%nat }.

(** A computation that ends, in the same way with more fuel, and keeps the ranks. *)
Definition ends {A} (m m' : M (U := U) A) : Prop :=
  forall w, ranked w ->
    match m w with
    | Ok (a, w') => m' w = Ok (a, w') /\ ranked w'
    | Err e => m' w = Err e /\ e <> OutOfFuel
    end.

Lemma ends_ret {A} (a : A) : ends (mret a) (mret a).
Proof. intros w Hw. by split. Qed.
Lemma ends_stop {A} e : e <> OutOfFuel -> ends (A := A) (stop e) (stop e).
Proof. intros He w Hw. by split. Qed.
Lemma ends_bind {A B} (m m' : M A) (f f' : A -> M B) :
  ends m m' -> (forall a, ends (f a) (f' a)) -> ends (m ≫= f) (m' ≫= f').
Proof.
  intros Hm Hf w Hw. specialize (Hm w Hw). unfold mbind, M_bind.
  destruct (m w) as [[a w1]|e]; destruct Hm as [-> Hm]; [by apply Hf|by split].
Qed.

Lemma ends_write wr fmtr r : ends (write_record wr fmtr r) (write_record wr fmtr r).
Proof.
  intros w [Hs Hg]. unfold write_record. destruct (fmtr r (w_globals w)) as [[b g]|]; [|by split].
  destruct (Write wr b (w_ext w)) as [err u]. split; [done|]. by split.
Qed.
Lemma ends_syslog sysWr fmtr r : ends (syslog_log sysWr fmtr r) (syslog_log sysWr fmtr r).
Proof.
  intros w [Hs Hg]. unfold syslog_log. destruct (fmtr r (w_globals w)) as [[b g]|]; [|by split].
  destruct (syslogFn _ _ _ _) as [err u]. split; [done|]. by split.
Qed.
Lemma ends_send c r : ends (send c r) (send c r).
Proof.
  intros w [Hs Hg]. unfold send. destruct (w_chan w !! c) as [[size recs]|]; [|by split].
  destruct (length recs <? size)%nat; by split.
Qed.

Lemma ends_multi log log' hs r :
  (forall h r, h ∈ hs -> ends (log h r) (log' h r)) -> ends (multi_loop log hs r) (multi_loop log' hs r).
Proof.
  revert r. induction hs as [|h hs IH]; intros r Hl; cbn [multi_loop]; [apply ends_ret|].
  apply ends_bind; [apply Hl; by left|]. intros [err r']. apply IH. intros h' r'' Hh. apply Hl. by right.
Qed.

Lemma ends_failover log log' i err hs r :
  (forall h r, h ∈ hs -> ends (log h r) (log' h r)) ->
  ends (failover_loop log i err hs r) (failover_loop log' i err hs r).
Proof.
  revert i err r. induction hs as [|h hs IH]; intros i err r Hl; cbn [failover_loop]; [apply ends_ret|].
  apply ends_bind; [apply Hl; by left|]. intros [[e|] r']; [|apply ends_ret].
  apply IH. intros h' r'' Hh. apply Hl. by right.
Qed.

Lemma site_level_origin h c lvl h' : site_level h c = Ok (lvl, h') -> origin h' = origin h.
Proof.
  unfold site_level. destruct (siteCache h ≫= _); [by intros [= _ <-]|].
  intros (found & _ & E)%bind_Ok. destruct (siteCache h); [|done]. by injection E as _ <-.
Qed.
Lemma first_rule_fuel ps path : first_rule ps path <> Err OutOfFuel.
Proof.
  induction ps as [|p ps IH]; cbn [first_rule]; [done|]. destruct (p_pattern p); [|done].
  by destruct (MatchString _ _).
Qed.
Lemma site_level_fuel h c : site_level h c <> Err OutOfFuel.
Proof.
  unfold site_level. destruct (siteCache h ≫= _); [done|].
  pose proof (first_rule_fuel (patterns h) (c_plus_s c)).
  destruct (first_rule _ _) as [o|e]; cbn; [by destruct (siteCache h)|congruence].
Qed.
Lemma glog_filter_origin h r :
  match glog_filter h r with Ok (_, h') => origin h' = origin h | Err e => e <> OutOfFuel end.
Proof.
  unfold glog_filter. destruct (_ <=? _); [done|]. destruct (override h =? 0); [done|].
  pose proof (site_level_fuel h (r_Call r)).
  destruct (site_level h (r_Call r)) as [[lvl h']|e] eqn:E; cbn; [by apply site_level_origin in E|congruence].
Qed.

Lemma ends_glog log log' p r :
  (forall h r, (height h <= glog_rank p)%nat -> ends (log h r) (log' h r)) ->
  ends (glog_log log p r) (glog_log log' p r).
Proof.
  intros Hl w Hw. unfold glog_log. destruct (w_glog w !! p) as [h|] eqn:Ep; [|by split].
  pose proof (glog_filter_origin h (glog_record h r)) as Ho.
  destruct (glog_filter h (glog_record h r)) as [[pass h']|e]; [|by split].
  assert (Hw' : ranked (MkWorld (w_globals w) (w_ext w) (w_swap w) (<[p:=h']> (w_glog w)) (w_chan w))).
  { destruct Hw as [Hs Hg]. split; [done|]. intros q g. cbn. destruct (decide (q = p)) as [->|Hq].
    - rewrite lookup_insert_eq. intros [= <-]. rewrite Ho. by apply Hg.
    - rewrite lookup_insert_ne by done. apply Hg. }
  destruct pass; [|by split]. apply Hl; [|done]. rewrite Ho. by apply (rk_glog w Hw).
Qed.

Lemma height_in h hs :
  h ∈ hs -> (height h <= foldr (fun h n => Nat.max (height h) n) 0 hs)%nat.
Proof.
  induction 1 as [h hs|h h' hs Hin IH]; cbn [foldr]; lia.
Qed.

Lemma Log_ends n m h r : (height h < n)%nat -> (n <= m)%nat -> ends (Log n h r) (Log m h r).
Proof.
  revert m h r. induction n as [|n IH]; intros m h r Hh Hm; [lia|]. destruct m as [|m]; [lia|].
  destruct h; cbn [Log height] in *; unfold stream_log, sync_log, lazy_log, callerFile_log, callerFunc_log,
    callerStack_log, filter_log, channel_log, discard_log, closing_log.
  - apply ends_bind; [apply ends_write|]. intros a. apply ends_ret.
  - apply IH; lia.
  - destruct (lazy_record r); [apply IH; lia|by apply ends_stop].
  - apply IH; lia.
  - apply IH; lia.
  - apply IH; lia.
  - destruct (fn r) as [[|]|]; [apply IH; lia|apply ends_ret|by apply ends_stop].
  - apply ends_multi. intros h r' Hin%height_in. apply IH; lia.
  - apply ends_failover. intros h r' Hin%height_in. apply IH; lia.
  - apply ends_bind; [apply ends_send|]. intros a. apply ends_ret.
  - apply ends_ret.
  - intros w Hw. unfold swap_log. destruct (w_swap w !! p) as [h|] eqn:E; [|by split].
    apply IH; [|lia|done]. apply (rk_swap w Hw) in E. lia.
  - apply ends_glog. intros h r' Hr. apply IH; lia.
  - apply IH; lia.
  - apply ends_syslog.
Qed.

End Termination.

(** ** Derived loggers *)

Section Loggers.
Context `{HE : Env U}.

(** [New] again and again. *)
Fixpoint News (l : logger) (cs : list args) : M (U := U) logger :=
  match cs with
  | [] => mret l
  | c :: cs => l' ← logger_New l c; News l' cs
  end.

Definition contexts (cs : list args) : list value := concat (normalize <$> cs).

(** The handler at [p] leads to the one at [q], by way of [n] handlers. *)
Fixpoint through (m : gmap nat handler) (n : nat) (p q : nat) : Prop :=
  match n with
  | O => p = q
  | S n => exists p', m !! p = Some (swapHandler p') /\ through m n p' q
  end.

Lemma normalize_even a : Nat.even (length (normalize a)) = true.
Proof.
  unfold normalize. set (ctx := match a with Args l => l | ArgsCtx es => toArray es end).
  destruct (Nat.odd (length ctx)) eqn:E.
  - rewrite length_app. cbn. rewrite Nat.even_add, <- Nat.negb_odd, E. done.
  - by rewrite <- Nat.negb_odd, E.
Qed.

Lemma contexts_even cs : Nat.even (length (contexts cs)) = true.
Proof.
  unfold contexts. induction cs as [|c cs IH]; [done|]. cbn [fmap list_fmap concat].
  by rewrite length_app, Nat.even_add, normalize_even, IH.
Qed.

Lemma through_app m n p q q' : through m n p q -> m !! q = Some (swapHandler q') -> through m (S n) p q'.
Proof.
  revert p. induction n as [|n IH]; intros p; cbn [through].
  - intros -> Hq. by exists q'.
  - intros (p' & Hp & Ht) Hq. exists p'. split; [done|]. by apply IH.
Qed.

Lemma New_spec l c (w : world U) : l_h l ∈ dom (w_swap w) ->
  exists l' w', logger_New l c w = Ok (l', w') /\ l_ctx l' = l_ctx l ++ normalize c /\
    (l_h l' ∉ dom (w_swap w)) /\ w_swap w' = <[l_h l' := swapHandler (l_h l)]> (w_swap w).
Proof.
  intros Hl. eexists _, _. split; [reflexivity|]. cbn. split; [done|].
  split; [apply is_fresh|done].
Qed.

(** A new logger leads to the old one over pointers that were not in use before,
    whatever happens to the others. *)
Lemma News_spec l cs (w : world U) : l_h l ∈ dom (w_swap w) ->
  exists l' w', News l cs w = Ok (l', w') /\ l_ctx l' = l_ctx l ++ contexts cs /\
    (forall m, (forall p, p ∉ dom (w_swap w) -> m !! p = w_swap w' !! p) ->
       through m (length cs) (l_h l') (l_h l)) /\
    (forall p, p ∈ dom (w_swap w) -> w_swap w' !! p = w_swap w !! p).
Proof.
  revert l w. induction cs as [|c cs IH]; intros l w Hl.
  - exists l, w. split; [done|]. unfold contexts. cbn. by rewrite app_nil_r.
  - destruct (New_spec l c w Hl) as (l1 & w1 & E1 & Hc1 & Hf & Hw1).
    assert (Hin : l_h l1 ∈ dom (w_swap w1)) by (rewrite Hw1; apply dom_insert; set_solver).
    assert (Hold : forall p, p ∈ dom (w_swap w) -> p ∈ dom (w_swap w1))
      by (intros p Hp; rewrite Hw1; apply dom_insert; set_solver).
    destruct (IH l1 w1 Hin) as (l2 & w2 & E2 & Hc2 & Ht & Hk).
    exists l2, w2. cbn [News]. unfold mbind, M_bind. rewrite E1. split; [done|].
    split; [rewrite Hc2, Hc1; unfold contexts; cbn; by rewrite app_assoc|]. split.
    + intros m Hm. cbn [length]. eapply through_app; [apply Ht; auto|].
      rewrite Hm, Hk, Hw1 by done. by rewrite lookup_insert_eq.
    + intros p Hp. rewrite Hk, Hw1, lookup_insert_ne by (auto || by intros <-). done.
Qed.

(** Writing passes on the way to the handler at its end. *)
Lemma through_log (w : world U) n p q fuel h r :
  through (w_swap w) n p q -> w_swap w !! q = Some h ->
  Log (n + S fuel) (swapHandler p) r w = Log fuel h r w.
Proof.
  revert p. induction n as [|n IH]; intros p; cbn [through].
  - intros -> Hq. cbn [Nat.add Log]. unfold swap_log. by rewrite Hq.
  - intros (p' & Hp & Ht) Hq. cbn [Nat.add Log]. unfold swap_log. rewrite Hp. by apply IH.
Qed.

End Loggers.

(** A logger derived by any number of calls of [New] writes to the handler that the logger it is
    derived from has at the time of writing, with the contexts of all of them in
    order; every context is made of pairs. *)
Theorem child_writes `{Env U} l cs (w : world U) (Hl : l_h l ∈ dom (w_swap w)) :
  exists child w', News l cs w = Ok (child, w') /\
    forall w'' h fuel now caller msg lvl c,
    (forall p, p ∉ dom (w_swap w) -> w_swap w'' !! p = w_swap w' !! p) -> w_swap w'' !! l_h l = Some h ->
    let ctx := contexts cs ++ normalize c in
    logger_write (length cs + S fuel) now caller child msg lvl c w'' =
      (_ ← Log fuel h (MkRecord now lvl msg (l_ctx l ++ ctx) caller (MkKeyNames timeKey msgKey lvlKey));
       mret tt) w'' /\
    Nat.even (length ctx) = true.
Proof.
  destruct (News_spec l cs w Hl) as (child & w' & E & Hc & Ht & _). exists child, w'. split; [done|].
  intros w'' h fuel now caller msg lvl c Hw Hh ctx. split.
  - unfold logger_write, mbind, M_bind, newContext. rewrite Hc, <- app_assoc.
    by rewrite (through_log w'' (length cs) (l_h child) (l_h l) fuel h) by auto.
  - unfold ctx. by rewrite length_app, Nat.even_add, contexts_even, normalize_even.
Qed.

(** Logging ends when the handlers behind pointers do not form a cycle: the fuel that is the
    height of the handler is enough, and more does not change what happens. *)
Theorem Log_terminates `{Env U} swap_rank glog_rank (w : world U) h r n m
    (Hw : ranked swap_rank glog_rank w) (Hh : (height swap_rank glog_rank h < n)%nat) (Hm : (n <= m)%nat) :
  Log n h r w <> Err OutOfFuel /\ Log m h r w = Log n h r w.
Proof.
  pose proof (Log_ends swap_rank glog_rank n m h r Hh Hm w Hw) as He.
  destruct (Log n h r w) as [[a w']|e]; destruct He as [-> He]; [done|]. split; congruence.
Qed.

(** ** Failing over *)

Section Failover.
Context `{HE : Env U}.

(** No value is lazy. *)
Fixpoint no_lazy (ctx : list value) : bool :=
  match ctx with
  | _ :: v :: ctx' => match v with VLazy _ => false | _ => no_lazy ctx' end
  | _ => true
  end.

Lemma lazy_loop_id c ctx : no_lazy ctx = true -> lazy_loop c ctx = Some (ctx, false).
Proof.
  induction ctx as [ctx IH] using (induction_ltof1 _ (@length value)).
  destruct ctx as [|k [|v ctx]]; [done|done|]. cbn [no_lazy lazy_loop].
  destruct v; try done; intros Hn; cbn [mbind option_bind]; rewrite IH by (done || unfold ltof; cbn; lia); done.
Qed.

Lemma set_ctx_id r : set_ctx (r_Ctx r) r = r.
Proof. by destruct r. Qed.

Lemma lazy_record_id r : no_lazy (r_Ctx r) = true -> lazy_record r = Some r.
Proof. intros Hn. unfold lazy_record. rewrite lazy_loop_id by done. cbn. by rewrite set_ctx_id. Qed.

Lemma no_lazy_app c1 c2 :
  Nat.even (length c1) = true -> no_lazy (c1 ++ c2) = no_lazy c1 && no_lazy c2.
Proof.
  induction c1 as [c1 IH] using (induction_ltof1 _ (@length value)).
  destruct c1 as [|k [|v c1]]; [done|done|]. cbn [length Nat.even app no_lazy]. intros He.
  destruct v; try done; apply IH; try done; unfold ltof; cbn; lia.
Qed.

Lemma entries_app term c1 c2 l1 l2 :
  entries term c1 = Some l1 -> entries term c2 = Some l2 -> entries term (c1 ++ c2) = Some (l1 ++ l2).
Proof.
  revert l1. induction c1 as [c1 IH] using (induction_ltof1 _ (@length value)). intros l1.
  destruct c1 as [|k [|v c1]]; [by intros [= <-]|done|]. cbn [app entries].
  destruct (entry term k v) as [e|]; [|done]. cbn [mbind option_bind].
  destruct (entries term c1) as [l|] eqn:E; [|done]. cbn [mbind option_bind]. intros [= <-] H2.
  by rewrite (IH c1 ltac:(unfold ltof; cbn; lia) l E H2).
Qed.

Lemma entries_even term ctx : is_Some (entries term ctx) -> Nat.even (length ctx) = true.
Proof.
  induction ctx as [ctx IH] using (induction_ltof1 _ (@length value)).
  destruct ctx as [|k [|v ctx]]; [done|by intros [? ?]|]. cbn [entries length Nat.even].
  destruct (entry term k v); [|by intros [? ?]]. cbn [mbind option_bind]. intros [x Hx].
  apply IH; [unfold ltof; cbn; lia|]. destruct (entries term ctx); [by eexists|done].
Qed.

(** A stream handler evaluates the lazy values and writes one line. *)
Lemma StreamHandler_log wr fmtr r r0 b g (w : world U) fuel :
  lazy_record r = Some r0 -> fmtr r0 (w_globals w) = Some (b, g) ->
  Log (3 + fuel) (StreamHandler wr fmtr) r w =
    Ok ((Write wr b (w_ext w)).1, r0, MkWorld g (Write wr b (w_ext w)).2 (w_swap w) (w_glog w) (w_chan w)).
Proof.
  intros Hl Hf. unfold StreamHandler. cbn [Nat.add Log]. unfold lazy_log. rewrite Hl. cbn [Log].
  unfold sync_log, stream_log, mbind, M_bind, write_record. rewrite Hf. by destruct (Write wr b (w_ext w)).
Qed.

(** What is added to the context for the errors from number [i] on. *)
Fixpoint failover_entries (i : Z) (errs : list bytes) : list (bytes * bytes) :=
  match errs with
  | [] => []
  | e :: errs => (str "failover_err_" ++ FormatInt i, e) :: failover_entries (i + 1) errs
  end.
Definition failover_ctx (i : Z) (errs : list bytes) : list value :=
  flat_map (fun kv => [VString kv.1; err_value kv.2]) (failover_entries i errs).

Lemma failover_ctx_entries i errs :
  entries false (failover_ctx i errs) = Some (failover_entries i errs).
Proof.
  unfold failover_ctx. revert i. induction errs as [|e errs IH]; intros i; [done|].
  cbn [failover_entries flat_map app entries]. by rewrite IH.
Qed.
Lemma failover_ctx_no_lazy i errs : no_lazy (failover_ctx i errs) = true.
Proof.
  unfold failover_ctx. revert i. induction errs as [|e errs IH]; intros i; [done|]. apply IH.
Qed.

(** A record that can be printed and has no lazy values. *)
Definition printable (r : record) : Prop :=
  is_Some (record_entries r) /\ no_lazy (r_Ctx r) = true.

Lemma printable_entries r : is_Some (record_entries r) -> is_Some (entries false (r_Ctx r)).
Proof.
  unfold record_entries. destruct (Lvl_String (r_Lvl r)); [|by intros [? ?]]. cbn.
  by destruct (entries false (r_Ctx r)); [eexists|intros [? ?]].
Qed.

Lemma record_entries_app r ctx l l' :
  record_entries r = Some l -> entries false ctx = Some l' ->
  record_entries (set_ctx (r_Ctx r ++ ctx) r) = Some (l ++ l').
Proof.
  unfold record_entries. cbn [r_Lvl r_Ctx r_KeyNames r_Time r_Msg set_ctx].
  destruct (Lvl_String (r_Lvl r)) as [lvl|]; [|done]. cbn [mbind option_bind].
  destruct (entries false (r_Ctx r)) as [l0|] eqn:E; [|done]. cbn [mbind option_bind].
  intros [= <-] H'. by rewrite (entries_app _ _ _ _ _ E H').
Qed.

Lemma printable_app r i errs :
  printable r -> printable (set_ctx (r_Ctx r ++ failover_ctx i errs) r).
Proof.
  intros [[l Hl] Hn]. split.
  - eexists. by apply record_entries_app, failover_ctx_entries.
  - cbn. rewrite no_lazy_app, Hn, failover_ctx_no_lazy; [done|].
    apply (entries_even false), printable_entries. by eexists.
Qed.

(** The loop over streams that fail. *)
Lemma failover_fails wrs errs r r0 i err (w : world U) hs fuel :
  Forall2 (fun wr e => forall b u, (Write wr b u).1 = Some e) wrs errs ->
  lazy_record r = Some r0 -> printable r0 -> wrs <> [] ->
  exists w', failover_loop (Log (3 + fuel)) i err (((fun wr => StreamHandler wr LogfmtFormat) <$> wrs) ++ hs) r w =
    failover_loop (Log (3 + fuel)) (i + zlen wrs) (last errs) hs
      (set_ctx (r_Ctx r0 ++ failover_ctx i errs) r0) w'.
Proof.
  intros Hf. revert r r0 i err w. induction Hf as [|wr e wrs errs He Hf IH]; [done|].
  intros r r0 i err w Hl Hp _.
  destruct (proj2 (LogfmtFormat_total r0 (w_globals w)) (proj1 Hp)) as [[b g] Eb].
  cbn [fmap list_fmap app failover_loop]. unfold mbind, M_bind.
  rewrite (StreamHandler_log wr LogfmtFormat r r0 b g w fuel Hl Eb), He.
  set (w1 := MkWorld g _ _ _ _). set (r1 := append_ctx _ _ r0).
  assert (E1 : r1 = set_ctx (r_Ctx r0 ++ failover_ctx i [e]) r0) by done.
  assert (Hp1 : printable r1) by (rewrite E1; by apply printable_app).
  destruct wrs as [|wr2 wrs].
  - inversion Hf; subst errs. exists w1. cbn [fmap list_fmap app last length]. done.
  - destruct (IH r1 r1 (i + 1) (Some e) w1 (lazy_record_id r1 (proj2 Hp1)) Hp1) as [w2 E2]; [done|].
    exists w2. rewrite E2. inversion Hf as [|? e2 ? errs' ? ? E3 E4]; subst errs.
    rewrite E1. cbn [r_Ctx set_ctx length last]. f_equal; [lia|].
    change (failover_ctx i (e :: e2 :: errs')) with (failover_ctx i [e] ++ failover_ctx (i + 1) (e2 :: errs')).
    unfold set_ctx. cbn. f_equal. by rewrite <- app_assoc.
Qed.

End Failover.

(** Handlers that fail over to each other.  After stream handlers whose writers fail, the first
    whose writer does not fail gets one line: the record, with its lazy values
    evaluated and the errors of the writers before it in order; later handlers are not
    called.  If all fail the last error is returned. *)
Theorem failover_streams `{Env U} wrs errs wr hs r r0 l (w : world U) fuel
    (Hfail : Forall2 (fun wr e => forall b u, (Write wr b u).1 = Some e) wrs errs)
    (Hwr : forall b u, (Write wr b u).1 = None) (Hne : wrs <> [])
    (Hlazy : lazy_record r = Some r0) (Hl : record_entries r0 = Some l) (Hno : no_lazy (r_Ctx r0) = true) :
  let stream wr := StreamHandler wr LogfmtFormat in
  let r1 := set_ctx (r_Ctx r0 ++ failover_ctx 0 errs) r0 in
  record_entries r1 = Some (l ++ failover_entries 0 errs) /\
  (exists b g g' u w', Log (4 + fuel) (FailoverHandler ((stream <$> wrs) ++ stream wr :: hs)) r w = Ok (None, r1, w') /\
     LogfmtFormat r1 g = Some (b, g') /\ w_ext w' = (Write wr b u).2) /\
  (exists w' r2, Log (4 + fuel) (FailoverHandler (stream <$> wrs)) r w = Ok (last errs, r2, w')).
Proof.
  intros stream r1. assert (Hp : printable r0) by (split; [by eexists|done]).
  assert (Hr1 : record_entries r1 = Some (l ++ failover_entries 0 errs))
    by (by apply record_entries_app, failover_ctx_entries).
  pose proof (printable_app r0 0 errs Hp) as Hp1. fold r1 in Hp1.
  split; [done|]. cbn [Nat.add Log]. split.
  - destruct (failover_fails wrs errs r r0 0 None w (stream wr :: hs) fuel Hfail Hlazy Hp Hne) as [w1 E].
    destruct (proj2 (LogfmtFormat_total r1 (w_globals w1)) (proj1 Hp1)) as [[b g'] Eb].
    exists b, (w_globals w1), g', (w_ext w1). eexists. split; [|split; [exact Eb|]].
    + etrans; [exact E|]. cbn [failover_loop]. fold r1. unfold mbind, M_bind.
      rewrite (StreamHandler_log wr LogfmtFormat r1 r1 b g' w1 fuel (lazy_record_id r1 (proj2 Hp1)) Eb), Hwr.
      reflexivity.
    + done.
  - destruct (failover_fails wrs errs r r0 0 None w [] fuel Hfail Hlazy Hp Hne) as [w1 E].
    rewrite app_nil_r in E. eexists w1, _. etrans; [exact E|]. reflexivity.
Qed.

(** ** A cycle *)

Lemma cycle_log `{Env U} p fuel r (w : world U) :
  w_swap w !! p = Some (swapHandler p) -> Log fuel (swapHandler p) r w = Err OutOfFuel.
Proof. intros Hp. induction fuel as [|fuel IH]; [done|]. cbn [Log]. unfold swap_log. by rewrite Hp. Qed.

(** The handler of a derived logger is the one that leads to the logger it is derived from: when that
    logger is given this handler, nothing it is asked to write ends any more. *)
Theorem handler_cycle `{Env U} l c (w : world U) (Hl : l_h l ∈ dom (w_swap w)) :
  exists w', (child ← logger_New l c; h ← GetHandler child; SetHandler l h) w = Ok (tt, w') /\
    forall fuel now caller msg lvl ctx,
    logger_write fuel now caller l msg lvl ctx w' = Err OutOfFuel.
Proof.
  destruct (New_spec l c w Hl) as (l1 & w1 & E1 & _ & _ & Hw1).
  eexists. split.
  - unfold mbind, M_bind. rewrite E1. unfold GetHandler, Get. rewrite Hw1, lookup_insert_eq. reflexivity.
  - intros fuel now caller msg lvl ctx. unfold logger_write, mbind, M_bind.
    rewrite cycle_log; [done|]. cbn. by rewrite lookup_insert_eq.
Qed.

(** ** Witnesses *)

(** Writers with even numbers fail; the others keep what is written. *)
#[local] Instance ex_env : Env (list (nat * bytes)) := {
  Write wr b u := if Nat.even wr then (Some (str "down"), u) else (None, u ++ [(wr, b)]);
  Syslog _ _ _ u := (None, u); Sprint_values _ := []; trim_stack _ v := v; stack_text _ _ := None; all_stacks := [] }.

Definition ex_world : world (list (nat * bytes)) :=
  MkWorld (MkGlobals false 0 ∅) [] root_swap ∅ ∅.
Definition ex_lazy : record :=
  MkRecord ex_time LvlInfo (str "m") [VString (str "n"); VLazy (Func [] 0 1 (Some [VInt Kint 7]))]
    ex_call (MkKeyNames timeKey msgKey lvlKey).

Lemma child_writes_witness : exists child w', News root [Args [VInt Kint 1]; Args []] ex_world = Ok (child, w') /\
  forall h, logger_write 3 ex_time ex_call child (str "m") LvlInfo (Args [])
    (MkWorld (w_globals w') [] (<[0%nat := h]> (w_swap w')) ∅ ∅) =
  (_ ← Log 0 h (MkRecord ex_time LvlInfo (str "m") (normalize (Args [VInt Kint 1])) ex_call
     (MkKeyNames timeKey msgKey lvlKey)); mret tt)
    (MkWorld (w_globals w') [] (<[0%nat := h]> (w_swap w')) ∅ ∅).
Proof.
  destruct (child_writes root [Args [VInt Kint 1]; Args []] ex_world) as (child & w' & E & Hw).
  { cbn. set_solver. }
  exists child, w'. split; [exact E|]. intros h.
  destruct (Hw (MkWorld (w_globals w') [] (<[0%nat := h]> (w_swap w')) ∅ ∅) h 0%nat ex_time ex_call
    (str "m") LvlInfo (Args [])) as [H' _].
  - intros p Hp. cbn. rewrite lookup_insert_ne; [done|]. intros <-. apply Hp. cbn. set_solver.
  - cbn. by rewrite lookup_insert_eq.
  - exact H'.
Defined.

Lemma Log_terminates_witness :
  Log 4 (MultiHandler [swapHandler 0; LazyHandler DiscardHandler]) ex_lazy ex_world <> Err OutOfFuel.
Proof.
  apply (Log_terminates (fun _ => 1%nat) (fun _ => 0%nat) ex_world
    (MultiHandler [swapHandler 0; LazyHandler DiscardHandler]) ex_lazy 4 4); [|cbn; lia|lia].
  split; [|done]. intros p h. cbn. unfold root_swap. rewrite lookup_singleton_Some. intros [<- <-]. cbn. lia.
Defined.

Lemma failover_streams_witness : exists b g g' u w' r1,
  Log 4 (FailoverHandler [StreamHandler 2 LogfmtFormat; StreamHandler 3 LogfmtFormat]) ex_lazy ex_world =
    Ok (None, r1, w') /\
  LogfmtFormat r1 g = Some (b, g') /\ w_ext w' = u ++ [(3%nat, b)].
Proof.
  destruct (failover_streams [2%nat] [str "down"] 3 [] ex_lazy
    (set_ctx [VString (str "n"); VInt Kint 7] ex_lazy) _ ex_world 0
    ltac:(by repeat constructor) ltac:(done) ltac:(done) eq_refl ltac:(vm_compute; reflexivity) eq_refl)
    as (_ & (b & g & g' & u & w' & E & Eb & Ew) & _).
  exists b, g, g', u, w'. eexists. split; [exact E|]. split; [exact Eb|]. exact Ew.
Defined.

Lemma handler_cycle_witness : exists w',
  (child ← logger_New root (Args []); h ← GetHandler child; SetHandler root h) ex_world = Ok (tt, w') /\
  logger_write 1000 ex_time ex_call root (str "m") LvlInfo (Args []) w' = Err OutOfFuel.
Proof.
  destruct (handler_cycle root (Args []) ex_world) as (w' & E & Hw).
  { cbn. set_solver. }
  exists w'. split; [exact E|]. apply Hw.
Defined.
