(* ===== verification/LogSinks.v ===== *)
(** * Where logs go: files, connections and the system log, of [src/log/handler.go] and [src/log/syslog.go]

    The handlers that open what they write to, those that panic when this fails, and what a program that logs to a
    file leaves there: lines from which every record is read back. *)

From S2P Require Import Prelude Text LogFormat LogFormatSpec LogHandler LogSpec.
Local Open Scope Z_scope.

(** What is opened, and closing it; an error is its text. *)
Class Openers (U : Type) := {
  OpenFile : bytes -> U -> result bytes nat * U;
  net_Dial : bytes -> bytes -> U -> result bytes nat * U;
  syslog_New : Z -> bytes -> U -> result bytes nat * U;
  syslog_Dial : bytes -> bytes -> Z -> bytes -> U -> result bytes nat * U;
  WriteCloser_Close : nat -> U -> option bytes * U }.

Section Sinks.
Context `{HE : Env U} `{HO : Openers U}.

Definition external {A} (f : U -> A * U) : M A := fun w =>
  let (a, u) := f (w_ext w) in Ok (a, MkWorld (w_globals w) u (w_swap w) (w_glog w) (w_chan w)).

(** ** Operations *)

Definition FileHandler (path : bytes) (fmtr : format) : M (result bytes handler) :=
  f ← external (OpenFile path);
  match f with
  | Err err => mret (Err err)
  | Ok f => mret (Ok (closingHandler f (StreamHandler f fmtr)))
  end.

Definition NetHandler (network addr : bytes) (fmtr : format) : M (result bytes handler) :=
  conn ← external (net_Dial network addr);
  match conn with
  | Err err => mret (Err err)
  | Ok conn => mret (Ok (closingHandler conn (StreamHandler conn fmtr)))
  end.

(** The method of a [closingHandler] with the writer [wr]. *)
Definition closingHandler_Close (wr : nat) : M (option bytes) := external (WriteCloser_Close wr).

Definition sharedSyslog (fmtr : format) (sysWr : result bytes nat) : result bytes handler :=
  match sysWr with
  | Err err => Err err
  | Ok sysWr => Ok (LazyHandler (closingHandler sysWr (SysWriteHandler sysWr fmtr)))
  end.

Definition SyslogHandler (priority : Z) (tag : bytes) (fmtr : format) : M (result bytes handler) :=
  wr ← external (syslog_New priority tag); mret (sharedSyslog fmtr wr).

Definition SyslogNetHandler (net addr : bytes) (priority : Z) (tag : bytes) (fmtr : format) : M (result bytes handler) :=
  wr ← external (syslog_Dial net addr priority tag); mret (sharedSyslog fmtr wr).

Definition must (h : result bytes handler) : M (U := U) handler :=
  match h with Err _ => stop Panic | Ok h => mret h end.

Definition Must_FileHandler (path : bytes) (fmtr : format) : M handler := FileHandler path fmtr ≫= must.
Definition Must_NetHandler (network addr : bytes) (fmtr : format) : M handler := NetHandler network addr fmtr ≫= must.
Definition Must_SyslogHandler (priority : Z) (tag : bytes) (fmtr : format) : M handler := SyslogHandler priority tag fmtr ≫= must.
Definition Must_SyslogNetHandler (net addr : bytes) (priority : Z) (tag : bytes) (fmtr : format) : M handler :=
  SyslogNetHandler net addr priority tag fmtr ≫= must.

(** ** The system log *)

(** A record goes to the method for its level, without the space around it; traces are formatted and dropped. *)
Lemma syslog_writes sysWr fmtr r r0 b g (w : world U) fuel : lazy_record r = Some r0 -> fmtr r0 (w_globals w) = Some (b, g) ->
  exists h, sharedSyslog fmtr (Ok sysWr) = Ok h /\
    Log (3 + fuel) h r w =
      let (err, u) := syslogFn sysWr (r_Lvl r0) (TrimSpace b) (w_ext w) in
      Ok ((err, r0), MkWorld g u (w_swap w) (w_glog w) (w_chan w)).
Proof.
  intros Hl Hf. eexists. split; [reflexivity|]. cbn [Nat.add Log]. unfold lazy_log. rewrite Hl.
  cbn [Log]. unfold closing_log. cbn [Log]. unfold syslog_log. by rewrite Hf.
Qed.

(** ** A log file *)

(** One call of a method of a logger. *)
Record log_call := MkLogCall { lc_now : time; lc_caller : call; lc_msg : bytes; lc_lvl : Z; lc_ctx : args }.

Definition call_record (l : logger) (c : log_call) : record :=
  MkRecord (lc_now c) (lc_lvl c) (lc_msg c) (newContext (l_ctx l) (lc_ctx c)) (lc_caller c) (MkKeyNames timeKey msgKey lvlKey).

Fixpoint write_all (fuel : nat) (l : logger) (cs : list log_call) : M unit :=
  match cs with
  | [] => mret tt
  | c :: cs => _ ← logger_write fuel (lc_now c) (lc_caller c) l (lc_msg c) (lc_lvl c) (lc_ctx c); write_all fuel l cs
  end.

(** The call has the keys and texts [es], with keys and texts that logfmt can hold. *)
Definition readable (l : logger) (c : log_call) (es : list (bytes * bytes)) : Prop :=
  exists r, lazy_record (call_record l c) = Some r /\ record_entries r = Some es /\ forallb clean es = true.

Lemma file_log f fmtr r r0 b g (w : world U) fuel p :
  w_swap w !! p = Some (closingHandler f (StreamHandler f fmtr)) -> lazy_record r = Some r0 -> fmtr r0 (w_globals w) = Some (b, g) ->
  Log (5 + fuel) (swapHandler p) r w =
    Ok ((Write f b (w_ext w)).1, r0, MkWorld g (Write f b (w_ext w)).2 (w_swap w) (w_glog w) (w_chan w)).
Proof.
  intros Hp Hl Hf. change (5 + fuel)%nat with (S (S (3 + fuel))). cbn [Log]. unfold swap_log. rewrite Hp.
  cbn [Log]. unfold closing_log. by apply StreamHandler_log.
Qed.

End Sinks.

(** The lines of a text, each with its newline. *)
Fixpoint lines (cur s : bytes) : list bytes :=
  match s with
  | [] => match cur with [] => [] | _ => [cur] end
  | c :: s' => if c =? 10 then (cur ++ [c]) :: lines [] s' else lines (cur ++ [c]) s'
  end.

Definition read_log (s : bytes) : option (list (list (bytes * bytes))) := mapM parse_line (lines [] s).

Lemma lines_line cur line s : Forall (fun b => b <> 10) line -> lines cur (line ++ [10] ++ s) = (cur ++ line ++ [10]) :: lines [] s.
Proof.
  revert cur. induction line as [|c line IH]; intros cur Hl; cbn [app lines]; [by rewrite Z.eqb_refl|].
  apply Forall_cons in Hl as [Hc Hl]. destruct (Z.eqb_spec c 10); [done|]. rewrite IH by done. by rewrite <- app_assoc.
Qed.

Lemma read_log_line line s es ess : Forall (fun b => b <> 10) line -> parse_line (line ++ [10]) = Some es -> read_log s = Some ess ->
  read_log ((line ++ [10]) ++ s) = Some (es :: ess).
Proof. intros Hl Hp Hs. unfold read_log in *. rewrite <- app_assoc, lines_line by done. cbn [app mapM]. by rewrite Hp, Hs. Qed.

Section File.
Context `{HE : Env U} `{HO : Openers U} (content : nat -> U -> bytes) (f : nat)
  (Happend : forall b u, exists u', Write f b u = (None, u') /\ content f u' = content f u ++ b).

Lemma write_all_file l cs ess (w : world U) fuel :
  w_swap w !! l_h l = Some (closingHandler f (StreamHandler f LogfmtFormat)) -> Forall2 (readable l) cs ess ->
  exists w' new, write_all (5 + fuel) l cs w = Ok (tt, w') /\ w_swap w' = w_swap w /\
    content f (w_ext w') = content f (w_ext w) ++ new /\ read_log new = Some ess.
Proof.
  intros Hp Hr. revert w Hp. induction Hr as [|c es cs ess (r & Hl & He & Hc) _ IH]; intros w Hp.
  { exists w, []. split; [reflexivity|]. split; [reflexivity|]. split; [by rewrite app_nil_r|reflexivity]. }
  destruct (LogfmtFormat_line r (w_globals w) es He Hc) as (line & g' & Ef & Hline & Hn & _).
  destruct (Happend (line ++ [10]) (w_ext w)) as (u' & Ew & Ec).
  destruct (IH (MkWorld g' u' (w_swap w) (w_glog w) (w_chan w)) Hp) as (w' & new & E & Hs & Hnew & Hread).
  exists w', ((line ++ [10]) ++ new). split_and!; [|done| |by apply read_log_line].
  - cbn [write_all]. unfold logger_write, mbind, M_bind.
    change (MkRecord _ _ _ _ _ _) with (call_record l c).
    rewrite (file_log f LogfmtFormat (call_record l c) r (line ++ [10]) g' w fuel (l_h l) Hp Hl Ef), Ew. exact E.
  - rewrite Hnew. cbn [w_ext]. by rewrite Ec, <- app_assoc.
Qed.

End File.

(** ** Theorems *)


(** Files by name; all are open for appending. *)
#[local] Instance ex_env : Env (gmap nat bytes) := {
  Write wr b u := (None, <[wr := default [] (u !! wr) ++ b]> u); Syslog _ _ _ u := (None, u);
  Sprint_values _ := []; trim_stack _ v := v; stack_text _ _ := None; all_stacks := [] }.
#[local] Instance ex_openers : Openers (gmap nat bytes) := {
  OpenFile path u := (Ok (length path), u); net_Dial _ _ u := (Err [], u); syslog_New _ _ u := (Err [], u);
  syslog_Dial _ _ _ _ u := (Err [], u); WriteCloser_Close _ u := (None, u) }.

Definition ex_calls : list log_call :=
  [MkLogCall ex_time ex_call (str "a = b") LvlInfo (Args [VString (str "n"); VLazy (Func [] 0 1 (Some [VInt Kint 7]))]);
   MkLogCall ex_time ex_call [10; 34] LvlCrit (Args [])].

