(* ===== verification/Graph.v ===== *)
(** * The store of the graph: types of [src/core/jigsaw.go] and [src/core/round.go]

    Vertices, columns, rounds and the integers behind [RoundID] are shared
    through pointers: each kind of object has a store, a list, and a pointer is
    a position in it.  Objects are never freed.  An [Event] is copied when it
    is passed on, except for its [RoundID], which is such a pointer.

    An operation may stop early: it panics, or it blocks on a channel that is
    full or on a lock that is not released, or it loops for ever.  Channels of
    capacity [MaxChanItem] are the list of what was sent and not yet received.
    The locks [graphLock], [lock], [ld] and [transLock] are released by every
    function that takes them and are left out: the operations are those of one
    goroutine at a time.  The lock [nc] of a round is not, and is part of the
    state. *)

From S2P Require Import Prelude Types.
Local Open Scope Z_scope.

#[export] Instance Hash_eq_dec : EqDecision Hash := list_eq_dec.
#[export] Instance Hash_countable : Countable Hash := list_countable.
#[export] Instance Address_eq_dec : EqDecision Address := list_eq_dec.
#[export] Instance Address_countable : Countable Address := list_countable.

Definition Normal : Z := 1.
Definition Witness : Z := 2.
Definition WitnessLocal : Z := 3.
Definition FamousWitness : Z := 4.
Definition MaxArrayLength : nat := 128.
Definition MaxNodeCount : nat := 128.
Definition MaxChanItem : nat := 128.
Definition MaxColorCluster : nat := 4.

(** ** Objects *)

Record Vertex := MkVertex {
  v_event : Event; color : list Z; witness : Z;
  anotherPt : option nat; selfPt : option nat; v_seqNum : nat }.

Definition set_color (c : list Z) (v : Vertex) : Vertex :=
  MkVertex (v_event v) c (witness v) (anotherPt v) (selfPt v) (v_seqNum v).
Definition set_witness (w : Z) (v : Vertex) : Vertex :=
  MkVertex (v_event v) (color v) w (anotherPt v) (selfPt v) (v_seqNum v).
Definition set_anotherPt (p : option nat) (v : Vertex) : Vertex :=
  MkVertex (v_event v) (color v) (witness v) p (selfPt v) (v_seqNum v).

Record Column := MkColumn { hashChain : gmap Hash nat; verTop : option nat; c_seqNum : nat }.

(** [nc_locked]: the lock [nc] is held for writing. *)
Record Round := MkRound {
  nc_locked : bool; lostDict : gmap Hash (list nat); newComer : list RequestArg;
  bestVertex : option nat; witnesses : list (option nat); r_broadness : nat; index : Z;
  votes : list (list Z); strongsee : list (list bool) }.

Definition set_nc (b : bool) (rd : Round) : Round :=
  MkRound b (lostDict rd) (newComer rd) (bestVertex rd) (witnesses rd) (r_broadness rd)
    (index rd) (votes rd) (strongsee rd).
Definition set_lostDict (m : gmap Hash (list nat)) (rd : Round) : Round :=
  MkRound (nc_locked rd) m (newComer rd) (bestVertex rd) (witnesses rd) (r_broadness rd)
    (index rd) (votes rd) (strongsee rd).
Definition set_newComer (l : list RequestArg) (rd : Round) : Round :=
  MkRound (nc_locked rd) (lostDict rd) l (bestVertex rd) (witnesses rd) (r_broadness rd)
    (index rd) (votes rd) (strongsee rd).
Definition set_witnesses (l : list (option nat)) (rd : Round) : Round :=
  MkRound (nc_locked rd) (lostDict rd) (newComer rd) (bestVertex rd) l (r_broadness rd)
    (index rd) (votes rd) (strongsee rd).
Definition set_votes (v : list (list Z)) (s : list (list bool)) (rd : Round) : Round :=
  MkRound (nc_locked rd) (lostDict rd) (newComer rd) (bestVertex rd) (witnesses rd)
    (r_broadness rd) (index rd) v s.

(** [JPGraph] with its [RoundManager] and the stores. *)
Record JPGraph := MkJP {
  graph : gmap Address nat;
  superMajority : Z;
  transUnHandled : list Transaction;
  Coinbase : Address;
  broadness : nat;
  queue : list nat;
  currentIdx : Z;
  monitorStarter : option nat;
  columns : list Column;
  vertices : list Vertex;
  bigs : list Z;
  rounds : list Round;
  witnessL : list Event;
  witnessR : list Event;
  eventNorm : list Event;
  RequestChan : list RequestArg;
  SelfEventCreated : list nat;
  roundTrigger : list nat;
  consensusTrigger : list Z }.

Definition set_graph (x : gmap Address nat) (jp : JPGraph) : JPGraph :=
  MkJP x (superMajority jp) (transUnHandled jp) (Coinbase jp) (broadness jp)
    (queue jp) (currentIdx jp) (monitorStarter jp) (columns jp) (vertices jp)
    (bigs jp) (rounds jp) (witnessL jp) (witnessR jp) (eventNorm jp)
    (RequestChan jp) (SelfEventCreated jp) (roundTrigger jp) (consensusTrigger jp).
Definition set_superMajority (x : Z) (jp : JPGraph) : JPGraph :=
  MkJP (graph jp) x (transUnHandled jp) (Coinbase jp) (broadness jp) (queue jp)
    (currentIdx jp) (monitorStarter jp) (columns jp) (vertices jp) (bigs jp)
    (rounds jp) (witnessL jp) (witnessR jp) (eventNorm jp) (RequestChan jp)
    (SelfEventCreated jp) (roundTrigger jp) (consensusTrigger jp).
Definition set_transUnHandled (x : list Transaction) (jp : JPGraph) : JPGraph :=
  MkJP (graph jp) (superMajority jp) x (Coinbase jp) (broadness jp) (queue jp)
    (currentIdx jp) (monitorStarter jp) (columns jp) (vertices jp) (bigs jp)
    (rounds jp) (witnessL jp) (witnessR jp) (eventNorm jp) (RequestChan jp)
    (SelfEventCreated jp) (roundTrigger jp) (consensusTrigger jp).
Definition set_queue (x : list nat) (jp : JPGraph) : JPGraph :=
  MkJP (graph jp) (superMajority jp) (transUnHandled jp) (Coinbase jp)
    (broadness jp) x (currentIdx jp) (monitorStarter jp) (columns jp) (vertices jp)
    (bigs jp) (rounds jp) (witnessL jp) (witnessR jp) (eventNorm jp)
    (RequestChan jp) (SelfEventCreated jp) (roundTrigger jp) (consensusTrigger jp).
Definition set_currentIdx (x : Z) (jp : JPGraph) : JPGraph :=
  MkJP (graph jp) (superMajority jp) (transUnHandled jp) (Coinbase jp)
    (broadness jp) (queue jp) x (monitorStarter jp) (columns jp) (vertices jp)
    (bigs jp) (rounds jp) (witnessL jp) (witnessR jp) (eventNorm jp)
    (RequestChan jp) (SelfEventCreated jp) (roundTrigger jp) (consensusTrigger jp).
Definition set_monitorStarter (x : option nat) (jp : JPGraph) : JPGraph :=
  MkJP (graph jp) (superMajority jp) (transUnHandled jp) (Coinbase jp)
    (broadness jp) (queue jp) (currentIdx jp) x (columns jp) (vertices jp) (bigs jp)
    (rounds jp) (witnessL jp) (witnessR jp) (eventNorm jp) (RequestChan jp)
    (SelfEventCreated jp) (roundTrigger jp) (consensusTrigger jp).
Definition set_columns (x : list Column) (jp : JPGraph) : JPGraph :=
  MkJP (graph jp) (superMajority jp) (transUnHandled jp) (Coinbase jp)
    (broadness jp) (queue jp) (currentIdx jp) (monitorStarter jp) x (vertices jp)
    (bigs jp) (rounds jp) (witnessL jp) (witnessR jp) (eventNorm jp)
    (RequestChan jp) (SelfEventCreated jp) (roundTrigger jp) (consensusTrigger jp).
Definition set_vertices (x : list Vertex) (jp : JPGraph) : JPGraph :=
  MkJP (graph jp) (superMajority jp) (transUnHandled jp) (Coinbase jp)
    (broadness jp) (queue jp) (currentIdx jp) (monitorStarter jp) (columns jp) x
    (bigs jp) (rounds jp) (witnessL jp) (witnessR jp) (eventNorm jp)
    (RequestChan jp) (SelfEventCreated jp) (roundTrigger jp) (consensusTrigger jp).
Definition set_bigs (x : list Z) (jp : JPGraph) : JPGraph :=
  MkJP (graph jp) (superMajority jp) (transUnHandled jp) (Coinbase jp)
    (broadness jp) (queue jp) (currentIdx jp) (monitorStarter jp) (columns jp)
    (vertices jp) x (rounds jp) (witnessL jp) (witnessR jp) (eventNorm jp)
    (RequestChan jp) (SelfEventCreated jp) (roundTrigger jp) (consensusTrigger jp).
Definition set_rounds (x : list Round) (jp : JPGraph) : JPGraph :=
  MkJP (graph jp) (superMajority jp) (transUnHandled jp) (Coinbase jp)
    (broadness jp) (queue jp) (currentIdx jp) (monitorStarter jp) (columns jp)
    (vertices jp) (bigs jp) x (witnessL jp) (witnessR jp) (eventNorm jp)
    (RequestChan jp) (SelfEventCreated jp) (roundTrigger jp) (consensusTrigger jp).
Definition set_witnessL (x : list Event) (jp : JPGraph) : JPGraph :=
  MkJP (graph jp) (superMajority jp) (transUnHandled jp) (Coinbase jp)
    (broadness jp) (queue jp) (currentIdx jp) (monitorStarter jp) (columns jp)
    (vertices jp) (bigs jp) (rounds jp) x (witnessR jp) (eventNorm jp)
    (RequestChan jp) (SelfEventCreated jp) (roundTrigger jp) (consensusTrigger jp).
Definition set_witnessR (x : list Event) (jp : JPGraph) : JPGraph :=
  MkJP (graph jp) (superMajority jp) (transUnHandled jp) (Coinbase jp)
    (broadness jp) (queue jp) (currentIdx jp) (monitorStarter jp) (columns jp)
    (vertices jp) (bigs jp) (rounds jp) (witnessL jp) x (eventNorm jp)
    (RequestChan jp) (SelfEventCreated jp) (roundTrigger jp) (consensusTrigger jp).
Definition set_eventNorm (x : list Event) (jp : JPGraph) : JPGraph :=
  MkJP (graph jp) (superMajority jp) (transUnHandled jp) (Coinbase jp)
    (broadness jp) (queue jp) (currentIdx jp) (monitorStarter jp) (columns jp)
    (vertices jp) (bigs jp) (rounds jp) (witnessL jp) (witnessR jp) x
    (RequestChan jp) (SelfEventCreated jp) (roundTrigger jp) (consensusTrigger jp).
Definition set_RequestChan (x : list RequestArg) (jp : JPGraph) : JPGraph :=
  MkJP (graph jp) (superMajority jp) (transUnHandled jp) (Coinbase jp)
    (broadness jp) (queue jp) (currentIdx jp) (monitorStarter jp) (columns jp)
    (vertices jp) (bigs jp) (rounds jp) (witnessL jp) (witnessR jp) (eventNorm jp) x
    (SelfEventCreated jp) (roundTrigger jp) (consensusTrigger jp).
Definition set_SelfEventCreated (x : list nat) (jp : JPGraph) : JPGraph :=
  MkJP (graph jp) (superMajority jp) (transUnHandled jp) (Coinbase jp)
    (broadness jp) (queue jp) (currentIdx jp) (monitorStarter jp) (columns jp)
    (vertices jp) (bigs jp) (rounds jp) (witnessL jp) (witnessR jp) (eventNorm jp)
    (RequestChan jp) x (roundTrigger jp) (consensusTrigger jp).
Definition set_roundTrigger (x : list nat) (jp : JPGraph) : JPGraph :=
  MkJP (graph jp) (superMajority jp) (transUnHandled jp) (Coinbase jp)
    (broadness jp) (queue jp) (currentIdx jp) (monitorStarter jp) (columns jp)
    (vertices jp) (bigs jp) (rounds jp) (witnessL jp) (witnessR jp) (eventNorm jp)
    (RequestChan jp) (SelfEventCreated jp) x (consensusTrigger jp).
Definition set_consensusTrigger (x : list Z) (jp : JPGraph) : JPGraph :=
  MkJP (graph jp) (superMajority jp) (transUnHandled jp) (Coinbase jp)
    (broadness jp) (queue jp) (currentIdx jp) (monitorStarter jp) (columns jp)
    (vertices jp) (bigs jp) (rounds jp) (witnessL jp) (witnessR jp) (eventNorm jp)
    (RequestChan jp) (SelfEventCreated jp) (roundTrigger jp) x.

(** ** Operations *)

Inductive stop := Panic | Blocked | Diverges.

Definition JM (A : Type) : Type := JPGraph -> result stop A * JPGraph.

#[export] Instance JM_ret : MRet JM := fun A x jp => (Ok x, jp).
#[export] Instance JM_bind : MBind JM := fun A B f m jp =>
  let (x, jp') := m jp in
  match x with Ok a => f a jp' | Err e => (Err e, jp') end.

Definition stops {A} (e : stop) : JM A := fun jp => (Err e, jp).
Definition get {A} (f : JPGraph -> A) : JM A := fun jp => (Ok (f jp), jp).
Definition modify (f : JPGraph -> JPGraph) : JM unit := fun jp => (Ok tt, f jp).

(** The value behind a pointer or at an index; nil and out of range panic. *)
Definition deref {A} (o : option A) : JM A :=
  match o with Some a => mret a | None => stops Panic end.

Definition get_vertex (v : nat) : JM Vertex := l ← get vertices; deref (l !! v).
Definition get_column (c : nat) : JM Column := l ← get columns; deref (l !! c).
Definition get_round (r : nat) : JM Round := l ← get rounds; deref (l !! r).

Definition upd_vertex (v : nat) (f : Vertex -> Vertex) : JM unit :=
  x ← get_vertex v; modify (fun jp => set_vertices (<[v := f x]> (vertices jp)) jp).
Definition upd_column (c : nat) (f : Column -> Column) : JM unit :=
  x ← get_column c; modify (fun jp => set_columns (<[c := f x]> (columns jp)) jp).
Definition upd_round (r : nat) (f : Round -> Round) : JM unit :=
  x ← get_round r; modify (fun jp => set_rounds (<[r := f x]> (rounds jp)) jp).

Definition new_vertex (v : Vertex) : JM nat :=
  n ← get (length ∘ vertices); _ ← modify (fun jp => set_vertices (vertices jp ++ [v]) jp);
  mret n.
Definition new_round (rd : Round) : JM nat :=
  n ← get (length ∘ rounds); _ ← modify (fun jp => set_rounds (rounds jp ++ [rd]) jp);
  mret n.

(** [*big.Int]: allocation, reading, [SetInt64]. *)
Definition new_big (z : Z) : JM nat :=
  n ← get (length ∘ bigs); _ ← modify (fun jp => set_bigs (bigs jp ++ [z]) jp); mret n.
Definition read_big (p : option nat) : JM Z := n ← deref p; l ← get bigs; deref (l !! n).
Definition write_big (p : option nat) (z : Z) : JM unit :=
  n ← deref p; l ← get bigs; _ ← deref (l !! n);
  modify (fun jp => set_bigs (<[n := z]> (bigs jp)) jp).

(** Sending on a channel with room for [MaxChanItem] items. *)
Definition send {A} (chan : JPGraph -> list A) (set : list A -> JPGraph -> JPGraph) (x : A)
    : JM unit :=
  l ← get chan;
  if (length l <? MaxChanItem)%nat then modify (set (l ++ [x])) else stops Blocked.

(** ** Monad laws used in proofs *)

Lemma JM_bind_ok {A B} (m : JM A) (f : A -> JM B) jp x jp' :
  m jp = (Ok x, jp') -> (m ≫= f) jp = f x jp'.
Proof. intros H. unfold mbind, JM_bind. by rewrite H. Qed.

Lemma JM_bind_inv {A B} (m : JM A) (f : A -> JM B) jp y jp2 :
  (m ≫= f) jp = (Ok y, jp2) -> exists x jp1, m jp = (Ok x, jp1) /\ f x jp1 = (Ok y, jp2).
Proof.
  unfold mbind, JM_bind. destruct (m jp) as [[x|e] jp1]; [|done]. intros H. by eexists _, _.
Qed.

(** ** Weakest preconditions

    [wp m Q E jp]: [m] from [jp] returns with [Q], or stops with [E]. *)

Section Wp.

Definition wp {A} (m : JM A) (Q : A -> JPGraph -> Prop) (E : stop -> JPGraph -> Prop)
    (jp : JPGraph) : Prop :=
  match m jp with (Ok a, jp') => Q a jp' | (Err e, jp') => E e jp' end.

Lemma wp_ret {A} (a : A) Q E jp : Q a jp -> wp (mret a) Q E jp.
Proof. done. Qed.

Lemma wp_bind {A B} (m : JM A) (f : A -> JM B) Q E jp :
  wp m (fun a => wp (f a) Q E) E jp -> wp (m ≫= f) Q E jp.
Proof.
  unfold wp, mbind, JM_bind. intros H. by destruct (m jp) as [[a|e] jp'].
Qed.

Lemma wp_mono {A} (m : JM A) (Q Q' : A -> JPGraph -> Prop) (E E' : stop -> JPGraph -> Prop) jp :
  wp m Q E jp -> (forall a jp', Q a jp' -> Q' a jp') -> (forall e jp', E e jp' -> E' e jp') ->
  wp m Q' E' jp.
Proof. unfold wp. destruct (m jp) as [[a|e] jp']; auto. Qed.

Lemma wp_get {A} (f : JPGraph -> A) Q E jp : Q (f jp) jp -> wp (get f) Q E jp.
Proof. done. Qed.

Lemma wp_modify f Q E jp : Q tt (f jp) -> wp (modify f) Q E jp.
Proof. done. Qed.

Lemma wp_deref {A} (o : option A) a Q E jp : o = Some a -> Q a jp -> wp (deref o) Q E jp.
Proof. intros ->. done. Qed.

Lemma wp_get_vertex v vx Q E jp :
  vertices jp !! v = Some vx -> Q vx jp -> wp (get_vertex v) Q E jp.
Proof. intros H HQ. unfold wp, get_vertex, mbind, JM_bind, get. by rewrite H. Qed.

Lemma wp_get_column c col Q E jp :
  columns jp !! c = Some col -> Q col jp -> wp (get_column c) Q E jp.
Proof. intros H HQ. unfold wp, get_column, mbind, JM_bind, get. by rewrite H. Qed.

Lemma wp_get_round r rd Q E jp :
  rounds jp !! r = Some rd -> Q rd jp -> wp (get_round r) Q E jp.
Proof. intros H HQ. unfold wp, get_round, mbind, JM_bind, get. by rewrite H. Qed.

Lemma wp_upd_vertex v vx f Q E jp :
  vertices jp !! v = Some vx ->
  Q tt (set_vertices (<[v := f vx]> (vertices jp)) jp) -> wp (upd_vertex v f) Q E jp.
Proof. intros H HQ. apply wp_bind. by eapply wp_get_vertex. Qed.

Lemma wp_upd_column c col f Q E jp :
  columns jp !! c = Some col ->
  Q tt (set_columns (<[c := f col]> (columns jp)) jp) -> wp (upd_column c f) Q E jp.
Proof. intros H HQ. apply wp_bind. by eapply wp_get_column. Qed.

Lemma wp_upd_round r rd f Q E jp :
  rounds jp !! r = Some rd ->
  Q tt (set_rounds (<[r := f rd]> (rounds jp)) jp) -> wp (upd_round r f) Q E jp.
Proof. intros H HQ. apply wp_bind. by eapply wp_get_round. Qed.

Lemma wp_new_vertex v Q E jp :
  Q (length (vertices jp)) (set_vertices (vertices jp ++ [v]) jp) -> wp (new_vertex v) Q E jp.
Proof. done. Qed.

Lemma wp_read_big p n z Q E jp :
  p = Some n -> bigs jp !! n = Some z -> Q z jp -> wp (read_big p) Q E jp.
Proof. intros -> H HQ. unfold wp, read_big, mbind, JM_bind, get. cbn. by rewrite H. Qed.

Lemma wp_send {A} (chan : JPGraph -> list A) set x (Q : unit -> JPGraph -> Prop)
    (E : stop -> JPGraph -> Prop) jp :
  ((length (chan jp) < MaxChanItem)%nat -> Q tt (set (chan jp ++ [x]) jp)) ->
  ((MaxChanItem <= length (chan jp))%nat -> E Blocked jp) -> wp (send chan set x) Q E jp.
Proof.
  intros H1 H2. unfold wp, send, mbind, JM_bind, get.
  destruct (Nat.ltb_spec (length (chan jp)) MaxChanItem); [by apply H1|by apply H2].
Qed.

End Wp.
