(* ===== verification/Jigsaw.v ===== *)
(** * The graph of events: [src/core/jigsaw.go], [NewRound], [addComer] and
    [RandParent] of [src/core/round.go]

    Operations of [JPGraph] as programs over the store of [Graph.v].  Logging
    is left out. *)

From S2P Require Import Prelude RlpTypes Keccak Sponge Types Graph.
Local Open Scope Z_scope.

(** ** Rounds *)

Definition NewRound (l : nat) (idx : Z) : Round :=
  MkRound false ∅ [] None (replicate MaxNodeCount None) l idx
    (replicate l (replicate l 0)) (replicate l (replicate l false)).

(** A request for the same hash is there already: the function returns without
    releasing the lock. *)
Definition addComer (r : nat) (rqa : RequestArg) : JM unit :=
  rd ← get_round r;
  if nc_locked rd then stops Blocked
  else
    _ ← upd_round r (set_nc true);
    if existsb (fun n => Compare (TargetHash n) (TargetHash rqa) =? 0) (newComer rd)
    then mret tt
    else upd_round r (fun rd => set_nc false (set_newComer (newComer rd ++ [rqa]) rd)).

(** The loop of [RandParent] from index [i] on: the list with [Refered]
    counted up, and [ret]. *)
Fixpoint RandParent_loop (except : Address) (to i : nat) (ret : RequestArg)
    (l : list RequestArg) : list RequestArg * RequestArg :=
  match l with
  | [] => ([], ret)
  | arg :: l' =>
      let other := negb (Compare (TargetAddr arg) except =? 0) in
      let ret := if other then arg else ret in
      if ((i =? to)%nat && other)%bool then
        let arg' := MkRequestArg (TargetHash arg) (TargetAddr arg) (Refered arg + 1) in
        (arg' :: l', arg')
      else
        let (l'', ret') := RandParent_loop except to (S i) ret l' in (arg :: l'', ret')
  end.

(** [RandParent]; [rnd mod mlen] stands for the result of [rand.Intn(mlen)]. *)
Definition RandParent (rnd : nat) (r : nat) (except : Address) : JM (option RequestArg) :=
  rd ← get_round r;
  if nc_locked rd then stops Blocked
  else
    let mlen := length (newComer rd) in
    if (mlen =? 0)%nat then mret None
    else
      let to := (rnd mod mlen)%nat in
      let (l, ret) := RandParent_loop except to 0 (MkRequestArg zero_hash zero_address 0)
                        (newComer rd) in
      _ ← upd_round r (set_newComer l);
      mret (if Compare (TargetAddr ret) zero_address =? 0 then Some ret else None).

(** ** Nodes *)

Definition NewColumn : Column := MkColumn ∅ None 0.

Definition AddNode (a : Address) : JM nat :=
  g ← get graph;
  match g !! a with
  | Some cl => mret cl
  | None =>
      let mlen := size g in
      cl ← get (length ∘ columns);
      _ ← modify (fun jp => set_columns (columns jp ++ [MkColumn ∅ None mlen]) jp);
      _ ← modify (fun jp => set_graph (<[a := cl]> (graph jp)) jp);
      _ ← modify (set_superMajority (Z.of_nat (mlen + 1) * 2 / 3));
      mret cl
  end.

(** [NewRoundManager]: the queue starts with round 0.  Its channels, as those of the graph, are empty
    lists; its loops are modelled by their turns. *)
Definition NewRoundManager (jp : JPGraph) : JPGraph :=
  set_queue [0%nat] (set_rounds [NewRound (broadness jp) 0] jp).

(** [NewJPGraph]: the graph starts with the own node and round 0. *)
Definition NewJPGraph (coinbase : Address) (broadness : nat) : JPGraph :=
  let jp := MkJP ∅ 0 [] coinbase broadness [] 0 None [] [] [] [] [] [] [] [] [] [] [] in
  let jp := (AddNode coinbase jp).2 in
  NewRoundManager jp.

(** ** Events *)

Definition NewVertex (e : Event) (ty : Z) : Vertex :=
  MkVertex (CopyEvent e) (replicate MaxColorCluster 0) ty None None 0.

Definition validateEvent (e : Event) : bool :=
  let nEvent := set_SelfHash zero_hash (CopyEvent e) in
  Compare (Event_Hash nEvent) (SelfHash e) =? 0.

Definition RequestParentEvent (e : Event) : JM unit :=
  send RequestChan set_RequestChan (MkRequestArg (OtherPartH e) (SelfSig e) 0).

(** The search for the round of an event; without a match, [round] is left at
    the last element. *)
Fixpoint search_round (rid : option nat) (q : list nat) (round : option nat)
    : JM (option nat) :=
  match q with
  | [] => mret round
  | r :: q' =>
      rd ← get_round r;
      z ← read_big rid;
      if z =? index rd then mret (Some r) else search_round rid q' (Some r)
  end.

(** [round.witnesses[i] = vert]. *)
Definition set_round_witness (r i vert : nat) : JM unit :=
  rd ← get_round r;
  _ ← deref (witnesses rd !! i);
  upd_round r (fun rd => set_witnesses (<[i := Some vert]> (witnesses rd)) rd).

Fixpoint link_lost (vert : nat) (l : list nat) : JM unit :=
  match l with
  | [] => mret tt
  | v :: l' => _ ← upd_vertex v (set_anotherPt (Some vert)); link_lost vert l'
  end.

(** The part of [AddEvent] that records the vertex [vert] in round [r]. *)
Definition AddEvent_round (r vert sc : nat) (firstWitness linkpost : bool) (ty : Z)
    : JM unit :=
  v ← get_vertex vert;
  col ← get_column sc;
  _ ← (if (firstWitness || (ty =? Witness) || (size (hashChain col) =? 1)%nat)%bool then
         _ ← upd_vertex vert (set_witness Witness);
         set_round_witness r (c_seqNum col) vert
       else mret tt);
  _ ← addComer r (MkRequestArg (SelfHash (v_event v)) (SelfSig (v_event v)) 0);
  rd ← get_round r;
  _ ← (match lostDict rd !! SelfHash (v_event v) with
       | Some l =>
           _ ← link_lost vert l;
           upd_round r (fun rd =>
             set_lostDict (delete (SelfHash (v_event v)) (lostDict rd)) rd)
       | None => mret tt
       end);
  if linkpost then
    upd_round r (fun rd =>
      set_lostDict (<[OtherPartH (v_event v) :=
        default [] (lostDict rd !! OtherPartH (v_event v)) ++ [vert]]> (lostDict rd)) rd)
  else mret tt.

(** The part of [AddEvent] that adds the new vertex to its column and links it
    to its other parent: the vertex, and whether the parent is missing. *)
Definition AddEvent_insert (e : Event) (ty : Z) (sc : nat) (oc : option nat)
    : JM (nat * bool) :=
  col ← get_column sc;
  let nv := NewVertex e ty in
  vert ← new_vertex (MkVertex (v_event nv) (color nv) (witness nv) (anotherPt nv)
                       (verTop col) (c_seqNum col));
  _ ← upd_column sc (fun c =>
        MkColumn (<[SelfHash e := vert]> (hashChain c)) (Some vert) (c_seqNum c));
  match oc with
  | Some oc =>
      ocol ← get_column oc;
      match hashChain ocol !! OtherPartH e with
      | Some otherp =>
          _ ← upd_vertex vert (set_anotherPt (Some otherp)); mret (vert, false)
      | None => mret (vert, true)
      end
  | None => mret (vert, true)
  end.

(** [AddEvent]: [Some] of an error message, or [None]. *)
Definition AddEvent (e : Event) (ty : Z) : JM (option string) :=
  if validateEvent e then
    g ← get graph;
    let self := g !! SelfSig e in
    let zero := Compare (OtherPartA e) zero_address =? 0 in
    let other := if zero then None else g !! OtherPartA e in
    sc ← (match self with Some c => mret c | None => AddNode (SelfSig e) end);
    let firstWitness := bool_decide (self = None) in
    oc ← (if zero then mret None
          else match other with
               | Some c => mret (Some c)
               | None => c ← AddNode (OtherPartA e); mret (Some c)
               end);
    col ← get_column sc;
    match hashChain col !! SelfHash e with
    | Some vert =>
        if ty =? Witness then
          _ ← upd_vertex vert (set_witness ty);
          _ ← send roundTrigger set_roundTrigger vert;
          mret None
        else mret None
    | None =>
        '(vert, linkpost) ← AddEvent_insert e ty sc oc;
        _ ← (if linkpost then RequestParentEvent e else mret tt);
        q ← get queue;
        round ← search_round (RoundID e) q None;
        _ ← (match round with
             | Some r => AddEvent_round r vert sc firstWitness linkpost ty
             | None => mret tt
             end);
        v ← get_vertex vert;
        cb ← get Coinbase;
        _ ← (if ((Compare (SelfSig e) cb =? 0) && (witness v =? Normal))%bool
             then send SelfEventCreated set_SelfEventCreated vert else mret tt);
        mret None
    end
  else mret (Some "Event Validate check failed"%string).

(** ** Composing an event *)

(** Taking transactions: [copy] into a slice of length 0, then
    [transUnHandled[mlen+1:]], which panics when it starts behind the end. *)
Definition take_transactions : JM (list Transaction) :=
  tr ← get transUnHandled;
  let mlen := Nat.min (length tr) MaxTransInEvent in
  if (0 <? mlen)%nat then
    let trans := go_copy [] (take mlen tr) in
    if (length tr <? mlen + 1)%nat then stops Panic
    else _ ← modify (set_transUnHandled (drop (mlen + 1) tr)); mret trans
  else mret [].

(** [ComposeEvent] at time [now]. *)
Definition ComposeEvent (now : Z) (rnd : nat) : JM Event :=
  idx ← get currentIdx;
  fresh ← new_big idx;
  trans ← take_transactions;
  g ← get graph;
  cb ← get Coinbase;
  c ← deref (g !! cb);
  col ← get_column c;
  '(selfpart, rid) ←
    (match verTop col with
     | Some t => tv ← get_vertex t; mret (SelfHash (v_event tv), RoundID (v_event tv))
     | None => mret (zero_hash, Some fresh)
     end);
  q ← get queue;
  r ← deref (head q);
  rd ← get_round r;
  '(oh, oa) ←
    (match bestVertex rd with
     | Some b => bv ← get_vertex b; mret (SelfHash (v_event bv), SelfSig (v_event bv))
     | None =>
         arg ← RandParent rnd r cb;
         mret (match arg with
               | Some a => (TargetHash a, TargetAddr a)
               | None => (zero_hash, zero_address)
               end)
     end);
  let et := MkEvent (Some now) trans selfpart zero_hash cb oh oa rid in
  let et := set_SelfHash (Event_Hash et) et in
  _ ← write_big rid (index rd);
  mret et.

(** ** Retrieving an event *)

(** [RetrieveEvent]; [order] is the order in which the [range] over the map
    visits its entries. *)
Fixpoint retrieve_loop (hash : Hash) (l : list (Hash * nat)) : JM (option (Event * Z)) :=
  match l with
  | [] => mret None
  | (_, v) :: l' =>
      vx ← get_vertex v;
      match decide (OtherPartH (v_event vx) = hash), anotherPt vx with
      | left _, Some p => pv ← get_vertex p; mret (Some (v_event pv, witness vx))
      | _, _ => retrieve_loop hash l'
      end
  end.

Definition RetrieveEvent (order : gmap Hash nat -> list (Hash * nat)) (hash : Hash)
    : JM (result string (Event * Z)) :=
  g ← get graph;
  cb ← get Coinbase;
  match g !! cb with
  | None => mret (Err "RetrieveEvent: coinbase not in graph"%string)
  | Some c =>
      col ← get_column c;
      found ← retrieve_loop hash (order (hashChain col));
      mret (match found with
            | Some p => Ok p
            | None => Err "RetrieveEvent: not found"%string
            end)
  end.

(** ** Well-formed graphs *)

Section Invariant.

(** The event with hash [h] of node [a] is vertex [v]. *)
Definition in_graph (jp : JPGraph) (a : Address) (h : Hash) (v : nat) : Prop :=
  exists c col, graph jp !! a = Some c /\ columns jp !! c = Some col /\
    hashChain col !! h = Some v.

Definition has_event (jp : JPGraph) (v : nat) (P : Event -> Prop) : Prop :=
  exists vx, vertices jp !! v = Some vx /\ P (v_event vx).

(** A vertex carries a valid event, its column is the one of the event's
    creator, its self parent is an older vertex of the same column, and its
    other parent has the hash that the event names. *)
Record vertex_ok (jp : JPGraph) (v : nat) (vx : Vertex) : Prop := VertexOk {
  vok_hash : Event_Hash (v_event vx) = SelfHash (v_event vx);
  vok_event : event_ok (v_event vx);
  vok_round : exists n, RoundID (v_event vx) = Some n /\ (n < length (bigs jp))%nat;
  vok_seq : graph jp !! SelfSig (v_event vx) = Some (v_seqNum vx);
  vok_self : forall p, selfPt vx = Some p -> (p < v)%nat /\
    has_event jp p (fun e => SelfSig e = SelfSig (v_event vx));
  vok_other : forall p, anotherPt vx = Some p ->
    has_event jp p (fun e => SelfHash e = OtherPartH (v_event vx));
  vok_color : length (color vx) = MaxColorCluster }.

Record column_ok (jp : JPGraph) (a : Address) (c : nat) (col : Column) : Prop := ColumnOk {
  cok_seq : c_seqNum col = c;
  cok_chain : forall h v, hashChain col !! h = Some v ->
    has_event jp v (fun e => SelfHash e = h /\ SelfSig e = a);
  cok_top : forall v, verTop col = Some v -> exists h, hashChain col !! h = Some v }.

Record round_ok (jp : JPGraph) (rd : Round) : Prop := RoundOk {
  rok_nc : nc_locked rd = false;
  rok_witlen : length (witnesses rd) = MaxNodeCount;
  rok_wit : forall i v, witnesses rd !! i = Some (Some v) -> (v < length (vertices jp))%nat;
  rok_comer : Forall (fun q => exists v, in_graph jp (TargetAddr q) (TargetHash q) v)
    (newComer rd);
  rok_lost : forall h l, lostDict rd !! h = Some l ->
    Forall (fun v => has_event jp v (fun e => OtherPartH e = h)) l }.

Record inv (jp : JPGraph) : Prop := Inv {
  inv_len : length (columns jp) = size (graph jp);
  inv_inj : forall a b c, graph jp !! a = Some c -> graph jp !! b = Some c -> a = b;
  inv_column : forall a c, graph jp !! a = Some c ->
    exists col, columns jp !! c = Some col /\ column_ok jp a c col;
  inv_vertex : forall v vx, vertices jp !! v = Some vx -> vertex_ok jp v vx;
  inv_round : forall r rd, rounds jp !! r = Some rd -> round_ok jp rd;
  inv_queue : queue jp <> [] /\ Forall (fun r => (r < length (rounds jp))%nat) (queue jp);
  inv_super : superMajority jp = Z.of_nat (size (graph jp)) * 2 / 3;
  inv_coinbase : is_Some (graph jp !! Coinbase jp) }.

(** Graphs only grow: nodes, events and what the events say stay. *)
Record grows (jp jp' : JPGraph) : Prop := Grows {
  gr_graph : graph jp ⊆ graph jp';
  gr_columns : forall c col, columns jp !! c = Some col -> exists col',
    columns jp' !! c = Some col' /\ hashChain col ⊆ hashChain col' /\
    c_seqNum col' = c_seqNum col;
  gr_vertices : forall v vx, vertices jp !! v = Some vx -> exists vx',
    vertices jp' !! v = Some vx' /\ v_event vx' = v_event vx;
  gr_bigs : (length (bigs jp) <= length (bigs jp'))%nat }.

Lemma grows_refl jp : grows jp jp.
Proof. split; eauto. Qed.

Lemma grows_trans jp1 jp2 jp3 : grows jp1 jp2 -> grows jp2 jp3 -> grows jp1 jp3.
Proof.
  intros [G1 C1 V1 B1] [G2 C2 V2 B2]. split; [by etrans| | |lia].
  - intros c col H. destruct (C1 c col H) as (col' & H' & Hs & Hq).
    destruct (C2 c col' H') as (col'' & H'' & Hs' & Hq'). exists col''.
    split; [done|]. split; [by etrans|congruence].
  - intros v vx H. destruct (V1 v vx H) as (vx' & H' & E').
    destruct (V2 v vx' H') as (vx'' & H'' & E''). exists vx''. split; congruence.
Qed.

Lemma has_event_grows jp jp' v P : grows jp jp' -> has_event jp v P -> has_event jp' v P.
Proof.
  intros G (vx & H & HP). destruct (gr_vertices _ _ G v vx H) as (vx' & H' & E).
  exists vx'. by rewrite E.
Qed.

Lemma in_graph_grows jp jp' a h v : grows jp jp' -> in_graph jp a h v -> in_graph jp' a h v.
Proof.
  intros G (c & col & Hg & Hc & Hh).
  destruct (gr_columns _ _ G c col Hc) as (col' & Hc' & Hs & _).
  exists c, col'. split_and!; [by eapply lookup_weaken; [|apply G]|done|].
  by eapply lookup_weaken.
Qed.

Lemma vertex_lt_grows jp jp' v :
  grows jp jp' -> (v < length (vertices jp))%nat -> (v < length (vertices jp'))%nat.
Proof.
  intros G H. apply lookup_lt_is_Some_2 in H as [vx H].
  destruct (gr_vertices _ _ G v vx H) as (vx' & H' & _). by eapply lookup_lt_Some.
Qed.

Lemma vertex_ok_grows jp jp' v vx : grows jp jp' -> vertex_ok jp v vx -> vertex_ok jp' v vx.
Proof.
  intros G [H1 H2 (n & H3 & H3') H4 H5 H6 H7]. split; try done.
  - exists n. split; [done|]. pose proof (gr_bigs _ _ G). lia.
  - by eapply lookup_weaken; [|apply G].
  - intros p Hp. destruct (H5 p Hp). split; [done|]. by eapply has_event_grows.
  - intros p Hp. by eapply has_event_grows; [|apply H6].
Qed.

Lemma column_ok_grows jp jp' a c col :
  grows jp jp' -> column_ok jp a c col -> column_ok jp' a c col.
Proof.
  intros G [H1 H2 H3]. split; try done. intros h v Hh. by eapply has_event_grows; [|apply H2].
Qed.

Lemma round_ok_grows jp jp' rd : grows jp jp' -> round_ok jp rd -> round_ok jp' rd.
Proof.
  intros G [H1 H2 H3 H4 H5]. split; try done.
  - intros i v Hv. eapply vertex_lt_grows; eauto.
  - eapply Forall_impl; [exact H4|]. cbn. intros q [v Hv]. exists v.
    by eapply in_graph_grows.
  - intros h l Hl. eapply Forall_impl; [by eapply H5|]. cbn. intros v.
    by apply has_event_grows.
Qed.

(** *** One store changes *)

Lemma inv_set_vertices jp l :
  inv jp -> grows jp (set_vertices l jp) ->
  (forall v vx, l !! v = Some vx -> vertex_ok (set_vertices l jp) v vx) ->
  inv (set_vertices l jp).
Proof.
  intros [I1 I2 I3 I4 I5 I6 I7 I8] G Hv. split; try done.
  - intros a c H. destruct (I3 a c H) as (col & Hc & Hok). exists col.
    split; [done|]. by eapply column_ok_grows.
  - intros r rd H. eapply round_ok_grows; [done|]. by eapply I5.
Qed.

Lemma inv_set_rounds jp l :
  inv jp -> length l = length (rounds jp) ->
  (forall r rd, l !! r = Some rd -> round_ok jp rd) -> inv (set_rounds l jp).
Proof.
  intros [I1 I2 I3 I4 I5 [I6 I6'] I7 I8] Hl Hr.
  assert (G : grows jp (set_rounds l jp)) by (split; cbn; eauto).
  split; try done.
  - intros a c H. destruct (I3 a c H) as (col & Hc & Hok). exists col.
    split; [done|]. by eapply column_ok_grows.
  - intros v vx H. eapply vertex_ok_grows; [done|]. by apply I4.
  - intros r rd H. eapply round_ok_grows; [done|]. by eapply Hr.
  - split; [done|]. cbn. by rewrite Hl.
Qed.

Lemma inv_upd_vertex jp v vx vx' :
  inv jp -> vertices jp !! v = Some vx -> v_event vx' = v_event vx -> vertex_ok jp v vx' ->
  let jp' := set_vertices (<[v := vx']> (vertices jp)) jp in inv jp' /\ grows jp jp'.
Proof.
  intros I Hv He Hok jp'.
  assert (G : grows jp jp').
  { split; cbn; eauto. intros w wx Hw. destruct (decide (w = v)) as [->|Hne].
    - exists vx'. rewrite list_lookup_insert_eq by (by eapply lookup_lt_Some).
      split; congruence.
    - exists wx. by rewrite list_lookup_insert_ne. }
  split; [|done]. apply inv_set_vertices; [done|done|]. intros w wx Hw.
  apply list_lookup_insert_Some in Hw as [(<- & -> & _)|[Hne Hw]];
    (eapply vertex_ok_grows; [done|]); [done|by apply I].
Qed.

Lemma inv_upd_round jp r rd' :
  inv jp -> round_ok jp rd' ->
  let jp' := set_rounds (<[r := rd']> (rounds jp)) jp in inv jp' /\ grows jp jp'.
Proof.
  intros I Hok jp'. split; [|split; cbn; eauto].
  apply inv_set_rounds; [done|apply length_insert|]. intros q qd Hq.
  apply list_lookup_insert_Some in Hq as [(<- & -> & _)|[Hne Hq]]; [done|].
  by eapply (inv_round jp I).
Qed.

Lemma inv_new_vertex jp vx :
  inv jp -> vertex_ok jp (length (vertices jp)) vx ->
  let jp' := set_vertices (vertices jp ++ [vx]) jp in inv jp' /\ grows jp jp'.
Proof.
  intros I Hok jp'.
  assert (G : grows jp jp').
  { split; cbn; eauto. intros w wx Hw. exists wx. split; [|done].
    by apply lookup_app_l_Some. }
  split; [|done]. apply inv_set_vertices; [done|done|]. intros w wx Hw.
  eapply vertex_ok_grows; [done|].
  apply lookup_app_Some in Hw as [Hw|[Hle Hw]]; [by apply I|].
  apply list_lookup_singleton_Some in Hw as [Hw <-].
  by replace w with (length (vertices jp)) by lia.
Qed.

(** Adding an entry to a column. *)
Lemma inv_upd_column jp a c col h v :
  inv jp -> graph jp !! a = Some c -> columns jp !! c = Some col ->
  hashChain col !! h = None ->
  has_event jp v (fun e => SelfHash e = h /\ SelfSig e = a) ->
  let col' := MkColumn (<[h := v]> (hashChain col)) (Some v) (c_seqNum col) in
  let jp' := set_columns (<[c := col']> (columns jp)) jp in
  inv jp' /\ grows jp jp' /\ in_graph jp' a h v.
Proof.
  intros I Hg Hc Hh Hv col' jp'.
  assert (Hc' : columns jp' !! c = Some col').
  { cbn. by rewrite list_lookup_insert_eq by (by eapply lookup_lt_Some). }
  assert (G : grows jp jp').
  { split; cbn; eauto. intros d cd Hd. destruct (decide (d = c)) as [->|Hne].
    - exists col'. split; [done|]. rewrite Hc in Hd. simplify_eq. split; [|done].
      cbn. by apply insert_subseteq.
    - exists cd. by rewrite list_lookup_insert_ne. }
  split; [|split; [done|]].
  - destruct I as [I1 I2 I3 I4 I5 I6 I7 I8]. split; try done.
    + cbn. by rewrite length_insert.
    + intros b d Hb. destruct (decide (d = c)) as [->|Hne].
      * exists col'. split; [done|]. assert (b = a) as -> by (by eapply I2).
        destruct (I3 a c Hg) as (col0 & Hc0 & Hok). rewrite Hc in Hc0. simplify_eq.
        destruct Hok as [K1 K2 K3]. split; cbn; [done| |].
        -- intros h' v' Hh'. apply lookup_insert_Some in Hh' as [[<- <-]|[_ Hh']]; [done|].
           by apply K2.
        -- intros w [= <-]. exists h. by rewrite lookup_insert_eq.
      * destruct (I3 b d Hb) as (cd & Hd & Hok). exists cd. cbn.
        rewrite list_lookup_insert_ne by done. split; [done|].
        by eapply column_ok_grows.
    + intros w wx Hw. eapply vertex_ok_grows; [done|]. by apply I4.
    + intros r rd Hr. eapply round_ok_grows; [done|]. by eapply I5.
  - exists c, col'. split_and!; [done|done|]. cbn. by rewrite lookup_insert_eq.
Qed.

(** Changes of other components. *)
Lemma inv_chan jp jp' :
  inv jp -> graph jp' = graph jp -> columns jp' = columns jp -> vertices jp' = vertices jp ->
  bigs jp' = bigs jp -> rounds jp' = rounds jp -> queue jp' = queue jp ->
  superMajority jp' = superMajority jp -> Coinbase jp' = Coinbase jp ->
  inv jp' /\ grows jp jp'.
Proof.
  intros I E1 E2 E3 E4 E5 E6 E7 E8.
  assert (G : grows jp jp').
  { split; rewrite ?E1, ?E2, ?E3, ?E4; eauto. }
  split; [|done]. destruct I as [I1 I2 I3 I4 I5 I6 I7 I8].
  split; rewrite ?E1, ?E2, ?E3, ?E4, ?E5, ?E6, ?E7, ?E8; try done.
  - intros a c H. destruct (I3 a c H) as (col & Hc & Hok). exists col.
    split; [done|]. by eapply column_ok_grows.
  - intros v vx H. eapply vertex_ok_grows; [done|]. by apply I4.
  - intros r rd H. eapply round_ok_grows; [done|]. by eapply I5.
Qed.

End Invariant.

(** ** Operations keep the graph well-formed *)

Section Preservation.

(** Everything but nodes, columns and the count that goes with them. *)
Definition same_rest (jp jp' : JPGraph) : Prop :=
  vertices jp' = vertices jp /\ bigs jp' = bigs jp /\ rounds jp' = rounds jp /\
  queue jp' = queue jp /\ Coinbase jp' = Coinbase jp /\
  RequestChan jp' = RequestChan jp /\ roundTrigger jp' = roundTrigger jp /\
  SelfEventCreated jp' = SelfEventCreated jp.

Lemma AddNode_spec jp a :
  inv jp -> exists c jp', AddNode a jp = (Ok c, jp') /\ inv jp' /\ grows jp jp' /\
    graph jp' !! a = Some c /\ same_rest jp jp' /\
    (graph jp !! a = None ->
       graph jp' = <[a := size (graph jp)]> (graph jp) /\
       columns jp' = columns jp ++ [MkColumn ∅ None (size (graph jp))]).
Proof.
  intros I. unfold AddNode, mbind, JM_bind, get, modify, mret, JM_ret.
  destruct (graph jp !! a) as [c|] eqn:Ha.
  { exists c, jp. split; [done|]. split; [done|]. split; [apply grows_refl|]. done. }
  pose proof I as [I1 I2 I3 I4 I5 I6 I7 I8]. cbn.
  set (jp' := set_superMajority _ _).
  exists (length (columns jp)), jp'.
  assert (G : grows jp jp').
  { split; cbn; [by apply insert_subseteq| |eauto|done].
    intros c col Hc. exists col. split; [by apply lookup_app_l_Some|done]. }
  split; [done|]. split; [|split; [done|split; [cbn; by rewrite lookup_insert_eq|]]].
  2: { split; [done|]. intros _. cbn. by rewrite I1. }
  assert (Hnew : forall b c, graph jp !! b = Some c -> c <> length (columns jp)).
  { intros b c Hb ->. destruct (I3 b _ Hb) as (col & Hc & _).
    apply lookup_lt_Some in Hc. lia. }
  split; cbn.
  - rewrite length_app, map_size_insert_None by done. cbn. lia.
  - intros b b' c Hb Hb'. apply lookup_insert_Some in Hb as [[<- <-]|[_ Hb]];
      apply lookup_insert_Some in Hb' as [[<- Hq]|[_ Hb']]; try done.
    + by apply Hnew in Hb'.
    + subst c. by apply Hnew in Hb.
    + by eapply I2.
  - intros b c Hb. apply lookup_insert_Some in Hb as [[<- <-]|[_ Hb]].
    + exists (MkColumn ∅ None (size (graph jp))). split; [by apply list_lookup_middle|].
      split; cbn; [by rewrite I1|done|done].
    + destruct (I3 b c Hb) as (col & Hc & Hok). exists col.
      split; [by apply lookup_app_l_Some|]. by eapply column_ok_grows.
  - intros v vx Hv. eapply vertex_ok_grows; [done|]. by apply I4.
  - intros r rd Hr. eapply round_ok_grows; [done|]. by eapply I5.
  - done.
  - rewrite map_size_insert_None by done. f_equal. f_equal. lia.
  - destruct I8 as [c Hc]. exists c. rewrite lookup_insert_ne; [done|].
    intros ->. by rewrite Ha in Hc.
Qed.

Lemma length_Event_Hash e : event_ok e -> length (Event_Hash e) = HashLength.
Proof.
  intros He. rewrite Event_Hash_sponge by done. unfold sponge.
  change (S (32 / 136))%nat with 1%nat. cbn [squeeze]. rewrite app_nil_r.
  apply length_take_le. rewrite length_block; [unfold HashLength; lia| |].
  - split; [unfold maxRate; lia|reflexivity].
  - apply length_absorbed.
Qed.

(** [addComer] for a hash that is not there yet. *)
Lemma addComer_spec jp r rd rqa v :
  inv jp -> rounds jp !! r = Some rd -> in_graph jp (TargetAddr rqa) (TargetHash rqa) v ->
  Forall (fun q => TargetHash q <> TargetHash rqa) (newComer rd) ->
  exists jp', addComer r rqa jp = (Ok tt, jp') /\ inv jp' /\ grows jp jp' /\
    jp' = set_rounds (<[r := set_newComer (newComer rd ++ [rqa]) rd]> (rounds jp)) jp.
Proof.
  intros I Hr Hin Hfresh. pose proof (inv_round jp I r rd Hr) as Hok.
  unfold addComer. rewrite (JM_bind_ok (get_round r) _ jp rd jp).
  2: { unfold get_round, mbind, JM_bind, get. by rewrite Hr. }
  rewrite (rok_nc _ _ Hok).
  assert (Hex : existsb (fun n => Compare (TargetHash n) (TargetHash rqa) =? 0) (newComer rd)
    = false).
  { apply not_true_is_false. intros H. apply existsb_exists in H as (q & Hq & HC).
    apply Z.eqb_eq, Compare_eq in HC. rewrite List.Forall_forall in Hfresh.
    by apply (Hfresh q). }
  rewrite Hex. set (rd' := set_newComer (newComer rd ++ [rqa]) rd).
  assert (Hrd' : round_ok jp rd').
  { destruct Hok as [K1 K2 K3 K4 K5]. split; cbn; try done.
    apply Forall_app. split; [done|]. constructor; [by exists v|constructor]. }
  destruct (inv_upd_round jp r rd' I Hrd') as [I' G'].
  eexists. split; [|split; [exact I'|split; [exact G'|reflexivity]]].
  assert (Hlt : (r < length (rounds jp))%nat) by (by eapply lookup_lt_Some).
  unfold upd_round, get_round, mbind, JM_bind, get, modify. rewrite Hr. cbn.
  rewrite list_lookup_insert_eq by done. unfold set_rounds. cbn. do 2 f_equal.
  rewrite list_insert_insert. destruct (decide (r = r)); [|done].
  f_equal. unfold rd', set_nc, set_newComer. cbn. by rewrite (rok_nc _ _ Hok).
Qed.

(** The new vertex of an event. *)
Record event_added (jp : JPGraph) (e : Event) (vert : nat) : Prop := EventAdded {
  ea_in : in_graph jp (SelfSig e) (SelfHash e) vert;
  ea_vertex : exists vx, vertices jp !! vert = Some vx /\ v_event vx = CopyEvent e }.

Lemma event_added_grows jp jp' e v : grows jp jp' -> event_added jp e v -> event_added jp' e v.
Proof.
  intros G [H1 (vx & H2 & H3)]. split; [by eapply in_graph_grows|].
  destruct (gr_vertices _ _ G v vx H2) as (vx' & H' & E). exists vx'. split; congruence.
Qed.

(** Events that pass the check and point to a round number. *)
Record event_fit (jp : JPGraph) (e : Event) : Prop := EventFit {
  fit_ok : event_ok (CopyEvent e);
  fit_hash : Event_Hash (CopyEvent e) = SelfHash e;
  fit_round : exists n, RoundID e = Some n /\ (n < length (bigs jp))%nat }.

Lemma AddEvent_insert_spec jp e ty sc oc col :
  inv jp -> event_fit jp e -> graph jp !! SelfSig e = Some sc -> columns jp !! sc = Some col ->
  hashChain col !! SelfHash e = None ->
  (forall o, oc = Some o -> exists b, graph jp !! b = Some o) ->
  wp (AddEvent_insert e ty sc oc)
    (fun p jp' => inv jp' /\ grows jp jp' /\ event_added jp' e p.1 /\
      rounds jp' = rounds jp /\ queue jp' = queue jp /\ bigs jp' = bigs jp /\
      graph jp' = graph jp) (fun _ _ => False) jp.
Proof.
  intros I [Hok Hh Hrid] Hg Hc Hn Hoc. unfold AddEvent_insert.
  apply wp_bind. eapply wp_get_column; [exact Hc|]. apply wp_bind, wp_new_vertex.
  set (vert := length (vertices jp)). set (vx := MkVertex _ _ _ _ _ _).
  destruct (inv_column jp I _ _ Hg) as (col0 & Hc0 & [K1 K2 K3]).
  rewrite Hc in Hc0. simplify_eq.
  assert (Hvx : vertex_ok jp vert vx).
  { split; try done; cbn.
    intros p Hp. destruct (K3 p Hp) as [h Hh']. apply K2 in Hh' as (px & Hpx & _ & Hs).
    split; [by eapply lookup_lt_Some|]. exists px. done. }
  destruct (inv_new_vertex jp vx I Hvx) as [I1 G1]. set (jp1 := set_vertices _ jp) in *.
  apply wp_bind. eapply wp_upd_column; [exact Hc|].
  assert (Hv1 : vertices jp1 !! vert = Some vx) by (by apply list_lookup_middle).
  destruct (inv_upd_column jp1 (SelfSig e) (c_seqNum col0) col0 (SelfHash e) vert I1 Hg Hc Hn)
    as (I2 & G2 & Hin); [exists vx; done|].
  set (jp2 := set_columns _ jp1) in *.
  assert (G : grows jp jp2) by (by eapply grows_trans).
  assert (Hadd : event_added jp2 e vert) by (split; [done|by exists vx]).
  destruct oc as [o|]; [|by apply wp_ret].
  destruct (Hoc o eq_refl) as [b Hb].
  destruct (inv_column jp2 I2 b o Hb) as (ocol & Ho & [_ L2 _]).
  apply wp_bind. eapply wp_get_column; [exact Ho|].
  destruct (hashChain ocol !! OtherPartH e) as [p|] eqn:Ep; [|by apply wp_ret].
  apply wp_bind. eapply wp_upd_vertex; [exact Hv1|]. apply wp_ret.
  destruct (L2 _ _ Ep) as (px & Hpx & Hph & _).
  destruct (inv_upd_vertex jp2 vert vx (set_anotherPt (Some p) vx) I2 Hv1 eq_refl) as [I3 G3].
  { destruct (inv_vertex jp2 I2 vert vx Hv1) as [M1 M2 M3 M4 M5 M6 M7].
    split; try done. cbn. intros q [= <-]. by exists px. }
  split; [done|]. split; [by eapply grows_trans|].
  split; [by eapply event_added_grows|done].
Qed.

Lemma search_round_spec jp q n round :
  inv jp -> (n < length (bigs jp))%nat -> Forall (fun r => (r < length (rounds jp))%nat) q ->
  (forall r, round = Some r -> (r < length (rounds jp))%nat) ->
  wp (search_round (Some n) q round)
    (fun res jp' => jp' = jp /\ forall r, res = Some r -> (r < length (rounds jp))%nat)
    (fun _ _ => False) jp.
Proof.
  intros I Hn Hq. revert round. induction Hq as [|r q Hr Hq IH]; intros round Hround;
    cbn [search_round].
  { by apply wp_ret. }
  destruct (lookup_lt_is_Some_2 _ _ Hr) as [rd Hrd].
  destruct (lookup_lt_is_Some_2 _ _ Hn) as [z Hz].
  apply wp_bind. eapply wp_get_round; [exact Hrd|].
  apply wp_bind. eapply wp_read_big; [done|exact Hz|].
  destruct (z =? index rd).
  - apply wp_ret. split; [done|]. by intros r' [= <-].
  - apply IH. by intros r' [= <-].
Qed.

Lemma link_lost_spec jp vert l h :
  inv jp -> has_event jp vert (fun e => SelfHash e = h) ->
  Forall (fun v => has_event jp v (fun e => OtherPartH e = h)) l ->
  wp (link_lost vert l)
    (fun _ jp' => inv jp' /\ grows jp jp' /\ rounds jp' = rounds jp /\ queue jp' = queue jp /\
      bigs jp' = bigs jp /\ graph jp' = graph jp)
    (fun _ _ => False) jp.
Proof.
  revert jp. induction l as [|v l IH]; intros jp I Hv Hl;
    cbn [link_lost].
  { apply wp_ret. split; [done|]. split; [apply grows_refl|done]. }
  inversion Hl as [|? ? (vx & Hvx & Hoh) Hl']; subst.
  apply wp_bind. eapply wp_upd_vertex; [exact Hvx|].
  destruct (inv_upd_vertex jp v vx (set_anotherPt (Some vert) vx) I Hvx eq_refl) as [I' G'].
  { destruct (inv_vertex jp I v vx Hvx) as [M1 M2 M3 M4 M5 M6 M7]. split; try done.
    cbn. intros q [= <-]. destruct Hv as (px & Hpx & Hh). exists px. by rewrite Hh. }
  eapply wp_mono; [apply IH; [done|by eapply has_event_grows|]| |done].
  - eapply Forall_impl; [exact Hl'|]. intros w. by apply has_event_grows.
  - cbn. intros _ jp' (J1 & J2 & J3 & J4 & J5 & J6). split; [done|].
    split; [by eapply grows_trans|]. by rewrite J3, J4, J5, J6.
Qed.

(** What an update inside [AddEvent] guarantees. *)
Definition step_ok (jp jp' : JPGraph) : Prop :=
  inv jp' /\ grows jp jp' /\ length (rounds jp') = length (rounds jp) /\
  queue jp' = queue jp /\ bigs jp' = bigs jp /\ graph jp' = graph jp.

Lemma step_ok_trans jp1 jp2 jp3 : step_ok jp1 jp2 -> step_ok jp2 jp3 -> step_ok jp1 jp3.
Proof.
  intros (A1 & A2 & A3 & A4 & A5 & A6) (B1 & B2 & B3 & B4 & B5 & B6).
  split; [done|]. split; [by eapply grows_trans|]. split_and!; congruence.
Qed.

Lemma step_ok_refl jp : inv jp -> step_ok jp jp.
Proof. intros I. split; [done|]. split; [apply grows_refl|done]. Qed.

Lemma step_ok_chan jp jp' :
  inv jp -> graph jp' = graph jp -> columns jp' = columns jp -> vertices jp' = vertices jp ->
  bigs jp' = bigs jp -> rounds jp' = rounds jp -> queue jp' = queue jp ->
  superMajority jp' = superMajority jp -> Coinbase jp' = Coinbase jp -> step_ok jp jp'.
Proof.
  intros I E1 E2 E3 E4 E5 E6 E7 E8. destruct (inv_chan jp jp') as [I' G']; try done.
  split; [done|]. split; [done|]. split_and!; congruence.
Qed.

Definition too_many_nodes (e : stop) (jp : JPGraph) : Prop :=
  e = Panic /\ (MaxNodeCount < size (graph jp))%nat.

Lemma witness_spec jp r vert e sc :
  inv jp -> (r < length (rounds jp))%nat -> event_added jp e vert ->
  graph jp !! SelfSig e = Some sc ->
  wp (_ ← upd_vertex vert (set_witness Witness); set_round_witness r sc vert)
    (fun _ jp' => step_ok jp jp' /\
      forall rd, rounds jp !! r = Some rd -> exists rd', rounds jp' !! r = Some rd' /\
        newComer rd' = newComer rd) too_many_nodes jp.
Proof.
  intros I Hr Hadd Hg. destruct (ea_vertex _ _ _ Hadd) as (vx & Hvx & _).
  apply wp_bind. eapply wp_upd_vertex; [exact Hvx|].
  destruct (inv_upd_vertex jp vert vx (set_witness Witness vx) I Hvx eq_refl) as [I1 G1].
  { destruct (inv_vertex jp I vert vx Hvx) as [M1 M2 M3 M4 M5 M6 M7]. by split. }
  set (jp1 := set_vertices _ jp) in *.
  destruct (lookup_lt_is_Some_2 (rounds jp1) r Hr) as [rd Hrd].
  pose proof (inv_round jp1 I1 r rd Hrd) as Hok.
  apply wp_bind. eapply wp_get_round; [exact Hrd|].
  destruct (witnesses rd !! sc) as [w|] eqn:Ew.
  - apply wp_bind. eapply wp_deref; [done|]. eapply wp_upd_round; [exact Hrd|].
    destruct (inv_upd_round jp1 r (set_witnesses (<[sc := Some vert]> (witnesses rd)) rd) I1)
      as [I2 G2].
    { destruct Hok as [K1 K2 K3 K4 K5]. split; cbn; try done.
      - by rewrite length_insert.
      - intros i v Hi. apply list_lookup_insert_Some in Hi as [(_ & [= <-] & _)|[_ Hi]].
        + apply (vertex_lt_grows jp jp1 vert G1). by eapply lookup_lt_Some.
        + by eapply K3. }
    split.
    + split; [done|]. split; [by eapply grows_trans|]. cbn. by rewrite length_insert.
    + intros rd0 Hrd0. eexists. split; [cbn; by apply list_lookup_insert_eq|].
      cbn. change (rounds jp1) with (rounds jp) in Hrd. congruence.
  - apply lookup_ge_None in Ew. rewrite (rok_witlen _ _ Hok) in Ew.
    destruct (inv_column jp I _ _ Hg) as (col & Hc & _). apply lookup_lt_Some in Hc.
    rewrite (inv_len jp I) in Hc.
    assert (Hlt : (MaxNodeCount < size (graph jp))%nat) by lia.
    apply wp_bind. exact (conj eq_refl Hlt).
Qed.

Lemma lost_spec jp r rd vert e :
  inv jp -> rounds jp !! r = Some rd -> event_added jp e vert ->
  wp (match lostDict rd !! SelfHash e with
      | Some l =>
          _ ← link_lost vert l;
          upd_round r (fun rd => set_lostDict (delete (SelfHash e) (lostDict rd)) rd)
      | None => mret tt
      end)
    (fun _ jp' => step_ok jp jp') (fun _ _ => False) jp.
Proof.
  intros I Hrd Hadd. destruct (lostDict rd !! SelfHash e) as [l|] eqn:El.
  2: { apply wp_ret. by apply step_ok_refl. }
  apply wp_bind. eapply wp_mono; [eapply (link_lost_spec _ _ _ (SelfHash e)); [done| |]| |done].
  - destruct (ea_vertex _ _ _ Hadd) as (vx & Hvx & Hev). exists vx. by rewrite Hev.
  - by eapply (rok_lost jp rd (inv_round jp I r rd Hrd)).
  - cbn. intros _ jp1 (I1 & G1 & R1 & Q1 & B1 & Gr1).
    eapply wp_upd_round; [rewrite R1; exact Hrd|].
    pose proof (inv_round jp1 I1 r rd ltac:(rewrite R1; exact Hrd)) as Hok.
    destruct (inv_upd_round jp1 r (set_lostDict (delete (SelfHash e) (lostDict rd)) rd) I1)
      as [I2 G2].
    { destruct Hok as [K1 K2 K3 K4 K5]. split; cbn; try done.
      intros h l' Hl'. apply lookup_delete_Some in Hl' as [_ Hl']. by eapply K5. }
    split; [done|]. split; [by eapply grows_trans|]. cbn.
    rewrite length_insert, R1, Q1, B1, Gr1. done.
Qed.

Lemma link_later_spec jp r vert e :
  inv jp -> (r < length (rounds jp))%nat -> event_added jp e vert ->
  wp (upd_round r (fun rd => set_lostDict (<[OtherPartH e :=
        default [] (lostDict rd !! OtherPartH e) ++ [vert]]> (lostDict rd)) rd))
    (fun _ jp' => step_ok jp jp') (fun _ _ => False) jp.
Proof.
  intros I Hr Hadd. destruct (lookup_lt_is_Some_2 (rounds jp) r Hr) as [rd Hrd].
  eapply wp_upd_round; [exact Hrd|]. pose proof (inv_round jp I r rd Hrd) as Hok.
  match goal with |- step_ok _ (set_rounds (<[r := ?x]> _) _) =>
    destruct (inv_upd_round jp r x I) as [I2 G2] end.
  { destruct Hok as [K1 K2 K3 K4 K5]. split; cbn; try done.
    intros h l Hl. apply lookup_insert_Some in Hl as [[<- <-]|[_ Hl]]; [|by eapply K5].
    apply Forall_app. split.
    - destruct (lostDict rd !! OtherPartH e) as [l|] eqn:El; [by eapply K5|constructor].
    - constructor; [|constructor]. destruct (ea_vertex _ _ _ Hadd) as (vx & Hvx & Hev).
      exists vx. by rewrite Hev. }
  split; [done|]. split; [done|]. cbn. by rewrite length_insert.
Qed.

Lemma AddEvent_round_spec jp r vert e sc fw lp ty :
  inv jp -> (r < length (rounds jp))%nat -> event_added jp e vert ->
  graph jp !! SelfSig e = Some sc ->
  (forall rd, rounds jp !! r = Some rd ->
     Forall (fun q => TargetHash q <> SelfHash e) (newComer rd)) ->
  wp (AddEvent_round r vert sc fw lp ty) (fun _ jp' => step_ok jp jp') too_many_nodes jp.
Proof.
  intros I Hr Hadd Hg Hfresh. unfold AddEvent_round.
  destruct (ea_vertex _ _ _ Hadd) as (vx & Hvx & Hev).
  destruct (inv_column jp I _ _ Hg) as (col & Hc & Hcok).
  apply wp_bind. eapply wp_get_vertex; [exact Hvx|]. rewrite Hev.
  change (SelfHash (CopyEvent e)) with (SelfHash e).
  change (SelfSig (CopyEvent e)) with (SelfSig e).
  change (OtherPartH (CopyEvent e)) with (OtherPartH e).
  apply wp_bind. eapply wp_get_column; [exact Hc|]. rewrite (cok_seq _ _ _ _ Hcok).
  apply wp_bind.
  assert (Hw : wp (if (fw || (ty =? Witness) || (size (hashChain col) =? 1)%nat)%bool
      then _ ← upd_vertex vert (set_witness Witness); set_round_witness r sc vert
      else mret tt)
    (fun _ jp' => step_ok jp jp' /\
      forall rd, rounds jp !! r = Some rd -> exists rd', rounds jp' !! r = Some rd' /\
        newComer rd' = newComer rd) too_many_nodes jp).
  { destruct (_ || _)%bool; [by eapply witness_spec|]. apply wp_ret.
    split; [by apply step_ok_refl|]. eauto. }
  eapply wp_mono; [exact Hw| |done]. clear Hw. intros _ jp1 [S1 Hrd1].
  destruct (lookup_lt_is_Some_2 _ _ Hr) as [rd Hrd].
  destruct (Hrd1 rd Hrd) as (rd1 & Hr1 & Hnc1). pose proof S1 as (I1 & G1 & _).
  pose proof (event_added_grows _ _ _ _ G1 Hadd) as Hadd1.
  destruct (addComer_spec jp1 r rd1 (MkRequestArg (SelfHash e) (SelfSig e) 0) vert I1 Hr1)
    as (jp2 & E2 & I2 & G2 & ->); [apply Hadd1|rewrite Hnc1; by apply Hfresh|].
  set (jp2 := set_rounds _ jp1) in *.
  assert (S2 : step_ok jp jp2).
  { eapply step_ok_trans; [exact S1|]. split; [done|]. split; [done|]. cbn.
    by rewrite length_insert. }
  apply wp_bind. unfold wp at 1. rewrite E2.
  pose proof (event_added_grows _ _ _ _ G2 Hadd1) as Hadd2.
  set (rd2 := set_newComer (newComer rd1 ++ [MkRequestArg (SelfHash e) (SelfSig e) 0]) rd1).
  assert (Hr2 : rounds jp2 !! r = Some rd2).
  { cbn. apply list_lookup_insert_eq. by eapply lookup_lt_Some. }
  apply wp_bind. eapply wp_get_round; [exact Hr2|].
  apply wp_bind. eapply wp_mono; [by eapply (lost_spec jp2 r rd2 vert e)| |done].
  intros [] jp3 S3. cbv beta in S3. pose proof (step_ok_trans _ _ _ S2 S3) as S3'.
  pose proof S3' as (I3 & G3 & R3 & _). destruct lp; [|by apply wp_ret].
  eapply wp_mono; [apply link_later_spec; [done|by rewrite R3|by eapply event_added_grows]| |done].
  intros [] jp4 S4. cbv beta in S4. by eapply step_ok_trans.
Qed.

(** A channel is full. *)
Definition add_stops (e : stop) (jp : JPGraph) : Prop :=
  match e with
  | Blocked => (MaxChanItem <= length (RequestChan jp))%nat \/
               (MaxChanItem <= length (roundTrigger jp))%nat \/
               (MaxChanItem <= length (SelfEventCreated jp))%nat
  | Panic => (MaxNodeCount < size (graph jp))%nat
  | Diverges => False
  end.

(** No other node's event has the hash [h]. *)
Definition only_of (jp : JPGraph) (a : Address) (h : Hash) : Prop :=
  forall v vx, vertices jp !! v = Some vx -> SelfHash (v_event vx) = h ->
    SelfSig (v_event vx) = a.

Lemma fresh_comer jp a sc col h r rd :
  inv jp -> only_of jp a h -> graph jp !! a = Some sc -> columns jp !! sc = Some col ->
  hashChain col !! h = None -> rounds jp !! r = Some rd ->
  Forall (fun q => TargetHash q <> h) (newComer rd).
Proof.
  intros I Honly Hg Hc Hn Hr.
  eapply Forall_impl; [exact (rok_comer _ _ (inv_round jp I r rd Hr))|]. cbn.
  intros q [v (c & cl & Hq & Hcl & Hh)] <-.
  destruct (inv_column jp I _ _ Hq) as (cl' & Hcl' & Hok). rewrite Hcl in Hcl'. simplify_eq.
  destruct (cok_chain _ _ _ _ Hok _ _ Hh) as (vx & Hvx & Hvh & Hvs).
  specialize (Honly v vx Hvx Hvh). rewrite Hvs in Honly. rewrite Honly in Hq. congruence.
Qed.

Lemma existing_spec jp e vert ty :
  inv jp -> event_added jp e vert \/ in_graph jp (SelfSig e) (SelfHash e) vert ->
  wp (if ty =? Witness then
        _ ← upd_vertex vert (set_witness ty);
        _ ← send roundTrigger set_roundTrigger vert; mret (@None string)
      else mret None)
    (fun res jp' => res = None /\ step_ok jp jp') add_stops jp.
Proof.
  intros I Hin. destruct (ty =? Witness).
  2: { apply wp_ret. split; [done|by apply step_ok_refl]. }
  assert (Hv : exists vx, vertices jp !! vert = Some vx).
  { destruct Hin as [[_ (vx & Hvx & _)]|(c & col & Hg & Hc & Hh)]; [by exists vx|].
    destruct (inv_column jp I _ _ Hg) as (col' & Hc' & Hok). rewrite Hc in Hc'. simplify_eq.
    destruct (cok_chain _ _ _ _ Hok _ _ Hh) as (vx & Hvx & _). by exists vx. }
  destruct Hv as [vx Hvx]. apply wp_bind. eapply wp_upd_vertex; [exact Hvx|].
  destruct (inv_upd_vertex jp vert vx (set_witness ty vx) I Hvx eq_refl) as [I1 G1].
  { destruct (inv_vertex jp I vert vx Hvx) as [M1 M2 M3 M4 M5 M6 M7]. by split. }
  set (jp1 := set_vertices _ jp) in *. apply wp_bind. apply wp_send.
  - intros _. apply wp_ret. split; [done|].
    eapply (step_ok_trans _ jp1); [by split_and!|]. by apply step_ok_chan.
  - intros Hfull. right. left. exact Hfull.
Qed.

(** Nodes are added for unknown creators. *)
Definition nodes_ok (jp jp' : JPGraph) : Prop :=
  inv jp' /\ grows jp jp' /\ vertices jp' = vertices jp /\ bigs jp' = bigs jp.

Lemma node_spec jp jp0 a (o : option nat) :
  nodes_ok jp jp0 -> o = graph jp !! a ->
  wp (match o with Some c => mret c | None => AddNode a end)
    (fun c jp' => nodes_ok jp jp' /\ grows jp0 jp' /\ graph jp' !! a = Some c)
    (fun _ _ => False) jp0.
Proof.
  intros (I & G & V & B) ->. destruct (graph jp !! a) as [c|] eqn:E.
  - apply wp_ret. split; [by split_and!|]. split; [apply grows_refl|].
    by eapply lookup_weaken; [|apply G].
  - destruct (AddNode_spec jp0 a I) as (c & jp' & E' & I' & G' & Hg & (V' & B' & _) & _).
    unfold wp. rewrite E'. split; [|done].
    split; [done|]. split; [by eapply grows_trans|]. split; congruence.
Qed.

Lemma AddEvent_new_spec jp e ty sc oc col fw :
  inv jp -> event_fit jp e -> only_of jp (SelfSig e) (SelfHash e) ->
  graph jp !! SelfSig e = Some sc -> columns jp !! sc = Some col ->
  hashChain col !! SelfHash e = None ->
  (forall o, oc = Some o -> exists b, graph jp !! b = Some o) ->
  wp ('(vert, linkpost) ← AddEvent_insert e ty sc oc;
      _ ← (if linkpost then RequestParentEvent e else mret tt);
      q ← get queue;
      round ← search_round (RoundID e) q None;
      _ ← (match round with
           | Some r => AddEvent_round r vert sc fw linkpost ty
           | None => mret tt
           end);
      v ← get_vertex vert;
      cb ← get Coinbase;
      _ ← (if ((Compare (SelfSig e) cb =? 0) && (witness v =? Normal))%bool
           then send SelfEventCreated set_SelfEventCreated vert else mret tt);
      mret (@None string))
    (fun res jp' => res = None /\ inv jp' /\ grows jp jp' /\ exists v, event_added jp' e v)
    add_stops jp.
Proof.
  intros I Hfit Honly Hg Hc Hn Hoc. apply wp_bind.
  eapply wp_mono; [by eapply AddEvent_insert_spec| |done].
  cbv beta. intros [vert lp] jp1 (I1 & G1 & Hadd & R1 & Q1 & B1 & Gr1). cbn [fst] in Hadd.
  apply wp_bind.
  assert (H2 : wp (if lp then RequestParentEvent e else mret tt)
    (fun _ jp' => step_ok jp1 jp' /\ rounds jp' = rounds jp1) add_stops jp1).
  { destruct lp.
    - apply wp_send; [|by left]. intros _. split; [by apply step_ok_chan|done].
    - apply wp_ret. split; [by apply step_ok_refl|done]. }
  eapply wp_mono; [exact H2| |done]. clear H2. cbv beta.
  intros [] jp2 [(I2 & G2 & L2 & Q2 & B2 & Gr2) R2].
  apply wp_bind, wp_get, wp_bind. destruct (fit_round _ _ Hfit) as (n & -> & Hlt).
  eapply wp_mono; [apply search_round_spec; [done|by rewrite B2, B1|apply I2|done]| |done].
  cbv beta. intros round jp2' [-> Hround]. apply wp_bind.
  pose proof (event_added_grows _ _ _ _ G2 Hadd) as Hadd2.
  assert (H3 : wp (match round with
      | Some r => AddEvent_round r vert sc fw lp ty | None => mret tt end)
    (fun _ jp' => step_ok jp2 jp') add_stops jp2).
  { destruct round as [r|]; [|apply wp_ret; by apply step_ok_refl].
    eapply wp_mono; [apply (AddEvent_round_spec jp2 r vert e sc); try done| |].
    - by apply Hround.
    - by rewrite Gr2, Gr1.
    - intros rd Hrd. rewrite R2, R1 in Hrd.
      by eapply (fresh_comer jp (SelfSig e) sc col _ r).
    - cbv beta. done.
    - intros st jp' [-> Hm]. exact Hm. }
  eapply wp_mono; [exact H3| |done]. clear H3. cbv beta. intros [] jp3 (I3 & G3 & _).
  pose proof (event_added_grows _ _ _ _ G3 Hadd2) as Hadd3.
  destruct (ea_vertex _ _ _ Hadd3) as (vx & Hvx & _).
  apply wp_bind. eapply wp_get_vertex; [exact Hvx|]. apply wp_bind, wp_get, wp_bind.
  assert (G : grows jp jp3) by (eapply grows_trans; [exact G1|]; by eapply grows_trans).
  destruct (_ && _)%bool.
  2: { apply wp_ret, wp_ret. split_and!; try done. by exists vert. }
  apply wp_send; [|by right; right]. intros _. apply wp_ret.
  destruct (step_ok_chan jp3 (set_SelfEventCreated (SelfEventCreated jp3 ++ [vert]) jp3) I3)
    as (I4 & G4 & _); try done.
  split_and!; [done|done|by eapply grows_trans|]. exists vert. by eapply event_added_grows.
Qed.

(** A new event without a round number is not added: the search panics. *)
Lemma AddEvent_insert_queue e ty sc oc jp p jp' :
  AddEvent_insert e ty sc oc jp = (Ok p, jp') -> queue jp' = queue jp.
Proof.
  unfold AddEvent_insert, upd_column, upd_vertex, new_vertex, get_column, get_vertex, deref, stops,
    mbind, JM_bind, get, modify, mret, JM_ret.
  intros H. repeat case_match; simplify_eq; done.
Qed.

Lemma AddEvent_new_no_round {A} jp e ty sc oc (k : nat -> bool -> option nat -> JM A) :
  RoundID e = None -> queue jp <> [] ->
  let m : JM A :=
    '(vert, linkpost) ← AddEvent_insert e ty sc oc;
    _ ← (if linkpost then RequestParentEvent e else mret tt);
    q ← get queue;
    round ← search_round (RoundID e) q None;
    k vert linkpost round in
  is_ok (m jp).1 = false.
Proof.
  intros Hr Hq m. destruct (m jp) as [[x|st] jp'] eqn:E; [|done]. exfalso. unfold m in E.
  apply JM_bind_inv in E as ([vert lp] & jp1 & H1 & E).
  apply JM_bind_inv in E as ([] & jp2 & H2 & E).
  apply JM_bind_inv in E as (q & jp3 & [= <- <-] & E).
  apply JM_bind_inv in E as (round & jp4 & H4 & _). rewrite Hr in H4.
  assert (Hq2 : queue jp2 = queue jp).
  { rewrite <- (AddEvent_insert_queue _ _ _ _ _ _ _ H1). destruct lp; [|by injection H2 as <-].
    unfold RequestParentEvent, send, mbind, JM_bind, get, modify in H2.
    case_match; by simplify_eq. }
  rewrite <- Hq2 in Hq. destruct (queue jp2) as [|r q]; [done|]. cbn [search_round] in H4.
  apply JM_bind_inv in H4 as (rd & jp5 & _ & H4). apply JM_bind_inv in H4 as (z & jp6 & H5 & _).
  done.
Qed.

(** What [AddEvent] does to a well-formed graph. *)
Definition AddEvent_post (jp : JPGraph) (e : Event) (res : option string) (jp' : JPGraph)
    : Prop :=
  inv jp' /\ grows jp jp' /\
  match res with
  | None => validateEvent e = true /\ exists v, in_graph jp' (SelfSig e) (SelfHash e) v
  | Some _ => validateEvent e = false /\ jp' = jp
  end.

(** With or without a round number. *)
(** The column of the other parent, which is created when there is none. *)
Lemma other_spec jp jp1 (a : Address) (zero : bool) :
  nodes_ok jp jp1 ->
  wp (if zero then mret None
      else match (if zero then None else graph jp !! a) with
           | Some c => mret (Some c)
           | None => c ← AddNode a; mret (Some c) end)
    (fun oc jp' => nodes_ok jp jp' /\ grows jp1 jp' /\
       forall o, oc = Some o -> exists b, graph jp' !! b = Some o) (fun _ _ => False) jp1.
Proof.
  intros N1. destruct zero; [apply wp_ret; split; [done|]; split; [apply grows_refl|done]|].
  pose proof (node_spec jp jp1 a _ N1 eq_refl) as Hn. destruct (graph jp !! a) as [c|].
  - unfold wp in *. cbn in *. destruct Hn as (? & ? & ?). split_and!; try done.
    intros o [= <-]. by eexists.
  - apply wp_bind. eapply wp_mono; [exact Hn| |done]. cbv beta.
    intros c jp' (? & ? & ?). apply wp_ret. split_and!; try done.
    intros o [= <-]. by eexists.
Qed.

Lemma AddEvent_any jp e ty :
  inv jp -> event_ok (CopyEvent e) ->
  (forall n, RoundID e = Some n -> (n < length (bigs jp))%nat) ->
  (validateEvent e = true -> only_of jp (SelfSig e) (SelfHash e)) ->
  wp (AddEvent e ty) (AddEvent_post jp e) (fun st jp' => RoundID e = None \/ add_stops st jp') jp.
Proof.
  intros I Hok Hlt Honly. unfold AddEvent.
  destruct (validateEvent e) eqn:Hval.
  2: { apply wp_ret. split; [done|]. split; [apply grows_refl|done]. }
  specialize (Honly eq_refl). assert (Hh : Event_Hash (CopyEvent e) = SelfHash e).
  { unfold validateEvent in Hval. apply Z.eqb_eq, Compare_eq in Hval. exact Hval. }
  apply wp_bind, wp_get. apply wp_bind.
  assert (N0 : nodes_ok jp jp) by (split_and!; [done|apply grows_refl|done..]).
  eapply wp_mono; [by eapply (node_spec jp jp)| |done]. cbv beta.
  intros sc jp1 (N1 & G01 & Hg1). apply wp_bind.
  set (zero := Compare (OtherPartA e) zero_address =? 0).
  eapply wp_mono; [by apply (other_spec jp jp1)| |done]. cbv beta.
  intros oc jp2 ((I2 & G2 & V2 & B2) & G12 & Hoc).
  assert (Hg2 : graph jp2 !! SelfSig e = Some sc) by (by eapply lookup_weaken; [|apply G12]).
  destruct (inv_column jp2 I2 _ _ Hg2) as (col & Hc & Hcok).
  apply wp_bind. eapply wp_get_column; [exact Hc|].
  destruct (hashChain col !! SelfHash e) as [vert|] eqn:Ev.
  - assert (Hin : in_graph jp2 (SelfSig e) (SelfHash e) vert) by (by exists sc, col).
    eapply wp_mono; [by eapply (existing_spec jp2 e vert ty); [|right]| |by right].
    cbv beta. intros res jp' (-> & I' & G' & _). split; [done|].
    split; [by eapply grows_trans|]. split; [done|]. exists vert. by eapply in_graph_grows.
  - destruct (decide (RoundID e = None)) as [Hrid|Hrid].
    { assert (Hq : queue jp2 <> []) by apply I2. unfold wp.
      match goal with |- match ?m jp2 with _ => _ end =>
        assert (H : is_ok (m jp2).1 = false) by (by apply (AddEvent_new_no_round jp2 e ty sc oc));
        destruct (m jp2) as [[x|st] jp3] end; [done|by left]. }
    apply not_eq_None_Some in Hrid as [n Hrid].
    eapply wp_mono; [eapply (AddEvent_new_spec jp2 e ty sc oc col); try done| |by right].
    + split; [done|done|]. exists n. rewrite B2. by auto.
    + intros v vx Hv. rewrite V2 in Hv. by eapply Honly.
    + cbv beta. intros res jp' (-> & I' & G' & v & Hv). split; [done|].
      split; [by eapply grows_trans|]. split; [done|]. exists v. apply Hv.
Qed.

Lemma AddEvent_wp jp e ty n :
  inv jp -> event_ok (CopyEvent e) -> RoundID e = Some n -> (n < length (bigs jp))%nat ->
  only_of jp (SelfSig e) (SelfHash e) ->
  wp (AddEvent e ty) (AddEvent_post jp e) add_stops jp.
Proof.
  intros I Hok Hrid Hlt Honly. eapply wp_mono; [apply AddEvent_any| |].
  - done.
  - done.
  - rewrite Hrid. by intros m [= <-].
  - done.
  - done.
  - cbv beta. rewrite Hrid. by intros st jp' [H|H].
Qed.

End Preservation.
