(* ===== verification/JigsawSpec.v ===== *)
(** * Properties of the graph of events

    What the operations of [Jigsaw.v] do: adding events and nodes, the check of
    an event's hash, choosing a parent, composing and retrieving events. *)

From S2P Require Import Prelude RlpTypes Keccak Sponge Types Graph Jigsaw.
Local Open Scope Z_scope.
#[local] Opaque keccak_f keccakF1600.

(** ** Choosing a parent *)

Section RandParent.

Context (except : Address).

Definition comer_key (q : RequestArg) : Hash * Address := (TargetHash q, TargetAddr q).

(** The candidates stay, up to their counters; what is chosen is one of them
    that is not from [except], and if there is such a candidate, one is chosen. *)
Lemma RandParent_loop_spec to i ret l l' ret' :
  RandParent_loop except to i ret l = (l', ret') ->
  map comer_key l' = map comer_key l /\
  (ret' = ret /\ Forall (fun q => TargetAddr q = except) l \/
   In (comer_key ret') (map comer_key l) /\ TargetAddr ret' <> except).
Proof.
  revert i ret l' ret'. induction l as [|arg l IH]; intros i ret l' ret'; cbn [RandParent_loop].
  { intros [= <- <-]. split; [done|]. by left. }
  destruct (Z.eqb_spec (Compare (TargetAddr arg) except) 0) as [Heq|Hne]; cbn [negb].
  - rewrite andb_false_r. destruct (RandParent_loop except to (S i) ret l) as [l1 r1] eqn:E.
    intros [= <- <-]. destruct (IH _ _ _ _ E) as [Hm Hr]. cbn [map].
    split; [by rewrite Hm|]. apply Compare_eq in Heq. destruct Hr as [[-> Hf]|[Hin Hx]].
    + left. split; [done|]. by constructor.
    + right. split; [by right|done].
  - assert (Hx : TargetAddr arg <> except).
    { intros Hx. apply Hne. by apply Compare_0; [rewrite Hx|]. }
    rewrite andb_true_r. destruct (i =? to)%nat.
    { intros [= <- <-]. split; [done|]. right. split; [by left|done]. }
    destruct (RandParent_loop except to (S i) arg l) as [l1 r1] eqn:E.
    intros [= <- <-]. destruct (IH _ _ _ _ E) as [Hm Hr]. cbn [map].
    split; [by rewrite Hm|]. right. destruct Hr as [[-> Hf]|[Hin Hx']].
    + split; [by left|done].
    + split; [by right|done].
Qed.

Lemma comers_transport (P : Hash * Address -> Prop) l l' :
  map comer_key l' = map comer_key l ->
  Forall (fun q => P (comer_key q)) l -> Forall (fun q => P (comer_key q)) l'.
Proof.
  intros E H. apply (List.Forall_map comer_key P) in H. rewrite <- E in H.
  by apply (List.Forall_map comer_key P).
Qed.

Lemma RandParent_run rnd r jp rd :
  rounds jp !! r = Some rd -> nc_locked rd = false ->
  exists res l, RandParent rnd r except jp =
    (Ok res, set_rounds (<[r := set_newComer l rd]> (rounds jp)) jp) /\
    map comer_key l = map comer_key (newComer rd) /\
    match newComer rd with
    | [] => res = None
    | _ => exists ret, res = (if Compare (TargetAddr ret) zero_address =? 0
                              then Some ret else None) /\
        (ret = MkRequestArg zero_hash zero_address 0 /\
           Forall (fun q => TargetAddr q = except) (newComer rd) \/
         In (comer_key ret) (map comer_key (newComer rd)) /\ TargetAddr ret <> except)
    end.
Proof.
  intros Hr Hn. unfold RandParent. rewrite (JM_bind_ok (get_round r) _ jp rd jp).
  2: { unfold get_round, mbind, JM_bind, get. by rewrite Hr. }
  rewrite Hn. destruct (newComer rd) as [|q0 l0] eqn:El.
  { exists None, []. split; [|done]. cbn. do 2 f_equal.
    rewrite list_insert_id; [by destruct jp|].
    rewrite Hr. f_equal. by destruct rd; cbn in *; subst. }
  cbn [length Nat.eqb].
  destruct (RandParent_loop _ _ _ _ _) as [l ret] eqn:E.
  destruct (RandParent_loop_spec _ _ _ _ _ _ E) as [Hm Hret].
  eexists _, l. split; [|split; [exact Hm|exists ret; split; [reflexivity|exact Hret]]].
  unfold upd_round, get_round, mbind, JM_bind, get, modify. rewrite Hr. reflexivity.
Qed.

End RandParent.

(** [RandParent] leaves the candidates of a round as they are up to their
    counters.  It gives nothing when there is no candidate and the zero request
    when all of them are from the asking node; as soon as another node is among
    them, and none has the zero address, the last test makes it give nothing:
    an event of another node is never chosen. *)
Theorem RandParent_spec rnd r except jp rd (Hr : rounds jp !! r = Some rd)
    (Hn : nc_locked rd = false) :
  exists res l, RandParent rnd r except jp =
      (Ok res, set_rounds (<[r := set_newComer l rd]> (rounds jp)) jp) /\
    map comer_key l = map comer_key (newComer rd) /\
    (newComer rd = [] -> res = None) /\
    (newComer rd <> [] -> Forall (fun q => TargetAddr q = except) (newComer rd) ->
       res = Some (MkRequestArg zero_hash zero_address 0)) /\
    (Exists (fun q => TargetAddr q <> except) (newComer rd) ->
     Forall (fun q => TargetAddr q <> zero_address) (newComer rd) -> res = None).
Proof.
  destruct (RandParent_run except rnd r jp rd Hr Hn) as (res & l & E & Hm & H).
  exists res, l. split; [exact E|]. split; [exact Hm|].
  destruct (newComer rd) as [|q0 l0]; [by split_and!|]. destruct H as (ret & -> & Hret).
  split_and!; [done| |].
  - intros _ Hf. destruct Hret as [[-> _]|[Hin Hx]]; [done|].
    apply in_map_iff in Hin as (q & Hk & Hq). rewrite List.Forall_forall in Hf.
    injection Hk as _ Ha. rewrite <- Ha in Hx. by destruct (Hx (Hf q Hq)).
  - intros Hex Hz. destruct Hret as [[_ Hf]|[Hin _]].
    + apply Exists_exists in Hex as (q & Hq & Hx). rewrite Forall_forall in Hf.
      by destruct (Hx (Hf q Hq)).
    + apply in_map_iff in Hin as (q & Hk & Hq). rewrite List.Forall_forall in Hz.
      destruct (Z.eqb_spec (Compare (TargetAddr ret) zero_address) 0) as [Hc|]; [|done].
      apply Compare_eq in Hc. injection Hk as _ Ha. rewrite <- Ha in Hc.
      by destruct (Hz q Hq).
Qed.

(** ** The invariant: start, numbers, composing *)

Section Keep.

Lemma round_ok_new jp b idx : round_ok jp (NewRound b idx).
Proof.
  split; try done. unfold NewRound. cbn [witnesses]. intros i v H.
  by apply lookup_replicate in H as [H _].
Qed.

Lemma NewJPGraph_ok cb b : inv (NewJPGraph cb b).
Proof.
  unfold NewJPGraph, AddNode, mbind, JM_bind, get, modify, mret, JM_ret.
  cbn [graph]. rewrite lookup_empty. cbn. split; cbn.
  - rewrite map_size_insert_None by apply lookup_empty. by rewrite map_size_empty.
  - intros a a' c Ha Ha'. apply lookup_singleton_Some in Ha as [<- _].
    by apply lookup_singleton_Some in Ha' as [<- _].
  - intros a c Ha. apply lookup_singleton_Some in Ha as [<- <-]. rewrite map_size_empty.
    eexists. split; [reflexivity|]. by split.
  - done.
  - intros r rd Hr. apply list_lookup_singleton_Some in Hr as [_ <-]. apply round_ok_new.
  - split; [done|]. constructor; [lia|constructor].
  - rewrite map_size_insert_None, map_size_empty by apply lookup_empty. done.
  - by rewrite lookup_insert_eq.
Qed.

Lemma inv_bigs jp l :
  inv jp -> (length (bigs jp) <= length l)%nat -> inv (set_bigs l jp) /\ grows jp (set_bigs l jp).
Proof.
  intros [I1 I2 I3 I4 I5 I6 I7 I8] Hl.
  assert (G : grows jp (set_bigs l jp)) by (split; cbn; eauto).
  split; [|done]. split; try done.
  - intros a c H. destruct (I3 a c H) as (col & Hc & Hok). exists col.
    split; [done|]. by eapply column_ok_grows.
  - intros v vx H. eapply vertex_ok_grows; [done|]. by apply I4.
  - intros r rd H. eapply round_ok_grows; [done|]. by eapply I5.
Qed.

Lemma inv_comers jp r rd l :
  inv jp -> rounds jp !! r = Some rd -> map comer_key l = map comer_key (newComer rd) ->
  let jp' := set_rounds (<[r := set_newComer l rd]> (rounds jp)) jp in
  inv jp' /\ grows jp jp'.
Proof.
  intros I Hr Hm. apply inv_upd_round; [done|].
  destruct (inv_round jp I r rd Hr) as [K1 K2 K3 K4 K5]. split; cbn; try done.
  by apply (comers_transport
    (fun k => exists v, in_graph jp k.2 k.1 v) (newComer rd)).
Qed.

(** Taking transactions changes their list alone. *)
Lemma take_transactions_run jp :
  take_transactions jp =
    let n := length (transUnHandled jp) in
    if (n =? 0)%nat then (Ok [], jp)
    else if (n <=? MaxTransInEvent)%nat then (Err Panic, jp)
    else (Ok [], set_transUnHandled (drop 65 (transUnHandled jp)) jp).
Proof.
  unfold take_transactions, mbind, JM_bind, get, modify, stops, mret, JM_ret.
  set (n := length _). cbv zeta.
  assert (HM : MaxTransInEvent = 64%nat) by done. revert HM.
  generalize MaxTransInEvent as m. intros m ->.
  destruct (Nat.eqb_spec n 0) as [->|Hn]; [done|].
  destruct (Nat.ltb_spec 0 (Nat.min n 64)); [|lia].
  destruct (Nat.leb_spec n 64), (Nat.ltb_spec n (Nat.min n 64 + 1)); try lia; [done|].
  replace (Nat.min n 64 + 1)%nat with 65%nat by lia. unfold go_copy. by rewrite drop_nil.
Qed.

End Keep.

(** A new graph is well-formed, [AddNode] keeps it well-formed and gives
    nodes the numbers 0, 1, 2, ... in the order in which they come; a known
    node keeps its number and the graph does not change; [superMajority] is two
    thirds of the number of nodes, rounded down. *)
Theorem AddNode_numbers cb b jp a (I : inv jp) :
  inv (NewJPGraph cb b) /\
  exists c jp', AddNode a jp = (Ok c, jp') /\ inv jp' /\ grows jp jp' /\
    graph jp' !! a = Some c /\ superMajority jp' = Z.of_nat (size (graph jp')) * 2 / 3 /\
    match graph jp !! a with
    | Some c0 => c = c0 /\ jp' = jp
    | None => c = size (graph jp) /\ size (graph jp') = S (size (graph jp))
    end.
Proof.
  split; [apply NewJPGraph_ok|].
  destruct (AddNode_spec jp a I) as (c & jp' & E & I' & G & Hg & Hs & Hnew).
  exists c, jp'. split; [exact E|]. split; [exact I'|]. split; [exact G|].
  split; [exact Hg|]. split; [apply (inv_super jp' I')|].
  destruct (graph jp !! a) as [c0|] eqn:Ea.
  - unfold AddNode, mbind, JM_bind, get in E. rewrite Ea in E. by injection E as -> ->.
  - destruct (Hnew eq_refl) as [Hg' _]. rewrite Hg', lookup_insert_eq in Hg.
    injection Hg as <-. split; [done|]. rewrite Hg'. by apply map_size_insert_None.
Qed.

Lemma AddNode_numbers_witness :
  exists c jp', AddNode (replicate 20 2) (NewJPGraph (replicate 20 1) 4) = (Ok c, jp') /\
    inv jp' /\ c = 1%nat.
Proof.
  destruct (AddNode_numbers zero_address 4 (NewJPGraph (replicate 20 1) 4) (replicate 20 2)
    (NewJPGraph_ok _ _)) as (_ & c & jp' & E & I & _ & _ & _ & Hc & _).
  exists c, jp'. split; [exact E|]. split; [exact I|exact Hc].
Defined.

(** Another node's event waits in round 0. *)
Definition ex_waiting : JPGraph :=
  set_rounds [set_newComer [MkRequestArg zero_hash (replicate 20 2) 0] (NewRound 4 0)]
    (NewJPGraph (replicate 20 1) 4).

Lemma RandParent_spec_witness :
  exists jp', RandParent 5 0 (replicate 20 1) ex_waiting = (Ok None, jp').
Proof.
  destruct (RandParent_spec 5 0 (replicate 20 1) ex_waiting
    (set_newComer [MkRequestArg zero_hash (replicate 20 2) 0] (NewRound 4 0))
    eq_refl eq_refl) as (res & l & E & _ & _ & _ & H).
  rewrite H in E; [eexists; exact E| |].
  - apply Exists_cons_hd. discriminate.
  - constructor; [discriminate|constructor].
Defined.

(** ** The check of an event's hash *)

Section Validate.

Lemma CopyEvent_Trans e : Trans (CopyEvent e) = [].
Proof. cbn. unfold go_copy. by rewrite drop_nil. Qed.

Lemma CopyEvent_ok e : event_ok e -> Trans e = [] -> event_ok (CopyEvent e).
Proof. intros He Ht. destruct e; cbn in *; by subst. Qed.

Lemma validateEvent_hash e : validateEvent e = true <-> Event_Hash (CopyEvent e) = SelfHash e.
Proof.
  unfold validateEvent. rewrite Z.eqb_eq.
  change (Event_Hash (set_SelfHash zero_hash (CopyEvent e))) with (Event_Hash (CopyEvent e)).
  split; [apply Compare_eq|]. intros H. by apply Compare_0; [rewrite H|].
Qed.

(** Two byte strings with the same Keccak-256. *)
Definition collision (x y : bytes) : Prop := x <> y /\ sponge 136 1 32 x = sponge 136 1 32 y.

(** No stored event collides with [e]. *)
Definition no_collision (jp : JPGraph) (e : Event) : Prop :=
  forall v vx, vertices jp !! v = Some vx ->
    ~ collision (event_preimage (v_event vx)) (event_preimage (CopyEvent e)).

Lemma no_collision_nil jp e : vertices jp = [] -> no_collision jp e.
Proof. intros Hn v vx Hv. rewrite Hn in Hv. destruct v; discriminate Hv. Qed.

Lemma no_collision_only jp e :
  inv jp -> event_ok (CopyEvent e) -> validateEvent e = true -> no_collision jp e ->
  only_of jp (SelfSig e) (SelfHash e).
Proof.
  intros I He Hv Hno v vx Hvx Hh. apply validateEvent_hash in Hv.
  destruct (inv_vertex jp I v vx Hvx) as [K1 K2 _ _ _ _ _].
  destruct (decide (event_preimage (v_event vx) = event_preimage (CopyEvent e))) as [Heq|Hne].
  - by apply (event_preimage_inj _ _ K2 He) in Heq as (_ & _ & _ & Hs & _).
  - destruct (Hno v vx Hvx). split; [exact Hne|].
    rewrite <- !Event_Hash_sponge by done. by rewrite K1, Hv, Hh.
Qed.

End Validate.


(** A graph with one round number allocated, and an event of node 2 for it. *)
Definition ex_graph : JPGraph := set_bigs [0] (NewJPGraph (replicate 20 1) 2).
Definition ex_hashed (l : list Transaction) : Event :=
  let e := MkEvent (Some 7) l zero_hash zero_hash (replicate 20 2) zero_hash zero_address
             (Some 0%nat) in
  set_SelfHash (Event_Hash e) e.

Lemma ex_hashed_ok l : (length l <= 1)%nat -> event_ok (ex_hashed l).
Proof.
  intros Hl. split.
  - cbn. lia.
  - split; [reflexivity|]. by apply Forall_replicate.
  - split; [reflexivity|]. by apply Forall_replicate.
  - split; [reflexivity|]. by apply Forall_replicate.
  - destruct l as [|? [|]]; cbn in Hl; [vm_compute; reflexivity..|lia].
Qed.

Lemma ex_hashed_hash l : SelfHash (ex_hashed l) = Event_Hash (ex_hashed l).
Proof.
  unfold ex_hashed, set_SelfHash, Event_Hash, event_fields.
  cbn [TimeStamp Trans SelfPart SelfHash SelfSig OtherPartH]. reflexivity.
Qed.

Lemma ex_graph_ok : inv ex_graph.
Proof.
  apply (inv_bigs (NewJPGraph (replicate 20 1) 2) [0] (NewJPGraph_ok _ _)).
  change (bigs (NewJPGraph (replicate 20 1) 2)) with (@nil Z). cbn. lia.
Qed.


(** C39: the check of the hash copies the event first, and the copy has no
    transactions.  An event without transactions that carries its own hash
    passes; an event with transactions that carries its own hash and passes
    shows a Keccak collision, so in practice it is always rejected. *)
Theorem validateEvent_spec e (He : event_ok e) (Hh : SelfHash e = Event_Hash e) :
  (Trans e = [] -> validateEvent e = true) /\
  (Trans e <> [] -> event_ok (CopyEvent e) -> validateEvent e = true ->
     collision (event_preimage e) (event_preimage (CopyEvent e))).
Proof.
  split.
  - intros Ht. apply validateEvent_hash. rewrite Hh. clear Hh He. by destruct e; cbn in *; subst.
  - intros Ht Hc Hv. apply validateEvent_hash in Hv. split.
    + intros Heq. apply (event_preimage_inj e _ He Hc) in Heq as (_ & Htr & _).
      by rewrite CopyEvent_Trans in Htr.
    + rewrite <- !Event_Hash_sponge by done. by rewrite Hv.
Qed.

Lemma validateEvent_spec_witness :
  validateEvent (ex_hashed []) = true /\ validateEvent (ex_hashed [Tx]) = false.
Proof.
  split.
  - apply (proj1 (validateEvent_spec (ex_hashed []) (ex_hashed_ok [] ltac:(cbn; lia))
      (ex_hashed_hash []))). reflexivity.
  - vm_compute. reflexivity.
Defined.

(** ** Composing an event *)

Section Compose.

Lemma wp_write_big p n z Q E jp :
  p = Some n -> (n < length (bigs jp))%nat -> Q tt (set_bigs (<[n := z]> (bigs jp)) jp) ->
  wp (write_big p z) Q E jp.
Proof.
  intros -> H HQ. apply lookup_lt_is_Some_2 in H as [x Hx].
  unfold wp, write_big, mbind, JM_bind, get. cbn. by rewrite Hx.
Qed.

(** The own column's top gives the self parent and the round number. *)
Definition top_of (jp : JPGraph) : option Vertex :=
  c ← graph jp !! Coinbase jp; col ← columns jp !! c; t ← verTop col; vertices jp !! t.

Lemma top_spec jp fresh :
  inv jp -> (fresh < length (bigs jp))%nat -> exists c col,
    graph jp !! Coinbase jp = Some c /\ columns jp !! c = Some col /\
    wp (match verTop col with
        | Some t => tv ← get_vertex t; mret (SelfHash (v_event tv), RoundID (v_event tv))
        | None => mret (zero_hash, Some fresh)
        end)
      (fun p jp' => jp' = jp /\ exists n, p.2 = Some n /\ (n < length (bigs jp))%nat /\
         p.1 = from_option (SelfHash ∘ v_event) zero_hash (top_of jp) /\
         p.2 = from_option (RoundID ∘ v_event) (Some fresh) (top_of jp))
      (fun _ _ => False) jp.
Proof.
  intros I Hf. destruct (inv_coinbase jp I) as [c Hc].
  destruct (inv_column jp I _ _ Hc) as (col & Hcol & [_ K2 K3]). exists c, col.
  split; [done|]. split; [done|].
  assert (Ht : top_of jp = t ← verTop col; vertices jp !! t).
  { unfold top_of. rewrite Hc. cbn. by rewrite Hcol. }
  destruct (verTop col) as [t|]; cbn in Ht; [|rewrite Ht; apply wp_ret; cbn; eauto 6].
  destruct (K3 t eq_refl) as [h Hh]. destruct (K2 h t Hh) as (tv & Htv & _).
  apply wp_bind. eapply wp_get_vertex; [exact Htv|]. apply wp_ret. rewrite Ht, Htv. cbn.
  destruct (vok_round _ _ _ (inv_vertex jp I t tv Htv)) as (n & Hn & Hlt). split; [done|]. exists n. done.
Qed.

(** The zero hash, or the hash of an event of the graph. *)
Definition known_hash (jp : JPGraph) (h : Hash) : Prop :=
  h = zero_hash \/ exists a v, in_graph jp a h v.

Lemma known_hash_grows jp jp' h : grows jp jp' -> known_hash jp h -> known_hash jp' h.
Proof.
  intros G [->|(a & v & H)]; [by left|]. right. exists a, v. by eapply in_graph_grows.
Qed.

(** The other parent when the round has no best vertex. *)
Lemma parent_spec jp r rd rnd cb :
  inv jp -> rounds jp !! r = Some rd -> bestVertex rd = None ->
  wp (match bestVertex rd with
      | Some b => bv ← get_vertex b; mret (SelfHash (v_event bv), SelfSig (v_event bv))
      | None =>
          arg ← RandParent rnd r cb;
          mret (match arg with
                | Some a => (TargetHash a, TargetAddr a)
                | None => (zero_hash, zero_address)
                end)
      end)
    (fun p jp' => inv jp' /\ grows jp jp' /\ p.2 = zero_address /\ bigs jp' = bigs jp /\
       transUnHandled jp' = transUnHandled jp /\ known_hash jp p.1)
    (fun _ _ => False) jp.
Proof.
  intros I Hr ->. apply wp_bind. unfold wp at 1.
  destruct (RandParent_run cb rnd r jp rd Hr (rok_nc _ _ (inv_round jp I r rd Hr)))
    as (res & l & -> & Hm & Hres).
  destruct (inv_comers jp r rd l I Hr Hm) as [I' G']. apply wp_ret.
  pose proof (rok_comer _ _ (inv_round jp I r rd Hr)) as Hcom.
  assert (Hp : match res with
               | Some a => TargetAddr a = zero_address /\ known_hash jp (TargetHash a)
               | None => True end).
  { destruct (newComer rd) as [|q0 ql]; [by subst|]. destruct Hres as (ret & -> & Hret).
    destruct (Z.eqb_spec (Compare (TargetAddr ret) zero_address) 0) as [Hz|]; [|done].
    split; [by apply Compare_eq|]. destruct Hret as [[-> _]|[Hin _]]; [by left|].
    apply in_map_iff in Hin as (q & [= E1 E2] & Hq). rewrite List.Forall_forall in Hcom.
    destruct (Hcom q Hq) as [v Hv]. right. exists (TargetAddr q), v. by rewrite <- E1. }
  split; [exact I'|]. split; [exact G'|].
  destruct res as [a|]; cbn; [by destruct Hp|]. split_and!; try done. by left.
Qed.

Record composed (jp jp' : JPGraph) (rd : Round) (e : Event) : Prop := Composed {
  co_inv : inv jp' /\ grows jp jp';
  co_valid : validateEvent e = true;
  co_own : SelfSig e = Coinbase jp;
  co_self : SelfPart e = from_option (SelfHash ∘ v_event) zero_hash (top_of jp);
  co_other : OtherPartA e = zero_address;
  co_trans : Trans e = [] /\
    transUnHandled jp' = (if (length (transUnHandled jp) =? 0)%nat then [] else
                            drop 65 (transUnHandled jp));
  co_round : exists n, RoundID e = Some n /\ bigs jp' !! n = Some (index rd) /\
    forall tv, top_of jp = Some tv -> RoundID (v_event tv) = Some n }.

Lemma composed_valid now sp cb oh oa rid :
  let et := MkEvent (Some now) [] sp zero_hash cb oh oa rid in
  validateEvent (set_SelfHash (Event_Hash et) et) = true.
Proof. intros et. apply validateEvent_hash. reflexivity. Qed.

Lemma take_transactions_wp jp :
  inv jp ->
  wp take_transactions
    (fun l jp' => l = [] /\ inv jp' /\ grows jp jp' /\ top_of jp' = top_of jp /\
       bigs jp' = bigs jp /\ queue jp' = queue jp /\ rounds jp' = rounds jp /\
       Coinbase jp' = Coinbase jp /\
       transUnHandled jp' = (if (length (transUnHandled jp) =? 0)%nat then [] else
                            drop 65 (transUnHandled jp)))
    (fun st _ => st = Panic /\ (0 < length (transUnHandled jp) <= MaxTransInEvent)%nat) jp.
Proof.
  intros I. unfold wp. rewrite take_transactions_run. cbv zeta.
  destruct (Nat.eqb_spec (length (transUnHandled jp)) 0) as [E|E].
  { split_and!; try done; [apply grows_refl|]. by destruct (transUnHandled jp). }
  destruct (Nat.leb_spec (length (transUnHandled jp)) MaxTransInEvent); [split; [done|lia]|].
  destruct (inv_chan jp (set_transUnHandled (drop 65 (transUnHandled jp)) jp) I) as [I' G'];
    done.
Qed.

Lemma ComposeEvent_wp jp now rnd r q rd :
  inv jp -> queue jp = r :: q -> rounds jp !! r = Some rd -> bestVertex rd = None ->
  wp (ComposeEvent now rnd)
    (fun e jp' => composed jp jp' rd e /\ TimeStamp e = Some now /\ known_hash jp' (OtherPartH e))
    (fun st _ => st = Panic /\ (0 < length (transUnHandled jp) <= MaxTransInEvent)%nat) jp.
Proof.
  intros I Hq Hr Hb.
  unfold ComposeEvent. apply wp_bind, wp_get, wp_bind.
  destruct (inv_bigs jp (bigs jp ++ [currentIdx jp]) I) as [I1 G1].
  { rewrite length_app. lia. }
  unfold new_big. apply wp_bind, wp_get, wp_bind, wp_modify, wp_ret.
  set (jp1 := set_bigs _ jp) in *.
  apply wp_bind. eapply wp_mono; [exact (take_transactions_wp jp1 I1)| |done]. cbv beta.
  intros l jp2 (-> & I2 & G2 & Ht & HB & HQ & HR & HC & HT).
  apply wp_bind, wp_get, wp_bind, wp_get, wp_bind.
  assert (Hf : ((length ∘ bigs) jp < length (bigs jp2))%nat).
  { rewrite HB. cbn. rewrite length_app. cbn. lia. }
  destruct (top_spec jp2 ((length ∘ bigs) jp) I2 Hf) as (c & col & Hc & Hcol & Hw).
  eapply wp_deref; [exact Hc|]. apply wp_bind. eapply wp_get_column; [exact Hcol|].
  apply wp_bind. eapply wp_mono; [exact Hw| |done]. cbv beta.
  intros [sp rid] jp2' (-> & n & E1 & Hn & E2 & E3). cbn [fst snd] in *. subst rid sp.
  apply wp_bind, wp_get, wp_bind. rewrite HQ. cbn [queue jp1 set_bigs]. rewrite Hq.
  eapply wp_deref; [reflexivity|]. apply wp_bind.
  assert (Hr2 : rounds jp2 !! r = Some rd) by (by rewrite HR).
  eapply wp_get_round; [exact Hr2|]. apply wp_bind.
  eapply wp_mono; [by apply (parent_spec jp2 r rd rnd (Coinbase jp2) I2 Hr2)| |done].
  cbv beta. intros [oh oa] jp3 (I3 & G3 & Hoa & HB3 & HT3 & Hk). cbn [fst snd] in Hoa, Hk. subst oa.
  apply wp_bind. eapply wp_write_big; [reflexivity|by rewrite HB3|]. apply wp_ret.
  destruct (inv_bigs jp3 (<[n := index rd]> (bigs jp3)) I3) as [I4 G4].
  { by rewrite length_insert. }
  change (top_of jp1) with (top_of jp) in Ht. rewrite Ht in *.
  split; [|split; [done|apply (known_hash_grows jp2); [by eapply grows_trans|exact Hk]]]. split.
  - split; [done|]. eapply grows_trans; [|exact G4]. eapply grows_trans; [|exact G3].
    by eapply grows_trans.
  - apply composed_valid.
  - exact HC.
  - reflexivity.
  - reflexivity.
  - split; [reflexivity|]. cbn. by rewrite HT3, HT.
  - exists n. split; [done|]. split.
    + cbn. apply list_lookup_insert_eq. by rewrite HB3.
    + intros tv Htv. rewrite Htv in E3. by rewrite E3.
Qed.

End Compose.



(** ** The candidates of a round *)

(** C40: adding a candidate whose hash is already there returns with the lock of
    the list held: the list does not change, and from then on every call that
    needs the lock, adding or choosing a candidate of that round, blocks for
    ever. *)
Theorem addComer_duplicate r rqa jp rd (Hr : rounds jp !! r = Some rd)
    (Hn : nc_locked rd = false)
    (Hd : Exists (fun q => TargetHash q = TargetHash rqa) (newComer rd)) :
  exists jp', addComer r rqa jp = (Ok tt, jp') /\
    rounds jp' !! r = Some (set_nc true rd) /\
    (forall rqa', addComer r rqa' jp' = (Err Blocked, jp')) /\
    (forall rnd a, RandParent rnd r a jp' = (Err Blocked, jp')).
Proof.
  assert (Hex : existsb (fun n => Compare (TargetHash n) (TargetHash rqa) =? 0) (newComer rd)
    = true).
  { apply Exists_exists in Hd as (q & Hq & E). apply existsb_exists. exists q.
    split; [by apply list_elem_of_In|]. apply Z.eqb_eq. by apply Compare_0; [rewrite E|]. }
  set (jp' := set_rounds (<[r := set_nc true rd]> (rounds jp)) jp).
  assert (Hr' : rounds jp' !! r = Some (set_nc true rd)).
  { cbn. apply list_lookup_insert_eq. by eapply lookup_lt_Some. }
  exists jp'. split_and!.
  - unfold addComer, upd_round, get_round, mbind, JM_bind, get, modify. rewrite Hr. cbn.
    rewrite Hn, Hr. cbn. by rewrite Hex.
  - exact Hr'.
  - intros rqa'. unfold addComer, get_round, mbind, JM_bind, get. rewrite Hr'. reflexivity.
  - intros rnd a. unfold RandParent, get_round, mbind, JM_bind, get. rewrite Hr'. reflexivity.
Qed.

Lemma addComer_duplicate_witness :
  exists jp', addComer 0 (MkRequestArg zero_hash zero_address 0) ex_waiting = (Ok tt, jp') /\
    addComer 0 (MkRequestArg (replicate 32 5) zero_address 0) jp' = (Err Blocked, jp').
Proof.
  destruct (addComer_duplicate 0 (MkRequestArg zero_hash zero_address 0) ex_waiting
    (set_newComer [MkRequestArg zero_hash (replicate 20 2) 0] (NewRound 4 0)) eq_refl eq_refl
    ltac:(by apply Exists_cons_hd)) as (jp' & E & _ & H & _).
  exists jp'. split; [exact E|apply H].
Defined.

(** ** Retrieving an event *)

Section Retrieve.

(** An own event whose other parent is known and has hash [hash]. *)
Definition child_of (jp : JPGraph) (hash : Hash) (vx : Vertex) (p : nat) : Prop :=
  exists h v, in_graph jp (Coinbase jp) h v /\ vertices jp !! v = Some vx /\
    OtherPartH (v_event vx) = hash /\ anotherPt vx = Some p.

Lemma retrieve_loop_spec jp hash l :
  inv jp -> Forall (fun p => in_graph jp (Coinbase jp) p.1 p.2) l ->
  exists res, retrieve_loop hash l jp = (Ok res, jp) /\
    match res with
    | Some (e, t) => exists vx p pv, child_of jp hash vx p /\ vertices jp !! p = Some pv /\
        e = v_event pv /\ t = witness vx
    | None => forall h v vx, In (h, v) l -> vertices jp !! v = Some vx ->
        OtherPartH (v_event vx) = hash -> anotherPt vx = None
    end.
Proof.
  intros I. induction l as [|[h v] l IH]; intros Hl; cbn [retrieve_loop].
  { exists None. split; [done|]. by intros h v vx []. }
  inversion Hl as [|? ? Hin Hl']; subst. cbn [fst snd] in Hin.
  destruct Hin as (c & col & Hg & Hc & Hh).
  destruct (inv_column jp I _ _ Hg) as (col' & Hc' & [_ K2 _]).
  rewrite Hc in Hc'. simplify_eq. destruct (K2 _ _ Hh) as (vx & Hvx & _).
  rewrite (JM_bind_ok (get_vertex v) _ jp vx jp).
  2: { unfold get_vertex, mbind, JM_bind, get. by rewrite Hvx. }
  destruct (IH Hl') as (res & E & Hres).
  destruct (decide (OtherPartH (v_event vx) = hash)) as [Ho|Ho], (anotherPt vx) as [p|] eqn:Ep.
  1: { destruct (vok_other _ _ _ (inv_vertex jp I v vx Hvx) p Ep) as (pv & Hpv & _).
       exists (Some (v_event pv, witness vx)).
       rewrite (JM_bind_ok (get_vertex p) _ jp pv jp).
       2: { unfold get_vertex, mbind, JM_bind, get. by rewrite Hpv. }
       split; [done|]. exists vx, p, pv. split; [|done].
       exists h, v. split; [by exists c, col'|done]. }
  all: exists res; split; [exact E|]; destruct res as [[e t]|]; [exact Hres|];
    intros h' v' vx' [[= <- <-]|Hin'] Hv' Ho'; [|by eapply Hres]; congruence.
Qed.

End Retrieve.

Lemma RetrieveEvent_run order hash jp :
  inv jp -> (forall m, order m ≡ₚ map_to_list m) ->
  exists res, RetrieveEvent order hash jp = (Ok res, jp) /\
    match res with
    | Ok (e, t) => exists vx p pv, child_of jp hash vx p /\ vertices jp !! p = Some pv /\
        e = v_event pv /\ t = witness vx
    | Err msg => msg = "RetrieveEvent: not found"%string /\
        forall vx p, ~ child_of jp hash vx p
    end.
Proof.
  intros I Ho. destruct (inv_coinbase jp I) as [c Hc].
  destruct (inv_column jp I _ _ Hc) as (col & Hcol & Hok).
  destruct (retrieve_loop_spec jp hash (order (hashChain col)) I) as (res & E & Hres).
  { apply Forall_forall. intros [h v] Hin. rewrite Ho in Hin.
    apply elem_of_map_to_list in Hin. by exists c, col. }
  unfold RetrieveEvent, get_column, mbind, JM_bind, get. rewrite Hc, Hcol. cbn. rewrite E.
  eexists. split; [reflexivity|]. destruct res as [[e t]|]; [done|].
  split; [done|]. intros vx p (h & v & (c' & col' & Hg & Hcl & Hh) & Hv & Hoh & Hp).
  rewrite Hc in Hg. simplify_eq.
  rewrite (Hres h v vx) in Hp; [done| |done|done].
  apply list_elem_of_In. rewrite Ho. by apply elem_of_map_to_list.
Qed.

(** [RetrieveEvent] for a hash, whatever the order in which the map is
    visited: it changes nothing; it answers with an event of that hash, the
    known other parent of an own event, together with the type of the own event;
    and it reports "not found" only when no own event has a known other parent
    of that hash. *)
Theorem RetrieveEvent_spec order hash jp (I : inv jp)
    (Ho : forall m, order m ≡ₚ map_to_list m) :
  exists res, RetrieveEvent order hash jp = (Ok res, jp) /\
    match res with
    | Ok (e, t) => SelfHash e = hash /\ exists vx p pv, child_of jp hash vx p /\
        vertices jp !! p = Some pv /\ e = v_event pv /\ t = witness vx
    | Err msg => msg = "RetrieveEvent: not found"%string /\
        forall vx p, ~ child_of jp hash vx p
    end.
Proof.
  destruct (RetrieveEvent_run order hash jp I Ho) as (res & E & Hres).
  exists res. split; [exact E|]. destruct res as [[e t]|msg]; [|exact Hres].
  split; [|exact Hres]. destruct Hres as (vx & p & pv & (h & v & _ & Hv & Hh & Hp) & Hpv & -> & _).
  destruct (vok_other _ _ _ (inv_vertex jp I v vx Hv) p Hp) as (pv' & Hpv' & Heq).
  rewrite Hpv in Hpv'. simplify_eq. by rewrite Heq.
Qed.

Lemma RetrieveEvent_spec_witness :
  RetrieveEvent map_to_list zero_hash ex_graph =
    (Ok (Err "RetrieveEvent: not found"%string), ex_graph).
Proof.
  destruct (RetrieveEvent_spec map_to_list zero_hash ex_graph ex_graph_ok
    ltac:(reflexivity)) as (res & E & H). rewrite E. do 2 f_equal.
  destruct res as [[e t]|msg]; [|f_equal; apply H].
  destruct H as (_ & vx & p & pv & (h & v & _ & Hv & _) & _).
  destruct v; discriminate Hv.
Defined.
