(* ===== verification/Round.v ===== *)
(** * Rounds: [src/core/round.go]

    The searches through the graph ([clearColorDFS], [dfsVisit], [JudgeSee]), one
    turn of each loop of the round manager ([RoundLoop], [MonitorLoop],
    [ConsensusShow]) and [WitnessFame].  A [range] over a map visits the entries
    in some order, which is an argument.  Walks along parents have fuel; running
    out of it is [Diverges]. *)

From S2P Require Import Prelude Types Graph Jigsaw.
Local Open Scope Z_scope.

Definition ColorClusterRound : nat := 0.
Definition ColorClusterVote : nat := 1.
Definition RoundMax : Z := 10.
Definition WHITE : Z := 0.
Definition GREY : Z := 1.
Definition BLACK : Z := 2.

(** ** Searching the graph *)

(** [v.color[cc] = k]; the index is in range. *)
Definition paint (cc : nat) (k : Z) (v : Vertex) : Vertex := set_color (<[cc := k]> (color v)) v.

Definition walk_fuel : JM nat := get (fun jp => S (length (vertices jp))).

(** The first loop of [clearColorDFS] in one column: [starter] afterwards. *)
Fixpoint find_starter (fuel : nat) (chain : gmap Hash nat) (idx : Z) (s starter : option nat)
    : JM (option nat) :=
  match s with
  | None => mret starter
  | Some v =>
      match fuel with
      | O => stops Diverges
      | S fuel =>
          vx ← get_vertex v;
          z ← read_big (RoundID (v_event vx));
          if z =? idx then mret (Some v)
          else find_starter fuel chain idx (chain !! SelfPart (v_event vx)) starter
      end
  end.

(** The second loop. *)
Fixpoint whiten (fuel : nat) (chain : gmap Hash nat) (idx : Z) (cc : nat) (s : option nat)
    : JM unit :=
  match s with
  | None => mret tt
  | Some v =>
      match fuel with
      | O => stops Diverges
      | S fuel =>
          vx ← get_vertex v;
          z ← read_big (RoundID (v_event vx));
          if z =? idx then
            _ ← upd_vertex v (paint cc WHITE);
            whiten fuel chain idx cc (chain !! SelfPart (v_event vx))
          else mret tt
      end
  end.

(** [starter] is declared outside of the loop over the columns and keeps its
    value from one column to the next. *)
Fixpoint clear_loop (idx : Z) (cc : nat) (cols : list nat) (starter : option nat) : JM unit :=
  match cols with
  | [] => mret tt
  | c :: cols' =>
      col ← get_column c;
      fuel ← walk_fuel;
      starter ← find_starter fuel (hashChain col) idx (verTop col) starter;
      _ ← whiten fuel (hashChain col) idx cc starter;
      clear_loop idx cc cols' starter
  end.

Definition clearColorDFS (order : gmap Address nat -> list (Address * nat)) (idx : Z) (cc : nat)
    : JM unit :=
  g ← get graph; clear_loop idx cc (map snd (order g)) None.

(** [trace[i] = 1]. *)
Definition mark (trace : list Z) (i : nat) : JM (list Z) :=
  _ ← deref (trace !! i); mret (<[i := 1]> trace).

(** [dfsVisit]; the slice [trace] is passed along. *)
Fixpoint dfsVisit (fuel : nat) (trace : list Z) (s : option nat) (e : nat) (cc : nat)
    : JM (list Z) :=
  match s with
  | None => mret trace
  | Some v =>
      match fuel with
      | O => stops Diverges
      | S fuel =>
          vx ← get_vertex v;
          if (bool_decide (v = e) || (witness vx =? Witness))%bool then mark trace (v_seqNum vx)
          else
            _ ← upd_vertex v (paint cc GREY);
            trace ← mark trace (v_seqNum vx);
            let visit (trace : list Z) (u : option nat) :=
              match u with
              | None => mret trace
              | Some w =>
                  wx ← get_vertex w;
                  k ← deref (color wx !! cc);
                  if k =? WHITE then dfsVisit fuel trace u e cc else mret trace
              end in
            trace ← visit trace (selfPt vx);
            trace ← visit trace (anotherPt vx);
            _ ← upd_vertex v (paint cc BLACK);
            mret trace
      end
  end.

Definition JudgeSee (s e : option nat) (cc : nat) : JM (Z * bool) :=
  b ← get broadness;
  match s, e with
  | Some _, Some e =>
      n ← walk_fuel;
      trace ← dfsVisit (S n) (replicate b 0) s e cc;
      ex ← get_vertex e;
      t ← deref (trace !! v_seqNum ex);
      sm ← get superMajority;
      mret (if t =? 1 then 1 else 0, sm <=? foldr Z.add 0 trace)
  | _, _ => mret (0, false)
  end.

(** ** The loops *)

(** [(e.Value).( *Round)] with the number searched for: without a match, nil. *)
Fixpoint find_round (rid : option nat) (q : list nat) : JM (option nat) :=
  match q with
  | [] => mret None
  | r :: q' =>
      rd ← get_round r;
      z ← read_big rid;
      if z =? index rd then mret (Some r) else find_round rid q'
  end.

(** The loop over the first [n] witnesses from [i] on: whether all are there. *)
Fixpoint all_witnesses (wits : list (option nat)) (i n : nat) : JM bool :=
  match n with
  | O => mret true
  | S n =>
      w ← deref (wits !! i);
      match w with Some _ => all_witnesses wits (S i) n | None => mret false end
  end.

(** One turn of [RoundLoop] that receives from [roundTrigger].  Nothing sends to
    [lostTrigger], and [wtriggered] is never set to true. *)
Definition RoundLoop : JM unit :=
  ch ← get roundTrigger;
  match ch with
  | [] => stops Blocked
  | vert :: ch' =>
      _ ← modify (set_roundTrigger ch');
      vx ← get_vertex vert;
      z ← read_big (RoundID (v_event vx));
      cur ← get currentIdx;
      _ ← (if ((witness vx =? WitnessLocal) && (z =? cur) ||
               (witness vx =? Witness) && (z =? cur + 1))%bool then
             _ ← modify (set_currentIdx (cur + 1));
             _ ← write_big (RoundID (v_event vx)) (cur + 1);
             b ← get broadness;
             r ← new_round (NewRound b (cur + 1));
             modify (fun jp => set_queue (r :: queue jp) jp)
           else mret tt);
      q ← get queue;
      round ← find_round (RoundID (v_event vx)) q;
      match round with
      | None => mret tt
      | Some r =>
          _ ← set_round_witness r (v_seqNum vx) vert;
          rd ← get_round r;
          all ← all_witnesses (witnesses rd) 0 (r_broadness rd);
          if (all : bool) then send consensusTrigger set_consensusTrigger (index rd)
          else mret tt
      end
  end.

(** The loop of [MonitorLoop] over the witnesses of round [r], from [i] on. *)
Fixpoint count_strong (order : gmap Address nat -> list (Address * nat)) (r : nat) (idx : Z)
    (starter : nat) (i n : nat) (strongsee : Z) : JM Z :=
  match n with
  | O => mret strongsee
  | S n =>
      rd ← get_round r;
      m ← deref (witnesses rd !! i);
      strongsee ←
        (match m with
         | None => mret strongsee
         | Some _ =>
             _ ← clearColorDFS order idx ColorClusterRound;
             '(_, k) ← JudgeSee (Some starter) m ColorClusterRound;
             mret (if (k : bool) then strongsee + 1 else strongsee)
         end);
      count_strong order r idx starter (S i) n strongsee
  end.

(** One turn of [MonitorLoop]: [r] is the round that was in front when the turn
    began, before it waited for an event.  The result is [roundNum]. *)
Definition MonitorLoop (order : gmap Address nat -> list (Address * nat)) (r : nat)
    (roundNum : Z) : JM Z :=
  ch ← get SelfEventCreated;
  match ch with
  | [] => stops Blocked
  | starter :: ch' =>
      _ ← modify (set_SelfEventCreated ch');
      _ ← modify (set_monitorStarter (Some starter));
      g ← get graph;
      b ← get broadness;
      if negb (b =? size g)%nat then mret roundNum
      else
        rd ← get_round r;
        let roundNum := roundNum + 1 in
        strongsee ← count_strong order r (index rd) starter 0 (r_broadness rd) 0;
        sm ← get superMajority;
        vx ← get_vertex starter;
        if ((sm <? strongsee) || ((v_seqNum vx =? 0)%nat && (roundNum =? RoundMax)))%bool then
          _ ← send witnessL set_witnessL (v_event vx);
          _ ← upd_vertex starter (set_witness WitnessLocal);
          _ ← send roundTrigger set_roundTrigger starter;
          mret 0
        else mret roundNum
  end.

(** ** Votes *)

Definition set_vote (r i j : nat) (see : Z) (strong : bool) : JM unit :=
  rd ← get_round r;
  vi ← deref (votes rd !! i);
  si ← deref (strongsee rd !! i);
  _ ← deref (vi !! j);
  _ ← deref (si !! j);
  upd_round r (set_votes (<[i := <[j := see]> vi]> (votes rd))
                         (<[i := <[j := strong]> si]> (strongsee rd))).

Fixpoint vote_row (order : gmap Address nat -> list (Address * nat)) (r i : nat)
    (n : option nat) (idx : Z) (j : nat) (ms : list (option nat)) : JM unit :=
  match ms with
  | [] => mret tt
  | m :: ms' =>
      _ ← clearColorDFS order idx ColorClusterVote;
      '(see, strong) ← JudgeSee n m ColorClusterVote;
      _ ← set_vote r i j see strong;
      vote_row order r i n idx (S j) ms'
  end.

Fixpoint vote_rows (order : gmap Address nat -> list (Address * nat)) (r : nat) (idx : Z)
    (ms : list (option nat)) (i : nat) (ns : list (option nat)) : JM unit :=
  match ns with
  | [] => mret tt
  | n :: ns' =>
      _ ← vote_row order r i n idx 0 ms;
      vote_rows order r idx ms (S i) ns'
  end.

(** The sum of the votes of row [i] over the columns [0 .. n-1]. *)
Fixpoint sum_votes (rd : Round) (i j n : nat) : JM Z :=
  match n with
  | O => mret 0
  | S n =>
      si ← deref (strongsee rd !! i);
      s ← deref (si !! j);
      v ← (if (s : bool) then vi ← deref (votes rd !! i); deref (vi !! j) else mret 0);
      rest ← sum_votes rd i (S j) n;
      mret (v + rest)
  end.

Fixpoint total_votes (rd : Round) (i n : nat) : JM (list Z) :=
  match n with
  | O => mret []
  | S n =>
      v ← sum_votes rd i 0 (length (votes rd));
      l ← total_votes rd (S i) n;
      mret (v :: l)
  end.

Fixpoint make_famous (p2 : nat) (i : nat) (totals : list Z) : JM unit :=
  match totals with
  | [] => mret tt
  | v :: totals' =>
      sm ← get superMajority;
      _ ← (if sm <? v then
             rd ← get_round p2;
             w ← deref (witnesses rd !! i);
             w ← deref w;
             upd_vertex w (set_witness FamousWitness)
           else mret tt);
      make_famous p2 (S i) totals'
  end.

Definition WitnessFame (order : gmap Address nat -> list (Address * nat)) : JM unit :=
  q ← get queue;
  match q with
  | [] => stops Panic
  | r :: q1 =>
      match q1 with
      | [] => mret tt
      | p1 :: q2 =>
          rd ← get_round r;
          prd ← get_round p1;
          _ ← vote_rows order r (index prd) (witnesses prd) 0 (witnesses rd);
          rd ← get_round r;
          totals ← total_votes rd 0 (r_broadness rd);
          match q2 with
          | [] => mret tt
          | p2 :: _ => make_famous p2 0 totals
          end
      end
  end.

(** ** Counting blocks *)

(** [AddrSlice.Less]: by the sum of the bytes. *)
Definition addr_sum (a : Address) : Z := foldl Z.add 0 a.
Definition AddrLess (a b : Address) : bool := addr_sum a <? addr_sum b.

(** The second loop over a column: [totalBlocks] goes up by one for every vertex
    down to the next witness. *)
Fixpoint count_down (fuel : nat) (x : option nat) (total : Z) : JM Z :=
  match x with
  | None => mret total
  | Some v =>
      match fuel with
      | O => stops Diverges
      | S fuel =>
          vx ← get_vertex v;
          if negb (witness vx =? Witness) then count_down fuel (selfPt vx) (total + 1)
          else mret total
      end
  end.

Definition count_column (c : nat) (total : Z) : JM Z :=
  col ← get_column c;
  fuel ← walk_fuel;
  match verTop col with
  | None => mret total
  | Some t =>
      vx ← get_vertex t;
      if witness vx =? Witness then count_down fuel (selfPt vx) (total + 1)
      else count_down fuel (Some t) total
  end.

Fixpoint count_columns (addrs : list Address) (total : Z) : JM Z :=
  match addrs with
  | [] => mret total
  | a :: addrs' =>
      g ← get graph;
      total ← (match g !! a with Some c => count_column c total | None => mret total end);
      count_columns addrs' total
  end.

(** One turn of [ConsensusShow]; [sort] stands for [sort.Sort] with [AddrLess].
    The result is [totalBlocks]. *)
Definition ConsensusShow (order : gmap Address nat -> list (Address * nat))
    (sort : list Address -> list Address) (totalBlocks : Z) : JM Z :=
  ch ← get consensusTrigger;
  match ch with
  | [] => stops Blocked
  | _ :: ch' =>
      _ ← modify (set_consensusTrigger ch');
      g ← get graph;
      count_columns (sort (map fst (order g))) totalBlocks
  end.
