(* ===== verification/Search.v ===== *)
(** * The searches of [Round.v]

    What [clearColorDFS], [dfsVisit] and [JudgeSee] compute: termination of the
    searches, and which columns the depth-first search reaches. *)

From S2P Require Import Prelude Keccak Types Graph Jigsaw JigsawSpec Round.
Local Open Scope Z_scope.
#[local] Opaque keccak_f keccakF1600 Event_Hash.

(** ** Recolouring *)

Section Recolour.

Context (cc : nat).

(** The two vertices differ at most in colour [cc]. *)
Record same_but_colour (x y : Vertex) : Prop := SBC {
  sbc_event : v_event y = v_event x;
  sbc_witness : witness y = witness x;
  sbc_another : anotherPt y = anotherPt x;
  sbc_self : selfPt y = selfPt x;
  sbc_seq : v_seqNum y = v_seqNum x;
  sbc_len : length (color y) = length (color x);
  sbc_other : forall i, i <> cc -> color y !! i = color x !! i }.

Lemma sbc_refl x : same_but_colour x x.
Proof. by split. Qed.

Lemma sbc_trans x y z : same_but_colour x y -> same_but_colour y z -> same_but_colour x z.
Proof.
  intros [A1 A2 A3 A4 A5 A6 A7] [B1 B2 B3 B4 B5 B6 B7]. split; try congruence.
  intros i Hi. by rewrite B7, A7.
Qed.

Lemma sbc_paint k x : same_but_colour x (paint cc k x).
Proof.
  split; try done; cbn; [apply length_insert|]. intros i Hi. by rewrite list_lookup_insert_ne.
Qed.

Definition recolored (jp jp' : JPGraph) : Prop :=
  jp' = set_vertices (vertices jp') jp /\ Forall2 same_but_colour (vertices jp) (vertices jp').

Lemma recolored_refl jp : recolored jp jp.
Proof.
  split; [by destruct jp|]. apply Forall2_same_length_lookup_2; [done|].
  intros i x y Hx Hy. assert (x = y) as -> by congruence. apply sbc_refl.
Qed.

Lemma recolored_trans jp1 jp2 jp3 : recolored jp1 jp2 -> recolored jp2 jp3 -> recolored jp1 jp3.
Proof.
  intros [E1 F1] [E2 F2]. split.
  - rewrite E2, E1. by destruct jp1.
  - clear E1 E2. revert F2. generalize (vertices jp3). induction F1; intros l3 F2;
      inversion F2; subst; constructor; [by eapply sbc_trans|auto].
Qed.

Lemma recolored_paint jp v vx k :
  vertices jp !! v = Some vx ->
  recolored jp (set_vertices (<[v := paint cc k vx]> (vertices jp)) jp).
Proof.
  intros Hv. split; [done|]. cbn.
  rewrite <- (list_insert_id (vertices jp) v vx Hv) at 1. apply Forall2_insert; [|apply sbc_paint].
  apply recolored_refl.
Qed.

Lemma recolored_lookup jp jp' v vx :
  recolored jp jp' -> vertices jp !! v = Some vx ->
  exists vx', vertices jp' !! v = Some vx' /\ same_but_colour vx vx'.
Proof.
  intros [_ F] Hv. destruct (Forall2_lookup_l _ _ _ _ _ F Hv) as (y & ? & ?). eauto.
Qed.

Lemma recolored_lookup_r jp jp' v vx' :
  recolored jp jp' -> vertices jp' !! v = Some vx' ->
  exists vx, vertices jp !! v = Some vx /\ same_but_colour vx vx'.
Proof.
  intros [_ F] Hv. destruct (Forall2_lookup_r _ _ _ _ _ F Hv) as (y & ? & ?). eauto.
Qed.

(** Colours do not matter for being well-formed. *)
Lemma recolored_inv jp jp' : inv jp -> recolored jp jp' -> inv jp' /\ grows jp jp'.
Proof.
  intros I Hr. pose proof Hr as [E _].
  assert (G : grows jp jp').
  { split; try (rewrite E; cbn; eauto; done). intros v vx Hv.
    destruct (recolored_lookup jp jp' v vx Hr Hv) as (vx' & Hv' & S).
    exists vx'. split; [done|apply S]. }
  split; [|done]. rewrite E. apply inv_set_vertices; [done|by rewrite <- E|].
  rewrite <- E. intros v vx' Hv'.
  destruct (recolored_lookup_r jp jp' v vx' Hr Hv') as (vx & Hv & [A1 A2 A3 A4 A5 A6 A7]).
  destruct (vertex_ok_grows jp jp' v vx G (inv_vertex jp I v vx Hv)) as [K1 K2 K3 K4 K5 K6 K7].
  split; rewrite ?A1, ?A3, ?A4, ?A5, ?A6; done.
Qed.

(** Whites: vertices whose colour [cc] is [WHITE]. *)
Definition white_v (vx : Vertex) : Prop := color vx !! cc = Some WHITE.
#[export] Instance white_v_dec vx : Decision (white_v vx).
Proof. unfold white_v. apply _. Defined.

Definition white (jp : JPGraph) (v : nat) : Prop :=
  exists vx, vertices jp !! v = Some vx /\ white_v vx.

#[export] Instance white_dec jp v : Decision (white jp v).
Proof.
  destruct (vertices jp !! v) as [vx|] eqn:E.
  - destruct (decide (white_v vx)) as [H|H].
    + left. by exists vx.
    + right. intros (vx' & E' & H'). congruence.
  - right. intros (vx' & E' & _). congruence.
Defined.

Definition nwhite (jp : JPGraph) : nat := length (filter white_v (vertices jp)).

Lemma white_paint jp v vx k u :
  vertices jp !! v = Some vx -> k <> WHITE -> (cc < length (color vx))%nat ->
  white (set_vertices (<[v := paint cc k vx]> (vertices jp)) jp) u <-> white jp u /\ u <> v.
Proof.
  intros Hv Hk Hc. unfold white. cbn. destruct (decide (u = v)) as [->|Hne].
  - rewrite list_lookup_insert_eq by (by eapply lookup_lt_Some).
    split; [|by intros [_ []]]. intros (x & [= <-] & Hw). unfold white_v in Hw. cbn in Hw.
    rewrite list_lookup_insert_eq in Hw by done. congruence.
  - rewrite list_lookup_insert_ne by done. split; [by split|by intros [? _]].
Qed.

Lemma nwhite_le jp jp' :
  recolored jp jp' -> (forall v, white jp' v -> white jp v) -> (nwhite jp' <= nwhite jp)%nat.
Proof.
  intros [_ F] Hm. unfold nwhite. unfold white in Hm. revert Hm.
  induction F as [|x y l l' Hs F IH]; intros Hm; [done|].
  assert (IH' : (length (filter white_v l') <= length (filter white_v l))%nat).
  { apply IH. intros v. apply (Hm (S v)). }
  rewrite !filter_cons. destruct (decide (white_v y)) as [Hy|Hy].
  - destruct (Hm 0%nat (ex_intro _ y (conj eq_refl Hy))) as (x' & [= <-] & Hx).
    rewrite decide_True by done. cbn. lia.
  - case_decide; cbn; lia.
Qed.

Lemma nwhite_paint jp v vx k :
  vertices jp !! v = Some vx -> k <> WHITE -> (cc < length (color vx))%nat -> white jp v ->
  S (nwhite (set_vertices (<[v := paint cc k vx]> (vertices jp)) jp)) = nwhite jp.
Proof.
  intros Hv Hk Hc (vx' & Hv' & Hw). assert (vx' = vx) as -> by congruence. clear Hv'.
  unfold nwhite. cbn [vertices set_vertices]. revert v Hv. induction (vertices jp) as [|x l IH]; intros [|v] Hv; try done.
  - injection Hv as ->. cbn [insert list_insert]. rewrite !filter_cons, (decide_True (P := white_v vx)) by done.
    rewrite decide_False; [done|]. unfold white_v. cbn.
    rewrite list_lookup_insert_eq by done. congruence.
  - cbn [insert list_insert]. rewrite !filter_cons.
    case_decide; cbn [length]; by rewrite <- (IH v).
Qed.

End Recolour.

(** ** The depth-first search *)

Section Dfs.

(** The graph when the search begins, the colour it uses and the vertex it
    stops at. *)
Context (jp0 : JPGraph) (cc e : nat).

Definition stop_at (v : nat) : Prop :=
  v = e \/ exists vx, vertices jp0 !! v = Some vx /\ witness vx = Witness.
Definition parent (v u : nat) : Prop :=
  exists vx, vertices jp0 !! v = Some vx /\ (selfPt vx = Some u \/ anotherPt vx = Some u).

(** [u] is reached from [s]: along parents, through vertices where the search
    does not stop, all of them in [W] but for [s]. *)
Inductive reach (W : nat -> Prop) (s : nat) : nat -> Prop :=
| reach_start : reach W s s
| reach_step v u : reach W s v -> ~ stop_at v -> parent v u -> W u -> reach W s u.

Definition marked (trace : list Z) (v : nat) : Prop :=
  exists vx, vertices jp0 !! v = Some vx /\ trace !! v_seqNum vx = Some 1.

(** Pointers, colours and numbers of vertices are in range. *)
Definition search_ok (n : nat) : Prop := forall v vx, vertices jp0 !! v = Some vx ->
  (cc < length (color vx))%nat /\ (v_seqNum vx < n)%nat /\
  (forall p, selfPt vx = Some p \/ anotherPt vx = Some p -> is_Some (vertices jp0 !! p)).

(** What a part of the search that starts at the vertices [src] has done. *)
Record searched (src : nat -> Prop) (jp : JPGraph) (trace trace' : list Z) (jp' : JPGraph)
    : Prop := Searched {
  se_rec : recolored cc jp jp';
  se_mono : forall v, white cc jp' v -> white cc jp v;
  se_len : length trace' = length trace;
  se_keep : forall i, trace !! i = Some 1 -> trace' !! i = Some 1;
  se_sound : forall i x, trace' !! i = Some x -> trace !! i = Some x \/
    x = 1 /\ exists s u ux, src s /\ reach (white cc jp) s u /\
      vertices jp0 !! u = Some ux /\ v_seqNum ux = i;
  se_marked : forall v, white cc jp v -> ~ white cc jp' v -> marked trace' v;
  se_closed : forall v u, white cc jp v -> ~ white cc jp' v -> parent v u ->
    white cc jp' u -> stop_at u /\ marked trace' u }.

Lemma reach_mono (W W' : nat -> Prop) s u :
  (forall v, W v -> W' v) -> reach W s u -> reach W' s u.
Proof. intros H. induction 1; [constructor|]. econstructor; eauto. Qed.

Lemma searched_refl src jp trace : searched src jp trace trace jp.
Proof.
  split; eauto; [apply recolored_refl| |]; intros v; [by intros ? []|by intros ? ? []].
Qed.

Lemma marked_keep trace trace' v :
  (forall i, trace !! i = Some 1 -> trace' !! i = Some 1) -> marked trace v -> marked trace' v.
Proof. intros H (vx & Hv & Hm). exists vx. auto. Qed.

Lemma searched_trans src jp1 t1 jp2 t2 jp3 t3 :
  searched src jp1 t1 t2 jp2 -> searched src jp2 t2 t3 jp3 -> searched src jp1 t1 t3 jp3.
Proof.
  intros [A1 A2 A3 A4 A5 A6 A7] [B1 B2 B3 B4 B5 B6 B7]. split.
  - by eapply recolored_trans.
  - auto.
  - congruence.
  - auto.
  - intros i x Hx. destruct (B5 i x Hx) as [Hx2|(-> & s & u & ux & Hs & Hr & Hu)]; [auto|].
    right. split; [done|]. exists s, u, ux. split; [done|]. split; [|done].
    by eapply reach_mono.
  - intros v Hv Hn. destruct (decide (white cc jp2 v)) as [H2|H2]; [by apply B6|].
    eapply marked_keep; [exact B4|]. by apply A6.
  - intros v u Hv Hn Hp Hu. destruct (decide (white cc jp2 v)) as [H2|H2]; [by eapply B7|].
    destruct (A7 v u Hv H2 Hp (B2 u Hu)) as [? ?]. split; [done|]. by eapply marked_keep.
Qed.

Lemma mark_spec trace i Q E jp :
  (i < length trace)%nat -> Q (<[i := 1]> trace) jp -> wp (mark trace i) Q E jp.
Proof.
  intros Hi HQ. apply lookup_lt_is_Some_2 in Hi as [x Hx].
  unfold wp, mark, mbind, JM_bind. by rewrite Hx.
Qed.

(** The searches from one vertex, and what is known of the vertex itself. *)
Definition visited (s : nat) (jp : JPGraph) (trace trace' : list Z) (jp' : JPGraph) : Prop :=
  searched (eq s) jp trace trace' jp' /\ marked trace' s /\
  (stop_at s \/ ~ white cc jp' s /\
     forall u, parent s u -> white cc jp' u -> stop_at u /\ marked trace' u).

Lemma searched_mark s sx jp trace :
  vertices jp0 !! s = Some sx -> (v_seqNum sx < length trace)%nat ->
  searched (eq s) jp trace (<[v_seqNum sx := 1]> trace) jp /\
  marked (<[v_seqNum sx := 1]> trace) s.
Proof.
  intros Hs Hl. split.
  - split; [apply recolored_refl|done|apply length_insert| | | |].
    + intros i Hi. apply list_lookup_insert_Some. destruct (decide (v_seqNum sx = i)) as [<-|];
        [by left|by right].
    + intros i x Hx. apply list_lookup_insert_Some in Hx as [(<- & <- & _)|[_ Hx]]; [|by left].
      right. split; [done|]. exists s, s, sx. split_and!; try done. constructor.
    + by intros v ? [].
    + by intros v u ? [].
  - exists sx. split; [done|]. by apply list_lookup_insert_eq.
Qed.

(** Following one parent [u] of [s]. *)
Lemma follow_spec (go : list Z -> option nat -> JM (list Z)) s n jp trace (u : option nat) :
  search_ok n -> recolored cc jp0 jp -> length trace = n -> ~ stop_at s ->
  (forall w, u = Some w -> parent s w) ->
  (forall w, u = Some w -> white cc jp w ->
     wp (go trace (Some w)) (fun trace' jp' => visited w jp trace trace' jp')
       (fun _ _ => False) jp) ->
  wp (match u with
      | None => mret trace
      | Some w =>
          wx ← get_vertex w;
          k ← deref (color wx !! cc);
          if k =? WHITE then go trace u else mret trace
      end)
    (fun trace' jp' => searched (eq s) jp trace trace' jp' /\
       forall w, u = Some w -> white cc jp' w -> stop_at w /\ marked trace' w)
    (fun _ _ => False) jp.
Proof.
  intros Hok Hrec Hl Hns Hp Hgo. destruct u as [w|]; [|apply wp_ret; split; [apply searched_refl|done]].
  destruct (Hp w eq_refl) as (sx & Hs & Hsp). destruct (Hok s sx Hs) as (_ & _ & Hptr).
  destruct (Hptr w Hsp) as [wx0 Hw0].
  destruct (recolored_lookup cc jp0 jp w wx0 Hrec Hw0) as (wx & Hw & Hsbc).
  apply wp_bind. eapply wp_get_vertex; [exact Hw|].
  destruct (lookup_lt_is_Some_2 (color wx) cc) as [k Hk].
  { rewrite (sbc_len _ _ _ Hsbc). by apply (Hok w wx0). }
  apply wp_bind. eapply wp_deref; [exact Hk|]. destruct (Z.eqb_spec k WHITE) as [->|Hne].
  - assert (Hwh : white cc jp w) by (by exists wx).
    eapply wp_mono; [by apply Hgo| |done]. cbv beta.
    intros trace' jp' ([A1 A2 A3 A4 A5 A6 A7] & Hm & Hend). split.
    + split; try done. intros i x Hx. destruct (A5 i x Hx) as [?|(-> & s' & v & vx & <- & Hr & Hv)];
        [by left|]. right. split; [done|]. exists s, v, vx. split; [done|]. split; [|done].
      clear - Hr Hns Hp Hwh. induction Hr as [|v' u' Hr IH Hst Hpar Hu'].
      * econstructor; [constructor|done|by apply Hp|done].
      * by econstructor.
    + intros w' [= <-] Hww. destruct Hend as [?|[Hn _]]; [by split|done].
  - apply wp_ret. split; [apply searched_refl|]. intros w' [= <-] (wx' & Hw' & Hc).
    unfold white_v in Hc. congruence.
Qed.

(** A vertex is painted, its parents are searched, and it is painted again. *)
Lemma visited_around s sx0 jp sx trace jp1 trace3 jp3 sx3 :
  search_ok (length trace) -> recolored cc jp0 jp -> vertices jp0 !! s = Some sx0 ->
  vertices jp !! s = Some sx -> jp1 = set_vertices (<[s := paint cc GREY sx]> (vertices jp)) jp ->
  searched (eq s) jp1 (<[v_seqNum sx0 := 1]> trace) trace3 jp3 ->
  vertices jp3 !! s = Some sx3 ->
  (forall u, parent s u -> white cc jp3 u -> stop_at u /\ marked trace3 u) ->
  visited s jp trace trace3 (set_vertices (<[s := paint cc BLACK sx3]> (vertices jp3)) jp3).
Proof.
  intros Hok Hrec Hs0 Hs -> [A1 A2 A3 A4 A5 A6 A7] Hs3 Hpar.
  destruct (Hok s sx0 Hs0) as (Hcc & Hseq & _).
  destruct (searched_mark s sx0 jp trace Hs0 Hseq) as [[_ _ B3 B4 B5 _ _] Hm].
  assert (Hlen : (cc < length (color sx))%nat).
  { destruct (recolored_lookup cc jp0 jp s sx0 Hrec Hs0) as (sx' & Hs' & S).
    assert (sx' = sx) as -> by congruence. by rewrite (sbc_len _ _ _ S). }
  pose proof (recolored_paint cc jp s sx GREY Hs) as R1.
  assert (Hlen3 : (cc < length (color sx3))%nat).
  { destruct (recolored_lookup cc jp jp3 s sx (recolored_trans _ _ _ _ R1 A1) Hs)
      as (sx' & Hs' & S). assert (sx' = sx3) as -> by congruence.
    by rewrite (sbc_len _ _ _ S). }
  assert (W1 := fun u => white_paint cc jp s sx GREY u Hs ltac:(done) Hlen).
  assert (W4 := fun u => white_paint cc jp3 s sx3 BLACK u Hs3 ltac:(done) Hlen3).
  assert (Hms : marked trace3 s) by (by eapply marked_keep).
  split; [|split; [exact Hms|right; split]].
  - split.
    + eapply recolored_trans; [|by apply recolored_paint]. by eapply recolored_trans.
    + intros v Hv. apply W4 in Hv as [Hv _]. apply A2, W1 in Hv as [Hv _]. done.
    + congruence.
    + auto.
    + intros i x Hx. destruct (A5 i x Hx) as [Hx2|(-> & s' & u & ux & <- & Hr & Hu)].
      * by apply B5.
      * right. split; [done|]. exists s, u, ux. split; [done|]. split; [|done].
        eapply reach_mono; [|exact Hr]. intros v Hv. by apply W1 in Hv as [Hv _].
    + intros v Hv Hn. destruct (decide (v = s)) as [->|Hne]; [done|].
      apply A6; [by apply W1|]. intros H3. apply Hn. by apply W4.
    + intros v u Hv Hn Hp Hu. apply W4 in Hu as [Hu _].
      destruct (decide (v = s)) as [->|Hne]; [by apply Hpar|].
      apply (A7 v u); [by apply W1| |done|done]. intros H3. apply Hn. by apply W4.
  - intros H. by apply W4 in H as [_ []].
  - intros u Hp Hu. apply W4 in Hu as [Hu _]. by apply Hpar.
Qed.

(** One more than the number of white vertices is fuel enough when the search
    starts at a white vertex, and two more otherwise. *)
Definition fuel_for (jp : JPGraph) (s : nat) : nat :=
  nwhite cc jp + if decide (white cc jp s) then 1 else 2.

(** Painting a vertex grey leaves fuel for its parents. *)
Lemma grey_fuel jp s sx fuel :
  vertices jp !! s = Some sx -> (cc < length (color sx))%nat -> (fuel_for jp s <= S fuel)%nat ->
  (nwhite cc (set_vertices (<[s := paint cc GREY sx]> (vertices jp)) jp) + 1 <= fuel)%nat.
Proof.
  intros Hs Hlen Hf. unfold fuel_for in Hf. destruct (decide (white cc jp s)) as [Hw|Hw].
  - pose proof (nwhite_paint cc jp s sx GREY Hs ltac:(done) Hlen Hw). lia.
  - assert (nwhite cc (set_vertices (<[s := paint cc GREY sx]> (vertices jp)) jp) <= nwhite cc jp)%nat; [|lia].
    apply nwhite_le; [by apply recolored_paint|]. intros v Hv.
    by apply (white_paint cc jp s sx GREY) in Hv as [Hv _].
Qed.

Lemma dfsVisit_wp n fuel jp trace s :
  search_ok n -> recolored cc jp0 jp -> length trace = n -> is_Some (vertices jp0 !! s) ->
  (fuel_for jp s <= fuel)%nat ->
  wp (dfsVisit fuel trace (Some s) e cc) (fun trace' jp' => visited s jp trace trace' jp')
    (fun _ _ => False) jp.
Proof.
  intros Hok. revert jp trace s.
  induction fuel as [|fuel IH]; intros jp trace s Hrec Hl [sx0 Hs0] Hf.
  { unfold fuel_for in Hf. case_decide; lia. }
  destruct (recolored_lookup cc jp0 jp s sx0 Hrec Hs0) as (sx & Hs & S).
  destruct (Hok s sx0 Hs0) as (Hcc & Hseq & _). rewrite <- Hl in Hseq.
  cbn [dfsVisit]. apply wp_bind. eapply wp_get_vertex; [exact Hs|].
  rewrite (sbc_witness _ _ _ S), (sbc_seq _ _ _ S), (sbc_self _ _ _ S), (sbc_another _ _ _ S).
  destruct (bool_decide (s = e) || (witness sx0 =? Witness))%bool eqn:Est.
  { destruct (searched_mark s sx0 jp trace Hs0 Hseq) as [Hse Hm]. apply mark_spec; [done|].
    split; [done|]. split; [done|]. left. apply orb_true_iff in Est as [Est|Est].
    - left. by apply bool_decide_eq_true in Est.
    - right. exists sx0. split; [done|]. by apply Z.eqb_eq. }
  assert (Hns : ~ stop_at s).
  { apply orb_false_iff in Est as [E1 E2]. apply bool_decide_eq_false in E1.
    apply Z.eqb_neq in E2. intros [H|(x & Hx & Hw)]; [done|]. congruence. }
  assert (Hlen : (cc < length (color sx))%nat) by (by rewrite (sbc_len _ _ _ S)).
  apply wp_bind. eapply wp_upd_vertex; [exact Hs|].
  set (jp1 := set_vertices _ jp). set (trace1 := <[v_seqNum sx0 := 1]> trace).
  assert (R1 : recolored cc jp0 jp1) by (eapply recolored_trans; [done|by apply recolored_paint]).
  assert (Hf1 : (nwhite cc jp1 + 1 <= fuel)%nat).
  { by apply grey_fuel. }
  apply wp_bind, mark_spec; [done|]. fold trace1. cbv zeta. apply wp_bind.
  assert (Hl1 : length trace1 = n) by (unfold trace1; by rewrite length_insert).
  assert (Hgo : forall jp' t w, recolored cc jp1 jp' -> length t = n ->
    (forall v, white cc jp' v -> white cc jp1 v) -> parent s w -> white cc jp' w ->
    wp (dfsVisit fuel t (Some w) e cc) (fun trace' jp'' => visited w jp' t trace' jp'')
       (fun _ _ => False) jp').
  { intros jp' t w R' Ht Hm (x & Hx & Hp) Hw. apply IH; [by eapply recolored_trans|done| |].
    - assert (x = sx0) as -> by congruence. by apply (Hok s sx0 Hs0).
    - unfold fuel_for. rewrite decide_True by done. pose proof (nwhite_le cc jp1 jp' R' Hm). lia. }
  eapply wp_mono; [eapply (follow_spec (fun t u => dfsVisit fuel t u e cc) s n jp1 trace1);
    [done|done|done|done| |]| |done].
  { intros w Hw. exists sx0. auto. }
  { intros w Hw Hwh. apply Hgo; try done; [apply recolored_refl|exists sx0; auto]. }
  cbv beta. intros trace2 jp2 [Se1 Hself]. apply wp_bind.
  assert (Hl2 : length trace2 = n) by (by rewrite (se_len _ _ _ _ _ Se1)).
  assert (R2 : recolored cc jp0 jp2) by (eapply recolored_trans; [done|apply Se1]).
  eapply wp_mono; [eapply (follow_spec (fun t u => dfsVisit fuel t u e cc) s n jp2 trace2);
    [done|done|done|done| |]| |done].
  { intros w Hw. exists sx0. auto. }
  { intros w Hw Hwh. apply Hgo; try done; [apply Se1|apply Se1|exists sx0; auto]. }
  cbv beta. intros trace3 jp3 [Se2 Hother]. pose proof (searched_trans _ _ _ _ _ _ _ Se1 Se2) as Se.
  destruct (recolored_lookup cc jp0 jp3 s sx0) as (sx3 & Hs3 & _);
    [eapply recolored_trans; [exact R2|apply Se2]|done|].
  apply wp_bind. eapply wp_upd_vertex; [exact Hs3|]. apply wp_ret.
  eapply (visited_around s sx0 jp sx trace jp1 trace3 jp3); try done; [by rewrite Hl|].
  intros u (x & Hx & [Hu|Hu]) Hw; assert (x = sx0) as -> by congruence; [|by apply Hother].
  destruct (Hself u Hu (se_mono _ _ _ _ _ Se2 u Hw)) as [? ?]. split; [done|].
  eapply marked_keep; [apply Se2|done].
Qed.

(** Everything reached is marked, and nothing else. *)
Lemma visited_marks s jp trace' jp' n :
  visited s jp (replicate n 0) trace' jp' -> forall i, trace' !! i = Some 1 <->
    exists u ux, reach (white cc jp) s u /\ vertices jp0 !! u = Some ux /\ v_seqNum ux = i.
Proof.
  intros ([A1 A2 A3 A4 A5 A6 A7] & Hm & Hend) i. split.
  - intros Hi. destruct (A5 i 1 Hi) as [H|(_ & s' & u & ux & <- & Hr & Hu)].
    + by apply lookup_replicate in H as [? _].
    + by exists u, ux.
  - intros (u & ux & Hr & Hu & <-).
    assert (Hmu : marked trace' u /\ (u = s \/ white cc jp u /\ ~ white cc jp' u \/ stop_at u)).
    { clear Hu. induction Hr as [|v u Hr IH Hst Hp Hw]; [auto|].
      destruct IH as [Hmv Hv].
      destruct (decide (white cc jp' u)) as [Hu'|Hu']; [|split; [by apply A6|auto]].
      destruct Hv as [->|[[Hv1 Hv2]|Hv]]; [| |done].
      - destruct Hend as [?|[_ Hc]]; [done|]. destruct (Hc u Hp Hu'). auto.
      - destruct (A7 v u Hv1 Hv2 Hp Hu'). auto. }
    destruct Hmu as [(ux' & Hux & Hx) _]. assert (ux' = ux) as -> by congruence. done.
Qed.

End Dfs.

(** ** Clearing colours *)

Section Clear.

Context (jp0 : JPGraph) (idx : Z) (cc : nat) (rank : nat -> nat).

(** The round of a vertex, and the vertex before it in a column. *)
Definition round_is (v : nat) : Prop := exists vx n, vertices jp0 !! v = Some vx /\
  RoundID (v_event vx) = Some n /\ bigs jp0 !! n = Some idx.
Definition before (chain : gmap Hash nat) (v : nat) : option nat :=
  vx ← vertices jp0 !! v; chain !! SelfPart (v_event vx).

(** The newest events of round [idx] in a column: from the first one of the
    round, as long as the round stays the same. *)
Inductive newest (chain : gmap Hash nat) : nat -> nat -> Prop :=
| newest_here v : round_is v -> newest chain v v
| newest_before t u v : ~ round_is t -> before chain t = Some u -> newest chain u v ->
    newest chain t v.
Inductive run (chain : gmap Hash nat) : nat -> nat -> Prop :=
| run_here v : round_is v -> run chain v v
| run_before s u v : round_is s -> before chain s = Some u -> run chain u v -> run chain s v.

(** The chains of self parents' hashes have no cycle. *)
Record ranked : Prop := Ranked {
  rk_bound : forall v, (rank v <= length (vertices jp0))%nat;
  rk_before : forall c col v u, columns jp0 !! c = Some col ->
    before (hashChain col) v = Some u -> (rank u < rank v)%nat }.

(** What clearing has done so far: some vertices of the round became white. *)
Record cleared (jp : JPGraph) : Prop := Cleared {
  cl_rec : recolored cc jp0 jp;
  cl_only : forall v vx vx', vertices jp0 !! v = Some vx -> vertices jp !! v = Some vx' ->
    vx' = vx \/ round_is v /\ white cc jp v }.

Definition chain_ok (chain : gmap Hash nat) : Prop :=
  (exists c col, columns jp0 !! c = Some col /\ hashChain col = chain) /\
  forall h v, chain !! h = Some v -> is_Some (vertices jp0 !! v).

Lemma round_read jp v vx :
  inv jp0 -> cleared jp -> vertices jp !! v = Some vx -> exists vx0 z,
    vertices jp0 !! v = Some vx0 /\ v_event vx = v_event vx0 /\ (z = idx <-> round_is v) /\
    forall Q (E : stop -> JPGraph -> Prop), Q z jp -> wp (read_big (RoundID (v_event vx))) Q E jp.
Proof.
  intros I C Hv. destruct (recolored_lookup_r cc jp0 jp v vx (cl_rec _ C) Hv) as (vx0 & Hv0 & S).
  destruct (vok_round _ _ _ (inv_vertex jp0 I v vx0 Hv0)) as (n & Hn & Hlt).
  destruct (lookup_lt_is_Some_2 _ _ Hlt) as [z Hz]. exists vx0, z.
  split; [done|]. split; [apply S|]. split.
  - split; [intros ->; by exists vx0, n|]. intros (x & m & Hx & Hm & Hb). congruence.
  - intros Q E HQ. eapply wp_read_big; [by rewrite (sbc_event _ _ _ S)| |exact HQ].
    by rewrite (proj1 (cl_rec _ C)).
Qed.

Lemma find_starter_wp fuel chain jp s starter :
  inv jp0 -> ranked -> chain_ok chain -> cleared jp ->
  (forall v, s = Some v -> is_Some (vertices jp0 !! v) /\ (rank v < fuel)%nat) ->
  wp (find_starter fuel chain idx s starter)
    (fun res jp' => jp' = jp /\ (res = starter \/ exists v, res = Some v /\ round_is v) /\
       forall t v, s = Some t -> newest chain t v -> res = Some v)
    (fun _ _ => False) jp.
Proof.
  intros I [Rb Rk] [(c & col & Hc & Hch) Hdef] C. revert s.
  induction fuel as [|fuel IH]; intros [v|] Hs; cbn [find_starter];
    try (apply wp_ret; by split_and!; [|left|]).
  { destruct (Hs v eq_refl) as [_ Hr]. lia. }
  destruct (Hs v eq_refl) as [[vx0 Hv0] Hr].
  destruct (recolored_lookup cc jp0 jp v vx0 (cl_rec _ C) Hv0) as (vx & Hv & _).
  apply wp_bind. eapply wp_get_vertex; [exact Hv|]. apply wp_bind.
  destruct (round_read jp v vx I C Hv) as (vx1 & z & Hv1 & Hev & Hz & Hread). apply Hread.
  assert (Hbef : before chain v = chain !! SelfPart (v_event vx)).
  { unfold before. rewrite Hv1. cbn. by rewrite Hev. }
  destruct (Z.eqb_spec z idx) as [E|E].
  - apply wp_ret. split; [done|]. apply Hz in E. split; [right; eauto|].
    intros t w [= <-] Hn. inversion Hn; subst; [done|]. done.
  - eapply wp_mono; [apply IH| |done].
    + intros u Hu. split; [by eapply Hdef|]. rewrite <- Hbef in Hu. rewrite <- Hch in Hu.
      pose proof (Rk c col v u Hc Hu). lia.
    + cbv beta. intros res jp' (-> & Hres & Hnew). split; [done|]. split; [done|].
      intros t w [= <-] Hn. inversion Hn as [|? u ? Hnr Hb Hn']; subst; [by rewrite <- Hz in *|].
      apply (Hnew u); [by rewrite <- Hbef|done].
Qed.

Lemma cleared_white jp v vx :
  inv jp0 -> (cc < MaxColorCluster)%nat -> cleared jp -> vertices jp !! v = Some vx ->
  round_is v ->
  let jp' := set_vertices (<[v := paint cc WHITE vx]> (vertices jp)) jp in
  cleared jp' /\ white cc jp' v /\ (forall u, white cc jp u -> white cc jp' u).
Proof.
  intros I Hcc [C1 C2] Hv Hr jp'.
  pose proof (recolored_trans cc _ _ _ C1 (recolored_paint cc jp v vx WHITE Hv)) as R.
  assert (Hw : white cc jp' v).
  { exists (paint cc WHITE vx). split; [cbn; apply list_lookup_insert_eq; by eapply lookup_lt_Some|].
    unfold white_v. cbn. apply list_lookup_insert_eq.
    destruct (recolored_lookup_r cc jp0 jp v vx C1 Hv) as (vx0 & Hv0 & S).
    rewrite (sbc_len _ _ _ S). by rewrite (vok_color _ _ _ (inv_vertex jp0 I v vx0 Hv0)). }
  split; [|split; [done|]].
  - split; [done|]. intros u ux ux' Hu Hu'. destruct (decide (u = v)) as [->|Hne]; [by right|].
    cbn in Hu'. rewrite list_lookup_insert_ne in Hu' by done.
    destruct (C2 u ux ux' Hu Hu') as [?|[? (x & Hx & Hwx)]]; [by left|right].
    split; [done|]. exists x. cbn. by rewrite list_lookup_insert_ne.
  - intros u (x & Hx & Hwx). destruct (decide (u = v)) as [->|Hne]; [done|].
    exists x. cbn. by rewrite list_lookup_insert_ne.
Qed.

Lemma whiten_wp fuel chain jp s :
  inv jp0 -> (cc < MaxColorCluster)%nat -> ranked -> chain_ok chain -> cleared jp ->
  (forall v, s = Some v -> is_Some (vertices jp0 !! v) /\ (rank v < fuel)%nat) ->
  wp (whiten fuel chain idx cc s)
    (fun _ jp' => cleared jp' /\ (forall u, white cc jp u -> white cc jp' u) /\
       forall t v, s = Some t -> run chain t v -> white cc jp' v)
    (fun _ _ => False) jp.
Proof.
  intros I Hcc [Rb Rk] [(c & col & Hc & Hch) Hdef]. revert jp s.
  induction fuel as [|fuel IH]; intros jp [v|] C Hs; cbn [whiten]; try (apply wp_ret; by split_and!).
  { destruct (Hs v eq_refl) as [_ Hr]. lia. }
  destruct (Hs v eq_refl) as [[vx0 Hv0] Hr].
  destruct (recolored_lookup cc jp0 jp v vx0 (cl_rec _ C) Hv0) as (vx & Hv & _).
  apply wp_bind. eapply wp_get_vertex; [exact Hv|]. apply wp_bind.
  destruct (round_read jp v vx I C Hv) as (vx1 & z & Hv1 & Hev & Hz & Hread). apply Hread.
  assert (Hbef : before chain v = chain !! SelfPart (v_event vx)).
  { unfold before. rewrite Hv1. cbn. by rewrite Hev. }
  destruct (Z.eqb_spec z idx) as [E|E].
  - apply Hz in E. apply wp_bind. eapply wp_upd_vertex; [exact Hv|].
    destruct (cleared_white jp v vx I Hcc C Hv E) as (C1 & Hw1 & Hm1).
    eapply wp_mono; [apply IH; [exact C1|]| |done].
    + intros u Hu. split; [by eapply Hdef|]. rewrite <- Hbef in Hu. rewrite <- Hch in Hu.
      pose proof (Rk c col v u Hc Hu). lia.
    + cbv beta. intros [] jp' (C' & Hm & Hrun). split; [done|]. split; [auto|].
      intros t w [= <-] Hn. inversion Hn as [|? u ? Hnr Hb Hn']; subst; [by apply Hm|].
      apply (Hrun u); [by rewrite <- Hbef|done].
  - apply wp_ret. split; [done|]. split; [done|].
    intros t w [= <-] Hn. exfalso. apply E, Hz. by inversion Hn.
Qed.

Lemma newest_run chain t v : newest chain t v -> round_is v.
Proof. by induction 1. Qed.

Definition newest_run_in (c v : nat) : Prop := exists col t s, columns jp0 !! c = Some col /\
  verTop col = Some t /\ newest (hashChain col) t s /\ run (hashChain col) s v.

Lemma clear_loop_wp cols jp starter :
  inv jp0 -> (cc < MaxColorCluster)%nat -> ranked -> cleared jp ->
  Forall (fun c => exists a, graph jp0 !! a = Some c) cols ->
  (forall v, starter = Some v -> round_is v) ->
  wp (clear_loop idx cc cols starter)
    (fun _ jp' => cleared jp' /\ (forall u, white cc jp u -> white cc jp' u) /\
       forall c v, In c cols -> newest_run_in c v -> white cc jp' v)
    (fun _ _ => False) jp.
Proof.
  intros I Hcc R. revert jp starter.
  induction cols as [|c cols IH]; intros jp starter C Hcols Hst; cbn [clear_loop].
  { apply wp_ret. split; [done|]. split; [done|]. by intros c v []. }
  inversion Hcols as [|? ? [a Ha] Hcols']; subst.
  destruct (inv_column jp0 I a c Ha) as (col & Hc & [_ K2 K3]).
  assert (Hlen : length (vertices jp) = length (vertices jp0)).
  { symmetry. eapply Forall2_length, (cl_rec _ C). }
  assert (Hch : chain_ok (hashChain col)).
  { split; [by exists c, col|]. intros h v Hh. destruct (K2 h v Hh) as (vx & Hv & _). by exists vx. }
  assert (Hr : forall v, (rank v < S (length (vertices jp)))%nat).
  { intros v. rewrite Hlen. pose proof (rk_bound R v). lia. }
  assert (Hdef : forall v, round_is v -> is_Some (vertices jp0 !! v)).
  { intros v (vx & n & Hv & _). by exists vx. }
  apply wp_bind. eapply wp_get_column; [by rewrite (proj1 (cl_rec _ C))|].
  apply wp_bind, wp_get, wp_bind.
  eapply wp_mono; [apply find_starter_wp; [done|done|done|exact C|]| |done].
  { intros v Hv. split; [|done]. destruct (K3 v Hv) as [h Hh]. by apply (proj2 Hch h). }
  cbv beta. intros st jp' (-> & Hres & Hnew).
  assert (Hst' : forall v, st = Some v -> round_is v).
  { intros v ->. destruct Hres as [<-|(w & [= <-] & Hw)]; [by apply Hst|done]. }
  apply wp_bind. eapply wp_mono; [apply whiten_wp; [done|done|done|exact Hch|exact C|]| |done].
  { intros v Hv. split; [by apply Hdef, Hst'|done]. }
  cbv beta. intros [] jp1 (C1 & Hm1 & Hrun). eapply wp_mono; [by apply (IH jp1 st)| |done].
  cbv beta. intros [] jp2 (C2 & Hm2 & Hall). split; [done|]. split; [auto|].
  intros c' v [<-|Hin] Hnr; [|by apply (Hall c')].
  destruct Hnr as (col' & t & s & Hc' & Ht & Hns & Hrs). assert (col' = col) as -> by congruence.
  apply Hm2, (Hrun s); [by apply (Hnew t)|done].
Qed.

End Clear.

(** ** [JudgeSee] *)

Section Judge.

(** The column [i] is reached by a search from [s] to [e]. *)
Definition sees (jp : JPGraph) (cc s e i : nat) : Prop :=
  exists u ux, reach jp e (white cc jp) s u /\ vertices jp !! u = Some ux /\ v_seqNum ux = i.

Lemma count_ones (t : list Z) :
  (forall i x, t !! i = Some x -> x = 0 \/ x = 1) ->
  exists l : list nat, NoDup l /\ (forall i, i ∈ l <-> t !! i = Some 1) /\
    foldr Z.add 0 t = Z.of_nat (length l).
Proof.
  induction t as [|x t IH]; intros H.
  { exists []. split; [constructor|]. split; [|done]. intros i. split; [|done].
    by intros ?%elem_of_nil. }
  destruct IH as (l & Hn & Hl & E); [intros i y; apply (H (S i))|].
  assert (Hn' : NoDup (S <$> l)) by (by apply NoDup_fmap_2; [apply _|]).
  assert (Hl' : forall i, i ∈ S <$> l <-> exists j, i = S j /\ t !! j = Some 1).
  { intros i. rewrite list_elem_of_fmap. split; intros (j & -> & Hj); exists j; by rewrite ?Hl in *. }
  destruct (H 0%nat x eq_refl) as [-> | ->].
  - exists (S <$> l). split; [done|]. split; [|cbn; rewrite length_fmap; lia].
    intros [|i]; rewrite Hl'; [by split; [intros (j & ? & _)|]|]. split; [by intros (j & [= ->] & ?)|by exists i].
  - exists (0%nat :: (S <$> l)). split.
    { constructor; [|done]. rewrite Hl'. by intros (j & ? & _). }
    split; [|cbn [length foldr]; rewrite length_fmap; lia].
    intros [|i]; rewrite elem_of_cons, Hl'; [by split; [|left]|]. split; [by intros [?|(j & [= ->] & ?)]|right; by exists i].
Qed.

Lemma search_ok_inv jp cc :
  inv jp -> (cc < MaxColorCluster)%nat -> (size (graph jp) <= broadness jp)%nat ->
  search_ok jp cc (broadness jp).
Proof.
  intros I Hc Hb v vx Hv. destruct (inv_vertex jp I v vx Hv) as [_ _ _ K4 K5 K6 K7].
  split; [by rewrite K7|]. split.
  - destruct (inv_column jp I _ _ K4) as (col & Hcol & _). apply lookup_lt_Some in Hcol.
    pose proof (inv_len jp I). lia.
  - intros p [Hp|Hp]; [destruct (K5 p Hp) as [_ (x & Hx & _)]|destruct (K6 p Hp) as (x & Hx & _)];
      by exists x.
Qed.

Lemma nwhite_bound cc jp : (nwhite cc jp <= length (vertices jp))%nat.
Proof. apply length_filter. Qed.

End Judge.

(** C13: [JudgeSee] from [s] to [e] in a graph with at most [broadness] nodes
    returns: the depth-first search ends and stays inside its arrays.  It
    changes nothing but the colour it was given.  A column counts as seen exactly
    when a vertex of it is reached from [s] along self and other parents through
    vertices that were white and are neither [e] nor witnesses.  The first result
    says whether the column of [e] is seen, the second whether the number of seen
    columns is at least [superMajority]. *)
Theorem JudgeSee_spec jp s e ex cc (I : inv jp) (Hc : (cc < MaxColorCluster)%nat)
    (Hb : (size (graph jp) <= broadness jp)%nat) (Hs : (s < length (vertices jp))%nat)
    (He : vertices jp !! e = Some ex) :
  exists see strong jp' (cols : gset nat),
    JudgeSee (Some s) (Some e) cc jp = (Ok (see, strong), jp') /\
    recolored cc jp jp' /\ inv jp' /\
    (forall i, i ∈ cols <-> sees jp cc s e i) /\
    see = (if decide (v_seqNum ex ∈ cols) then 1 else 0) /\
    strong = (superMajority jp <=? Z.of_nat (size cols)).
Proof.
  set (b := broadness jp).
  pose proof (search_ok_inv jp cc I Hc Hb) as Hok. fold b in Hok.
  assert (Hfuel : (fuel_for cc jp s <= S (S (length (vertices jp))))%nat).
  { unfold fuel_for. pose proof (nwhite_bound cc jp). case_decide; lia. }
  pose proof (dfsVisit_wp jp cc e b _ jp (replicate b 0) s Hok (recolored_refl cc jp)
    (length_replicate _ _) (lookup_lt_is_Some_2 _ _ Hs) Hfuel) as Hw.
  unfold wp in Hw. destruct (dfsVisit _ _ _ _ _ jp) as [[trace|st] jp'] eqn:E; [|done].
  pose proof (visited_marks jp cc e s jp trace jp' b Hw) as Hmarks.
  destruct Hw as ([A1 _ A3 _ A5 _ _] & _). rewrite length_replicate in A3.
  destruct (count_ones trace) as (l & Hn & Hl & Hsum).
  { intros i x Hx. destruct (A5 i x Hx) as [H|[-> _]]; [|by right].
    apply lookup_replicate in H as [-> _]. by left. }
  destruct (recolored_lookup cc jp jp' e ex A1 He) as (ex' & He' & Sx).
  destruct (lookup_lt_is_Some_2 trace (v_seqNum ex)) as [t Ht].
  { rewrite A3. by apply (Hok e ex He). }
  exists (if t =? 1 then 1 else 0), (superMajority jp <=? foldr Z.add 0 trace), jp', (list_to_set l).
  split.
  { unfold JudgeSee, walk_fuel, get_vertex, mbind, JM_bind, get. fold b. rewrite E, He'.
    cbn. rewrite (sbc_seq _ _ _ Sx), Ht. cbn. destruct A1 as [-> _]. reflexivity. }
  split; [done|]. split; [by apply (recolored_inv cc jp jp')|]. split.
  { intros i. rewrite elem_of_list_to_set, Hl. apply Hmarks. }
  split.
  - destruct (Z.eqb_spec t 1) as [->|Hne], (decide _) as [Hd|Hd]; try done; exfalso.
    + apply Hd. by rewrite elem_of_list_to_set, Hl.
    + rewrite elem_of_list_to_set, Hl in Hd. congruence.
  - by rewrite Hsum, size_list_to_set.
Qed.

(** A graph with one event. *)
Definition ex_one : JPGraph := (AddEvent (ex_hashed []) Normal ex_graph).2.

Lemma ex_one_ok : inv ex_one.
Proof.
  pose proof (CopyEvent_ok _ (ex_hashed_ok [] (Nat.le_0_l 1)) eq_refl) as Hok.
  assert (Hv : validateEvent (ex_hashed []) = true) by (vm_compute; reflexivity).
  pose proof (AddEvent_wp ex_graph (ex_hashed []) Normal 0 ex_graph_ok Hok eq_refl (le_n 1)
    (no_collision_only _ _ ex_graph_ok Hok Hv (no_collision_nil ex_graph _ eq_refl))) as H.
  assert (E : is_ok (AddEvent (ex_hashed []) Normal ex_graph).1 = true) by (vm_compute; reflexivity).
  unfold wp in H. unfold ex_one. destruct (AddEvent (ex_hashed []) Normal ex_graph) as [[r|] jp'];
    cbn [fst snd is_ok] in *; [apply H|discriminate E].
Qed.

Lemma JudgeSee_spec_witness :
  exists jp', JudgeSee (Some 0%nat) (Some 0%nat) 0 ex_one = (Ok (1, true), jp').
Proof.
  destruct (vertices ex_one !! 0%nat) as [vx|] eqn:Hv; [|vm_compute in Hv; discriminate Hv].
  destruct (JudgeSee_spec ex_one 0 0 vx 0 ex_one_ok ltac:(unfold MaxColorCluster; lia)
    ltac:(vm_compute; lia) ltac:(apply lookup_lt_Some in Hv; exact Hv) Hv)
    as (see & strong & jp' & cols & E & _ & _ & Hcols & Hsee & Hstrong).
  assert (Hin : v_seqNum vx ∈ cols).
  { apply Hcols. exists 0%nat, vx. split; [constructor|]. split; [exact Hv|reflexivity]. }
  rewrite decide_True in Hsee by exact Hin. exists jp'. rewrite E, Hsee.
  enough (Hs : strong = true) by (rewrite Hs; reflexivity). rewrite Hstrong.
  assert (Hsm : superMajority ex_one = 1) by (vm_compute; reflexivity). rewrite Hsm.
  apply Z.leb_le. clear - Hin.
  assert (size cols <> 0)%nat; [|lia]. apply size_non_empty_iff. set_solver.
Defined.

(** [clearColorDFS] for a round, in whatever order the columns are visited,
    when following the hashes of self parents never comes back to where it was:
    it returns; in every column the newest events of the round, from the first
    one found down to the first one of another round, are white afterwards; and
    nothing changes but that some vertices of the round become white in the given
    colour, although the starting point is not reset between columns. *)
Theorem clearColorDFS_spec order idx cc rank jp (I : inv jp)
    (Hcc : (cc < MaxColorCluster)%nat) (Hr : ranked jp rank)
    (Ho : forall m, order m ≡ₚ map_to_list m) :
  exists jp', clearColorDFS order idx cc jp = (Ok tt, jp') /\ inv jp' /\
    recolored cc jp jp' /\
    (forall v vx vx', vertices jp !! v = Some vx -> vertices jp' !! v = Some vx' ->
       vx' = vx \/ round_is jp idx v /\ white cc jp' v) /\
    (forall a c v, graph jp !! a = Some c -> newest_run_in jp idx c v -> white cc jp' v).
Proof.
  assert (C : cleared jp idx cc jp).
  { split; [apply recolored_refl|]. intros v vx vx' Hv Hv'. left. congruence. }
  assert (Hin : forall a c, (a, c) ∈ order (graph jp) <-> graph jp !! a = Some c).
  { intros a c. rewrite Ho. apply elem_of_map_to_list. }
  assert (Hcols : Forall (fun c => exists a, graph jp !! a = Some c) (map snd (order (graph jp)))).
  { apply List.Forall_map, Forall_forall. intros [a c] H. exists a. by apply Hin. }
  pose proof (clear_loop_wp jp idx cc rank _ jp None I Hcc Hr C Hcols ltac:(done)) as H.
  unfold wp in H. unfold clearColorDFS, mbind, JM_bind, get.
  destruct (clear_loop _ _ _ _ jp) as [[[]|st] jp'] eqn:E; [|done].
  destruct H as ([C1 C2] & _ & Hall). exists jp'. split; [done|].
  split; [by apply (recolored_inv cc jp jp')|]. split; [done|]. split; [done|].
  intros a c v Hg Hn. apply (Hall c); [|done]. apply in_map_iff. exists (a, c).
  split; [done|]. by apply list_elem_of_In, Hin.
Qed.

#[local] Opaque ex_one.

Lemma ex_one_before c col v :
  columns ex_one !! c = Some col -> before ex_one (hashChain col) v = None.
Proof.
  intros Hc. destruct v as [|v].
  - assert (H : Forall (fun col => before ex_one (hashChain col) 0 = None) (columns ex_one)).
    { eapply bool_decide_eq_true_1. vm_compute. reflexivity. }
    exact (Forall_lookup_1 _ _ c col H Hc).
  - unfold before. assert (E : vertices ex_one !! S v = None); [|by rewrite E].
    apply lookup_ge_None. assert (El : length (vertices ex_one) = 1%nat) by (vm_compute; reflexivity).
    rewrite El. lia.
Qed.

Lemma ex_one_ranked : ranked ex_one (fun _ => 0%nat).
Proof.
  split; [intros v; lia|]. intros c col v u Hc H. rewrite (ex_one_before c col v Hc) in H.
  discriminate H.
Qed.

Lemma clearColorDFS_spec_witness :
  exists jp', clearColorDFS map_to_list 0 0 ex_one = (Ok tt, jp') /\ inv jp'.
Proof.
  destruct (clearColorDFS_spec map_to_list 0 0 (fun _ => 0%nat) ex_one ex_one_ok
    ltac:(unfold MaxColorCluster; lia) ex_one_ranked ltac:(reflexivity)) as (jp' & E & I' & _).
  exists jp'. split; [exact E|exact I'].
Defined.
