(* ===== verification/RoundLoops.v ===== *)
(** * The loops of the round manager

    One turn of [RoundLoop], [MonitorLoop] and [ConsensusShow], and [WitnessFame],
    on well-formed graphs. *)

From S2P Require Import Prelude Keccak Types Graph Jigsaw JigsawSpec Round Search.
Local Open Scope Z_scope.
#[local] Opaque keccak_f keccakF1600 Event_Hash ex_one.

(** ** The queue of rounds *)

Section Queue.

Definition has_index (jp : JPGraph) (r : nat) (i : Z) : Prop :=
  exists rd, rounds jp !! r = Some rd /\ index rd = i.

(** The queue holds one round for every number from [currentIdx] in front down
    to 0. *)
Record rounds_ok (jp : JPGraph) : Prop := RoundsOk {
  ro_len : Z.of_nat (length (queue jp)) = currentIdx jp + 1;
  ro_index : forall k r, queue jp !! k = Some r -> has_index jp r (currentIdx jp - Z.of_nat k);
  ro_broad : forall r rd, rounds jp !! r = Some rd -> r_broadness rd = broadness jp }.

(** All witnesses of a round are there. *)
Definition complete (rd : Round) : bool :=
  forallb (fun w => bool_decide (is_Some w)) (take (r_broadness rd) (witnesses rd)).

Lemma all_witnesses_run wits i n jp :
  (i + n <= length wits)%nat ->
  all_witnesses wits i n jp =
    (Ok (forallb (fun w => bool_decide (is_Some w)) (take n (drop i wits))), jp).
Proof.
  revert i. induction n as [|n IH]; intros i Hl; cbn [all_witnesses]; [done|].
  destruct (lookup_lt_is_Some_2 wits i) as [w Hw]; [lia|].
  rewrite (JM_bind_ok _ _ jp w jp) by (by rewrite Hw). rewrite (drop_S wits w i Hw).
  destruct w as [v|]; [|done]. rewrite IH by lia. done.
Qed.

(** The round with a number: unique, and there for 0 .. [currentIdx]. *)
Lemma find_round_wp jp n z (Q : option nat -> JPGraph -> Prop) (E : stop -> JPGraph -> Prop) :
  rounds_ok jp -> bigs jp !! n = Some z ->
  (~ (0 <= z <= currentIdx jp) -> Q None jp) ->
  (0 <= z <= currentIdx jp -> forall r, In r (queue jp) -> has_index jp r z -> Q (Some r) jp) ->
  wp (find_round (Some n) (queue jp)) Q E jp.
Proof.
  intros R Hz HN HS.
  assert (Hg : forall q k, drop k (queue jp) = q ->
    (forall i r, (i < k)%nat -> queue jp !! i = Some r -> ~ has_index jp r z) ->
    wp (find_round (Some n) q) Q E jp).
  { induction q as [|r q IH]; intros k Hq Hno; cbn [find_round].
    - apply wp_ret, HN. intros Hr. pose proof (ro_len jp R) as Hl.
      assert (Hk : (length (queue jp) <= k)%nat).
      { apply (f_equal length) in Hq. rewrite length_drop in Hq. cbn in Hq. lia. }
      destruct (lookup_lt_is_Some_2 (queue jp) (Z.to_nat (currentIdx jp - z))) as [r Hr']; [lia|].
      apply (Hno (Z.to_nat (currentIdx jp - z)) r); [lia|done|].
      destruct (ro_index jp R _ _ Hr') as (rd & Hrd & Hi). exists rd. split; [done|]. lia.
    - assert (Hk : queue jp !! k = Some r).
      { rewrite <- (Nat.add_0_r k), <- lookup_drop, Hq. done. }
      destruct (ro_index jp R k r Hk) as (rd & Hrd & Hi).
      apply wp_bind. eapply wp_get_round; [exact Hrd|].
      apply wp_bind. eapply wp_read_big; [done|exact Hz|].
      destruct (Z.eqb_spec z (index rd)) as [Heq|Hne].
      + apply wp_ret. apply HS.
        * pose proof (ro_len jp R). apply lookup_lt_Some in Hk. lia.
        * apply list_elem_of_In. by eapply list_elem_of_lookup_2.
        * by exists rd.
      + apply (IH (S k)).
        * rewrite <- (Nat.add_1_r k), <- drop_drop, Hq. done.
        * intros i r' Hlt Hr' (rd' & Hrd' & Hi'). destruct (decide (i = k)) as [->|Hik].
          -- assert (r' = r) as -> by congruence. congruence.
          -- apply (Hno i r'); [lia|done|by exists rd']. }
  apply (Hg (queue jp) 0%nat); [done|]. intros i r Hi. lia.
Qed.

Lemma inv_open_round jp b i :
  inv jp ->
  let jp' := set_queue (length (rounds jp) :: queue jp)
               (set_rounds (rounds jp ++ [NewRound b i]) jp) in
  inv jp' /\ grows jp jp'.
Proof.
  intros [I1 I2 I3 I4 I5 [I6 I6'] I7 I8] jp'.
  assert (G : grows jp jp') by (split; cbn; eauto).
  split; [|done]. split; try done.
  - intros a c H. destruct (I3 a c H) as (col & Hc & Hok). exists col.
    split; [done|]. by eapply column_ok_grows.
  - intros v vx H. eapply vertex_ok_grows; [done|]. by apply I4.
  - intros r rd H. cbn in H. eapply (round_ok_grows jp jp'); [done|].
    apply lookup_app_Some in H as [H|[_ H]]; [by eapply I5|].
    apply list_lookup_singleton_Some in H as [_ <-]. apply round_ok_new.
  - cbn. split; [done|]. rewrite length_app. cbn. constructor; [lia|].
    eapply Forall_impl; [exact I6'|]. cbn. intros; lia.
Qed.

(** Opening the next round. *)
Lemma open_round_wp jp n z :
  inv jp -> rounds_ok jp -> bigs jp !! n = Some z ->
  wp (_ ← modify (set_currentIdx (currentIdx jp + 1));
      _ ← write_big (Some n) (currentIdx jp + 1);
      b ← get broadness;
      r ← new_round (NewRound b (currentIdx jp + 1));
      modify (fun jp => set_queue (r :: queue jp) jp))
    (fun _ jp' => inv jp' /\ grows jp jp' /\ rounds_ok jp' /\
       currentIdx jp' = currentIdx jp + 1 /\ bigs jp' !! n = Some (currentIdx jp + 1) /\
       vertices jp' = vertices jp /\ consensusTrigger jp' = consensusTrigger jp /\
       broadness jp' = broadness jp /\ size (graph jp') = size (graph jp) /\
       roundTrigger jp' = roundTrigger jp)
    (fun _ _ => False) jp.
Proof.
  intros I R Hz. set (cur := currentIdx jp). apply wp_bind, wp_modify.
  destruct (inv_chan jp (set_currentIdx (cur + 1) jp) I) as [I1 G1]; try done.
  set (jp1 := set_currentIdx (cur + 1) jp) in *.
  assert (Hn : (n < length (bigs jp1))%nat) by (by eapply lookup_lt_Some).
  apply wp_bind. eapply wp_write_big; [done|exact Hn|].
  destruct (inv_bigs jp1 (<[n := cur + 1]> (bigs jp1)) I1) as [I2 G2]; [by rewrite length_insert|].
  set (jp2 := set_bigs _ jp1) in *. apply wp_bind, wp_get, wp_bind.
  unfold new_round. apply wp_bind, wp_get, wp_bind, wp_modify, wp_ret, wp_modify.
  destruct (inv_open_round jp2 (broadness jp2) (cur + 1) I2) as [I3 G3].
  cbn in I3, G3 |- *. split; [done|].
  split; [eapply grows_trans; [exact G1|]; by eapply grows_trans|]. split.
  - destruct R as [R1 R2 R3]. split; cbn.
    + lia.
    + intros [|k] r Hr; cbn in Hr.
      * injection Hr as <-. exists (NewRound (broadness jp) (cur + 1)).
        split; [cbn; by apply list_lookup_middle|cbn; lia].
      * destruct (R2 k r Hr) as (rd & Hrd & Hi). exists rd.
        split; [cbn; by apply lookup_app_l_Some|]. unfold cur. lia.
    + intros r rd H. apply lookup_app_Some in H as [H|[_ H]]; [by eapply R3|].
      by apply list_lookup_singleton_Some in H as [_ <-].
  - split; [done|]. split; [by apply list_lookup_insert_eq|done].
Qed.

(** Recording a witness. *)
Lemma record_wp jp r rd i v :
  inv jp -> rounds_ok jp -> rounds jp !! r = Some rd -> (v < length (vertices jp))%nat ->
  (i < MaxNodeCount)%nat ->
  let rd' := set_witnesses (<[i := Some v]> (witnesses rd)) rd in
  wp (set_round_witness r i v)
    (fun _ jp' => inv jp' /\ grows jp jp' /\ rounds_ok jp' /\
       jp' = set_rounds (<[r := rd']> (rounds jp)) jp)
    (fun _ _ => False) jp.
Proof.
  intros I R Hr Hv Hi rd'. pose proof (inv_round jp I r rd Hr) as Hok.
  destruct (lookup_lt_is_Some_2 (witnesses rd) i) as [w Hw]; [by rewrite (rok_witlen _ _ Hok)|].
  apply wp_bind. eapply wp_get_round; [exact Hr|].
  apply wp_bind. eapply wp_deref; [exact Hw|]. eapply wp_upd_round; [exact Hr|].
  destruct (inv_upd_round jp r rd' I) as [I' G'].
  { destruct Hok as [K1 K2 K3 K4 K5]. split; cbn; try done.
    - by rewrite length_insert.
    - intros j u Hj. apply list_lookup_insert_Some in Hj as [(_ & [= <-] & _)|[_ Hj]]; [done|].
      by eapply K3. }
  split; [done|]. split; [done|]. split; [|done].
  assert (Hlt : (r < length (rounds jp))%nat) by (by eapply lookup_lt_Some).
  destruct R as [R1 R2 R3]. split; cbn; [done| |].
  - intros k q Hq. destruct (R2 k q Hq) as (qd & Hqd & Hqi).
    destruct (decide (q = r)) as [->|Hne].
    + exists rd'. split; [cbn; by apply list_lookup_insert_eq|].
      assert (qd = rd) as -> by congruence. done.
    + exists qd. split; [cbn; by rewrite list_lookup_insert_ne|done].
  - intros q qd Hq. apply list_lookup_insert_Some in Hq as [(<- & <- & _)|[_ Hq]];
      [cbn; by eapply R3|by eapply R3].
Qed.

End Queue.

(** ** [RoundLoop] *)

Section RoundTurn.

(** A vertex opens the next round. *)
Definition opens (vx : Vertex) (z cur : Z) : bool :=
  (witness vx =? WitnessLocal) && (z =? cur) || (witness vx =? Witness) && (z =? cur + 1).

Lemma rounds_ok_same jp jp' :
  rounds_ok jp -> queue jp' = queue jp -> currentIdx jp' = currentIdx jp ->
  rounds jp' = rounds jp -> broadness jp' = broadness jp -> rounds_ok jp'.
Proof.
  intros [R1 R2 R3] E1 E2 E3 E4. split; rewrite ?E1, ?E2, ?E3, ?E4; [done| |done].
  intros k r Hr. destruct (R2 k r Hr) as (rd & Hrd & Hi). exists rd. by rewrite E3.
Qed.

(** The turn after the vertex was received and the next round perhaps opened. *)
Definition recorded (jp : JPGraph) (vert : nat) (vx : Vertex) (z : Z) (jp' : JPGraph) : Prop :=
  inv jp' /\ grows jp jp' /\ rounds_ok jp' /\ currentIdx jp' = currentIdx jp /\
  bigs jp' = bigs jp /\ roundTrigger jp' = roundTrigger jp /\
  if bool_decide (0 <= z <= currentIdx jp) then
    exists r rd, In r (queue jp') /\ rounds jp' !! r = Some rd /\ index rd = z /\
      witnesses rd !! v_seqNum vx = Some (Some vert) /\
      consensusTrigger jp' = consensusTrigger jp ++ (if complete rd then [z] else [])
  else consensusTrigger jp' = consensusTrigger jp /\ rounds jp' = rounds jp.

Lemma recorded_wp jp vert vx n z :
  inv jp -> rounds_ok jp -> vertices jp !! vert = Some vx -> RoundID (v_event vx) = Some n ->
  bigs jp !! n = Some z -> (size (graph jp) <= MaxNodeCount)%nat ->
  (broadness jp <= MaxNodeCount)%nat ->
  wp (q ← get queue;
      round ← find_round (RoundID (v_event vx)) q;
      match round with
      | None => mret tt
      | Some r =>
          _ ← set_round_witness r (v_seqNum vx) vert;
          rd ← get_round r;
          all ← all_witnesses (witnesses rd) 0 (r_broadness rd);
          if (all : bool) then send consensusTrigger set_consensusTrigger (index rd)
          else mret tt
      end)
    (fun _ jp' => recorded jp vert vx z jp')
    (fun st jp' => st = Blocked /\ (MaxChanItem <= length (consensusTrigger jp'))%nat) jp.
Proof.
  intros I R Hv Hn Hz Hsize Hb. apply wp_bind, wp_get, wp_bind. rewrite Hn.
  eapply find_round_wp; [done|exact Hz| |].
  { intros Hno. apply wp_ret. unfold recorded. split_and!; try done; [apply grows_refl|].
    by rewrite bool_decide_eq_false_2. }
  intros Hrange r Hin (rd & Hr & Hi).
  assert (Hseq : (v_seqNum vx < MaxNodeCount)%nat).
  { pose proof (vok_seq _ _ _ (inv_vertex jp I vert vx Hv)) as Hg.
    destruct (inv_column jp I _ _ Hg) as (col & Hc & _). apply lookup_lt_Some in Hc.
    rewrite (inv_len jp I) in Hc. lia. }
  apply wp_bind. eapply wp_mono;
    [apply (record_wp jp r rd (v_seqNum vx) vert I R Hr); [by eapply lookup_lt_Some|done]| |done].
  cbv beta zeta. intros [] jp1 (I1 & G1 & R1 & E1). set (rd' := set_witnesses _ rd) in *.
  pose proof (rok_witlen _ _ (inv_round jp I r rd Hr)) as Hwl.
  assert (Hr1 : rounds jp1 !! r = Some rd').
  { rewrite E1. cbn. apply list_lookup_insert_eq. by eapply lookup_lt_Some. }
  apply wp_bind. eapply wp_get_round; [exact Hr1|]. apply wp_bind. unfold wp at 1.
  rewrite all_witnesses_run.
  2: { cbn. rewrite length_insert, Hwl, (ro_broad jp R r rd Hr). done. }
  rewrite drop_0. fold (complete rd').
  assert (Hpost : forall jp', inv jp' -> grows jp jp' -> rounds_ok jp' ->
    queue jp' = queue jp1 -> rounds jp' = rounds jp1 -> currentIdx jp' = currentIdx jp1 ->
    bigs jp' = bigs jp1 -> roundTrigger jp' = roundTrigger jp1 ->
    consensusTrigger jp' = consensusTrigger jp ++ (if complete rd' then [z] else []) ->
    recorded jp vert vx z jp').
  { intros jp' I' G' R' F1 F2 F3 F4 F5 F6.
    unfold recorded. rewrite bool_decide_eq_true_2 by done. rewrite E1 in F3, F4, F5.
    split_and!; try done. exists r, rd'. rewrite F1, F2. split; [by rewrite E1|].
    split; [done|]. split; [done|]. split; [|done]. cbn. apply list_lookup_insert_eq. lia. }
  destruct (complete rd') eqn:Ec.
  - apply wp_send; [|done]. intros _.
    set (jp2 := set_consensusTrigger _ jp1).
    destruct (inv_chan jp1 jp2 I1) as [I2 G2]; try done.
    apply (Hpost jp2); try done; [by eapply grows_trans|by eapply rounds_ok_same|].
    cbn. by rewrite E1, <- Hi.
  - apply wp_ret. apply Hpost; try done. by rewrite E1, app_nil_r.
Qed.

(** The state after the vertex was received and the next round perhaps opened. *)
Record opened (jp : JPGraph) (ch : list nat) (n : nat) (o : bool) (z : Z) (jp2 : JPGraph)
    : Prop := Opened {
  op_inv : inv jp2 /\ grows jp jp2 /\ rounds_ok jp2;
  op_cur : currentIdx jp2 = if o then currentIdx jp + 1 else currentIdx jp;
  op_big : bigs jp2 !! n = Some (if o then currentIdx jp + 1 else z);
  op_same : vertices jp2 = vertices jp /\ consensusTrigger jp2 = consensusTrigger jp /\
    broadness jp2 = broadness jp /\ size (graph jp2) = size (graph jp);
  op_trigger : roundTrigger jp2 = ch;
  op_rounds : o = false -> rounds jp2 = rounds jp }.

Lemma RoundLoop_wp jp vert ch vx n z :
  inv jp -> rounds_ok jp -> roundTrigger jp = vert :: ch -> vertices jp !! vert = Some vx ->
  RoundID (v_event vx) = Some n -> bigs jp !! n = Some z ->
  (size (graph jp) <= MaxNodeCount)%nat -> (broadness jp <= MaxNodeCount)%nat ->
  let o := opens vx z (currentIdx jp) in
  wp RoundLoop
    (fun _ jp3 => exists jp2, opened jp ch n o z jp2 /\
       recorded jp2 vert vx (if o then currentIdx jp + 1 else z) jp3)
    (fun st jp' => st = Blocked /\ (MaxChanItem <= length (consensusTrigger jp'))%nat) jp.
Proof.
  intros I R Hch Hv Hn Hz Hsize Hb o.
  unfold RoundLoop. apply wp_bind, wp_get. rewrite Hch. apply wp_bind, wp_modify.
  destruct (inv_chan jp (set_roundTrigger ch jp) I) as [I1 G1]; try done.
  set (jp1 := set_roundTrigger ch jp) in *.
  assert (R1 : rounds_ok jp1) by (by eapply rounds_ok_same).
  apply wp_bind. eapply wp_get_vertex; [exact Hv|].
  apply wp_bind. eapply wp_read_big; [exact Hn|exact Hz|]. apply wp_bind, wp_get, wp_bind.
  change (currentIdx jp1) with (currentIdx jp). fold (opens vx z (currentIdx jp)). fold o.
  eapply (wp_mono _ (fun _ jp2 => opened jp ch n o z jp2) _ (fun _ _ => False)); [| |done].
  { destruct o.
    - rewrite Hn. eapply wp_mono; [exact (open_round_wp jp1 n z I1 R1 Hz)| |done].
      cbv beta. intros [] jp2 (I2 & G2 & R2 & C2 & B2 & V2 & T2 & Br2 & S2 & Rt2).
      split; try done. split; [done|]. split; [by eapply grows_trans|done].
    - apply wp_ret. by split. }
  cbv beta. intros [] jp2 O. pose proof O as [(I2 & G2 & R2) C2 B2 (V2 & T2 & Br2 & S2) Rt2 Rd2].
  eapply wp_mono; [eapply (recorded_wp jp2 vert vx n _ I2 R2);
    [by rewrite V2|exact Hn|exact B2|by rewrite S2|by rewrite Br2]| |done].
  cbv beta. intros [] jp3 H3. by exists jp2.
Qed.

End RoundTurn.

(** C14: one turn of [RoundLoop] on a well-formed graph of at most 128 nodes.
    The queue keeps holding exactly the rounds [currentIdx], ..., 1, 0.  The
    vertex received opens the next round exactly when it is a local witness of
    the current round or a remote witness of the next one, and is moved to it.
    It is then recorded, under the number of its column, as a witness of the one
    round that has its round number, if there is such a round, and this round's
    number is sent to [consensusTrigger] exactly when all its witnesses are
    there.  The turn blocks only when [consensusTrigger] is full. *)
Theorem RoundLoop_spec jp vert ch vx n z (I : inv jp) (R : rounds_ok jp)
    (Hch : roundTrigger jp = vert :: ch) (Hv : vertices jp !! vert = Some vx)
    (Hn : RoundID (v_event vx) = Some n) (Hz : bigs jp !! n = Some z)
    (Hsize : (size (graph jp) <= MaxNodeCount)%nat) (Hb : (broadness jp <= MaxNodeCount)%nat) :
  let o := opens vx z (currentIdx jp) in
  let cur' := if o then currentIdx jp + 1 else currentIdx jp in
  let z' := if o then currentIdx jp + 1 else z in
  match RoundLoop jp with
  | (Ok _, jp') => inv jp' /\ grows jp jp' /\ rounds_ok jp' /\ currentIdx jp' = cur' /\
      bigs jp' !! n = Some z' /\ roundTrigger jp' = ch /\
      if bool_decide (0 <= z' <= cur') then
        exists r rd, In r (queue jp') /\ rounds jp' !! r = Some rd /\ index rd = z' /\
          witnesses rd !! v_seqNum vx = Some (Some vert) /\
          consensusTrigger jp' = consensusTrigger jp ++ (if complete rd then [z'] else [])
      else consensusTrigger jp' = consensusTrigger jp /\ rounds jp' = rounds jp
  | (Err st, jp') => st = Blocked /\ (MaxChanItem <= length (consensusTrigger jp'))%nat
  end.
Proof.
  intros o cur' z'. pose proof (RoundLoop_wp jp vert ch vx n z I R Hch Hv Hn Hz Hsize Hb) as Hw.
  cbv zeta in Hw. fold o in Hw. fold z' in Hw. unfold wp in Hw.
  destruct (RoundLoop jp) as [[[]|st] jp3]; [|exact Hw].
  destruct Hw as (jp2 & [(I2 & G2 & R2) C2 B2 (V2 & T2 & Br2 & S2) Rt2 Rd2] &
    (I3 & G3 & R3 & C3 & B3 & Rt3 & H3)).
  fold cur' in C2. fold z' in B2. rewrite C2, T2 in H3.
  split; [done|]. split; [by eapply grows_trans|].
  split; [done|]. split; [congruence|]. split; [by rewrite B3|]. split; [congruence|].
  case_bool_decide as Hd; [done|]. destruct H3 as [H3 H3']. split; [done|]. rewrite H3'.
  apply Rd2. unfold z', cur', o in *. destruct (opens vx z (currentIdx jp)); [|done].
  exfalso. apply Hd. pose proof (ro_len jp R). lia.
Qed.

(** The one event of [ex_one], a witness, waits for its turn, with round number
    [z]. *)
Definition ex_turn (z : Z) : JPGraph := set_bigs [z] (set_roundTrigger [0%nat] ex_one).

Lemma one_round_ok jp b z :
  inv jp -> queue jp = [0%nat] -> currentIdx jp = 0 -> broadness jp = b ->
  length (bigs jp) = 1%nat ->
  map (fun rd => (index rd, r_broadness rd)) (rounds jp) = [(0, b)] ->
  inv (set_bigs [z] (set_roundTrigger [0%nat] jp)) /\
  rounds_ok (set_bigs [z] (set_roundTrigger [0%nat] jp)).
Proof.
  intros I Eq Ei Eb El Er.
  destruct (inv_chan jp (set_roundTrigger [0%nat] jp) I) as [I1 _]; try done.
  split; [apply (inv_bigs _ [z] I1); cbn; by rewrite El|].
  destruct (rounds jp) as [|rd [|]] eqn:E; try done. injection Er as E1 E2.
  split; cbn; rewrite ?Eq, ?Ei, ?Eb, ?E; unfold has_index; cbn; rewrite ?E.
  - done.
  - intros [|k] r Hr; [injection Hr as <-; by exists rd|]. destruct k; discriminate Hr.
  - intros [|r] rd' Hr; [injection Hr as <-; exact E2|]. destruct r; discriminate Hr.
Qed.

Lemma ex_turn_ok z : inv (ex_turn z) /\ rounds_ok (ex_turn z).
Proof. apply (one_round_ok ex_one 2 z ex_one_ok); vm_compute; reflexivity. Qed.

Lemma RoundLoop_spec_witness :
  match RoundLoop (ex_turn 1) with
  | (Ok _, jp') => inv jp' /\ rounds_ok jp' /\ currentIdx jp' = 1
  | _ => False
  end.
Proof.
  destruct (vertices (ex_turn 1) !! 0%nat) as [vx|] eqn:Hv; [|vm_compute in Hv; discriminate Hv].
  assert (Ev : match vertices (ex_turn 1) !! 0%nat with
    | Some vx => opens vx 1 0 && bool_decide (RoundID (v_event vx) = Some 0%nat)
    | None => false end = true) by (vm_compute; reflexivity).
  rewrite Hv in Ev. apply andb_prop in Ev as [Eo En]. apply bool_decide_eq_true in En.
  pose proof (RoundLoop_spec (ex_turn 1) 0 [] vx 0 1 (proj1 (ex_turn_ok 1)) (proj2 (ex_turn_ok 1))
    eq_refl Hv En eq_refl ltac:(vm_compute; lia) ltac:(vm_compute; lia)) as H. cbv zeta in H.
  assert (Ec : currentIdx (ex_turn 1) = 0) by (vm_compute; reflexivity).
  assert (Ek : is_ok (RoundLoop (ex_turn 1)).1 = true) by (vm_compute; reflexivity).
  rewrite Ec, Eo in H. destruct (RoundLoop (ex_turn 1)) as [[[]|st] jp']; [|discriminate Ek].
  destruct H as (H1 & _ & H2 & H3 & _). split; [exact H1|]. split; [exact H2|exact H3].
Defined.
