(* ===== verification/RoundRest.v ===== *)
(** * The other loops of the round manager

    One turn of [MonitorLoop] and of [ConsensusShow], and [WitnessFame]. *)

From S2P Require Import Prelude Keccak Types Graph Jigsaw JigsawSpec Round Search RoundLoops.
Local Open Scope Z_scope.
#[local] Opaque keccak_f keccakF1600 Event_Hash ex_one.

(** ** Computations that leave the rounds alone *)

Section Keeps.

Definition keeps {A B} (f : JPGraph -> B) (m : JM A) : Prop :=
  forall jp x jp', m jp = (Ok x, jp') -> f jp' = f jp.

Lemma keeps_bind {A A' B} (f : JPGraph -> B) (m : JM A) (k : A -> JM A') :
  keeps f m -> (forall x, keeps f (k x)) -> keeps f (m ≫= k).
Proof.
  intros Hm Hk jp y jp' H. apply JM_bind_inv in H as (x & jp1 & H1 & H2).
  rewrite (Hk x jp1 y jp' H2). by eapply Hm.
Qed.
Lemma keeps_ret {A B} (f : JPGraph -> B) (a : A) : keeps f (mret a).
Proof. by intros jp x jp' [= _ <-]. Qed.
Lemma keeps_stops {A B} (f : JPGraph -> B) st : keeps f (@stops A st).
Proof. by intros jp x jp'. Qed.
Lemma keeps_get {A B} (f : JPGraph -> B) (g : JPGraph -> A) : keeps f (get g).
Proof. by intros jp x jp' [= _ <-]. Qed.
Lemma keeps_deref {A B} (f : JPGraph -> B) (o : option A) : keeps f (deref o).
Proof. destruct o; [apply keeps_ret|apply keeps_stops]. Qed.
Lemma keeps_modify {B} (f : JPGraph -> B) g : (forall jp, f (g jp) = f jp) -> keeps f (modify g).
Proof. by intros H jp x jp' [= _ <-]. Qed.

End Keeps.

Create HintDb keeps discriminated.
#[export] Hint Resolve keeps_bind keeps_ret keeps_stops keeps_get keeps_deref : keeps.

Section Votes.

Context (order : gmap Address nat -> list (Address * nat)).

Lemma keeps_get_vertex v : keeps rounds (get_vertex v).
Proof. apply keeps_bind; eauto with keeps. Qed.
Lemma keeps_upd_vertex v g : keeps rounds (upd_vertex v g).
Proof. apply keeps_bind; [apply keeps_get_vertex|]. intros x. by apply keeps_modify. Qed.
Lemma keeps_read_big p : keeps rounds (read_big p).
Proof. apply keeps_bind; eauto with keeps. Qed.
Hint Resolve keeps_get_vertex keeps_upd_vertex keeps_read_big : keeps.

Lemma keeps_find_starter fuel chain idx s st : keeps rounds (find_starter fuel chain idx s st).
Proof.
  revert s. induction fuel as [|fuel IH]; intros [v|]; cbn [find_starter]; eauto with keeps.
  apply keeps_bind; [eauto with keeps|]. intros vx. apply keeps_bind; [eauto with keeps|].
  intros z. destruct (z =? idx); eauto with keeps.
Qed.

Lemma keeps_whiten fuel chain idx cc s : keeps rounds (whiten fuel chain idx cc s).
Proof.
  revert s. induction fuel as [|fuel IH]; intros [v|]; cbn [whiten]; eauto with keeps.
  apply keeps_bind; [eauto with keeps|]. intros vx. apply keeps_bind; [eauto with keeps|].
  intros z. destruct (z =? idx); eauto with keeps.
Qed.

Lemma keeps_clear idx cc : keeps rounds (clearColorDFS order idx cc).
Proof.
  apply keeps_bind; [eauto with keeps|]. intros g. generalize (map snd (order g)) as cols.
  generalize (@None nat) as st. intros st cols. revert st.
  induction cols as [|c cols IH]; intros st; cbn [clear_loop]; [eauto with keeps|].
  apply keeps_bind; [apply keeps_bind; eauto with keeps|]. intros col.
  apply keeps_bind; [unfold walk_fuel; eauto with keeps|]. intros fuel.
  apply keeps_bind; [apply keeps_find_starter|]. intros st'.
  apply keeps_bind; [apply keeps_whiten|]. intros _. apply IH.
Qed.

Lemma keeps_mark trace i : keeps rounds (mark trace i).
Proof. apply keeps_bind; eauto with keeps. Qed.
Hint Resolve keeps_mark : keeps.

Lemma keeps_dfsVisit fuel trace s e cc : keeps rounds (dfsVisit fuel trace s e cc).
Proof.
  revert trace s. induction fuel as [|fuel IH]; intros trace [v|]; cbn [dfsVisit]; eauto with keeps.
  assert (Hv : forall t u, keeps rounds (match u with
      | None => mret t
      | Some w => wx ← get_vertex w; k ← deref (color wx !! cc);
                  if k =? WHITE then dfsVisit fuel t u e cc else mret t end)).
  { intros t [w|]; [|eauto with keeps]. apply keeps_bind; [eauto with keeps|]. intros wx.
    apply keeps_bind; [eauto with keeps|]. intros k. destruct (k =? WHITE); eauto with keeps. }
  apply keeps_bind; [eauto with keeps|]. intros vx. destruct (_ || _)%bool; [eauto with keeps|].
  apply keeps_bind; [eauto with keeps|]. intros _. apply keeps_bind; [eauto with keeps|].
  intros t. cbv zeta. apply keeps_bind; [apply Hv|]. intros t2.
  apply keeps_bind; [apply Hv|]. intros t3. eauto with keeps.
Qed.

Lemma keeps_JudgeSee s e cc : keeps rounds (JudgeSee s e cc).
Proof.
  apply keeps_bind; [eauto with keeps|]. intros b. destruct s, e; eauto with keeps.
  apply keeps_bind; [unfold walk_fuel; eauto with keeps|]. intros fuel.
  apply keeps_bind; [apply keeps_dfsVisit|]. intros trace.
  apply keeps_bind; [eauto with keeps|]. intros ex. eauto with keeps.
Qed.

Definition vote_len (r : nat) (jp : JPGraph) : option nat :=
  rd ← rounds jp !! r; Some (length (votes rd)).

(** Setting a vote works only inside the table, whose size stays. *)
Lemma set_vote_inv r i j see strong jp jp' :
  set_vote r i j see strong jp = (Ok tt, jp') ->
  vote_len r jp' = vote_len r jp /\ exists n, vote_len r jp = Some n /\ (i < n)%nat.
Proof.
  unfold set_vote, upd_round, get_round, mbind, JM_bind, get, modify, vote_len.
  destruct (rounds jp !! r) as [rd|] eqn:Hr; [|done]. cbn.
  destruct (votes rd !! i) as [vi|] eqn:Hv; [|done]. cbn.
  destruct (strongsee rd !! i) as [si|]; [|done]. cbn.
  destruct (vi !! j); [|done]. cbn. destruct (si !! j); [|done]. cbn. rewrite Hr. cbn.
  intros [= <-]. cbn. rewrite list_lookup_insert_eq by (by eapply lookup_lt_Some). cbn.
  rewrite length_insert. split; [done|]. exists (length (votes rd)). split; [done|].
  by eapply lookup_lt_Some.
Qed.

Lemma vote_row_inv r i n idx j ms jp jp' :
  vote_row order r i n idx j ms jp = (Ok tt, jp') ->
  vote_len r jp' = vote_len r jp /\
  (ms <> [] -> exists k, vote_len r jp = Some k /\ (i < k)%nat).
Proof.
  revert j jp. induction ms as [|m ms IH]; intros j jp; cbn [vote_row].
  { by intros [= <-]. }
  intros H. apply JM_bind_inv in H as ([] & jp1 & H1 & H).
  apply JM_bind_inv in H as ([see strong] & jp2 & H2 & H).
  apply JM_bind_inv in H as ([] & jp3 & H3 & H).
  assert (E : vote_len r jp2 = vote_len r jp).
  { unfold vote_len. rewrite (keeps_JudgeSee _ _ _ _ _ _ H2), (keeps_clear _ _ _ _ _ H1). done. }
  destruct (set_vote_inv _ _ _ _ _ _ _ H3) as [E3 Hk]. destruct (IH _ _ H) as [E4 _].
  split; [congruence|]. intros _. by rewrite <- E.
Qed.

Lemma vote_rows_inv r idx ms i ns jp jp' :
  ms <> [] -> vote_rows order r idx ms i ns jp = (Ok tt, jp') ->
  forall k, (k < length ns)%nat -> exists n, vote_len r jp = Some n /\ (i + k < n)%nat.
Proof.
  intros Hms. revert i jp. induction ns as [|n ns IH]; intros i jp H k Hk; cbn in Hk; [lia|].
  cbn [vote_rows] in H. apply JM_bind_inv in H as ([] & jp1 & H1 & H2).
  destruct (vote_row_inv _ _ _ _ _ _ _ _ H1) as [E Hn]. destruct k as [|k].
  - destruct (Hn Hms) as (m & ? & ?). exists m. by rewrite Nat.add_0_r.
  - destruct (IH _ _ H2 k) as (m & Hm & Hlt); [lia|]. exists m. rewrite <- E.
    split; [done|]. lia.
Qed.

End Votes.

(** [WitnessFame] cannot succeed once there is a second round: it writes a
    vote for each of the 128 entries of the list of witnesses, but the table of
    votes has one row for each node that takes part.  With fewer than 128 of
    them it panics, however the graph looks. *)
Theorem WitnessFame_fails order jp r p1 q rd (I : inv jp) (Hq : queue jp = r :: p1 :: q)
    (Hr : rounds jp !! r = Some rd) (Hv : (length (votes rd) < MaxNodeCount)%nat) :
  is_ok (WitnessFame order jp).1 = false.
Proof.
  destruct (WitnessFame order jp) as [[[]|st] jp'] eqn:E; [|done]. exfalso.
  unfold WitnessFame in E. apply JM_bind_inv in E as (q' & jp1 & [= <- <-] & E).
  rewrite Hq in E. apply JM_bind_inv in E as (rd' & jp2 & E1 & E).
  apply JM_bind_inv in E as (prd & jp3 & E2 & E).
  assert (Hg : forall r x (jp jp' : JPGraph), get_round r jp = (Ok x, jp') ->
    rounds jp !! r = Some x /\ jp' = jp).
  { intros s x jpa jpb. unfold get_round, mbind, JM_bind, get. destruct (rounds jpa !! s); [|done].
    by intros [= <- <-]. }
  apply Hg in E1 as [E1 ->]. apply Hg in E2 as [E2 ->]. assert (rd' = rd) as -> by congruence.
  apply JM_bind_inv in E as ([] & jp4 & E3 & _).
  pose proof (rok_witlen _ _ (inv_round jp I r rd Hr)) as L1.
  pose proof (rok_witlen _ _ (inv_round jp I p1 prd E2)) as L2.
  assert (Hms : witnesses prd <> []) by (intros E0; by rewrite E0 in L2).
  destruct (vote_rows_inv order r _ _ _ _ _ _ Hms E3 127)
    as (n & Hn & Hlt); [rewrite L1; unfold MaxNodeCount; lia|].
  unfold vote_len in Hn. rewrite Hr in Hn. cbn in Hn. injection Hn as <-.
  unfold MaxNodeCount in *. lia.
Qed.

Lemma WitnessFame_fails_witness :
  is_ok (WitnessFame map_to_list
    (set_queue [1%nat; 0%nat] (set_rounds [NewRound 4 0; NewRound 4 1]
      (NewJPGraph (replicate 20 1) 4)))).1 = false.
Proof.
  apply (WitnessFame_fails map_to_list _ 1 0 [] (NewRound 4 1)).
  - apply (proj1 (inv_open_round (NewJPGraph (replicate 20 1) 4) 4 1 (NewJPGraph_ok _ _))).
  - reflexivity.
  - reflexivity.
  - unfold MaxNodeCount. cbn [votes NewRound]. rewrite length_replicate. lia.
Defined.

(** ** [MonitorLoop] *)

Section Monitor.

Context (order : gmap Address nat -> list (Address * nat)) (rank : nat -> nat).
Hypothesis (Ho : forall m, order m ≡ₚ map_to_list m).

Lemma ranked_recolored cc jp jp' : recolored cc jp jp' -> ranked jp rank -> ranked jp' rank.
Proof.
  intros R [H1 H2]. pose proof R as [E F]. split.
  - intros v. rewrite <- (Forall2_length _ _ _ F). apply H1.
  - intros c col v u Hc. rewrite E in Hc. unfold before. intros Hb.
    destruct (vertices jp' !! v) as [vx'|] eqn:Hv; [|done]. cbn in Hb.
    destruct (recolored_lookup_r cc jp jp' v vx' R Hv) as (vx & Hvx & S).
    apply (H2 c col); [done|]. unfold before. rewrite Hvx. cbn.
    by rewrite <- (sbc_event _ _ _ S).
Qed.

Lemma clear_recolors idx cc jp :
  inv jp -> (cc < MaxColorCluster)%nat -> ranked jp rank ->
  wp (clearColorDFS order idx cc) (fun _ jp' => recolored cc jp jp') (fun _ _ => False) jp.
Proof.
  intros I Hcc Hr. apply wp_bind, wp_get. eapply wp_mono; [eapply (clear_loop_wp jp idx cc rank)| |done].
  - done.
  - done.
  - done.
  - split; [apply recolored_refl|]. intros v vx vx' Hv Hv'. left. congruence.
  - apply List.Forall_map, Forall_forall. intros [a c] H. rewrite Ho in H. exists a.
    by apply elem_of_map_to_list.
  - done.
  - cbv beta. intros [] jp' [C _]. apply C.
Qed.

Lemma judge_recolors jp s e cc :
  inv jp -> (cc < MaxColorCluster)%nat -> (size (graph jp) <= broadness jp)%nat ->
  (s < length (vertices jp))%nat -> (e < length (vertices jp))%nat ->
  wp (JudgeSee (Some s) (Some e) cc) (fun _ jp' => recolored cc jp jp') (fun _ _ => False) jp.
Proof.
  intros I Hc Hb Hs He. pose proof (search_ok_inv jp cc I Hc Hb) as Hok.
  apply wp_bind, wp_get, wp_bind, wp_get, wp_bind.
  eapply wp_mono; [apply (dfsVisit_wp jp cc e (broadness jp)); [done|apply recolored_refl|
    apply length_replicate|by apply lookup_lt_is_Some_2|]| |done].
  { unfold fuel_for. pose proof (nwhite_bound cc jp). case_decide; lia. }
  cbv beta. intros trace jp' ([A1 _ A3 _ _ _ _] & _).
  apply lookup_lt_is_Some_2 in He as [ex He].
  destruct (recolored_lookup cc jp jp' e ex A1 He) as (ex' & He' & Sx).
  destruct (lookup_lt_is_Some_2 trace (v_seqNum ex')) as [t Ht].
  { rewrite A3, length_replicate, (sbc_seq _ _ _ Sx). by apply (Hok e ex He). }
  apply wp_bind. eapply wp_get_vertex; [exact He'|].
  apply wp_bind. eapply wp_deref; [exact Ht|]. apply wp_bind, wp_get, wp_ret. done.
Qed.

(** Witnesses that are there. *)
Definition present (l : list (option nat)) : nat := length (filter is_Some l).

Lemma present_take l i n w :
  l !! i = Some w ->
  present (take (S n) (drop i l)) =
    ((if w is Some _ then 1 else 0) + present (take n (drop (S i) l)))%nat.
Proof.
  intros Hw. rewrite (drop_S l w i Hw). cbn [take]. unfold present. rewrite filter_cons.
  by destruct w as [v|].
Qed.

Lemma count_strong_wp r rd idx starter n i k jp :
  inv jp -> ranked jp rank -> rounds jp !! r = Some rd ->
  (size (graph jp) <= broadness jp)%nat -> (starter < length (vertices jp))%nat ->
  (i + n <= MaxNodeCount)%nat ->
  wp (count_strong order r idx starter i n k)
    (fun k' jp' => recolored ColorClusterRound jp jp' /\
       k <= k' <= k + Z.of_nat (present (take n (drop i (witnesses rd)))))
    (fun _ _ => False) jp.
Proof.
  revert i k jp. induction n as [|n IH]; intros i k jp I Hrk Hr Hb Hs Hi; cbn [count_strong].
  { apply wp_ret. split; [apply recolored_refl|lia]. }
  pose proof (inv_round jp I r rd Hr) as Hok.
  apply wp_bind. eapply wp_get_round; [exact Hr|].
  destruct (lookup_lt_is_Some_2 (witnesses rd) i) as [m Hm]; [rewrite (rok_witlen _ _ Hok); lia|].
  apply wp_bind. eapply wp_deref; [exact Hm|]. rewrite (present_take _ _ n m Hm). apply wp_bind.
  eapply (wp_mono _ (fun k1 jp1 => recolored ColorClusterRound jp jp1 /\
    k <= k1 <= k + (if m is Some _ then 1 else 0)) _ (fun _ _ => False)); [| |done].
  - destruct m as [w|]; [|apply wp_ret; split; [apply recolored_refl|lia]].
    apply wp_bind. eapply wp_mono;
      [apply clear_recolors; [done|unfold ColorClusterRound, MaxColorCluster; lia|done]| |done].
    cbv beta. intros [] jp1 R1. destruct (recolored_inv _ jp jp1 I R1) as [I1 G1].
    pose proof R1 as [E1 F1]. pose proof (Forall2_length _ _ _ F1) as L1.
    apply wp_bind. eapply wp_mono; [apply judge_recolors; [done|
      unfold ColorClusterRound, MaxColorCluster; lia|by rewrite E1| |]| |done].
    + by rewrite <- L1.
    + rewrite <- L1. by eapply (rok_wit _ _ Hok).
    + cbv beta. intros [see strong] jp2 R2. apply wp_ret.
      split; [by eapply recolored_trans|]. destruct strong; lia.
  - cbv beta. intros k1 jp1 [R1 Hk1]. destruct (recolored_inv _ jp jp1 I R1) as [I1 G1].
    pose proof R1 as [E1 F1]. pose proof (Forall2_length _ _ _ F1) as L1.
    eapply wp_mono; [apply IH; [done|by eapply ranked_recolored|by rewrite E1|by rewrite E1|
      by rewrite <- L1|lia]| |done].
    cbv beta. intros k2 jp2 [R2 Hk2]. split; [by eapply recolored_trans|].
    destruct m; lia.
Qed.

End Monitor.

(** What a turn of [MonitorLoop] that received [starter] did. *)
Record monitored (jp : JPGraph) (rd : Round) (roundNum : Z) (starter : nat) (vx : Vertex)
    (ch : list nat) (n' : Z) (jp' : JPGraph) : Prop := Monitored {
  mo_inv : inv jp' /\ grows jp jp';
  mo_chan : SelfEventCreated jp' = ch /\ monitorStarter jp' = Some starter;
  mo_rounds : rounds jp' = rounds jp /\ queue jp' = queue jp;
  mo_wait : size (graph jp) <> broadness jp -> n' = roundNum /\ vertices jp' = vertices jp /\
    witnessL jp' = witnessL jp /\ roundTrigger jp' = roundTrigger jp;
  mo_search : size (graph jp) = broadness jp -> exists k,
    0 <= k <= Z.of_nat (present (take (broadness jp) (witnesses rd))) /\
    if ((superMajority jp <? k) || ((v_seqNum vx =? 0)%nat && (roundNum + 1 =? RoundMax)))%bool
    then n' = 0 /\ witnessL jp' = witnessL jp ++ [v_event vx] /\
      roundTrigger jp' = roundTrigger jp ++ [starter] /\
      exists vx', vertices jp' !! starter = Some vx' /\ witness vx' = WitnessLocal
    else n' = roundNum + 1 /\ witnessL jp' = witnessL jp /\
      roundTrigger jp' = roundTrigger jp /\ recolored ColorClusterRound
        (set_monitorStarter (Some starter) (set_SelfEventCreated ch jp)) jp' }.

Lemma monitor_received jp starter ch :
  inv jp -> let jp' := set_monitorStarter (Some starter) (set_SelfEventCreated ch jp) in
  inv jp' /\ grows jp jp'.
Proof. intros I jp'. by apply (inv_chan jp jp'). Qed.

(** The own event becomes a local witness. *)
Lemma promote_wp jp starter vx :
  inv jp -> vertices jp !! starter = Some vx ->
  wp (_ ← send witnessL set_witnessL (v_event vx);
      _ ← upd_vertex starter (set_witness WitnessLocal);
      _ ← send roundTrigger set_roundTrigger starter;
      mret 0)
    (fun n' jp' => n' = 0 /\ inv jp' /\ grows jp jp' /\
       jp' = set_roundTrigger (roundTrigger jp ++ [starter])
               (set_vertices (<[starter := set_witness WitnessLocal vx]> (vertices jp))
                  (set_witnessL (witnessL jp ++ [v_event vx]) jp)))
    (fun st jp' => st = Blocked /\ ((MaxChanItem <= length (witnessL jp'))%nat \/
       (MaxChanItem <= length (roundTrigger jp'))%nat)) jp.
Proof.
  intros I Hv. apply wp_bind, wp_send; [|by split; [|left]]. intros _.
  destruct (inv_chan jp (set_witnessL (witnessL jp ++ [v_event vx]) jp) I) as [I1 G1]; try done.
  set (jp1 := set_witnessL _ jp) in *. apply wp_bind. eapply wp_upd_vertex; [exact Hv|].
  destruct (inv_upd_vertex jp1 starter vx (set_witness WitnessLocal vx) I1 Hv eq_refl) as [I2 G2].
  { destruct (inv_vertex jp1 I1 starter vx Hv) as [M1 M2 M3 M4 M5 M6 M7]. by split. }
  set (jp2 := set_vertices _ jp1) in *. apply wp_bind, wp_send; [|by split; [|right]]. intros _.
  apply wp_ret.
  destruct (inv_chan jp2 (set_roundTrigger (roundTrigger jp2 ++ [starter]) jp2) I2) as [I3 G3];
    try done.
  split; [done|]. split; [done|]. split; [|done].
  eapply grows_trans; [exact G1|]. by eapply grows_trans.
Qed.


Lemma ranked_chan jp rank ch : ranked jp rank -> ranked (set_SelfEventCreated ch jp) rank.
Proof. by intros [H1 H2]; split. Qed.
Lemma inv_created jp ch : inv jp -> inv (set_SelfEventCreated ch jp).
Proof. intros I. by apply (inv_chan jp (set_SelfEventCreated ch jp) I). Qed.

Definition ex_created : JPGraph := set_SelfEventCreated [0%nat] ex_one.


(** ** [ConsensusShow] *)

Section Consensus.

(** The number of vertices from [x] down its self parents to the next witness. *)
Inductive blocks_from (jp : JPGraph) : option nat -> Z -> Prop :=
| blocks_none : blocks_from jp None 0
| blocks_witness v vx : vertices jp !! v = Some vx -> witness vx = Witness ->
    blocks_from jp (Some v) 0
| blocks_more v vx n : vertices jp !! v = Some vx -> witness vx <> Witness ->
    blocks_from jp (selfPt vx) n -> blocks_from jp (Some v) (1 + n).

(** The blocks of a column: a witness on top counts, and is passed. *)
Inductive column_blocks (jp : JPGraph) (c : nat) : Z -> Prop :=
| cb_empty col : columns jp !! c = Some col -> verTop col = None -> column_blocks jp c 0
| cb_witness col t vx n : columns jp !! c = Some col -> verTop col = Some t ->
    vertices jp !! t = Some vx -> witness vx = Witness -> blocks_from jp (selfPt vx) n ->
    column_blocks jp c (1 + n)
| cb_other col t vx n : columns jp !! c = Some col -> verTop col = Some t ->
    vertices jp !! t = Some vx -> witness vx <> Witness -> blocks_from jp (Some t) n ->
    column_blocks jp c n.

Lemma count_down_run jp fuel x total :
  inv jp -> (forall v, x = Some v -> (v < fuel)%nat /\ (v < length (vertices jp))%nat) ->
  exists n, blocks_from jp x n /\ count_down fuel x total jp = (Ok (total + n), jp).
Proof.
  intros I. revert x total. induction fuel as [|fuel IH]; intros [v|] total Hx;
    cbn [count_down]; try (exists 0; split; [constructor|by rewrite Z.add_0_r]).
  { destruct (Hx v eq_refl). lia. }
  destruct (Hx v eq_refl) as [Hf Hl]. destruct (lookup_lt_is_Some_2 _ _ Hl) as [vx Hv].
  rewrite (JM_bind_ok (get_vertex v) _ jp vx jp).
  2: { unfold get_vertex, mbind, JM_bind, get. by rewrite Hv. }
  destruct (Z.eqb_spec (witness vx) Witness) as [Hw|Hw]; cbn [negb].
  - exists 0. split; [by eapply blocks_witness|by rewrite Z.add_0_r].
  - destruct (IH (selfPt vx) (total + 1)) as (n & Hn & E).
    + intros p Hp. destruct (vok_self _ _ _ (inv_vertex jp I v vx Hv) p Hp) as [Hlt (px & Hpx & _)].
      split; [lia|by eapply lookup_lt_Some].
    + exists (1 + n). split; [by eapply blocks_more|]. rewrite E. by rewrite Z.add_assoc.
Qed.

Lemma count_column_run jp a c total :
  inv jp -> graph jp !! a = Some c ->
  exists n, column_blocks jp c n /\ count_column c total jp = (Ok (total + n), jp).
Proof.
  intros I Hg. destruct (inv_column jp I a c Hg) as (col & Hc & [_ K2 K3]).
  unfold count_column. rewrite (JM_bind_ok (get_column c) _ jp col jp).
  2: { unfold get_column, mbind, JM_bind, get. by rewrite Hc. }
  rewrite (JM_bind_ok walk_fuel _ jp (S (length (vertices jp))) jp) by done.
  destruct (verTop col) as [t|] eqn:Et.
  2: { exists 0. split; [by eapply cb_empty|by rewrite Z.add_0_r]. }
  destruct (K3 t eq_refl) as [h Hh]. destruct (K2 h t Hh) as (vx & Hv & _).
  assert (Hlt : (t < length (vertices jp))%nat) by (by eapply lookup_lt_Some).
  rewrite (JM_bind_ok (get_vertex t) _ jp vx jp).
  2: { unfold get_vertex, mbind, JM_bind, get. by rewrite Hv. }
  destruct (Z.eqb_spec (witness vx) Witness) as [Hw|Hw].
  - destruct (count_down_run jp (S (length (vertices jp))) (selfPt vx) (total + 1) I) as (n & Hn & E).
    + intros p Hp. destruct (vok_self _ _ _ (inv_vertex jp I t vx Hv) p Hp) as [Hp' _]. lia.
    + exists (1 + n). split; [by eapply cb_witness|]. by rewrite E, Z.add_assoc.
  - destruct (count_down_run jp (S (length (vertices jp))) (Some t) total I) as (n & Hn & E).
    + intros p [= <-]. lia.
    + exists n. split; [by eapply cb_other|done].
Qed.

(** What the count of a column gives. *)
Definition column_count (jp : JPGraph) (a : Address) : Z :=
  match graph jp !! a with
  | Some c => match (count_column c 0 jp).1 with Ok n => n | Err _ => 0 end
  | None => 0
  end.

Lemma column_blocks_fun jp c n m : column_blocks jp c n -> column_blocks jp c m -> n = m.
Proof.
  assert (Hf : forall x n m, blocks_from jp x n -> blocks_from jp x m -> n = m).
  { intros x k l H. revert l. induction H as [|v vx Hv Hw|v vx k Hv Hw Hb IH]; intros l Hm;
      inversion Hm as [|? vx' Hv' Hw'|? vx' n' Hv' Hw' Hb']; subst; try done; try congruence.
    assert (vx' = vx) as -> by congruence. by rewrite (IH n'). }
  intros Hn Hm. destruct Hn as [col H1 H2|col t vx n H1 H2 H3 H4 H5|col t vx n H1 H2 H3 H4 H5];
    destruct Hm as [col' G1 G2|col' t' vx' m G1 G2 G3 G4 G5|col' t' vx' m G1 G2 G3 G4 G5];
    assert (col' = col) as -> by congruence; try congruence;
    assert (t' = t) as -> by congruence; assert (vx' = vx) as -> by congruence; try congruence;
    by rewrite (Hf _ n m H5 G5).
Qed.

Lemma column_blocks_same jp jp' c n :
  vertices jp' = vertices jp -> columns jp' = columns jp ->
  column_blocks jp' c n -> column_blocks jp c n.
Proof.
  intros Ev Ec H. assert (Hb : forall x k, blocks_from jp' x k -> blocks_from jp x k).
  { intros x k Hk. induction Hk; rewrite ?Ev in *; econstructor; eauto. }
  destruct H; rewrite ?Ev, ?Ec in *; [eapply cb_empty|eapply cb_witness|eapply cb_other]; eauto.
Qed.

Lemma column_count_run jp a c total :
  inv jp -> graph jp !! a = Some c ->
  column_blocks jp c (column_count jp a) /\
  count_column c total jp = (Ok (total + column_count jp a), jp).
Proof.
  intros I Hg. destruct (count_column_run jp a c total I Hg) as (n & Hn & E).
  destruct (count_column_run jp a c 0 I Hg) as (m & Hm & E0).
  assert (Hc : column_count jp a = m) by (unfold column_count; by rewrite Hg, E0).
  rewrite Hc, E, (column_blocks_fun jp c n m) by done. done.
Qed.

Lemma count_columns_run jp addrs total :
  inv jp -> Forall (fun a => is_Some (graph jp !! a)) addrs ->
  count_columns addrs total jp = (Ok (total + foldr Z.add 0 (map (column_count jp) addrs)), jp).
Proof.
  intros I. revert total. induction addrs as [|a addrs IH]; intros total Ha; cbn [count_columns].
  { by rewrite Z.add_0_r. }
  inversion Ha as [|? ? [c Hc] Ha']; subst.
  rewrite (JM_bind_ok (get graph) _ jp (graph jp) jp) by done. rewrite Hc.
  rewrite (JM_bind_ok _ _ jp _ jp (proj2 (column_count_run jp a c total I Hc))).
  rewrite IH by done. cbn. by rewrite Z.add_assoc.
Qed.

Lemma foldr_add_perm (l l' : list Z) : l ≡ₚ l' -> foldr Z.add 0 l = foldr Z.add 0 l'.
Proof. induction 1; cbn; lia. Qed.

End Consensus.

(** One turn of [ConsensusShow] on a well-formed graph returns; it takes one
    number from [consensusTrigger] and changes nothing else; [totalBlocks] grows
    by the sum, over all nodes, of the blocks of the node's column: its top if that
    is a witness, and the vertices below down to the next witness.  Neither the
    order in which the map is visited nor the order in which the addresses are
    sorted makes a difference. *)
Theorem ConsensusShow_spec order sort total jp i ch (I : inv jp)
    (Ho : forall m, order m ≡ₚ map_to_list m) (Hs : forall l, sort l ≡ₚ l)
    (Hch : consensusTrigger jp = i :: ch) :
  exists blocks : Address -> Z,
    (forall a c, graph jp !! a = Some c -> column_blocks jp c (blocks a)) /\
    ConsensusShow order sort total jp =
      (Ok (total + foldr Z.add 0 (map blocks (map fst (map_to_list (graph jp))))),
       set_consensusTrigger ch jp).
Proof.
  set (jp1 := set_consensusTrigger ch jp).
  destruct (inv_chan jp jp1 I) as [I1 _]; try done.
  exists (column_count jp1). split.
  { intros a c Hg. apply (column_blocks_same jp jp1); [done|done|].
    by apply (column_count_run jp1 a c 0 I1). }
  set (addrs := sort (map fst (order (graph jp)))).
  assert (Hp : addrs ≡ₚ map fst (map_to_list (graph jp))).
  { unfold addrs. rewrite Hs. by rewrite Ho. }
  rewrite <- (foldr_add_perm _ _ (Permutation_map (column_count jp1) Hp)).
  assert (E : count_columns addrs total jp1 =
    (Ok (total + foldr Z.add 0 (map (column_count jp1) addrs)), jp1)).
  { apply count_columns_run; [done|]. apply Forall_forall. intros a Ha. rewrite Hp in Ha.
    apply list_elem_of_In, in_map_iff in Ha as ([a' c] & <- & Hin).
    apply list_elem_of_In, elem_of_map_to_list in Hin. by exists c. }
  unfold ConsensusShow. rewrite (JM_bind_ok (get consensusTrigger) _ jp (i :: ch) jp)
    by (unfold get; by rewrite Hch).
  rewrite (JM_bind_ok (modify _) _ jp tt jp1) by done.
  rewrite (JM_bind_ok (get graph) _ jp1 (graph jp) jp1) by done. exact E.
Qed.

Lemma inv_consensus jp ch : inv jp -> inv (set_consensusTrigger ch jp).
Proof. intros I. by apply (inv_chan jp (set_consensusTrigger ch jp) I). Qed.

Lemma ConsensusShow_spec_witness :
  exists n jp', ConsensusShow map_to_list id 5 (set_consensusTrigger [0] ex_graph) = (Ok n, jp').
Proof.
  destruct (ConsensusShow_spec map_to_list id 5 (set_consensusTrigger [0] ex_graph) 0 []
    (inv_consensus _ _ ex_graph_ok) ltac:(reflexivity) ltac:(reflexivity) eq_refl) as (f & _ & E).
  eexists _, _. exact E.
Defined.
