(* ===== verification/Wire.v ===== *)
(** * Messages between nodes: [src/p2p/message.go] and the connection of
    [src/p2p/server.go]

    A message is framed by a header of nine bytes: its code, its type and the size
    of its payload, both in four bytes.  A connection is the bytes that the other
    side has sent and that were not read yet, after which it is closed, and the
    bytes sent to the other side.  [ReceivedAt] and logging are left out. *)

From S2P Require Import Prelude Text RlpTypes RlpEncode RlpRaw RlpStream RlpDecode.
Local Open Scope Z_scope.

(** Errors carry the text of [Error()]; a panic stops the program. *)
Inductive net_error :=
| NetError (text : string)
| NetRlp (e : rlp_error)
| NetPanic.

(** ** Messages *)

(** The payload is a reader of the encoder when a message is sent, and a
    [bytes.Reader] when it is received. *)
Record Msg (P : Type) := MkMsg { Code : Z; Type_ : Z; Size : Z; Payload : P }.
Arguments MkMsg {P} Code Type_ Size Payload.
Arguments Code {P} m.
Arguments Type_ {P} m.
Arguments Size {P} m.
Arguments Payload {P} m.

(** [Msg.Decode]: the error, and what [val] points to afterwards. *)
Definition Msg_Decode (type_name : gtype -> string) (msg : Msg bytes) (val : target)
    : option rlp_error * target :=
  let s := NewStream (Payload msg) (Size msg) in
  let '(err, tg, _) := stream_Decode type_name val s in (err, tg).

(** [Msg.String] and [Msg.Discard], which nothing calls: the payload, a [bytes.Reader], is empty afterwards. *)
Definition Msg_String (msg : Msg bytes) : bytes :=
  Text.str "msg #" ++ FormatUint (Code msg) ++ Text.str " (" ++ FormatUint (Size msg) ++ Text.str " bytes)".
Definition Msg_Discard (msg : Msg bytes) : option net_error * Msg bytes :=
  (None, MkMsg (Code msg) (Type_ msg) (Size msg) []).

(** ** The header *)

Definition readInt32 (b : bytes) : Z :=
  Z.lor (Z.lor (Z.lor (nth 3 b 0) (u32 (Z.shiftl (nth 2 b 0) 8)))
    (u32 (Z.shiftl (nth 1 b 0) 16))) (u32 (Z.shiftl (nth 0 b 0) 24)).

(** [putInt32] returns the bytes it stores. *)
Definition putInt32 (v : Z) : bytes :=
  [u8 (Z.shiftr v 24); u8 (Z.shiftr v 26); u8 (Z.shiftr v 8); u8 v].

(** ** Connections *)

(** [fd_in] is what the other side sent; [fd_err] is the error that writing
    gives. *)
Record netconn := MkNet { fd_in : bytes; fd_out : bytes; fd_err : option string }.
Record conn := MkConn { fd : option netconn; c_id : bytes }.

Definition set_fd (f : netconn) (c : conn) : conn := MkConn (Some f) (c_id c).

(** [io.ReadFull] of [n] bytes. *)
Definition io_ReadFull (n : nat) (f : netconn) : result net_error bytes * netconn :=
  if (n <=? length (fd_in f))%nat
  then (Ok (take n (fd_in f)), MkNet (drop n (fd_in f)) (fd_out f) (fd_err f))
  else (Err (NetError (match fd_in f with [] => "EOF" | _ => "unexpected EOF" end)),
        MkNet [] (fd_out f) (fd_err f)).

Definition ReadMsg (c : conn) : result net_error (Msg bytes) * conn :=
  match fd c with
  | None => (Err (NetError "ReadMsg error: connection not exist"), c)
  | Some f =>
      let (h, f1) := io_ReadFull 9 f in
      match h with
      | Err e => (Err e, set_fd f1 c)
      | Ok headbuf =>
          let code := nth 0 headbuf 0 in
          let ty := readInt32 (drop 1 headbuf) in
          let size := readInt32 (drop 5 headbuf) in
          let (p, f2) := io_ReadFull (Z.to_nat size) f1 in
          match p with
          | Err e => (Err e, set_fd f2 c)
          | Ok framebuf => (Ok (MkMsg code ty size framebuf), set_fd f2 c)
          end
      end
  end.

(** The length of the buffer is computed in 32 bits; a buffer that does not hold
    the header panics.  [OutOfFuel] stands for a [Read] that does not end, which
    does not happen ([encReader_Read_spec]). *)
Definition WriteMsg (msg : Msg encReader) (c : conn) : option net_error * conn :=
  match fd c with
  | None => (Some (NetError "WriteMsg error: connection not exist"), c)
  | Some f =>
      let len := u32 (9 + Size msg) in
      if len <? 9 then (Some NetPanic, c)
      else
        match encReader_Read (Payload msg) (Z.to_nat (len - 9)) with
        | None => (Some (NetRlp OutOfFuel), c)
        | Some (data, _, _) =>
            if negb (zlen data =? Size msg)
            then (Some (NetError "WriteMsg error: payload size not match"), c)
            else
              let buff := Code msg :: putInt32 (Type_ msg) ++ putInt32 (Size msg) ++ data in
              match fd_err f with
              | Some e => (Some (NetError e), c)
              | None => (None, set_fd (MkNet (fd_in f) (fd_out f ++ buff) None) c)
              end
        end
  end.

(** [Send]; [None] is the nil interface. *)
Definition Send (c : conn) (msgcode eventType : Z) (data : option (gtype * gval))
    : option net_error * conn :=
  let (t, v) := default (TBytes, VBytes []) data in
  match EncodeToReader t v with
  | Err e => (Some (NetRlp e), c)
  | Ok (size, r) => WriteMsg (MkMsg msgcode eventType (u32 size) r) c
  end.

(** ** Lemmas *)

Section Wire.

Lemma lor_high x b k n :
  0 <= k -> 0 <= x < 2 ^ k -> 0 <= b < 2 ^ n -> 0 <= n -> k + n <= 32 ->
  Z.lor x (u32 (Z.shiftl b k)) = b * 2 ^ k + x /\ 0 <= b * 2 ^ k + x < 2 ^ (k + n).
Proof.
  intros Hk Hx Hb Hn Hkn. rewrite Z.pow_add_r by lia.
  assert (2 ^ k * 2 ^ n <= 2 ^ 32) by (rewrite <- Z.pow_add_r by lia; apply Z.pow_le_mono_r; lia).
  assert (0 <= b * 2 ^ k < 2 ^ 32) by nia.
  unfold u32. rewrite Z.mod_small by (rewrite Z.shiftl_mul_pow2 by lia; done).
  rewrite Z.lor_comm, lor_shiftl_add by lia. split; [done|]. nia.
Qed.

Lemma readInt32_value b0 b1 b2 b3 rest :
  byte_ok b0 -> byte_ok b1 -> byte_ok b2 -> byte_ok b3 ->
  readInt32 (b0 :: b1 :: b2 :: b3 :: rest) = b0 * 2 ^ 24 + b1 * 2 ^ 16 + b2 * 2 ^ 8 + b3.
Proof.
  unfold byte_ok. intros H0 H1 H2 H3. unfold readInt32. cbn [nth].
  destruct (lor_high b3 b2 8 8) as [-> Hx]; [lia..|]. cbn [Z.add Pos.add] in Hx.
  destruct (lor_high (b2 * 2 ^ 8 + b3) b1 16 8) as [-> Hy]; [lia..|]. cbn [Z.add Pos.add] in Hy.
  destruct (lor_high (b1 * 2 ^ 16 + (b2 * 2 ^ 8 + b3)) b0 24 8) as [-> _]; lia.
Qed.

Lemma readInt32_lt b : bytes_ok b -> readInt32 b < 2 ^ 32.
Proof.
  intros Hb. assert (Hn : forall i, byte_ok (nth i b 0)).
  { intros i. destruct (nth_in_or_default i b 0) as [H| ->]; [|done].
    unfold bytes_ok in Hb. rewrite List.Forall_forall in Hb. by apply Hb. }
  change (readInt32 b) with (readInt32 [nth 0 b 0; nth 1 b 0; nth 2 b 0; nth 3 b 0]).
  rewrite readInt32_value by done. pose proof (Hn 0%nat). pose proof (Hn 1%nat).
  pose proof (Hn 2%nat). pose proof (Hn 3%nat). unfold byte_ok in *. lia.
Qed.

Lemma putInt32_ok v : bytes_ok (putInt32 v).
Proof. repeat (apply List.Forall_cons; [apply u8_ok|]). apply List.Forall_nil. Qed.

(** What comes back: the third byte of the number is lost, and the top six bits
    take its place. *)
Lemma readInt32_putInt32 v rest :
  0 <= v < 2 ^ 32 ->
  readInt32 (putInt32 v ++ rest) = v - v / 2 ^ 16 mod 2 ^ 8 * 2 ^ 16 + v / 2 ^ 26 * 2 ^ 16.
Proof.
  intros Hv. unfold putInt32. cbn [app]. rewrite readInt32_value by apply u8_ok.
  unfold u8. rewrite !Z.shiftr_div_pow2 by lia.
  assert (Hq : v / 2 ^ 26 < 2 ^ 6) by (apply Z.div_lt_upper_bound; lia).
  rewrite (Z.mod_small (v / 2 ^ 24)), (Z.mod_small (v / 2 ^ 26)) by
    (split; [apply Z.div_pos; lia|]; try (apply Z.div_lt_upper_bound; lia); lia).
  assert (E24 : v / 2 ^ 24 = v / 2 ^ 16 / 2 ^ 8) by (rewrite Z.div_div by lia; done).
  assert (E16 : v / 2 ^ 16 = v / 2 ^ 8 / 2 ^ 8) by (rewrite Z.div_div by lia; done).
  pose proof (Z.div_mod (v / 2 ^ 16) (2 ^ 8)). pose proof (Z.div_mod (v / 2 ^ 8) (2 ^ 8)).
  pose proof (Z.div_mod v (2 ^ 8)). lia.
Qed.

Lemma readInt32_small v rest :
  0 <= v < 2 ^ 16 -> readInt32 (putInt32 v ++ rest) = v.
Proof.
  intros Hv. rewrite readInt32_putInt32 by lia.
  rewrite (Z.div_small v (2 ^ 16)), (Z.div_small v (2 ^ 26)) by lia. rewrite Z.mod_0_l by lia. lia.
Qed.

(** The bytes of a message with payload [e]. *)
Definition frame (code ty : Z) (e : bytes) : bytes :=
  code :: putInt32 ty ++ putInt32 (zlen e) ++ e.

Lemma Send_frame c f code ty t v e :
  fd c = Some f -> fd_err f = None -> serializable t = true -> val_ok v ->
  rlp_enc t no_tags v e -> zlen e < 2 ^ 32 - 9 ->
  Send c code ty (Some (t, v)) =
    (None, set_fd (MkNet (fd_in f) (fd_out f ++ frame code ty e) None) c).
Proof.
  intros Hf Herr Hs Hok He Hl. unfold Send. cbn [default from_option id].
  unfold EncodeToReader.
  destruct (encbuf_encode_emits t v e Hs Hok He ltac:(lia)) as (eb & -> & Hem). cbn.
  destruct (er_rest_emits _ _ Hem) as [Hrok Hrest]. rewrite (encbuf_size_emits _ _ Hem).
  unfold WriteMsg. rewrite Hf. cbn [Size Payload Code Type_].
  unfold u32. rewrite (Z.mod_small (zlen e)), (Z.mod_small (9 + zlen e)) by lia.
  destruct (Z.ltb_spec (9 + zlen e) 9); [lia|].
  replace (Z.to_nat (9 + zlen e - 9)) with (length e) by lia.
  destruct (encReader_Read_spec _ (length e) Hrok) as (r' & -> & _). rewrite Hrest.
  rewrite firstn_all, Z.eqb_refl, Herr. done.
Qed.

Lemma io_ReadFull_app n a b out err :
  length a = n -> io_ReadFull n (MkNet (a ++ b) out err) = (Ok a, MkNet b out err).
Proof.
  intros Hn. unfold io_ReadFull. cbn [fd_in fd_out fd_err].
  destruct (Nat.leb_spec n (length (a ++ b))); [|rewrite length_app in *; lia].
  by rewrite take_app_length', drop_app_length'.
Qed.

Lemma ReadMsg_frame code ty e rest out err id :
  0 <= ty < 2 ^ 16 -> zlen e < 2 ^ 32 ->
  let size := readInt32 (putInt32 (zlen e)) in
  size <= zlen (e ++ rest) ->
  ReadMsg (MkConn (Some (MkNet (frame code ty e ++ rest) out err)) id) =
    (Ok (MkMsg code ty size (take (Z.to_nat size) (e ++ rest))),
     MkConn (Some (MkNet (drop (Z.to_nat size) (e ++ rest)) out err)) id).
Proof.
  intros Hty He size Hsize. unfold ReadMsg. cbn [fd]. unfold frame.
  set (h := code :: putInt32 ty ++ putInt32 (zlen e)).
  replace ((code :: putInt32 ty ++ putInt32 (zlen e) ++ e) ++ rest) with (h ++ (e ++ rest))
    by (unfold h; cbn; done).
  rewrite io_ReadFull_app by done.
  replace (readInt32 (drop 1 h)) with ty by (symmetry; by apply (readInt32_small ty)).
  change (readInt32 (drop 5 h)) with size.
  rewrite <- (take_drop (Z.to_nat size) (e ++ rest)) at 1.
  rewrite io_ReadFull_app by (rewrite length_take; lia). done.
Qed.

Lemma ReadMsg_small code ty e rest out err id :
  0 <= ty < 2 ^ 16 -> zlen e < 2 ^ 16 ->
  ReadMsg (MkConn (Some (MkNet (frame code ty e ++ rest) out err)) id) =
    (Ok (MkMsg code ty (zlen e) e), MkConn (Some (MkNet rest out err)) id).
Proof.
  intros Hty He. pose proof (readInt32_small (zlen e) [] ltac:(lia)) as Hs.
  rewrite app_nil_r in Hs. rewrite ReadMsg_frame by (rewrite ?Hs, ?zlen_app; lia).
  by rewrite Hs, Nat2Z.id, take_app_length, drop_app_length.
Qed.

(** A message that was read took its header and its payload from the input. *)
Lemma ReadMsg_ok c msg c' :
  ReadMsg c = (Ok msg, c') -> exists f f', fd c = Some f /\ c' = set_fd f' c /\
    (9 + length (Payload msg) + length (fd_in f') = length (fd_in f))%nat /\
    (bytes_ok (fd_in f) -> bytes_ok (Payload msg) /\ zlen (Payload msg) < 2 ^ 32 /\
       bytes_ok (fd_in f')).
Proof.
  unfold ReadMsg. destruct (fd c) as [f|]; [|done]. unfold io_ReadFull at 1.
  destruct (Nat.leb_spec 9 (length (fd_in f))) as [Hl|]; [|done]. unfold io_ReadFull.
  cbn [fd_in fd_out fd_err]. set (n := Z.to_nat _). rewrite length_drop.
  destruct (Nat.leb_spec n (length (fd_in f) - 9)) as [Hn|]; [|done].
  intros [= <- <-]. eexists f, _. split; [done|]. split; [reflexivity|]. cbn [Payload fd_in].
  rewrite length_take, !length_drop. split; [lia|]. intros Hb.
  split; [auto with go|]. split; [|auto with go].
  assert (Hr : readInt32 (drop 5 (take 9 (fd_in f))) < 2 ^ 32) by (apply readInt32_lt; auto with go).
  unfold n. lia.
Qed.

Lemma ReadMsg_err c e c' :
  ReadMsg c = (Err e, c') -> exists text, e = NetError text.
Proof.
  unfold ReadMsg, io_ReadFull. repeat case_match; intros [= <- _]; simplify_eq; by eexists.
Qed.

Lemma Msg_Decode_enc type_name code ty t v e :
  serializable t = true -> rt_ok t no_tags v -> rlp_enc t no_tags v e -> zlen e < 2 ^ 64 ->
  Msg_Decode type_name (MkMsg code ty (zlen e) e) (PointerTo t (zero_of t)) = (None, PointerTo t v).
Proof.
  intros Hs Hrt He Hl. unfold Msg_Decode. cbn [Payload Size].
  by destruct (stream_Decode_enc type_name t v e Hs Hrt He Hl) as (s' & -> & _).
Qed.

End Wire.

(** ** Properties *)

(** The four bytes that [putInt32] stores give, read by [readInt32], the
    number with bits 16 to 23 replaced by bits 26 to 31, since the second byte is
    shifted by 26 instead of 16.  Numbers below 2^16 come back; numbers from 2^16
    up to 2^24 never do. *)
Theorem putInt32_readInt32 v (Hv : 0 <= v < 2 ^ 32) :
  readInt32 (putInt32 v) = v - v / 2 ^ 16 mod 2 ^ 8 * 2 ^ 16 + v / 2 ^ 26 * 2 ^ 16 /\
  (readInt32 (putInt32 v) = v <-> v / 2 ^ 16 mod 2 ^ 8 = v / 2 ^ 26) /\
  (v < 2 ^ 16 -> readInt32 (putInt32 v) = v) /\
  (2 ^ 16 <= v < 2 ^ 24 -> readInt32 (putInt32 v) = v mod 2 ^ 16).
Proof.
  pose proof (readInt32_putInt32 v [] Hv) as E. rewrite app_nil_r in E.
  split; [exact E|]. split; [rewrite E; lia|]. split.
  - intros H. pose proof (readInt32_small v []) as Hs. rewrite app_nil_r in Hs. apply Hs. lia.
  - intros H. rewrite E, (Z.div_small v (2 ^ 26)) by lia.
    rewrite Z.mod_small by (split; [apply Z.div_pos; lia|apply Z.div_lt_upper_bound; lia]).
    rewrite (Z.mod_eq v (2 ^ 16)) by lia. lia.
Qed.

Lemma putInt32_readInt32_witness :
  readInt32 (putInt32 65535) = 65535 /\ readInt32 (putInt32 65536) = 0.
Proof.
  split.
  - apply (proj1 (proj2 (proj2 (putInt32_readInt32 65535 ltac:(lia))))). lia.
  - rewrite (proj2 (proj2 (proj2 (putInt32_readInt32 65536 ltac:(lia)))) ltac:(lia)). reflexivity.
Defined.

(** C28: a value that is sent arrives.  [Send] appends one frame to the bytes of
    the connection; [ReadMsg] at the other side, whatever follows the frame,
    takes exactly this frame, gives code and type back, and decoding the payload
    restores the value, as long as the encoding has fewer than 2^16 bytes.  From
    2^16 up to 2^24 bytes the receiver takes the size modulo 2^16, and the rest of
    the payload stays in the stream to be read as further messages. *)
Theorem Send_ReadMsg type_name c f code ty t v e rest out err id
    (Hf : fd c = Some f) (Herr : fd_err f = None) (Hty : 0 <= ty < 2 ^ 16)
    (Hs : serializable t = true) (Hok : val_ok v) (Hrt : rt_ok t no_tags v)
    (He : rlp_enc t no_tags v e) (Hl : zlen e < 2 ^ 24) :
  Send c code ty (Some (t, v)) =
    (None, set_fd (MkNet (fd_in f) (fd_out f ++ frame code ty e) None) c) /\
  let receiver input := MkConn (Some (MkNet input out err)) id in
  (zlen e < 2 ^ 16 ->
     let msg := MkMsg code ty (zlen e) e in
     ReadMsg (receiver (frame code ty e ++ rest)) = (Ok msg, receiver rest) /\
     Msg_Decode type_name msg (PointerTo t (zero_of t)) = (None, PointerTo t v)) /\
  (2 ^ 16 <= zlen e ->
     let n := Z.to_nat (zlen e mod 2 ^ 16) in
     ReadMsg (receiver (frame code ty e ++ rest)) =
       (Ok (MkMsg code ty (zlen e mod 2 ^ 16) (take n e)), receiver (drop n e ++ rest))).
Proof.
  split; [by apply Send_frame; [..|lia]|]. intros receiver.
  assert (Hsz : readInt32 (putInt32 (zlen e)) = zlen e mod 2 ^ 16).
  { pose proof (readInt32_putInt32 (zlen e) [] ltac:(lia)) as E. rewrite app_nil_r in E.
    rewrite E, (Z.div_small (zlen e) (2 ^ 26)) by lia.
    rewrite Z.mod_small by (split; [apply Z.div_pos; lia|apply Z.div_lt_upper_bound; lia]).
    rewrite (Z.mod_eq _ (2 ^ 16)) by lia. lia. }
  pose proof (Z.mod_le (zlen e) (2 ^ 16) ltac:(lia) ltac:(lia)) as Hle.
  assert (Hrd : ReadMsg (receiver (frame code ty e ++ rest)) =
    (Ok (MkMsg code ty (zlen e mod 2 ^ 16) (take (Z.to_nat (zlen e mod 2 ^ 16)) (e ++ rest))),
     receiver (drop (Z.to_nat (zlen e mod 2 ^ 16)) (e ++ rest)))).
  { unfold receiver. rewrite ReadMsg_frame, Hsz; [done|done|lia|].
    rewrite Hsz, zlen_app. lia. }
  split.
  - intros H16 msg. split; [by apply ReadMsg_small|]. apply Msg_Decode_enc; try done. lia.
  - intros _ n. rewrite Hrd. unfold n. rewrite take_app_le, drop_app_le by lia. done.
Qed.

Lemma Send_ReadMsg_witness :
  ReadMsg (MkConn (Some (MkNet (frame 2 1 (rlp_string [1; 2]) ++ [7; 7]) [] None)) []) =
    (Ok (MkMsg 2 1 3 [0x82; 1; 2]), MkConn (Some (MkNet [7; 7] [] None)) []).
Proof.
  apply (proj1 (proj2 (Send_ReadMsg (fun _ => ""%string) (MkConn (Some (MkNet [] [] None)) [])
    (MkNet [] [] None) 2 1 TBytes (VBytes [1; 2]) (rlp_string [1; 2]) [7; 7] [] None [] eq_refl
    eq_refl ltac:(lia) eq_refl ltac:(constructor; solve_bytes) ltac:(constructor)
    ltac:(constructor) ltac:(vm_compute; reflexivity))) ltac:(vm_compute; reflexivity)).
Defined.
