(* ===== verification/Peer.v ===== *)
(** * Peers and the server: [src/p2p/peer.go] and [src/p2p/server.go]

    What a node does with a message it receives, and the table of peers of the
    server.  A [go Send(...)] is a message to be sent, with the values at the time
    of the call; the handshake of a connection and the peer's loops work on the
    connections of [Wire.v]. *)

From S2P Require Import Prelude RlpTypes RlpEncode RlpRaw RlpStream RlpDecode Types.
From S2P Require Import Graph Jigsaw Wire.
Local Open Scope Z_scope.

Definition handshakeMsg : Z := 0x00.
Definition discMsg : Z := 0x01.
Definition pingMsg : Z := 0x02.
Definition pongMsg : Z := 0x03.
Definition reqsMsg : Z := 0x04.
Definition respMsg : Z := 0x05.
Definition eventMsg : Z := 0x10.

(** ** Events as RLP values *)

Definition TAddress : gtype := TByteArray AddressLength.
Definition THash : gtype := TByteArray HashLength.
Definition TEvent : gtype := TStruct
  [(FMeta "TimeStamp" true "", TBigPtr);
   (FMeta "Trans" true "", TSlice (TPtr TTransaction));
   (FMeta "SelfPart" true "", THash);
   (FMeta "SelfHash" true "", THash);
   (FMeta "SelfSig" true "", TSig);
   (FMeta "OtherPartH" true "", THash);
   (FMeta "OtherPartA" true "", TAddress);
   (FMeta "RoundID" true "", TBigPtr)].

(** An event whose [RoundID] points to the number [rid]. *)
Definition event_gval (e : Event) (rid : option Z) : gval := VStruct
  [VBigPtr (TimeStamp e);
   VList (map (fun _ => VPtr (Some (VStruct []))) (Trans e));
   VByteArray (SelfPart e); VByteArray (SelfHash e);
   VStruct [VByteArray (SelfSig e)];
   VByteArray (OtherPartH e); VByteArray (OtherPartA e); VBigPtr rid].

(** The event that a decoded value is; its round number is new in the store. *)
Definition event_of (v : gval) (rid : option nat) : Event :=
  match v with
  | VStruct [VBigPtr ts; VList tr; VByteArray sp; VByteArray sh; VStruct [VByteArray sg];
             VByteArray oh; VByteArray oa; _] =>
      MkEvent ts (map (fun _ => Tx) tr) sp sh sg oh oa rid
  | _ => MkEvent None [] zero_hash zero_hash zero_address zero_hash zero_address rid
  end.

Definition round_of (v : gval) : option Z :=
  match v with VStruct [_; _; _; _; _; _; _; VBigPtr o] => o | _ => None end.

Definition store_event (v : gval) : JM Event :=
  match round_of v with
  | None => mret (event_of v None)
  | Some z => n ← new_big z; mret (event_of v (Some n))
  end.

(** The value to be encoded for an event. *)
Definition load_event (e : Event) : JM gval :=
  match RoundID e with
  | None => mret (event_gval e None)
  | Some n => z ← read_big (Some n); mret (event_gval e (Some z))
  end.

(** ** Handling a message *)

(** A message to be sent: code, type, and the value. *)
Record outgoing := Out { o_code : Z; o_type : Z; o_data : gtype * gval }.

(** [ChanEvent]: sending to the channel of a type, if there is one. *)
Definition ChanEvent (tp : Z) : option (Event -> JM unit) :=
  if tp =? Normal then Some (send eventNorm set_eventNorm)
  else if tp =? Witness then Some (send witnessR set_witnessR)
  else if tp =? WitnessLocal then Some (send witnessL set_witnessL)
  else None.

Section Handle.

Context (type_name : gtype -> string) (order : gmap Hash nat -> list (Hash * nat)).

(** [msg.Decode] into a zero value of type [t]; its error is dropped. *)
Definition decode_into (msg : Msg bytes) (t : gtype) : gval :=
  match (Msg_Decode type_name msg (PointerTo t (zero_of t))).2 with
  | PointerTo _ v => v
  | _ => zero_of t
  end.

Definition handle (msg : Msg bytes) : JM (option string * list outgoing) :=
  if Code msg =? pingMsg then
    cb ← get Coinbase; mret (None, [Out pongMsg 0 (TAddress, VByteArray cb)])
  else if Code msg =? pongMsg then mret (None, [])
  else if Code msg =? discMsg then mret (None, [])
  else if Code msg =? eventMsg then
    e ← store_event (decode_into msg TEvent);
    match ChanEvent (Type_ msg) with
    | None => mret (None, [])
    | Some ch => _ ← ch e; mret (None, [])
    end
  else if Code msg =? reqsMsg then
    let h := match decode_into msg THash with VByteArray h => h | _ => zero_hash end in
    res ← RetrieveEvent order h;
    match res with
    | Err err => mret (Some err, [])
    | Ok (event, eventType) =>
        v ← load_event event;
        mret (None, [Out eventMsg eventType (TPtr TEvent, VPtr (Some v))])
    end
  else mret (None, []).

(** [readLoop] up to the error that it reports, with what [handle] sends and the
    connection at the end; [fuel] bounds the number of messages. *)
Fixpoint readLoop (fuel : nat) (c : conn) : JM (net_error * list outgoing * conn) :=
  match fuel with
  | O => stops Diverges
  | S fuel =>
      match ReadMsg c with
      | (Err err, c') => mret (err, [], c')
      | (Ok msg, c') =>
          '(err, outs) ← handle msg;
          match err with
          | Some e => mret (NetError e, outs, c')
          | None => '(e, outs', c'') ← readLoop fuel c'; mret (e, outs ++ outs', c'')
          end
      end
  end.

(** More than there are messages: each takes at least nine bytes. *)
Definition read_fuel (c : conn) : nat :=
  match fd c with Some f => S (length (fd_in f)) | None => 1 end.

(** [run] up to its return.  After the text "EOF" it waits for another error,
    which nobody reports: [readLoop] has returned. *)
Definition run (c : conn) : JM (net_error * list outgoing * conn) :=
  res ← readLoop (read_fuel c) c;
  match res.1.1 with
  | NetError text => if decide (text = "EOF"%string) then stops Blocked else mret res
  | _ => mret res
  end.

End Handle.

(** A turn of [pingLoop] when the timer has run off. *)
Definition ping (c : conn) : conn :=
  (Send c pingMsg 0 (Some (TAddress, VByteArray (c_id c)))).2.

(** ** The server *)

(** A peer is known by the connection it was made for. *)
Definition FindPeer (peers : gmap Address conn) (coinbase : Address) : option conn :=
  peers !! coinbase.
Definition PeerCount (peers : gmap Address conn) : nat := base.size peers.

(** What the loop of the server is asked to do. *)
Inductive server_msg :=
| MAddPeer (c : conn)
| MDelPeer (id : Address)
| MRemoveStatic
| MPeerOp.

(** One turn of [Server.run]; the result tells whether [runPeer] is started. *)
Definition server_run (peers : gmap Address conn) (m : server_msg) : gmap Address conn * bool :=
  match m with
  | MAddPeer c =>
      match peers !! c_id c with
      | Some _ => (peers, false)
      | None => (<[c_id c := c]> peers, true)
      end
  | MDelPeer id => (delete id peers, false)
  | MRemoveStatic | MPeerOp => (peers, false)
  end.

(** What a handshake leads to. *)
Inductive handshake := HsError (err : string) | HsRefused | HsAdd (c : conn).

Section Server.

Context (type_name : gtype -> string).

(** [protoHandshake]: the error of [Send] and of decoding are dropped. *)
Definition protoHandshake (srv_id : Address) (c : conn)
    : result string Address * conn :=
  let (_, c) := Send c handshakeMsg 0 (Some (TAddress, VByteArray srv_id)) in
  match ReadMsg c with
  | (Err (NetError e), c) => (Err e, c)
  | (Err _, c) => (Err ""%string, c)
  | (Ok msg, c) =>
      let recvID := match decode_into type_name msg TAddress with
                    | VByteArray a => a | _ => zero_address end in
      if Compare recvID srv_id =? 0 then (Err "remote peer has the same ID"%string, c)
      else (Ok recvID, c)
  end.

(** [HandleConn] up to the request to add the peer. *)
Definition HandleConn (srv_id : Address) (peers : gmap Address conn) (c : conn) : handshake :=
  match protoHandshake srv_id c with
  | (Err e, _) => HsError e
  | (Ok recvID, c) =>
      if Compare recvID srv_id =? 0 then HsRefused
      else match FindPeer peers recvID with
           | Some _ => HsRefused
           | None => HsAdd (MkConn (fd c) recvID)
           end
  end.

End Server.

(** [Send] to one of the peers: the table with its connection after the call. *)
Definition send_peer (peers : gmap Address conn) (id : Address) (m : outgoing)
    : option net_error * gmap Address conn :=
  match peers !! id with
  | None => (None, peers)
  | Some c =>
      let (err, c') := Send c (o_code m) (o_type m) (Some (o_data m)) in
      (err, <[id := c']> peers)
  end.

(** [BroadcastEvent] with the event [v]: to all peers, in the order the map gives
    them; errors are logged. *)
Definition BroadcastEvent (order : gmap Address conn -> list (Address * conn))
    (peers : gmap Address conn) (v : gval) (eventType : Z)
    : option string * gmap Address conn :=
  match order peers with
  | [] => (Some "Can not find any peers"%string, peers)
  | l => (None, foldl (fun ps p =>
            (send_peer ps p.1 (Out eventMsg eventType (TEvent, v))).2) peers l)
  end.

(** [GossipEvent]: to one peer; [rnd mod n] stands for [rand.Intn(n)]. *)
Definition GossipEvent (order : gmap Address conn -> list (Address * conn)) (rnd : nat)
    (peers : gmap Address conn) (v : gval) (eventType : Z)
    : option net_error * gmap Address conn :=
  let l := order peers in
  match l !! (rnd mod length l)%nat with
  | None => (Some (NetError "Can not find any peers"), peers)
  | Some (id, _) => send_peer peers id (Out eventMsg eventType (TEvent, v))
  end.

Definition RequestEvent (peers : gmap Address conn) (base : Address) (hash : Hash)
    : option net_error * gmap Address conn :=
  match FindPeer peers base with
  | None => (Some (NetError "wrong coinbase"), peers)
  | Some _ =>
      if Hash_Big hash =? 0 then (Some (NetError "Invalid hash"), peers)
      else send_peer peers base (Out reqsMsg 0 (THash, VByteArray hash))
  end.
