(* ===== verification/PeerSpec.v ===== *)
(** * What peers do: properties of [src/p2p/peer.go] and [src/p2p/server.go]

    A message of any content leaves the graph well-formed; an event that one node
    sends arrives at the other with all its fields; how the loops of a peer end;
    and the table of peers that the server keeps. *)

From S2P Require Import Prelude RlpTypes RlpEncode RlpRaw RlpStream RlpDecode.
From S2P Require Import RlpTyped Types Graph Jigsaw JigsawSpec Wire Peer.
Local Open Scope Z_scope.

(** ** Events on the wire *)

Section Events.

(** The arrays have their lengths. *)
Record event_shape (e : Event) : Prop := EventShape {
  sh_time : 0 <= default 0 (TimeStamp e);
  sh_selfpart : length (SelfPart e) = HashLength /\ bytes_ok (SelfPart e);
  sh_selfhash : length (SelfHash e) = HashLength /\ bytes_ok (SelfHash e);
  sh_sig : length (SelfSig e) = AddressLength /\ bytes_ok (SelfSig e);
  sh_otherh : length (OtherPartH e) = HashLength /\ bytes_ok (OtherPartH e);
  sh_othera : length (OtherPartA e) = AddressLength /\ bytes_ok (OtherPartA e) }.

(** The RLP encoding of an event in round [z]. *)
Definition event_wire (e : Event) (z : Z) : bytes := rlp_list (
  rlp_string (be_min (default 0 (TimeStamp e))) ++
  rlp_list (flat_map (fun _ => [0xC0]) (Trans e)) ++
  rlp_string (SelfPart e) ++ rlp_string (SelfHash e) ++
  rlp_list (rlp_string (SelfSig e)) ++
  rlp_string (OtherPartH e) ++ rlp_string (OtherPartA e) ++ rlp_string (be_min z)).

Definition set_RoundID (rid : option nat) (e : Event) : Event :=
  MkEvent (TimeStamp e) (Trans e) (SelfPart e) (SelfHash e) (SelfSig e) (OtherPartH e)
    (OtherPartA e) rid.

Lemma sig_enc b : rlp_enc TSig no_tags (VStruct [VByteArray b]) (rlp_list (rlp_string b)).
Proof.
  apply (E_struct _ no_tags). rewrite <- (app_nil_r (rlp_string b)).
  apply (Ef_field _ _ _ _ _ _ _ no_tags); [done..| |]; constructor.
Qed.

Lemma event_wire_enc e z ts :
  TimeStamp e = Some ts -> 0 <= ts -> 0 <= z ->
  rlp_enc TEvent no_tags (event_gval e (Some z)) (event_wire e z).
Proof.
  intros Ht Hts Hz. apply (E_struct _ no_tags). rewrite Ht. cbn [default from_option id].
  rewrite <- (app_nil_r (rlp_string (be_min z))).
  repeat (apply (Ef_field _ _ _ _ _ _ _ no_tags); [done..| |]); try by constructor.
  - apply (E_slice (TPtr TTransaction) no_tags). apply trans_enc.
  - apply sig_enc.
Qed.

Lemma trans_rt (l : list Transaction) :
  rt_oks (TPtr TTransaction) (map (fun _ => VPtr (Some (VStruct []))) l).
Proof.
  induction l as [|x l IH]; cbn [map]; constructor; [done| |done].
  apply R_ptr; [|done]. apply (R_struct [] no_tags []). constructor.
Qed.

Lemma rt_array n b ts : (1 < n)%nat -> length b = n -> bytes_ok b -> rt_ok (TByteArray n) ts (VByteArray b).
Proof. intros Hn Hl Hb. constructor; [done..|]. intros ->. cbn in Hl. lia. Qed.

Lemma event_gval_rt e z ts :
  event_shape e -> TimeStamp e = Some ts -> rt_ok TEvent no_tags (event_gval e (Some z)).
Proof.
  intros [_ [] [] [] [] []] Ht. apply (R_struct _ no_tags). rewrite Ht.
  repeat (apply (Rf_field _ _ _ _ _ no_tags); [done..| |]);
    first [by constructor | apply rt_array; [unfold HashLength, AddressLength; lia|done|done] |
           constructor].
  - apply trans_rt.
  - apply (Rf_field _ _ _ _ _ no_tags); [done..| |constructor].
    apply rt_array; [unfold AddressLength; lia|done|done].
Qed.

Lemma event_gval_ok e o : event_shape e -> val_ok (event_gval e o).
Proof.
  intros [_ [] [] [] [] []]. constructor.
  repeat (apply List.Forall_cons || apply List.Forall_nil); try by constructor.
  - constructor. apply List.Forall_map, List.Forall_forall. intros. by repeat constructor.
  - constructor. by repeat constructor.
Qed.

Lemma all_tx {A} (l : list Transaction) (f : Transaction -> A) :
  map (fun _ => Tx) (map f l) = l.
Proof. induction l as [|[] l IH]; cbn; [done|]. by rewrite IH. Qed.

Lemma event_of_gval e o rid : event_of (event_gval e o) rid = set_RoundID rid e.
Proof. unfold event_of, event_gval. by rewrite all_tx. Qed.

(** A decoded value is an event whose arrays have their lengths, and a round
    number that is not negative. *)
Lemma typed_bytearray N n v : typed N (TByteArray n) v ->
  exists b, v = VByteArray b /\ length b = n /\ bytes_ok b.
Proof. intros H. inversion H; subst. eauto. Qed.

Lemma typed_event N v : typed N TEvent v ->
  (forall rid, event_shape (event_of v rid) /\ RoundID (event_of v rid) = rid /\
     (nbytes (default 0%Z (TimeStamp (event_of v rid))) <= N)%nat) /\
  0 <= default 0 (round_of v).
Proof.
  intros H. inversion H as [| | | | | | | | | |fs l Hl| | | | | |]; subst. clear H.
  repeat match goal with
  | H : Forall2 _ (_ :: _) _ |- _ => apply Forall2_cons_inv_l in H as (? & ? & ? & ? & ->)
  | H : Forall2 _ [] _ |- _ => apply Forall2_nil_inv_l in H as ->
  end. cbn [snd] in *.
  unfold THash, TAddress in *.
  repeat match goal with
  | H : typed _ (TByteArray _) _ |- _ => apply typed_bytearray in H as (? & -> & ? & ?)
  | H : typed _ TBigPtr _ |- _ => inversion H; subst; clear H
  | H : typed _ (TSlice _) _ |- _ => inversion H; subst; clear H
  | H : typed _ TSig _ |- _ => inversion H; subst; clear H
  | H : Forall2 _ [_] _ |- _ => apply Forall2_cons_inv_l in H as (? & ? & ? & ? & ->)
  | H : Forall2 _ [] _ |- _ => apply Forall2_nil_inv_l in H as ->
  end. cbn [snd] in *.
  match goal with
  | H : typed _ (TByteArray _) _ |- _ => apply typed_bytearray in H as (? & -> & ? & ?)
  end.
  split; [|by destruct_and?]. intros rid. split; [|split; [done|]].
  - split; cbn; by destruct_and?.
  - cbn. by apply nbytes_le.
Qed.

End Events.

(** ** Handling messages *)

Section Handling.

Context (type_name : gtype -> string) (order : gmap Hash nat -> list (Hash * nat)).

(** The size of a payload is a number of 32 bits. *)
Definition msg_bytes : nat := Z.to_nat (2 ^ 32).
Lemma msg_bytes_val : Z.of_nat msg_bytes = 2 ^ 32.
Proof. unfold msg_bytes. by rewrite Z2Nat.id. Qed.
#[local] Opaque msg_bytes.

Definition msg_ok (msg : Msg bytes) : Prop :=
  bytes_ok (Payload msg) /\ zlen (Payload msg) < 2 ^ 32.

Lemma decode_into_typed msg t : msg_ok msg -> typed msg_bytes t (decode_into type_name msg t).
Proof.
  intros [Hb Hl]. unfold decode_into, Msg_Decode.
  destruct (stream_Decode _ _ _) as [[err tg] s'] eqn:E.
  pose proof msg_bytes_val as HM. assert (HN : (1 <= msg_bytes)%nat) by lia.
  assert (HL : (length (Payload msg) <= msg_bytes)%nat) by lia.
  by destruct (stream_Decode_typed type_name msg_bytes _ _ _ _ _ _ HN
    (NewStream_sok _ _ _ Hb HL) (zero_of_typed _ HN t) E)
    as (v' & -> & Ht & _).
Qed.

(** The channel of a message type. *)
Definition chan_of (tp : Z) (jp : JPGraph) : option (list Event) :=
  if tp =? Normal then Some (eventNorm jp)
  else if tp =? Witness then Some (witnessR jp)
  else if tp =? WitnessLocal then Some (witnessL jp)
  else None.

(** Only these channels and the numbers may change. *)
Definition inbox_only (jp jp' : JPGraph) : Prop :=
  exists l b e1 e2 e3, bigs jp' = bigs jp ++ l /\ b = bigs jp' /\
  jp' = set_bigs b (set_eventNorm e1 (set_witnessR e2 (set_witnessL e3 jp))).

Lemma inbox_refl jp : inbox_only jp jp.
Proof. exists [], (bigs jp), (eventNorm jp), (witnessR jp), (witnessL jp). rewrite app_nil_r. by destruct jp. Qed.

Lemma inbox_bigs l jp : inbox_only jp (set_bigs (bigs jp ++ l) jp).
Proof. exists l, (bigs jp ++ l), (eventNorm jp), (witnessR jp), (witnessL jp). by destruct jp. Qed.

Lemma inbox_inv jp jp' : inv jp -> inbox_only jp jp' -> inv jp' /\ grows jp jp'.
Proof.
  intros I (l & b & e1 & e2 & e3 & Hb & -> & E).
  set (jp1 := set_eventNorm e1 (set_witnessR e2 (set_witnessL e3 jp))) in *.
  destruct (inv_chan jp jp1 I) as [I1 G1]; try done.
  destruct (inv_bigs jp1 (bigs jp') I1) as [I2 G2].
  { rewrite Hb. cbn. rewrite length_app. lia. }
  rewrite E. split; [exact I2|]. by eapply grows_trans.
Qed.

Lemma ChanEvent_wp tp e jp (Q : unit -> JPGraph -> Prop) (E : stop -> JPGraph -> Prop) ch :
  ChanEvent tp = Some ch ->
  (forall l jp', chan_of tp jp = Some l -> (length l < MaxChanItem)%nat ->
     chan_of tp jp' = Some (l ++ [e]) ->
     (forall tp', tp' <> tp -> chan_of tp' jp' = chan_of tp' jp) ->
     inbox_only jp jp' -> bigs jp' = bigs jp -> Q tt jp') ->
  (forall l, chan_of tp jp = Some l -> (MaxChanItem <= length l)%nat -> E Blocked jp) ->
  wp (ch e) Q E jp.
Proof.
  unfold ChanEvent. intros Hch HQ HE. unfold chan_of in HQ, HE.
  repeat case_match; simplify_eq; (apply wp_send; intros Hl;
    [eapply HQ; [done|exact Hl|done| | |done]|by eapply HE]);
    first [by eexists [], _, _, _, _; rewrite app_nil_r |
           intros tp' Hne; zbool; subst; by repeat case_match; zbool].
Qed.

Lemma load_event_run e n z jp :
  RoundID e = Some n -> bigs jp !! n = Some z ->
  load_event e jp = (Ok (event_gval e (Some z)), jp).
Proof.
  intros Hr Hz. unfold load_event, read_big, mbind, JM_bind, get. rewrite Hr. cbn. by rewrite Hz.
Qed.

(** The event that answers a request can be encoded. *)
Lemma vertex_loads jp p pv :
  inv jp -> vertices jp !! p = Some pv ->
  exists n z, RoundID (v_event pv) = Some n /\ bigs jp !! n = Some z /\
    load_event (v_event pv) jp = (Ok (event_gval (v_event pv) (Some z)), jp).
Proof.
  intros I Hp. destruct (vok_round _ _ _ (inv_vertex jp I p pv Hp)) as (n & Hn & Hlt).
  destruct (lookup_lt_is_Some_2 _ _ Hlt) as [z Hz]. exists n, z. split_and!; [done..|]. by eapply load_event_run.
Qed.

(** What [handle] does with a message in a well-formed graph. *)
Definition handled (msg : Msg bytes) (jp : JPGraph) (res : option string * list outgoing)
    (jp' : JPGraph) : Prop :=
  inv jp' /\ grows jp jp' /\
  if Code msg =? eventMsg then
    res = (None, []) /\ inbox_only jp jp' /\
    (forall tp, tp <> Type_ msg -> chan_of tp jp' = chan_of tp jp) /\
    match chan_of (Type_ msg) jp with
    | None => chan_of (Type_ msg) jp' = None
    | Some l => exists e, chan_of (Type_ msg) jp' = Some (l ++ [e]) /\ event_shape e /\
        zlen (be_min (default 0 (TimeStamp e))) <= 2 ^ 32 /\
        forall n, RoundID e = Some n -> exists z, bigs jp' !! n = Some z /\ 0 <= z
    end
  else jp' = jp /\
    if Code msg =? reqsMsg then
      let h := match decode_into type_name msg THash with VByteArray h => h | _ => zero_hash end in
      length h = HashLength /\
      ((exists vx p pv n z, child_of jp h vx p /\ vertices jp !! p = Some pv /\
         RoundID (v_event pv) = Some n /\ bigs jp !! n = Some z /\
         res = (None, [Out eventMsg (witness vx)
                         (TPtr TEvent, VPtr (Some (event_gval (v_event pv) (Some z))))])) \/
      (res = (Some "RetrieveEvent: not found"%string, []) /\ forall vx p, ~ child_of jp h vx p))
    else res = (None, if Code msg =? pingMsg
                      then [Out pongMsg 0 (TAddress, VByteArray (Coinbase jp))] else []).

Lemma inbox_trans jp1 jp2 jp3 : inbox_only jp1 jp2 -> inbox_only jp2 jp3 -> inbox_only jp1 jp3.
Proof.
  intros (l & b & e1 & e2 & e3 & Hb & -> & E) (l' & b' & e1' & e2' & e3' & Hb' & -> & E').
  exists (l ++ l'), (bigs jp3), e1', e2', e3'. rewrite Hb', Hb, app_assoc. split; [done|].
  split; [done|]. rewrite E', E. cbn. by rewrite Hb', Hb.
Qed.

Lemma store_event_run v jp :
  typed msg_bytes TEvent v -> exists e jp', store_event v jp = (Ok e, jp') /\ event_shape e /\
    zlen (be_min (default 0 (TimeStamp e))) <= 2 ^ 32 /\
    inbox_only jp jp' /\ (forall tp, chan_of tp jp' = chan_of tp jp) /\
    forall n, RoundID e = Some n -> exists z, bigs jp' !! n = Some z /\ 0 <= z.
Proof.
  intros Ht. destruct (typed_event _ v Ht) as [Hs Hz].
  pose proof msg_bytes_val as HM. unfold store_event.
  destruct (round_of v) as [z|].
  - destruct (Hs (Some (length (bigs jp)))) as (Hsh & Hr & Htm).
    exists (event_of v (Some (length (bigs jp)))), (set_bigs (bigs jp ++ [z]) jp).
    split; [done|]. split; [done|]. split; [rewrite length_be_min; lia|]. split; [apply inbox_bigs|]. split; [done|].
    rewrite Hr. intros n [= <-]. exists z. split; [|done]. by apply list_lookup_middle.
  - destruct (Hs None) as (Hsh & Hr & Htm). exists (event_of v None), jp.
    split; [done|]. split; [done|]. split; [rewrite length_be_min; lia|]. split; [apply inbox_refl|]. split; [done|]. rewrite Hr. done.
Qed.

Definition inbox_full (msg : Msg bytes) (jp : JPGraph) : Prop :=
  Code msg = eventMsg /\
  exists l, chan_of (Type_ msg) jp = Some l /\ (MaxChanItem <= length l)%nat.

(** Handling stops only in front of a full channel. *)
Definition stuck (msg : Msg bytes) (jp : JPGraph) (e : stop) (jp' : JPGraph) : Prop :=
  e = Blocked /\ inv jp' /\ grows jp jp' /\ inbox_full msg jp'.

Lemma handle_event_wp msg jp :
  inv jp -> msg_ok msg -> Code msg = eventMsg ->
  wp (handle type_name order msg) (handled msg jp) (stuck msg jp) jp.
Proof.
  intros I Hb Hc. unfold handle, handled. rewrite Hc. cbn - [wp].
  destruct (store_event_run _ jp (decode_into_typed msg TEvent Hb))
    as (e & jp1 & E & Hsh & Htm & Hin & Hch & Hr).
  apply wp_bind. unfold wp at 1. rewrite E. cbn [mret].
  destruct (ChanEvent (Type_ msg)) as [ch|] eqn:Ech.
  - apply wp_bind. eapply ChanEvent_wp; [exact Ech| |].
    + intros l jp2 Hl Hlen Hl2 Hoth Hin2 Hb2. rewrite Hch in Hl. apply wp_ret.
      pose proof (inbox_trans _ _ _ Hin Hin2) as Hi.
      destruct (inbox_inv _ _ I Hi) as [I2 G2]. rewrite Hl. split_and!; try done.
      { intros tp Htp. by rewrite Hoth, Hch. }
      exists e. rewrite Hb2. done.
    + intros l Hl Hlen. destruct (inbox_inv _ _ I Hin) as [I1 G1]. split_and!; try done.
      split; [done|]. by exists l.
  - apply wp_ret. destruct (inbox_inv _ _ I Hin) as [I2 G2]. split_and!; try done.
    rewrite Hch. unfold ChanEvent in Ech. unfold chan_of. by repeat case_match.
Qed.

Lemma handle_wp msg jp :
  inv jp -> (forall m, order m ≡ₚ map_to_list m) -> msg_ok msg ->
  wp (handle type_name order msg) (handled msg jp) (stuck msg jp) jp.
Proof.
  intros I Ho Hb. destruct (Z.eqb_spec (Code msg) eventMsg) as [Hc|Hne].
  { by apply handle_event_wp. }
  apply Z.eqb_neq in Hne. unfold handle, handled. rewrite Hne.
  destruct (Z.eqb_spec (Code msg) pingMsg) as [->|_].
  { cbn. split; [done|]. split; [apply grows_refl|done]. }
  destruct (Z.eqb_spec (Code msg) pongMsg) as [->|_].
  { cbn. split; [done|]. split; [apply grows_refl|done]. }
  destruct (Z.eqb_spec (Code msg) discMsg) as [->|_].
  { cbn. split; [done|]. split; [apply grows_refl|done]. }
  destruct (Code msg =? reqsMsg).
  2: { apply wp_ret. split; [done|]. split; [apply grows_refl|done]. }
  destruct (typed_bytearray _ _ _ (decode_into_typed msg THash Hb)) as (h & -> & Hl & _).
  destruct (RetrieveEvent_run order h jp I Ho) as (res & E & Hres).
  apply wp_bind. unfold wp at 1. rewrite E. destruct res as [[e t]|err].
  - destruct Hres as (vx & p & pv & Hch & Hp & -> & ->).
    destruct (vertex_loads jp p pv I Hp) as (n & z & Hn & Hbz & Hz).
    apply wp_bind. unfold wp at 1. rewrite Hz. apply wp_ret.
    split; [done|]. split; [apply grows_refl|]. split; [done|]. split; [done|]. left.
    by exists vx, p, pv, n, z.
  - destruct Hres as [-> Hno]. apply wp_ret.
    split; [done|]. split; [apply grows_refl|]. split; [done|]. split; [done|]. by right.
Qed.

(** ** The loops of a peer *)

Definition conn_ok (c : conn) : Prop := forall f, fd c = Some f -> bytes_ok (fd_in f).

(** A channel for events from the network is full. *)
Definition some_inbox_full (jp : JPGraph) : Prop :=
  exists tp l, chan_of tp jp = Some l /\ (MaxChanItem <= length l)%nat.

Definition read_stops (jp : JPGraph) (e : stop) (jp' : JPGraph) : Prop :=
  e = Blocked /\ inv jp' /\ grows jp jp' /\ some_inbox_full jp'.

Lemma readLoop_wp fuel c jp :
  inv jp -> (forall m, order m ≡ₚ map_to_list m) -> conn_ok c -> (read_fuel c <= fuel)%nat ->
  wp (readLoop type_name order fuel c)
    (fun res jp' => inv jp' /\ grows jp jp' /\ exists text, res.1.1 = NetError text)
    (read_stops jp) jp.
Proof.
  intros I Ho. revert c jp I. induction fuel as [|fuel IH]; intros c jp I Hc Hf.
  { unfold read_fuel in Hf. destruct (fd c); lia. }
  cbn [readLoop]. destruct (ReadMsg c) as [[msg|e] c'] eqn:E.
  2: { apply wp_ret. split; [done|]. split; [apply grows_refl|]. by eapply ReadMsg_err. }
  destruct (ReadMsg_ok _ _ _ E) as (f & f' & Hfd & -> & Hlen & Hok).
  destruct (Hok (Hc f Hfd)) as (Hp & Hsz & Hin). assert (Hmsg : msg_ok msg) by done. apply wp_bind.
  eapply wp_mono; [by apply handle_wp| |].
  2: { intros e jp1 (-> & I1 & G1 & _ & Hfull). split_and!; try done. by eexists. }
  intros [err outs] jp1 (I1 & G1 & _). destruct err as [err|].
  { apply wp_ret. split; [done|]. split; [done|]. by eexists. }
  apply wp_bind. eapply wp_mono; [apply IH; [done| |]| |].
  - intros f0. cbn. by intros [= <-].
  - unfold read_fuel in *. rewrite Hfd in Hf. cbn. lia.
  - intros [[e o] c''] jp2 (I2 & G2 & Htext). apply wp_ret. split; [done|].
    split; [by eapply grows_trans|done].
  - intros e jp2 (-> & I2 & G2 & Hfull). split_and!; try done. by eapply grows_trans.
Qed.

(** Messages to which a peer reacts at most with a pong. *)
Definition quiet (msg : Msg bytes) : Prop :=
  Code msg <> eventMsg /\ Code msg <> reqsMsg /\ 0 <= Type_ msg < 2 ^ 16 /\
  zlen (Payload msg) < 2 ^ 16.

Definition stream_of (ms : list (Msg bytes)) : bytes :=
  concat (map (fun m => frame (Code m) (Type_ m) (Payload m)) ms).

Lemma quiet_handle msg jp : Code msg <> eventMsg -> Code msg <> reqsMsg ->
  exists outs, handle type_name order msg jp = (Ok (None, outs), jp).
Proof.
  intros H1 H2. apply Z.eqb_neq in H1, H2. unfold handle. rewrite H1, H2.
  repeat case_match; by eexists.
Qed.

Lemma readLoop_quiet ms out err id jp fuel :
  Forall quiet ms -> (length ms < fuel)%nat ->
  exists outs, readLoop type_name order fuel (MkConn (Some (MkNet (stream_of ms) out err)) id) jp =
    (Ok (NetError "EOF", outs, MkConn (Some (MkNet [] out err)) id), jp).
Proof.
  intros Hq. revert fuel. induction Hq as [|m ms (H1 & H2 & H3 & H4) Hq IH]; intros [|fuel] Hf;
    cbn in Hf; try lia.
  { eexists. reflexivity. }
  destruct (IH fuel ltac:(lia)) as [outs E]. cbn [readLoop]. unfold stream_of. cbn [map concat].
  rewrite ReadMsg_small by done.
  destruct (quiet_handle (MkMsg (Code m) (Type_ m) (zlen (Payload m)) (Payload m)) jp H1 H2) as [o Eh].
  rewrite (JM_bind_ok _ _ _ _ _ Eh). cbv beta iota. fold (stream_of ms).
  rewrite (JM_bind_ok _ _ _ _ _ E). by eexists.
Qed.

Lemma length_stream ms : (length ms <= length (stream_of ms))%nat.
Proof.
  unfold stream_of. induction ms as [|m ms IH]; cbn; [lia|]. rewrite !length_app. cbn. lia.
Qed.

End Handling.

(** ** Properties of a peer *)

(** C20: a message of any content is safe for the graph.  On a well-formed graph
    [handle] neither panics nor diverges, and it blocks only for an event whose
    channel is full.  An event goes to the channel of its type, whatever could be
    decoded of it: its arrays have their lengths, and its round number, when
    there is one, is new and not negative.  A request is answered with the known
    other parent of an own event and its present round number, or ends the connection with "not found"; a ping
    is answered with the own address; nothing else has an effect. *)
Theorem handle_spec type_name order msg jp (I : inv jp)
    (Ho : forall m, order m ≡ₚ map_to_list m) (Hb : msg_ok msg) :
  match handle type_name order msg jp with
  | (Ok res, jp') => handled type_name msg jp res jp'
  | (Err Blocked, jp') => inv jp' /\ grows jp jp' /\ inbox_full msg jp'
  | (Err _, _) => False
  end.
Proof.
  pose proof (handle_wp type_name order msg jp I Ho Hb) as H. unfold wp in H.
  destruct (handle _ _ _ _) as [[res|e] jp']; [exact H|]. by destruct H as (-> & H).
Qed.

(** An event message without any payload, sent as a witness. *)
Lemma handle_spec_witness :
  let msg := MkMsg eventMsg Witness 0 [] in
  match handle (fun _ => ""%string) map_to_list msg ex_graph with
  | (Ok res, jp') => handled (fun _ => ""%string) msg ex_graph res jp'
  | (Err Blocked, jp') => inv jp' /\ grows ex_graph jp' /\ inbox_full msg jp'
  | (Err _, _) => False
  end /\
  map RoundID (witnessR (handle (fun _ => ""%string) map_to_list msg ex_graph).2) = [None].
Proof.
  split; [|vm_compute; reflexivity].
  apply (handle_spec (fun _ => ""%string) map_to_list (MkMsg eventMsg Witness 0 []) ex_graph
    ex_graph_ok ltac:(reflexivity) ltac:(split; [constructor|cbn; lia])).
Defined.


