(* ===== verification/ServerSpec.v ===== *)
(** * Sending to peers and the server: properties of [src/p2p/server.go]

    An event that is broadcast arrives at the peers, the handshake tells the nodes
    their identities, and the table of peers holds exactly the peers that run. *)

From S2P Require Import Prelude RlpTypes RlpEncode RlpRaw RlpStream RlpDecode.
From S2P Require Import RlpTyped Types Graph Jigsaw JigsawSpec Wire Peer PeerSpec.
Local Open Scope Z_scope.

(** ** Sending to all peers *)

Section Broadcast.

Lemma decode_into_enc type_name code ty t v e :
  serializable t = true -> rt_ok t no_tags v -> rlp_enc t no_tags v e -> zlen e < 2 ^ 64 ->
  decode_into type_name (MkMsg code ty (zlen e) e) t = v.
Proof. intros Hs Hrt He Hl. unfold decode_into. by rewrite (Msg_Decode_enc _ _ _ t v e). Qed.

(** What the other side of connection [c] is sent. *)
Definition sent (m : outgoing) (c : conn) : conn :=
  (Send c (o_code m) (o_type m) (Some (o_data m))).2.

Lemma broadcast_fold m l peers :
  NoDup l.*1 -> (forall p, p ∈ l -> peers !! p.1 = Some p.2) ->
  let ps := foldl (fun ps p => (send_peer ps p.1 m).2) peers l in
  forall id, ps !! id = if decide (id ∈ l.*1) then sent m <$> peers !! id else peers !! id.
Proof.
  revert peers. induction l as [|[id0 c] l IH]; intros peers Hnd Hl ps id.
  { cbn. by destruct (decide _) as [Hin%elem_of_nil|]. }
  cbn [fmap list_fmap] in Hnd. apply NoDup_cons in Hnd as [Hni Hnd].
  assert (H0 : peers !! id0 = Some c) by (by apply (Hl (id0, c)); left).
  assert (Hs : (send_peer peers id0 m).2 = <[id0 := sent m c]> peers).
  { unfold send_peer, sent. rewrite H0. by destruct (Send _ _ _ _). }
  unfold ps. cbn [foldl fst]. rewrite Hs, IH; [|done|].
  - cbn [fmap list_fmap fst]. destruct (decide (id = id0)) as [->|Hne].
    + rewrite decide_False by done. rewrite decide_True by (by left).
      by rewrite lookup_insert_eq, H0.
    + rewrite !lookup_insert_ne by done.
      destruct (decide (id ∈ l.*1)) as [Hin|Hout].
      * by rewrite decide_True by (by right).
      * rewrite decide_False; [done|]. by intros [?|?]%elem_of_cons.
  - intros [id1 c1] Hin. cbn. rewrite lookup_insert_ne.
    + by apply (Hl (id1, c1)); right.
    + intros ->. apply Hni. apply (list_elem_of_fmap_2 fst _ _ Hin).
Qed.

(** Every peer is sent the event, once. *)
Lemma BroadcastEvent_all order peers v ty :
  (forall m, order m ≡ₚ map_to_list m) -> peers <> ∅ ->
  BroadcastEvent order peers v ty = (None, sent (Out eventMsg ty (TEvent, v)) <$> peers).
Proof.
  intros Ho Hne. unfold BroadcastEvent. pose proof (Ho peers) as Hp.
  destruct (order peers) as [|p l] eqn:E.
  { apply Permutation_nil in Hp. by apply map_to_list_empty_iff in Hp. }
  f_equal. apply map_eq. intros id. rewrite <- E in *. clear E p l.
  rewrite broadcast_fold.
  - rewrite lookup_fmap. destruct (decide _) as [Hin|Hout]; [done|].
    destruct (peers !! id) as [c|] eqn:Hc; [|done]. destruct Hout.
    apply elem_of_map_to_list in Hc. rewrite <- Hp in Hc. apply (list_elem_of_fmap_2 fst _ _ Hc).
  - rewrite Hp. apply NoDup_fst_map_to_list.
  - intros [i c]. rewrite Hp. apply elem_of_map_to_list.
Qed.

Lemma ChanEvent_run ty ch e jp l :
  ChanEvent ty = Some ch -> chan_of ty jp = Some l -> (length l < MaxChanItem)%nat ->
  exists jp', ch e jp = (Ok tt, jp') /\ chan_of ty jp' = Some (l ++ [e]) /\ bigs jp' = bigs jp.
Proof.
  intros Hch Hl Hroom.
  pose proof (ChanEvent_wp ty e jp (fun _ jp' => chan_of ty jp' = Some (l ++ [e]) /\
    bigs jp' = bigs jp) (fun _ _ => False) ch Hch) as H.
  rewrite Hl in H. unfold wp in H. destruct (ch e jp) as [[[]|st] jp'].
  - exists jp'. split; [done|]. apply H; [|intros l' [= <-]; lia]. by intros l' jp2 [= <-].
  - exfalso. apply H; [|intros l' [= <-]; lia]. by intros l' jp2 [= <-].
Qed.

(** An event message with a payload that decodes. *)
Lemma handle_event_run type_name order msg e z ch l jp :
  Code msg = eventMsg -> decode_into type_name msg TEvent = event_gval e (Some z) ->
  ChanEvent (Type_ msg) = Some ch -> chan_of (Type_ msg) jp = Some l ->
  (length l < MaxChanItem)%nat ->
  exists jp', handle type_name order msg jp = (Ok (None, []), jp') /\
    chan_of (Type_ msg) jp' = Some (l ++ [set_RoundID (Some (length (bigs jp))) e]) /\
    bigs jp' = bigs jp ++ [z].
Proof.
  intros Hc Hd Hch Hl Hroom.
  assert (Hst : store_event (event_gval e (Some z)) jp =
    (Ok (set_RoundID (Some (length (bigs jp))) e), set_bigs (bigs jp ++ [z]) jp)).
  { rewrite <- event_of_gval with (o := Some z). reflexivity. }
  destruct (ChanEvent_run (Type_ msg) ch (set_RoundID (Some (length (bigs jp))) e)
    (set_bigs (bigs jp ++ [z]) jp) l Hch Hl Hroom) as (jp' & E & H1 & H2).
  exists jp'. split; [|done]. unfold handle. rewrite Hc.
  change (eventMsg =? pingMsg) with false. change (eventMsg =? pongMsg) with false.
  change (eventMsg =? discMsg) with false. change (eventMsg =? eventMsg) with true.
  cbv beta iota. rewrite Hd, (JM_bind_ok _ _ _ _ _ Hst), Hch. by rewrite (JM_bind_ok _ _ _ _ _ E).
Qed.

End Broadcast.

(** C21: an event that is broadcast arrives.  The sender loads the round number
    behind the event's pointer and sends one frame to every peer whose connection
    works.  At the other side [ReadMsg] takes exactly this frame, and [handle]
    puts an event into the channel of its type that has all fields of the event
    sent and a round number of its own, new in that node's store, with the same
    value; it passes the hash check there exactly when it does at the sender. *)
Theorem event_delivery type_name order order' jps jpr peers id c f e n z ts ty ch l out err rid
    rest (Ho : forall m, order m ≡ₚ map_to_list m)
    (Hp : peers !! id = Some c) (Hf : fd c = Some f) (Hw : fd_err f = None)
    (He : event_shape e) (Ht : TimeStamp e = Some ts) (Hts : 0 <= ts)
    (Hr : RoundID e = Some n) (Hz : bigs jps !! n = Some z) (Hz0 : 0 <= z)
    (Hsz : zlen (event_wire e z) < 2 ^ 16)
    (Hch : ChanEvent ty = Some ch) (Hl : chan_of ty jpr = Some l)
    (Hroom : (length l < MaxChanItem)%nat) :
  exists v peers', load_event e jps = (Ok v, jps) /\
    BroadcastEvent order peers v ty = (None, peers') /\
    peers' !! id = Some (set_fd (MkNet (fd_in f)
      (fd_out f ++ frame eventMsg ty (event_wire e z)) None) c) /\
    let receiver input := MkConn (Some (MkNet input out err)) rid in
    exists msg jpr', ReadMsg (receiver (frame eventMsg ty (event_wire e z) ++ rest)) =
        (Ok msg, receiver rest) /\
      handle type_name order' msg jpr = (Ok (None, []), jpr') /\
      let e' := set_RoundID (Some (length (bigs jpr))) e in
      chan_of ty jpr' = Some (l ++ [e']) /\ bigs jpr' = bigs jpr ++ [z] /\
      validateEvent e' = validateEvent e.
Proof.
  assert (Henc : rlp_enc TEvent no_tags (event_gval e (Some z)) (event_wire e z))
    by (by eapply event_wire_enc).
  assert (Hty : 0 <= ty < 2 ^ 16).
  { unfold ChanEvent, Normal, Witness, WitnessLocal in Hch. repeat case_match; zbool; try done; lia. }
  exists (event_gval e (Some z)), (sent (Out eventMsg ty (TEvent, event_gval e (Some z))) <$> peers).
  split; [by eapply load_event_run|].
  split; [apply BroadcastEvent_all; [done|]; intros ->; by rewrite lookup_empty in Hp|].
  split.
  { rewrite lookup_fmap, Hp. unfold sent. cbn [fmap option_fmap option_map o_code o_type o_data].
    by rewrite (Send_frame c f eventMsg ty TEvent _ _ Hf Hw eq_refl (event_gval_ok e _ He) Henc) by lia. }
  intros receiver. unfold receiver. rewrite ReadMsg_small by done.
  destruct (handle_event_run type_name order' (MkMsg eventMsg ty (zlen (event_wire e z))
    (event_wire e z)) e z ch l jpr)
    as (jpr' & E & H1 & H2); try done.
  { apply decode_into_enc; [done|by eapply event_gval_rt|done|lia]. }
  by eexists _, jpr'.
Qed.

Definition ex_plain : Event :=
  MkEvent (Some 7) [Tx] zero_hash zero_hash (replicate 20 2) zero_hash zero_address (Some 0%nat).

Lemma ex_plain_shape : event_shape ex_plain.
Proof. split; [done|..]; (split; [reflexivity|by apply Forall_replicate]). Qed.

Lemma event_delivery_witness :
  let c := MkConn (Some (MkNet [] [] None)) (replicate 20 3) in
  exists v peers', load_event ex_plain ex_graph = (Ok v, ex_graph) /\
    BroadcastEvent map_to_list {[ replicate 20 3 := c ]} v Normal = (None, peers') /\
    exists msg jp', ReadMsg (MkConn (Some (MkNet
        (frame eventMsg Normal (event_wire ex_plain 0) ++ []) [] None)) []) =
        (Ok msg, MkConn (Some (MkNet [] [] None)) []) /\
      handle (fun _ => ""%string) map_to_list msg ex_graph = (Ok (None, []), jp') /\
      chan_of Normal jp' = Some [set_RoundID (Some 1%nat) ex_plain].
Proof.
  intros c.
  destruct (event_delivery (fun _ => ""%string) map_to_list map_to_list ex_graph ex_graph
    {[ replicate 20 3 := c ]} (replicate 20 3) c (MkNet [] [] None) ex_plain 0 0 7 Normal
    (send eventNorm set_eventNorm) [] [] None [] [] ltac:(reflexivity) (lookup_singleton_eq _ _)
    eq_refl eq_refl ex_plain_shape eq_refl ltac:(lia) eq_refl eq_refl ltac:(lia)
    ltac:(vm_compute; reflexivity) eq_refl eq_refl ltac:(cbn; unfold MaxChanItem; lia))
    as (v & peers' & E1 & E2 & _ & msg & jp' & E3 & E4 & E5 & _).
  exists v, peers'. split; [exact E1|]. split; [exact E2|]. exists msg, jp'.
  split; [exact E3|]. split; [exact E4|exact E5].
Defined.

(** ** The handshake *)

Section Handshake.

Context (type_name : gtype -> string).

Definition id_ok (a : Address) : Prop := length a = AddressLength /\ bytes_ok a.

Lemma Compare_same a b : id_ok a -> id_ok b -> (Compare b a =? 0) = bool_decide (b = a).
Proof.
  intros [Ha _] [Hb _]. case_bool_decide as Heq.
  - subst b. apply Z.eqb_eq. by apply Compare_0.
  - apply Z.eqb_neq. intros H. apply Heq, Compare_eq, H.
Qed.

Lemma id_enc_length a : id_ok a -> zlen (rlp_string a) = 21.
Proof.
  intros [Ha _]. destruct a as [|x [|y a]]; [discriminate Ha..|].
  unfold rlp_string. rewrite zlen_app, Ha. reflexivity.
Qed.

Lemma send_id a c f code :
  id_ok a -> fd c = Some f -> fd_err f = None ->
  Send c code 0 (Some (TAddress, VByteArray a)) =
    (None, set_fd (MkNet (fd_in f) (fd_out f ++ frame code 0 (rlp_string a)) None) c).
Proof.
  intros Ha Hf Hw. apply Send_frame; try done; [constructor; apply Ha|constructor|].
  rewrite id_enc_length by done. lia.
Qed.

(** The identity that is read from the first message. *)
Lemma recv_id b code ty :
  id_ok b -> decode_into type_name (MkMsg code ty 21 (rlp_string b)) TAddress = VByteArray b.
Proof.
  intros Hb. rewrite <- (id_enc_length b Hb) at 1.
  apply decode_into_enc; [done| |constructor|rewrite id_enc_length by done; lia].
  destruct Hb. apply rt_array; [unfold AddressLength; lia|done..].
Qed.

(** A handshake whose first message gives the identity [b]. *)
Lemma HandleConn_run a peers c f code ty e b rest :
  id_ok a -> id_ok b -> fd c = Some f -> fd_err f = None -> 0 <= ty < 2 ^ 16 ->
  zlen e < 2 ^ 16 -> fd_in f = frame code ty e ++ rest ->
  decode_into type_name (MkMsg code ty (zlen e) e) TAddress = VByteArray b ->
  HandleConn type_name a peers c =
    if bool_decide (b = a) then HsError "remote peer has the same ID"%string
    else match peers !! b with
         | Some _ => HsRefused
         | None => HsAdd (MkConn (Some (MkNet rest
                     (fd_out f ++ frame handshakeMsg 0 (rlp_string a)) None)) b)
         end.
Proof.
  intros Ha Hb Hf Hw Hty He Hin Hd. unfold HandleConn, protoHandshake.
  rewrite (send_id a c f handshakeMsg Ha Hf Hw). unfold set_fd. rewrite Hin, ReadMsg_small by done.
  rewrite Hd, Compare_same by done. destruct (bool_decide (b = a)) eqn:E; [done|].
  rewrite Compare_same, E by done. unfold FindPeer. by destruct (peers !! b).
Qed.

End Handshake.

(** The handshake.  A node sends its identity and takes the identity of the
    other side from the first message it receives: it refuses its own identity and
    those of known peers, and otherwise asks for the peer to be added, with what
    follows the handshake left to be read.  The code of that message is not looked
    at, and neither is the error of decoding it: a first message with a payload
    that is no address makes the other side a peer with the zero address. *)
Theorem HandleConn_spec type_name a peers c f code ty rest (Ha : id_ok a) (Hf : fd c = Some f)
    (Hw : fd_err f = None) (Hty : 0 <= ty < 2 ^ 16) :
  let done b := HsAdd (MkConn (Some (MkNet rest
                  (fd_out f ++ frame handshakeMsg 0 (rlp_string a)) None)) b) in
  (forall b, id_ok b -> fd_in f = frame code ty (rlp_string b) ++ rest ->
     HandleConn type_name a peers c =
       if bool_decide (b = a) then HsError "remote peer has the same ID"%string
       else match peers !! b with Some _ => HsRefused | None => done b end) /\
  (a <> zero_address -> peers !! zero_address = None ->
   fd_in f = frame code ty [0xC0] ++ rest ->
   HandleConn type_name a peers c = done zero_address).
Proof.
  intros done. split.
  - intros b Hb Hin. eapply HandleConn_run; try eassumption.
    + rewrite id_enc_length by done. lia.
    + rewrite id_enc_length by done. by apply recv_id.
  - intros Hne Hp Hin.
    rewrite (HandleConn_run type_name a peers c f code ty [0xC0] zero_address rest); try done.
    + rewrite bool_decide_false by done. by rewrite Hp.
    + split; [done|]. by apply Forall_replicate.
Qed.

Lemma HandleConn_spec_witness :
  HandleConn (fun _ => ""%string) (replicate 20 1) ∅
    (MkConn (Some (MkNet (frame 9 0 [0xC0] ++ []) [] None)) []) =
  HsAdd (MkConn (Some (MkNet [] ([] ++ frame handshakeMsg 0 (rlp_string (replicate 20 1))) None))
    zero_address).
Proof.
  apply (proj2 (HandleConn_spec (fun _ => ""%string) (replicate 20 1) ∅
    (MkConn (Some (MkNet (frame 9 0 [0xC0] ++ []) [] None)) [])
    (MkNet (frame 9 0 [0xC0] ++ []) [] None) 9 0 []
    ltac:(split; [reflexivity|by apply Forall_replicate]) eq_refl eq_refl ltac:(lia)));
    [discriminate|apply lookup_empty|reflexivity].
Defined.

(** ** The table of peers *)

Section Table.

(** The table, and the peers whose [runPeer] was started and has not ended.  A
    peer that ends asks for its removal; everything else leaves the peers alone. *)
Definition srv_state : Type := gmap Address conn * list Address.

Inductive srv_step : srv_state -> srv_state -> Prop :=
| Srv_add ps rs c ps' started :
    server_run ps (MAddPeer c) = (ps', started) ->
    srv_step (ps, rs) (ps', if started then c_id c :: rs else rs)
| Srv_end ps rs1 id rs2 :
    srv_step (ps, rs1 ++ id :: rs2) ((server_run ps (MDelPeer id)).1, rs1 ++ rs2)
| Srv_other ps rs m :
    match m with MRemoveStatic | MPeerOp => True | _ => False end ->
    srv_step (ps, rs) ((server_run ps m).1, rs)
| Srv_sent ps rs id m :
    srv_step (ps, rs) ((send_peer ps id m).2, rs)
| Srv_read ps rs id c :
    ps !! id = Some c -> srv_step (ps, rs) (<[id := (ReadMsg c).2]> ps, rs).

Definition table_ok (s : srv_state) : Prop :=
  NoDup s.2 /\ (forall id, id ∈ s.2 <-> is_Some (s.1 !! id)) /\
  (forall id c, s.1 !! id = Some c -> c_id c = id).

Lemma Send_id c code ty d : c_id (Send c code ty d).2 = c_id c.
Proof.
  unfold Send, WriteMsg. repeat case_match; done.
Qed.

Lemma ReadMsg_id c : c_id (ReadMsg c).2 = c_id c.
Proof. unfold ReadMsg. repeat case_match; done. Qed.

Lemma table_conn ps rs id c c' :
  table_ok (ps, rs) -> ps !! id = Some c -> c_id c' = c_id c -> table_ok (<[id := c']> ps, rs).
Proof.
  intros (Hnd & Hdom & Hid) Hc Hs. split; [done|]. split; cbn in *.
  - intros x. rewrite lookup_insert_is_Some, Hdom.
    destruct (decide (id = x)) as [<-|Hne]; [rewrite Hc; split; eauto|].
    split; [by right|intros [?|[_ ?]]; done].
  - intros x c1 H. apply lookup_insert_Some in H as [[<- <-]|[_ H]]; [|by apply Hid].
    rewrite Hs. by apply Hid.
Qed.

Lemma srv_step_ok s s' : table_ok s -> srv_step s s' -> table_ok s'.
Proof.
  intros Hok Hs. pose proof Hok as (Hnd & Hdom & Hid).
  destruct Hs as [ps rs c ps' started E|ps rs1 id rs2|ps rs m Hm|ps rs id m|ps rs id c Hc];
    cbn [fst snd] in *.
  - cbn in E. destruct (ps !! c_id c) as [c0|] eqn:Hc; injection E as <- <-; [done|].
    split; [|split]; cbn [fst snd].
    + apply NoDup_cons. split; [|done]. intros [x Hx]%Hdom. discriminate (eq_trans (eq_sym Hx) Hc).
    + intros id. rewrite elem_of_cons, lookup_insert_is_Some, Hdom.
      split; [intros [-> |H]; [by left|right; split; [|done]]|intros [<- |[_ H]]; auto].
      intros <-. by destruct H as [x Hx]; discriminate (eq_trans (eq_sym Hx) Hc).
    + intros id c1 H. apply lookup_insert_Some in H as [[<- <-]|[_ H]]; [done|by apply Hid].
  - cbn. apply NoDup_app in Hnd as (H1 & H2 & H3%NoDup_cons). destruct H3 as [H3 H4].
    split; [|split]; cbn [fst snd].
    + apply NoDup_app. split; [done|]. split; [|done]. intros x Hx Hx2. by apply (H2 x Hx); right.
    + intros x. specialize (Hdom x). rewrite elem_of_app, elem_of_cons in Hdom. rewrite elem_of_app.
      destruct (decide (x = id)) as [->|Hne].
      * rewrite lookup_delete_eq. split; [|by intros [? ?]].
        intros [Hx|Hx]; [|done]. exfalso. by apply (H2 id Hx); left.
      * rewrite lookup_delete_ne by done. rewrite <- Hdom. tauto.
    + intros x c H. apply lookup_delete_Some in H as [_ H]. by apply Hid.
  - by destruct m.
  - unfold send_peer. destruct (ps !! id) as [c|] eqn:Hc; [|done].
    pose proof (Send_id c (o_code m) (o_type m) (Some (o_data m))) as Hs.
    destruct (Send _ _ _ _) as [e c']. by eapply table_conn.
  - eapply table_conn; [done..|]. apply ReadMsg_id.
Qed.

End Table.

(** The table of peers.  In every state that the server reaches, the table
    holds exactly the peers that run, each under its own identity, and no two run
    for one identity: a connection for a peer that runs already is dropped, even
    when two handshakes with it were accepted at the same time. *)
Theorem server_table s (Hs : rtc srv_step (∅, []) s) :
  table_ok s /\ PeerCount s.1 = length s.2 /\
  forall c id, FindPeer s.1 id = Some c -> id ∈ s.2 /\ c_id c = id.
Proof.
  assert (H : table_ok s).
  { remember (∅ : gmap Address conn, @nil Address) as s0 eqn:E0.
    assert (H0 : table_ok s0).
    { subst s0. split; [constructor|]. split; cbn; intros id; rewrite lookup_empty; [|done].
      split; [by intros ?%elem_of_nil|by intros [? ?]]. }
    clear E0. induction Hs; [done|]. apply IHHs. by eapply srv_step_ok. }
  split; [done|]. destruct H as (Hnd & Hdom & Hid). split.
  - unfold PeerCount. rewrite <- size_dom. rewrite <- (size_list_to_set (C := gset Address) s.2) by done.
    f_equal. apply set_eq. intros x. rewrite elem_of_dom, elem_of_list_to_set. symmetry. apply Hdom.
  - intros c id H. unfold FindPeer in H. split; [apply Hdom; by eexists|by apply Hid].
Qed.

(** Two connections of one node ask to be added; then the first ends. *)
Lemma server_table_witness :
  let c := MkConn None (replicate 20 3) in
  rtc srv_step (∅, []) ({[ replicate 20 3 := c ]}, [replicate 20 3]) /\
  PeerCount {[ replicate 20 3 := c ]} = 1%nat.
Proof.
  intros c.
  assert (H : rtc srv_step (∅, []) ({[ replicate 20 3 := c ]}, [replicate 20 3])).
  { eapply rtc_l; [apply (Srv_add ∅ [] c {[ replicate 20 3 := c ]} true); reflexivity|].
    eapply rtc_l; [apply (Srv_add _ _ c {[ replicate 20 3 := c ]} false); reflexivity|].
    apply rtc_refl. }
  split; [exact H|]. exact (proj1 (proj2 (server_table _ H))).
Defined.
