(* ===== verification/ServerLife.v ===== *)
(** * The life of the server: [Start], [Stop] and the goroutines of [src/p2p/server.go]

    The server and everything that runs in it: its loop, the loop that accepts
    connections, a goroutine for each connection that is being handled, one for
    each peer, and the callers of its methods.  They meet on channels without a
    buffer: a value is passed when both sides are ready, in one step.  [Start] makes new
    channels; what was waiting on the channels of an earlier start stays there.  The channels
    of a start are known by its number, zero stands for the nil channels before the first.
    Each step is one of the events of [event], in any order. *)

From S2P Require Import Prelude Types.
Local Open Scope Z_scope.

(** ** State *)

(** Who holds [srv.lock]: [Start] with the number of nodes it still has to hand
    over, or [Stop] waiting for the loops. *)
Inductive lock_state := Free | Starting (nodes : nat) | Stopping.

(** A goroutine of [HandleConn]: in the handshake, in [FindPeer], or offering the
    connection; with the number of the channels it waits on. *)
Inductive conn_state := Shaking | Finding (g : nat) (id : Address) | Adding (g : nat) (id : Address).

(** A goroutine of [runPeer]: the peer runs, or has to be removed from the table. *)
Inductive peer_state := Running (id : Address) | Dropping (g : nat) (id : Address).

(** A caller of [AddPeer], of [RemovePeer], or of [Peers] and [PeerCount]. *)
Inductive caller := InAddPeer (g : nat) | InRemovePeer (g : nat) | InPeerOp (g : nat).
#[global] Instance caller_eq_dec : EqDecision caller.
Proof. solve_decision. Defined.

(** [quit_closed] are the numbers of the starts whose [quit] is closed; [loop] is the
    table of peers of [run] while it runs. *)
Record server := MkServer {
  started : nat; quit_closed : gset nat; running : bool; listener : bool; listening : bool;
  loop : option (gset Address); loopWG : nat; lock : lock_state;
  conns : list conn_state; peers : list peer_state; callers : list caller }.

Definition new_server : server := MkServer 0 ∅ false false false None 0 Free [] [] [].

Definition set_conns (l : list conn_state) (s : server) : server :=
  MkServer (started s) (quit_closed s) (running s) (listener s) (listening s) (loop s) (loopWG s)
    (lock s) l (peers s) (callers s).
Definition set_peers (l : list peer_state) (s : server) : server :=
  MkServer (started s) (quit_closed s) (running s) (listener s) (listening s) (loop s) (loopWG s)
    (lock s) (conns s) l (callers s).
Definition set_callers (l : list caller) (s : server) : server :=
  MkServer (started s) (quit_closed s) (running s) (listener s) (listening s) (loop s) (loopWG s)
    (lock s) (conns s) (peers s) l.
Definition set_loop (t : option (gset Address)) (s : server) : server :=
  MkServer (started s) (quit_closed s) (running s) (listener s) (listening s) t (loopWG s)
    (lock s) (conns s) (peers s) (callers s).
Definition set_lock (l : lock_state) (s : server) : server :=
  MkServer (started s) (quit_closed s) (running s) (listener s) (listening s) (loop s) (loopWG s)
    l (conns s) (peers s) (callers s).

(** ** [Start] and [Stop] *)

(** Whether listening at the address succeeds is the network's choice. *)
Definition startListening (listens : bool) (s : server) : option server :=
  if listens then
    Some (MkServer (started s) (quit_closed s) (running s) true true (loop s) (S (loopWG s)) (lock s)
            (conns s) (peers s) (callers s))
  else None.

(** The new channels of [Start]. *)
Definition new_channels (s : server) : server :=
  MkServer (S (started s)) (quit_closed s) (running s) (listener s) (listening s) (loop s) (loopWG s)
    (lock s) (conns s) (peers s) (callers s).

(** [Start] up to the nodes of the configuration: whether there is an address to listen at,
    whether listening there succeeds, and the number of nodes.  An error leaves the new
    channels without anybody to serve them. *)
Definition Start (addr listens : bool) (nodes : nat) (s : server) : option server :=
  match lock s with
  | Free =>
      if running s then Some s
      else
        match (if addr then startListening listens (new_channels s) else Some (new_channels s)) with
        | None => Some (new_channels s)
        | Some s =>
            Some (MkServer (started s) (quit_closed s) true (listener s) (listening s) (Some ∅)
                    (S (loopWG s)) (Starting nodes) (conns s) (peers s) (callers s))
        end
  | _ => None
  end.

(** The loop has dialled: a connection to handle, if that succeeded. *)
Definition dialled (dial : bool) (s : server) : server :=
  if dial then set_conns (conns s ++ [Shaking]) s else s.

(** [Start] hands a node over, and returns. *)
Definition Start_static (dial : bool) (s : server) : option server :=
  match lock s, loop s with
  | Starting (S n), Some _ => Some (dialled dial (set_lock (Starting n) s))
  | _, _ => None
  end.
Definition Start_return (s : server) : option server :=
  match lock s with Starting 0 => Some (set_lock Free s) | _ => None end.

Definition Stop (s : server) : option server :=
  match lock s with
  | Free =>
      if running s then
        Some (MkServer (started s) ({[started s]} ∪ quit_closed s) false false (listening s) (loop s)
                (loopWG s) Stopping (conns s) (peers s) (callers s))
      else Some s
  | _ => None
  end.
Definition Stop_return (s : server) : option server :=
  match lock s, loopWG s with Stopping, O => Some (set_lock Free s) | _, _ => None end.

(** ** The loops *)

(** [listenLoop]: a connection is accepted, or an error ends the loop; closing the
    listener is such an error. *)
Definition listenLoop_accept (s : server) : option server :=
  if listening s && listener s then Some (set_conns (conns s ++ [Shaking]) s) else None.
Definition listenLoop_error (s : server) : option server :=
  if listening s then
    Some (MkServer (started s) (quit_closed s) (running s) (listener s) false (loop s) (pred (loopWG s))
            (lock s) (conns s) (peers s) (callers s))
  else None.

(** [run] sees that [quit] is closed. *)
Definition run_quit (s : server) : option server :=
  match loop s with
  | Some _ =>
      if decide (started s ∈ quit_closed s) then
        Some (MkServer (started s) (quit_closed s) (running s) (listener s) (listening s) None
                (pred (loopWG s)) (lock s) (conns s) (peers s) (callers s))
      else None
  | None => None
  end.

(** ** Connections *)

(** The handshake ends with the identity of the other side, or with an error. *)
Definition handshake_done (i : nat) (res : option Address) (s : server) : option server :=
  match conns s !! i with
  | Some Shaking =>
      Some match res with
           | Some id => set_conns (<[i := Finding (started s) id]> (conns s)) s
           | None => set_conns (delete i (conns s)) s
           end
  | _ => None
  end.

(** [FindPeer] of [HandleConn] is served by the loop: a known peer is refused. *)
Definition FindPeer_served (i : nat) (s : server) : option server :=
  match conns s !! i, loop s with
  | Some (Finding g id), Some t =>
      if decide (g = started s) then
        Some (if decide (id ∈ t) then set_conns (delete i (conns s)) s
              else set_conns (<[i := Adding (started s) id]> (conns s)) s)
      else None
  | _, _ => None
  end.
(** [FindPeer] finds [quit] closed and returns no peer. *)
Definition FindPeer_quit (i : nat) (s : server) : option server :=
  match conns s !! i with
  | Some (Finding g id) =>
      if decide (g ∈ quit_closed s) then Some (set_conns (<[i := Adding (started s) id]> (conns s)) s)
      else None
  | _ => None
  end.

(** The loop takes the connection: a peer is added and started unless there is
    one with its identity. *)
Definition run_addpeer (i : nat) (s : server) : option server :=
  match conns s !! i, loop s with
  | Some (Adding g id), Some t =>
      if decide (g = started s) then
        let s := set_conns (delete i (conns s)) s in
        Some (if decide (id ∈ t) then s
              else set_peers (peers s ++ [Running id]) (set_loop (Some ({[id]} ∪ t)) s))
      else None
  | _, _ => None
  end.
Definition addpeer_quit (i : nat) (s : server) : option server :=
  match conns s !! i with
  | Some (Adding g id) =>
      if decide (g ∈ quit_closed s) then Some (set_conns (delete i (conns s)) s) else None
  | _ => None
  end.

(** ** Peers *)

(** [runPeer]: the peer has ended. *)
Definition runPeer_ended (i : nat) (s : server) : option server :=
  match peers s !! i with
  | Some (Running id) => Some (set_peers (<[i := Dropping (started s) id]> (peers s)) s)
  | _ => None
  end.
Definition run_delpeer (i : nat) (s : server) : option server :=
  match peers s !! i, loop s with
  | Some (Dropping g id), Some t =>
      if decide (g = started s) then
        Some (set_peers (delete i (peers s)) (set_loop (Some (t ∖ {[id]})) s))
      else None
  | _, _ => None
  end.

(** ** Callers *)

Definition AddPeer (s : server) : server := set_callers (callers s ++ [InAddPeer (started s)]) s.
Definition RemovePeer (s : server) : server := set_callers (callers s ++ [InRemovePeer (started s)]) s.
Definition Peers (s : server) : server := set_callers (callers s ++ [InPeerOp (started s)]) s.

Definition waits_on (c : caller) : nat :=
  match c with InAddPeer g | InRemovePeer g | InPeerOp g => g end.

(** The loop serves a caller; for [AddPeer] it dials. *)
Definition run_caller (i : nat) (dial : bool) (s : server) : option server :=
  match callers s !! i, loop s with
  | Some c, Some _ =>
      if decide (waits_on c = started s) then
        let s := set_callers (delete i (callers s)) s in
        Some match c with InAddPeer _ => dialled dial s | _ => s end
      else None
  | _, _ => None
  end.
Definition caller_quit (i : nat) (s : server) : option server :=
  match callers s !! i with
  | Some c =>
      if decide (waits_on c ∈ quit_closed s) then Some (set_callers (delete i (callers s)) s) else None
  | None => None
  end.

(** ** Histories *)

Inductive event :=
| EStart (addr listens : bool) (nodes : nat) | EStatic (dial : bool) | EStarted | EStop | EStopped
| EAccept | EAcceptError | EQuit
| EHandshake (i : nat) (res : option Address) | EFind (i : nat) | EFindQuit (i : nat)
| EAdd (i : nat) | EAddQuit (i : nat) | EEnded (i : nat) | EDrop (i : nat)
| EAddPeer | ERemovePeer | EPeers | EServe (i : nat) (dial : bool) | ECallerQuit (i : nat).

(** [None]: the event cannot happen now. *)
Definition step (e : event) (s : server) : option server :=
  match e with
  | EStart addr listens nodes => Start addr listens nodes s
  | EStatic dial => Start_static dial s
  | EStarted => Start_return s
  | EStop => Stop s
  | EStopped => Stop_return s
  | EAccept => listenLoop_accept s
  | EAcceptError => listenLoop_error s
  | EQuit => run_quit s
  | EHandshake i res => handshake_done i res s
  | EFind i => FindPeer_served i s
  | EFindQuit i => FindPeer_quit i s
  | EAdd i => run_addpeer i s
  | EAddQuit i => addpeer_quit i s
  | EEnded i => runPeer_ended i s
  | EDrop i => run_delpeer i s
  | EAddPeer => Some (AddPeer s)
  | ERemovePeer => Some (RemovePeer s)
  | EPeers => Some (Peers s)
  | EServe i dial => run_caller i dial s
  | ECallerQuit i => caller_quit i s
  end.

Fixpoint run_events (es : list event) (s : server) : option server :=
  match es with
  | [] => Some s
  | e :: es => s ← step e s; run_events es s
  end.

Inductive reachable : server -> Prop :=
| reach_new : reachable new_server
| reach_step s e s' : reachable s -> step e s = Some s' -> reachable s'.

(** ** The invariant *)

Definition count (b : bool) : nat := if b then 1 else 0.

(** The wait group counts the loops that run.  While [Start] or nobody holds the lock
    of a running server, its loop runs and its [quit] is open; while [Stop] waits, [quit] is closed and the listener
    too; otherwise no loop runs.  The [quit] of a start to come is open. *)
Record life_ok (s : server) : Prop := {
  lf_wg : loopWG s = (count (listening s) + count (bool_decide (is_Some (loop s))))%nat;
  lf_running : running s = true -> is_Some (loop s) /\ (started s ∉ quit_closed s) /\ lock s <> Stopping;
  lf_starting : forall n, lock s = Starting n -> running s = true;
  lf_stopping : lock s = Stopping -> running s = false /\ (started s ∈ quit_closed s) /\ listener s = false;
  lf_idle : running s = false -> lock s = Free -> loop s = None /\ listening s = false;
  lf_future : forall g, (started s < g)%nat -> g ∉ quit_closed s }.

Lemma life_new : life_ok new_server.
Proof. by split. Qed.

(** Steps that concern connections, peers and callers only. *)
Definition same_life (s s' : server) : Prop :=
  started s' = started s /\ quit_closed s' = quit_closed s /\ running s' = running s /\
  listener s' = listener s /\ listening s' = listening s /\
  bool_decide (is_Some (loop s')) = bool_decide (is_Some (loop s)) /\ loopWG s' = loopWG s /\ lock s' = lock s.

Lemma same_life_refl s : same_life s s.
Proof. done. Qed.

Lemma same_life_ok s s' : same_life s s' -> life_ok s -> life_ok s'.
Proof.
  intros (E1 & E2 & E3 & E4 & E5 & E6 & E7 & E8) [H1 H2 H3 H4 H5 H6].
  assert (Hl : is_Some (loop s') <-> is_Some (loop s)).
  { split; intros Hs; apply (bool_decide_eq_true _); [rewrite <- E6|rewrite E6]; by apply bool_decide_eq_true. }
  split; rewrite ?E1, ?E2, ?E3, ?E4, ?E5, ?E6, ?E7, ?E8; try done.
  - intros Hr. rewrite Hl. by apply H2.
  - intros Hr Hf. destruct (H5 Hr Hf) as [Hn Hli]. split; [|done].
    apply eq_None_not_Some. rewrite Hl, Hn. by intros [? ?].
Qed.

(** The events of [Start], [Stop] and the loops. *)
Definition life_event (e : event) : bool :=
  match e with
  | EStart _ _ _ | EStatic _ | EStarted | EStop | EStopped | EAcceptError | EQuit => true
  | _ => false
  end.

Ltac step_inv :=
  repeat match goal with
  | H : None = Some _ |- _ => discriminate H
  | H : Some _ = Some _ |- _ => injection H as H
  | H : context [match ?x with _ => _ end] |- _ =>
      lazymatch x with context [match _ with _ => _ end] => fail | _ => destruct x eqn:? end
  end; subst.

(** All the ways in which one of the events can happen. *)
Ltac step_cases E :=
  unfold Start, startListening, new_channels, Start_static, Start_return, Stop, Stop_return, listenLoop_accept, listenLoop_error, run_quit,
    handshake_done, FindPeer_served, FindPeer_quit, run_addpeer, addpeer_quit, runPeer_ended, run_delpeer,
    run_caller, caller_quit, dialled, AddPeer, RemovePeer, Peers in E;
  step_inv.

Lemma other_events e s s' : life_event e = false -> step e s = Some s' -> same_life s s'.
Proof.
  destruct e; try done; intros _; cbn [step]; intros E; step_cases E; try apply same_life_refl; repeat split; cbn in *; by rewrite ?Heqo0, ?Heqo.
Qed.

Lemma Start_inv addr listens nodes s s' : Start addr listens nodes s = Some s' ->
  (running s = true /\ s' = s) \/
  (lock s = Free /\ running s = false /\
   s' = if addr && negb listens then new_channels s
        else MkServer (S (started s)) (quit_closed s) true (addr || listener s) (addr || listening s) (Some ∅)
               (count addr + loopWG s + 1) (Starting nodes) (conns s) (peers s) (callers s)).
Proof.
  unfold Start, startListening. intros E. destruct (lock s), (running s); try done; [left|right];
    destruct addr, listens; injection E as <-; cbn; rewrite ?Nat.add_1_r; done.
Qed.

Lemma life_start addr listens nodes s s' :
  Start addr listens nodes s = Some s' -> life_ok s -> life_ok s'.
Proof.
  intros [[_ ->]|(El & Er & ->)]%Start_inv Hs; [done|]. pose proof Hs as [H1 H2 H3 H4 H5 H6].
  destruct (H5 Er El) as [Hn Hli]. rewrite Hn, Hli in H1. destruct (addr && negb listens)%bool.
  - split; cbn; rewrite ?Hn, ?Hli, ?Er, ?El; try done. intros g Hg. apply H6. lia.
  - split; cbn; try done.
    + rewrite H1, Hli. by destruct addr.
    + intros _. split; [by eexists|]. split; [apply H6; lia|done].
    + intros g Hg. apply H6. lia.
Qed.

Lemma life_stop s s' : Stop s = Some s' -> life_ok s -> life_ok s'.
Proof.
  unfold Stop. intros E Hs. pose proof Hs as [H1 H2 H3 H4 H5 H6].
  destruct (lock s); try done. destruct (running s) eqn:Er; [|by injection E as <-]. injection E as <-.
  split; cbn; try done.
  - intros _. split; [done|]. split; [by apply elem_of_union_l, elem_of_singleton|done].
  - intros g Hg. specialize (H6 g Hg). apply not_elem_of_union. split; [|done].
    apply not_elem_of_singleton. lia.
Qed.

Lemma life_quit s s' : run_quit s = Some s' -> life_ok s -> life_ok s'.
Proof.
  unfold run_quit. intros E [H1 H2 H3 H4 H5 H6]. destruct (loop s) as [t|] eqn:El; [|done].
  case_decide as Hq; [|done]. injection E as <-.
  assert (Hr : running s = false).
  { destruct (running s) eqn:Er; [|done]. by destruct (H2 eq_refl) as (_ & Hn & _). }
  split; cbn; try done.
  - rewrite H1. cbn. lia.
  - by rewrite Hr.
  - intros _ Hf. by destruct (H5 Hr Hf).
Qed.

Lemma life_step e s s' : step e s = Some s' -> life_ok s -> life_ok s'.
Proof.
  destruct (life_event e) eqn:Ee; [|intros E; apply same_life_ok; by eapply other_events].
  destruct e; try discriminate Ee; cbn [step]; intros E Hs.
  - by eapply life_start.
  - unfold Start_static, dialled in E. destruct (lock s) as [|[|n]|] eqn:El, (loop s) eqn:Eo; try done.
    destruct Hs as [H1 H2 H3 H4 H5 H6]. pose proof (H3 _ El) as Hr.
    destruct dial; injection E as <-; split; cbn; try done; try (by rewrite Hr);
      rewrite ?Eo in *; try done; intros Hr'; destruct (H2 Hr') as (_ & Hq & _); split_and!; done || by eexists.
  - unfold Start_return in E. destruct (lock s) as [|[|n]|] eqn:El; try done. injection E as <-.
    destruct Hs as [H1 H2 H3 H4 H5 H6]. pose proof (H3 _ El) as Hr. destruct (H2 Hr) as (? & ? & ?).
    split; cbn; try done. by rewrite Hr.
  - by eapply life_stop.
  - unfold Stop_return in E. destruct (lock s) eqn:El, (loopWG s) eqn:Ew; try done. injection E as <-.
    destruct Hs as [H1 H2 H3 H4 H5 H6]. destruct (H4 El) as (Hr & _ & _). split; cbn; try done.
    + by rewrite Hr.
    + intros _ _. rewrite Ew in H1. destruct (listening s), (loop s); cbn in H1; done.
  - unfold listenLoop_error in E. destruct (listening s) eqn:El; [|done]. injection E as <-.
    destruct Hs as [H1 H2 H3 H4 H5 H6]. split; cbn; try done.
    + by rewrite H1, El.
    + intros Hr Hf. by destruct (H5 Hr Hf).
  - by eapply life_quit.
Qed.

Lemma reachable_life s : reachable s -> life_ok s.
Proof. induction 1 as [|s e s' Hr IH E]; [apply life_new|by eapply life_step]. Qed.

(** ** Nobody waits for [Stop] and [Start] for ever *)

Lemma run_events_app es1 es2 s s1 :
  run_events es1 s = Some s1 -> run_events (es1 ++ es2) s = run_events es2 s1.
Proof.
  revert s. induction es1 as [|e es1 IH]; intros s; cbn; [by intros [= ->]|].
  destruct (step e s); [|done]. apply IH.
Qed.

(** The loops end when [quit] is closed. *)
Lemma loops_end s : life_ok s -> lock s = Stopping ->
  exists es s', (length es <= 2)%nat /\ run_events es s = Some s' /\ lock s' = Stopping /\
    loop s' = None /\ listening s' = false /\ running s' = false /\ loopWG s' = 0%nat /\
    conns s' = conns s /\ peers s' = peers s.
Proof.
  intros Hs Hl. pose proof (lf_stopping s Hs Hl) as (Hr & Hq & _).
  assert (H1 : exists es s1, (length es <= 1)%nat /\ run_events es s = Some s1 /\ life_ok s1 /\
    lock s1 = Stopping /\ loop s1 = None /\ running s1 = false /\ conns s1 = conns s /\ peers s1 = peers s).
  { destruct (loop s) as [t|] eqn:Eo; [|exists [], s; split_and!; done || (cbn; lia)].
    destruct (step EQuit s) as [s1|] eqn:E; cbn [step] in E.
    - exists [EQuit], s1. cbn. rewrite E. pose proof (life_quit s s1 E Hs) as Hs1.
      unfold run_quit in E. rewrite Eo in E. rewrite decide_True in E by done.
      injection E as <-. split_and!; done || (cbn; lia).
    - unfold run_quit in E. rewrite Eo, decide_True in E by done. done. }
  destruct H1 as (es & s1 & Hlen & E1 & Hs1 & Hl1 & Ho1 & Hr1 & Hc1 & Hp1).
  destruct (listening s1) eqn:Eli.
  - exists (es ++ [EAcceptError]). eexists. split; [rewrite length_app; cbn; lia|]. split.
    { rewrite (run_events_app _ _ _ _ E1). cbn. unfold listenLoop_error. rewrite Eli. reflexivity. }
    cbn. split_and!; try done. rewrite (lf_wg s1 Hs1), Eli, Ho1. done.
  - exists es, s1. split_and!; try done; [lia|]. rewrite (lf_wg s1 Hs1), Eli, Ho1. done.
Qed.

(** [Start] hands its nodes over to the loop, which is there. *)
Lemma nodes_handed n s : life_ok s -> lock s = Starting n ->
  exists s', run_events (replicate n (EStatic false) ++ [EStarted]) s = Some s' /\ lock s' = Free /\
    running s' = true.
Proof.
  revert s. induction n as [|n IH]; intros s Hs Hl; pose proof (lf_starting s Hs _ Hl) as Hr.
  - cbn. unfold Start_return. rewrite Hl. by eexists.
  - destruct (lf_running s Hs Hr) as ([t Ht] & _ & _). cbn [replicate app run_events step].
    destruct (Start_static false s) as [s1|] eqn:E; unfold Start_static in E; rewrite Hl, Ht in E; [|done].
    apply IH; [|by injection E as <-].
    apply (life_step (EStatic false) s s1); [|done]. cbn. unfold Start_static. by rewrite Hl, Ht.
Qed.

(** ** The table of peers *)

Definition id_of (p : peer_state) : Address := match p with Running id | Dropping _ id => id end.

(** In a server that was started once, the table holds the peers that have a
    goroutine, and each has one. *)
Definition table_ok (s : server) : Prop :=
  (started s <= 1)%nat ->
  (started s = 0%nat -> peers s = [] /\ loop s = None) /\
  (forall t, loop s = Some t ->
     NoDup (id_of <$> peers s) /\ forall id, id ∈ t <-> id ∈ id_of <$> peers s).

Lemma table_same s s' : started s' = started s -> peers s' = peers s -> loop s' = loop s ->
  table_ok s -> table_ok s'.
Proof. intros E1 E2 E3 H. unfold table_ok. by rewrite E1, E2, E3. Qed.

Lemma table_addpeer i s s' : run_addpeer i s = Some s' -> table_ok s -> table_ok s'.
Proof.
  unfold run_addpeer. intros E H. destruct (conns s !! i) as [[]|]; try done.
  destruct (loop s) as [t|] eqn:El; [|done]. case_decide as Hg; [|done]. injection E as <-.
  case_decide as Hid; [by apply (table_same s)|]. intros Hst. destruct (H Hst) as [H0 H1].
  split; [intros Hz; destruct (H0 Hz); congruence|]. intros t' [= <-]. destruct (H1 t El) as [Hnd Hin]. cbn.
  rewrite fmap_app. cbn [fmap list_fmap id_of]. split.
  - apply NoDup_app. split; [done|]. split; [|apply NoDup_singleton].
    intros x Hx Hx'. apply list_elem_of_singleton in Hx' as ->. by apply Hid, Hin.
  - intros x. rewrite elem_of_union, elem_of_app, elem_of_singleton, list_elem_of_singleton, Hin. tauto.
Qed.

Lemma table_ended i s s' : runPeer_ended i s = Some s' -> table_ok s -> table_ok s'.
Proof.
  unfold runPeer_ended. intros E H. destruct (peers s !! i) as [[id|]|] eqn:Ei; try done. injection E as <-.
  assert (Hids : id_of <$> <[i := Dropping (started s) id]> (peers s) = id_of <$> peers s).
  { rewrite list_fmap_insert. apply list_insert_id. by rewrite list_lookup_fmap, Ei. }
  intros Hst. destruct (H Hst) as [H0 H1]. split.
  - intros Hz. destruct (H0 Hz) as [Hp _]. by rewrite Hp in Ei.
  - intros t Ht. cbn. rewrite Hids. by apply H1.
Qed.

Lemma table_drop i s s' : run_delpeer i s = Some s' -> table_ok s -> table_ok s'.
Proof.
  unfold run_delpeer. intros E H. destruct (peers s !! i) as [[|g id]|] eqn:Ei; try done.
  destruct (loop s) as [t|] eqn:El; [|done]. case_decide as Hg; [|done]. injection E as <-.
  intros Hst. destruct (H Hst) as [H0 H1]. split; [intros Hz; destruct (H0 Hz); congruence|].
  intros t' [= <-]. destruct (H1 t El) as [Hnd Hin]. cbn.
  assert (Hi : (id_of <$> peers s) !! i = Some id) by (by rewrite list_lookup_fmap, Ei).
  rewrite list_fmap_delete. pose proof (delete_Permutation _ _ _ Hi) as Hp. rewrite Hp in Hnd.
  apply NoDup_cons in Hnd as [Hni Hnd]. split; [done|]. intros x.
  assert (Hx : x ∈ id_of <$> peers s <-> x = id \/ x ∈ delete i (id_of <$> peers s)).
  { rewrite Hp at 1. apply elem_of_cons. }
  rewrite elem_of_difference, elem_of_singleton, Hin, Hx. split; [tauto|].
  intros Hd. split; [by right|]. by intros ->.
Qed.

Lemma table_step e s s' : step e s = Some s' -> life_ok s -> table_ok s -> table_ok s'.
Proof.
  destruct e; cbn [step]; intros E Hs H; try (by eapply table_addpeer); try (by eapply table_ended);
    try (by eapply table_drop).
  1: { apply Start_inv in E as [[_ ->]|(El & Er & ->)]; [done|].
    destruct (lf_idle s Hs Er El) as [Hn _]. destruct (addr && negb listens)%bool.
    - intros Hst. split; cbn; [done|]. by rewrite Hn.
    - intros Hst. cbn in Hst. destruct (H ltac:(lia)) as [H0 _]. destruct (H0 ltac:(lia)) as [Hp _].
      split; cbn; [done|]. intros t [= <-]. rewrite Hp. split; [constructor|].
      intros id. split; intros Hx; [by apply not_elem_of_empty in Hx|by apply elem_of_nil in Hx]. }
  7: { unfold run_quit in E. destruct (loop s) eqn:El; [|done]. case_decide as Hg; [|done]. injection E as <-.
    intros Hst. destruct (H Hst) as [H0 _]. split; [|done]. intros Hz. by destruct (H0 Hz). }
  all: step_cases E; done || by apply (table_same s).
Qed.

Lemma reachable_table s : reachable s -> table_ok s.
Proof.
  induction 1 as [|s e s' Hr IH E]; [by intros _|]. eapply table_step; [done|by apply reachable_life|done].
Qed.

(** ** Waiting for nobody *)

(** No loop serves the channels of start [g], and none ever will. *)
Definition dead (g : nat) (s : server) : Prop :=
  (g < started s)%nat \/ (g = started s /\ loop s = None).

Lemma in_delete {A} (l : list A) i x y : l !! i = Some y -> x <> y -> x ∈ l -> x ∈ delete i l.
Proof.
  intros Hi Hne Hx. pose proof (delete_Permutation _ _ _ Hi) as Hp. rewrite Hp in Hx.
  by apply elem_of_cons in Hx as [->|Hx].
Qed.
Lemma in_insert {A} (l : list A) i x y z : l !! i = Some y -> x <> y -> x ∈ l -> x ∈ <[i := z]> l.
Proof.
  intros Hi Hne [j Hj]%list_elem_of_lookup. apply (list_elem_of_lookup_2 _ j).
  rewrite list_lookup_insert_ne; [done|]. intros ->. congruence.
Qed.
Lemma in_app_l {A} (l l' : list A) x : x ∈ l -> x ∈ l ++ l'.
Proof. intros H. apply elem_of_app. by left. Qed.

Create HintDb life.
#[local] Hint Resolve in_app_l : life.

Lemma dead_step e s s' g : step e s = Some s' -> dead g s -> dead g s'.
Proof.
  unfold dead. intros E Hd. destruct e; cbn [step] in E; step_cases E; cbn; try done; try lia; destruct Hd as [?|[? ?]]; try congruence; lia || tauto.
Qed.

(** Only [Stop] of a running server closes a channel, and its loop is there. *)
Lemma open_step e s s' g :
  step e s = Some s' -> life_ok s -> dead g s -> g ∉ quit_closed s -> g ∉ quit_closed s'.
Proof.
  intros E Hs Hd Hg. destruct e; cbn [step] in E;
    step_cases E; cbn; try done.
  apply not_elem_of_union. split; [|done]. apply not_elem_of_singleton. intros ->.
  destruct (lf_running s Hs) as ([t Ht] & _); [done|]. destruct Hd as [?|[_ Hn]]; [lia|congruence].
Qed.

Lemma dropping_step e s s' g id :
  step e s = Some s' -> dead g s -> Dropping g id ∈ peers s -> Dropping g id ∈ peers s'.
Proof.
  intros E Hd Hp. destruct e; cbn [step] in E;
    step_cases E; cbn; auto with life.
  - by eapply in_insert.
  - eapply in_delete; [done| |done]. intros [= -> ->]. destruct Hd as [?|[_ ?]]; [lia|congruence].
Qed.

Lemma caller_step e s s' c :
  step e s = Some s' -> dead (waits_on c) s -> waits_on c ∉ quit_closed s ->
  c ∈ callers s -> c ∈ callers s'.
Proof.
  intros E Hd Hq Hc. destruct e; cbn [step] in E;
    step_cases E; cbn; auto with life;
    (eapply in_delete; [done| |done]; intros ->); try done;
    destruct Hd as [?|[_ ?]]; cbn in *; try lia; congruence.
Qed.

Lemma blocked_run es s s' g id c :
  run_events es s = Some s' -> life_ok s -> dead g s ->
  (Dropping g id ∈ peers s -> Dropping g id ∈ peers s') /\
  (g ∉ quit_closed s -> waits_on c = g -> c ∈ callers s -> c ∈ callers s').
Proof.
  revert s. induction es as [|e es IH]; intros s; cbn [run_events]; [by intros [= ->]|].
  destruct (step e s) as [s1|] eqn:E; [|done]. cbn [mbind option_bind]. intros Es Hs Hd.
  destruct (IH s1 Es (life_step e s s1 E Hs) (dead_step e s s1 g E Hd)) as [H1 H2]. split.
  - intros Hp. by apply H1, (dropping_step e s s1 g id E Hd).
  - intros Hq Hw Hc. apply H2; [by apply (open_step e s s1 g E Hs Hd)|done|].
    subst g. by apply (caller_step e s s1 c E Hd Hq).
Qed.

(** C22: the server in every state that its goroutines and callers reach.  The wait group counts the
    loops that run; a running server has its loop, and [quit] is open; and in a server that is started once
    the table of peers holds exactly the identities with a goroutine of [runPeer], which has one for each. *)
Theorem server_life s (Hr : reachable s) :
  loopWG s = (count (listening s) + count (bool_decide (is_Some (loop s))))%nat /\
  (running s = true -> is_Some (loop s) /\ (started s ∉ quit_closed s)) /\
  (forall t, (started s <= 1)%nat -> loop s = Some t ->
     NoDup (id_of <$> peers s) /\ forall id, id ∈ t <-> id ∈ id_of <$> peers s).
Proof.
  pose proof (reachable_life s Hr) as Hs. split; [by apply lf_wg|]. split.
  - intros Hrun. destruct (lf_running s Hs Hrun) as (? & ? & _). done.
  - intros t Hst Ht. by apply (reachable_table s Hr Hst).
Qed.

(** C23: [Stop] and [Start] return.  Whenever [Stop] waits, at most two steps of the loops let it
    return, and both loops have ended; it neither ends the peers nor waits for them.  Whenever [Start] has nodes
    to hand over, the loop takes them. *)
Theorem Stop_returns s (Hr : reachable s) :
  (lock s = Stopping -> exists es s', (length es <= 3)%nat /\ run_events es s = Some s' /\
     lock s' = Free /\ running s' = false /\ loop s' = None /\ listening s' = false /\ peers s' = peers s) /\
  (forall n, lock s = Starting n -> exists es s', (length es <= n + 1)%nat /\ run_events es s = Some s' /\
     lock s' = Free /\ running s' = true).
Proof.
  pose proof (reachable_life s Hr) as Hs. split.
  - intros Hl. destruct (loops_end s Hs Hl) as (es & s1 & Hlen & E & Hl1 & Ho & Hli & Hrun & Hw & _ & Hp).
    exists (es ++ [EStopped]). eexists. split; [rewrite length_app; cbn; lia|].
    split; [rewrite (run_events_app _ _ _ _ E); cbn; unfold Stop_return; by rewrite Hl1, Hw|]. done.
  - intros n Hl. destruct (nodes_handed n s Hs Hl) as (s' & E & Hl' & Hrun).
    exists (replicate n (EStatic false) ++ [EStarted]), s'.
    split; [rewrite length_app, length_replicate; cbn; lia|]. done.
Qed.

(** C29: who waits for ever.  When listening fails, [Start] leaves new channels that nobody serves and nobody
    closes: every later caller of [Peers], [PeerCount], [AddPeer] or [RemovePeer], and so of [BroadcastEvent],
    waits for ever, even if the server is started again.  After [Stop] the goroutine
    of a peer that ends waits for ever to report it. *)
Theorem blocked_for_ever s (Hr : reachable s) :
  (forall n s1, running s = false -> Start true false n s = Some s1 ->
     dead (started s1) s1 /\ (started s1 ∉ quit_closed s1)) /\
  (forall g es s' id c, dead g s -> run_events es s = Some s' ->
     (Dropping g id ∈ peers s -> Dropping g id ∈ peers s') /\
     (g ∉ quit_closed s -> waits_on c = g -> c ∈ callers s -> c ∈ callers s')).
Proof.
  pose proof (reachable_life s Hr) as Hs. split.
  - intros n s1 Hrun [[? _]|(El & _ & ->)]%Start_inv; [congruence|]. cbn [andb negb].
    destruct (lf_idle s Hs Hrun El) as [Hn _]. split; [by right|]. apply (lf_future s Hs). cbn. lia.
  - intros g es s' id c Hd E. by apply (blocked_run es s s' g id c E Hs).
Qed.

(** ** Witnesses *)

Lemma reachable_events es s s' : reachable s -> run_events es s = Some s' -> reachable s'.
Proof.
  revert s. induction es as [|e es IH]; intros s Hr; cbn [run_events]; [by intros [= <-]|].
  destruct (step e s) as [s1|] eqn:E; [|done]. apply IH. by apply (reach_step s e).
Qed.

Definition ex_id : Address := replicate 20 7.
(** A peer connects. *)
Definition ex_connect : list event := [EAccept; EHandshake 0 (Some ex_id); EFind 0; EAdd 0].
Definition ex_started : list event := [EStart true true 1; EStatic false; EStarted] ++ ex_connect.
Definition ex_server (es : list event) : server := default new_server (run_events es new_server).

Lemma ex_reachable es s : run_events es new_server = Some s -> reachable s.
Proof. apply reachable_events, reach_new. Qed.

Lemma server_life_witness :
  NoDup (id_of <$> peers (ex_server ex_started)) /\ loopWG (ex_server ex_started) = 2%nat.
Proof.
  destruct (server_life (ex_server ex_started)) as (H1 & _ & H2).
  { apply (ex_reachable ex_started). vm_compute. reflexivity. }
  split; [|vm_compute; reflexivity]. apply (H2 {[ex_id]}); [vm_compute; lia|vm_compute; reflexivity].
Defined.

Lemma Stop_returns_witness : exists es s', run_events es (ex_server (ex_started ++ [EStop])) = Some s' /\
  lock s' = Free /\ peers s' = [Running ex_id].
Proof.
  destruct (Stop_returns (ex_server (ex_started ++ [EStop]))) as [H _].
  { apply (ex_reachable (ex_started ++ [EStop])). vm_compute. reflexivity. }
  destruct H as (es & s' & _ & E & Hl & _ & _ & _ & Hp); [vm_compute; reflexivity|].
  exists es, s'. split; [exact E|]. split; [exact Hl|]. rewrite Hp. vm_compute. reflexivity.
Defined.

(** The caller still waits after a later start that succeeds. *)
Lemma blocked_for_ever_witness : exists s',
  run_events [EStart true true 0; EStarted] (ex_server [EStart true false 0; EPeers]) = Some s' /\
  running s' = true /\ InPeerOp 1 ∈ callers s'.
Proof.
  destruct (blocked_for_ever (ex_server [EStart true false 0; EPeers])) as [_ H].
  { apply (ex_reachable [EStart true false 0; EPeers]). vm_compute. reflexivity. }
  exists (ex_server ([EStart true false 0; EPeers] ++ [EStart true true 0; EStarted])).
  assert (E : run_events [EStart true true 0; EStarted] (ex_server [EStart true false 0; EPeers]) =
    Some (ex_server ([EStart true false 0; EPeers] ++ [EStart true true 0; EStarted]))) by (vm_compute; reflexivity).
  split; [exact E|]. split; [vm_compute; reflexivity|].
  assert (Hd : dead 1 (ex_server [EStart true false 0; EPeers])) by (right; vm_compute; by split).
  destruct (H 1%nat _ _ ex_id (InPeerOp 1) Hd E) as [_ H'].
  apply H'; [|reflexivity|]; apply (bool_decide_unpack _); vm_compute; exact I.
Defined.

(** The server is not meant to be used again after [Stop], but [Start] does not refuse.  A peer of the first
    start that ends in the second removes its namesake from the table: one peer runs without
    an entry, and a second goroutine for the same identity is started. *)
Example restart_confuses : exists s t,
  run_events (ex_started ++ [EStop; EQuit; EAcceptError; EStopped; EStart true true 0; EStarted] ++ ex_connect ++
    [EEnded 0; EDrop 0] ++ ex_connect) new_server = Some s /\
  loop s = Some t /\ peers s = [Running ex_id; Running ex_id].
Proof. eexists _, _. split; [vm_compute; reflexivity|]. split; reflexivity. Qed.
