(* ===== verification/Node.v ===== *)
(** * The node: [src/node/node.go]

    One turn of the loop of [EventHandle]: what the [select] receives decides the
    case.  A [go f(x)] is listed as started with the values of the call; it runs
    later, in any order.  The local variables of the loop are kept from one turn
    to the next.  The timers themselves are left out: they may run off at any
    turn. *)

From S2P Require Import Prelude RlpTypes RlpEncode RlpRaw RlpStream RlpDecode.
From S2P Require Import RlpTyped Types Graph Jigsaw JigsawSpec Wire Peer PeerSpec.
Local Open Scope Z_scope.

(** [et], [ty] and [roundComming]. *)
Record node_vars := MkVars { et : option Event; ty : Z; roundComming : bool }.

Definition start_vars : node_vars := MkVars None 0 false.

(** The case that the [select] takes; [now] and [rnd] are for [ComposeEvent]. *)
Inductive selected :=
| SelNorm
| SelWitnessL
| SelWitnessR
| SelOnlyTime (now : Z) (rnd : nat)
| SelOverFlow (now : Z) (rnd : nat)
| SelRequest.

Inductive started :=
| GoBroadcast (e : Event) (eventType : Z)
| GoRequest (base : Address) (hash : Hash)
| GoAddEvent (e : Event) (ty : Z).

(** Receiving; on an empty channel the case is not taken. *)
Definition recv {A} (chan : JPGraph -> list A) (set : list A -> JPGraph -> JPGraph) : JM A :=
  l ← get chan;
  match l with
  | [] => stops Blocked
  | x :: l' => _ ← modify (set l'); mret x
  end.

Definition CurrentRound : JM Z := get currentIdx.

(** One turn.  [unhandled] is the length of the slice [transUnHandled], which is
    read once, before the loop. *)
Definition EventHandle (unhandled : nat) (sel : selected) (v : node_vars)
    : JM (node_vars * list started) :=
  '(v, out) ←
    (match sel with
     | SelNorm =>
         e ← recv eventNorm set_eventNorm;
         mret (MkVars (Some e) Normal (roundComming v), [])
     | SelWitnessL =>
         e ← recv witnessL set_witnessL;
         mret (MkVars (Some e) WitnessLocal (roundComming v), [GoBroadcast e Witness])
     | SelWitnessR =>
         e ← recv witnessR set_witnessR;
         z ← read_big (RoundID e);
         cur ← CurrentRound;
         mret (MkVars (Some e) Witness (if z =? cur + 1 then true else roundComming v), [])
     | SelOnlyTime now rnd =>
         e ← ComposeEvent now rnd;
         mret (MkVars (Some e) (ty v) false,
               [GoBroadcast e (if roundComming v then Witness else Normal)])
     | SelOverFlow now rnd =>
         if (MaxTransInEvent <? unhandled)%nat then
           e ← ComposeEvent now rnd; mret (MkVars (Some e) (ty v) false, [])
         else mret (v, [])
     | SelRequest =>
         req ← recv RequestChan set_RequestChan;
         mret (v, [GoRequest (TargetAddr req) (TargetHash req)])
     end);
  mret (v, out ++ match et v with
                  | Some e => if negb (ty v =? WitnessLocal) then [GoAddEvent e (ty v)] else []
                  | None => []
                  end).

(** A number of turns. *)
Fixpoint turns (unhandled : nat) (sels : list selected) (v : node_vars)
    : JM (node_vars * list started) :=
  match sels with
  | [] => mret (v, [])
  | sel :: sels' =>
      '(v', out) ← EventHandle unhandled sel v;
      '(v'', out') ← turns unhandled sels' v';
      mret (v'', out ++ out')
  end.

(** ** Lemmas *)

Section Turns.

(** Turns that do not receive an event. *)
Definition no_event (sel : selected) : bool :=
  match sel with SelNorm | SelWitnessL | SelWitnessR => false | _ => true end.

Definition adds (out : list started) : list (Event * Z) :=
  omap (fun g => match g with GoAddEvent e t => Some (e, t) | _ => None end) out.

Lemma adds_app l1 l2 : adds (l1 ++ l2) = adds l1 ++ adds l2.
Proof. apply omap_app. Qed.

(** The type stays, and what is added has it. *)
Lemma turn_type n sel v jp v' out jp' :
  no_event sel = true -> EventHandle n sel v jp = (Ok (v', out), jp') ->
  ty v' = ty v /\ adds out = match et v' with
    | Some e => if ty v =? WitnessLocal then [] else [(e, ty v)] | None => [] end.
Proof.
  intros Hsel H. unfold EventHandle in H. apply JM_bind_inv in H as ([v1 o1] & jp1 & H1 & H).
  injection H as <- <- <-. rewrite adds_app.
  assert (Hv : ty v1 = ty v /\ adds o1 = []).
  { destruct sel; try done; cbv iota in H1.
    - apply JM_bind_inv in H1 as (e & jp2 & _ & [= <- <- _]). done.
    - destruct (MaxTransInEvent <? n)%nat.
      + apply JM_bind_inv in H1 as (e & jp2 & _ & [= <- <- _]). done.
      + by injection H1 as <- <- _.
    - apply JM_bind_inv in H1 as (e & jp2 & _ & [= <- <- _]). done. }
  destruct Hv as [Ht ->]. rewrite Ht. split; [done|].
  destruct (et v1); [|done]. by destruct (ty v =? WitnessLocal).
Qed.

Lemma turns_type n sels v jp v' out jp' :
  forallb no_event sels = true -> turns n sels v jp = (Ok (v', out), jp') ->
  ty v' = ty v /\ Forall (fun p => p.2 = ty v) (adds out) /\
  (ty v = WitnessLocal -> adds out = []).
Proof.
  revert v jp out. induction sels as [|sel sels IH]; intros v jp out Hs H; cbn [turns] in H.
  { injection H as <- <- _. split; [done|]. by split; [constructor|]. }
  apply andb_prop in Hs as [Hs1 Hs2].
  apply JM_bind_inv in H as ([v1 o1] & jp1 & H1 & H).
  apply JM_bind_inv in H as ([v2 o2] & jp2 & H2 & H). injection H as <- <- <-.
  destruct (turn_type _ _ _ _ _ _ _ Hs1 H1) as [Ht1 Ha1].
  destruct (IH _ _ _ Hs2 H2) as (Ht2 & Ha2 & Hn). rewrite Ht1 in *.
  split; [done|]. rewrite adds_app. split.
  - apply Forall_app. split; [|done]. rewrite Ha1. destruct (et v1); [|constructor].
    destruct (_ =? _); by repeat constructor.
  - intros Hw. rewrite (Hn Hw), app_nil_r, Ha1, Hw. by destruct (et v1).
Qed.

(** An event message from which no round number could be decoded. *)
Definition no_round (type_name : gtype -> string) (msg : Msg bytes) : Prop :=
  Code msg = eventMsg /\ Type_ msg = Witness /\
  round_of (decode_into type_name msg TEvent) = None.

Lemma no_round_handled type_name order msg jp :
  no_round type_name msg -> (length (witnessR jp) < MaxChanItem)%nat ->
  exists e, handle type_name order msg jp =
    (Ok (None, []), set_witnessR (witnessR jp ++ [e]) jp) /\ RoundID e = None.
Proof.
  intros (Hc & Ht & Hr) Hroom. exists (event_of (decode_into type_name msg TEvent) None).
  split.
  - unfold handle. rewrite Hc, Ht.
    change (eventMsg =? pingMsg) with false. change (eventMsg =? pongMsg) with false.
    change (eventMsg =? discMsg) with false. change (eventMsg =? eventMsg) with true.
    cbv beta iota. unfold store_event. rewrite Hr.
    rewrite (JM_bind_ok (mret _) _ jp _ jp eq_refl). change (ChanEvent Witness) with
      (Some (send witnessR set_witnessR)). cbv iota.
    rewrite (JM_bind_ok (send witnessR set_witnessR _) _ jp tt
      (set_witnessR (witnessR jp ++ [event_of (decode_into type_name msg TEvent) None]) jp)).
    + done.
    + unfold send, mbind, JM_bind, get, modify. apply Nat.ltb_lt in Hroom. by rewrite Hroom.
  - unfold event_of. by repeat case_match.
Qed.

End Turns.

(** ** Properties *)

(** The type under which an own event is added is the type of the event that
    was received last.  As long as the loop only composes events, sends requests
    and waits, every event it adds gets that type, whatever type it is broadcast
    with; and after a local witness was received, none of the composed events is
    added to the graph at all. *)
Theorem own_events_type n sels v jp v' out jp' (Hs : forallb no_event sels = true)
    (H : turns n sels v jp = (Ok (v', out), jp')) :
  ty v' = ty v /\ Forall (fun p => p.2 = ty v) (adds out) /\
  (ty v = WitnessLocal -> adds out = []) /\
  (forall now rnd e jp1, ComposeEvent now rnd jp' = (Ok e, jp1) ->
     exists out', EventHandle n (SelOnlyTime now rnd) v' jp' =
         (Ok (MkVars (Some e) (ty v) false, out'), jp1) /\
       In (GoBroadcast e (if roundComming v' then Witness else Normal)) out' /\
       adds out' = if ty v =? WitnessLocal then [] else [(e, ty v)]).
Proof.
  destruct (turns_type _ _ _ _ _ _ _ Hs H) as (Ht & Ha & Hn).
  split; [done|]. split; [done|]. split; [done|]. intros now rnd e jp1 Hc.
  eexists. unfold EventHandle. rewrite (JM_bind_ok _ _ jp' (MkVars (Some e) (ty v') false,
    [GoBroadcast e (if roundComming v' then Witness else Normal)]) jp1)
    by (by rewrite (JM_bind_ok _ _ _ _ _ Hc)).
  rewrite Ht. split; [reflexivity|]. split; [by left|].
  cbn. by destruct (ty v =? WitnessLocal).
Qed.

(** After a local witness, two events are composed and broadcast, and none is
    added. *)
Lemma own_events_type_witness :
  match turns 0 [SelOnlyTime 5 0; SelOnlyTime 6 0] (MkVars None WitnessLocal false) ex_graph with
  | (Ok (v', out), _) => adds out = [] /\ length out = 2%nat
  | _ => False
  end.
Proof.
  assert (E : match turns 0 [SelOnlyTime 5 0; SelOnlyTime 6 0] (MkVars None WitnessLocal false)
    ex_graph with (Ok (_, out), _) => length out = 2%nat | _ => False end)
    by (vm_compute; reflexivity).
  destruct (turns _ _ _ _) as [[[v' out]|st] jp'] eqn:H; [|exact E].
  split; [|exact E].
  apply (own_events_type 0 [SelOnlyTime 5 0; SelOnlyTime 6 0] (MkVars None WitnessLocal false)
    ex_graph v' out jp' eq_refl H). reflexivity.
Defined.

(** C31: a message from another node can stop this node.  An event message with
    the type of a witness, from which no round number is decoded, is accepted, and
    when the loop of the node comes to it, the node panics; an empty payload is
    such a message, and so is an empty list. *)
Theorem malformed_witness_panics type_name order msg jp n v
    (Hm : no_round type_name msg) (Hw : witnessR jp = []) :
  exists jp', handle type_name order msg jp = (Ok (None, []), jp') /\
    (EventHandle n SelWitnessR v jp').1 = Err Panic /\
    no_round type_name (MkMsg eventMsg Witness 0 []) /\
    no_round type_name (MkMsg eventMsg Witness 1 [0xC0]).
Proof.
  destruct (no_round_handled type_name order msg jp Hm) as (e & E & Hr).
  { rewrite Hw. cbn. unfold MaxChanItem. lia. }
  exists (set_witnessR (witnessR jp ++ [e]) jp). split; [exact E|]. rewrite Hw.
  split; [|done]. unfold EventHandle, recv, read_big, mbind, JM_bind, get. cbn. by rewrite Hr.
Qed.

Lemma malformed_witness_panics_witness :
  exists jp', handle (fun _ => ""%string) map_to_list (MkMsg eventMsg Witness 0 []) ex_graph =
      (Ok (None, []), jp') /\ (EventHandle 0 SelWitnessR start_vars jp').1 = Err Panic.
Proof.
  destruct (malformed_witness_panics (fun _ => ""%string) map_to_list (MkMsg eventMsg Witness 0 [])
    ex_graph 0 start_vars ltac:(done) eq_refl) as (jp' & E & P & _).
  exists jp'. split; [exact E|exact P].
Defined.
