(* ===== verification/System.v ===== *)
(** * The running node

    All parts of a node together: messages from peers, the loop of the node, the
    goroutines that add events, the loops of the round manager and the arrival of
    transactions take turns in any order.  In every state that is reached the
    graph is well-formed and the queue holds the rounds without a gap. *)

From S2P Require Import Prelude RlpTypes RlpEncode RlpRaw RlpStream RlpDecode Keccak.
From S2P Require Import Sponge Types Graph Jigsaw JigsawSpec Round Search RoundLoops.
From S2P Require Import RoundRest Wire Peer PeerSpec Node.
Local Open Scope Z_scope.
#[local] Opaque keccak_f keccakF1600 Event_Hash ex_one.

(** ** What operations leave alone *)

Section Views.

(** What the queue of rounds depends on. *)
Definition round_view (rd : Round) : Z * nat * option nat := (index rd, r_broadness rd, bestVertex rd).
Definition rview (jp : JPGraph) : list nat * Z * nat * list (Z * nat * option nat) :=
  (queue jp, currentIdx jp, broadness jp, round_view <$> rounds jp).

Definition rounds_free (jp : JPGraph) : Prop :=
  forall r rd, rounds jp !! r = Some rd -> bestVertex rd = None.

Lemma rview_round jp jp' r rd' :
  rview jp' = rview jp -> rounds jp' !! r = Some rd' ->
  exists rd, rounds jp !! r = Some rd /\ round_view rd' = round_view rd.
Proof.
  intros [= _ _ _ Hm] Hr. assert (H : (round_view <$> rounds jp') !! r = Some (round_view rd')).
  { by rewrite list_lookup_fmap, Hr. }
  rewrite Hm, list_lookup_fmap in H. apply fmap_Some in H as (rd & Hrd & E). by exists rd.
Qed.

Lemma rview_ok jp jp' : rview jp' = rview jp -> rounds_ok jp -> rounds_ok jp'.
Proof.
  intros E R. pose proof E as [= E1 E2 E3 E4]. destruct R as [R1 R2 R3].
  split; rewrite ?E1, ?E2, ?E3; [done| |].
  - intros k r Hr. destruct (R2 k r Hr) as (rd & Hrd & Hi).
    destruct (rview_round jp' jp r rd (eq_sym E) Hrd) as (rd' & Hrd' & Hv).
    exists rd'. split; [done|]. injection Hv as Hv _ _. lia.
  - intros r rd Hr. destruct (rview_round jp jp' r rd E Hr) as (rd0 & Hr0 & Hv).
    injection Hv as _ -> _. by eapply R3.
Qed.

Lemma rview_free jp jp' : rview jp' = rview jp -> rounds_free jp -> rounds_free jp'.
Proof.
  intros E F r rd Hr. destruct (rview_round jp jp' r rd E Hr) as (rd0 & Hr0 & Hv).
  injection Hv as _ _ ->. by eapply F.
Qed.

(** The channels from which the node takes events to be added, and what is fixed. *)
Definition inbox_view (jp : JPGraph) : list Event * list Event * nat * Address :=
  (eventNorm jp, witnessR jp, broadness jp, Coinbase jp).

(** All channels of events. *)
Definition chans_view (jp : JPGraph) : list Event * list Event * list Event * nat * Address :=
  (eventNorm jp, witnessR jp, witnessL jp, broadness jp, Coinbase jp).

End Views.

(** Views that adding and composing events do not change. *)
Record stable {B} (f : JPGraph -> B) : Prop := Stable {
  st_vertices : forall l jp, f (set_vertices l jp) = f jp;
  st_columns : forall l jp, f (set_columns l jp) = f jp;
  st_bigs : forall l jp, f (set_bigs l jp) = f jp;
  st_graph : forall l jp, f (set_graph l jp) = f jp;
  st_super : forall l jp, f (set_superMajority l jp) = f jp;
  st_trans : forall l jp, f (set_transUnHandled l jp) = f jp;
  st_request : forall l jp, f (set_RequestChan l jp) = f jp;
  st_created : forall l jp, f (set_SelfEventCreated l jp) = f jp;
  st_trigger : forall l jp, f (set_roundTrigger l jp) = f jp;
  st_starter : forall o jp, f (set_monitorStarter o jp) = f jp;
  st_round : forall r g rd jp, (forall rd, round_view (g rd) = round_view rd) ->
    rounds jp !! r = Some rd -> f (set_rounds (<[r := g rd]> (rounds jp)) jp) = f jp }.

Lemma stable_rview : stable rview.
Proof.
  split; try done. intros r g rd jp Hg Hr.
  assert (E : round_view <$> <[r := g rd]> (rounds jp) = round_view <$> rounds jp).
  { rewrite list_fmap_insert, Hg. apply list_insert_id. by rewrite list_lookup_fmap, Hr. }
  transitivity (queue jp, currentIdx jp, broadness jp, round_view <$> <[r := g rd]> (rounds jp));
    [reflexivity|]. by rewrite E.
Qed.

Lemma stable_inbox : stable inbox_view.
Proof. by split. Qed.
Lemma stable_chans : stable chans_view.
Proof. by split. Qed.

Create HintDb stable discriminated.
#[local] Hint Resolve st_vertices st_columns st_bigs st_graph st_super st_trans st_request
  st_created st_trigger st_starter : stable.

Section Operations.

Context {B : Type} (f : JPGraph -> B) (S : stable f).

Lemma sv_get_vertex v : keeps f (get_vertex v).
Proof. apply keeps_bind; eauto with keeps. Qed.
Lemma sv_get_column c : keeps f (get_column c).
Proof. apply keeps_bind; eauto with keeps. Qed.
Lemma sv_get_round r : keeps f (get_round r).
Proof. apply keeps_bind; eauto with keeps. Qed.
Lemma sv_read_big p : keeps f (read_big p).
Proof. apply keeps_bind; eauto with keeps. Qed.
Lemma sv_upd_vertex v g : keeps f (upd_vertex v g).
Proof. apply keeps_bind; [apply sv_get_vertex|]. intros x. apply keeps_modify. eauto with stable. Qed.
Lemma sv_upd_column c g : keeps f (upd_column c g).
Proof. apply keeps_bind; [apply sv_get_column|]. intros x. apply keeps_modify. eauto with stable. Qed.

Lemma sv_upd_round r g :
  (forall rd, round_view (g rd) = round_view rd) -> keeps f (upd_round r g).
Proof.
  intros Hg jp x jp'. unfold upd_round, get_round, mbind, JM_bind, get, modify.
  destruct (rounds jp !! r) as [rd|] eqn:Hr; [|done]. intros [= _ <-]. by apply (st_round f S).
Qed.

Lemma sv_find_round rid q : keeps f (find_round rid q).
Proof.
  induction q as [|r q IH]; cbn [find_round]; [eauto with keeps|].
  apply keeps_bind; [apply sv_get_round|]. intros rd.
  apply keeps_bind; [apply sv_read_big|]. intros z. case_match; eauto with keeps.
Qed.

Lemma sv_all_witnesses w i n : keeps f (all_witnesses w i n).
Proof.
  revert i. induction n as [|n IH]; intros i; cbn [all_witnesses]; [eauto with keeps|].
  apply keeps_bind; [eauto with keeps|]. intros [x|]; eauto with keeps.
Qed.

Lemma sv_new_vertex v : keeps f (new_vertex v).
Proof. intros jp x jp' [= _ <-]. by apply (st_vertices f S). Qed.
Lemma sv_new_big z : keeps f (new_big z).
Proof. intros jp x jp' [= _ <-]. by apply (st_bigs f S). Qed.
Lemma sv_write_big p z : keeps f (write_big p z).
Proof.
  apply keeps_bind; [eauto with keeps|]. intros n. apply keeps_bind; [eauto with keeps|].
  intros l. apply keeps_bind; [eauto with keeps|]. intros _. apply keeps_modify. eauto with stable.
Qed.

Lemma sv_send {A} (chan : JPGraph -> list A) set x :
  (forall l jp, f (set l jp) = f jp) -> keeps f (send chan set x).
Proof.
  intros H. apply keeps_bind; [eauto with keeps|]. intros l.
  destruct (_ <? _)%nat; [by apply keeps_modify|eauto with keeps].
Qed.

#[local] Hint Resolve keeps_ret keeps_stops keeps_get keeps_deref sv_get_vertex sv_get_column
  sv_get_round sv_read_big sv_upd_vertex sv_upd_column sv_new_vertex sv_new_big sv_write_big
  : stable.
#[local] Hint Extern 3 (keeps f (send _ _ _)) => apply sv_send : stable.
#[local] Hint Extern 3 (keeps f (modify _)) => apply keeps_modify; intros ? : stable.
#[local] Hint Extern 3 (keeps f (upd_round _ _)) => by apply sv_upd_round : stable.

(** Walks through a program and applies these lemmas. *)
Local Ltac keep_step :=
  first
  [ solve [eauto with stable]
  | apply keeps_bind; [|intros ?]
  | case_match ].
Local Ltac keep := repeat keep_step.

Lemma sv_AddNode a : keeps f (AddNode a).
Proof. unfold AddNode. keep. Qed.

Lemma sv_addComer r q : keeps f (addComer r q).
Proof. unfold addComer. keep. Qed.

Lemma sv_search rid q o : keeps f (search_round rid q o).
Proof. revert o. induction q as [|r q IH]; intros o; cbn [search_round]; keep. Qed.

Lemma sv_link v l : keeps f (link_lost v l).
Proof. induction l as [|w l IH]; cbn [link_lost]; keep. Qed.

Lemma sv_AddEvent_round r vert sc fw lp t : keeps f (AddEvent_round r vert sc fw lp t).
Proof.
  unfold AddEvent_round, set_round_witness. pose proof sv_addComer. pose proof sv_link. keep.
Qed.

Lemma sv_AddEvent e t : keeps f (AddEvent e t).
Proof.
  unfold AddEvent, AddEvent_insert, RequestParentEvent.
  pose proof sv_AddNode. pose proof sv_search. pose proof sv_AddEvent_round. keep.
Qed.

Lemma sv_ComposeEvent now rnd : keeps f (ComposeEvent now rnd).
Proof. unfold ComposeEvent, take_transactions, RandParent. keep. Qed.

Context (order : gmap Address nat -> list (Address * nat)).

Lemma sv_find_starter fuel chain idx s st : keeps f (find_starter fuel chain idx s st).
Proof. revert s. induction fuel as [|fuel IH]; intros [v|]; cbn [find_starter]; keep. Qed.

Lemma sv_whiten fuel chain idx cc s : keeps f (whiten fuel chain idx cc s).
Proof. revert s. induction fuel as [|fuel IH]; intros [v|]; cbn [whiten]; keep. Qed.

Lemma sv_clear idx cc : keeps f (clearColorDFS order idx cc).
Proof.
  apply keeps_bind; [eauto with stable|]. intros g. generalize (map snd (order g)) (@None nat).
  pose proof sv_find_starter. pose proof sv_whiten.
  intros cols. induction cols as [|c cols IH]; intros st; cbn [clear_loop]; unfold walk_fuel; keep.
Qed.

Lemma sv_dfsVisit fuel trace s e cc : keeps f (dfsVisit fuel trace s e cc).
Proof.
  revert trace s. induction fuel as [|fuel IH]; intros trace [v|]; cbn [dfsVisit];
    unfold mark; keep.
Qed.

Lemma sv_JudgeSee s e cc : keeps f (JudgeSee s e cc).
Proof. pose proof sv_dfsVisit. unfold JudgeSee, walk_fuel. keep. Qed.

Lemma sv_count_strong r idx starter i n k : keeps f (count_strong order r idx starter i n k).
Proof.
  pose proof sv_clear. pose proof sv_JudgeSee.
  revert i k. induction n as [|n IH]; intros i k; cbn [count_strong]; keep.
Qed.

(** The event of a local witness goes into a channel. *)
Lemma sv_MonitorLoop r num : (forall l jp, f (set_witnessL l jp) = f jp) -> keeps f (MonitorLoop order r num).
Proof. intros Hl. pose proof sv_count_strong. unfold MonitorLoop. keep. Qed.

End Operations.

(** ** Operations of the loops keep the graph well-formed *)

Section Preserves.

Definition preserves {A} (P : JPGraph -> Prop) (m : JM A) : Prop :=
  forall jp x jp', P jp -> m jp = (Ok x, jp') -> P jp'.

Lemma preserves_bind {A A'} P (m : JM A) (k : A -> JM A') :
  preserves P m -> (forall x, preserves P (k x)) -> preserves P (m ≫= k).
Proof.
  intros Hm Hk jp y jp' HP H. apply JM_bind_inv in H as (x & jp1 & H1 & H2).
  eapply Hk; [|exact H2]. by eapply Hm.
Qed.
Lemma preserves_keeps {A B} (f : JPGraph -> B) P (m : JM A) :
  (forall jp jp', f jp' = f jp -> P jp -> P jp') -> keeps f m -> preserves P m.
Proof. intros HP Hk jp x jp' H E. eapply HP; [|exact H]. by eapply Hk. Qed.
Lemma preserves_ret {A} P (a : A) : preserves P (mret a).
Proof. by intros jp x jp' HP [= _ <-]. Qed.
Lemma preserves_stops {A} P st : preserves P (@stops A st).
Proof. by intros jp x jp'. Qed.
Lemma preserves_get {A} P (g : JPGraph -> A) : preserves P (get g).
Proof. by intros jp x jp' HP [= _ <-]. Qed.
Lemma preserves_deref {A} P (o : option A) : preserves P (deref o).
Proof. destruct o; [apply preserves_ret|apply preserves_stops]. Qed.
Lemma preserves_modify P g : (forall jp, P jp -> P (g jp)) -> preserves P (modify g).
Proof. intros H jp x jp' HP [= _ <-]. by apply H. Qed.

Lemma preserves_send {A} P (chan : JPGraph -> list A) set x :
  (forall l jp, P jp -> P (set l jp)) -> preserves P (send chan set x).
Proof.
  intros H. apply preserves_bind; [apply preserves_get|]. intros l.
  destruct (_ <? _)%nat; [by apply preserves_modify; auto|apply preserves_stops].
Qed.

End Preserves.

Section Searches.

Context (order : gmap Address nat -> list (Address * nat)) (jp0 : JPGraph).

Definition good_growth (jp : JPGraph) : Prop := inv jp /\ grows jp0 jp.

Lemma pv_vertex v : preserves good_growth (get_vertex v).
Proof. apply preserves_bind; [apply preserves_get|]. intros l. apply preserves_deref. Qed.
Lemma pv_column c : preserves good_growth (get_column c).
Proof. apply preserves_bind; [apply preserves_get|]. intros l. apply preserves_deref. Qed.
Lemma pv_round r : preserves good_growth (get_round r).
Proof. apply preserves_bind; [apply preserves_get|]. intros l. apply preserves_deref. Qed.
Lemma pv_big p : preserves good_growth (read_big p).
Proof.
  apply preserves_bind; [apply preserves_deref|]. intros n.
  apply preserves_bind; [apply preserves_get|]. intros l. apply preserves_deref.
Qed.

(** Changing the colour or the mark of a vertex. *)
Lemma pv_upd_vertex v g :
  (forall vx, g vx = set_witness (witness (g vx)) (set_color (color (g vx)) vx) /\
     length (color (g vx)) = length (color vx)) ->
  preserves good_growth (upd_vertex v g).
Proof.
  intros Hg jp x jp' [I G]. unfold upd_vertex, get_vertex, mbind, JM_bind, get, modify.
  destruct (vertices jp !! v) as [vx|] eqn:Hv; [|done]. intros [= _ <-].
  destruct (Hg vx) as [E Hl].
  destruct (inv_upd_vertex jp v vx (g vx) I Hv) as [I' G'].
  - by rewrite E.
  - destruct (inv_vertex jp I v vx Hv) as [K1 K2 K3 K4 K5 K6 K7]. rewrite E. split; try done.
    cbn. congruence.
  - split; [done|]. by eapply grows_trans.
Qed.

Lemma pv_paint v cc k : preserves good_growth (upd_vertex v (paint cc k)).
Proof. apply pv_upd_vertex. intros vx. split; [by destruct vx|]. apply length_insert. Qed.

Lemma pv_witness v w : preserves good_growth (upd_vertex v (set_witness w)).
Proof. apply pv_upd_vertex. intros vx. by destruct vx. Qed.

Lemma good_chan jp jp' :
  good_growth jp -> graph jp' = graph jp -> columns jp' = columns jp -> vertices jp' = vertices jp ->
  bigs jp' = bigs jp -> rounds jp' = rounds jp -> queue jp' = queue jp ->
  superMajority jp' = superMajority jp -> Coinbase jp' = Coinbase jp -> good_growth jp'.
Proof.
  intros [I G] E1 E2 E3 E4 E5 E6 E7 E8. destruct (inv_chan jp jp' I) as [I' G']; try done.
  split; [done|]. by eapply grows_trans.
Qed.

#[local] Hint Resolve preserves_ret preserves_stops preserves_get preserves_deref pv_vertex pv_column
  pv_round pv_big pv_paint pv_witness : stable.
#[local] Hint Extern 3 (preserves good_growth (modify _)) =>
  apply preserves_modify; intros ? ?; by eapply good_chan : stable.
#[local] Hint Extern 3 (preserves good_growth (send _ _ _)) =>
  apply preserves_send; intros ? ? ?; by eapply good_chan : stable.

Local Ltac pres :=
  repeat first
  [ solve [eauto with stable]
  | apply preserves_bind; [|intros ?]
  | case_match ].

Lemma pv_find_starter fuel chain idx s st : preserves good_growth (find_starter fuel chain idx s st).
Proof. revert s. induction fuel as [|fuel IH]; intros [v|]; cbn [find_starter]; pres. Qed.

Lemma pv_whiten fuel chain idx cc s : preserves good_growth (whiten fuel chain idx cc s).
Proof. revert s. induction fuel as [|fuel IH]; intros [v|]; cbn [whiten]; pres. Qed.

Lemma pv_clear idx cc : preserves good_growth (clearColorDFS order idx cc).
Proof.
  apply preserves_bind; [eauto with stable|]. intros g. generalize (map snd (order g)) (@None nat).
  pose proof pv_find_starter. pose proof pv_whiten.
  intros cols. induction cols as [|c cols IH]; intros st; cbn [clear_loop]; unfold walk_fuel; pres.
Qed.

Lemma pv_dfsVisit fuel trace s e cc : preserves good_growth (dfsVisit fuel trace s e cc).
Proof.
  revert trace s. induction fuel as [|fuel IH]; intros trace [v|]; cbn [dfsVisit];
    unfold mark; pres.
Qed.

Lemma pv_JudgeSee s e cc : preserves good_growth (JudgeSee s e cc).
Proof. pose proof pv_dfsVisit. unfold JudgeSee, walk_fuel. pres. Qed.

Lemma pv_count_strong r idx starter i n k :
  preserves good_growth (count_strong order r idx starter i n k).
Proof.
  pose proof pv_clear. pose proof pv_JudgeSee.
  revert i k. induction n as [|n IH]; intros i k; cbn [count_strong]; pres.
Qed.

Lemma pv_MonitorLoop r num : preserves good_growth (MonitorLoop order r num).
Proof. pose proof pv_count_strong. unfold MonitorLoop. pres. Qed.

End Searches.

Section RoundTurn.

Lemma run_get_vertex v vx jp jp' :
  get_vertex v jp = (Ok vx, jp') -> vertices jp !! v = Some vx /\ jp' = jp.
Proof.
  unfold get_vertex, mbind, JM_bind, get. cbn. by destruct (vertices jp !! v); intros [= <- <-].
Qed.

Lemma run_read_big p z jp jp' :
  read_big p jp = (Ok z, jp') -> exists n, p = Some n /\ bigs jp !! n = Some z /\ jp' = jp.
Proof.
  unfold read_big, mbind, JM_bind, get. destruct p as [n|]; [|done]. cbn.
  destruct (bigs jp !! n) eqn:E; [|done]. intros [= <- <-]. by exists n.
Qed.

(** A turn of [RoundLoop] that returned. *)
Lemma RoundLoop_ok jp jp' :
  inv jp -> rounds_ok jp -> (base.size (graph jp) <= MaxNodeCount)%nat ->
  (broadness jp <= MaxNodeCount)%nat -> RoundLoop jp = (Ok tt, jp') ->
  inv jp' /\ grows jp jp' /\ rounds_ok jp'.
Proof.
  intros I R Hs Hb E.
  assert (H : exists vert ch vx n z, roundTrigger jp = vert :: ch /\
    vertices jp !! vert = Some vx /\ RoundID (v_event vx) = Some n /\ bigs jp !! n = Some z).
  { unfold RoundLoop in E. apply JM_bind_inv in E as (ch & jp1 & [= <- <-] & E).
    destruct (roundTrigger jp) as [|vert ch]; [done|].
    apply JM_bind_inv in E as ([] & jp1 & [= <-] & E).
    apply JM_bind_inv in E as (vx & jp2 & Hv & E). apply run_get_vertex in Hv as [Hv ->].
    apply JM_bind_inv in E as (z & jp3 & Hz & E). apply run_read_big in Hz as (n & Hn & Hz & _).
    by exists vert, ch, vx, n, z. }
  destruct H as (vert & ch & vx & n & z & Hch & Hv & Hn & Hz).
  pose proof (RoundLoop_wp jp vert ch vx n z I R Hch Hv Hn Hz Hs Hb) as H.
  cbv zeta in H. unfold wp in H. rewrite E in H.
  destruct H as (jp2 & [(I2 & G2 & R2) _ _ _ _ _] & (I3 & G3 & R3 & _)).
  split; [done|]. split; [by eapply grows_trans|done].
Qed.

Lemma RoundLoop_chans : keeps chans_view RoundLoop.
Proof.
  unfold RoundLoop, set_round_witness.
  repeat first
  [ solve [eauto with keeps] | apply sv_get_vertex | apply sv_read_big | apply sv_get_round
  | apply sv_find_round | apply sv_all_witnesses | apply (sv_write_big _ stable_chans)
  | apply (sv_upd_round _ stable_chans); intros ?; reflexivity
  | by apply keeps_modify | by apply sv_send | by intros ? ? ? [= _ <-]
  | apply keeps_bind; [|intros ?] | case_match ].
Qed.

Lemma RoundLoop_inbox : keeps inbox_view RoundLoop.
Proof. intros jp x jp' E. pose proof (RoundLoop_chans jp x jp' E) as [= H1 H2 _ H3 H4]. unfold inbox_view. congruence. Qed.

Lemma free_upd_round r g :
  (forall rd, bestVertex (g rd) = bestVertex rd) -> preserves rounds_free (upd_round r g).
Proof.
  intros Hg jp x jp' F. unfold upd_round, get_round, mbind, JM_bind, get, modify.
  destruct (rounds jp !! r) as [rd|] eqn:Hr; [|done]. intros [= _ <-] q qd. cbn.
  intros [(<- & <- & _)|[_ Hq]]%list_lookup_insert_Some; [|by eapply F].
  rewrite Hg. by eapply F.
Qed.

Lemma free_new_round b i : preserves rounds_free (new_round (NewRound b i)).
Proof.
  intros jp x jp' F [= _ <-] r rd. cbn. rewrite lookup_app_Some.
  intros [H|[_ [_ <-]%list_lookup_singleton_Some]]; [by eapply F|done].
Qed.

Lemma RoundLoop_free : preserves rounds_free RoundLoop.
Proof.
  unfold RoundLoop, set_round_witness.
  assert (Hk : forall A (m : JM A), keeps rounds m -> preserves rounds_free m).
  { intros A m. apply preserves_keeps. unfold rounds_free. by intros jp jp' ->. }
  assert (Hw : forall p z, keeps rounds (write_big p z)).
  { intros p z. apply keeps_bind; [eauto with keeps|]. intros n. apply keeps_bind; [eauto with keeps|].
    intros l. apply keeps_bind; [eauto with keeps|]. intros _. by apply keeps_modify. }
  repeat first
  [ apply preserves_ret | apply preserves_stops | apply preserves_get | apply preserves_deref
  | apply free_new_round | apply free_upd_round; done
  | apply Hk; first [apply sv_get_vertex | apply sv_read_big | apply sv_get_round | apply sv_find_round
                    | apply sv_all_witnesses | apply Hw | by apply keeps_modify | by apply sv_send]
  | apply preserves_bind; [|intros ?] | case_match ].
Qed.

End RoundTurn.

(** ** Events that can be added *)

Section Sizes.

Lemma header_le a b n : 0 <= n < 2 ^ 64 -> zlen (rlp_header a b n) <= 9.
Proof.
  intros Hn. unfold rlp_header. case_match; [done|]. cbn [length].
  rewrite length_be_min. pose proof (nbytes_le n 8 ltac:(change (256 ^ Z.of_nat 8) with (2 ^ 64); lia)).
  lia.
Qed.

Lemma rlp_list_le p : zlen p < 2 ^ 64 -> zlen (rlp_list p) <= 9 + zlen p.
Proof.
  intros Hp. unfold rlp_list. rewrite zlen_app. pose proof (header_le 0xC0 0xF7 (zlen p)). lia.
Qed.

Lemma rlp_string_le b : zlen b < 2 ^ 64 -> zlen (rlp_string b) <= 9 + zlen b.
Proof.
  intros Hb. unfold rlp_string.
  pose proof (header_le 0x80 0xB7 (zlen b)). pose proof (header_le 0x80 0xB7 1).
  repeat case_match; rewrite ?zlen_app; cbn [length] in *; lia.
Qed.

Lemma Event_Hash_ok e : event_ok e -> length (Event_Hash e) = HashLength /\ bytes_ok (Event_Hash e).
Proof.
  intros He. split; [by apply length_Event_Hash|]. rewrite Event_Hash_sponge by done.
  unfold sponge. apply bytes_ok_take. generalize (S (32 / 136)) (absorbed 136 1 (event_preimage e)).
  intros k. induction k as [|k IH]; intros x; cbn [squeeze]; [constructor|].
  apply bytes_ok_app. split; [|apply IH]. apply bytes_ok_take. unfold state_bytes.
  induction x as [|w x IHx]; cbn [flat_map]; [constructor|]. apply bytes_ok_app. split; [apply le_bytes_ok|done].
Qed.

(** Without transactions an event is small enough to be hashed. *)
Lemma small_event_ok e :
  0 <= default 0 (TimeStamp e) -> zlen (be_min (default 0 (TimeStamp e))) <= 2 ^ 32 ->
  length (SelfPart e) = HashLength /\ bytes_ok (SelfPart e) ->
  length (SelfSig e) = AddressLength /\ bytes_ok (SelfSig e) ->
  length (OtherPartH e) = HashLength /\ bytes_ok (OtherPartH e) ->
  Trans e = [] -> event_ok e.
Proof.
  intros H1 H2 H3 H4 H5 Ht. split; try done. unfold event_preimage, event_payload. rewrite Ht.
  cbn [flat_map]. destruct H3 as [L3 _], H4 as [L4 _], H5 as [L5 _].
  unfold HashLength, AddressLength in *.
  pose proof (rlp_string_le (be_min (default 0 (TimeStamp e))) ltac:(lia)).
  pose proof (rlp_list_le [] ltac:(cbn; lia)). cbn [length] in *.
  pose proof (rlp_string_le (SelfPart e) ltac:(lia)).
  pose proof (rlp_string_le (SelfSig e) ltac:(lia)).
  pose proof (rlp_list_le (rlp_string (SelfSig e)) ltac:(lia)).
  pose proof (rlp_string_le (OtherPartH e) ltac:(lia)).
  set (p := _ ++ _). assert (Hp : zlen p <= 2 ^ 33) by (unfold p; rewrite !zlen_app; lia).
  pose proof (rlp_list_le p ltac:(lia)). lia.
Qed.

Lemma known_hash_ok jp h : inv jp -> known_hash jp h -> length h = HashLength /\ bytes_ok h.
Proof.
  intros I [->|(a & v & c & col & Hg & Hc & Hh)].
  { split; [done|]. by apply Forall_replicate. }
  destruct (inv_column jp I a c Hg) as (col' & Hc' & K). rewrite Hc in Hc'. injection Hc' as <-.
  destruct (cok_chain _ _ _ _ K h v Hh) as (vx & Hv & <- & _).
  destruct (inv_vertex jp I v vx Hv) as [K1 K2 _ _ _ _ _]. rewrite <- K1. by apply Event_Hash_ok.
Qed.

End Sizes.

(** ** The node *)

Section Node.

Context (type_name : gtype -> string) (order_events : gmap Hash nat -> list (Hash * nat))
  (order_nodes : gmap Address nat -> list (Address * nat))
  (sort : list Address -> list Address)
  (Hevents : forall m, order_events m ≡ₚ map_to_list m) (unhandled : nat).

(** The graph; the variables of the loop of the node; the events that goroutines
    are about to add; and of the loops of the round manager the number [roundNum],
    the round that was in front, and [totalBlocks]. *)
Record node_state := MkNode {
  n_jp : JPGraph; n_vars : node_vars; n_go : list (Event * Z);
  n_num : Z; n_front : nat; n_blocks : Z }.

(** The time is that of a clock. *)
Definition time_ok (sel : selected) : Prop :=
  match sel with SelOnlyTime now _ | SelOverFlow now _ => 0 <= now < 2 ^ 63 | _ => True end.

(** One step of a goroutine that neither handles messages nor is the loop of the node: adding an event, and the loops of
    the round manager.  The loop of the rounds is considered for networks of at most 128 nodes, and events whose hash collides
    with that of another event are left out.  Nothing in the program adds transactions; they may come from outside. *)
Inductive loop_step : node_state -> node_state -> Prop :=
| Step_add jp v go1 e t go2 num fr tb res jp' :
    no_collision jp e -> AddEvent e t jp = (Ok res, jp') ->
    loop_step (MkNode jp v (go1 ++ (e, t) :: go2) num fr tb) (MkNode jp' v (go1 ++ go2) num fr tb)
| Step_round jp v go num fr tb jp' :
    (base.size (graph jp) <= MaxNodeCount)%nat -> RoundLoop jp = (Ok tt, jp') ->
    loop_step (MkNode jp v go num fr tb) (MkNode jp' v go num fr tb)
| Step_front jp v go num fr tb r q :
    queue jp = r :: q -> loop_step (MkNode jp v go num fr tb) (MkNode jp v go num r tb)
| Step_monitor jp v go num fr tb num' jp' :
    MonitorLoop order_nodes fr num jp = (Ok num', jp') ->
    loop_step (MkNode jp v go num fr tb) (MkNode jp' v go num' fr tb)
| Step_consensus jp v go num fr tb tb' jp' :
    ConsensusShow order_nodes sort tb jp = (Ok tb', jp') ->
    loop_step (MkNode jp v go num fr tb) (MkNode jp' v go num fr tb')
| Step_transactions jp v go num fr tb l :
    loop_step (MkNode jp v go num fr tb)
      (MkNode (set_transUnHandled (transUnHandled jp ++ l) jp) v go num fr tb).

(** One step of some part of the node that returns. *)
Inductive node_step : node_state -> node_state -> Prop :=
| Step_message jp v go num fr tb msg res jp' :
    msg_ok msg -> handle type_name order_events msg jp = (Ok res, jp') ->
    node_step (MkNode jp v go num fr tb) (MkNode jp' v go num fr tb)
| Step_turn jp v go num fr tb sel v' out jp' :
    time_ok sel -> EventHandle unhandled sel v jp = (Ok (v', out), jp') ->
    node_step (MkNode jp v go num fr tb) (MkNode jp' v' (go ++ adds out) num fr tb)
| Step_loop s s' : loop_step s s' -> node_step s s'.

Definition node_start (coinbase : Address) (b : nat) : node_state :=
  MkNode (NewJPGraph coinbase b) start_vars [] 0 0 0.

(** Events that [AddEvent] may be called with. *)
Definition addable (jp : JPGraph) (e : Event) : Prop :=
  event_ok (CopyEvent e) /\ forall n, RoundID e = Some n -> (n < length (bigs jp))%nat.

Definition cb_ok (a : Address) : Prop := length a = AddressLength /\ bytes_ok a.

Record graph_ok (jp : JPGraph) : Prop := GraphOk {
  go_inv : inv jp;
  go_rounds : rounds_ok jp;
  go_free : rounds_free jp;
  go_norm : Forall (addable jp) (eventNorm jp);
  go_remote : Forall (addable jp) (witnessR jp);
  go_broad : (broadness jp <= MaxNodeCount)%nat;
  go_coinbase : cb_ok (Coinbase jp) }.

(** The event of the last turn, if it is to be added. *)
Definition vars_ok (jp : JPGraph) (v : node_vars) : Prop :=
  ty v <> WitnessLocal -> forall e, et v = Some e -> addable jp e.

Record node_ok (s : node_state) : Prop := NodeOk {
  no_graph : graph_ok (n_jp s);
  no_et : vars_ok (n_jp s) (n_vars s);
  no_go : Forall (fun p => addable (n_jp s) p.1) (n_go s) }.

Lemma addable_grows jp jp' e : grows jp jp' -> addable jp e -> addable jp' e.
Proof.
  intros G [H1 H2]. split; [done|]. intros n Hn. specialize (H2 n Hn).
  pose proof (gr_bigs _ _ G). lia.
Qed.

(** A step that only adds to the graph. *)
Lemma graph_ok_step jp jp' :
  graph_ok jp -> inv jp' -> grows jp jp' -> rview jp' = rview jp -> inbox_view jp' = inbox_view jp ->
  graph_ok jp'.
Proof.
  intros [I R F N W B C] I' G Ev [= E1 E2 E3 E4].
  split; rewrite ?E1, ?E2, ?E3, ?E4; try done.
  - by eapply rview_ok.
  - by eapply rview_free.
  - eapply Forall_impl; [exact N|]. intros e. by apply addable_grows.
  - eapply Forall_impl; [exact W|]. intros e. by apply addable_grows.
Qed.

Lemma node_ok_step jp v go num fr tb jp' go' num' fr' tb' :
  node_ok (MkNode jp v go num fr tb) -> graph_ok jp' -> grows jp jp' ->
  Forall (fun p => addable jp' p.1) go' -> node_ok (MkNode jp' v go' num' fr' tb').
Proof.
  intros [Hg He Hgo] Hg' G Hgo'. split; [done| |done]. cbn in *.
  intros Ht e Hete. eapply addable_grows; [done|by apply He].
Qed.

Lemma go_grows jp jp' go :
  grows jp jp' -> Forall (fun p : Event * Z => addable jp p.1) go ->
  Forall (fun p => addable jp' p.1) go.
Proof. intros G H. eapply Forall_impl; [exact H|]. intros p. by apply addable_grows. Qed.

Lemma AddEvent_step jp e t res jp' :
  graph_ok jp -> addable jp e -> no_collision jp e -> AddEvent e t jp = (Ok res, jp') ->
  graph_ok jp' /\ grows jp jp'.
Proof.
  intros Hg [He Hr] Hn E. pose proof Hg as [I _ _ _ _ _ _].
  pose proof (AddEvent_any jp e t I He Hr) as H. unfold wp in H. rewrite E in H.
  destruct H as (I' & G & _). { intros Hv. by apply no_collision_only. }
  split; [|done]. apply (graph_ok_step jp); try done.
  - exact (sv_AddEvent rview stable_rview e t jp res jp' E).
  - exact (sv_AddEvent inbox_view stable_inbox e t jp res jp' E).
Qed.

(** What is composed can be added. *)
Lemma ComposeEvent_step jp now rnd e jp' :
  graph_ok jp -> 0 <= now < 2 ^ 63 -> ComposeEvent now rnd jp = (Ok e, jp') ->
  graph_ok jp' /\ grows jp jp' /\ addable jp' e.
Proof.
  intros Hg Hnow E. pose proof Hg as [I R F _ _ _ C].
  destruct (queue jp) as [|r q] eqn:Hq; [by destruct (inv_queue jp I)|].
  destruct (ro_index jp R 0 r) as (rd & Hrd & _); [by rewrite Hq|].
  pose proof (ComposeEvent_wp jp now rnd r q rd I Hq Hrd (F r rd Hrd)) as H.
  unfold wp in H. rewrite E in H.
  destruct H as ([[I' G] Hv Hown Hself _ [Ht _] (n & Hn & Hb & _)] & Htime & Hk).
  split; [|split; [done|]].
  - apply (graph_ok_step jp); try done.
    + exact (sv_ComposeEvent rview stable_rview now rnd jp e jp' E).
    + exact (sv_ComposeEvent inbox_view stable_inbox now rnd jp e jp' E).
  - split; [|rewrite Hn; intros m [= <-]; by eapply lookup_lt_Some].
    apply CopyEvent_ok; [|done]. apply small_event_ok; rewrite ?Htime; cbn [default from_option id].
    + lia.
    + rewrite length_be_min. pose proof (nbytes_le now 8) as Hnb.
      change (256 ^ Z.of_nat 8) with (2 ^ 64) in Hnb. lia.
    + rewrite Hself. apply (known_hash_ok jp); [done|].
      destruct (top_of jp) as [tv|] eqn:Etop; cbn; [|by left]. right.
      unfold top_of in Etop. apply bind_Some in Etop as (c & Hc & Etop).
      apply bind_Some in Etop as (col & Hcol & Etop). apply bind_Some in Etop as (v & Hvt & Htv).
      destruct (inv_column jp I _ _ Hc) as (col' & Hcol' & [_ K2 K3]).
      rewrite Hcol in Hcol'. injection Hcol' as <-. destruct (K3 v Hvt) as [h Hh].
      destruct (K2 h v Hh) as (tv' & Htv' & Hsh & _). rewrite Htv in Htv'. injection Htv' as <-.
      exists (Coinbase jp), v, c, col. by rewrite Hsh.
    + by rewrite Hown.
    + by apply (known_hash_ok jp').
    + done.
Qed.

Lemma recv_run {A} (chan : JPGraph -> list A) set jp x jp' :
  recv chan set jp = (Ok x, jp') -> exists l, chan jp = x :: l /\ jp' = set l jp.
Proof.
  unfold recv, mbind, JM_bind, get, modify. destruct (chan jp) as [|y l]; [done|].
  intros [= <- <-]. by exists l.
Qed.

(** Taking an event from one of the channels. *)
Lemma graph_ok_same jp jp' :
  graph_ok jp -> graph jp' = graph jp -> columns jp' = columns jp -> vertices jp' = vertices jp ->
  bigs jp' = bigs jp -> rounds jp' = rounds jp -> queue jp' = queue jp ->
  superMajority jp' = superMajority jp -> Coinbase jp' = Coinbase jp ->
  currentIdx jp' = currentIdx jp -> broadness jp' = broadness jp ->
  Forall (addable jp) (eventNorm jp') -> Forall (addable jp) (witnessR jp') ->
  graph_ok jp' /\ grows jp jp'.
Proof.
  intros [I R F N W B C] E1 E2 E3 E4 E5 E6 E7 E8 E9 E10 N' W'.
  destruct (inv_chan jp jp' I) as [I' G]; try done. split; [|done].
  split; rewrite ?E8, ?E10; try done.
  - by eapply rounds_ok_same.
  - intros r rd. rewrite E5. apply F.
  - eapply Forall_impl; [exact N'|]. intros e. by apply addable_grows.
  - eapply Forall_impl; [exact W'|]. intros e. by apply addable_grows.
Qed.

Lemma EventHandle_step jp sel v v' out jp' :
  graph_ok jp -> vars_ok jp v -> time_ok sel ->
  EventHandle unhandled sel v jp = (Ok (v', out), jp') ->
  graph_ok jp' /\ grows jp jp' /\ vars_ok jp' v' /\ Forall (fun p => addable jp' p.1) (adds out).
Proof.
  intros Hg Hv Ht H. pose proof Hg as [I _ _ N W _ _].
  unfold EventHandle in H. apply JM_bind_inv in H as ([v1 o1] & jp1 & H1 & H).
  injection H as <- <- <-.
  assert (Hmain : graph_ok jp1 /\ grows jp jp1 /\ vars_ok jp1 v1 /\ adds o1 = []).
  { destruct sel; cbv iota in H1.
    - apply JM_bind_inv in H1 as (e & jp2 & H2 & [= <- <- <-]).
      apply recv_run in H2 as (l & El & ->). rewrite El in N. apply Forall_cons in N as [Ha N'].
      destruct (graph_ok_same jp (set_eventNorm l jp)) as [Hg' G]; try done.
      split; [done|]. split; [done|]. split; [|done]. intros _ x [= <-]. by eapply addable_grows.
    - apply JM_bind_inv in H1 as (e & jp2 & H2 & [= <- <- <-]).
      apply recv_run in H2 as (l & El & ->).
      by destruct (graph_ok_same jp (set_witnessL l jp)) as [Hg' G].
    - apply JM_bind_inv in H1 as (e & jp2 & H2 & H1).
      apply recv_run in H2 as (l & El & ->). rewrite El in W. apply Forall_cons in W as [Ha W'].
      apply JM_bind_inv in H1 as (z & jp3 & H3 & H1). apply run_read_big in H3 as (_ & _ & _ & ->).
      apply JM_bind_inv in H1 as (c & jp4 & [= <- <-] & [= <- <- <-]).
      destruct (graph_ok_same jp (set_witnessR l jp)) as [Hg' G]; try done.
      split; [done|]. split; [done|]. split; [|done]. intros _ x [= <-]. by eapply addable_grows.
    - apply JM_bind_inv in H1 as (e & jp2 & H2 & [= <- <- <-]).
      destruct (ComposeEvent_step _ _ _ _ _ Hg Ht H2) as (Hg' & G & Ha).
      split; [done|]. split; [done|]. split; [|done]. by intros _ x [= <-].
    - destruct (MaxTransInEvent <? unhandled)%nat.
      + apply JM_bind_inv in H1 as (e & jp2 & H2 & [= <- <- <-]).
        destruct (ComposeEvent_step _ _ _ _ _ Hg Ht H2) as (Hg' & G & Ha).
        split; [done|]. split; [done|]. split; [|done]. by intros _ x [= <-].
      + injection H1 as <- <- <-. split; [done|]. split; [apply grows_refl|done].
    - apply JM_bind_inv in H1 as (e & jp2 & H2 & [= <- <- <-]).
      apply recv_run in H2 as (l & El & ->).
      by destruct (graph_ok_same jp (set_RequestChan l jp)) as [Hg' G]. }
  destruct Hmain as (Hg1 & G1 & Hv1 & Ho1). split; [done|]. split; [done|]. split; [done|].
  rewrite adds_app, Ho1. cbn [app]. destruct (et v1) as [e|] eqn:Ee; [|constructor].
  destruct (Z.eqb_spec (ty v1) WitnessLocal) as [|Hne]; cbn; [constructor|].
  constructor; [by apply Hv1|constructor].
Qed.

(** A decoded event can be added. *)
Lemma decoded_addable jp e :
  event_shape e -> zlen (be_min (default 0 (TimeStamp e))) <= 2 ^ 32 ->
  (forall n, RoundID e = Some n -> exists z, bigs jp !! n = Some z /\ 0 <= z) -> addable jp e.
Proof.
  intros [H1 H2 _ H4 H5 _] Ht Hr. split.
  - apply small_event_ok; try done. apply CopyEvent_Trans.
  - intros n Hn. destruct (Hr n Hn) as (z & Hz & _). by eapply lookup_lt_Some.
Qed.

Lemma handle_step jp msg res jp' :
  graph_ok jp -> msg_ok msg -> handle type_name order_events msg jp = (Ok res, jp') ->
  graph_ok jp' /\ grows jp jp'.
Proof.
  intros Hg Hm E. pose proof Hg as [I R F N W B C].
  pose proof (handle_wp type_name order_events msg jp I Hevents Hm) as H. unfold wp in H.
  rewrite E in H. destruct H as (I' & G & H). split; [|done].
  destruct (Code msg =? eventMsg); [|destruct H as [-> _]; done].
  destruct H as (_ & (l & b & e1 & e2 & e3 & Hb & -> & Ejp) & Hother & Hchan).
  assert (Hall : forall tp l, tp = Normal \/ tp = Witness -> chan_of tp jp = Some l ->
    Forall (addable jp) l -> exists l', chan_of tp jp' = Some l' /\ Forall (addable jp') l').
  { intros tp l0 Htp Hl HF. destruct (decide (tp = Type_ msg)) as [-> |Hne].
    - rewrite Hl in Hchan. destruct Hchan as (e & Hc & Hsh & Hts & Hr).
      exists (l0 ++ [e]). split; [exact Hc|]. apply Forall_app. split.
      + eapply Forall_impl; [exact HF|]. intros x. by apply addable_grows.
      + constructor; [by apply decoded_addable|constructor].
    - exists l0. rewrite Hother by done. split; [done|].
      eapply Forall_impl; [exact HF|]. intros x. by apply addable_grows. }
  destruct (Hall Normal _ (or_introl eq_refl) eq_refl N) as (l1 & [= <-] & N').
  destruct (Hall Witness _ (or_intror eq_refl) eq_refl W) as (l2 & [= <-] & W').
  split; try done.
  - eapply rounds_ok_same; [exact R|..]; by rewrite Ejp.
  - intros r rd. rewrite Ejp. apply F.
  - by rewrite Ejp.
  - by rewrite Ejp.
Qed.

Lemma RoundLoop_step jp jp' :
  graph_ok jp -> (base.size (graph jp) <= MaxNodeCount)%nat -> RoundLoop jp = (Ok tt, jp') ->
  graph_ok jp' /\ grows jp jp'.
Proof.
  intros [I R F N W B C] Hs E. destruct (RoundLoop_ok jp jp' I R Hs B E) as (I' & G & R').
  pose proof (RoundLoop_inbox jp tt jp' E) as [= E1 E2 E3 E4]. split; [|done].
  split; rewrite ?E1, ?E2, ?E3, ?E4; try done.
  - exact (RoundLoop_free jp tt jp' F E).
  - eapply Forall_impl; [exact N|]. intros e. by apply addable_grows.
  - eapply Forall_impl; [exact W|]. intros e. by apply addable_grows.
Qed.

Lemma MonitorLoop_step jp r num num' jp' :
  graph_ok jp -> MonitorLoop order_nodes r num jp = (Ok num', jp') ->
  graph_ok jp' /\ grows jp jp'.
Proof.
  intros Hg E. pose proof Hg as [I _ _ _ _ _ _].
  destruct (pv_MonitorLoop order_nodes jp r num jp num' jp' (conj I (grows_refl jp)) E) as [I' G].
  split; [|done]. apply (graph_ok_step jp); try done.
  - exact (sv_MonitorLoop rview stable_rview order_nodes r num (fun _ _ => eq_refl) jp num' jp' E).
  - exact (sv_MonitorLoop inbox_view stable_inbox order_nodes r num (fun _ _ => eq_refl) jp num' jp' E).
Qed.

Lemma sv_count_columns {B} (f : JPGraph -> B) addrs tb : keeps f (count_columns addrs tb).
Proof.
  assert (Hd : forall fuel x n, keeps f (count_down fuel x n)).
  { intros fuel. induction fuel as [|fuel IH]; intros [v|] n; cbn [count_down]; eauto with keeps.
    apply keeps_bind; [apply sv_get_vertex|]. intros vx. case_match; eauto with keeps. }
  revert tb. induction addrs as [|a addrs IH]; intros tb; cbn [count_columns];
    unfold count_column, walk_fuel;
    repeat first [ solve [eauto with keeps] | apply sv_get_vertex | apply sv_get_column | apply Hd
                 | apply IH | apply keeps_bind; [|intros ?] | case_match ].
Qed.

Lemma ConsensusShow_step jp tb tb' jp' :
  graph_ok jp -> ConsensusShow order_nodes sort tb jp = (Ok tb', jp') ->
  graph_ok jp' /\ grows jp jp'.
Proof.
  intros Hg E. unfold ConsensusShow in E. apply JM_bind_inv in E as (ch & jp1 & [= <- <-] & E).
  destruct (consensusTrigger jp) as [|i ch]; [done|].
  apply JM_bind_inv in E as ([] & jp1 & [= <-] & E).
  apply JM_bind_inv in E as (g & jp2 & [= <- <-] & E).
  rewrite (sv_count_columns id _ _ _ _ _ E : jp' = _). unfold id.
  apply (graph_ok_same jp); try done; apply Hg.
Qed.

Lemma transactions_step jp l :
  graph_ok jp -> let jp' := set_transUnHandled l jp in graph_ok jp' /\ grows jp jp'.
Proof. intros Hg jp'. apply (graph_ok_same jp); try done; apply Hg. Qed.

Lemma loop_step_ok s s' : node_ok s -> loop_step s s' -> node_ok s' /\ grows (n_jp s) (n_jp s').
Proof.
  intros Hok Hs. destruct Hs; pose proof Hok as [Hg He Hgo]; cbn in Hg, He, Hgo |- *.
  - apply Forall_app in Hgo as [Hgo1 [Ha Hgo2]%Forall_cons].
    destruct (AddEvent_step _ _ _ _ _ Hg Ha H H0) as [Hg' G]. split; [|done].
    eapply node_ok_step; eauto. apply Forall_app. split; by eapply go_grows.
  - destruct (RoundLoop_step _ _ Hg H H0) as [Hg' G]. eauto using node_ok_step, go_grows.
  - eauto using node_ok_step, grows_refl.
  - destruct (MonitorLoop_step _ _ _ _ _ Hg H) as [Hg' G]. eauto using node_ok_step, go_grows.
  - destruct (ConsensusShow_step _ _ _ _ Hg H) as [Hg' G]. eauto using node_ok_step, go_grows.
  - destruct (transactions_step jp (transUnHandled jp ++ l) Hg) as [Hg' G].
    eauto using node_ok_step, go_grows.
Qed.

Lemma node_step_ok s s' : node_ok s -> node_step s s' -> node_ok s' /\ grows (n_jp s) (n_jp s').
Proof.
  intros Hok Hs. destruct Hs as [jp v go num fr tb msg res jp' H H0|jp v go num fr tb sel v' out jp' H H0|s s' H];
    [pose proof Hok as [Hg He Hgo]; cbn in Hg, He, Hgo |- *..|by apply loop_step_ok].
  - destruct (handle_step _ _ _ _ Hg H H0) as [Hg' G]. eauto using node_ok_step, go_grows.
  - destruct (EventHandle_step _ _ _ _ _ _ Hg He H H0) as (Hg' & G & Hv & Ha).
    split; [|done]. split; [done|done|]. cbn. apply Forall_app. split; [by eapply go_grows|done].
Qed.

Lemma node_steps_ok s s' : node_ok s -> rtc node_step s s' -> node_ok s' /\ grows (n_jp s) (n_jp s').
Proof.
  intros Hok Hs. induction Hs as [|s1 s2 s3 H12 _ IH]; [split; [done|apply grows_refl]|].
  destruct (node_step_ok _ _ Hok H12) as [Hok2 G12]. destruct (IH Hok2) as [Hok3 G23].
  split; [done|]. by eapply grows_trans.
Qed.

Lemma NewJPGraph_fields cb b :
  let jp := NewJPGraph cb b in
  queue jp = [0%nat] /\ currentIdx jp = 0 /\ broadness jp = b /\ Coinbase jp = cb /\
  rounds jp = [NewRound b 0] /\ eventNorm jp = [] /\ witnessR jp = [].
Proof. done. Qed.

Lemma node_start_ok cb b : cb_ok cb -> (b <= MaxNodeCount)%nat -> node_ok (node_start cb b).
Proof.
  intros Hcb Hb. destruct (NewJPGraph_fields cb b) as (E1 & E2 & E3 & E4 & E5 & E6 & E7).
  split; cbn [n_jp n_vars n_go node_start].
  - split; rewrite ?E3, ?E4, ?E6, ?E7; try done; [apply NewJPGraph_ok| |].
    + split; rewrite ?E1, ?E2, ?E5, ?E3; [done| |].
      * intros [|k] r; [|done]. intros [= <-]. exists (NewRound b 0). by rewrite E5.
      * intros [|r] rd; [|done]. by intros [= <-].
    + intros [|r] rd; rewrite E5; [|done]. by intros [= <-].
  - done.
  - constructor.
Qed.

End Node.


