(* ===== verification/Agreement.v ===== *)
(** * Agreement between nodes

    What two nodes that received the same events have in common, and what not.  An event under a
    hash is the same everywhere, and so are all events that are reached from it along other parents.  The self parent of
    an event in the graph is whatever came last from its creator, and not the event that it
    names: the graphs of two nodes depend on the order in which events arrive. *)

From S2P Require Import Prelude Sponge Types Graph Jigsaw JigsawSpec Node System.
Local Open Scope Z_scope.

(** ** One event under a hash *)

Definition stored (jp : JPGraph) (e : Event) : Prop := exists v vx, vertices jp !! v = Some vx /\ v_event vx = e.

Lemma stored_same jp1 jp2 e1 e2 : inv jp1 -> inv jp2 -> stored jp1 e1 -> stored jp2 e2 ->
  SelfHash e1 = SelfHash e2 -> ~ collision (event_preimage e1) (event_preimage e2) -> same_content e1 e2.
Proof.
  intros I1 I2 (v1 & x1 & E1 & <-) (v2 & x2 & E2 & <-) Hh Hno.
  destruct (inv_vertex _ I1 v1 x1 E1) as [H1 O1 _ _ _ _ _], (inv_vertex _ I2 v2 x2 E2) as [H2 O2 _ _ _ _ _].
  apply (event_preimage_inj _ _ O1 O2). destruct (decide (event_preimage (v_event x1) = event_preimage (v_event x2))); [done|].
  destruct Hno. split; [done|]. rewrite <- !Event_Hash_sponge by done. congruence.
Qed.

(** The vertex that is reached from [v] after [n] steps to the other parent. *)
Fixpoint other_ancestor (jp : JPGraph) (n : nat) (v : nat) : option nat :=
  match n with
  | O => Some v
  | S n => vx ← vertices jp !! v; p ← anotherPt vx; other_ancestor jp n p
  end.

Lemma ancestors_agree jp1 jp2 n v1 v2 x1 x2 w1 w2 y1 y2 :
  inv jp1 -> inv jp2 ->
  (forall e1 e2, stored jp1 e1 -> stored jp2 e2 -> ~ collision (event_preimage e1) (event_preimage e2)) ->
  vertices jp1 !! v1 = Some x1 -> vertices jp2 !! v2 = Some x2 -> SelfHash (v_event x1) = SelfHash (v_event x2) ->
  other_ancestor jp1 n v1 = Some w1 -> other_ancestor jp2 n v2 = Some w2 ->
  vertices jp1 !! w1 = Some y1 -> vertices jp2 !! w2 = Some y2 ->
  SelfHash (v_event y1) = SelfHash (v_event y2) /\ same_content (v_event y1) (v_event y2).
Proof.
  intros I1 I2 Hno. revert v1 v2 x1 x2. induction n as [|n IH]; intros v1 v2 x1 x2 E1 E2 Hh; cbn [other_ancestor];
    assert (S1 : stored jp1 (v_event x1)) by (by exists v1, x1); assert (S2 : stored jp2 (v_event x2)) by (by exists v2, x2);
    pose proof (stored_same jp1 jp2 _ _ I1 I2 S1 S2 Hh (Hno _ _ S1 S2)) as Hs.
  - intros [= <-] [= <-] F1 F2. assert (y1 = x1) as -> by congruence. by assert (y2 = x2) as -> by congruence.
  - rewrite E1, E2. cbn [mbind option_bind].
    destruct (anotherPt x1) as [p1|] eqn:P1; cbn; [|done]. destruct (anotherPt x2) as [p2|] eqn:P2; cbn; [|done].
    destruct (vok_other _ _ _ (inv_vertex _ I1 v1 x1 E1) p1 P1) as (z1 & Z1 & Hz1).
    destruct (vok_other _ _ _ (inv_vertex _ I2 v2 x2 E2) p2 P2) as (z2 & Z2 & Hz2).
    apply (IH p1 p2 z1 z2 Z1 Z2). rewrite Hz1, Hz2. by destruct Hs as (_ & _ & _ & _ & Ho).
Qed.

(** ** What stays after a vertex was added *)

(** The columns, and of every vertex its event and its self parent. *)
Record links (jp jp' : JPGraph) : Prop := {
  ln_graph : graph jp' = graph jp;
  ln_columns : columns jp' = columns jp;
  ln_vertex : forall v, (fun x => (v_event x, selfPt x)) <$> vertices jp' !! v =
                        (fun x => (v_event x, selfPt x)) <$> vertices jp !! v }.

Lemma links_refl jp : links jp jp.
Proof. done. Qed.
Lemma links_trans jp1 jp2 jp3 : links jp1 jp2 -> links jp2 jp3 -> links jp1 jp3.
Proof. intros [G1 C1 V1] [G2 C2 V2]. split; [congruence..|]. intros v. by rewrite V2. Qed.

Definition frames {A} (m : JM A) : Prop := forall jp a jp', m jp = (Ok a, jp') -> links jp jp'.

Create HintDb frame.

Lemma frames_ret {A} (a : A) : frames (mret a).
Proof. intros jp x jp' [= _ <-]. apply links_refl. Qed.
Lemma frames_get {A} (f : JPGraph -> A) : frames (get f).
Proof. intros jp x jp' [= _ <-]. apply links_refl. Qed.
Lemma frames_stops {A} e : frames (stops (A := A) e).
Proof. done. Qed.
Lemma frames_deref {A} (o : option A) : frames (deref o).
Proof. destruct o; [apply frames_ret|apply frames_stops]. Qed.
Lemma frames_bind {A B} (m : JM A) (f : A -> JM B) : frames m -> (forall a, frames (f a)) -> frames (m ≫= f).
Proof.
  intros Hm Hf jp b jp' (a & jp1 & E1 & E2)%JM_bind_inv. eapply links_trans; [by eapply Hm|by eapply Hf].
Qed.
Lemma frames_modify f : (forall jp, links jp (f jp)) -> frames (modify f).
Proof. intros Hf jp x jp' [= _ <-]. apply Hf. Qed.

#[export] Hint Resolve frames_ret frames_get frames_stops frames_deref frames_bind frames_modify : frame.
#[export] Hint Extern 2 (links _ _) => (split; done) : frame.
#[export] Hint Extern 2 (_ = _ /\ _ = _) => (split; done) : frame.

(** Walks through a program. *)
Ltac frame := repeat first [solve [auto 10 with frame] | apply frames_bind; [|intros ?] | case_match].

Lemma frames_get_vertex v : frames (get_vertex v).
Proof. unfold get_vertex. auto with frame. Qed.
Lemma frames_get_column c : frames (get_column c).
Proof. unfold get_column. auto with frame. Qed.
Lemma frames_get_round r : frames (get_round r).
Proof. unfold get_round. auto with frame. Qed.
Lemma frames_read_big p : frames (read_big p).
Proof. unfold read_big. auto with frame. Qed.
#[export] Hint Resolve frames_get_vertex frames_get_column frames_get_round frames_read_big : frame.

Lemma frames_upd_round r f : frames (upd_round r f).
Proof. unfold upd_round. auto with frame. Qed.

Lemma frames_send {A} (chan : JPGraph -> list A) set x :
  (forall l jp, links jp (set l jp)) -> frames (send chan set x).
Proof. intros H. unfold send. apply frames_bind; [auto with frame|]. intros l. case_match; auto with frame. Qed.
#[export] Hint Extern 1 (frames (send _ _ _)) => (apply frames_send; intros ? ?; split; done) : frame.

Lemma frames_upd_vertex v f : (forall x, v_event (f x) = v_event x /\ selfPt (f x) = selfPt x) -> frames (upd_vertex v f).
Proof.
  intros Hf jp a jp' (x & jp1 & E1 & [= _ <-])%JM_bind_inv.
  unfold get_vertex, mbind, JM_bind, get, deref in E1. destruct (vertices jp !! v) as [y|] eqn:E; [|done].
  injection E1 as -> <-. split; [done..|]. intros w. cbn [vertices set_vertices].
  destruct (decide (w = v)) as [->|Hne]; [|by rewrite list_lookup_insert_ne].
  rewrite list_lookup_insert_eq by (by eapply lookup_lt_Some). rewrite E. cbn. by destruct (Hf x) as [-> ->].
Qed.
#[export] Hint Resolve frames_upd_round frames_upd_vertex : frame.

Lemma frames_link_lost vert l : frames (link_lost vert l).
Proof. induction l as [|v l IH]; cbn [link_lost]; auto with frame. Qed.
#[export] Hint Resolve frames_link_lost : frame.

Lemma frames_addComer r q : frames (addComer r q).
Proof. unfold addComer. apply frames_bind; [auto with frame|]. intros rd. repeat case_match; auto 10 with frame. Qed.

Lemma frames_search_round rid q o : frames (search_round rid q o).
Proof.
  revert o. induction q as [|r q IH]; intros o; cbn [search_round]; [auto with frame|].
  apply frames_bind; [auto with frame|]. intros rd. apply frames_bind; [auto with frame|]. intros z. case_match; auto with frame.
Qed.

Lemma frames_set_round_witness r i vert : frames (set_round_witness r i vert).
Proof. unfold set_round_witness. auto 10 with frame. Qed.
#[export] Hint Resolve frames_addComer frames_search_round frames_set_round_witness : frame.

Lemma frames_AddEvent_round r vert sc fw lp ty : frames (AddEvent_round r vert sc fw lp ty).
Proof.
  unfold AddEvent_round. repeat (apply frames_bind; [|intros ?]); repeat case_match; auto 10 with frame.
Qed.
#[export] Hint Resolve frames_AddEvent_round : frame.

(** ** Adding an event *)

(** The vertex of a hash in the column of a node, and the newest vertex of the column. *)
Definition vertex_of (jp : JPGraph) (a : Address) (h : Hash) : option nat :=
  c ← graph jp !! a; col ← columns jp !! c; hashChain col !! h.
Definition top_of (jp : JPGraph) (a : Address) : option nat :=
  c ← graph jp !! a; col ← columns jp !! c; verTop col.

Lemma links_vertex_of jp jp' a h : links jp jp' -> vertex_of jp' a h = vertex_of jp a h.
Proof. intros [G C _]. unfold vertex_of. by rewrite G, C. Qed.
Lemma links_top_of jp jp' a : links jp jp' -> top_of jp' a = top_of jp a.
Proof. intros [G C _]. unfold top_of. by rewrite G, C. Qed.

(** A vertex keeps its event and its self parent. *)
Definition keeps (jp jp' : JPGraph) : Prop := forall v x, vertices jp !! v = Some x ->
  exists x', vertices jp' !! v = Some x' /\ v_event x' = v_event x /\ selfPt x' = selfPt x.

Lemma links_keeps jp jp' : links jp jp' -> keeps jp jp'.
Proof.
  intros [_ _ V] v x E. specialize (V v). rewrite E in V. destruct (vertices jp' !! v) as [x'|]; [|done].
  injection V as E1 E2. by exists x'.
Qed.
Lemma keeps_trans jp1 jp2 jp3 : keeps jp1 jp2 -> keeps jp2 jp3 -> keeps jp1 jp3.
Proof.
  intros H1 H2 v x E. destruct (H1 v x E) as (y & Ey & Y1 & Y2). destruct (H2 v y Ey) as (z & Ez & Z1 & Z2).
  exists z. split_and!; congruence.
Qed.

Lemma AddNode_keeps a jp c jp' : inv jp -> AddNode a jp = (Ok c, jp') ->
  vertices jp' = vertices jp /\ graph jp' !! a = Some c /\
  (forall b, top_of jp' b = top_of jp b) /\ (forall b h, vertex_of jp' b h = vertex_of jp b h).
Proof.
  intros I. unfold AddNode, mbind, JM_bind, get, modify, mret, JM_ret.
  destruct (graph jp !! a) as [c0|] eqn:Ea; [by intros [= <- <-]|]. cbn. intros [= <- <-]. cbn.
  split; [done|]. split; [apply lookup_insert_eq|].
  assert (Hcol : forall b c, graph jp !! b = Some c -> (columns jp ++ [MkColumn ∅ None (size (graph jp))]) !! c = columns jp !! c).
  { intros b c Hb. destruct (inv_column _ I b c Hb) as (col & Hc & _). apply lookup_app_l. by eapply lookup_lt_Some. }
  unfold top_of, vertex_of. cbn. split; intros b; try intros h; (destruct (decide (b = a)) as [->|Hne];
    [rewrite lookup_insert_eq, Ea; cbn; by rewrite lookup_app_r, Nat.sub_diag by lia|]);
    rewrite lookup_insert_ne by done; destruct (graph jp !! b) as [c|] eqn:Eb; cbn; [|done|..|done]; by rewrite (Hcol b c Eb).
Qed.

Lemma AddEvent_insert_links e ty sc oc jp col r jp' :
  columns jp !! sc = Some col -> AddEvent_insert e ty sc oc jp = (Ok r, jp') ->
  let v := length (vertices jp) in r.1 = v /\
  links (set_columns (<[sc := MkColumn (<[SelfHash e := v]> (hashChain col)) (Some v) (c_seqNum col)]> (columns jp))
    (set_vertices (vertices jp ++ [MkVertex (CopyEvent e) (replicate MaxColorCluster 0) ty None (verTop col) (c_seqNum col)]) jp)) jp'.
Proof.
  intros Hc. unfold AddEvent_insert. rewrite (JM_bind_ok _ _ jp col jp).
  2: { unfold get_column, mbind, JM_bind, get. by rewrite Hc. }
  set (nv := NewVertex e ty). rewrite (JM_bind_ok (new_vertex _) _ jp (length (vertices jp)) _ eq_refl).
  cbv zeta. set (jp1 := set_vertices _ jp).
  rewrite (JM_bind_ok (upd_column _ _) _ jp1 tt
    (set_columns (<[sc := MkColumn (<[SelfHash e := length (vertices jp)]> (hashChain col)) (Some (length (vertices jp))) (c_seqNum col)]> (columns jp)) jp1)).
  2: { unfold upd_column, get_column, mbind, JM_bind, get, modify. cbn. by rewrite Hc. }
  set (jp2 := set_columns _ jp1). intros E.
  assert (F : forall k, (k = mret (length (vertices jp), true) \/ exists o, k = (_ ← upd_vertex (length (vertices jp)) (set_anotherPt (Some o)); mret (length (vertices jp), false))) ->
    forall jp3, k jp3 = (Ok r, jp') -> r.1 = length (vertices jp) /\ links jp3 jp').
  { intros k [->|[o ->]] jp3 Ek.
    - injection Ek as <- <-. split; [done|apply links_refl].
    - apply JM_bind_inv in Ek as (u & jp4 & E4 & Ek). injection Ek as <- <-. split; [done|].
      eapply frames_upd_vertex; [|exact E4]. done. }
  destruct oc as [oc|]; [|by eapply F; [left|]].
  apply JM_bind_inv in E as (ocol & jp3 & E3 & E). unfold get_column, mbind, JM_bind, get, deref in E3.
  destruct (columns jp2 !! oc); [|done]. injection E3 as -> <-.
  destruct (hashChain ocol !! OtherPartH e) as [o|].
  - eapply F; [right; exists o; reflexivity|exact E].
  - eapply F; [left; reflexivity|exact E].
Qed.

(** A node that is made, or is there already. *)
Definition same_columns (jp jp' : JPGraph) : Prop :=
  inv jp' /\ vertices jp' = vertices jp /\ (forall b c, graph jp !! b = Some c -> graph jp' !! b = Some c) /\
  (forall b, top_of jp' b = top_of jp b) /\ (forall b h, vertex_of jp' b h = vertex_of jp b h).

Lemma AddNode_columns a jp c jp' : inv jp -> AddNode a jp = (Ok c, jp') ->
  same_columns jp jp' /\ graph jp' !! a = Some c.
Proof.
  intros I E. destruct (AddNode_keeps a jp c jp' I E) as (V & G & T & X).
  destruct (AddNode_spec jp a I) as (c1 & jp1 & E1 & I1 & G1 & _). rewrite E1 in E. injection E as -> ->.
  split; [|done]. split_and!; try done. intros b c' Hb. eapply lookup_weaken; [exact Hb|]. apply G1.
Qed.

Lemma RequestParent_frames e : frames (RequestParentEvent e).
Proof. unfold RequestParentEvent. apply frames_send. by split. Qed.
#[export] Hint Resolve RequestParent_frames : frame.

Lemma same_columns_refl jp : inv jp -> same_columns jp jp.
Proof. by intros I. Qed.
Lemma same_columns_trans jp1 jp2 jp3 : same_columns jp1 jp2 -> same_columns jp2 jp3 -> same_columns jp1 jp3.
Proof.
  intros (I2 & V2 & G2 & T2 & X2) (I3 & V3 & G3 & T3 & X3).
  split_and!; [done|congruence|auto|intros; by rewrite T3|intros; by rewrite X3].
Qed.

(** The vertex that [AddEvent] makes, in the column [col] with the number [sc]. *)
Definition inserted (e : Event) (ty : Z) (sc : nat) (col : Column) (jp : JPGraph) : JPGraph :=
  let v := length (vertices jp) in
  set_columns (<[sc := MkColumn (<[SelfHash e := v]> (hashChain col)) (Some v) (c_seqNum col)]> (columns jp))
    (set_vertices (vertices jp ++ [MkVertex (CopyEvent e) (replicate MaxColorCluster 0) ty None (verTop col) (c_seqNum col)]) jp).

Lemma AddNode_known a c jp : graph jp !! a = Some c -> AddNode a jp = (Ok c, jp).
Proof. intros E. unfold AddNode, mbind, JM_bind, get. by rewrite E. Qed.

(** The steps of [AddEvent] for an event that passes the check: the nodes are made, and the vertex, unless it is there. *)
Lemma AddEvent_steps jp e ty res jp' : inv jp -> validateEvent e = true -> AddEvent e ty jp = (Ok res, jp') ->
  exists sc jp1 jp2 col, AddNode (SelfSig e) jp = (Ok sc, jp1) /\
    (if Compare (OtherPartA e) zero_address =? 0 then jp2 = jp1 else exists c, AddNode (OtherPartA e) jp1 = (Ok c, jp2)) /\
    same_columns jp jp2 /\ graph jp2 !! SelfSig e = Some sc /\ columns jp2 !! sc = Some col /\
    links (match hashChain col !! SelfHash e with Some _ => jp2 | None => inserted e ty sc col jp2 end) jp'.
Proof.
  intros I Hv E. unfold AddEvent in E. rewrite Hv in E.
  apply JM_bind_inv in E as (g & jp0 & [= <- <-] & E). cbv zeta in E.
  apply JM_bind_inv in E as (sc & jp1 & E1 & E). assert (A1 : AddNode (SelfSig e) jp = (Ok sc, jp1)).
  { destruct (graph jp !! SelfSig e) as [c|] eqn:Eg; [|done]. injection E1 as -> <-. by apply AddNode_known. }
  destruct (AddNode_columns _ _ _ _ I A1) as [H1 Hsc]. apply JM_bind_inv in E as (oc & jp2 & E2 & E).
  assert (A2 : if Compare (OtherPartA e) zero_address =? 0 then jp2 = jp1 else exists c, AddNode (OtherPartA e) jp1 = (Ok c, jp2)).
  { destruct (Compare (OtherPartA e) zero_address =? 0); [by injection E2 as _ <-|].
    destruct (graph jp !! OtherPartA e) as [c|] eqn:Eo.
    - injection E2 as _ <-. exists c. apply AddNode_known. by apply H1.
    - apply JM_bind_inv in E2 as (c & jp3 & E3 & [= _ <-]). by exists c. }
  assert (H2 : same_columns jp1 jp2).
  { destruct (Compare _ _ =? 0); [subst; apply same_columns_refl, H1|]. destruct A2 as [c A2]. eapply AddNode_columns; [apply H1|exact A2]. }
  pose proof (same_columns_trans _ _ _ H1 H2) as H. assert (Hsc2 : graph jp2 !! SelfSig e = Some sc) by (by apply H2).
  destruct (inv_column _ (proj1 H) _ _ Hsc2) as (col & Hcol & _). exists sc, jp1, jp2, col. split_and!; [done..|].
  rewrite (JM_bind_ok (get_column sc) _ jp2 col jp2) in E by (unfold get_column, mbind, JM_bind, get; by rewrite Hcol).
  destruct (hashChain col !! SelfHash e) as [v|] eqn:Hh.
  - match type of E with ?m jp2 = _ => assert (F : frames m) end; [|exact (F _ _ _ E)].
    frame.
  - apply JM_bind_inv in E as ([v lp] & jp3 & E3 & E).
    destruct (AddEvent_insert_links e ty sc oc jp2 col (v, lp) jp3 Hcol E3) as [_ L3].
    match type of E with ?m jp3 = _ => assert (F : frames m) end.
    { frame. }
    exact (links_trans _ _ _ L3 (F _ _ _ E)).
Qed.

Lemma AddEvent_links jp e ty jp' : inv jp -> vertex_of jp (SelfSig e) (SelfHash e) = None ->
  AddEvent e ty jp = (Ok None, jp') ->
  exists jp2 sc col, same_columns jp jp2 /\ graph jp2 !! SelfSig e = Some sc /\ columns jp2 !! sc = Some col /\
    links (inserted e ty sc col jp2) jp'.
Proof.
  intros I Hno E. assert (Hv : validateEvent e = true) by (unfold AddEvent in E; by destruct (validateEvent e)).
  destruct (AddEvent_steps jp e ty None jp' I Hv E) as (sc & jp1 & jp2 & col & _ & _ & H & Hsc & Hcol & L).
  exists jp2, sc, col. split_and!; [done..|]. assert (Hnone : hashChain col !! SelfHash e = None).
  { destruct H as (_ & _ & _ & _ & X). rewrite <- Hno, <- X. unfold vertex_of. rewrite Hsc. cbn. by rewrite Hcol. }
  by rewrite Hnone in L.
Qed.

(** The vertex of a new event: its self parent is the newest vertex of the column, whatever [SelfPart] says, and it is the newest
    one then.  Everything else stays. *)
Lemma AddEvent_arrival jp e ty jp' : inv jp -> vertex_of jp (SelfSig e) (SelfHash e) = None ->
  AddEvent e ty jp = (Ok None, jp') ->
  exists v x, vertex_of jp' (SelfSig e) (SelfHash e) = Some v /\ top_of jp' (SelfSig e) = Some v /\
    vertices jp' !! v = Some x /\ v_event x = CopyEvent e /\ selfPt x = top_of jp (SelfSig e) /\
    keeps jp jp' /\ forall h, h <> SelfHash e -> vertex_of jp' (SelfSig e) h = vertex_of jp (SelfSig e) h.
Proof.
  intros I Hno E. destruct (AddEvent_links jp e ty jp' I Hno E) as (jp2 & sc & col & H & Hsc & Hcol & L).
  destruct H as (_ & V2 & _ & T2 & X2). set (jpx := inserted e ty sc col jp2) in L. set (v := length (vertices jp2)).
  assert (Hlt : (sc < length (columns jp2))%nat) by (by eapply lookup_lt_Some).
  destruct (links_keeps _ _ L v (MkVertex (CopyEvent e) (replicate MaxColorCluster 0) ty None (verTop col) (c_seqNum col)))
    as (x & Ex & X1 & X1').
  { unfold jpx, v. cbn. by rewrite lookup_app_r, Nat.sub_diag by lia. }
  assert (Hv : forall h, vertex_of jpx (SelfSig e) h = <[SelfHash e := v]> (hashChain col) !! h).
  { intros h. unfold vertex_of, jpx. cbn. rewrite Hsc. cbn. by rewrite list_lookup_insert_eq. }
  exists v, x. split_and!; [| |done|done| | |].
  - rewrite (links_vertex_of _ _ _ _ L), Hv. apply lookup_insert_eq.
  - rewrite (links_top_of _ _ _ L). unfold top_of, jpx. cbn. rewrite Hsc. cbn. by rewrite list_lookup_insert_eq.
  - rewrite X1', <- T2. unfold top_of. rewrite Hsc. cbn. by rewrite Hcol.
  - apply (keeps_trans _ jpx); [|by apply links_keeps]. intros w y Ey. exists y. split; [|done].
    unfold jpx. cbn. rewrite lookup_app_l; [by rewrite V2|]. rewrite V2. by eapply lookup_lt_Some.
  - intros h Hh. rewrite (links_vertex_of _ _ _ _ L), Hv, lookup_insert_ne by done.
    rewrite <- X2. unfold vertex_of. rewrite Hsc. cbn. by rewrite Hcol.
Qed.

(** ** Two nodes *)

(** The hash of the self parent that the graph gives to an event. *)
Definition self_parent (jp : JPGraph) (a : Address) (h : Hash) : option Hash :=
  v ← vertex_of jp a h; x ← vertices jp !! v; p ← selfPt x; y ← vertices jp !! p; Some (SelfHash (v_event y)).

(** An event that a node may add. *)
Definition acceptable (jp : JPGraph) (e : Event) : Prop :=
  event_ok (CopyEvent e) /\ (exists n, RoundID e = Some n /\ (n < length (bigs jp))%nat) /\ no_collision jp e /\
  vertex_of jp (SelfSig e) (SelfHash e) = None.

Lemma AddEvent_keeps_inv jp e ty jp' : inv jp -> acceptable jp e -> AddEvent e ty jp = (Ok None, jp') -> inv jp'.
Proof.
  intros I (He & (n & Hr & Hn) & Hc & _) E. assert (Hv : validateEvent e = true).
  { unfold AddEvent in E. by destruct (validateEvent e). }
  pose proof (AddEvent_wp jp e ty n I He Hr Hn (no_collision_only jp e I He Hv Hc)) as H.
  unfold wp, AddEvent_post in H. rewrite E in H. by destruct_and?.
Qed.

Lemma second_parent jp e1 e2 t1 t2 jp1 jp12 : inv jp -> acceptable jp e1 -> acceptable jp e2 ->
  SelfSig e1 = SelfSig e2 -> SelfHash e1 <> SelfHash e2 ->
  AddEvent e1 t1 jp = (Ok None, jp1) -> AddEvent e2 t2 jp1 = (Ok None, jp12) ->
  self_parent jp12 (SelfSig e2) (SelfHash e2) = Some (SelfHash e1).
Proof.
  intros I A1 A2 Hs Hh E1 E2. pose proof (AddEvent_keeps_inv jp e1 t1 jp1 I A1 E1) as I1.
  destruct (AddEvent_arrival jp e1 t1 jp1 I (proj2 (proj2 (proj2 A1))) E1) as (v1 & x1 & V1 & T1 & X1 & Ev1 & _ & _ & O1).
  destruct (AddEvent_arrival jp1 e2 t2 jp12 I1) as (v2 & x2 & V2 & _ & X2 & _ & P2 & K2 & _); [|done|].
  { rewrite <- Hs, O1, Hs by done. apply A2. }
  unfold self_parent. rewrite V2. cbn. rewrite X2. cbn. rewrite P2, <- Hs, T1. cbn.
  destruct (K2 v1 x1 X1) as (y & -> & Hy & _). cbn. by rewrite Hy, Ev1.
Qed.


(** C12: the order of arrival.  Two events of one creator that are new to a node: added one after the other, the first
    becomes the self parent of the second in the graph, whatever event the second names as its parent.  Two nodes
    that receive them in different orders so have graphs in which each is the parent of the other: an event may be the
    self parent of its own parent, and what is seen and counted differs from node to node. *)
Theorem arrival_order jp e1 e2 t1 t2 t3 t4 jp1 jp12 jp2 jp21 (I : inv jp)
    (A1 : acceptable jp e1) (A2 : acceptable jp e2)
    (Hs : SelfSig e1 = SelfSig e2) (Hh : SelfHash e1 <> SelfHash e2)
    (E1 : AddEvent e1 t1 jp = (Ok None, jp1)) (E12 : AddEvent e2 t2 jp1 = (Ok None, jp12))
    (E2 : AddEvent e2 t3 jp = (Ok None, jp2)) (E21 : AddEvent e1 t4 jp2 = (Ok None, jp21)) :
  self_parent jp12 (SelfSig e2) (SelfHash e2) = Some (SelfHash e1) /\
  self_parent jp21 (SelfSig e1) (SelfHash e1) = Some (SelfHash e2).
Proof.
  split.
  - by apply (second_parent jp e1 e2 t1 t2 jp1 jp12).
  - by apply (second_parent jp e2 e1 t3 t4 jp2 jp21).
Qed.

(** ** Examples *)

(** An event of node 2, and a second one that names the first as its parent. *)
Definition ex_first : Event := ex_hashed [].
Definition ex_second : Event :=
  let e := MkEvent (Some 8) [] (SelfHash ex_first) zero_hash (replicate 20 2) zero_hash zero_address (Some 0%nat) in
  set_SelfHash (Event_Hash e) e.

(** A node composes its first event and adds it. *)
Lemma ex_run : exists s x,
  rtc (node_step (fun _ => ""%string) map_to_list map_to_list id 0) (node_start (replicate 20 1) 2) s /\
  vertices (n_jp s) = [x].
Proof.
  set (jp0 := NewJPGraph (replicate 20 1) 2).
  assert (E : match EventHandle 0 (SelOnlyTime 5 0) start_vars jp0 with
    | (Ok (_, out), jp) => match adds out with
        | [(e, t)] => (length (vertices jp) =? 0)%nat && match AddEvent e t jp with
            | (Ok None, jp') => (length (vertices jp') =? 1)%nat | _ => false end
        | _ => false end
    | _ => false end = true) by (vm_compute; reflexivity).
  destruct (EventHandle 0 (SelOnlyTime 5 0) start_vars jp0) as [[[v out]|st] jp] eqn:H; [|discriminate E].
  destruct (adds out) as [|[e t] [|]] eqn:Ea; try discriminate E. apply andb_true_iff in E as [E0 E].
  destruct (AddEvent e t jp) as [[[?|]|?] jp'] eqn:EA; try discriminate E.
  destruct (vertices jp') as [|x [|]] eqn:Ev; try discriminate E. exists (MkNode jp' v [] 0 0 0), x. split; [|exact Ev].
  eapply rtc_l; [|apply rtc_once].
  - apply (Step_turn _ _ _ _ _ jp0 start_vars [] 0 0 0 (SelOnlyTime 5 0) v out jp); [split; lia|exact H].
  - rewrite Ea. apply Step_loop, (Step_add _ _ jp v [] e t [] 0 0 0 None jp'); [|exact EA].
    apply no_collision_nil. by destruct (vertices jp).
Qed.


Lemma ex_second_ok : event_ok ex_second.
Proof.
  split.
  - cbn. lia.
  - split; [vm_compute; reflexivity|]. apply (bool_decide_unpack _). vm_compute. exact I.
  - split; [vm_compute; reflexivity|]. apply (bool_decide_unpack _). vm_compute. exact I.
  - split; [vm_compute; reflexivity|]. apply (bool_decide_unpack _). vm_compute. exact I.
  - vm_compute. reflexivity.
Qed.

Lemma ex_acceptable e : event_ok e -> Trans e = [] -> RoundID e = Some 0%nat -> SelfSig e = replicate 20 2 -> acceptable ex_graph e.
Proof.
  intros He Ht Hr Hs. split_and!.
  - by apply CopyEvent_ok.
  - exists 0%nat. split; [done|]. cbn. lia.
  - by apply no_collision_nil.
  - rewrite Hs. reflexivity.
Qed.

Definition ex_add (e : Event) (jp : JPGraph) : JPGraph := (AddEvent e Normal jp).2.

Lemma ex_added e jp : match (AddEvent e Normal jp).1 with Ok None => true | _ => false end = true ->
  AddEvent e Normal jp = (Ok None, ex_add e jp).
Proof. unfold ex_add. destruct (AddEvent e Normal jp) as [[[s|]|[]] jp']; done. Qed.

Lemma arrival_order_witness :
  SelfPart ex_second = SelfHash ex_first /\
  self_parent (ex_add ex_second (ex_add ex_first ex_graph)) (replicate 20 2) (SelfHash ex_second) = Some (SelfHash ex_first) /\
  self_parent (ex_add ex_first (ex_add ex_second ex_graph)) (replicate 20 2) (SelfHash ex_first) = Some (SelfHash ex_second).
Proof.
  split; [reflexivity|].
  apply (arrival_order ex_graph ex_first ex_second Normal Normal Normal Normal (ex_add ex_first ex_graph) _ (ex_add ex_second ex_graph) _).
  - apply ex_graph_ok.
  - apply ex_acceptable; [by apply ex_hashed_ok; cbn; lia|reflexivity..].
  - apply ex_acceptable; [apply ex_second_ok|reflexivity..].
  - vm_compute; reflexivity.
  - intros H. apply (f_equal (fun l => nth 0 l 0)) in H. vm_compute in H. discriminate H.
  - apply ex_added. vm_compute. reflexivity.
  - apply ex_added. vm_compute. reflexivity.
  - apply ex_added. vm_compute. reflexivity.
  - apply ex_added. vm_compute. reflexivity.
Defined.
