(* ===== verification/Ledger.v ===== *)
(** * The ledger: what a node records, and that the graph implements it

    An abstract specification of the event graph.  A ledger gives every known creator the list of its events, the newest
    first.  It changes in two ways only: a creator becomes known, with no events, and a valid event with a new hash is put in
    front of the list of its creator.  The graph of [src/core/jigsaw.go], with its maps from hashes, its pointers, columns and rounds,
    implements this: the ledger of a graph is read off by walking from the newest vertex of each column along self
    parents, [AddEvent] does on it what the function [ledger_add] says, and no other operation of the node changes it. *)

From S2P Require Import Prelude RlpTypes RlpEncode Keccak Sponge Types Graph Jigsaw JigsawSpec Round RoundLoops RoundRest Wire Peer PeerSpec Node System Agreement.
Local Open Scope Z_scope.
#[local] Opaque keccak_f keccakF1600 Event_Hash.

(** ** The specification *)

Abbreviation ledger := (gmap Address (list Event)).

(** A ledger with the creator [a], whose list is empty if it is new. *)
Definition ledger_node (a : Address) (L : ledger) : ledger :=
  match L !! a with Some _ => L | None => <[a := []]> L end.

(** A valid event makes its creator and the creator of the other parent known, and is recorded once. *)
Definition ledger_nodes (e : Event) (L : ledger) : ledger :=
  let L := ledger_node (SelfSig e) L in
  if Compare (OtherPartA e) zero_address =? 0 then L else ledger_node (OtherPartA e) L.

Definition ledger_add (e : Event) (L : ledger) : ledger :=
  if validateEvent e then
    let L := ledger_nodes e L in
    match L !! SelfSig e with
    | Some l => if decide (SelfHash e ∈ SelfHash <$> l) then L else <[SelfSig e := CopyEvent e :: l]> L
    | None => L
    end
  else L.

Inductive ledger_step : ledger -> ledger -> Prop :=
| L_node L a : L !! a = None -> ledger_step L (<[a := []]> L)
| L_event L e l : L !! SelfSig e = Some l -> Event_Hash e = SelfHash e -> (SelfHash e ∉ SelfHash <$> l) ->
    ledger_step L (<[SelfSig e := e :: l]> L).

Record ledger_ok (L : ledger) : Prop := {
  lo_valid : forall a l, L !! a = Some l -> Forall (fun e => SelfSig e = a /\ Event_Hash e = SelfHash e) l;
  lo_once : forall a l, L !! a = Some l -> NoDup (SelfHash <$> l) }.

(** The later ledger has all creators of the earlier one, with lists that end in the earlier lists. *)
Definition extends (L L' : ledger) : Prop :=
  forall a l, L !! a = Some l -> exists l', L' !! a = Some l' /\ l `suffix_of` l'.

#[export] Instance extends_preorder : PreOrder extends.
Proof.
  split.
  - intros L a l H. by exists l.
  - intros L1 L2 L3 H12 H23 a l H. destruct (H12 a l H) as (l2 & E2 & S2). destruct (H23 a l2 E2) as (l3 & E3 & S3).
    exists l3. split; [done|]. by etrans.
Qed.

Lemma ledger_step_extends L L' : ledger_step L L' -> extends L L'.
Proof.
  intros [M a Ha|M e l He _ _] b k Hb.
  - exists k. split; [|done]. by rewrite lookup_insert_ne by congruence.
  - destruct (decide (b = SelfSig e)) as [->|Hne].
    + rewrite lookup_insert_eq. exists (e :: l). split; [done|]. assert (k = l) as -> by congruence. by apply suffix_cons_r.
    + rewrite lookup_insert_ne by done. by exists k.
Qed.

Lemma ledger_step_ok L L' : ledger_step L L' -> ledger_ok L -> ledger_ok L'.
Proof.
  intros [M a Ha|M e l He Hh Hn] [V O]; split; intros b k; rewrite lookup_insert_Some; intros [[<- <-]|[_ Hb]];
    eauto; try constructor; eauto.
Qed.

Lemma ledger_steps_extends L L' : rtc ledger_step L L' -> extends L L'.
Proof. induction 1 as [|L1 L2 L3 H _ IH]; [reflexivity|]. etrans; [by apply ledger_step_extends|done]. Qed.

Lemma ledger_steps_ok L L' : rtc ledger_step L L' -> ledger_ok L -> ledger_ok L'.
Proof. induction 1 as [|L1 L2 L3 H _ IH]; eauto using ledger_step_ok. Qed.

(** [ledger_add] takes steps of the specification. *)
Lemma ledger_node_steps a L : rtc ledger_step L (ledger_node a L).
Proof. unfold ledger_node. destruct (L !! a) eqn:E; [done|]. by apply rtc_once, L_node. Qed.

Lemma ledger_add_steps e L : rtc ledger_step L (ledger_add e L).
Proof.
  unfold ledger_add. destruct (validateEvent e) eqn:Hv; [|done]. cbv zeta. set (M := ledger_nodes e L).
  assert (HM : rtc ledger_step L M).
  { etrans; [apply (ledger_node_steps (SelfSig e))|]. unfold M, ledger_nodes. case_match; [done|apply ledger_node_steps]. }
  destruct (M !! SelfSig e) as [l|] eqn:El; [|done]. case_decide; [done|].
  eapply rtc_r; [exact HM|]. apply (L_event M (CopyEvent e) l); [done|exact (proj1 (validateEvent_hash e) Hv)|done].
Qed.

(** The creators that an event makes known, and the hash that it adds to a creator. *)
Definition names (e : Event) (a : Address) : Prop :=
  validateEvent e = true /\ (a = SelfSig e \/ Compare (OtherPartA e) zero_address <> 0 /\ a = OtherPartA e).
Definition says (e : Event) (a : Address) (h : Hash) : Prop := validateEvent e = true /\ a = SelfSig e /\ h = SelfHash e.

Definition recorded (a : Address) (h : Hash) (L : ledger) : Prop := exists l, L !! a = Some l /\ h ∈ SelfHash <$> l.

Lemma ledger_node_known b L a : is_Some (ledger_node b L !! a) <-> is_Some (L !! a) \/ a = b.
Proof.
  unfold ledger_node. destruct (L !! b) eqn:E; [split; [by left|intros [?| ->]; [done|by rewrite E]]|].
  rewrite lookup_insert_is_Some'. split; [intros [->| ]|intros [ | ->]]; auto.
Qed.

Lemma ledger_node_recorded b L a h : recorded a h (ledger_node b L) <-> recorded a h L.
Proof.
  unfold ledger_node, recorded. destruct (L !! b) eqn:E; [done|]. destruct (decide (a = b)) as [->|Hne].
  - rewrite lookup_insert_eq, E. split; [|by intros (? & ? & _)]. intros (l & [= <-] & Hin). by apply elem_of_nil in Hin.
  - by rewrite lookup_insert_ne by done.
Qed.

Lemma ledger_add_known e L a : is_Some (ledger_add e L !! a) <-> is_Some (L !! a) \/ names e a.
Proof.
  unfold ledger_add, names. destruct (validateEvent e); [|split; [by left|by intros [|[? _]]]]. cbv zeta.
  set (M := ledger_nodes e L).
  assert (HM : is_Some (M !! a) <-> (is_Some (L !! a) \/ a = SelfSig e) \/ Compare (OtherPartA e) zero_address <> 0 /\ a = OtherPartA e).
  { unfold M, ledger_nodes. destruct (Z.eqb_spec (Compare (OtherPartA e) zero_address) 0); rewrite ?ledger_node_known; tauto. }
  transitivity (is_Some (M !! a)); [|rewrite HM; tauto].
  destruct (M !! SelfSig e) as [l|] eqn:El; [|done]. case_decide; [done|].
  rewrite lookup_insert_is_Some'. split; [intros [<-| ]| ]; auto.
Qed.

Lemma ledger_add_recorded e L a h : recorded a h (ledger_add e L) <-> recorded a h L \/ says e a h.
Proof.
  unfold ledger_add, says. destruct (validateEvent e); [|split; [by left|by intros [|[? _]]]]. cbv zeta.
  set (M := ledger_nodes e L).
  assert (HM : recorded a h M <-> recorded a h L) by (unfold M, ledger_nodes; case_match; by rewrite !ledger_node_recorded).
  assert (Hs : is_Some (M !! SelfSig e)) by (unfold M, ledger_nodes; case_match; rewrite !ledger_node_known; auto).
  rewrite <- HM. destruct Hs as [l Hl]. rewrite Hl. unfold recorded. case_decide as Hd.
  - split; [by left|]. intros [|(_ & -> & ->)]; [done|]. by exists l.
  - destruct (decide (a = SelfSig e)) as [->|Hne].
    + rewrite lookup_insert_eq, Hl. split.
      * intros (k & [= <-] & Hin). rewrite fmap_cons in Hin. apply elem_of_cons in Hin as [->|]; [by right|left; by exists l].
      * intros [(k & [= <-] & Hin)|(_ & _ & ->)]; (eexists; split; [done|]); rewrite fmap_cons; [by right|by left].
    + rewrite lookup_insert_ne by done. split; [by left|]. by intros [|(_ & ? & _)].
Qed.

(** ** The ledger of a graph *)

(** The events from a vertex on along self parents, at most [fuel] of them. *)
Fixpoint walk (vs : list Vertex) (fuel : nat) (o : option nat) : list Event :=
  match fuel, o with
  | S fuel, Some v => match vs !! v with Some x => v_event x :: walk vs fuel (selfPt x) | None => [] end
  | _, _ => []
  end.

Definition column_log (jp : JPGraph) (c : nat) : list Event :=
  match columns jp !! c with
  | Some col => walk (vertices jp) (length (vertices jp)) (verTop col)
  | None => []
  end.

Definition ledger_of (jp : JPGraph) : ledger := column_log jp <$> graph jp.

(** Self parents are older. *)
Definition older (vs : list Vertex) : Prop := forall v x p, vs !! v = Some x -> selfPt x = Some p -> (p < v)%nat.

Lemma inv_older jp : inv jp -> older (vertices jp).
Proof. intros I v x p Hx Hp. by destruct (vok_self _ _ _ (inv_vertex _ I v x Hx) p Hp). Qed.

Lemma walk_enough vs n m v : older vs -> (v < n)%nat -> (v < m)%nat -> walk vs n (Some v) = walk vs m (Some v).
Proof.
  intros Ho. revert m v. induction n as [|n IH]; intros [|m] v Hn Hm; [lia..|]. cbn [walk].
  destruct (vs !! v) as [x|] eqn:Ex; [|done]. f_equal. destruct (selfPt x) as [p|] eqn:Ep.
  - pose proof (Ho v x p Ex Ep). apply IH; lia.
  - by destruct n, m.
Qed.

Lemma walk_app vs l n o : older vs -> (forall v, o = Some v -> (v < length vs)%nat) -> walk (vs ++ l) n o = walk vs n o.
Proof.
  intros Ho. revert o. induction n as [|n IH]; intros [v|] Hv; cbn [walk]; try done.
  rewrite lookup_app_l by (by apply Hv). destruct (vs !! v) as [x|] eqn:Ex; [|done]. f_equal. apply IH.
  intros p Hp. pose proof (Ho v x p Ex Hp). specialize (Hv v eq_refl). lia.
Qed.

Lemma walk_links vs vs' n o :
  (forall v, (fun x => (v_event x, selfPt x)) <$> vs' !! v = (fun x => (v_event x, selfPt x)) <$> vs !! v) ->
  walk vs' n o = walk vs n o.
Proof.
  intros H. revert o. induction n as [|n IH]; intros [v|]; cbn [walk]; try done.
  specialize (H v). destruct (vs !! v) as [x|], (vs' !! v) as [x'|]; try done. injection H as -> ->. by f_equal.
Qed.

Lemma links_length jp jp' : links jp jp' -> length (vertices jp') = length (vertices jp).
Proof.
  intros [_ _ V]. apply Nat.le_antisymm; apply Nat.nlt_ge; intros Hlt; apply lookup_lt_is_Some_2 in Hlt as [x Hx].
  - pose proof (V (length (vertices jp))) as Hv. rewrite Hx, (lookup_ge_None_2 (vertices jp)) in Hv by lia. done.
  - pose proof (V (length (vertices jp'))) as Hv. rewrite Hx, (lookup_ge_None_2 (vertices jp')) in Hv by lia. done.
Qed.

Lemma links_ledger jp jp' : links jp jp' -> ledger_of jp' = ledger_of jp.
Proof.
  intros L. pose proof (links_length _ _ L) as Hlen. destruct L as [G C V]. unfold ledger_of. rewrite G. apply map_fmap_ext.
  intros a c _. unfold column_log. rewrite C, Hlen. destruct (columns jp !! c); [|done]. by apply walk_links.
Qed.

Lemma frames_ledger {A} (m : JM A) jp a jp' : frames m -> m jp = (Ok a, jp') -> ledger_of jp' = ledger_of jp.
Proof. intros F E. by eapply links_ledger, F. Qed.

(** The map from hashes of every column has exactly the hashes of its events. *)
Definition indexed (jp : JPGraph) : Prop := forall a h,
  is_Some (vertex_of jp a h) <-> exists l, ledger_of jp !! a = Some l /\ h ∈ SelfHash <$> l.

Lemma links_indexed jp jp' : links jp jp' -> indexed jp -> indexed jp'.
Proof. intros L H a h. by rewrite (links_vertex_of _ _ _ _ L), (links_ledger _ _ L). Qed.

(** ** Adding to the graph *)

Lemma top_bound jp a c col v : inv jp -> graph jp !! a = Some c -> columns jp !! c = Some col -> verTop col = Some v ->
  (v < length (vertices jp))%nat.
Proof.
  intros I Ha Hc Hv. destruct (inv_column _ I a c Ha) as (col' & Hc' & [_ K T]). assert (col' = col) as -> by congruence.
  destruct (T v Hv) as [h Hh]. destruct (K h v Hh) as (x & Hx & _). by eapply lookup_lt_Some.
Qed.

Lemma AddNode_ledger a jp c jp' : inv jp -> AddNode a jp = (Ok c, jp') -> ledger_of jp' = ledger_node a (ledger_of jp).
Proof.
  intros I. unfold AddNode, ledger_node, ledger_of, mbind, JM_bind, get, modify, mret, JM_ret. rewrite lookup_fmap.
  destruct (graph jp !! a) as [c0|] eqn:Ea; [by intros [= _ <-]|]. cbn. intros [= _ <-]. cbn. rewrite fmap_insert. f_equal.
  - unfold column_log. cbn. rewrite lookup_app_r, Nat.sub_diag by lia. cbn. by destruct (length (vertices jp)).
  - apply map_fmap_ext. intros b d Hb. destruct (inv_column _ I b d Hb) as (col & Hc & _).
    unfold column_log. cbn. by rewrite lookup_app_l by (by eapply lookup_lt_Some).
Qed.

Lemma AddNode_indexed a jp c jp' : inv jp -> indexed jp -> AddNode a jp = (Ok c, jp') -> indexed jp'.
Proof.
  intros I H E b h. destruct (AddNode_keeps a jp c jp' I E) as (_ & _ & _ & X). rewrite X, (H b h), (AddNode_ledger a jp c jp' I E).
  unfold ledger_node. destruct (ledger_of jp !! a) as [l|] eqn:Ea; [done|]. destruct (decide (b = a)) as [->|Hne].
  - rewrite Ea, lookup_insert_eq. split; [by intros (? & ? & _)|]. intros (? & [= <-] & Hin). by apply elem_of_nil in Hin.
  - by rewrite lookup_insert_ne by done.
Qed.

Section Inserted.

Context (e : Event) (ty : Z) (sc : nat) (col : Column) (jp : JPGraph) (I : inv jp)
  (Hsc : graph jp !! SelfSig e = Some sc) (Hcol : columns jp !! sc = Some col).

Lemma inserted_ledger : ledger_of (inserted e ty sc col jp) = <[SelfSig e := CopyEvent e :: column_log jp sc]> (ledger_of jp).
Proof.
  pose proof (inv_older _ I) as Ho. apply map_eq. intros a. unfold ledger_of. cbn [graph inserted set_columns set_vertices].
  destruct (decide (a = SelfSig e)) as [->|Hne].
  - rewrite lookup_insert_eq, lookup_fmap, Hsc. cbn. f_equal. unfold column_log. cbn. rewrite Hcol.
    rewrite list_lookup_insert_eq by (by eapply lookup_lt_Some). cbn. rewrite length_app, Nat.add_comm. cbn.
    rewrite lookup_app_r, Nat.sub_diag by lia. cbn. f_equal.
    apply walk_app; [done|]. intros v Hv. by eapply top_bound.
  - rewrite lookup_insert_ne by done. rewrite !lookup_fmap. destruct (graph jp !! a) as [c|] eqn:Ea; [|done]. cbn. f_equal.
    unfold column_log. cbn. rewrite list_lookup_insert_ne by (intros <-; by apply Hne, (inv_inj _ I a (SelfSig e) sc)).
    destruct (columns jp !! c) as [k|] eqn:Ec; [|done]. rewrite length_app. cbn.
    assert (Hb : forall v, verTop k = Some v -> (v < length (vertices jp))%nat) by (intros v; by eapply top_bound).
    rewrite walk_app by done. destruct (verTop k) as [v|]; [|by destruct (length (vertices jp))].
    specialize (Hb v eq_refl). apply walk_enough; [done|lia..].
Qed.

Lemma inserted_vertex_of a h : vertex_of (inserted e ty sc col jp) a h =
  if decide (a = SelfSig e /\ h = SelfHash e) then Some (length (vertices jp)) else vertex_of jp a h.
Proof.
  unfold vertex_of. cbn [graph columns inserted set_columns set_vertices].
  assert (Hlt : (sc < length (columns jp))%nat) by (by eapply lookup_lt_Some).
  destruct (decide (a = SelfSig e)) as [->|Hne].
  - rewrite Hsc. cbn. rewrite list_lookup_insert_eq, Hcol by done. cbn.
    destruct (decide (h = SelfHash e)) as [->|Hh]; case_decide as H; try (by destruct H); try (by destruct H as []).
    + by rewrite lookup_insert_eq.
    + by rewrite lookup_insert_ne.
  - rewrite decide_False by (by intros []). destruct (graph jp !! a) as [c|] eqn:Ea; [|done]. cbn.
    by rewrite list_lookup_insert_ne by (intros <-; by apply Hne, (inv_inj _ I a (SelfSig e) sc)).
Qed.

Lemma inserted_indexed : indexed jp -> indexed (inserted e ty sc col jp).
Proof.
  intros H a h. rewrite inserted_vertex_of, inserted_ledger. specialize (H a h).
  assert (Hl : ledger_of jp !! SelfSig e = Some (column_log jp sc)) by (unfold ledger_of; by rewrite lookup_fmap, Hsc).
  destruct (decide (a = SelfSig e)) as [->|Hne].
  - rewrite lookup_insert_eq. rewrite Hl in H. case_decide as Hd.
    + destruct Hd as [_ ->]. split; [|by eauto]. intros _. eexists. split; [done|]. by left.
    + assert (Hh : h <> SelfHash e) by (by intros ->; apply Hd). rewrite H. split.
      * intros (l & [= <-] & Hin). eexists. split; [done|]. by right.
      * intros (l & [= <-] & Hin). eexists. split; [done|]. rewrite fmap_cons in Hin. by apply elem_of_cons in Hin as [|].
  - rewrite decide_False by (by intros []). by rewrite lookup_insert_ne by done.
Qed.

End Inserted.

Lemma AddEvent_ledger jp e ty res jp' : inv jp -> indexed jp -> AddEvent e ty jp = (Ok res, jp') ->
  ledger_of jp' = ledger_add e (ledger_of jp) /\ indexed jp'.
Proof.
  intros I X E. unfold ledger_add. destruct (validateEvent e) eqn:Hv.
  2: { unfold AddEvent in E. rewrite Hv in E. by injection E as _ <-. }
  destruct (AddEvent_steps jp e ty res jp' I Hv E) as (sc & jp1 & jp2 & col & A1 & A2 & (I2 & _) & Hsc & Hcol & L).
  destruct (AddNode_columns _ _ _ _ I A1) as [(I1 & _) _]. pose proof (AddNode_indexed _ _ _ _ I X A1) as X1.
  cbv zeta. unfold ledger_nodes. rewrite <- (AddNode_ledger _ _ _ _ I A1).
  assert (H2 : indexed jp2 /\ (if Compare (OtherPartA e) zero_address =? 0 then ledger_of jp1
    else ledger_node (OtherPartA e) (ledger_of jp1)) = ledger_of jp2).
  { destruct (Compare (OtherPartA e) zero_address =? 0); [by subst|]. destruct A2 as [c A2].
    split; [exact (AddNode_indexed _ _ _ _ I1 X1 A2)|exact (eq_sym (AddNode_ledger _ _ _ _ I1 A2))]. }
  destruct H2 as [X2 ->]. assert (Hl : ledger_of jp2 !! SelfSig e = Some (column_log jp2 sc)) by (unfold ledger_of; by rewrite lookup_fmap, Hsc).
  rewrite Hl. specialize (X2 (SelfSig e) (SelfHash e)) as Hx. unfold vertex_of in Hx. rewrite Hsc, Hl in Hx. cbn in Hx. rewrite Hcol in Hx. cbn in Hx.
  destruct (hashChain col !! SelfHash e) as [v|].
  - rewrite decide_True by (destruct (proj1 Hx) as (l & [= <-] & ?); eauto).
    split; [exact (links_ledger _ _ L)|exact (links_indexed _ _ L X2)].
  - rewrite decide_False by (intros Hin; destruct (proj2 Hx) as [? [=]]; eauto).
    rewrite <- (inserted_ledger e ty sc col jp2 I2 Hsc Hcol).
    split; [exact (links_ledger _ _ L)|]. apply (links_indexed _ _ L). by apply inserted_indexed.
Qed.

(** ** Everything else leaves the ledger alone *)

Lemma frames_new_big z : frames (new_big z).
Proof. intros jp a jp' [= _ <-]. by split. Qed.
Lemma frames_new_round rd : frames (new_round rd).
Proof. intros jp a jp' [= _ <-]. by split. Qed.
Lemma frames_write_big p z : frames (write_big p z).
Proof. unfold write_big. frame. Qed.
Lemma frames_recv {A} (chan : JPGraph -> list A) set : (forall l jp, links jp (set l jp)) -> frames (recv chan set).
Proof. intros H. unfold recv. frame. Qed.
Lemma frames_walk_fuel : frames walk_fuel.
Proof. unfold walk_fuel. frame. Qed.
#[local] Hint Resolve frames_new_big frames_new_round frames_write_big frames_walk_fuel : frame.
#[local] Hint Extern 1 (frames (recv _ _)) => (apply frames_recv; intros ? ?; split; done) : frame.

Lemma frames_ComposeEvent now rnd : frames (ComposeEvent now rnd).
Proof. unfold ComposeEvent, take_transactions, RandParent. frame. Qed.
#[local] Hint Resolve frames_ComposeEvent : frame.

Lemma frames_EventHandle n sel v : frames (EventHandle n sel v).
Proof. unfold EventHandle, CurrentRound. frame. Qed.

Lemma frames_retrieve h l : frames (retrieve_loop h l).
Proof. induction l as [|[k v] l IH]; cbn [retrieve_loop]; frame. Qed.
#[local] Hint Resolve frames_retrieve : frame.

Lemma frames_handle type_name order msg : frames (handle type_name order msg).
Proof. unfold handle, store_event, load_event, RetrieveEvent, ChanEvent. frame. all: simplify_eq; frame. Qed.

Section Loops.

Context (order : gmap Address nat -> list (Address * nat)) (sort : list Address -> list Address).

Lemma frames_find_round rid q : frames (find_round rid q).
Proof. induction q as [|r q IH]; cbn [find_round]; frame. Qed.
Lemma frames_all_witnesses w i n : frames (all_witnesses w i n).
Proof. revert i. induction n as [|n IH]; intros i; cbn [all_witnesses]; frame. Qed.
#[local] Hint Resolve frames_find_round frames_all_witnesses : frame.

Lemma frames_RoundLoop : frames RoundLoop.
Proof. unfold RoundLoop. frame. Qed.

Lemma frames_paint v cc k : frames (upd_vertex v (paint cc k)).
Proof. by apply frames_upd_vertex. Qed.
#[local] Hint Resolve frames_paint : frame.

Lemma frames_find_starter fuel chain idx s st : frames (find_starter fuel chain idx s st).
Proof. revert s. induction fuel as [|fuel IH]; intros [v|]; cbn [find_starter]; frame. Qed.
Lemma frames_whiten fuel chain idx cc s : frames (whiten fuel chain idx cc s).
Proof. revert s. induction fuel as [|fuel IH]; intros [v|]; cbn [whiten]; frame. Qed.
#[local] Hint Resolve frames_find_starter frames_whiten : frame.

Lemma frames_clear idx cc : frames (clearColorDFS order idx cc).
Proof.
  unfold clearColorDFS. apply frames_bind; [auto with frame|]. intros g. generalize (map snd (order g)) (@None nat).
  intros cols. induction cols as [|c cols IH]; intros st; cbn [clear_loop]; frame.
Qed.

Lemma frames_dfsVisit fuel trace s e cc : frames (dfsVisit fuel trace s e cc).
Proof. revert trace s. induction fuel as [|fuel IH]; intros trace [v|]; cbn [dfsVisit]; unfold mark; frame. Qed.
#[local] Hint Resolve frames_clear frames_dfsVisit : frame.

Lemma frames_JudgeSee s e cc : frames (JudgeSee s e cc).
Proof. unfold JudgeSee. frame. Qed.
#[local] Hint Resolve frames_JudgeSee : frame.

Lemma frames_count_strong r idx starter i n k : frames (count_strong order r idx starter i n k).
Proof. revert i k. induction n as [|n IH]; intros i k; cbn [count_strong]; frame. Qed.
#[local] Hint Resolve frames_count_strong : frame.

Lemma frames_MonitorLoop r num : frames (MonitorLoop order r num).
Proof. unfold MonitorLoop. frame. Qed.

Lemma frames_count_down fuel x n : frames (count_down fuel x n).
Proof. revert x n. induction fuel as [|fuel IH]; intros [v|] n; cbn [count_down]; frame. Qed.
#[local] Hint Resolve frames_count_down : frame.

Lemma frames_count_columns addrs n : frames (count_columns addrs n).
Proof. revert n. induction addrs as [|a addrs IH]; intros n; cbn [count_columns]; unfold count_column; frame. Qed.
#[local] Hint Resolve frames_count_columns : frame.

Lemma frames_ConsensusShow tb : frames (ConsensusShow order sort tb).
Proof. unfold ConsensusShow. frame. Qed.

End Loops.

(** ** The node implements the ledger *)

Lemma start_ledger cb b : ledger_of (NewJPGraph cb b) = {[cb := []]} /\ indexed (NewJPGraph cb b).
Proof.
  set (jp0 := MkJP ∅ 0 [] cb b [] 0 None [] [] [] [] [] [] [] [] [] [] []).
  assert (G : graph (NewJPGraph cb b) = {[cb := 0%nat]}) by done.
  assert (C : columns (NewJPGraph cb b) = [MkColumn ∅ None 0]) by done.
  assert (L : ledger_of (NewJPGraph cb b) = {[cb := []]}).
  { unfold ledger_of. rewrite G, map_fmap_singleton. unfold column_log. by rewrite C. }
  split; [done|]. intros a h. rewrite L. unfold vertex_of. rewrite G. split.
  - intros [v Hv]. apply bind_Some in Hv as (c & [_ <-]%lookup_singleton_Some & Hv). by rewrite C in Hv.
  - intros (l & [_ <-]%lookup_singleton_Some & Hin). by apply elem_of_nil in Hin.
Qed.

Section Refinement.

Context (type_name : gtype -> string) (order_events : gmap Hash nat -> list (Hash * nat))
  (order_nodes : gmap Address nat -> list (Address * nat)) (sort : list Address -> list Address)
  (Hevents : forall m, order_events m ≡ₚ map_to_list m) (unhandled : nat).

Abbreviation step := (node_step type_name order_events order_nodes sort unhandled).

(** A run, with the events for which a call of [AddEvent] returned, in that order.  Only these calls take an event from
    the list of started goroutines. *)
Inductive node_run : list Event -> node_state -> node_state -> Prop :=
| Run_nil s : node_run [] s s
| Run_other es s1 s2 s3 : step s1 s2 -> n_go s1 `prefix_of` n_go s2 -> node_run es s2 s3 -> node_run es s1 s3
| Run_add es jp v go1 e t go2 num fr tb res jp' s :
    no_collision jp e -> AddEvent e t jp = (Ok res, jp') ->
    node_run es (MkNode jp' v (go1 ++ go2) num fr tb) s ->
    node_run (e :: es) (MkNode jp v (go1 ++ (e, t) :: go2) num fr tb) s.

Lemma node_run_complete s s' : rtc step s s' -> exists es, node_run es s s'.
Proof.
  induction 1 as [s|s1 s2 s3 H _ [es IH]]; [exists []; constructor|].
  destruct H as [| |? ? [jp v go1 e t go2 num fr tb res jp' Hc E| | | | |]]; [..|exists es; eapply Run_other; [by do 2 econstructor|reflexivity|done]].
  3: exists (e :: es); by econstructor.
  all: exists es; eapply Run_other; [first [by econstructor|by do 2 econstructor]| |done]; cbn [n_go]; first [reflexivity|apply prefix_app_r; reflexivity].
Qed.

Lemma node_run_sound es s s' : node_run es s s' -> rtc step s s'.
Proof.
  induction 1 as [s|es s1 s2 s3 H _ _ IH|es jp v go1 e t go2 num fr tb res jp' s Hc E _ IH]; [done|by eapply rtc_l|].
  eapply rtc_l; [by eapply Step_loop, Step_add|exact IH].
Qed.

(** A step calls [AddEvent], or leaves the events and their self parents alone. *)
Lemma node_step_cases s s' : step s s' -> links (n_jp s) (n_jp s') \/
  exists go1 e t go2 res, n_go s = go1 ++ (e, t) :: go2 /\ n_go s' = go1 ++ go2 /\ AddEvent e t (n_jp s) = (Ok res, n_jp s').
Proof.
  intros Hs. destruct Hs as [| |? ? [jp v go1 e t go2 num fr tb res jp' Hc E| | | | |]]; cbn [n_jp n_go].
  3: right; by exists go1, e, t, go2, res.
  all: left; try (by split).
  - by eapply frames_handle.
  - by eapply frames_EventHandle.
  - by eapply frames_RoundLoop.
  - by eapply frames_MonitorLoop.
  - by eapply frames_ConsensusShow.
Qed.

Lemma node_step_ledger s s' : node_ok s -> indexed (n_jp s) -> step s s' ->
  indexed (n_jp s') /\ (ledger_of (n_jp s') = ledger_of (n_jp s) \/
    exists e, e ∈ (n_go s).*1 /\ ledger_of (n_jp s') = ledger_add e (ledger_of (n_jp s))).
Proof.
  intros Hok X [L|(go1 & e & t & go2 & res & G & _ & E)]%node_step_cases.
  - split; [by eapply links_indexed|left; by apply links_ledger].
  - destruct (AddEvent_ledger _ e t res _ (go_inv _ (no_graph _ Hok)) X E) as [E1 X1]. split; [done|]. right. exists e. split; [|done].
    rewrite G, fmap_app, fmap_cons. apply elem_of_app. right. by left.
Qed.

Lemma node_steps_ledger s s' : node_ok s -> indexed (n_jp s) -> rtc step s s' ->
  indexed (n_jp s') /\ rtc ledger_step (ledger_of (n_jp s)) (ledger_of (n_jp s')).
Proof.
  intros Hok X Hs. induction Hs as [s|s1 s2 s3 H _ IH]; [done|].
  destruct (node_step_ledger _ _ Hok X H) as [X2 H2]. destruct (node_step_ok _ _ _ _ Hevents _ _ _ Hok H) as [Hok2 _].
  destruct (IH Hok2 X2) as [X3 H3]. split; [done|]. etrans; [|exact H3].
  destruct H2 as [->|(e & _ & ->)]; [done|apply ledger_add_steps].
Qed.

(** What a run adds. *)
Lemma node_run_ledger es s s' : node_run es s s' -> node_ok s -> indexed (n_jp s) ->
  node_ok s' /\ indexed (n_jp s') /\
  (forall a, is_Some (ledger_of (n_jp s') !! a) <-> is_Some (ledger_of (n_jp s) !! a) \/ exists e, e ∈ es /\ names e a) /\
  (forall a h, recorded a h (ledger_of (n_jp s')) <-> recorded a h (ledger_of (n_jp s)) \/ exists e, e ∈ es /\ says e a h).
Proof.
  induction 1 as [s|es s1 s2 s3 H Hp _ IH|es jp v go1 e t go2 num fr tb res jp' s Hc E _ IH]; intros Hok X.
  - split_and!; [done..| |]; intros; (split; [by left|]); intros [|(e & He%elem_of_nil & _)]; done.
  - destruct (node_step_ok _ _ _ _ Hevents _ _ _ Hok H) as [Hok2 _]. destruct (node_step_ledger _ _ Hok X H) as [X2 _].
    destruct (node_step_cases _ _ H) as [L|(g1 & e & t & g2 & res & G1 & G2 & _)].
    + rewrite <- (links_ledger _ _ L). by apply IH.
    + rewrite G1, G2 in Hp. apply prefix_length in Hp. rewrite !length_app in Hp. cbn in Hp. lia.
  - destruct (AddEvent_ledger jp e t res jp' (go_inv _ (no_graph _ Hok)) X E) as [E1 X1].
    edestruct (node_step_ok type_name order_events order_nodes sort Hevents unhandled) as [Hok2 _]; [exact Hok|by eapply Step_loop, Step_add|].
    destruct (IH Hok2 X1) as (Hok3 & X3 & K & R). cbn [n_jp] in *. split_and!; [done..| |].
    + intros a. rewrite K, E1, ledger_add_known. setoid_rewrite elem_of_cons. split; [intros [[|]|(e' & ? & ?)]|intros [|(e' & [->|] & ?)]]; eauto 10.
    + intros a h. rewrite R, E1, ledger_add_recorded. setoid_rewrite elem_of_cons. split; [intros [[|]|(e' & ? & ?)]|intros [|(e' & [->|] & ?)]]; eauto 10.
Qed.

(** A reachable state. *)
Lemma reached_ledger cb b s : cb_ok cb -> (b <= MaxNodeCount)%nat -> rtc step (node_start cb b) s ->
  node_ok s /\ indexed (n_jp s) /\ rtc ledger_step {[cb := []]} (ledger_of (n_jp s)).
Proof.
  intros Hcb Hb Hs. pose proof (node_start_ok cb b Hcb Hb) as Hok0. destruct (start_ledger cb b) as [L0 X0].
  destruct (node_steps_ledger _ _ Hok0 X0 Hs) as [X H]. cbn [n_jp node_start] in H. rewrite L0 in H.
  by destruct (node_steps_ok _ _ _ _ Hevents _ _ _ Hok0 Hs) as [Hok _].
Qed.

End Refinement.

(** An event without the address at which a node keeps its round number: what two nodes can have in common. *)
Definition wire (e : Event) : Event :=
  MkEvent (TimeStamp e) (Trans e) (SelfPart e) (SelfHash e) (SelfSig e) (OtherPartH e) (OtherPartA e) None.

Lemma wire_validate e : validateEvent (wire e) = validateEvent e.
Proof. reflexivity. Qed.
Lemma wire_names e1 e2 a : wire e1 = wire e2 -> names e1 a -> names e2 a.
Proof. intros E. unfold names. rewrite <- (wire_validate e1), <- (wire_validate e2), E. injection E as _ _ _ _ -> _ ->. done. Qed.
Lemma wire_says e1 e2 a h : wire e1 = wire e2 -> says e1 a h -> says e2 a h.
Proof. intros E. unfold says. rewrite <- (wire_validate e1), <- (wire_validate e2), E. injection E as _ _ _ -> -> _ _. done. Qed.

(** Both lists have the same events. *)
Definition same_events (es1 es2 : list Event) : Prop := forall x, x ∈ wire <$> es1 <-> x ∈ wire <$> es2.

Lemma same_events_exists es1 es2 (P : Event -> Prop) : (forall e1 e2, wire e1 = wire e2 -> P e1 -> P e2) ->
  same_events es1 es2 -> (exists e, e ∈ es1 /\ P e) <-> (exists e, e ∈ es2 /\ P e).
Proof.
  intros HP H. assert (Hdir : forall l1 l2 : list Event, (forall x, x ∈ wire <$> l1 -> x ∈ wire <$> l2) ->
    (exists e, e ∈ l1 /\ P e) -> exists e, e ∈ l2 /\ P e).
  { intros l1 l2 Hl (e & He & Hp). apply (list_elem_of_fmap_2 wire), Hl, list_elem_of_fmap in He as (e2 & Ew & He2).
    exists e2. split; [done|]. by apply (HP e). }
  split; apply Hdir; intros x; apply H.
Qed.

(** ** Theorems *)




(** ** Examples *)

#[local] Instance Transaction_eq_dec : EqDecision Transaction.
Proof. solve_decision. Defined.
#[local] Instance Event_eq_dec : EqDecision Event.
Proof. solve_decision. Defined.

Abbreviation ex_run_of := (node_run (fun _ => ""%string) map_to_list map_to_list id 0).

(** The first event of node 1, and what node 1 sends of it. *)
Definition ex_sent : Event :=
  let e := MkEvent (Some 5) [] zero_hash zero_hash (replicate 20 1) zero_hash zero_address None in
  set_SelfHash (Event_Hash e) e.
Definition ex_message : Msg bytes :=
  let b := match EncodeToBytes TEvent (event_gval ex_sent (Some 0)) with Ok b => b | Err _ => [] end in
  MkMsg eventMsg Normal (zlen b) b.

(** Node 1's column has the event. *)
Definition ex_has (jp : JPGraph) : Prop := is_Some (vertex_of jp (replicate 20 1) (SelfHash ex_sent)).

(** [AddEvent] returns for [ex_sent] and it is in the graph then. *)
Definition ex_adds (out : list started) (jp : JPGraph) : bool :=
  match adds out with
  | [(e, t)] => bool_decide (wire e = ex_sent) && (length (vertices jp) =? 0)%nat &&
      match AddEvent e t jp with (Ok None, jp') => bool_decide (ex_has jp') | _ => false end
  | _ => false
  end.

Lemma ex_adds_run out jp v : ex_adds out jp = true ->
  exists e s, ex_run_of [e] (MkNode jp v (adds out) 0 0 0) s /\ wire e = ex_sent /\ ex_has (n_jp s).
Proof.
  unfold ex_adds. destruct (adds out) as [|[e t] [|]]; try discriminate. intros [[E1 E2]%andb_true_iff E3]%andb_true_iff.
  apply bool_decide_eq_true in E1. apply Nat.eqb_eq in E2. destruct (AddEvent e t jp) as [[[?|]|?] jp'] eqn:EA; try discriminate E3.
  exists e, (MkNode jp' v [] 0 0 0). split; [|split; [exact E1|by apply bool_decide_eq_true in E3]].
  apply (Run_add _ _ _ _ _ [] jp v [] e t [] 0 0 0 None jp'); [|exact EA|constructor].
  apply no_collision_nil. by destruct (vertices jp).
Qed.

(** Node 1 composes the event and adds it. *)
Lemma ex_own : exists e s, ex_run_of [e] (node_start (replicate 20 1) 2) s /\ wire e = ex_sent /\ ex_has (n_jp s).
Proof.
  set (jp0 := NewJPGraph (replicate 20 1) 2).
  assert (E : match EventHandle 0 (SelOnlyTime 5 0) start_vars jp0 with
    | (Ok (_, out), jp) => ex_adds out jp | _ => false end = true) by (vm_compute; reflexivity).
  destruct (EventHandle 0 (SelOnlyTime 5 0) start_vars jp0) as [[[v out]|st] jp] eqn:H; [|discriminate E].
  destruct (ex_adds_run out jp v E) as (e & s & Hs & Hw & Hl). exists e, s. split; [|exact (conj Hw Hl)].
  eapply Run_other; [|apply prefix_nil|exact Hs].
  apply (Step_turn _ _ _ _ _ jp0 start_vars [] 0 0 0 (SelOnlyTime 5 0) v out jp); [split; lia|exact H].
Qed.

(** Node 2 receives it in a message, takes it from the channel and adds it. *)
Lemma ex_received : exists e s, ex_run_of [e] (node_start (replicate 20 2) 2) s /\ wire e = ex_sent /\ ex_has (n_jp s).
Proof.
  set (jp0 := NewJPGraph (replicate 20 2) 2).
  assert (E : match handle (fun _ => ""%string) map_to_list ex_message jp0 with
    | (Ok _, jp) => match EventHandle 0 SelNorm start_vars jp with (Ok (_, out), jp') => ex_adds out jp' | _ => false end
    | _ => false end = true) by (vm_compute; reflexivity).
  destruct (handle _ _ _ _) as [[res|st] jp] eqn:H; [|discriminate E].
  destruct (EventHandle 0 SelNorm start_vars jp) as [[[v out]|st] jp'] eqn:H2; [|discriminate E].
  destruct (ex_adds_run out jp' v E) as (e & s & Hs & Hw & Hl). exists e, s. split; [|exact (conj Hw Hl)].
  apply (Run_other _ _ _ _ _ _ _ (MkNode jp start_vars [] 0 0 0)); [|apply prefix_nil|].
  { eapply Step_message; [|exact H]. split; [|vm_compute; reflexivity]. apply (bool_decide_unpack _). vm_compute. exact I. }
  eapply Run_other; [|apply prefix_nil|exact Hs].
  apply (Step_turn _ _ _ _ _ jp start_vars [] 0 0 0 SelNorm v out jp'); [exact I|exact H2].
Qed.

Lemma ex_cb z : 0 <= z < 256 -> cb_ok (replicate 20 z).
Proof. intros Hz. split; [reflexivity|]. by apply Forall_replicate. Qed.



