(* ===== verification/Origin.v ===== *)
(** * Where the events of a node come from

    Events enter a node in two ways: its loop composes them, and messages bring them.  Everything else moves them: through the
    channels, the variables of the loop, the started goroutines and the graph, and out again in broadcasts and in answers to
    requests.  Here a property [P] of events is carried along all these ways. *)

From S2P Require Import Prelude RlpTypes RlpEncode RlpRaw RlpStream RlpDecode Keccak Sponge Types Graph Jigsaw JigsawSpec Round RoundLoops RoundRest Wire Peer PeerSpec Node System Agreement Ledger.
Local Open Scope Z_scope.
#[local] Opaque keccak_f keccakF1600 Event_Hash.

(** Events as nodes compose them. *)
Record plain (e : Event) : Prop := Plain {
  pl_shape : event_shape e;
  pl_trans : Trans e = [];
  pl_time : exists ts, TimeStamp e = Some ts /\ 0 <= ts < 2 ^ 63 }.

Lemma plain_wire e1 e2 : wire e1 = wire e2 -> plain e1 -> plain e2.
Proof. destruct e1, e2. intros E. injection E as -> -> -> -> -> -> ->. intros [[] ? ?]. by split; [split|..]. Qed.

Lemma wire_copy e : Trans e = [] -> wire (CopyEvent e) = wire e.
Proof. intros H. unfold wire, CopyEvent. cbn. by rewrite H. Qed.

Section Origin.

Context (P : Event -> Prop) (HP : forall e, P e -> plain e).

(** The event has the property, whatever its round number is, and has a round number. *)
Definition from (e : Event) : Prop := P (wire e) /\ is_Some (RoundID e).

Record sourced (jp : JPGraph) : Prop := Sourced {
  so_norm : Forall from (eventNorm jp);
  so_remote : Forall from (witnessR jp);
  so_local : Forall from (witnessL jp);
  so_stored : forall e, stored jp e -> from e }.

Record node_sourced (s : node_state) : Prop := NodeSourced {
  ns_graph : sourced (n_jp s);
  ns_et : forall e, et (n_vars s) = Some e -> from e;
  ns_go : Forall (fun p => from p.1) (n_go s) }.

Lemma from_plain e : from e -> plain e.
Proof. intros [H _]. by apply (plain_wire (wire e)), HP. Qed.

Lemma from_copy e : from e -> from (CopyEvent e).
Proof. intros H. split; [rewrite wire_copy by apply (from_plain e H)|]; apply H. Qed.

Lemma links_stored jp jp' e : links jp jp' -> stored jp' e <-> stored jp e.
Proof.
  intros [_ _ V]. unfold stored. apply exist_proper. intros v. specialize (V v).
  destruct (vertices jp' !! v) as [x'|], (vertices jp !! v) as [x|]; cbn in V; simplify_eq.
  - assert (v_event x' = v_event x) by congruence. split; intros (y & [= <-] & <-); eauto.
  - split; by intros (? & ? & _).
Qed.

(** ** The graph *)

Lemma sourced_links jp jp' : sourced jp -> links jp jp' -> chans_view jp' = chans_view jp -> sourced jp'.
Proof.
  intros [H1 H2 H3 H4] L [= E1 E2 E3 _ _]. split; rewrite ?E1, ?E2, ?E3; [done..|]. intros e He. apply H4. by apply (links_stored _ _ _ L).
Qed.

Lemma stored_inserted e ty sc col jp e' : stored (inserted e ty sc col jp) e' -> stored jp e' \/ e' = CopyEvent e.
Proof.
  intros (v & vx & [Hv|[_ [_ <-]%list_lookup_singleton_Some]]%lookup_app_Some & <-); [left; by exists v, vx|by right].
Qed.

Lemma AddEvent_stored jp e t res jp' e' : inv jp -> AddEvent e t jp = (Ok res, jp') -> stored jp' e' -> stored jp e' \/ e' = CopyEvent e.
Proof.
  intros I E. destruct (validateEvent e) eqn:Hv.
  2: { unfold AddEvent in E. rewrite Hv in E. injection E as _ <-. by left. }
  destruct (AddEvent_steps jp e t res jp' I Hv E) as (sc & jp1 & jp2 & col & _ & _ & (_ & V & _) & _ & _ & L).
  rewrite (links_stored _ _ _ L). assert (H2 : stored jp2 e' -> stored jp e') by (unfold stored; by rewrite V).
  destruct (hashChain col !! SelfHash e); [by left; apply H2|]. intros [|]%stored_inserted; auto.
Qed.

Lemma AddEvent_sourced jp e t res jp' : inv jp -> sourced jp -> from e -> AddEvent e t jp = (Ok res, jp') -> sourced jp'.
Proof.
  intros I [H1 H2 H3 H4] He E. pose proof (sv_AddEvent chans_view stable_chans e t jp res jp' E) as [= E1 E2 E3 _ _].
  split; rewrite ?E1, ?E2, ?E3; [done..|]. intros e' [H| ->]%(AddEvent_stored _ _ _ _ _ e' I E); [by apply H4|by apply from_copy].
Qed.

Lemma get_vertex_inv v jp vx jp' : get_vertex v jp = (Ok vx, jp') -> jp' = jp /\ vertices jp !! v = Some vx.
Proof. intros [H ->]%run_get_vertex. done. Qed.

(** What the monitor sends on is in the graph. *)
Lemma MonitorLoop_local order r num jp num' jp' : MonitorLoop order r num jp = (Ok num', jp') ->
  witnessL jp' = witnessL jp \/ exists e, stored jp e /\ witnessL jp' = witnessL jp ++ [e].
Proof.
  unfold MonitorLoop. intros (ch & jp1 & [= <- <-] & E)%JM_bind_inv. destruct (SelfEventCreated jp) as [|starter ch]; [done|].
  apply JM_bind_inv in E as (? & jp1 & [= _ <-] & E). apply JM_bind_inv in E as (? & jp2 & [= _ <-] & E).
  set (jp2 := set_monitorStarter _ _) in E. assert (L2 : links jp jp2) by done.
  apply JM_bind_inv in E as (g & ? & [= <- <-] & E). apply JM_bind_inv in E as (b & ? & [= <- <-] & E).
  case_match; [by injection E as _ <-; left|].
  apply JM_bind_inv in E as (rd & jp3 & E3 & E). pose proof (frames_get_round r _ _ _ E3) as L3. pose proof (sv_get_round chans_view r _ _ _ E3) as C3.
  apply JM_bind_inv in E as (st & jp4 & E4 & E). pose proof (frames_count_strong _ _ _ _ _ _ _ _ _ _ E4) as L4.
  pose proof (sv_count_strong chans_view stable_chans _ _ _ _ _ _ _ _ _ _ E4) as C4.
  apply JM_bind_inv in E as (sm & ? & [= <- <-] & E). apply JM_bind_inv in E as (vx & jp5 & [-> Hv]%get_vertex_inv & E).
  assert (Hl : witnessL jp4 = witnessL jp) by (injection C3; injection C4; cbn; congruence).
  case_match; [|injection E as _ <-; by left]. right. exists (v_event vx). split.
  { apply (links_stored jp jp4); [exact (links_trans _ _ _ L2 (links_trans _ _ _ L3 L4))|by exists starter, vx]. }
  apply JM_bind_inv in E as (u & jp5 & E5 & E). apply JM_bind_inv in E as (u' & jp6 & E6 & E). apply JM_bind_inv in E as (u'' & jp7 & E7 & [= _ <-]).
  transitivity (witnessL jp5).
  - assert (K : RoundRest.keeps witnessL (upd_vertex starter (set_witness WitnessLocal))).
    { apply keeps_bind; [apply sv_get_vertex|]. intros y. by apply keeps_modify. }
    rewrite (sv_send witnessL roundTrigger set_roundTrigger starter (fun _ _ => eq_refl) _ _ _ E7). exact (K _ _ _ E6).
  - unfold send, mbind, JM_bind, get in E5. case_match; [|done]. injection E5 as _ <-. cbn. by rewrite Hl.
Qed.

Lemma MonitorLoop_sourced order r num jp num' jp' : sourced jp -> MonitorLoop order r num jp = (Ok num', jp') -> sourced jp'.
Proof.
  intros [H1 H2 H3 H4] E. pose proof (sv_MonitorLoop inbox_view stable_inbox order r num (fun _ _ => eq_refl) jp num' jp' E) as [= E1 E2 _ _].
  split; rewrite ?E1, ?E2; [done..| |].
  - destruct (MonitorLoop_local _ _ _ _ _ _ E) as [->|(e & He & ->)]; [done|]. apply Forall_app. eauto.
  - intros e He. apply H4. by apply (links_stored _ _ _ (frames_MonitorLoop _ _ _ _ _ _ E)).
Qed.

Lemma ConsensusShow_chans order sort tb : RoundRest.keeps chans_view (ConsensusShow order sort tb).
Proof.
  unfold ConsensusShow. apply keeps_bind; [apply keeps_get|]. intros [|i ch]; [apply keeps_stops|].
  apply keeps_bind; [by apply keeps_modify|]. intros _. apply keeps_bind; [apply keeps_get|]. intros g. apply sv_count_columns.
Qed.

(** Goroutines other than the loop of the node and the peers. *)
Lemma loop_step_sourced order sort s s' : node_ok s -> node_sourced s -> loop_step order sort s s' ->
  node_sourced s' /\ Coinbase (n_jp s') = Coinbase (n_jp s).
Proof.
  intros Hok [Hg He Hgo] Hs. destruct Hs as [jp v go1 e t go2 num fr tb res jp' _ E| jp v go num fr tb jp' _ E|
    |jp v go num fr tb num' jp' E|jp v go num fr tb tb' jp' E|jp v go num fr tb l]; cbn [n_jp n_vars n_go] in *.
  - apply Forall_app in Hgo as [Hgo1 [Ha Hgo2]%Forall_cons]. split; [split; cbn; [|done|by apply Forall_app]|].
    + by apply (AddEvent_sourced jp e t res jp'); [apply Hok|..].
    + by pose proof (sv_AddEvent chans_view stable_chans e t jp res jp' E) as [= _ _ _ _ ->].
  - pose proof (RoundLoop_chans jp tt jp' E) as C. split; [split; cbn; [|done..]|by injection C].
    exact (sourced_links jp jp' Hg (frames_RoundLoop _ _ _ E) C).
  - by split.
  - split; [split; cbn; [|done..]|].
    + by apply (MonitorLoop_sourced _ _ _ _ _ _ Hg E).
    + by pose proof (sv_MonitorLoop inbox_view stable_inbox _ _ _ (fun _ _ => eq_refl) _ _ _ E) as [= _ _ _ ->].
  - pose proof (ConsensusShow_chans _ _ _ jp tb' jp' E) as C. split; [split; cbn; [|done..]|by injection C].
    exact (sourced_links jp jp' Hg (frames_ConsensusShow _ _ _ _ _ _ E) C).
  - split; [|done]. split; cbn; [|done..]. by apply (sourced_links jp).
Qed.

(** ** The loop of the node *)

(** The event that a turn composed. *)
Definition composed_by (unhandled : nat) (sel : selected) (v' : node_vars) : option Event :=
  match sel with
  | SelOnlyTime _ _ => et v'
  | SelOverFlow _ _ => if (MaxTransInEvent <? unhandled)%nat then et v' else None
  | _ => None
  end.

Lemma ComposeEvent_plain jp now rnd e jp' : graph_ok jp -> 0 <= now < 2 ^ 63 -> ComposeEvent now rnd jp = (Ok e, jp') ->
  plain e /\ SelfSig e = Coinbase jp /\ is_Some (RoundID e).
Proof.
  intros Hg Hnow E. destruct (ComposeEvent_step _ _ _ _ _ Hg Hnow E) as (Hg' & G & Ha & Hr). pose proof Hg as [I R F _ _ _ C].
  destruct (queue jp) as [|r q] eqn:Hq; [by destruct (inv_queue jp I)|].
  destruct (ro_index jp R 0 r) as (rd & Hrd & _); [by rewrite Hq|].
  pose proof (ComposeEvent_wp jp now rnd r q rd I Hq Hrd (F r rd Hrd)) as H.
  unfold wp in H. rewrite E in H. destruct H as ([_ Hv Hown _ Hother [Ht _] (n & Hn & _)] & Htime & _).
  split; [|by rewrite Hn]. split; [|done|by exists now].
  apply validateEvent_hash in Hv. pose proof (Event_Hash_ok _ Ha) as Hh. destruct Ha. split; try done.
  - by rewrite <- Hv.
  - rewrite Hother. split; [done|]. by apply Forall_replicate.
Qed.

Lemma turn_composed n sel v jp v' out jp' e : graph_ok jp -> time_ok sel -> EventHandle n sel v jp = (Ok (v', out), jp') ->
  composed_by n sel v' = Some e -> plain e /\ SelfSig e = Coinbase jp /\ is_Some (RoundID e).
Proof.
  intros Hg Ht. unfold EventHandle. intros ([v1 o1] & jp1 & H1 & [= <- <- <-])%JM_bind_inv. destruct sel; try done; cbn [composed_by].
  - apply JM_bind_inv in H1 as (x & jp2 & E & [= <- <- <-]). intros [= <-]. by apply (ComposeEvent_plain jp now rnd x jp2).
  - case_match; [|done]. apply JM_bind_inv in H1 as (x & jp2 & E & [= <- <- <-]). intros [= <-]. by apply (ComposeEvent_plain jp now rnd x jp2).
Qed.

Definition started_from (g : started) : Prop :=
  match g with GoBroadcast e _ | GoAddEvent e _ => from e | GoRequest _ _ => True end.

Lemma adds_from out : Forall started_from out -> Forall (fun p => from p.1) (adds out).
Proof. intros H. induction H as [|g out Hg _ IH]; [constructor|]. destruct g; cbn; [done..|]. by constructor. Qed.

Lemma ComposeEvent_sourced jp now rnd e jp' : sourced jp -> ComposeEvent now rnd jp = (Ok e, jp') -> sourced jp' /\ Coinbase jp' = Coinbase jp.
Proof.
  intros Hs E. pose proof (sv_ComposeEvent chans_view stable_chans now rnd jp e jp' E) as C. split; [|by injection C].
  exact (sourced_links jp jp' Hs (frames_ComposeEvent _ _ _ _ _ E) C).
Qed.

(** A turn, if what it composes has the property. *)
Lemma turn_sourced n sel v jp v' out jp' : sourced jp -> (forall e, et v = Some e -> from e) ->
  (forall e, composed_by n sel v' = Some e -> from e) -> EventHandle n sel v jp = (Ok (v', out), jp') ->
  sourced jp' /\ (forall e, et v' = Some e -> from e) /\ Forall started_from out /\ Coinbase jp' = Coinbase jp.
Proof.
  intros Hs He Hc. unfold EventHandle. intros ([v1 o1] & jp1 & H1 & [= <- <- <-])%JM_bind_inv.
  assert (Hmain : sourced jp1 /\ Coinbase jp1 = Coinbase jp /\ Forall started_from o1 /\ forall e, et v1 = Some e -> from e).
  { destruct sel; cbn [composed_by] in Hc.
    - apply JM_bind_inv in H1 as (e & jp2 & (l & El & ->)%recv_run & [= <- <- <-]). destruct Hs as [H2 H3 H4 H5].
      rewrite El in H2. apply Forall_cons in H2 as [Hf H2]. split_and!; [by split|done..|]. by intros ? [= <-].
    - apply JM_bind_inv in H1 as (e & jp2 & (l & El & ->)%recv_run & [= <- <- <-]). destruct Hs as [H2 H3 H4 H5].
      rewrite El in H4. apply Forall_cons in H4 as [Hf H4]. split_and!; [by split|done|by constructor|]. by intros ? [= <-].
    - apply JM_bind_inv in H1 as (e & jp2 & (l & El & ->)%recv_run & H1). destruct Hs as [H2 H3 H4 H5].
      rewrite El in H3. apply Forall_cons in H3 as [Hf H3].
      apply JM_bind_inv in H1 as (z & jp3 & (_ & _ & _ & ->)%run_read_big & H1).
      apply JM_bind_inv in H1 as (c & jp4 & [= <- <-] & [= <- <- <-]). split_and!; [by split|done..|]. by intros ? [= <-].
    - apply JM_bind_inv in H1 as (e & jp2 & E & [= <- <- <-]). destruct (ComposeEvent_sourced _ _ _ _ _ Hs E) as [Hs' Hb].
      split_and!; [done..| |done]. constructor; [|done]. by apply Hc.
    - case_match.
      + apply JM_bind_inv in H1 as (e & jp2 & E & [= <- <- <-]). by destruct (ComposeEvent_sourced _ _ _ _ _ Hs E) as [Hs' Hb].
      + by injection H1 as <- <- <-.
    - apply JM_bind_inv in H1 as (e & jp2 & (l & El & ->)%recv_run & [= <- <- <-]). destruct Hs as [H2 H3 H4 H5].
      split_and!; [by split|done| |done]. by repeat constructor. }
  destruct Hmain as (Hs' & Hb & Ho & He'). split_and!; [done..| |done]. apply Forall_app. split; [done|].
  destruct (et v1) as [e|]; [|constructor]. destruct (negb _); constructor; [by apply He'|constructor].
Qed.

(** ** Messages *)

(** A message with an event carries the encoding of one with the property. *)
Definition carries (code : Z) (payload : bytes) : Prop :=
  code = eventMsg -> exists e z, P (wire e) /\ 0 <= z < 2 ^ 64 /\ payload = event_wire e z.

Lemma decode_event type_name msg e z : plain e -> 0 <= z -> Payload msg = event_wire e z -> Size msg = zlen (event_wire e z) ->
  zlen (event_wire e z) < 2 ^ 16 -> decode_into type_name msg TEvent = event_gval e (Some z).
Proof.
  intros [Hs _ (ts & Ht & Hts)] Hz Hp Hsz Hl. unfold decode_into. destruct msg as [code t sz p]. cbn [Payload Size] in *. subst.
  by rewrite (Msg_Decode_enc type_name code t TEvent (event_gval e (Some z)) (event_wire e z) eq_refl (event_gval_rt e z ts Hs Ht) (event_wire_enc e z ts Ht (proj1 Hts) Hz) ltac:(lia)).
Qed.

(** What is sent. *)
Inductive out_from : outgoing -> Prop :=
| O_event e z t : from e -> z < 2 ^ 64 -> out_from (Out eventMsg t (TEvent, event_gval e (Some z)))
| O_reply e z t : from e -> z < 2 ^ 64 -> out_from (Out eventMsg t (TPtr TEvent, VPtr (Some (event_gval e (Some z)))))
| O_bytes code t n b : code <> eventMsg -> length b = n -> (n <= 32)%nat -> bytes_ok b -> out_from (Out code t (TByteArray n, VByteArray b)).

Lemma event_stored type_name order msg jp res jp' e z : Code msg = eventMsg -> decode_into type_name msg TEvent = event_gval e (Some z) ->
  handle type_name order msg jp = (Ok res, jp') -> res = (None, []) /\ Coinbase jp' = Coinbase jp /\
  forall tp l', chan_of tp jp' = Some l' -> exists l, chan_of tp jp = Some l /\ (l' = l \/ l' = l ++ [set_RoundID (Some (length (bigs jp))) e]).
Proof.
  intros Hc Hd. unfold handle. rewrite Hc. change (eventMsg =? pingMsg) with false. change (eventMsg =? pongMsg) with false.
  change (eventMsg =? discMsg) with false. change (eventMsg =? eventMsg) with true. cbv iota. rewrite Hd.
  rewrite (JM_bind_ok _ _ jp (set_RoundID (Some (length (bigs jp))) e) (set_bigs (bigs jp ++ [z]) jp)).
  2: { rewrite <- (event_of_gval e (Some z)). reflexivity. }
  set (e' := set_RoundID _ e). set (jp1 := set_bigs _ jp). destruct (ChanEvent (Type_ msg)) as [ch|] eqn:Ech.
  2: { intros [= <- <-]. split_and!; [done..|]. intros tp l' Hl. exists l'. auto. }
  intros (u & jp2 & E & [= <- <-])%JM_bind_inv.
  assert (H : wp (ch e') (fun _ jp2 => Coinbase jp2 = Coinbase jp /\
    forall tp l', chan_of tp jp2 = Some l' -> exists l, chan_of tp jp = Some l /\ (l' = l \/ l' = l ++ [e'])) (fun _ _ => True) jp1).
  { eapply ChanEvent_wp; [exact Ech| |done]. intros l jp3 Hl _ Hl3 Hoth (? & ? & ? & ? & ? & _ & _ & ->) _. split; [done|].
    intros tp l'. destruct (decide (tp = Type_ msg)) as [-> |Hne].
    - rewrite Hl3. intros [= <-]. exists l. auto.
    - rewrite (Hoth tp Hne). intros Hl'. exists l'. auto. }
  unfold wp in H. rewrite E in H. done.
Qed.

(** The encoding of such an event is small. *)
Lemma event_wire_small e z : plain e -> 0 <= z < 2 ^ 64 -> zlen (event_wire e z) < 2 ^ 16 /\ bytes_ok (event_wire e z).
Proof.
  intros [[_ [L1 B1] [L2 B2] [L3 B3] [L4 B4] [L5 B5]] Ht (ts & Hts & Hr)] Hz. unfold event_wire. rewrite Ht, Hts.
  cbn [default from_option id flat_map]. unfold HashLength, AddressLength in *.
  assert (Hn : forall x, 0 <= x < 2 ^ 64 -> zlen (be_min x) <= 8).
  { intros x Hx. rewrite length_be_min. pose proof (nbytes_le x 8 Hx). lia. }
  pose proof (Hn ts ltac:(lia)) as N1. pose proof (Hn z Hz) as N2.
  pose proof (rlp_string_le (be_min ts) ltac:(lia)). pose proof (rlp_string_le (be_min z) ltac:(lia)).
  pose proof (rlp_list_le [] ltac:(cbn; lia)). cbn [length] in *.
  pose proof (rlp_string_le (SelfPart e) ltac:(lia)). pose proof (rlp_string_le (SelfHash e) ltac:(lia)).
  pose proof (rlp_string_le (SelfSig e) ltac:(lia)). pose proof (rlp_list_le (rlp_string (SelfSig e)) ltac:(lia)).
  pose proof (rlp_string_le (OtherPartH e) ltac:(lia)). pose proof (rlp_string_le (OtherPartA e) ltac:(lia)).
  set (p := _ ++ _). assert (Hp : zlen p <= 2 ^ 10) by (unfold p; rewrite !zlen_app; lia).
  pose proof (rlp_list_le p ltac:(lia)). split; [lia|]. apply rlp_list_ok; [|lia]. unfold p.
  repeat match goal with |- bytes_ok (_ ++ _) => apply bytes_ok_app; split end;
    repeat first [apply rlp_list_ok | apply rlp_string_ok]; try apply be_min_ok; try done; try lia; try (cbn; lia). all: apply List.Forall_nil.
Qed.

(** The numbers of rounds that the program counts to. *)
Definition rounds_counted (jp : JPGraph) : Prop := Forall (fun z => z < 2 ^ 64) (bigs jp).

Lemma handle_sourced type_name order msg jp err outs jp' (Ho : forall m, order m ≡ₚ map_to_list m) :
  graph_ok jp -> sourced jp -> rounds_counted jp -> msg_ok msg -> carries (Code msg) (Payload msg) -> Size msg = zlen (Payload msg) ->
  handle type_name order msg jp = (Ok (err, outs), jp') -> sourced jp' /\ Coinbase jp' = Coinbase jp /\ Forall out_from outs.
Proof.
  intros Hg Hs Hr Hm Hc Hsz E. pose proof Hg as [I _ _ _ _ _ C].
  pose proof (handle_wp type_name order msg jp I Ho Hm) as H. unfold wp in H. rewrite E in H. destruct H as (_ & _ & H).
  destruct (Z.eqb_spec (Code msg) eventMsg) as [Hcode|Hne].
  - destruct (Hc Hcode) as (e & z & He & Hz & Hp). assert (Hpl : plain e) by (by apply (plain_wire (wire e)), HP).
    destruct (event_wire_small e z Hpl Hz) as [Hl _].
    destruct (event_stored type_name order msg jp (err, outs) jp' e z Hcode) as (R & Hb & Hch);
      [apply decode_event; try done; [lia|by rewrite Hsz, Hp]|exact E|]. injection R as -> ->. split_and!; [|done|constructor].
    set (e' := set_RoundID _ e) in Hch. assert (Hf : from e') by (split; [exact He|by eexists]).
    assert (Hall : forall tp l l', chan_of tp jp = Some l -> chan_of tp jp' = Some l' -> Forall from l -> Forall from l').
    { intros tp l l' E1 E2 HF. destruct (Hch tp l' E2) as (l0 & E0 & [->| ->]); rewrite E1 in E0; injection E0 as <-; [done|].
      apply Forall_app. eauto. }
    destruct Hs as [H1 H2 H3 H4]. split.
    + exact (Hall Normal _ _ eq_refl eq_refl H1).
    + exact (Hall Witness _ _ eq_refl eq_refl H2).
    + exact (Hall WitnessLocal _ _ eq_refl eq_refl H3).
    + intros x Hx. apply H4. by apply (links_stored _ _ _ (frames_handle _ _ _ _ _ _ E)).
  - destruct H as [-> H]. split_and!; [done..|]. destruct (Code msg =? reqsMsg).
    + destruct H as (_ & [(vx & p & pv & n & z & _ & Hpv & _ & Hz & R)|[R _]]); injection R as -> ->; [|constructor].
      constructor; [|constructor]. apply O_reply; [apply (so_stored _ Hs); by exists p, pv|].
      unfold rounds_counted in Hr. rewrite Forall_lookup in Hr. by apply (Hr n).
    + injection H as -> ->. case_match; constructor; [|constructor]. destruct C as [Lc Bc].
      apply O_bytes; [done|done|unfold AddressLength; lia|done].
Qed.

(** ** On the wire *)

(** Frames of messages that may arrive. *)
Definition good_msg (m : Z * Z * bytes) : Prop := carries m.1.1 m.2 /\ zlen m.2 < 2 ^ 16 /\ bytes_ok m.2.
Definition frames_of (ms : list (Z * Z * bytes)) : bytes := flat_map (fun m => frame m.1.1 m.1.2 m.2) ms.
Definition good_stream (b : bytes) : Prop := exists ms, Forall good_msg ms /\ b = frames_of ms.

Lemma good_stream_app b m : good_stream b -> good_msg m -> good_stream (b ++ frame m.1.1 m.1.2 m.2).
Proof.
  intros (ms & Hms & ->) Hm. exists (ms ++ [m]). split; [apply Forall_app; eauto|]. unfold frames_of. rewrite flat_map_app. cbn. by rewrite app_nil_r.
Qed.

Lemma Send_unencodable c code ty t v : wt t v -> (forall e, ~ rlp_enc t no_tags v e) -> (Send c code ty (Some (t, v))).2 = c.
Proof.
  intros Hwt Hno. unfold Send, EncodeToReader. cbn [default from_option id].
  destruct (encbuf_encode t v (Encbuf [] [] 0)) as [eb|err] eqn:E; [|done]. by destruct (encbuf_encode_sound t v eb Hwt E) as [_ [e He%Hno]].
Qed.

Lemma Send_broken c f code ty d x : fd c = Some f -> fd_err f = Some x -> (Send c code ty d).2 = c.
Proof. intros Hf He. unfold Send, WriteMsg. rewrite Hf, He. by repeat case_match. Qed.

Lemma event_gval_wt e o : event_shape e -> wt TEvent (event_gval e o).
Proof.
  intros [_ [] [] [] [] []]. constructor. repeat constructor; try done.
  all: induction (Trans e) as [|x l IH]; cbn; repeat constructor; done.
Qed.

Lemma rlp_fields_cons m t fs v vs p ts : f_exported m = true -> parseStructTag m t (match fs with [] => true | _ => false end) = Ok ts ->
  ignored ts = false -> rlp_fields ((m, t) :: fs) (v :: vs) p -> exists e p', rlp_enc t ts v e /\ rlp_fields fs vs p'.
Proof.
  intros H1 H2 H3 H. inversion H as [|m0 t0 fs0 v0 vs0 p0 E1 E2|m0 t0 fs0 v0 vs0 p0 ts0 E1 E2 E3 E4|m0 t0 fs0 v0 vs0 e0 p0 ts0 E1 E2 E3 E4 E5]; subst; [congruence..|].
  assert (ts0 = ts) as -> by congruence. eauto.
Qed.

Lemma event_gval_enc e z b : rlp_enc TEvent no_tags (event_gval e (Some z)) b -> 0 <= z.
Proof.
  intros H. inversion H as [| | | | | | | | | | |fs ts vs p Hp| | | | |]; subst. clear H.
  do 7 (apply (rlp_fields_cons _ _ _ _ _ _ no_tags) in Hp as (? & ? & _ & Hp); [|reflexivity..]).
  apply (rlp_fields_cons _ _ _ _ _ _ no_tags) in Hp as (? & ? & Hz & _); [|reflexivity..]. by inversion Hz.
Qed.

(** What [Send] does to a connection: one frame, or nothing. *)
Lemma Send_from c f o : out_from o -> fd c = Some f ->
  let c' := (Send c (o_code o) (o_type o) (Some (o_data o))).2 in
  c' = c \/ exists p, good_msg (o_code o, o_type o, p) /\ c' = set_fd (MkNet (fd_in f) (fd_out f ++ frame (o_code o) (o_type o) p) None) c.
Proof.
  intros Ho Hf. cbv zeta. destruct (fd_err f) as [x|] eqn:Herr; [left; by eapply Send_broken|].
  assert (Hev : forall e z, from e -> z < 2 ^ 64 -> ~ 0 <= z \/ (rlp_enc TEvent no_tags (event_gval e (Some z)) (event_wire e z) /\
    forall t, good_msg (eventMsg, t, event_wire e z))).
  { intros e z Hfr Hz. destruct (decide (0 <= z)) as [Hz0|]; [right|by left]. pose proof (from_plain e Hfr) as Hpl.
    destruct (event_wire_small e z Hpl (conj Hz0 Hz)) as [Hl Hb]. destruct (pl_time _ Hpl) as (ts & Ht & Hts).
    split; [by apply (event_wire_enc e z ts); [|lia|]|]. intros t. split; [|by split]. intros _. exists e, z. by split; [apply Hfr|]. }
  destruct Ho as [e z t Hfr Hz|e z t Hfr Hz|code t n b Hne Hn Hle Hb]; cbn [o_code o_type o_data];
    [destruct (Hev e z Hfr Hz) as [Hneg|[Henc Hgood]]; pose proof (pl_shape _ (from_plain e Hfr)) as Hsh..|].
  - left. apply Send_unencodable; [by apply event_gval_wt|]. by intros b Hb%event_gval_enc.
  - right. exists (event_wire e z). split; [apply Hgood|]. specialize (Hgood t). destruct Hgood as (_ & Hl & _). cbn in Hl.
    rewrite (Send_frame c f eventMsg t TEvent (event_gval e (Some z)) (event_wire e z)); try done; [by apply event_gval_ok|lia].
  - left. apply Send_unencodable; [constructor; by apply event_gval_wt|]. intros b Hb. inversion Hb; subst. by eapply Hneg, event_gval_enc.
  - right. exists (event_wire e z). split; [apply Hgood|]. specialize (Hgood t). destruct Hgood as (_ & Hl & _). cbn in Hl.
    rewrite (Send_frame c f eventMsg t (TPtr TEvent) (VPtr (Some (event_gval e (Some z)))) (event_wire e z)); try done;
      [constructor; by apply event_gval_ok|by constructor|lia].
  - right. exists (rlp_string b). pose proof (rlp_string_le b ltac:(lia)) as Hs.
    split; [split_and!; cbn; [by intros H%Hne|lia|apply rlp_string_ok; [done|lia]]|].
    rewrite (Send_frame c f code t (TByteArray n) (VByteArray b) (rlp_string b)); try done; [by constructor|constructor|lia].
Qed.

(** A message that is read from the beginning of such a stream. *)
Lemma take_prefix {A} n (l l' h t : list A) : l ++ l' = h ++ t -> length h = n -> (n <= length l)%nat ->
  take n l = h /\ drop n l ++ l' = t.
Proof.
  intros E Hn Hl. split.
  - rewrite <- (take_app_le l l' n Hl), E. by apply take_app_length'.
  - rewrite <- (drop_app_le l l' n Hl), E. by apply drop_app_length'.
Qed.

Lemma ReadMsg_from c f rest msg c' : fd c = Some f -> good_stream (fd_in f ++ rest) -> ReadMsg c = (Ok msg, c') ->
  exists f', c' = set_fd f' c /\ fd_out f' = fd_out f /\ good_stream (fd_in f' ++ rest) /\
    msg_ok msg /\ carries (Code msg) (Payload msg) /\ Size msg = zlen (Payload msg).
Proof.
  intros Hf (ms & Hms & Hin) E. unfold ReadMsg in E. rewrite Hf in E. destruct f as [input out err]. cbn [fd_in fd_out] in *.
  unfold io_ReadFull in E. cbn [fd_in fd_out fd_err] in E. destruct (Nat.leb_spec 9 (length input)) as [H9|]; [|done].
  destruct Hms as [|[[code ty] p] ms (Hc & Hl & Hb) Hms]; [cbn in Hin; apply app_eq_nil in Hin as [-> _]; cbn in H9; lia|].
  set (h := code :: putInt32 ty ++ putInt32 (zlen p)).
  destruct (take_prefix 9 input rest h (p ++ frames_of ms)) as [Eh Et]; [rewrite Hin; reflexivity|done|done|].
  rewrite Eh in E. cbn [fst snd] in *. change (drop 5 h) with (putInt32 (zlen p)) in E. pose proof (readInt32_small (zlen p) [] ltac:(lia)) as Hsz.
  rewrite app_nil_r in Hsz. rewrite Hsz, Nat2Z.id in E. cbn [fd_in fd_out fd_err] in E.
  destruct (Nat.leb_spec (length p) (length (drop 9 input))) as [Hp|]; [|done]. injection E as <- <-.
  destruct (take_prefix (length p) (drop 9 input) rest p (frames_of ms) Et eq_refl Hp) as [Ep Er]. rewrite Ep.
  eexists. split; [reflexivity|]. cbn [fd_in fd_out Code Payload Size]. split_and!; [done|by exists ms|split; [exact Hb|cbn; lia]|exact Hc|done].
Qed.

End Origin.

(** A weaker property. *)
Lemma from_mono (P Q : Event -> Prop) e : (forall e, P e -> Q e) -> from P e -> from Q e.
Proof. intros H [H1 H2]. split; [by apply H|done]. Qed.

Lemma node_sourced_mono (P Q : Event -> Prop) s : (forall e, P e -> Q e) -> node_sourced P s -> node_sourced Q s.
Proof.
  intros H [[H1 H2 H3 H4] He Hgo]. split; [split|..]; try (eapply Forall_impl; [done|]; intros e); intros; eapply from_mono; eauto.
Qed.

Lemma carries_mono (P Q : Event -> Prop) code p : (forall e, P e -> Q e) -> carries P code p -> carries Q code p.
Proof. intros H Hc Hcode. destruct (Hc Hcode) as (e & z & He & Hz). exists e, z. eauto. Qed.

Lemma good_stream_mono (P Q : Event -> Prop) b : (forall e, P e -> Q e) -> good_stream P b -> good_stream Q b.
Proof.
  intros H (ms & Hms & ->). exists ms. split; [|done]. eapply Forall_impl; [exact Hms|]. intros m (Hc & Hr). split; [by eapply carries_mono|done].
Qed.

Lemma out_from_mono (P Q : Event -> Prop) o : (forall e, P e -> Q e) -> out_from P o -> out_from Q o.
Proof. intros H [e z t He Hz|e z t He Hz|]; [apply O_event|apply O_reply|by apply O_bytes]; eauto using from_mono. Qed.
