(* ===== verification/Network.v ===== *)
(** * A network of nodes

    Nodes that run this program and are connected to each other.  A host is a node with the connections of its server and the
    goroutines that are about to send.  What one host writes to a connection is carried to the other end byte by byte; connections
    are made and dropped at any time.  The order in which goroutines run, and when bytes arrive, is left open.

    Every host is in a state that a single node can reach, so that all that is shown of [node_step] holds for it; and an
    event in the graph of any host was composed by the host whose address it carries. *)

From S2P Require Import Prelude RlpTypes RlpEncode RlpRaw RlpStream RlpDecode Keccak Sponge Types Graph Jigsaw JigsawSpec Round RoundLoops RoundRest Wire Peer PeerSpec Node System Agreement Ledger Origin.
Local Open Scope Z_scope.
#[local] Opaque keccak_f keccakF1600 Event_Hash.

(** ** Hosts *)

(** A goroutine that is about to send: an event to all peers, a request, the answer of [handle] to a peer. *)
Inductive task :=
| TBroadcast (e : Event) (eventType : Z)
| TRequest (base : Address) (hash : Hash)
| TReply (peer : Address) (o : outgoing).

Definition tasks_of (out : list started) : list task :=
  omap (fun g => match g with
                 | GoBroadcast e t => Some (TBroadcast e t)
                 | GoRequest b h => Some (TRequest b h)
                 | GoAddEvent _ _ => None
                 end) out.

Record host := MkHost { h_node : node_state; h_peers : gmap Address conn; h_tasks : list task }.

Definition set_jp (jp : JPGraph) (s : node_state) : node_state :=
  MkNode jp (n_vars s) (n_go s) (n_num s) (n_front s) (n_blocks s).

(** The hosts by their addresses, and the events that were composed so far, each with the host that composed it. *)
Record network := MkNetwork { hosts : gmap Address host; born : list (Address * Event) }.

Definition new_conn (id : Address) : conn := MkConn (Some (MkNet [] [] None)) id.

(** A host for every address, with its number of nodes [broadness]. *)
Definition network_start (cbs : gmap Address nat) : network :=
  MkNetwork (map_imap (fun a b => Some (MkHost (node_start a b) ∅ [])) cbs) [].

Section Network.

Context (type_name : gtype -> string) (order_events : gmap Hash nat -> list (Hash * nat))
  (order_nodes : gmap Address nat -> list (Address * nat)) (sort : list Address -> list Address)
  (order_peers : gmap Address conn -> list (Address * conn)) (unhandled : nat).

(** Steps of one host, with the events that they compose.  A turn of the loop of the node starts goroutines, which send later with
    the round number of that time.  A message that is complete is handled; an error of [handle] ends the connection, and so may
    the server at any time.  A hash has 32 bytes, as its type in the program says, and round numbers are below 2^64. *)
Inductive host_step : host -> list Event -> host -> Prop :=
| H_loop s ps ts s' : loop_step order_nodes sort s s' -> host_step (MkHost s ps ts) [] (MkHost s' ps ts)
| H_turn s ps ts sel v' out jp' : time_ok sel -> EventHandle unhandled sel (n_vars s) (n_jp s) = (Ok (v', out), jp') ->
    host_step (MkHost s ps ts) (option_list (composed_by unhandled sel v'))
      (MkHost (MkNode jp' v' (n_go s ++ adds out) (n_num s) (n_front s) (n_blocks s)) ps (ts ++ tasks_of out))
| H_broadcast s ps t1 e ty t2 v : rounds_counted (n_jp s) -> load_event e (n_jp s) = (Ok v, n_jp s) ->
    host_step (MkHost s ps (t1 ++ TBroadcast e ty :: t2)) [] (MkHost s (BroadcastEvent order_peers ps v ty).2 (t1 ++ t2))
| H_request s ps t1 base hash t2 : length hash = HashLength -> bytes_ok hash ->
    host_step (MkHost s ps (t1 ++ TRequest base hash :: t2)) [] (MkHost s (RequestEvent ps base hash).2 (t1 ++ t2))
| H_reply s ps t1 b o t2 : host_step (MkHost s ps (t1 ++ TReply b o :: t2)) [] (MkHost s (send_peer ps b o).2 (t1 ++ t2))
| H_ping s ps ts b c : ps !! b = Some c -> host_step (MkHost s ps ts) [] (MkHost s (<[b := ping c]> ps) ts)
| H_receive s ps ts b c msg c' err outs jp' : ps !! b = Some c -> ReadMsg c = (Ok msg, c') -> rounds_counted (n_jp s) ->
    handle type_name order_events msg (n_jp s) = (Ok (err, outs), jp') ->
    host_step (MkHost s ps ts) []
      (MkHost (set_jp jp' s) (match err with None => <[b := c']> ps | Some _ => delete b ps end) (ts ++ (TReply b <$> outs)))
| H_drop s ps ts b : host_step (MkHost s ps ts) [] (MkHost s (delete b ps) ts).

(** Steps of the network: of one host, of bytes on their way, and a new connection, whose handshake is done. *)
Inductive network_step : network -> network -> Prop :=
| N_host W a h es h' : hosts W !! a = Some h -> host_step h es h' ->
    network_step W (MkNetwork (<[a := h']> (hosts W)) (born W ++ (pair a <$> es)))
| N_carry W a b ha hb ca cb fa fb x y : hosts W !! a = Some ha -> hosts W !! b = Some hb -> a <> b ->
    h_peers ha !! b = Some ca -> h_peers hb !! a = Some cb -> fd ca = Some fa -> fd cb = Some fb -> fd_out fa = x ++ y ->
    network_step W (MkNetwork
      (<[a := MkHost (h_node ha) (<[b := set_fd (MkNet (fd_in fa) y (fd_err fa)) ca]> (h_peers ha)) (h_tasks ha)]>
      (<[b := MkHost (h_node hb) (<[a := set_fd (MkNet (fd_in fb ++ x) (fd_out fb) (fd_err fb)) cb]> (h_peers hb)) (h_tasks hb)]> (hosts W))) (born W))
| N_connect W a b ha hb : hosts W !! a = Some ha -> hosts W !! b = Some hb -> a <> b -> h_peers ha !! b = None -> h_peers hb !! a = None ->
    network_step W (MkNetwork
      (<[a := MkHost (h_node ha) (<[b := new_conn b]> (h_peers ha)) (h_tasks ha)]>
      (<[b := MkHost (h_node hb) (<[a := new_conn a]> (h_peers hb)) (h_tasks hb)]> (hosts W))) (born W)).

End Network.

(** ** What stays true *)

Section Invariant.

Context (P : Event -> Prop) (HP : forall e, P e -> plain e).

Definition task_from (t : task) : Prop :=
  match t with TBroadcast e _ => from P e | TRequest _ _ => True | TReply _ o => out_from P o end.

Record host_ok (a : Address) (h : host) : Prop := HostOk {
  ho_node : node_ok (h_node h);
  ho_self : Coinbase (n_jp (h_node h)) = a;
  ho_from : node_sourced P (h_node h);
  ho_tasks : Forall task_from (h_tasks h) }.

(** What arrives at [a] from [b], with what [b] still has to send there, are whole messages. *)
Definition conns_ok (H : gmap Address host) : Prop := forall a b ha ca, H !! a = Some ha -> h_peers ha !! b = Some ca ->
  a <> b /\ cb_ok (c_id ca) /\ exists fa rest, fd ca = Some fa /\ good_stream P (fd_in fa ++ rest) /\
    forall hb cb fb, H !! b = Some hb -> h_peers hb !! a = Some cb -> fd cb = Some fb -> rest = fd_out fb.

Record net_ok (H : gmap Address host) : Prop := NetOk {
  nw_hosts : forall a h, H !! a = Some h -> host_ok a h;
  nw_conns : conns_ok H }.

(** A connection after messages were read or sent. *)
Definition moves (c c' : conn) : Prop := c_id c' = c_id c /\ forall f, fd c = Some f -> exists f' ms, fd c' = Some f' /\
  (forall rest, good_stream P (fd_in f ++ rest) -> good_stream P (fd_in f' ++ rest)) /\
  Forall (good_msg P) ms /\ fd_out f' = fd_out f ++ frames_of ms.

#[local] Instance moves_preorder : PreOrder moves.
Proof.
  split.
  - intros c. split; [done|]. intros f Hf. exists f, []. split_and!; [done..|]. cbn. by rewrite app_nil_r.
  - intros c1 c2 c3 [E1 H1] [E2 H2]. split; [congruence|]. intros f1 F1. destruct (H1 f1 F1) as (f2 & m1 & F2 & I1 & G1 & O1).
    destruct (H2 f2 F2) as (f3 & m2 & F3 & I2 & G2 & O2). exists f3, (m1 ++ m2). split_and!; [done|auto|by apply Forall_app|].
    rewrite O2, O1, <- app_assoc. unfold frames_of. by rewrite flat_map_app.
Qed.

(** The same for the table; connections may be gone. *)
Definition moved (ps ps' : gmap Address conn) : Prop := forall b c', ps' !! b = Some c' -> exists c, ps !! b = Some c /\ moves c c'.

#[local] Instance moved_preorder : PreOrder moved.
Proof.
  split.
  - intros ps b c Hc. by exists c.
  - intros p1 p2 p3 H1 H2 b c3 H3. destruct (H2 b c3 H3) as (c2 & E2 & M2). destruct (H1 b c2 E2) as (c1 & E1 & M1). exists c1. split; [done|by etrans].
Qed.

Lemma moved_insert ps b c c' : ps !! b = Some c -> moves c c' -> moved ps (<[b := c']> ps).
Proof. intros Hb M x cx [[<- <-]|[_ Hx]]%lookup_insert_Some; [by exists c|by exists cx]. Qed.

Lemma moved_delete ps b : moved ps (delete b ps).
Proof. intros x cx [_ Hx]%lookup_delete_Some. by exists cx. Qed.

Lemma Send_moves c o : out_from P o -> moves c (Send c (o_code o) (o_type o) (Some (o_data o))).2.
Proof.
  intros Ho. destruct (fd c) as [f|] eqn:Hf.
  - destruct (Send_from P HP c f o Ho Hf) as [->|(p & Hp & ->)]; [done|]. split; [done|]. rewrite Hf. intros ? [= <-].
    exists (MkNet (fd_in f) (fd_out f ++ frame (o_code o) (o_type o) p) None), [(o_code o, o_type o, p)]. split_and!; [done|done|by constructor|].
    cbn. by rewrite app_nil_r.
  - split; [|by rewrite Hf]. unfold Send, WriteMsg. rewrite Hf. by repeat case_match.
Qed.

Lemma send_peer_moved ps b o : out_from P o -> moved ps (send_peer ps b o).2.
Proof.
  intros Ho. unfold send_peer. destruct (ps !! b) as [c|] eqn:E; [|done]. pose proof (Send_moves c o Ho) as M.
  destruct (Send _ _ _ _) as [err c']. by apply (moved_insert ps b c c').
Qed.

Lemma Broadcast_moved order ps v ty : out_from P (Out eventMsg ty (TEvent, v)) -> moved ps (BroadcastEvent order ps v ty).2.
Proof.
  intros Ho. unfold BroadcastEvent. destruct (order ps) as [|x l]; [done|]. cbn [snd]. generalize (x :: l). clear x l. intros l.
  revert ps. induction l as [|x l IH]; intros ps; [done|]. cbn [foldl]. etrans; [by apply send_peer_moved|apply IH].
Qed.

Lemma Request_moved ps base hash : length hash = HashLength -> bytes_ok hash -> moved ps (RequestEvent ps base hash).2.
Proof.
  intros Hl Hb. unfold RequestEvent. repeat case_match; try done. apply send_peer_moved. apply O_bytes; [done|done|unfold HashLength; lia|done].
Qed.

Lemma ReadMsg_moves c f rest msg c' : fd c = Some f -> good_stream P (fd_in f ++ rest) -> ReadMsg c = (Ok msg, c') -> moves c c'.
Proof.
  intros Hf Hg E. destruct (ReadMsg_from P c f rest msg c' Hf Hg E) as (f' & -> & Ho & _). split; [done|]. rewrite Hf. intros ? [= <-].
  exists f', []. split_and!; [done| |done|by rewrite app_nil_r]. intros rest' Hg'.
  destruct (ReadMsg_from P c f rest' msg _ Hf Hg' E) as (f'' & [= <-] & _ & H & _). exact H.
Qed.

(** One host changes. *)
Lemma update_ok H a h h' : net_ok H -> H !! a = Some h -> host_ok a h' -> moved (h_peers h) (h_peers h') -> net_ok (<[a := h']> H).
Proof.
  intros [Hh Hc] Ha Hok M. split.
  { intros b k [[<- <-]|[_ Hb]]%lookup_insert_Some; [done|by apply Hh]. }
  intros x y hx cx Hx Hcx. apply lookup_insert_Some in Hx as [[<- <-]|[Hne Hx]].
  - destruct (M y cx Hcx) as (c & Ec & Hid & Hm). destruct (Hc a y h c Ha Ec) as (Hxy & Hcb & f & rest & Hf & Hg & Hr).
    destruct (Hm f Hf) as (f' & _ & Hf' & Hin & _). split; [done|]. split; [by rewrite Hid|]. exists f', rest. split_and!; [done|auto|].
    intros hb cb fb. rewrite lookup_insert_ne by done. apply Hr.
  - destruct (Hc x y hx cx Hx Hcx) as (Hxy & Hcb & f & rest & Hf & Hg & Hr). split; [done|]. split; [done|].
    destruct (decide (y = a)) as [->|Hy].
    2: { exists f, rest. split_and!; [done..|]. intros hb cb fb. rewrite lookup_insert_ne by done. apply Hr. }
    destruct (h_peers h' !! x) as [c'|] eqn:Ec'.
    2: { exists f, rest. split_and!; [done..|]. intros hb cb fb. rewrite lookup_insert_eq. intros [= <-]. by rewrite Ec'. }
    destruct (M x c' Ec') as (c & Ec & _ & Hm). destruct (Hc a x h c Ha Ec) as (_ & _ & fc & _ & Hfc & _).
    destruct (Hm fc Hfc) as (f' & ms & Hf' & _ & Hms & Ho). assert (rest = fd_out fc) as -> by (by apply (Hr h c)).
    exists f, (fd_out f'). split_and!; [done| |].
    + destruct Hg as (ms0 & Hms0 & E0). exists (ms0 ++ ms). split; [by apply Forall_app|]. unfold frames_of. rewrite flat_map_app.
      by rewrite Ho, app_assoc, E0.
    + intros hb cb fb. rewrite lookup_insert_eq. intros [= <-]. rewrite Ec'. intros [= <-]. rewrite Hf'. by intros [= <-].
Qed.

(** Both ends of a connection change. *)
Lemma pair_ok H a b ha hb na nb pa pb ca cb fa fb : net_ok H -> H !! a = Some ha -> H !! b = Some hb -> a <> b ->
  pa = <[b := ca]> (h_peers ha) -> pb = <[a := cb]> (h_peers hb) -> na = MkHost (h_node ha) pa (h_tasks ha) -> nb = MkHost (h_node hb) pb (h_tasks hb) ->
  fd ca = Some fa -> fd cb = Some fb -> cb_ok (c_id ca) -> cb_ok (c_id cb) ->
  good_stream P (fd_in fa ++ fd_out fb) -> good_stream P (fd_in fb ++ fd_out fa) -> net_ok (<[a := na]> (<[b := nb]> H)).
Proof.
  intros [Hh Hc] Ha Hb Hab -> -> -> -> Fa Fb Ia Ib Ga Gb. set (na := MkHost (h_node ha) _ _). set (nb := MkHost (h_node hb) _ _).
  assert (Hcases : forall x h, <[a := na]> (<[b := nb]> H) !! x = Some h -> x = a /\ h = na \/ x = b /\ h = nb \/ x <> a /\ x <> b /\ H !! x = Some h).
  { intros x h. rewrite !lookup_insert_Some. intros [[<- <-]|[N [[<- <-]|[N' Hx]]]]; auto 10. }
  assert (Hold : forall x y h c, <[a := na]> (<[b := nb]> H) !! x = Some h -> h_peers h !! y = Some c ->
    ~ (x = a /\ y = b) -> ~ (x = b /\ y = a) -> exists h0, H !! x = Some h0 /\ h_peers h0 !! y = Some c).
  { intros x y h c [[-> ->]|[[-> ->]|(? & ? & ?)]]%Hcases Hy N1 N2; [| |by eauto].
    - exists ha. split; [done|]. cbn in Hy. by rewrite lookup_insert_ne in Hy by (intros ->; by apply N1).
    - exists hb. split; [done|]. cbn in Hy. by rewrite lookup_insert_ne in Hy by (intros ->; by apply N2). }
  split.
  - intros x h [[-> ->]|[[-> ->]|(_ & _ & Hx)]]%Hcases; [by destruct (Hh a ha Ha)|by destruct (Hh b hb Hb)|by apply Hh].
  - intros x y h c Hx Hy. destruct (decide (x = a /\ y = b)) as [[-> ->]|N1]; [|destruct (decide (x = b /\ y = a)) as [[-> ->]|N2]].
    + rewrite lookup_insert_eq in Hx. injection Hx as <-. cbn in Hy. rewrite lookup_insert_eq in Hy. injection Hy as <-.
      split; [done|]. split; [done|]. exists fa, (fd_out fb). split_and!; [done..|]. intros h' c' f'.
      rewrite lookup_insert_ne, lookup_insert_eq by done. intros [= <-]. cbn. rewrite lookup_insert_eq. congruence.
    + rewrite lookup_insert_ne, lookup_insert_eq in Hx by done. injection Hx as <-. cbn in Hy. rewrite lookup_insert_eq in Hy. injection Hy as <-.
      split; [done|]. split; [done|]. exists fb, (fd_out fa). split_and!; [done..|]. intros h' c' f'.
      rewrite lookup_insert_eq. intros [= <-]. cbn. rewrite lookup_insert_eq. congruence.
    + destruct (Hold x y h c Hx Hy N1 N2) as (h0 & Hx0 & Hy0). destruct (Hc x y h0 c Hx0 Hy0) as (Hxy & Hid & f & rest & Hf & Hg & Hr).
      split; [done|]. split; [done|]. exists f, rest. split_and!; [done..|]. intros h' c' f' H1 H2 H3.
      destruct (Hold y x h' c' H1 H2) as (h1 & Hy1 & Hx1); [intros [-> ->]; by apply N2|intros [-> ->]; by apply N1|]. by apply (Hr h1 c').
Qed.

Lemma carry_ok H a b ha hb ca cb fa fb x y : net_ok H -> H !! a = Some ha -> H !! b = Some hb -> a <> b ->
  h_peers ha !! b = Some ca -> h_peers hb !! a = Some cb -> fd ca = Some fa -> fd cb = Some fb -> fd_out fa = x ++ y ->
  net_ok (<[a := MkHost (h_node ha) (<[b := set_fd (MkNet (fd_in fa) y (fd_err fa)) ca]> (h_peers ha)) (h_tasks ha)]>
    (<[b := MkHost (h_node hb) (<[a := set_fd (MkNet (fd_in fb ++ x) (fd_out fb) (fd_err fb)) cb]> (h_peers hb)) (h_tasks hb)]> H)).
Proof.
  intros Hok Ha Hb Hab Ca Cb Fa Fb Ho. destruct (nw_conns _ Hok a b ha ca Ha Ca) as (_ & Ia & fa0 & ra & Ea & Ga & Ra).
  destruct (nw_conns _ Hok b a hb cb Hb Cb) as (_ & Ib & fb0 & rb & Eb & Gb & Rb). rewrite Fa in Ea. injection Ea as <-. rewrite Fb in Eb. injection Eb as <-.
  rewrite (Ra hb cb fb Hb Cb Fb) in Ga. rewrite (Rb ha ca fa Ha Ca Fa), Ho in Gb.
  eapply (pair_ok H a b ha hb); try done. cbn. by rewrite <- app_assoc.
Qed.

Lemma connect_ok H a b ha hb : net_ok H -> H !! a = Some ha -> H !! b = Some hb -> a <> b ->
  net_ok (<[a := MkHost (h_node ha) (<[b := new_conn b]> (h_peers ha)) (h_tasks ha)]>
    (<[b := MkHost (h_node hb) (<[a := new_conn a]> (h_peers hb)) (h_tasks hb)]> H)).
Proof.
  intros Hok Ha Hb Hab. assert (Hcb : forall x h, H !! x = Some h -> cb_ok x).
  { intros x h Hx. destruct (nw_hosts _ Hok x h Hx) as [Hn <- _ _]. apply Hn. }
  eapply (pair_ok H a b ha hb); try done; [by eapply Hcb..| |]; by exists [].
Qed.

Context (type_name : gtype -> string) (order_events : gmap Hash nat -> list (Hash * nat))
  (order_nodes : gmap Address nat -> list (Address * nat)) (sort : list Address -> list Address)
  (order_peers : gmap Address conn -> list (Address * conn)) (unhandled : nat)
  (Hevents : forall m, order_events m ≡ₚ map_to_list m).

Abbreviation hstep := (host_step type_name order_events order_nodes sort order_peers unhandled).
Abbreviation nstep := (node_step type_name order_events order_nodes sort unhandled).

Lemma tasks_from out : Forall (started_from P) out -> Forall task_from (tasks_of out).
Proof. intros H. induction H as [|g out Hg _ IH]; [constructor|]. destruct g; cbn; [by constructor..|done]. Qed.

Lemma host_task a s ps t1 t t2 ps' : host_ok a (MkHost s ps (t1 ++ t :: t2)) -> task_from t /\ host_ok a (MkHost s ps' (t1 ++ t2)).
Proof.
  intros [H1 H2 H3 H4]. cbn in *. apply Forall_app in H4 as [H4 [Ht H5]%Forall_cons]. split; [done|]. split; [done..|]. cbn. by apply Forall_app.
Qed.

Lemma host_peers a s ps ts ps' : host_ok a (MkHost s ps ts) -> host_ok a (MkHost s ps' ts).
Proof. by intros []. Qed.

Lemma load_from jp e v : from P e -> rounds_counted jp -> load_event e jp = (Ok v, jp) -> forall t, out_from P (Out eventMsg t (TEvent, v)).
Proof.
  intros He Hr E t. pose proof He as [_ [n Hn]]. unfold load_event in E. rewrite Hn in E.
  apply JM_bind_inv in E as (z & jp1 & (n' & [= <-] & Hz & _)%run_read_big & [= <- _]). apply O_event; [done|].
  unfold rounds_counted in Hr. rewrite Forall_lookup in Hr. by apply (Hr n).
Qed.

(** A turn of the loop. *)
Lemma turn_ok a s ps ts sel v' out jp' : host_ok a (MkHost s ps ts) -> time_ok sel ->
  EventHandle unhandled sel (n_vars s) (n_jp s) = (Ok (v', out), jp') -> (forall e, composed_by unhandled sel v' = Some e -> P (wire e)) ->
  let s' := MkNode jp' v' (n_go s ++ adds out) (n_num s) (n_front s) (n_blocks s) in
  host_ok a (MkHost s' ps (ts ++ tasks_of out)) /\ nstep s s'.
Proof.
  intros [H1 H2 [S1 S2 S3] H4] Ht E Hc s'. cbn in *.
  assert (St : nstep s s') by (destruct s; by apply (Step_turn _ _ _ _ _ _ _ _ _ _ _ sel v' out jp')).
  destruct (turn_sourced P unhandled sel (n_vars s) (n_jp s) v' out jp' S1 S2) as (Q1 & Q2 & Q3 & Q4); [|done|].
  { intros e He. split; [by apply Hc|]. by apply (turn_composed unhandled sel (n_vars s) (n_jp s) v' out jp' e (no_graph _ H1)). }
  split; [|done]. split; cbn; [|by rewrite Q4| |].
  - by apply (node_step_ok _ _ _ _ Hevents _ _ _ H1 St).
  - split; cbn; [done..|]. apply Forall_app. split; [done|by apply adds_from].
  - apply Forall_app. split; [done|by apply tasks_from].
Qed.

(** A message that arrives. *)
Lemma receive_ok a s ps ts b c f rest msg c' err outs jp' ps' : host_ok a (MkHost s ps ts) -> fd c = Some f -> good_stream P (fd_in f ++ rest) ->
  ReadMsg c = (Ok msg, c') -> rounds_counted (n_jp s) -> handle type_name order_events msg (n_jp s) = (Ok (err, outs), jp') ->
  host_ok a (MkHost (set_jp jp' s) ps' (ts ++ (TReply b <$> outs))) /\ nstep s (set_jp jp' s).
Proof.
  intros [H1 H2 [S1 S2 S3] H4] Hf Hg Er Hr E. cbn in *. destruct (ReadMsg_from P c f rest msg c' Hf Hg Er) as (_ & _ & _ & _ & Hm & Hc & Hsz).
  assert (St : nstep s (set_jp jp' s)) by (destruct s; by apply (Step_message _ _ _ _ _ _ _ _ _ _ _ msg (err, outs) jp')).
  destruct (handle_sourced P HP type_name order_events msg (n_jp s) err outs jp' Hevents (no_graph _ H1) S1 Hr Hm Hc Hsz E) as (Q1 & Q2 & Q3).
  split; [|done]. split; cbn; [|by rewrite Q2|by split|].
  - by apply (node_step_ok _ _ _ _ Hevents _ _ _ H1 St).
  - apply Forall_app. split; [done|]. apply Forall_fmap. eapply Forall_impl; [exact Q3|done].
Qed.

Lemma ping_moves c : cb_ok (c_id c) -> moves c (ping c).
Proof. intros [Hl Hb]. apply (Send_moves c (Out pingMsg 0 (TAddress, VByteArray (c_id c)))). apply O_bytes; [done|done|unfold AddressLength; lia|done]. Qed.

Lemma host_step_ok H a h es h' : net_ok H -> H !! a = Some h -> hstep h es h' -> (forall e, e ∈ es -> P (wire e)) ->
  host_ok a h' /\ moved (h_peers h) (h_peers h') /\ rtc nstep (h_node h) (h_node h').
Proof.
  intros [Hh Hc] Ha Hs Hes. pose proof (Hh a h Ha) as Hok.
  destruct Hs as [s ps ts s' Hl|s ps ts sel v' out jp' Ht E|s ps t1 e ty t2 v Hr E|s ps t1 base hash t2 Hl Hb|s ps t1 b o t2
    |s ps ts b c Hp|s ps ts b c msg c' err outs jp' Hp Er Hr E|s ps ts b]; cbn [h_peers h_node].
  - destruct Hok as [H1 H2 H3 H4]. destruct (loop_step_sourced P HP _ _ _ _ H1 H3 Hl) as [Hs' Hcb]. split_and!; [|done|by apply rtc_once, Step_loop].
    split; cbn in *; [by apply (loop_step_ok _ _ _ _ H1 Hl)|by rewrite Hcb|done..].
  - destruct (turn_ok a s ps ts sel v' out jp' Hok Ht E) as [Q St]; [|by split_and!; [|done|apply rtc_once]].
    intros e He. apply Hes. rewrite He. by left.
  - destruct (host_task a s ps t1 _ t2 (BroadcastEvent order_peers ps v ty).2 Hok) as [Hf Q]. split_and!; [done| |done].
    by apply Broadcast_moved, (load_from (n_jp s) e).
  - destruct (host_task a s ps t1 _ t2 (RequestEvent ps base hash).2 Hok) as [_ Q]. split_and!; [done| |done]. by apply Request_moved.
  - destruct (host_task a s ps t1 _ t2 (send_peer ps b o).2 Hok) as [Ho Q]. split_and!; [done| |done]. by apply send_peer_moved.
  - split_and!; [by eapply host_peers| |done]. apply (moved_insert ps b c); [done|]. apply ping_moves. by apply (Hc a b _ c Ha Hp).
  - destruct (Hc a b _ c Ha Hp) as (_ & _ & f & rest & Hf & Hg & _).
    destruct (receive_ok a s ps ts b c f rest msg c' err outs jp' (match err with None => <[b := c']> ps | Some _ => delete b ps end) Hok Hf Hg Er Hr E) as [Q St].
    split_and!; [done| |by apply rtc_once]. destruct err; [apply moved_delete|]. apply (moved_insert ps b c); [done|]. by eapply ReadMsg_moves.
  - split_and!; [by eapply host_peers|apply moved_delete|done].
Qed.

Lemma host_step_born a h es h' e : host_ok a h -> hstep h es h' -> e ∈ es -> plain e /\ SelfSig e = a.
Proof.
  intros [H1 H2 _ _] Hs He. destruct Hs as [|s ps ts sel v' out jp' Ht E| | | | | |]; try by apply elem_of_nil in He.
  destruct (composed_by unhandled sel v') as [x|] eqn:Ex; cbn in He; [apply list_elem_of_singleton in He as ->|by apply elem_of_nil in He].
  cbn in *. destruct (turn_composed _ _ _ _ _ _ _ x (no_graph _ H1) Ht E Ex) as (Hp & Hsig & _). split; [done|congruence].
Qed.

End Invariant.

(** ** Everything that is in the network was composed in it *)

(** What an event that is in the list of composed events looks like elsewhere. *)
Definition authored (l : list (Address * Event)) (e : Event) : Prop :=
  exists e', (SelfSig e, e') ∈ l /\ wire e' = wire e.

Definition genuine (l : list (Address * Event)) (e : Event) : Prop := plain e /\ authored l e.

Section Runs.

Context (type_name : gtype -> string) (order_events : gmap Hash nat -> list (Hash * nat))
  (order_nodes : gmap Address nat -> list (Address * nat)) (sort : list Address -> list Address)
  (order_peers : gmap Address conn -> list (Address * conn)) (unhandled : nat)
  (Hevents : forall m, order_events m ≡ₚ map_to_list m).

Abbreviation nstep := (node_step type_name order_events order_nodes sort unhandled).
Abbreviation wstep := (network_step type_name order_events order_nodes sort order_peers unhandled).

Lemma genuine_mono l l' e : genuine l e -> genuine (l ++ l') e.
Proof. intros [H (e' & He & Hw)]. split; [done|]. exists e'. split; [|done]. apply elem_of_app. by left. Qed.

Lemma net_ok_mono (P Q : Event -> Prop) H : (forall e, P e -> Q e) -> net_ok P H -> net_ok Q H.
Proof.
  intros HPQ [Hh Hc]. split.
  - intros a h Ha. destruct (Hh a h Ha) as [H1 H2 H3 H4]. split; [done|done|by eapply node_sourced_mono|].
    eapply Forall_impl; [exact H4|]. intros [e t|b x|b o]; cbn; eauto using from_mono, out_from_mono.
  - intros a b ha ca Ha Hca. destruct (Hc a b ha ca Ha Hca) as (? & ? & fa & rest & ? & ? & ?). split_and!; [done..|].
    exists fa, rest. split_and!; [done|by eapply good_stream_mono|done].
Qed.

Lemma network_step_ok W W' : net_ok (genuine (born W)) (hosts W) -> wstep W W' ->
  net_ok (genuine (born W')) (hosts W') /\ (forall a h', hosts W' !! a = Some h' -> exists h, hosts W !! a = Some h /\ rtc nstep (h_node h) (h_node h')).
Proof.
  assert (HP : forall l e, genuine l e -> plain e) by (by intros l e []).
  intros Hok Hs. destruct Hs as [W a h es h' Ha Hs|W a b ha hb ca cb fa fb x y Ha Hb Hab Ca Cb Fa Fb Ho|W a b ha hb Ha Hb Hab Na Nb]; cbn [hosts born].
  - set (l' := born W ++ _). assert (Hok' : net_ok (genuine l') (hosts W)) by (eapply net_ok_mono; [|exact Hok]; intros e; apply genuine_mono).
    destruct (host_step_ok (genuine l') (HP l') _ _ _ _ _ unhandled Hevents _ a h es h' Hok' Ha Hs) as (Q & M & St).
    { intros e He. destruct (host_step_born _ _ _ _ _ _ _ a h es h' e (nw_hosts _ _ Hok a h Ha) Hs He) as [Hp Hsig].
      split; [by apply (plain_wire e)|]. exists e. split; [|done]. apply elem_of_app. right. cbn. rewrite Hsig. by apply list_elem_of_fmap_2. }
    split; [by eapply update_ok|]. intros x hx [[<- <-]|[_ Hx]]%lookup_insert_Some; eauto using rtc_refl.
  - split; [by eapply carry_ok|]. intros z hz. rewrite !lookup_insert_Some. intros [[<- <-]|[_ [[<- <-]|[_ Hz]]]]; cbn; eauto using rtc_refl.
  - split; [by eapply connect_ok|]. intros z hz. rewrite !lookup_insert_Some. intros [[<- <-]|[_ [[<- <-]|[_ Hz]]]]; cbn; eauto using rtc_refl.
Qed.

Lemma start_ok cbs : map_Forall (fun a b => cb_ok a /\ (b <= MaxNodeCount)%nat) cbs -> net_ok (genuine []) (hosts (network_start cbs)).
Proof.
  intros Hcbs. assert (Hl : forall a h, hosts (network_start cbs) !! a = Some h -> exists b, cbs !! a = Some b /\ h = MkHost (node_start a b) ∅ []).
  { intros a h. cbn. rewrite map_lookup_imap. intros (b & Hb & [= <-])%bind_Some. by exists b. }
  split.
  - intros a h (b & Hb & ->)%Hl. destruct (Hcbs a b Hb) as [Hcb Hle]. destruct (NewJPGraph_fields a b) as (_ & _ & _ & E4 & _ & E6 & E7).
    split; cbn; [by apply node_start_ok|done| |constructor]. split; cbn; [|done|constructor]. split; [rewrite E6; constructor|rewrite E7; constructor|apply Forall_nil_2|].
    intros e (v & vx & Hv & _). by rewrite (eq_refl : vertices (NewJPGraph a b) = []) in Hv.
  - intros a b ha ca (b' & _ & ->)%Hl Hca. cbn in Hca. by rewrite lookup_empty in Hca.
Qed.

Lemma network_invariant cbs W : map_Forall (fun a b => cb_ok a /\ (b <= MaxNodeCount)%nat) cbs -> rtc wstep (network_start cbs) W ->
  net_ok (genuine (born W)) (hosts W) /\
  forall a h, hosts W !! a = Some h -> exists b, cbs !! a = Some b /\ rtc nstep (node_start a b) (h_node h).
Proof.
  intros Hcbs Hs. pose proof (start_ok cbs Hcbs) as H0.
  assert (Hgen : forall W0, rtc wstep W0 W -> net_ok (genuine (born W0)) (hosts W0) ->
    net_ok (genuine (born W)) (hosts W) /\ forall a h', hosts W !! a = Some h' -> exists h, hosts W0 !! a = Some h /\ rtc nstep (h_node h) (h_node h')).
  { intros W0 HW. induction HW as [W0|W0 W1 W2 H1 _ IH]; intros Hok; [eauto using rtc_refl|].
    destruct (network_step_ok W0 W1 Hok H1) as [Hok1 Hr1]. destruct (IH Hs Hok1) as [Hok2 Hr2]. split; [done|].
    intros a h' Ha. destruct (Hr2 a h' Ha) as (h1 & Ha1 & R1). destruct (Hr1 a h1 Ha1) as (h0 & Ha0 & R0). exists h0. split; [done|by etrans]. }
  destruct (Hgen _ Hs H0) as [Hok Hr]. split; [done|]. intros a h Ha. destruct (Hr a h Ha) as (h0 & E & R).
  cbn in E. rewrite map_lookup_imap in E. apply bind_Some in E as (b & Hb & [= <-]). by exists b.
Qed.

End Runs.

(** ** Running a network *)

(** What happens next, for examples. *)
Inductive command :=
| CTurn (a : Address) (sel : selected)
| CBroadcast (a : Address)
| CReceive (a b : Address)
| CAdd (a : Address)
| CCarry (a b : Address)
| CConnect (a b : Address).

Section Perform.

Context (type_name : gtype -> string) (order_events : gmap Hash nat -> list (Hash * nat))
  (order_nodes : gmap Address nat -> list (Address * nat)) (sort : list Address -> list Address)
  (order_peers : gmap Address conn -> list (Address * conn)) (unhandled : nat).

Abbreviation hstep := (host_step type_name order_events order_nodes sort order_peers unhandled).
Abbreviation wstep := (network_step type_name order_events order_nodes sort order_peers unhandled).

Definition time_okb (sel : selected) : bool :=
  match sel with SelOnlyTime now _ | SelOverFlow now _ => (0 <=? now) && (now <? 2 ^ 63) | _ => true end.
Definition countedb (jp : JPGraph) : bool := forallb (fun z => z <? 2 ^ 64) (bigs jp).

(** The first thing of the kind that the host can do; events are added to empty graphs only. *)
Definition perform_host (c : command) (h : host) : option (list Event * host) :=
  let s := h_node h in
  match c with
  | CTurn _ sel =>
      match EventHandle unhandled sel (n_vars s) (n_jp s) with
      | (Ok (v', out), jp') => if time_okb sel then
          Some (option_list (composed_by unhandled sel v'),
            MkHost (MkNode jp' v' (n_go s ++ adds out) (n_num s) (n_front s) (n_blocks s)) (h_peers h) (h_tasks h ++ tasks_of out))
          else None
      | _ => None
      end
  | CBroadcast _ =>
      match h_tasks h with
      | TBroadcast e ty :: ts =>
          match RoundID e with
          | Some n => z ← bigs (n_jp s) !! n; if countedb (n_jp s)
              then Some ([], MkHost s (BroadcastEvent order_peers (h_peers h) (event_gval e (Some z)) ty).2 ts) else None
          | None => None
          end
      | _ => None
      end
  | CReceive _ b =>
      c ← h_peers h !! b;
      match ReadMsg c with
      | (Ok msg, c') =>
          match handle type_name order_events msg (n_jp s) with
          | (Ok (err, outs), jp') => if countedb (n_jp s) then
              Some ([], MkHost (set_jp jp' s) (match err with None => <[b := c']> (h_peers h) | Some _ => delete b (h_peers h) end)
                          (h_tasks h ++ (TReply b <$> outs))) else None
          | _ => None
          end
      | _ => None
      end
  | CAdd _ =>
      match n_go s, vertices (n_jp s) with
      | (e, t) :: go, [] =>
          match AddEvent e t (n_jp s) with
          | (Ok _, jp') => Some ([], MkHost (MkNode jp' (n_vars s) go (n_num s) (n_front s) (n_blocks s)) (h_peers h) (h_tasks h))
          | _ => None
          end
      | _, _ => None
      end
  | CCarry _ _ | CConnect _ _ => None
  end.

Lemma countedb_ok jp : countedb jp = true -> rounds_counted jp.
Proof. unfold countedb, rounds_counted. rewrite forallb_forall, List.Forall_forall. intros H z Hz. apply Z.ltb_lt. by apply H. Qed.

Lemma perform_host_ok c h es h' : perform_host c h = Some (es, h') -> hstep h es h'.
Proof.
  destruct h as [s ps ts]. destruct c as [a sel|a|a b|a| |]; cbn [perform_host h_node h_peers h_tasks]; [..|done|done].
  - destruct (EventHandle _ _ _ _) as [[[v' out]|] jp'] eqn:E; [|done]. destruct (time_okb sel) eqn:Ht; [|done]. intros [= <- <-].
    apply (H_turn _ _ _ _ _ _ s ps ts sel v' out jp'); [|exact E].
    destruct sel; try done; cbn in Ht |- *; apply andb_true_iff in Ht as [?%Z.leb_le ?%Z.ltb_lt]; lia.
  - destruct ts as [|[e ty| |] ts]; try done. destruct (RoundID e) as [n|] eqn:Hn; [|done].
    destruct (bigs (n_jp s) !! n) as [z|] eqn:Hz; [|done]. cbn. destruct (countedb _) eqn:Hr; [|done]. intros [= <- <-].
    apply (H_broadcast _ _ _ _ _ _ s ps [] e ty ts); [by apply countedb_ok|]. by apply (load_event_run e n z).
  - destruct (ps !! b) as [c|] eqn:Hb; [|done]. cbn. destruct (ReadMsg c) as [[msg|] c'] eqn:Er; [|done].
    destruct (handle _ _ _ _) as [[[err outs]|] jp'] eqn:E; [|done]. destruct (countedb _) eqn:Hr; [|done]. intros [= <- <-].
    eapply H_receive; [exact Hb|exact Er|by apply countedb_ok|exact E].
  - destruct s as [jp v go num fr tb]. cbn. destruct go as [|[e t] go]; [done|]. destruct (vertices jp) eqn:Hv; [|done].
    destruct (AddEvent e t jp) as [[res|] jp'] eqn:E; [|done]. intros [= <- <-]. apply H_loop.
    apply (Step_add _ _ jp v [] e t go num fr tb res jp'); [by apply no_collision_nil|exact E].
Qed.

Definition perform (c : command) (W : network) : option network :=
  match c with
  | CCarry a b =>
      ha ← hosts W !! a; hb ← hosts W !! b; ca ← h_peers ha !! b; cb ← h_peers hb !! a; fa ← fd ca; fb ← fd cb;
      if decide (a = b) then None else Some (MkNetwork
        (<[a := MkHost (h_node ha) (<[b := set_fd (MkNet (fd_in fa) [] (fd_err fa)) ca]> (h_peers ha)) (h_tasks ha)]>
        (<[b := MkHost (h_node hb) (<[a := set_fd (MkNet (fd_in fb ++ fd_out fa) (fd_out fb) (fd_err fb)) cb]> (h_peers hb)) (h_tasks hb)]> (hosts W))) (born W))
  | CConnect a b =>
      ha ← hosts W !! a; hb ← hosts W !! b;
      match h_peers ha !! b, h_peers hb !! a with
      | None, None => if decide (a = b) then None else Some (MkNetwork
          (<[a := MkHost (h_node ha) (<[b := new_conn b]> (h_peers ha)) (h_tasks ha)]>
          (<[b := MkHost (h_node hb) (<[a := new_conn a]> (h_peers hb)) (h_tasks hb)]> (hosts W))) (born W))
      | _, _ => None
      end
  | CTurn a _ | CBroadcast a | CReceive a _ | CAdd a =>
      h ← hosts W !! a; '(es, h') ← perform_host c h; Some (MkNetwork (<[a := h']> (hosts W)) (born W ++ (pair a <$> es)))
  end.

Lemma perform_ok c W W' : perform c W = Some W' -> wstep W W'.
Proof.
  assert (Hhost : forall a, (h ← hosts W !! a; '(es, h') ← perform_host c h; Some (MkNetwork (<[a := h']> (hosts W)) (born W ++ (pair a <$> es)))) = Some W' -> wstep W W').
  { intros a (h & Ha & ([es h'] & E%perform_host_ok & [= <-])%bind_Some)%bind_Some. by eapply N_host. }
  destruct c as [a sel|a|a b|a|a b|a b]; try exact (Hhost a); cbn [perform]; intros H.
  - apply bind_Some in H as (ha & Ha & H). apply bind_Some in H as (hb & Hb & H). apply bind_Some in H as (ca & Ca & H).
    apply bind_Some in H as (cb & Cb & H). apply bind_Some in H as (fa & Fa & H). apply bind_Some in H as (fb & Fb & H).
    case_decide; [done|]. injection H as <-. eapply N_carry; try done. by rewrite app_nil_r.
  - apply bind_Some in H as (ha & Ha & H). apply bind_Some in H as (hb & Hb & H).
    destruct (h_peers ha !! b) eqn:Ea, (h_peers hb !! a) eqn:Eb; try done. case_decide; [done|]. injection H as <-. by eapply N_connect.
Qed.

Fixpoint run_network (cs : list command) (W : network) : option network :=
  match cs with
  | [] => Some W
  | c :: cs => W' ← perform c W; run_network cs W'
  end.

Lemma run_network_ok cs W W' : run_network cs W = Some W' -> rtc wstep W W'.
Proof.
  revert W. induction cs as [|c cs IH]; intros W; cbn [run_network]; [by intros [= <-]|].
  intros (W1 & H1%perform_ok & H2)%bind_Some. eapply rtc_l; [exact H1|by apply IH].
Qed.

End Perform.

(** ** Theorems *)

(** C10: every host of a network is a node.  In whatever way the goroutines of the hosts take turns, bytes travel, and connections come
    and go: a host is in a state that [node_step] reaches from the start, so that its graph is well-formed and a
    refinement of the ledger; and what the server of a host has received from another, followed by what is on its way, are whole
    messages, as the other sent them. *)
Theorem network_refines_nodes type_name order_events order_nodes sort order_peers unhandled cbs W a h
    (Hevents : forall m, order_events m ≡ₚ map_to_list m) (Hcbs : map_Forall (fun a b => cb_ok a /\ (b <= MaxNodeCount)%nat) cbs)
    (Hs : rtc (network_step type_name order_events order_nodes sort order_peers unhandled) (network_start cbs) W)
    (Ha : hosts W !! a = Some h) :
  (exists b, cbs !! a = Some b /\ rtc (node_step type_name order_events order_nodes sort unhandled) (node_start a b) (h_node h)) /\
  forall b hb ca cb fa fb, hosts W !! b = Some hb -> h_peers h !! b = Some ca -> h_peers hb !! a = Some cb -> fd ca = Some fa -> fd cb = Some fb ->
    exists ms, fd_in fa ++ fd_out fb = frames_of ms /\ Forall (good_msg (authored (born W))) ms.
Proof.
  destruct (network_invariant _ _ _ _ order_peers _ Hevents cbs W Hcbs Hs) as [Hok Hr]. split; [by apply Hr|].
  intros b hb ca cb fa fb Hb Ca Cb Fa Fb. destruct (nw_conns _ _ Hok a b h ca Ha Ca) as (_ & _ & f & rest & Ef & Hg & Hrest).
  rewrite Fa in Ef. injection Ef as <-. rewrite <- (Hrest hb cb fb Hb Cb Fb).
  destruct (good_stream_mono _ (authored (born W)) _ (fun e H => proj2 H) Hg) as (ms & Hms & E). by exists ms.
Qed.

(** C9: no event is attributed to a host that did not compose it.  An event in the graph of any host was composed, with the same
    content and hash, by the host whose address it carries; it has no transactions, and its hash is that of its content. *)
Theorem network_authentic type_name order_events order_nodes sort order_peers unhandled cbs W a h e
    (Hevents : forall m, order_events m ≡ₚ map_to_list m) (Hcbs : map_Forall (fun a b => cb_ok a /\ (b <= MaxNodeCount)%nat) cbs)
    (Hs : rtc (network_step type_name order_events order_nodes sort order_peers unhandled) (network_start cbs) W)
    (Ha : hosts W !! a = Some h) (He : stored (n_jp (h_node h)) e) :
  (exists e', (SelfSig e, e') ∈ born W /\ wire e' = wire e) /\ Trans e = [] /\ Event_Hash e = SelfHash e.
Proof.
  destruct (network_invariant _ _ _ _ order_peers _ Hevents cbs W Hcbs Hs) as [Hok _]. destruct (nw_hosts _ _ Hok a h Ha) as [Hn _ Hf _].
  destruct (so_stored _ _ (ns_graph _ _ Hf) e He) as [[Hp (e' & Hin & Hw)] _]. split; [by exists e'|]. split; [apply Hp|].
  destruct He as (v & vx & Hv & <-). apply (inv_vertex _ (go_inv _ (no_graph _ Hn)) v vx Hv).
Qed.

(** ** An example: host 1 composes an event, broadcasts it, and host 2 adds it *)

Definition ex_1 : Address := replicate 20 1.
Definition ex_2 : Address := replicate 20 2.
Definition ex_hosts : gmap Address nat := {[ex_1 := 2%nat; ex_2 := 2%nat]}.
Definition ex_commands : list command :=
  [CConnect ex_1 ex_2; CTurn ex_1 (SelOnlyTime 5 0); CBroadcast ex_1; CCarry ex_1 ex_2; CReceive ex_2 ex_1; CTurn ex_2 SelNorm; CAdd ex_2].
Definition ex_network : option network :=
  run_network (fun _ => ""%string) map_to_list map_to_list 0 ex_commands (network_start ex_hosts).

Lemma ex_hosts_ok : map_Forall (fun a b => cb_ok a /\ (b <= MaxNodeCount)%nat) ex_hosts.
Proof.
  unfold ex_hosts. apply map_Forall_insert_2; [split; [apply ex_cb; lia|unfold MaxNodeCount; lia]|].
  apply map_Forall_singleton. split; [apply ex_cb; lia|unfold MaxNodeCount; lia].
Qed.

(** Host 2 has an event with the address of host 1, and host 1 composed one event. *)
Definition ex_reached (W : network) : bool :=
  (length (born W) =? 1)%nat &&
  match hosts W !! ex_2 with
  | Some h => match vertices (n_jp (h_node h)) with [vx] => bool_decide (SelfSig (v_event vx) = ex_1) | _ => false end
  | None => false
  end.

Lemma ex_network_runs : exists W h vx, rtc (network_step (fun _ => ""%string) map_to_list map_to_list id map_to_list 0) (network_start ex_hosts) W /\
  hosts W !! ex_2 = Some h /\ vertices (n_jp (h_node h)) !! 0%nat = Some vx /\ SelfSig (v_event vx) = ex_1 /\ length (born W) = 1%nat.
Proof.
  assert (E : match ex_network with Some W => ex_reached W | None => false end = true) by (vm_compute; reflexivity).
  destruct ex_network as [W|] eqn:HW; [|discriminate E]. unfold ex_reached in E. apply andb_true_iff in E as [E1%Nat.eqb_eq E2].
  destruct (hosts W !! ex_2) as [h|] eqn:Hh; [|discriminate E2]. destruct (vertices (n_jp (h_node h))) as [|vx [|]] eqn:Hv; try discriminate E2.
  apply bool_decide_eq_true in E2. exists W, h, vx. split_and!; [by eapply run_network_ok|done|by rewrite Hv|done..].
Qed.

Lemma network_authentic_witness : exists W h e, hosts W !! ex_2 = Some h /\ stored (n_jp (h_node h)) e /\ SelfSig e = ex_1 /\
  exists e', born W = [(ex_1, e')] /\ wire e' = wire e.
Proof.
  destruct ex_network_runs as (W & h & vx & Hs & Hh & Hv & Hsig & Hb). exists W, h, (v_event vx).
  assert (St : stored (n_jp (h_node h)) (v_event vx)) by (by exists 0%nat, vx).
  destruct (network_authentic (fun _ => ""%string) map_to_list map_to_list id map_to_list 0 ex_hosts W ex_2 h (v_event vx)
    ltac:(reflexivity) ex_hosts_ok Hs Hh St) as [(e' & Hin & Hw) _].
  split; [exact Hh|]. split; [exact St|]. split; [exact Hsig|]. exists e'. split; [|exact Hw]. rewrite Hsig in Hin.
  destruct (born W) as [|x [|]]; try discriminate Hb. apply list_elem_of_singleton in Hin as <-. reflexivity.
Defined.

Lemma network_refines_nodes_witness : exists W h, hosts W !! ex_2 = Some h /\ length (born W) = 1%nat /\
  rtc (node_step (fun _ => ""%string) map_to_list map_to_list id 0) (node_start ex_2 2) (h_node h).
Proof.
  destruct ex_network_runs as (W & h & vx & Hs & Hh & Hv & Hsig & Hb). exists W, h. split; [exact Hh|]. split; [exact Hb|].
  destruct (network_refines_nodes (fun _ => ""%string) map_to_list map_to_list id map_to_list 0 ex_hosts W ex_2 h
    ltac:(reflexivity) ex_hosts_ok Hs Hh) as [(b & Eb & Hr) _].
  assert (b = 2%nat) as -> by (apply (bool_decide_unpack _) ; vm_compute in Eb; injection Eb as <-; exact I). exact Hr.
Defined.
