(* ===== verification/Hgrid.v ===== *)
(** * The program: [src/hgrid/main.go] and the start of a node

    [main] sets the log up, reads the configuration, makes the graph and the server of a node, and starts
    its loop.  Here the parts of the development meet: the handlers of [LogHandler], the server
    of [ServerLife] and the running node of [System].  The text of the configuration is decoded by [encoding/json] by way of
    reflection; [unmarshal] stands for it. *)

From S2P Require Import Prelude Types LogFormat LogHandler Graph Jigsaw JigsawSpec ServerLife System.
Local Open Scope Z_scope.

(** ** Configuration *)

Record GlobalConfig := MkConfig {
  InterMilli : Z; Addr : string; gc_Coinbase : Address; gc_Peers : list string }.

Definition zero_config : GlobalConfig := MkConfig 0 "" zero_address [].

Inductive config_error := CannotRead | CannotParse.

(** [flag.Int] without a later [flag.Parse]: the default, whatever the command line says. *)
Definition flag_Int (args : list string) (name : string) (value : Z) : Z := value.

(** [os.Stderr]. *)
Definition Stderr : nat := 2.

Section Program.
Context `{HE : Env U}.

(** [json.Unmarshal] into a configuration: what it may have set before an error stays. *)
Context (unmarshal : bytes -> GlobalConfig -> option config_error * GlobalConfig).

Definition Load (files : gmap string bytes) (filename : string) (v : GlobalConfig) : option config_error * GlobalConfig :=
  match files !! filename with
  | None => (Some CannotRead, v)
  | Some data => unmarshal data v
  end.

(** The log, then the configuration; an error of reading it is only logged. *)
Definition Initialize (args : list string) (files : gmap string bytes) : LogHandler.M (U := U) GlobalConfig := fun w =>
  let verbosity := flag_Int args "verbosity" LvlInfo in
  let p := fresh (dom (w_glog w)) in
  let glogger := Verbosity verbosity (NewGlogHandler (StreamHandler Stderr (TerminalFormat false))) in
  let w := MkWorld (w_globals w) (w_ext w) (w_swap w) (<[p := glogger]> (w_glog w)) (w_chan w) in
  (_ ← SetHandler root (GlogAt p); mret (Load files "./config.json" zero_config).2) w.

(** ** The node *)

Record Node := MkNd { jigsaw : JPGraph; nd_server : server; interval : Z }.

(** The server up to the nodes that it still has to be given; the error of [Start] is dropped. *)
Definition NewNode (gc : GlobalConfig) (listens : bool) : Node :=
  let broadness := length (gc_Peers gc) in
  let srv := Start (negb (bool_decide (Addr gc = ""%string))) listens broadness new_server in
  MkNd (NewJPGraph (gc_Coinbase gc) broadness) (default new_server srv) (InterMilli gc).

(** The period of the timer of [EventHandle], in microseconds. *)
Definition myInterval (nd : Node) : Z :=
  if (100 <=? interval nd) && (interval nd <=? 1000) then interval nd else 1000.

(** Up to the loop that only sleeps; the message about the first peer panics when there is none. *)
Definition main (args : list string) (files : gmap string bytes) (listens : bool) : LogHandler.M (U := U) Node :=
  gc ← Initialize args files;
  match gc_Peers gc with
  | [] => LogHandler.stop LogHandler.Panic
  | _ => mret (NewNode gc listens)
  end.

(** ** Properties *)

(** The handler that [Initialize] installs. *)
Definition start_glog : GlogHandler :=
  Verbosity LvlInfo (NewGlogHandler (StreamHandler Stderr (TerminalFormat false))).

Lemma Initialize_spec args files w : exists p w',
  Initialize args files w = Ok ((Load files "./config.json" zero_config).2, w') /\
  w_swap w' !! l_h root = Some (GlogAt p) /\ w_glog w' !! p = Some start_glog.
Proof.
  unfold Initialize. set (p := fresh (dom (w_glog w))). exists p. eexists. split; [reflexivity|].
  cbn [w_swap w_glog]. by rewrite !lookup_insert_eq.
Qed.

Lemma start_glog_filter r : 0 <= r_Lvl r < 2 ^ 32 -> glog_filter start_glog r = Ok (r_Lvl r <=? LvlInfo, start_glog).
Proof.
  intros Hr. unfold glog_filter, start_glog, Verbosity, NewGlogHandler. cbn [level override].
  unfold u32. rewrite !Z.mod_small by (unfold LvlInfo; lia). by destruct (r_Lvl r <=? LvlInfo).
Qed.

Lemma NewNode_server gc listens :
  reachable (nd_server (NewNode gc listens)) /\
  (Addr gc = ""%string \/ listens = true ->
     running (nd_server (NewNode gc listens)) = true /\
     lock (nd_server (NewNode gc listens)) = Starting (length (gc_Peers gc))) /\
  (Addr gc <> ""%string -> listens = false ->
     running (nd_server (NewNode gc listens)) = false /\ started (nd_server (NewNode gc listens)) = 1%nat /\
     dead 1 (nd_server (NewNode gc listens)) /\ (1%nat ∉ quit_closed (nd_server (NewNode gc listens)))).
Proof.
  cbn [NewNode nd_server].
  destruct (Start (negb (bool_decide (Addr gc = ""%string))) listens (length (gc_Peers gc)) new_server) as [srv|] eqn:E.
  2: { unfold Start, startListening in E. cbn in E. repeat case_match; done. }
  cbn [default]. split; [by apply (reach_step new_server (EStart (negb (bool_decide (Addr gc = ""%string))) listens (length (gc_Peers gc)))); [constructor|]|].
  apply Start_inv in E as [[? _]|(_ & _ & ->)]; [done|]. split.
  - intros Hl. destruct (negb (bool_decide (Addr gc = ""%string)) && negb listens)%bool eqn:Eb; [|done].
    apply andb_true_iff in Eb as [Ea Eb]. rewrite negb_true_iff, bool_decide_eq_false in Ea. destruct Hl as [?| ->]; done.
  - intros Ha ->. rewrite bool_decide_eq_false_2 by done. cbn. split; [done|]. split; [done|]. split; [by right|]. done.
Qed.


End Program.
